(* ===== verification/_CoqProject ===== *)
-Q . S2P
Prelude.v
Frisbee.v
GoStd.v
Interfaces.v
Metadata.v
Packet.v
Sync.v
Async.v
Concrete.v
AsyncSpec.v
ReadLoop.v
Typed.v
ReadSpec.v
Wire.v
Options.v
Dialer.v
Connect.v
Conn.v
Dispatch.v
Client.v
Hangup.v
Server.v
System.v
Serving.v
Shutdown.v
Lifecycle.v
Writers.v
Delivery.v
