(* ===== verification/Prelude.v ===== *)
(** * frisbee-go: a verification library

    Frisbee is a messaging framework: it frames packets on a byte stream, carries
    them over a TCP or TLS connection, multiplexes streams of packets on it, and
    dispatches packets to handlers in a client and in a server.  This library
    models the Go code under src/ and proves what makes it correct.

    ** The program and the files that model it

    - src/pkg/metadata: the ten-byte header and its codec, and the pool of header
      buffers: [Metadata.metadata].
    - src/pkg/packet: packets and their pool: [Packet.packet].
    - src/frisbee.go, src/conn.go, src/testutil.go: errors, actions, reserved
      operations and tunables: [Frisbee].
    - src/sync.go: the synchronous connection: [Sync.sync].
    - src/async.go and src/stream.go: the asynchronous connection.  Its operations
      and those of its streams are in [Async.async], one function per Go function
      ([writePacket], [flush], [close], [closeWithError], [Stream_ReadPacket], ...);
      [readLoop] is in [ReadLoop.read_loop], and whole sessions of operations and
      runs of the read loop are in [Typed.typed].  Its goroutines interleave in two
      models: [Lifecycle.lifecycle] has its three loops and the calls that close it,
      with errorMu, staleMu, streamsMu and the wait group; [Writers.writers] has any
      number of goroutines in [writePacket], [flush] and [close], cut at every access
      to what the mutex of the writer protects, and [Delivery.delivery] continues it.
    - src/conn.go, the interface of both connections, and their accessors:
      [Conn.conns].
    - src/internal/dialer, and [ConnectAsync], [ConnectSync] and the TLS accessors of
      the two connections: [Dialer.dialer], [Connect.connect].
    - src/options.go: [Options.options].
    - src/client.go and src/server.go: what both do with a packet and its handler is
      [Dispatch.dispatch]; the client is [Client.client], and [Hangup.hangup] its
      goroutine together with calls of [Close] and [Raw]; the server is
      [Server.server] (setters and [handleSinglePacket]), [Serving.serving]
      ([createHandler], [handleUnlimitedPacket], [handleLimitedPacket]) and
      [Shutdown.shutdown] ([Start], [handleListener], [serveConn], [Shutdown]).
      [System.system] puts a client and a server together.

    The client and the server know a connection through the class [Connection] of
    [Dispatch], which has what they use of an *Async, the concrete type they name;
    their theorems are proved from its laws, and the instance for the asynchronous
    connection discharges them.  The interface [Conn] that the package offers its
    users is another class, with laws of its own and two instances ([Conn]).  The connections know the third-party
    packages polyglot, queue and pool through the classes of [Interfaces], with the
    laws the code relies on and executable instances that satisfy them; [Concrete]
    puts these together to a world in which everything can be evaluated.  [GoStd] is
    what the code uses of the standard library: encoding/binary, io.ReadAtLeast,
    bufio.Writer and the two directions of a net.Conn.

    ** How the code is modelled

    - A Go function with effects is a computation of the monad [M]: from a state to
      an outcome, which is a result, a panic with its reason, a wait that nothing in
      the state can end ([Block]), or fuel exhausted ([OutOfFuel]).  Errors are
      values, as in Go.  Integers are [Z] with their widths and conversions written
      out, bytes are [Byte.byte], slicing out of range panics.
    - The receiving direction of a connection is a script: what each delivery of the
      network brings, and where it fails.  Theorems that quantify over scripts hold
      for every way the network cuts the bytes.  The sending direction has a list of
      faults to come, so that they hold for every failure too.
    - Streams are objects in a heap, since the users of a connection and its read
      loop share them; packets are references where the code compares pointers
      ([Dispatch]).
    - Concurrency is interleaving: [Serving], [Shutdown], [Hangup], [Lifecycle] and
      [Writers] have step relations whose states say where each goroutine stands.  The
      functions of [Async] are what one goroutine does when nobody interferes, and
      [alone_agrees] shows that the small steps of [Writers] then come to the same;
      [handle_dispatch] does so for the steps of [Serving].  In [Sync] another
      goroutine may close the connection, take it by [Raw] or fail with an error of
      its own before every I/O call and before every [closeWithError].
    - Closing a connection takes time, and may not end ([close_can_deadlock]).  The
      models of its users, [Serving], [Hangup] and [Shutdown], therefore have a
      [busy] field: the call that closes the connection is inside it while the close
      is not over, and when it is over is left to the environment.
    - What a server does before and with a reply is recorded in a trace
      ([Dispatch]), so that the order of [preWrite] and of the write is a fact.

    ** What the theorems show

    - Transport: packets written on one end of an asynchronous connection are read
      on the other, in order, with their metadata and contents ([end_to_end]), and so
      are those of a stream from its first packet to its end ([stream_end_to_end]);
      heartbeats are answered and leave no trace ([heartbeats_answered]); the same for
      the synchronous connection ([sync_roundtrip]); every pair of connections with
      the laws of [Conn] understands each other, with the ping loop at work, whose
      PINGs a synchronous reader is shown ([conns_interoperate]); the codec
      round trips ([encode_decode_roundtrip], [decode_total]).
    - The whole: requests of a client reach the handlers of a server, and their
      replies the handlers of the client ([request_reply]).
    - Refinement: the read loop, with its buffer, partial headers and split contents,
      does what a short specification does on the plain byte string
      ([readLoop_refines]); so does [Sync.ReadPacket] ([ReadPacket_refines]).
    - Safety: whatever the peer sends the read loop does not panic and does not spin,
      and it returns only with the connection closed ([readLoop_safety]); no sequence of operations breaks a connection
      ([async_safety], [sync_safety]); what readers are given is well formed and of
      the right sort ([received_well_typed]), and what a connection stores is bounded
      ([resource_bounds]).
    - Writing under concurrency: frames never mix, channels are never misused
      ([writes_atomic]); what was accepted before or during a close is delivered
      ([close_delivers]); every call returns ([writers_progress]).
    - Writing, flushing and closing on every branch ([WritePacket_correct],
      [WritePacket_failure], [written_packet_reaches_wire], [close_graceful],
      [stream_close_announces]).
    - Closing under concurrency: [close_protocol]; what a close can wait for, over all
      runs, STREAM packets that arrive meanwhile included, [close_progress]; and the
      state in which it deadlocks, [close_can_deadlock].
    - Dispatching: order of the replies, when the service ends, that packets go back
      to the pool once ([client_serves], [client_recycles], [single_serves],
      [single_closes_once], [serving_safe], [serving_progress]).
    - What a service, a client that is closed and a shutdown can wait for
      ([serving_progress], [client_close_returns], [shutdown_progress]): none is
      promised to end when the close of a connection does not.
    - Closing a client: by itself ([client_close]) and while it works
      ([client_hangs_up]); a handler that closes its own client
      waits for ever ([close_from_handler]).
    - The life of a server: [configure_ok], [accept_backoff], [shutdown_complete],
      [shutdown_progress], and the state in which a shutdown hangs,
      [shutdown_can_hang].
    - Pools give clean objects ([pooled_header_clean], [pooled_packets_blank]);
      dialing, connecting and options ([Dial_retries], [connect_correct],
      [loadOptions_spec]).
    - What the code does against its own documentation: [ping_content_is_parsed],
      [late_flush_hides_cause], [reserved9_accepted], [nil_stream_handler_runs].

    ** Bounds and fuel

    - [writePacketN] recurses at most twice: a write may close the connection, which
      writes for each stream, and these writes find it closed; [async_safety] shows
      that [OutOfFuel] does not occur.
    - [readLoop] takes as fuel two turns more than there are bytes to come, since
      every turn consumes a header; [readLoop_safety] shows that this is enough.
      [grow_buf] and the loop of bufio.Writer likewise have enough fuel for every
      input ([Writer_Write_loop] needs three turns).
    - [handleConn] and [handleSinglePacket] take the number of packets they may serve;
      their theorems hold for any number not below that of the packets that arrived.

    - The interleaving models have no fuel: [writers_progress], [close_progress],
      [client_close_returns] and [shutdown_progress] bound the number of steps by a
      measure of the state.

    ** What is not modelled

    Logging; the values of deadlines and of the ping interval (that setting a
    deadline may fail, and that the deadline set by a close has passed, is modelled;
    deadlines that users set count as failures of the socket).  TLS sessions, dialers,
    listeners, handlers, contexts and addresses are parameters.  A handler is a
    function that returns nothing, the packet it was given or a packet of its own
    making: one that does not return, or that returns a packet it has kept from an
    earlier call, which is then put back twice ([kept_packet_put_twice]), is out of scope.  In [Writers] waiting for
    the loops of the connection is free, since [Lifecycle] has it; in [Lifecycle] the
    mutex of the writer is left out, since [Writers] has it and nobody holds it while
    waiting for another lock.  The test-only accessor [started] of the server, and the
    constants PacketPing, PacketPong and PacketProbe, which only tests use.

    ** Order of the work

    The data model and the two connections came first, then the read loop and its
    specification, the client and the server, then the interleavings of closing,
    writing, serving and hanging up, and the composition of client and server.  What
    remains to be added: two [Async] ends whose goroutines run together; the
    concurrent services in the place of the sequential one in [System].

    This file is the prelude: bytes and machine integers, the monad with its weakest
    preconditions and the tactics on them, slices, and counting arguments. *)

From stdpp Require Export base tactics option list gmap numbers.
From Stdlib Require Export ZArith Lia.
From Stdlib Require Import Strings.Byte.

#[global] Open Scope Z_scope.
#[global] Unset Printing Records.

(** ** Bytes and fixed-width unsigned integers

    A Go [byte] is a [Byte.byte]; [uint16] and [uint32] are integers in range,
    with the conversions of the language written out ([uint16(x)] is
    [wrap 16 x]). *)

Abbreviation byte := Byte.byte.

Definition wrap (w z : Z) : Z := z mod 2 ^ w.

Definition in_width (w z : Z) : Prop := 0 ≤ z < 2 ^ w.

Abbreviation is_uint16 := (in_width 16).
Abbreviation is_uint32 := (in_width 32).

#[global] Instance in_width_dec w z : Decision (in_width w z).
Proof. unfold in_width; apply _. Defined.

(** [uint16(b)] and [byte(v)]: widening and truncating conversions. *)
Definition byte_to_Z (b : byte) : Z := Z.of_N (Byte.to_N b).

Definition byte_of_Z (z : Z) : byte :=
  match Byte.of_N (Z.to_N (z mod 256)) with
  | Some b => b
  | None => Byte.x00
  end.

#[global] Instance byte_eq_dec : EqDecision byte := Byte.byte_eq_dec.

Lemma byte_to_Z_range b : 0 ≤ byte_to_Z b < 256.
Proof.
  unfold byte_to_Z. pose proof (Byte.to_N_bounded b). lia.
Qed.

Lemma byte_to_of_Z z : byte_to_Z (byte_of_Z z) = z mod 256.
Proof.
  unfold byte_to_Z, byte_of_Z.
  pose proof (Z.mod_pos_bound z 256 ltac:(lia)) as Hb.
  destruct (Byte.of_N _) as [b|] eqn:E.
  - apply Byte.to_of_N in E. rewrite E. lia.
  - apply Byte.of_N_None_iff in E. lia.
Qed.

Lemma byte_of_to_Z b : byte_of_Z (byte_to_Z b) = b.
Proof.
  unfold byte_of_Z. pose proof (byte_to_Z_range b).
  rewrite Z.mod_small by lia. unfold byte_to_Z.
  rewrite N2Z.id, Byte.of_to_N. done.
Qed.

(** ** Outcomes and the state monad

    A Go call returns, panics, blocks until some other goroutine acts, or (only
    in the fuelled definitions) exhausts its fuel.  [M S A] threads the state a
    function mutates; a panic or a block keeps the state reached so far, as the
    heap of a Go program does. *)

Inductive panic :=
  | IndexOutOfRange
  | CloseOfClosedChannel
  | SendOnClosedChannel
  | NilDereference
  | InconsistentStore
  | NegativeWaitGroup
  | TypeAssertion.

#[global] Instance panic_eq_dec : EqDecision panic.
Proof. solve_decision. Defined.

Inductive outcome (A : Type) :=
  | Ret (a : A)
  | Panic (why : panic)
  | Block
  | OutOfFuel.
Arguments Ret {A} a.
Arguments Panic {A} why.
Arguments Block {A}.
Arguments OutOfFuel {A}.

Definition M (S A : Type) : Type := S → outcome A * S.

#[global] Instance M_ret {S} : MRet (M S) := λ A a s, (Ret a, s).

#[global] Instance M_bind {S} : MBind (M S) := λ A B k m s,
  match m s with
  | (Ret a, s') => k a s'
  | (Panic w, s') => (Panic w, s')
  | (Block, s') => (Block, s')
  | (OutOfFuel, s') => (OutOfFuel, s')
  end.

Section monad_ops.
Context {S : Type}.

Definition get : M S S := λ s, (Ret s, s).
Definition modify (f : S → S) : M S unit := λ s, (Ret tt, f s).
Definition panicM {A} (w : panic) : M S A := λ s, (Panic w, s).
Definition blockM {A} : M S A := λ s, (Block, s).
Definition out_of_fuel {A} : M S A := λ s, (OutOfFuel, s).

(** An operation that fails by panicking, such as slicing. *)
Definition or_panic {A} (o : option A) (w : panic) : M S A :=
  match o with Some a => mret a | None => panicM w end.

(** Runs [m] on a component of the state. *)
Definition zoom {T A} (g : S → T) (p : T → S → S) (m : M T A) : M S A :=
  λ s, let '(r, t) := m (g s) in (r, p t s).

Lemma bind_Ret {A B} (m : M S A) (k : A → M S B) s a s' :
  m s = (Ret a, s') → (m ≫= k) s = k a s'.
Proof. intros E. unfold mbind, M_bind. by rewrite E. Qed.

Lemma bind_Ret_inv {A B} (m : M S A) (k : A → M S B) s b s'' :
  (m ≫= k) s = (Ret b, s'') → ∃ a s', m s = (Ret a, s') ∧ k a s' = (Ret b, s'').
Proof.
  unfold mbind, M_bind. destruct (m s) as [[]]; naive_solver.
Qed.

(** *** Weakest preconditions

    [wp m Q B s]: from [s], [m] neither panics nor runs out of fuel; [Q] holds of
    its result and final state, [B] of the state in which it blocks. *)
Definition wp {A} (m : M S A) (Q : A → S → Prop) (B : S → Prop) (s : S) : Prop :=
  match m s with
  | (Ret a, s') => Q a s'
  | (Block, s') => B s'
  | (Panic _, _) | (OutOfFuel, _) => False
  end.

Lemma wp_bind {A B} (m : M S A) (k : A → M S B) Q Bl s :
  wp m (λ a, wp (k a) Q Bl) Bl s → wp (m ≫= k) Q Bl s.
Proof. unfold wp, mbind, M_bind. by destruct (m s) as [[]]. Qed.

Lemma wp_ret {A} (a : A) (Q : A → S → Prop) Bl s : Q a s → wp (mret a) Q Bl s.
Proof. done. Qed.

Lemma wp_get (Q : S → S → Prop) Bl s : Q s s → wp get Q Bl s.
Proof. done. Qed.

Lemma wp_modify f (Q : unit → S → Prop) Bl s : Q tt (f s) → wp (modify f) Q Bl s.
Proof. done. Qed.

Lemma wp_block {A} (Q : A → S → Prop) Bl s : Bl s → wp blockM Q Bl s.
Proof. done. Qed.

Lemma wp_or_panic {A} (o : option A) w a (Q : A → S → Prop) Bl s :
  o = Some a → Q a s → wp (or_panic o w) Q Bl s.
Proof. by intros ->. Qed.

Lemma wp_mono {A} (m : M S A) (Q Q' : A → S → Prop) (Bl Bl' : S → Prop) s :
  wp m Q Bl s → (∀ a s', Q a s' → Q' a s') → (∀ s', Bl s' → Bl' s') → wp m Q' Bl' s.
Proof. unfold wp. destruct (m s) as [[]]; eauto. Qed.

Lemma wp_Ret_inv {A} (m : M S A) (Q : A → S → Prop) Bl s a s' :
  wp m Q Bl s → m s = (Ret a, s') → Q a s'.
Proof. unfold wp. intros H E. by rewrite E in H. Qed.

Lemma wp_Block_inv {A} (m : M S A) (Q : A → S → Prop) Bl s s' :
  wp m Q Bl s → m s = (Block, s') → Bl s'.
Proof. unfold wp. intros H E. by rewrite E in H. Qed.

End monad_ops.

Lemma wp_zoom {S T A} (g : S → T) (p : T → S → S) (m : M T A) (Q : A → S → Prop) Bl s :
  wp m (λ a t, Q a (p t s)) (λ t, Bl (p t s)) (g s) → wp (zoom g p m) Q Bl s.
Proof. unfold wp, zoom. by destruct (m (g s)) as [[]]. Qed.

(** Steps through the monadic structure of a program, leaving calls to other
    operations to their own lemmas. *)
Ltac wp_step :=
  lazymatch goal with
  | |- wp (_ ≫= _) _ _ _ => apply wp_bind
  | |- wp (mret _) _ _ _ => apply wp_ret
  | |- wp get _ _ _ => apply wp_get
  | |- wp (modify _) _ _ _ => apply wp_modify
  | |- wp blockM _ _ _ => apply wp_block
  | |- wp (if ?b then _ else _) _ _ _ => destruct b eqn:?
  | |- wp (let '(_, _) := ?x in _) _ _ _ => destruct x eqn:?
  | |- wp (match ?x with Some _ => _ | None => _ end) _ _ _ => destruct x eqn:?
  | |- wp (match ?x with inl _ => _ | inr _ => _ end) _ _ _ => destruct x eqn:?
  | |- wp ((λ _, _) _) _ _ _ => cbv beta
  end.
Ltac wp_steps := repeat wp_step.

(** *** Preservation

    [preserves I R m]: from a state satisfying the invariant [I], [m] neither
    panics nor runs out of fuel, and whether it returns or blocks the invariant
    holds again and the state has only moved along the preorder [R]. *)
Section preserves.
Context {S : Type} (I : S → Prop) (R : relation S) `{!PreOrder R}.

Definition moved (s s' : S) : Prop := I s' ∧ R s s'.

Definition preserves {A} (m : M S A) : Prop :=
  ∀ s, I s → wp m (λ _ s', moved s s') (λ s', moved s s') s.

Lemma preserves_ret {A} (a : A) : preserves (mret a).
Proof. intros s Hs. apply wp_ret. by split. Qed.

Lemma preserves_get : preserves get.
Proof. intros s Hs. apply wp_get. by split. Qed.

Lemma preserves_block {A} : preserves (blockM (A := A)).
Proof. intros s Hs. apply wp_block. by split. Qed.

Lemma preserves_modify f : (∀ s, I s → moved s (f s)) → preserves (modify f).
Proof. intros H s Hs. apply wp_modify. by apply H. Qed.

Lemma preserves_or_panic {A} (o : option A) w : is_Some o → preserves (or_panic o w).
Proof. intros [a ->]. apply preserves_ret. Qed.

Lemma preserves_bind {A B} (m : M S A) (k : A → M S B) :
  preserves m → (∀ a, preserves (k a)) → preserves (m ≫= k).
Proof.
  intros Hm Hk s Hs. apply wp_bind. eapply wp_mono; [by apply Hm|simpl|done].
  intros a s' [Hs' Hr]. eapply wp_mono; [by apply Hk|..]; simpl.
  all: intros; unfold moved in *; destruct_and!; split; [done|by etrans].
Qed.

Lemma preserves_ret_bind {A B} (a : A) (k : A → M S B) :
  preserves (k a) → preserves (mret a ≫= k).
Proof. done. Qed.

(** The same with a fact [P] about the result of the first part. *)
Lemma preserves_bind_post {A B} (P : A → Prop) (m : M S A) (k : A → M S B) :
  preserves m → (∀ s a s', I s → m s = (Ret a, s') → P a) → (∀ a, P a → preserves (k a)) →
  preserves (m ≫= k).
Proof.
  intros Hm HP Hk s Hs. specialize (Hm s Hs). specialize (HP s). unfold wp in *.
  unfold mbind, M_bind. destruct (m s) as [[a| | |] s'] eqn:E; try done.
  destruct Hm as [Hs' Hr]. assert (P a) as Ha by eauto.
  specialize (Hk a Ha s' Hs'). unfold wp in Hk.
  destruct (k a s') as [[]]; try done; destruct Hk; split; try done; by etrans.
Qed.

Lemma preserves_get_bind {B} (k : S → M S B) :
  (∀ s, I s → wp (k s) (λ _ s', moved s s') (λ s', moved s s') s) → preserves (get ≫= k).
Proof. intros H s Hs. apply wp_bind, wp_get. by apply H. Qed.

Lemma preserves_out {A} (m : M S A) s : preserves m → I s →
  match m s with (Panic _, _) | (OutOfFuel, _) => False | (_, s') => moved s s' end.
Proof. intros H Hs. specialize (H s Hs). unfold wp in H. by destruct (m s) as [[]]. Qed.
End preserves.

(** *** Operations that never wait for another goroutine *)
Section nonblocking.
Context {S : Type}.

Definition nonblocking {A} (m : M S A) : Prop := ∀ s, (m s).1 ≠ Block.

Lemma nonblocking_ret {A} (a : A) : nonblocking (mret a).
Proof. by intros s. Qed.

Lemma nonblocking_get : nonblocking get.
Proof. by intros s. Qed.

Lemma nonblocking_modify f : nonblocking (modify f).
Proof. by intros s. Qed.

Lemma nonblocking_panic {A} w : nonblocking (panicM (A := A) w).
Proof. by intros s. Qed.

Lemma nonblocking_fuel {A} : nonblocking (out_of_fuel (A := A)).
Proof. by intros s. Qed.

Lemma nonblocking_or_panic {A} (o : option A) w : nonblocking (or_panic o w).
Proof. by destruct o. Qed.

Lemma nonblocking_bind {A B} (m : M S A) (k : A → M S B) :
  nonblocking m → (∀ a, nonblocking (k a)) → nonblocking (m ≫= k).
Proof.
  intros Hm Hk s. specialize (Hm s). unfold mbind, M_bind.
  destruct (m s) as [[a| | |] s']; simpl in *; try done. apply Hk.
Qed.
End nonblocking.

Lemma nonblocking_zoom {S T A} (g : S → T) (p : T → S → S) (m : M T A) :
  nonblocking m → nonblocking (zoom g p m).
Proof. intros H s. specialize (H (g s)). unfold zoom. by destruct (m (g s)). Qed.

Create HintDb nonblock.
#[export] Hint Resolve nonblocking_ret nonblocking_get nonblocking_modify nonblocking_panic
  nonblocking_fuel nonblocking_or_panic nonblocking_zoom : nonblock.

Ltac nonblock :=
  repeat first
    [ solve [eauto with nonblock]
    | lazymatch goal with
      | |- nonblocking (_ ≫= _) => apply nonblocking_bind; [|intros ?]
      | |- nonblocking (if ?b then _ else _) => destruct b
      | |- nonblocking (let '(_, _) := ?x in _) => destruct x
      | |- nonblocking (match ?x with _ => _ end) => destruct x
      end ].

Create HintDb preserve.
#[export] Hint Resolve preserves_ret preserves_get preserves_block : preserve.

(** Follows the structure of a program and leaves the calls that the hint
    database does not know. *)
Ltac preserve :=
  repeat first
    [ solve [eauto with preserve typeclass_instances]
    | lazymatch goal with
      | |- preserves _ _ (_ ≫= _) => apply preserves_bind; [apply _ || auto..| |intros ?]
      | |- preserves _ _ (if ?b then _ else _) => destruct b eqn:?
      | |- preserves _ _ (let '(_, _) := ?x in _) => destruct x eqn:?
      | |- preserves _ _ (match ?x with _ => _ end) => destruct x eqn:?
      end ].

(** Evaluates the monadic plumbing of a goal. *)
Ltac munfold :=
  cbv [mret M_ret mbind M_bind get modify panicM blockM out_of_fuel or_panic zoom] in *.

(** ** Slices

    Go's [int] indexes slices; [len] is the length of a slice, [slice l lo hi]
    is [l[lo:hi]] with its bounds check, [splice l off d] is the backing array
    after [copy(l[off:], d)]. *)

Definition len {A} (l : list A) : Z := Z.of_nat (length l).

Definition sub {A} (l : list A) (lo hi : Z) : list A :=
  take (Z.to_nat (hi - lo)) (drop (Z.to_nat lo) l).

Definition slice {A} (l : list A) (lo hi : Z) : option (list A) :=
  if bool_decide (0 ≤ lo ∧ lo ≤ hi ∧ hi ≤ len l) then Some (sub l lo hi) else None.

Definition splice {A} (l : list A) (off : Z) (d : list A) : list A :=
  take (Z.to_nat off) l ++ d ++ drop (Z.to_nat (off + len d)) l.

Create HintDb slices.

(** Closes length and bounds goals about slices. *)
Ltac len_solve :=
  unfold sub, splice, len in *;
  repeat rewrite ?length_app, ?length_take, ?length_drop, ?length_replicate in *;
  simpl length in *; lia.

Section slices.
Context {A : Type}.
Implicit Types l d : list A.

Lemma len_nonneg l : 0 ≤ len l.
Proof. unfold len; lia. Qed.

Lemma len_app l d : len (l ++ d) = len l + len d.
Proof. len_solve. Qed.

Lemma len_cons (x : A) l : len (x :: l) = 1 + len l.
Proof. unfold len; simpl; lia. Qed.

Lemma len_nil : len ([] : list A) = 0.
Proof. done. Qed.

Lemma len_zero_inv l : len l = 0 → l = [].
Proof. destruct l; [done|]. rewrite len_cons. pose proof (len_nonneg l). lia. Qed.

Lemma len_replicate n (x : A) : 0 ≤ n → len (replicate (Z.to_nat n) x) = n.
Proof. len_solve. Qed.

Lemma len_sub l lo hi : 0 ≤ lo → lo ≤ hi → hi ≤ len l → len (sub l lo hi) = hi - lo.
Proof. len_solve. Qed.

Lemma len_splice l off d :
  0 ≤ off → off + len d ≤ len l → len (splice l off d) = len l.
Proof. len_solve. Qed.

Lemma slice_Some l lo hi :
  0 ≤ lo → lo ≤ hi → hi ≤ len l → slice l lo hi = Some (sub l lo hi).
Proof. intros. unfold slice. by rewrite bool_decide_true. Qed.

Lemma slice_Some_inv l lo hi d :
  slice l lo hi = Some d → 0 ≤ lo ≤ hi ∧ hi ≤ len l ∧ d = sub l lo hi.
Proof. unfold slice. case_bool_decide as E; [|done]. intros [= <-]. split_and!; lia || done. Qed.

Lemma sub_empty l i : sub l i i = [].
Proof. unfold sub. by rewrite Z.sub_diag. Qed.

Lemma sub_all l n : n = len l → sub l 0 n = l.
Proof. intros ->. unfold sub. simpl. rewrite drop_0. apply take_ge. len_solve. Qed.

Lemma sub_split l lo mid hi :
  0 ≤ lo → lo ≤ mid → mid ≤ hi → sub l lo hi = sub l lo mid ++ sub l mid hi.
Proof.
  intros. unfold sub.
  replace (Z.to_nat (hi - lo)) with (Z.to_nat (mid - lo) + Z.to_nat (hi - mid))%nat by lia.
  rewrite <- take_take_drop, drop_drop. do 3 f_equal. lia.
Qed.

Lemma sub_app_l l d lo hi : 0 ≤ lo → hi ≤ len l → sub (l ++ d) lo hi = sub l lo hi.
Proof.
  intros. unfold sub.
  destruct (decide (lo ≤ hi)).
  - rewrite drop_app_le by len_solve. rewrite take_app_le; [done|len_solve].
  - by replace (Z.to_nat (hi - lo)) with 0%nat by lia.
Qed.

Lemma sub_app_r l d lo hi : lo = len l → hi = len l + len d → sub (l ++ d) lo hi = d.
Proof.
  intros -> ->. unfold sub. rewrite drop_app_length' by len_solve. apply take_ge. len_solve.
Qed.

Lemma sub_sub l lo hi a b :
  0 ≤ lo → 0 ≤ a → a ≤ b → lo + b ≤ hi → sub (sub l lo hi) a b = sub l (lo + a) (lo + b).
Proof.
  intros. unfold sub. rewrite skipn_firstn_comm, take_take, drop_drop.
  f_equal; [lia|f_equal; lia].
Qed.

Lemma sub_splice_at l off d hi :
  0 ≤ off → off ≤ len l → hi = off + len d → sub (splice l off d) off hi = d.
Proof.
  intros ? ? ->. unfold sub, splice.
  rewrite drop_app_length' by len_solve.
  apply take_app_length'. len_solve.
Qed.

Lemma sub_splice_before l off d lo hi :
  0 ≤ lo → hi ≤ off → off ≤ len l → sub (splice l off d) lo hi = sub l lo hi.
Proof.
  intros. unfold splice. rewrite <- (take_drop (Z.to_nat off) l) at 3.
  rewrite !sub_app_l by len_solve. done.
Qed.

Lemma alter_at (f : A → A) l i x : l !! i = Some x → alter f i l = <[i := f x]> l.
Proof.
  intros H. rewrite list_insert_alter. apply list_alter_ext; [|done]. congruence.
Qed.

End slices.

(** ** Counting

    Sums over a list one of whose elements changes: how many goroutines are at a
    given point, how many hold a lock. *)

Section counting.
Context {A : Type} (f : A → nat).
Implicit Types l : list A.

Lemma sum_insert l i x y :
  l !! i = Some x → (sum_list_with f (<[i := y]> l) + f x = sum_list_with f l + f y)%nat.
Proof.
  revert i. induction l as [|z l IH]; intros [|i] Hi; simplify_eq/=; [lia|].
  specialize (IH i Hi). lia.
Qed.

Lemma sum_member l i x : l !! i = Some x → (f x ≤ sum_list_with f l)%nat.
Proof.
  revert i. induction l as [|z l IH]; intros [|i] Hi; simplify_eq/=; [lia|].
  specialize (IH i Hi). lia.
Qed.

Lemma sum_two l i x j y :
  l !! i = Some x → l !! j = Some y → i ≠ j → (f x + f y ≤ sum_list_with f l)%nat.
Proof.
  revert i j. induction l as [|z l IH]; intros [|i] [|j] Hi Hj Hne; simplify_eq/=.
  - pose proof (sum_member l j y Hj). lia.
  - pose proof (sum_member l i x Hi). lia.
  - specialize (IH i j Hi Hj ltac:(congruence)). lia.
Qed.

Lemma sum_positive l : (0 < sum_list_with f l)%nat → ∃ i x, l !! i = Some x ∧ (0 < f x)%nat.
Proof.
  induction l as [|z l IH]; simpl; [lia|]. intros Hs. destruct (decide (0 < f z)%nat).
  - by exists 0%nat, z.
  - destruct IH as (i&x&?&?); [lia|]. by exists (S i), x.
Qed.
End counting.
