(* ===== verification/Frisbee.v ===== *)
(** * Errors, actions, reserved operations and tunables (frisbee.go, conn.go)

    The sentinel errors of every package are one inductive type, so that
    [errors.Is] and comparisons are decidable.  [Globals] carries the package
    variable [DefaultMaxContentLength], which callers may change. *)

From S2P Require Import Prelude.

(** ** Errors *)

Inductive error :=
  (* frisbee.go *)
  | InvalidContentLength
  | ConnectionClosed
  | StreamClosed
  | InvalidStreamPacket
  | ConnectionNotInitialized
  | InvalidMagicHeader
  | InvalidBufferLength
  | InvalidHandlerTable
  | InvalidOperation
  | ContentLengthExceeded
  (* conn.go *)
  | NotTLSConnectionError
  (* server.go *)
  | OnClosedNil
  | PreWriteNil
  | ListenerNil
  (* pkg/metadata *)
  | EncodingErr
  | DecodingErr
  | InvalidBufferLengthErr
  (* the standard library: io, net, and any other I/O error by number *)
  | EOF
  | ErrUnexpectedEOF
  | ErrShortWrite
  | ErrNetClosed
  | IOError (code : Z)
  | RuntimeError (why : panic)
  (* common/pkg/queue *)
  | QueueClosed
  (* errors.Join *)
  | Join (e1 e2 : error).

#[global] Instance error_eq_dec : EqDecision error.
Proof. solve_decision. Defined.

(** [errors.Is(err, target)]: the target occurs in the tree of joined errors. *)
Fixpoint errors_Is (err target : error) : bool :=
  bool_decide (err = target) ||
  match err with
  | Join e1 e2 => errors_Is e1 target || errors_Is e2 target
  | _ => false
  end.

Lemma errors_Is_refl e : errors_Is e e = true.
Proof. destruct e; cbn [errors_Is]; by rewrite bool_decide_true by done. Qed.

(** ** Reserved operations and handler actions *)

Definition PING : Z := 0.
Definition PONG : Z := 1.
Definition STREAM : Z := 2.
Definition RESERVED9 : Z := 9.

(** [Action] is an [int]: values other than the two constants are possible and
    the dispatchers treat them like [NONE]. *)
Definition Action := Z.
Definition NONE : Action := 0.
Definition CLOSE : Action := 1.

(** ** Tunables *)

Definition DefaultBufferSize : Z := Z.shiftl 1 16.
Definition DefaultStreamBufferSize : Z := Z.shiftl 1 12.

(** The accept backoff, in nanoseconds. *)
Definition minBackoff : Z := 5000000.
Definition maxBackoff : Z := 1000000000.

Class Globals := {
  DefaultMaxContentLength : Z;
  (** [cap] after [append] on a full slice of the given capacity *)
  append_cap : Z → Z;
}.

(** The language promises only that [append] makes room for the element. *)
Class GlobalsLaws (G : Globals) : Prop := {
  max_content_uint32 : is_uint32 DefaultMaxContentLength;
  append_cap_grows c : 0 ≤ c → c < append_cap c;
}.

(** The values the package starts with; slices grow by doubling. *)
Definition default_globals : Globals := {|
  DefaultMaxContentLength := 5 * 1024 * 1024;
  append_cap c := 2 * c + 1;
|}.

(** testutil.go: the limit switched off, with the old value returned. *)
Definition DisableMaxContentLength (G : Globals) : Z * Globals :=
  (DefaultMaxContentLength,
   {| DefaultMaxContentLength := 0; append_cap := append_cap |}).

#[export] Instance default_globals_laws : GlobalsLaws default_globals.
Proof. split; [vm_compute; split; congruence|simpl; lia]. Qed.

#[export] Instance disabled_globals_laws G :
  GlobalsLaws G → GlobalsLaws (DisableMaxContentLength G).2.
Proof. intros [? ?]. split; [split; simpl; lia|done]. Qed.

(** The guard every read and write path applies to a content length:
    [DefaultMaxContentLength > 0 && length > DefaultMaxContentLength]. *)
Definition exceeds_max `{G : Globals} (contentLength : Z) : bool :=
  (DefaultMaxContentLength >? 0) && (contentLength >? DefaultMaxContentLength).

Lemma exceeds_max_disabled G n :
  @exceeds_max (DisableMaxContentLength G).2 n = false.
Proof. done. Qed.
