(* ===== verification/GoStd.v ===== *)
(** * What the program uses of the Go standard library

    [encoding/binary] (big-endian), the reading and writing sides of a
    [net.Conn], [io.ReadAtLeast] and [bufio.Writer].

    The reading side of a connection is a script: the data and the error of each
    successive delivery of the network.  One [Read] returns at most one delivery
    and leaves the rest of it for the next call, so quantifying over scripts
    quantifies over every way the network can cut the byte stream into reads.
    An exhausted script means that the peer has sent nothing more: the read
    blocks. *)

From S2P Require Import Prelude Frisbee.

(** ** encoding/binary.BigEndian *)

Definition PutUint16 (b : list byte) (v : Z) : option (list byte) :=
  match b with
  | _ :: _ :: r => Some (byte_of_Z (Z.shiftr v 8) :: byte_of_Z v :: r)
  | _ => None
  end.

Definition PutUint32 (b : list byte) (v : Z) : option (list byte) :=
  match b with
  | _ :: _ :: _ :: _ :: r =>
      Some (byte_of_Z (Z.shiftr v 24) :: byte_of_Z (Z.shiftr v 16)
            :: byte_of_Z (Z.shiftr v 8) :: byte_of_Z v :: r)
  | _ => None
  end.

Definition Uint16 (b : list byte) : option Z :=
  match b with
  | b0 :: b1 :: _ => Some (Z.lor (byte_to_Z b1) (Z.shiftl (byte_to_Z b0) 8))
  | _ => None
  end.

Definition Uint32 (b : list byte) : option Z :=
  match b with
  | b0 :: b1 :: b2 :: b3 :: _ =>
      Some (Z.lor (byte_to_Z b3)
             (Z.lor (Z.shiftl (byte_to_Z b2) 8)
               (Z.lor (Z.shiftl (byte_to_Z b1) 16) (Z.shiftl (byte_to_Z b0) 24))))
  | _ => None
  end.

(** [f(buf[lo:hi])] for a function that writes through the slice: the backing
    array afterwards, or [None] when slicing or [f] panics. *)
Definition through_slice (buf : list byte) (lo hi : Z)
    (f : list byte → option (list byte)) : option (list byte) :=
  s ← slice buf lo hi; d ← f s; Some (splice buf lo d).

(** A value split in its bytes and put together again. *)
Lemma lor_shiftl_add a b k : 0 ≤ k → 0 ≤ a < 2 ^ k → Z.lor a (Z.shiftl b k) = a + b * 2 ^ k.
Proof.
  intros Hk Ha. rewrite Z.shiftl_mul_pow2 by lia.
  rewrite <- (Z.add_lor_land a). enough (Z.land a (b * 2 ^ k) = 0) by lia.
  apply Z.bits_inj'. intros n Hn. rewrite Z.land_spec, Z.bits_0.
  destruct (decide (n < k)).
  - rewrite Z.mul_pow2_bits_low by lia. by rewrite andb_false_r.
  - rewrite <- (Z.mod_small a (2 ^ k)) by lia.
    by rewrite Z.mod_pow2_bits_high by lia.
Qed.

Lemma Uint16_spec b0 b1 r :
  Uint16 (b0 :: b1 :: r) = Some (byte_to_Z b0 * 256 + byte_to_Z b1).
Proof.
  unfold Uint16. pose proof (byte_to_Z_range b1).
  rewrite lor_shiftl_add by lia. f_equal. lia.
Qed.

Lemma Uint32_spec b0 b1 b2 b3 r :
  Uint32 (b0 :: b1 :: b2 :: b3 :: r) =
  Some (byte_to_Z b0 * 16777216 + byte_to_Z b1 * 65536 + byte_to_Z b2 * 256 + byte_to_Z b3).
Proof.
  unfold Uint32.
  pose proof (byte_to_Z_range b0); pose proof (byte_to_Z_range b1);
  pose proof (byte_to_Z_range b2); pose proof (byte_to_Z_range b3).
  rewrite !Z.lor_assoc.
  rewrite (lor_shiftl_add (byte_to_Z b3)), (lor_shiftl_add (_ + _)), (lor_shiftl_add (_ + _ + _)) by lia.
  f_equal. lia.
Qed.

Lemma Uint16_bounds b v : Uint16 b = Some v → is_uint16 v.
Proof.
  destruct b as [|b0 [|b1 r]]; try done. rewrite Uint16_spec. intros [= <-].
  pose proof (byte_to_Z_range b0); pose proof (byte_to_Z_range b1).
  unfold in_width. lia.
Qed.

Lemma Uint32_bounds b v : Uint32 b = Some v → is_uint32 v.
Proof.
  destruct b as [|b0 [|b1 [|b2 [|b3 r]]]]; try done. rewrite Uint32_spec. intros [= <-].
  pose proof (byte_to_Z_range b0); pose proof (byte_to_Z_range b1);
  pose proof (byte_to_Z_range b2); pose proof (byte_to_Z_range b3).
  unfold in_width. lia.
Qed.

Lemma Uint16_total b : 2 ≤ len b → ∃ v, Uint16 b = Some v ∧ is_uint16 v.
Proof.
  destruct b as [|b0 [|b1 r]]; try done. intros _.
  eexists. split; [reflexivity|]. by eapply (Uint16_bounds (b0 :: b1 :: r)).
Qed.

Lemma Uint32_total b : 4 ≤ len b → ∃ v, Uint32 b = Some v ∧ is_uint32 v.
Proof.
  destruct b as [|b0 [|b1 [|b2 [|b3 r]]]]; try done. intros _.
  eexists. split; [reflexivity|]. by eapply (Uint32_bounds (b0 :: b1 :: b2 :: b3 :: r)).
Qed.

(** The two bytes [PutUint16] writes, and the four of [PutUint32]. *)
Definition be16 (v : Z) : list byte := [byte_of_Z (Z.shiftr v 8); byte_of_Z v].
Definition be32 (v : Z) : list byte :=
  [byte_of_Z (Z.shiftr v 24); byte_of_Z (Z.shiftr v 16); byte_of_Z (Z.shiftr v 8); byte_of_Z v].

Lemma Uint16_be16 v r : Uint16 (be16 v ++ r) = Some (wrap 16 v).
Proof.
  unfold be16. simpl app. rewrite Uint16_spec. f_equal.
  rewrite !byte_to_of_Z, Z.shiftr_div_pow2 by lia. unfold wrap.
  change (2 ^ 8) with 256. change (2 ^ 16) with 65536.
  pose proof (Z.mod_pos_bound (v / 256) 256). pose proof (Z.mod_pos_bound v 256).
  apply (Z.mod_unique_pos _ _ (v / 256 / 256)); [lia|].
  pose proof (Z.div_mod v 256). pose proof (Z.div_mod (v / 256) 256). lia.
Qed.

Lemma Uint32_be32 v r : Uint32 (be32 v ++ r) = Some (wrap 32 v).
Proof.
  unfold be32. simpl app. rewrite Uint32_spec. f_equal.
  rewrite !byte_to_of_Z, !Z.shiftr_div_pow2 by lia. unfold wrap.
  change (2 ^ 8) with 256. change (2 ^ 16) with (256 * 256).
  change (2 ^ 24) with (256 * 256 * 256). change (2 ^ 32) with 4294967296.
  rewrite <- !Z.div_div by lia.
  pose proof (Z.div_mod v 256). pose proof (Z.div_mod (v / 256) 256).
  pose proof (Z.div_mod (v / 256 / 256) 256). pose proof (Z.div_mod (v / 256 / 256 / 256) 256).
  pose proof (Z.mod_pos_bound v 256). pose proof (Z.mod_pos_bound (v / 256) 256).
  pose proof (Z.mod_pos_bound (v / 256 / 256) 256).
  pose proof (Z.mod_pos_bound (v / 256 / 256 / 256) 256).
  apply (Z.mod_unique_pos _ _ (v / 256 / 256 / 256 / 256)); lia.
Qed.

Lemma len_be16 v : len (be16 v) = 2. Proof. done. Qed.
Lemma len_be32 v : len (be32 v) = 4. Proof. done. Qed.

(** ** net.Conn, the reading side *)

(** One delivery of the network: bytes, and the error that comes with them. *)
Abbreviation script := (list (list byte * option error)).

(** The results of successive [SetDeadline] calls; [nil] once it is exhausted. *)
Abbreviation deadlines := (list (option error)).

Definition next_deadline (ds : deadlines) : option error * deadlines :=
  match ds with
  | [] => (None, [])
  | e :: ds' => (e, ds')
  end.

(** [conn.Read(b)] with [len(b) = room]: the bytes stored, the error, and what
    the network still has to deliver.  [None] is a read that blocks. *)
Definition conn_Read (room : Z) (s : script) : option (list byte * option error * script) :=
  match s with
  | [] => None
  | (d, e) :: rest =>
      if len d <=? room then Some (d, e, rest)
      else Some (take (Z.to_nat room) d, None, (drop (Z.to_nat room) d, e) :: rest)
  end.

Inductive fill_result :=
  | Filled (buf : list byte) (n : Z) (s : script) (ds : deadlines)
  | FillFailed (n : Z) (err : error)
  | FillBlocked
  | FillPanic
  | FillSpin.

(** The loop
    [[
      for n < minSize {
        err = conn.SetReadDeadline(...); if err != nil { fail }
        nn, err = conn.Read(buf[off+n:]); n += nn
        if err != nil { if n < minSize { fail }; break }
      }
    ]]
    that [readLoop] contains four times and [io.ReadAtLeast] once (without the
    deadline).  A read that returns less than a whole delivery has filled the
    rest of [buf], so the recursion follows the script.  [FillSpin] is the loop
    that reads into an empty slice for ever. *)
Fixpoint fill (s : script) (ds : deadlines) (buf : list byte) (off n minSize : Z)
    : fill_result :=
  if n >=? minSize then Filled buf n s ds
  else
    match next_deadline ds with
    | (Some err, _) => FillFailed n err
    | (None, ds') =>
        match s with
        | [] => FillBlocked
        | (d, e) :: rest =>
            let room := len buf - (off + n) in
            if room <? 0 then FillPanic
            else if len d <=? room then
              let buf' := splice buf (off + n) d in
              let n' := n + len d in
              match e with
              | Some err => if n' <? minSize then FillFailed n' err else Filled buf' n' rest ds'
              | None => fill rest ds' buf' off n' minSize
              end
            else
              let n' := n + room in
              if n' <? minSize then FillSpin
              else Filled (splice buf (off + n) (take (Z.to_nat room) d)) n'
                     ((drop (Z.to_nat room) d, e) :: rest) ds'
        end
    end.

(** [io.ReadAtLeast(conn, buf, min)]. *)
Inductive read_result :=
  | ReadOk (buf : list byte) (s : script)
  | ReadErr (err : error)
  | ReadBlocked
  | ReadDiverges.

Definition ReadAtLeast (s : script) (buf : list byte) (min : Z) : read_result :=
  match fill s [] buf 0 0 min with
  | Filled buf' n s' _ => ReadOk buf' s'
  | FillFailed n err =>
      ReadErr (if (0 <? n) && bool_decide (err = EOF) then ErrUnexpectedEOF else err)
  | FillBlocked => ReadBlocked
  | FillPanic | FillSpin => ReadDiverges
  end.

(** The loop is what its [Read] calls make it. *)
Lemma fill_Read s ds ds' buf off n minSize :
  n < minSize → off + n ≤ len buf → off + minSize ≤ len buf →
  next_deadline ds = (None, ds') →
  fill s ds buf off n minSize =
  match conn_Read (len buf - (off + n)) s with
  | None => FillBlocked
  | Some (d, e, s') =>
      let buf' := splice buf (off + n) d in
      let n' := n + len d in
      match e with
      | Some err => if n' <? minSize then FillFailed n' err else Filled buf' n' s' ds'
      | None => if n' >=? minSize then Filled buf' n' s' ds'
                else fill s' ds' buf' off n' minSize
      end
  end.
Proof.
  intros Hn Hb Hm Hd. destruct s as [|[d e] rest]; simpl.
  { replace (n >=? minSize) with false by lia. by rewrite Hd. }
  replace (n >=? minSize) with false by lia. rewrite Hd.
  replace (len buf - (off + n) <? 0) with false by lia.
  destruct (len d <=? _) eqn:Hl.
  - destruct e; [done|]. destruct (n + len d >=? minSize) eqn:Hg; [|done].
    destruct rest as [|[] ?]; simpl; by rewrite Hg.
  - assert (len (take (Z.to_nat (len buf - (off + n))) d) = len buf - (off + n)) as ->
      by len_solve.
    replace (_ <? minSize) with false by lia. by replace (_ >=? minSize) with true by lia.
Qed.

(** *** Clean deliveries

    [feed chunks tail] delivers [chunks] without errors; then nothing
    ([tail = None]) or a final error. *)
Definition feed (chunks : list (list byte)) (tail : option error) : script :=
  ((λ d, (d, None)) <$> chunks) ++
  match tail with None => [] | Some e => [([], Some e)] end.

Definition stopped (tail : option error) (n : Z) : fill_result :=
  match tail with None => FillBlocked | Some e => FillFailed n e end.

(** Filling from a clean delivery: either enough bytes arrive and they are
    stored in order behind the ones already there, or the stream stops short. *)
Lemma fill_feed chunks tail buf off n minSize :
  0 ≤ off → 0 ≤ n → off + n ≤ len buf → off + minSize ≤ len buf →
  let pending := sub buf off (off + n) in
  (∃ buf' n' chunks',
    fill (feed chunks tail) [] buf off n minSize = Filled buf' n' (feed chunks' tail) [] ∧
    len buf' = len buf ∧ n ≤ n' ∧ minSize ≤ n' ∧ off + n' ≤ len buf ∧
    sub buf' 0 off = sub buf 0 off ∧
    sub buf' off (off + n') ++ concat chunks' = pending ++ concat chunks) ∨
  (fill (feed chunks tail) [] buf off n minSize = stopped tail (len (pending ++ concat chunks)) ∧
    len (pending ++ concat chunks) < minSize).
Proof.
  intros Hoff. revert buf n. induction chunks as [|d chunks IH]; intros buf n Hn Hb Hm pending.
  - destruct (decide (minSize ≤ n)) as [Hge|Hlt].
    { left. exists buf, n, []. destruct tail; simpl; replace (n >=? minSize) with true by lia;
        split_and!; done || lia. }
    right. assert (len pending = n) by (unfold pending; rewrite len_sub; lia).
    destruct tail as [e|]; simpl; replace (n >=? minSize) with false by lia.
    + rewrite app_nil_r.
      replace (len buf - (off + n) <? 0) with false by lia.
      replace (len ([] : list byte) <=? len buf - (off + n)) with true by (rewrite len_nil; lia).
      rewrite len_nil, Z.add_0_r. replace (n <? minSize) with true by lia.
      split; [by f_equal|lia].
    + rewrite app_nil_r. split; [done|lia].
  - destruct (decide (minSize ≤ n)) as [Hge|Hlt].
    { left. exists buf, n, (d :: chunks). simpl; replace (n >=? minSize) with true by lia;
        split_and!; done || lia. }
    change (feed (d :: chunks) tail) with ((d, None : option error) :: feed chunks tail).
    cbn [fill]. replace (n >=? minSize) with false by lia. cbn [next_deadline].
    replace (len buf - (off + n) <? 0) with false by lia.
    pose proof (len_nonneg d).
    destruct (len d <=? len buf - (off + n)) eqn:Hl.
    + assert (sub (splice buf (off + n) d) off (off + (n + len d)) = pending ++ d) as Hpend.
      { rewrite (sub_split _ off (off + n)) by lia.
        rewrite sub_splice_before by lia. rewrite sub_splice_at by lia. done. }
      destruct (IH (splice buf (off + n) d) (n + len d)) as [(buf'&n'&chunks'&->&Hlen&?&?&?&Hpre&Hcat)|(->&Hshort)];
        try (rewrite ?len_splice by lia; lia).
      * left. exists buf', n', chunks'. rewrite len_splice in * by lia.
        split_and!; try done; try lia.
        -- rewrite Hpre. apply sub_splice_before; lia.
        -- rewrite Hcat, Hpend. by rewrite <- app_assoc.
      * right. rewrite Hpend, <- app_assoc in *. done.
    + left. set (room := len buf - (off + n)) in *.
      assert (len (take (Z.to_nat room) d) = room) as Htake by (unfold room in *; len_solve).
      replace (n + room <? minSize) with false by lia.
      exists (splice buf (off + n) (take (Z.to_nat room) d)), (n + room), (drop (Z.to_nat room) d :: chunks).
      split_and!; try done; try lia.
      * rewrite len_splice; lia.
      * apply sub_splice_before; lia.
      * rewrite (sub_split _ off (off + n)) by lia.
        rewrite sub_splice_before, sub_splice_at by lia.
        simpl. rewrite <- !app_assoc, (app_assoc (take _ _)), take_drop. done.
Qed.

(** [io.ReadAtLeast] into a buffer of the wanted size: the next bytes of the
    stream, and the rest stays; or the stream is short. *)
Lemma ReadAtLeast_feed chunks tail buf :
  let bs := concat chunks in
  (∃ chunks', ReadAtLeast (feed chunks tail) buf (len buf) = ReadOk (sub bs 0 (len buf)) (feed chunks' tail) ∧
    len buf ≤ len bs ∧ concat chunks' = sub bs (len buf) (len bs)) ∨
  (ReadAtLeast (feed chunks tail) buf (len buf) =
     match tail with
     | None => ReadBlocked
     | Some e => ReadErr (if (0 <? len bs) && bool_decide (e = EOF) then ErrUnexpectedEOF else e)
     end ∧ len bs < len buf).
Proof.
  intros bs. pose proof (len_nonneg buf). unfold ReadAtLeast.
  destruct (fill_feed chunks tail buf 0 0 (len buf)) as
    [(buf'&n'&chunks'&->&Hl&?&?&?&_&Hcat)|(->&Hs)]; try lia.
  - left. exists chunks'. rewrite !Z.add_0_l in *. rewrite sub_empty, app_nil_l in Hcat.
    assert (n' = len buf) as -> by lia. rewrite <- Hl in Hcat. rewrite sub_all in Hcat by done.
    fold bs in Hcat. rewrite <- Hcat, <- Hl. pose proof (len_nonneg (concat chunks')).
    rewrite len_app. split_and!; [|lia|].
    + f_equal. rewrite sub_app_l, sub_all by lia. done.
    + by rewrite sub_app_r.
  - right. rewrite sub_empty in *. split; [|done]. by destruct tail.
Qed.

(** The bytes a script has still to deliver. *)
Definition script_bytes (s : script) : list byte := concat s.*1.

Lemma len_script_bytes d e s : len (script_bytes ((d, e) :: s)) = len d + len (script_bytes s).
Proof. unfold script_bytes. simpl. by rewrite len_app. Qed.

Lemma script_bytes_feed chunks tail : script_bytes (feed chunks tail) = concat chunks.
Proof.
  unfold script_bytes, feed. rewrite fmap_app, concat_app, <- list_fmap_compose.
  replace (_ <$> chunks) with chunks by (symmetry; by apply list_fmap_id).
  destruct tail; simpl; by rewrite app_nil_r.
Qed.

(** Whatever the network delivers, errors included, a fill within bounds neither
    panics nor spins, and what it stores stays within bounds. *)
Lemma fill_safe s ds buf off n minSize :
  0 ≤ off → 0 ≤ n → off + n ≤ len buf → off + minSize ≤ len buf →
  match fill s ds buf off n minSize with
  | Filled buf' n' s' _ => len buf' = len buf ∧ n ≤ n' ∧ minSize ≤ n' ∧ off + n' ≤ len buf ∧
      n' + len (script_bytes s') = n + len (script_bytes s)
  | FillFailed _ _ | FillBlocked => n < minSize
  | FillPanic | FillSpin => False
  end.
Proof.
  intros Hoff. revert ds buf n. induction s as [|[d e] rest IH]; intros ds buf n Hn Hb Hm; cbn [fill].
  - destruct (n >=? minSize) eqn:?; [lia|]. destruct (next_deadline ds) as [[] ?]; lia.
  - rewrite len_script_bytes.
    destruct (n >=? minSize) eqn:?; [rewrite ?len_script_bytes; lia|].
    destruct (next_deadline ds) as [[err|] ds']; [lia|]. cbv zeta.
    replace (len buf - (off + n) <? 0) with false by lia. pose proof (len_nonneg d).
    destruct (len d <=? len buf - (off + n)) eqn:?.
    + destruct e as [err|].
      * destruct (n + len d <? minSize) eqn:?; [lia|]. rewrite len_splice; lia.
      * specialize (IH ds' (splice buf (off + n) d) (n + len d)).
        rewrite len_splice in IH by lia.
        destruct (fill rest ds' _ _ _ _); [|lia..|by apply IH; lia|by apply IH; lia].
        destruct IH as (?&?&?&?&?); lia.
    + replace (n + (len buf - (off + n)) <? minSize) with false by lia.
      assert (len (take (Z.to_nat (len buf - (off + n))) d) = len buf - (off + n)) as Ht by len_solve.
      assert (len d = len buf - (off + n) + len (drop (Z.to_nat (len buf - (off + n))) d)) by len_solve.
      rewrite len_splice, len_script_bytes by lia. lia.
Qed.

(** ** net.Conn, the writing side *)

(** [wire] is what the peer's kernel has been given so far.  [faults] lists the
    outcome of the next writes: [None] succeeds, [Some (k, e)] accepts [k] bytes
    and fails with [e]; an exhausted list means that writes succeed. *)
Record WConn := mkWConn {
  wire : list byte;
  faults : list (option (Z * error));
  wdeadlines : deadlines;
  conn_closed : bool;
}.

Definition conn_Write (p : list byte) : M WConn (Z * option error) := λ c,
  if conn_closed c then (Ret (0, Some ErrNetClosed), c)
  else
    match faults c with
    | Some (k, e) :: fs =>
        let d := take (Z.to_nat k) p in
        (Ret (len d, Some e), mkWConn (wire c ++ d) fs (wdeadlines c) false)
    | None :: fs => (Ret (len p, None), mkWConn (wire c ++ p) fs (wdeadlines c) false)
    | [] => (Ret (len p, None), mkWConn (wire c ++ p) [] (wdeadlines c) false)
    end.

(** [SetDeadline], [SetReadDeadline] and [SetWriteDeadline]: only the error is
    observable. *)
Definition conn_SetDeadline : M WConn (option error) := λ c,
  if conn_closed c then (Ret (Some ErrNetClosed), c)
  else
    let '(e, ds) := next_deadline (wdeadlines c) in
    (Ret e, mkWConn (wire c) (faults c) ds false).

Definition conn_Close (c : WConn) : WConn :=
  mkWConn (wire c) (faults c) (wdeadlines c) true.

(** Setting a deadline returns and changes nothing else. *)
Lemma conn_SetDeadline_cases c :
  ∃ r ds, conn_SetDeadline c = (Ret r, mkWConn (wire c) (faults c) ds (conn_closed c)) ∧
    (wdeadlines c = [] → conn_closed c = false → r = None ∧ ds = []).
Proof.
  unfold conn_SetDeadline. destruct (conn_closed c) eqn:E.
  - eexists _, (wdeadlines c). split; [|done]. destruct c; simpl in *; by subst.
  - destruct (wdeadlines c); simpl; eexists _, _; (split; [done|]); done.
Qed.

(** A connection without faults to come. *)
Definition healthy (c : WConn) : Prop :=
  faults c = [] ∧ wdeadlines c = [] ∧ conn_closed c = false.

#[global] Instance healthy_dec c : Decision (healthy c).
Proof.
  unfold healthy. destruct (faults c), (wdeadlines c), (conn_closed c);
    first [left; split_and!; done|right; by intros (?&?&?)].
Defined.

(** ** bufio.Writer *)

Record Writer := mkWriter {
  wbuf : list byte;          (* b.buf[:b.n] *)
  werr : option error;
  wsize : Z;
}.

Record Out := mkOut { conn : WConn; writer : Writer }.

Definition NewWriterSize (c : WConn) (size : Z) : Out := mkOut c (mkWriter [] None size).

Definition Buffered (o : Out) : Z := len (wbuf (writer o)).
Definition Available (o : Out) : Z := wsize (writer o) - Buffered o.

Definition set_conn c o := mkOut c (writer o).
Definition set_wbuf b o := mkOut (conn o) (mkWriter b (werr (writer o)) (wsize (writer o))).
Definition set_werr e o := mkOut (conn o) (mkWriter (wbuf (writer o)) e (wsize (writer o))).

Definition out_Write (p : list byte) : M Out (Z * option error) := zoom conn set_conn (conn_Write p).

Definition Writer_Flush : M Out (option error) :=
  o ← get;
  match werr (writer o) with
  | Some e => mret (Some e)
  | None =>
      if Buffered o =? 0 then mret None
      else
        '(n, err) ← out_Write (wbuf (writer o));
        let err := match err with
                   | None => if n <? Buffered o then Some ErrShortWrite else None
                   | Some e => Some e
                   end in
        match err with
        | Some e =>
            modify (set_wbuf (drop (Z.to_nat n) (wbuf (writer o))));;
            modify (set_werr (Some e));;
            mret (Some e)
        | None => modify (set_wbuf []);; mret None
        end
  end.

(** The loop of [Write], for data that does not fit. *)
Fixpoint Writer_Write_loop (fuel : nat) (p : list byte) (nn : Z) : M Out (list byte * Z) :=
  match fuel with
  | O => out_of_fuel
  | S fuel =>
      o ← get;
      if (len p >? Available o) && bool_decide (werr (writer o) = None) then
        if Buffered o =? 0 then
          '(n, err) ← out_Write p;
          modify (set_werr err);;
          Writer_Write_loop fuel (drop (Z.to_nat n) p) (nn + n)
        else
          let n := Available o in
          modify (set_wbuf (wbuf (writer o) ++ take (Z.to_nat n) p));;
          _ ← Writer_Flush;
          Writer_Write_loop fuel (drop (Z.to_nat n) p) (nn + n)
      else mret (p, nn)
  end.

(** Two passes of the loop empty the buffer and write the rest directly; the
    third finds nothing left to do. *)
Definition Writer_Write (p : list byte) : M Out (Z * option error) :=
  '(p', nn) ← Writer_Write_loop 3 p 0;
  o ← get;
  match werr (writer o) with
  | Some e => mret (nn, Some e)
  | None =>
      modify (set_wbuf (wbuf (writer o) ++ p'));;
      mret (nn + len p', None)
  end.

(** Everything handed to the writer so far and not lost. *)
Definition stream_out (o : Out) : list byte := wire (conn o) ++ wbuf (writer o).

Definition writer_ok (o : Out) : Prop :=
  0 < wsize (writer o) ∧ Buffered o ≤ wsize (writer o).

(** [o'] is [o] after [p] was accepted. *)
Definition accepted (p : list byte) (o o' : Out) : Prop :=
  stream_out o' = stream_out o ++ p ∧ writer_ok o' ∧ werr (writer o') = None ∧
  wsize (writer o') = wsize (writer o) ∧ conn_closed (conn o') = conn_closed (conn o) ∧
  wdeadlines (conn o') = wdeadlines (conn o) ∧ (faults (conn o) = [] → faults (conn o') = []).

Lemma conn_Write_cases p c :
  (∃ fs, conn_Write p c = (Ret (len p, None), mkWConn (wire c ++ p) fs (wdeadlines c) false) ∧
    conn_closed c = false ∧ (faults c = [] → fs = [])) ∨
  (∃ d e fs b, conn_Write p c = (Ret (len d, Some e), mkWConn (wire c ++ d) fs (wdeadlines c) b) ∧
    d `prefix_of` p ∧ ¬ healthy c).
Proof.
  unfold conn_Write, healthy. destruct (conn_closed c) eqn:Ec.
  { right. exists [], ErrNetClosed, (faults c), true. rewrite app_nil_r.
    destruct c; simpl in *; subst. split_and!; [done|apply prefix_nil|by intros (?&?&?)]. }
  destruct (faults c) as [|[[k e]|] fs] eqn:Ef; [left; eauto|right|left].
  - exists (take (Z.to_nat k) p), e, fs, false. split_and!; [done|apply prefix_take|by intros (?&?&?)].
  - exists fs. split_and!; [done..|naive_solver].
Qed.

(** A write returns, only adds to the wire, and does not close the socket. *)
Lemma conn_Write_mono p c :
  ∃ r c', conn_Write p c = (Ret r, c') ∧ conn_closed c' = conn_closed c ∧
    wire c `prefix_of` wire c' ∧ wdeadlines c' = wdeadlines c.
Proof.
  unfold conn_Write. destruct (conn_closed c) eqn:E; [by eexists _, _|].
  destruct (faults c) as [|[[k e]|] fs]; eexists _, _; (split; [done|]); simpl;
    (split_and!; [done|by apply prefix_app_r|done]).
Qed.

(** A flush puts the whole buffer on the wire, or fails and says so. *)
Lemma Writer_Flush_spec o :
  writer_ok o → werr (writer o) = None →
  ∃ r o', Writer_Flush o = (Ret r, o') ∧
    match r with
    | None => accepted [] o o' ∧ wbuf (writer o') = []
    | Some e => werr (writer o') = Some e ∧ ¬ healthy (conn o) ∧ writer_ok o' ∧
        wire (conn o') `prefix_of` stream_out o ∧ wsize (writer o') = wsize (writer o)
    end.
Proof.
  destruct o as [c [b we sz]]. unfold accepted, writer_ok, stream_out, Buffered. simpl.
  intros [Hs Hb] ->. unfold Writer_Flush. munfold. simpl. unfold Buffered. simpl.
  destruct (Z.eqb_spec (len b) 0) as [->%len_zero_inv|Hne].
  { eexists _, _. split; [done|]. simpl. by rewrite !app_nil_r. }
  unfold out_Write, zoom. simpl.
  destruct (conn_Write_cases b c) as [(fs&->&Hc&Hf)|(d&e&fs&cl&->&Hp&Hh)]; simpl.
  - rewrite Z.ltb_irrefl. eexists _, _. split; [done|]. simpl. unfold Buffered. simpl.
    rewrite ?app_nil_r. split_and!; try done; len_solve.
  - eexists _, _. split; [done|]. simpl. unfold Buffered. simpl. split_and!; try done.
    + len_solve.
    + by apply prefix_app.
Qed.

Lemma Writer_Write_loop_fits fuel p nn o :
  len p ≤ Available o → Writer_Write_loop (S fuel) p nn o = (Ret (p, nn), o).
Proof.
  intros H. simpl. munfold. by replace (len p >? Available o) with false by lia.
Qed.

Lemma Writer_Write_loop_err fuel p nn o :
  werr (writer o) ≠ None → Writer_Write_loop (S fuel) p nn o = (Ret (p, nn), o).
Proof.
  intros H. simpl. munfold. rewrite bool_decide_false by done. by rewrite andb_false_r.
Qed.

(** A large write on an empty buffer. *)
Lemma Writer_Write_loop_direct fuel p nn o :
  writer_ok o → werr (writer o) = None → wbuf (writer o) = [] → Available o < len p →
  ∃ p' nn' o', Writer_Write_loop (S (S fuel)) p nn o = (Ret (p', nn'), o') ∧
    match werr (writer o') with
    | None => p' = [] ∧ nn' = nn + len p ∧ accepted p o o' ∧ wbuf (writer o') = []
    | Some e => ¬ healthy (conn o) ∧ writer_ok o' ∧
        wire (conn o') `prefix_of` stream_out o ++ p ∧ wsize (writer o') = wsize (writer o)
    end.
Proof.
  destruct o as [c [b we sz]]. unfold writer_ok, stream_out, Available, Buffered. simpl.
  intros [Hs Hb] -> -> Hlt. rewrite len_nil in *.
  cbn [Writer_Write_loop]. munfold. simpl. unfold Available, Buffered. simpl. rewrite len_nil.
  replace (len p >? sz - 0) with true by lia. simpl.
  unfold out_Write, zoom. simpl.
  destruct (conn_Write_cases p c) as [(fs&->&Hc&Hf)|(d&e&fs&cl&->&Hp&Hh)]; simpl.
  - rewrite drop_ge by (unfold len; lia).
    replace (len ([] : list byte) >? _) with false by (rewrite len_nil; lia). simpl.
    eexists _, _, _. split; [done|]. simpl. unfold accepted, writer_ok, stream_out, Buffered. simpl.
    rewrite ?app_nil_r. split_and!; try done; len_solve.
  - destruct (len (drop _ p) >? _); simpl.
    all: eexists _, _, _; split; [done|]; simpl; unfold writer_ok, Buffered; simpl.
    all: rewrite ?app_nil_r; split_and!; try done; first [by apply prefix_app|len_solve].
Qed.

Lemma accepted_trans p q o1 o2 o3 :
  accepted p o1 o2 → accepted q o2 o3 → accepted (p ++ q) o1 o3.
Proof.
  intros (E1&?&?&?&?&?&?) (E2&?&?&?&?&?&?). unfold accepted.
  rewrite E2, E1, app_assoc. split_and!; try done; try congruence. auto.
Qed.

Lemma accepted_healthy p o o' : accepted p o o' → healthy (conn o) → healthy (conn o').
Proof. intros (_&_&_&_&Hc&Hd&Hf) (?&?&?). unfold healthy. split_and!; [auto|congruence..]. Qed.

(** Appending to the buffer what fits in it. *)
Lemma accepted_append p o :
  writer_ok o → werr (writer o) = None → len p ≤ Available o →
  accepted p o (set_wbuf (wbuf (writer o) ++ p) o).
Proof.
  unfold accepted, writer_ok, stream_out, Available, Buffered. simpl.
  intros [? ?] ? ?. rewrite len_app, app_assoc. split_and!; done || lia.
Qed.

(** A pass that fills the buffer and flushes it. *)
Lemma Writer_Write_loop_fill fuel p nn o r o' :
  Available o < len p → werr (writer o) = None → wbuf (writer o) ≠ [] →
  Writer_Flush (set_wbuf (wbuf (writer o) ++ take (Z.to_nat (Available o)) p) o) = (Ret r, o') →
  Writer_Write_loop (S fuel) p nn o =
  Writer_Write_loop fuel (drop (Z.to_nat (Available o)) p) (nn + Available o) o'.
Proof.
  intros Hlt He Hb Hf. cbn [Writer_Write_loop].
  rewrite (bind_Ret get _ o o o) by done.
  replace (len p >? Available o) with true by lia. rewrite bool_decide_true by done.
  replace (Buffered o =? 0) with false
    by (symmetry; apply Z.eqb_neq; by intros ?%len_zero_inv).
  cbn [andb]. erewrite bind_Ret by reflexivity. by erewrite bind_Ret by apply Hf.
Qed.

Lemma Writer_Write_loop_spec p o :
  writer_ok o → werr (writer o) = None →
  ∃ p' nn o', Writer_Write_loop 3 p 0 o = (Ret (p', nn), o') ∧ writer_ok o' ∧
    wsize (writer o') = wsize (writer o) ∧
    match werr (writer o') with
    | None => ∃ q, p = q ++ p' ∧ nn = len q ∧ accepted q o o' ∧ len p' ≤ Available o'
    | Some e => ¬ healthy (conn o) ∧ wire (conn o') `prefix_of` stream_out o ++ p
    end.
Proof.
  intros Hok He.
  assert (0 ≤ Available o) as Hav by (unfold Available; destruct Hok; lia).
  destruct (decide (len p ≤ Available o)) as [Hfit|Hbig].
  { rewrite Writer_Write_loop_fits by done. eexists _, _, _. split; [done|]. rewrite He.
    split_and!; [done..|]. exists []. split_and!; try done.
    unfold accepted. rewrite app_nil_r. by split_and!. }
  destruct (decide (wbuf (writer o) = [])) as [Hnil|Hbuf].
  { edestruct (Writer_Write_loop_direct 1 p 0 o) as (p'&nn&o'&->&H); [done..|lia|].
    eexists _, _, _. split; [done|]. destruct (werr (writer o')) as [e|]; [by destruct H as (?&?&?&?)|].
    destruct H as (->&->&Hacc&Hb). split; [apply Hacc|]. split; [apply Hacc|].
    exists p. rewrite app_nil_r. split_and!; try done.
    destruct Hacc as (?&[??]&?). rewrite len_nil. unfold Available. lia. }
  set (p1 := take (Z.to_nat (Available o)) p). set (p2 := drop (Z.to_nat (Available o)) p).
  assert (p = p1 ++ p2) as Hp by (symmetry; apply take_drop).
  assert (len p1 = Available o) as Hlen1 by (unfold p1; len_solve).
  assert (accepted p1 o (set_wbuf (wbuf (writer o) ++ p1) o)) as Hacc1
    by (apply accepted_append; [done..|lia]).
  destruct (Writer_Flush_spec (set_wbuf (wbuf (writer o) ++ p1) o)) as (r&o2&Hf&Hr); [apply Hacc1..|].
  rewrite (Writer_Write_loop_fill 2 p 0 o r o2) by (done || lia). fold p2.
  assert (stream_out (set_wbuf (wbuf (writer o) ++ p1) o) = stream_out o ++ p1) as Ho1 by apply Hacc1.
  destruct r as [e|].
  { destruct Hr as (Hw&Hh&Hok2&Hpre&Hsz).
    rewrite Writer_Write_loop_err by (rewrite Hw; done).
    eexists _, _, _. split; [done|]. rewrite Hw. split_and!; try done.
    rewrite Hp, app_assoc, <- Ho1. by apply prefix_app_r. }
  destruct Hr as [Hacc2 Hemp].
  assert (accepted p1 o o2) as Hacc by (rewrite <- (app_nil_r p1); by eapply accepted_trans).
  pose proof Hacc as (Hs2&Hok2&Hw2&Hz2&?).
  destruct (decide (len p2 ≤ Available o2)).
  - rewrite Writer_Write_loop_fits by done. eexists _, _, _. split; [done|]. rewrite Hw2.
    split_and!; [done..|]. exists p1. split_and!; done || lia.
  - edestruct (Writer_Write_loop_direct 0 p2 (0 + Available o) o2) as (p'&nn&o'&->&Hd); [done..|lia|].
    eexists _, _, _. split; [done|]. destruct (werr (writer o')) as [e|].
    + destruct Hd as (Hh&?&Hpre&?). split_and!; [done|congruence| |].
      * intros ?. apply Hh. by eapply accepted_healthy.
      * rewrite Hs2, <- app_assoc, <- Hp in Hpre. done.
    + destruct Hd as (->&->&Hacc3&Hb3).
      assert (accepted p o o') as Hall by (rewrite Hp; by eapply accepted_trans).
      split; [apply Hall|]. split; [apply Hall|]. exists p. rewrite app_nil_r.
      assert (len p = len p1 + len p2) by (by rewrite <- len_app, <- Hp).
      split_and!; [done|lia|done|].
      destruct Hall as (?&[??]&?). rewrite len_nil. unfold Available. lia.
Qed.

(** *** [Write] accepts all of its argument, in order, or fails with the
    writer's sticky error set and only a prefix of the stream on the wire. *)
Lemma Writer_Write_spec p o :
  writer_ok o → werr (writer o) = None →
  ∃ nn r o', Writer_Write p o = (Ret (nn, r), o') ∧
    match r with
    | None => nn = len p ∧ accepted p o o'
    | Some e => werr (writer o') = Some e ∧ ¬ healthy (conn o) ∧ writer_ok o' ∧
        wire (conn o') `prefix_of` stream_out o ++ p ∧ wsize (writer o') = wsize (writer o)
    end.
Proof.
  intros Hok He. unfold Writer_Write.
  destruct (Writer_Write_loop_spec p o) as (p'&nn&o'&Hl&Hok'&Hsz&H); [done..|].
  erewrite bind_Ret by apply Hl. simpl. rewrite (bind_Ret get _ o' o' o') by done.
  destruct (werr (writer o')) as [e|] eqn:Hw.
  - destruct H as [? ?]. eexists _, _, _. by split_and!.
  - destruct H as (q&->&->&Hacc&Hfit). eexists _, _, _. split; [done|].
    split; [by rewrite len_app|]. eapply accepted_trans; [done|]. by apply accepted_append.
Qed.

(** After a failure every later write fails the same way and writes nothing. *)
Lemma Writer_Write_sticky p o e :
  werr (writer o) = Some e → Writer_Write p o = (Ret (0, Some e), o).
Proof.
  intros He. unfold Writer_Write. erewrite bind_Ret; [|apply Writer_Write_loop_err; by rewrite He].
  simpl. rewrite (bind_Ret get _ o o o) by done. by rewrite He.
Qed.

(** *** Monotonicity, whatever fails *)

Definition out_le (o o' : Out) : Prop :=
  wire (conn o) `prefix_of` wire (conn o') ∧ conn_closed (conn o') = conn_closed (conn o) ∧
  wsize (writer o') = wsize (writer o) ∧ wdeadlines (conn o') = wdeadlines (conn o).

#[global] Instance out_le_preorder : PreOrder out_le.
Proof.
  split; [by intros o; split_and!|].
  intros o1 o2 o3 (?&?&?&?) (?&?&?&?). split_and!; [by etrans|congruence..].
Qed.

(** [follows R m]: every run of [m], however it ends, moves along [R]. *)
Definition follows {S A} (R : relation S) (m : M S A) : Prop := ∀ s, R s (m s).2.

Section follows.
Context {S : Type} (R : relation S) `{!PreOrder R}.

Lemma follows_ret {A} (a : A) : follows R (mret a).
Proof. intros s. simpl. done. Qed.

Lemma follows_get : follows R get.
Proof. intros s. simpl. done. Qed.

Lemma follows_modify f : (∀ s, R s (f s)) → follows R (modify f).
Proof. intros H s. apply H. Qed.

Lemma follows_bind {A B} (m : M S A) (k : A → M S B) :
  follows R m → (∀ a, follows R (k a)) → follows R (m ≫= k).
Proof.
  intros Hm Hk s. specialize (Hm s). unfold mbind, M_bind.
  destruct (m s) as [[a| | |] s']; simpl in *; try done. etrans; [done|apply Hk].
Qed.
End follows.

Lemma out_Write_le p : follows out_le (out_Write p).
Proof.
  intros o. unfold out_Write, zoom. destruct (conn_Write_mono p (conn o)) as (r&c'&->&?&?&?).
  by split_and!.
Qed.

Lemma set_wbuf_le b : follows out_le (modify (set_wbuf b)).
Proof. by apply follows_modify. Qed.

Lemma set_werr_le e : follows out_le (modify (set_werr e)).
Proof. by apply follows_modify. Qed.

Lemma Writer_Flush_le : follows out_le Writer_Flush.
Proof.
  unfold Writer_Flush. apply follows_bind; [apply _|apply follows_get, _|intros o].
  destruct (werr _); [apply follows_ret, _|]. destruct (_ =? _); [apply follows_ret, _|].
  apply follows_bind; [apply _|apply out_Write_le|intros [n err]]. cbv zeta.
  destruct (match err with Some _ => _ | None => _ end).
  all: repeat (apply follows_bind; [apply _|apply set_wbuf_le || apply set_werr_le|intros _]).
  all: apply follows_ret, _.
Qed.

Lemma Writer_Write_loop_le fuel p nn : follows out_le (Writer_Write_loop fuel p nn).
Proof.
  revert p nn. induction fuel as [|fuel IH]; intros p nn; [by intros o|].
  cbn [Writer_Write_loop]. apply follows_bind; [apply _|apply follows_get, _|intros o].
  destruct (_ && _); [|apply follows_ret, _]. destruct (_ =? _).
  - apply follows_bind; [apply _|apply out_Write_le|intros [n err]].
    apply follows_bind; [apply _|apply set_werr_le|intros _]. apply IH.
  - apply follows_bind; [apply _|apply set_wbuf_le|intros _].
    apply follows_bind; [apply _|apply Writer_Flush_le|intros _]. apply IH.
Qed.

Lemma Writer_Write_le p : follows out_le (Writer_Write p).
Proof.
  unfold Writer_Write. apply follows_bind; [apply _|apply Writer_Write_loop_le|intros [p' nn]].
  apply follows_bind; [apply _|apply follows_get, _|intros o].
  destruct (werr _); [apply follows_ret, _|].
  apply follows_bind; [apply _|apply set_wbuf_le|intros _]. apply follows_ret, _.
Qed.

(** A buffered write or flush always returns and keeps the buffer within its
    size. *)
Lemma Writer_Write_returns p o : writer_ok o →
  ∃ r o', Writer_Write p o = (Ret r, o') ∧ writer_ok o' ∧ out_le o o'.
Proof.
  intros Hok. pose proof (Writer_Write_le p o) as Hle.
  destruct (werr (writer o)) as [e|] eqn:He.
  { rewrite (Writer_Write_sticky p o e He) in *. by eexists _, _. }
  destruct (Writer_Write_spec p o) as (nn&r&o'&E&H); [done..|].
  rewrite E in *. eexists _, _. split_and!; [done| |done].
  destruct r; [by destruct_and! H|by destruct H as [_ (_&?&_)]].
Qed.

Lemma Writer_Flush_returns o : writer_ok o →
  ∃ r o', Writer_Flush o = (Ret r, o') ∧ writer_ok o' ∧ out_le o o'.
Proof.
  intros Hok. pose proof (Writer_Flush_le o) as Hle.
  destruct (werr (writer o)) as [e|] eqn:He.
  { assert (Writer_Flush o = (Ret (Some e), o)) as E
      by (unfold Writer_Flush; munfold; by rewrite He).
    rewrite E in *. by eexists _, _. }
  destruct (Writer_Flush_spec o) as (r&o'&E&H); [done..|].
  rewrite E in *. eexists _, _. split_and!; [done| |done].
  destruct r; [by destruct_and! H|by destruct H as [(_&?&_) _]].
Qed.

(** Writing and setting deadlines never block in this model of a socket. *)
Lemma conn_Write_nonblocking p : nonblocking (conn_Write p).
Proof.
  intros c. unfold conn_Write. destruct (conn_closed c); [done|]. by destruct (faults c) as [|[[]|]].
Qed.

Lemma conn_SetDeadline_nonblocking : nonblocking conn_SetDeadline.
Proof. intros c. unfold conn_SetDeadline. destruct (conn_closed c); [done|]. by destruct (next_deadline _). Qed.

#[export] Hint Resolve conn_Write_nonblocking conn_SetDeadline_nonblocking : nonblock.

Lemma Writer_Flush_nonblocking : nonblocking Writer_Flush.
Proof. unfold Writer_Flush, out_Write. nonblock. Qed.

#[export] Hint Resolve Writer_Flush_nonblocking : nonblock.

Lemma Writer_Write_nonblocking p : nonblocking (Writer_Write p).
Proof.
  unfold Writer_Write. apply nonblocking_bind; [|intros; nonblock].
  generalize 3%nat as fuel, 0 as nn. intros fuel. revert p.
  induction fuel as [|fuel IH]; intros p nn; simpl; unfold out_Write; nonblock.
Qed.

#[export] Hint Resolve Writer_Write_nonblocking : nonblock.
