(* ===== verification/Interfaces.v ===== *)
(** * The third-party packages the program calls

    [polyglot.Buffer], [queue.Circular] and [pool.Pool] are not part of the
    repository.  Each is a class of operations, a parameter of every definition
    that uses it, together with a class of the laws the program relies on.  The
    instances at the end are simple executable models that satisfy the laws. *)

From S2P Require Import Prelude Frisbee.

(** ** polyglot.Buffer: a growable byte buffer *)

Class Polyglot := {
  Buffer : Type;
  polyglot_NewBuffer : Buffer;
  (** [Bytes()] and [Len()] *)
  Bytes : Buffer → list byte;
  Len : Buffer → Z;
  (** [Write(b)]: the number of bytes written, and the buffer afterwards *)
  Write : Buffer → list byte → Z * Buffer;
  Buffer_Reset : Buffer → Buffer;
  (** [Grow(n)] reserves room, [MoveOffset(n)] makes [n] more bytes visible *)
  Grow : Buffer → Z → Buffer;
  MoveOffset : Buffer → Z → Buffer;
  (** the buffer after [d] was stored at the start of the slice [Bytes()] *)
  Fill : Buffer → list byte → Buffer;
}.

Class PolyglotLaws (P : Polyglot) : Prop := {
  Bytes_NewBuffer : Bytes polyglot_NewBuffer = [];
  Len_Bytes b : Len b = len (Bytes b);
  Write_count b d : (Write b d).1 = len d;
  Write_Bytes b d : Bytes (Write b d).2 = Bytes b ++ d;
  Reset_Bytes b : Bytes (Buffer_Reset b) = [];
  Grow_MoveOffset_Len b n :
    0 ≤ n → len (Bytes (MoveOffset (Grow b n) n)) = len (Bytes b) + n;
  Fill_Bytes b d : len d = len (Bytes b) → Bytes (Fill b d) = d;
}.

(** ** queue.Circular: a bounded blocking FIFO queue *)

Class CircularQueue := {
  Queue : Type → Type;
  NewCircular {T} : Z → Queue T;
  Push {T} : T → M (Queue T) (option error);
  Pop {T} : M (Queue T) (T + error);
  Queue_Close {T} : Queue T → Queue T;
  Drain {T} : Queue T → list T * Queue T;
  (** what a queue holds, oldest first; whether it is closed; its capacity *)
  items {T} : Queue T → list T;
  queue_closed {T} : Queue T → bool;
  capacity {T} : Queue T → Z;
}.

Class CircularLaws (C : CircularQueue) : Prop := {
  items_new {T} n : items (NewCircular n : Queue T) = [];
  closed_new {T} n : queue_closed (NewCircular n : Queue T) = false;
  capacity_new {T} n : n ≤ capacity (NewCircular n : Queue T);
  Push_closed {T} (x : T) q :
    queue_closed q = true → Push x q = (Ret (Some QueueClosed), q);
  Push_room {T} (x : T) q :
    queue_closed q = false → len (items q) < capacity q →
    ∃ q', Push x q = (Ret None, q') ∧ items q' = items q ++ [x] ∧
      queue_closed q' = false ∧ capacity q' = capacity q;
  Push_full {T} (x : T) q :
    queue_closed q = false → capacity q ≤ len (items q) → Push x q = (Block, q);
  Pop_closed {T} (q : Queue T) :
    queue_closed q = true → Pop q = (Ret (inr QueueClosed), q);
  Pop_item {T} (x : T) r q :
    queue_closed q = false → items q = x :: r →
    ∃ q', Pop q = (Ret (inl x), q') ∧ items q' = r ∧
      queue_closed q' = false ∧ capacity q' = capacity q;
  Pop_empty {T} (q : Queue T) :
    queue_closed q = false → items q = [] → Pop q = (Block, q);
  Close_closed {T} (q : Queue T) : queue_closed (Queue_Close q) = true;
  Close_items {T} (q : Queue T) : items (Queue_Close q) = items q;
  Drain_items {T} (q : Queue T) : (Drain q).1 = items q;
  Drain_empty {T} (q : Queue T) : items (Drain q).2 = [];
  Drain_closed {T} (q : Queue T) : queue_closed (Drain q).2 = queue_closed q;
}.

(** ** pool.Pool: recycled objects

    [Get] gives a new object or one that was put back; [Put] resets the object
    it takes.  Nothing is said about which one, nor about how long objects
    stay. *)

Class PoolOps (T : Type) (new : T) (reset : T → T) := {
  Pool : Type;
  NewPool : Pool;
  pool_Get : Pool → T * Pool;
  pool_Put : T → Pool → Pool;
  members : Pool → list T;
}.
Arguments Pool {T new reset} _.
Arguments NewPool {T new reset} _.
Arguments pool_Get {T new reset} _.
Arguments pool_Put {T new reset} _.
Arguments members {T new reset} _.

Class PoolLaws {T new reset} (P : PoolOps T new reset) : Prop := {
  members_new : members P (NewPool P) = [];
  Get_source s : (pool_Get P s).1 = new ∨ (pool_Get P s).1 ∈ members P s;
  Get_members s : members P (pool_Get P s).2 ⊆ members P s;
  Put_members x s : members P (pool_Put P x s) ⊆ reset x :: members P s;
}.

(** A property of the new object and of every reset object holds of every object
    the pool gives. *)
Definition pool_ok {T new reset} (P : PoolOps T new reset) (φ : T → Prop) (s : Pool P) : Prop :=
  ∀ x, x ∈ members P s → φ x.

Section pool.
Context {T : Type} {new : T} {reset : T → T} {P : PoolOps T new reset} `{!PoolLaws P}.
Context (φ : T → Prop).

Lemma pool_ok_new : pool_ok P φ (NewPool P).
Proof. intros x. rewrite members_new. set_solver. Qed.

Lemma pool_Get_ok s : φ new → pool_ok P φ s →
  φ (pool_Get P s).1 ∧ pool_ok P φ (pool_Get P s).2.
Proof.
  intros Hn Hs. split.
  - destruct (Get_source s) as [->|H]; [done|by apply Hs].
  - intros x Hx. apply Hs. by apply Get_members.
Qed.

Lemma pool_Put_ok s x : φ (reset x) → pool_ok P φ s → pool_ok P φ (pool_Put P x s).
Proof.
  intros Hr Hs y Hy%Put_members. apply elem_of_cons in Hy as [->|Hy]; auto.
Qed.
End pool.

(** ** Executable models of the three packages *)

Definition list_polyglot : Polyglot := {|
  Buffer := list byte;
  polyglot_NewBuffer := [];
  Bytes b := b;
  Len b := len b;
  Write b d := (len d, b ++ d);
  Buffer_Reset _ := [];
  Grow b _ := b;
  MoveOffset b n := b ++ replicate (Z.to_nat n) Byte.x00;
  Fill b d := splice b 0 d;
|}.

#[export] Instance list_polyglot_laws : PolyglotLaws list_polyglot.
Proof.
  split; simpl; try done.
  - intros b n Hn. rewrite len_app, len_replicate by done. done.
  - intros b d Hd. unfold splice. simpl. rewrite drop_ge, app_nil_r; [done|].
    unfold len in *. lia.
Qed.

Record list_queue (T : Type) := mkListQueue {
  lq_items : list T;
  lq_closed : bool;
  lq_cap : Z;
}.
Arguments mkListQueue {T}.
Arguments lq_items {T}.
Arguments lq_closed {T}.
Arguments lq_cap {T}.

Definition list_circular : CircularQueue := {|
  Queue := list_queue;
  NewCircular T n := mkListQueue [] false n;
  Push T x q :=
    if lq_closed q then (Ret (Some QueueClosed), q)
    else if len (lq_items q) <? lq_cap q
    then (Ret None, mkListQueue (lq_items q ++ [x]) false (lq_cap q))
    else (Block, q);
  Pop T q :=
    if lq_closed q then (Ret (inr QueueClosed), q)
    else match lq_items q with
         | x :: r => (Ret (inl x), mkListQueue r false (lq_cap q))
         | [] => (Block, q)
         end;
  Queue_Close T q := mkListQueue (lq_items q) true (lq_cap q);
  Drain T q := (lq_items q, mkListQueue [] (lq_closed q) (lq_cap q));
  items T q := lq_items q;
  queue_closed T q := lq_closed q;
  capacity T q := lq_cap q;
|}.

#[export] Instance list_circular_laws : CircularLaws list_circular.
Proof.
  split; simpl; try done.
  - intros T x q ->. done.
  - intros T x q -> H%Z.ltb_lt. rewrite H. eauto.
  - intros T x q -> H%Z.ltb_ge. by rewrite H.
  - intros T q ->. done.
  - intros T x r q -> ->. eauto.
  - intros T q -> ->. done.
Qed.

(** A pool that keeps everything it is given. *)
Definition list_pool (T : Type) (new : T) (reset : T → T) : PoolOps T new reset := {|
  Pool := list T;
  NewPool := [];
  pool_Get s := match s with x :: s' => (x, s') | [] => (new, []) end;
  pool_Put x s := reset x :: s;
  members s := s;
|}.

#[export] Instance list_pool_laws T new reset : PoolLaws (list_pool T new reset).
Proof.
  split; simpl; try done; intros [|x s]; simpl; set_solver.
Qed.
