(* ===== verification/Metadata.v ===== *)
(** * Packet metadata (pkg/metadata)

    The ten-byte header in front of every packet: its layout, the two encoders
    and the two decoders, and the pool of header buffers.  A [Buffer] is a Go
    array [[10]byte]: a list of length [Size].  Panics inside [Encode] and
    [Decode] are recovered into errors, as the deferred functions do. *)

From S2P Require Import Prelude Frisbee GoStd Interfaces.

Module metadata.

(** ** Layout *)

Definition PacketMagicHeader : Z := 0x0F.

Definition MagicOffset : Z := 0.
Definition MagicSize : Z := 2.
Definition IdOffset : Z := MagicOffset + MagicSize.
Definition IdSize : Z := 2.
Definition OperationOffset : Z := IdOffset + IdSize.
Definition OperationSize : Z := 2.
Definition ContentLengthOffset : Z := OperationOffset + OperationSize.
Definition ContentLengthSize : Z := 4.
Definition Size : Z := ContentLengthOffset + ContentLengthSize.

Record Metadata := mkMetadata {
  Magic : Z;
  Id : Z;
  Operation : Z;
  ContentLength : Z;
}.

(** The field widths of the struct. *)
Definition wf_metadata (m : Metadata) : Prop :=
  is_uint16 (Magic m) ∧ is_uint16 (Id m) ∧ is_uint16 (Operation m) ∧
  is_uint32 (ContentLength m).

#[global] Instance wf_metadata_dec m : Decision (wf_metadata m).
Proof. unfold wf_metadata; apply _. Defined.

#[global] Instance metadata_eq_dec : EqDecision Metadata.
Proof. solve_decision. Defined.

(** The zero value, [new(Metadata)]. *)
Definition zeroMetadata : Metadata := mkMetadata 0 0 0 0.

(** ** Buffers *)

Definition NewBuffer : list byte := replicate (Z.to_nat Size) Byte.x00.

(** [(b *Buffer) Reset()] does nothing: a buffer taken from the pool still holds
    the bytes of its previous use. *)
Definition Reset (b : list byte) : list byte := b.

(** [bufferPool] and its two accessors. *)
Definition BufferPool := PoolOps (list byte) NewBuffer Reset.
Existing Class BufferPool.

Definition GetBuffer {BP : BufferPool} (pool : Pool BP) : list byte * Pool BP :=
  pool_Get BP pool.

Definition PutBuffer {BP : BufferPool} (b : list byte) (pool : Pool BP) : Pool BP :=
  pool_Put BP b pool.

(** ** Encoding *)

Definition put16 (off size v : Z) : M (list byte) unit := λ b,
  match through_slice b off (off + size) (λ s, PutUint16 s v) with
  | Some b' => (Ret tt, b')
  | None => (Panic IndexOutOfRange, b)
  end.

Definition put32 (off size v : Z) : M (list byte) unit := λ b,
  match through_slice b off (off + size) (λ s, PutUint32 s v) with
  | Some b' => (Ret tt, b')
  | None => (Panic IndexOutOfRange, b)
  end.

(** The four [Put] calls, the same in [Encode], [Async.writePacket] and
    [Sync.WritePacket]. *)
Definition put_fields (magic id operation contentLength : Z) : M (list byte) unit :=
  put16 MagicOffset MagicSize magic;;
  put16 IdOffset IdSize id;;
  put16 OperationOffset OperationSize operation;;
  put32 ContentLengthOffset ContentLengthSize contentLength.

(** [(fm *Metadata) Encode()]: the buffer and the error. *)
Definition Metadata_Encode (fm : Metadata) : list byte * option error :=
  match put_fields (Magic fm) (Id fm) (Operation fm) (ContentLength fm) NewBuffer with
  | (Panic why, b) => (b, Some (Join (RuntimeError why) EncodingErr))
  | (_, b) => (b, None)
  end.

(** [Encode(id, operation, contentLength)]. *)
Definition Encode (id operation contentLength : Z) : list byte * option error :=
  Metadata_Encode (mkMetadata PacketMagicHeader id operation contentLength).

(** ** Decoding *)

Definition read16 (buf : list byte) (lo size : Z) : option Z :=
  slice buf lo (lo + size) ≫= Uint16.

Definition read32 (buf : list byte) (lo size : Z) : option Z :=
  slice buf lo (lo + size) ≫= Uint32.

Definition set_Magic v m := mkMetadata v (Id m) (Operation m) (ContentLength m).
Definition set_Id v m := mkMetadata (Magic m) v (Operation m) (ContentLength m).
Definition set_Operation v m := mkMetadata (Magic m) (Id m) v (ContentLength m).
Definition set_ContentLength v m := mkMetadata (Magic m) (Id m) (Operation m) v.

(** The four field reads at an offset of a buffer, the same in [Decode], in
    [Sync.ReadPacket] and, at a moving index, in [Async.readLoop]. *)
Definition read_fields (buf : list byte) (index : Z) : M Metadata unit :=
  magic ← or_panic (read16 buf (index + MagicOffset) MagicSize) IndexOutOfRange;
  modify (set_Magic magic);;
  id ← or_panic (read16 buf (index + IdOffset) IdSize) IndexOutOfRange;
  modify (set_Id id);;
  operation ← or_panic (read16 buf (index + OperationOffset) OperationSize) IndexOutOfRange;
  modify (set_Operation operation);;
  contentLength ← or_panic (read32 buf (index + ContentLengthOffset) ContentLengthSize) IndexOutOfRange;
  modify (set_ContentLength contentLength).

(** [(fm *Metadata) Decode(buf)]: the error and the receiver afterwards. *)
Definition Metadata_Decode (buf : list byte) (fm : Metadata) : option error * Metadata :=
  match read_fields buf 0 fm with
  | (Panic why, fm') => (Some (Join (RuntimeError why) DecodingErr), fm')
  | (_, fm') => (None, fm')
  end.

(** [Decode(buf)]: a slice that is long enough is reinterpreted as the array of
    its first [Size] bytes. *)
Definition Decode (buf : list byte) : option Metadata * option error :=
  if len buf <? Size then (None, Some InvalidBufferLengthErr)
  else
    let '(err, m) := Metadata_Decode (sub buf 0 Size) zeroMetadata in
    (Some m, err).

(** ** The wire image of a header *)

Definition header_bytes (m : Metadata) : list byte :=
  be16 (Magic m) ++ be16 (Id m) ++ be16 (Operation m) ++ be32 (ContentLength m).

Lemma len_header_bytes m : len (header_bytes m) = Size.
Proof. done. Qed.

(** A ten-byte list, spelled out. *)
Lemma ten_bytes (b : list byte) : len b = Size →
  ∃ b0 b1 b2 b3 b4 b5 b6 b7 b8 b9, b = [b0; b1; b2; b3; b4; b5; b6; b7; b8; b9].
Proof.
  intros H. do 10 (destruct b as [|? b]; [done|]).
  destruct b as [|? b]; [eauto 20|]. exfalso.
  rewrite !len_cons in H. pose proof (len_nonneg b).
  change Size with 10 in H. lia.
Qed.

(** The field writes overwrite every byte of the buffer they are given. *)
Lemma put_fields_spec magic id op cl b : len b = Size →
  put_fields magic id op cl b = (Ret tt, header_bytes (mkMetadata magic id op cl)).
Proof.
  intros (?&?&?&?&?&?&?&?&?&?&->)%ten_bytes. reflexivity.
Qed.

Lemma Metadata_Encode_spec fm : Metadata_Encode fm = (header_bytes fm, None).
Proof.
  unfold Metadata_Encode. rewrite put_fields_spec by done. by destruct fm.
Qed.

(** The value of the fields read at an index with ten bytes in range. *)
Definition decoded (buf : list byte) (index : Z) : option Metadata :=
  magic ← read16 buf (index + MagicOffset) MagicSize;
  id ← read16 buf (index + IdOffset) IdSize;
  op ← read16 buf (index + OperationOffset) OperationSize;
  cl ← read32 buf (index + ContentLengthOffset) ContentLengthSize;
  Some (mkMetadata magic id op cl).

Lemma decoded_sub buf index :
  0 ≤ index → index + Size ≤ len buf →
  decoded buf index = decoded (sub buf index (index + Size)) 0.
Proof.
  intros H0 H1. change Size with 10 in *. unfold decoded, read16, read32.
  cbv [MagicOffset MagicSize IdOffset IdSize OperationOffset OperationSize
       ContentLengthOffset ContentLengthSize].
  rewrite !slice_Some by (rewrite ?len_sub by lia; lia).
  simpl mbind.
  rewrite !sub_sub by lia. rewrite !Z.add_0_l, !Z.add_0_r, <- !Z.add_assoc. done.
Qed.

Lemma decoded_total buf index :
  0 ≤ index → index + Size ≤ len buf →
  ∃ m, decoded buf index = Some m ∧ wf_metadata m.
Proof.
  intros H0 H1. change Size with 10 in *. unfold decoded, read16, read32.
  cbv [MagicOffset MagicSize IdOffset IdSize OperationOffset OperationSize
       ContentLengthOffset ContentLengthSize].
  rewrite !slice_Some by lia. simpl mbind.
  edestruct Uint16_total as (?&->&?); [|simpl mbind]; [rewrite len_sub; lia|].
  edestruct Uint16_total as (?&->&?); [|simpl mbind]; [rewrite len_sub; lia|].
  edestruct Uint16_total as (?&->&?); [|simpl mbind]; [rewrite len_sub; lia|].
  edestruct Uint32_total as (?&->&?); [|simpl mbind]; [rewrite len_sub; lia|].
  eexists. split; [reflexivity|]. by split_and!.
Qed.

Lemma decoded_length buf m : decoded buf 0 = Some m → Size ≤ len buf.
Proof.
  unfold decoded.
  destruct (read16 _ (_ + MagicOffset) _); [|done]. simpl.
  destruct (read16 _ (_ + IdOffset) _); [|done]. simpl.
  destruct (read16 _ (_ + OperationOffset) _); [|done]. simpl. unfold read32 at 1.
  destruct (slice _ _ _) eqn:E; [|done]. apply slice_Some_inv in E as (?&H&_).
  intros _. apply H.
Qed.

Lemma read_fields_decoded buf index fm m :
  decoded buf index = Some m → read_fields buf index fm = (Ret tt, m).
Proof.
  unfold decoded, read_fields. munfold.
  destruct (read16 _ (_ + MagicOffset) _); [|done]. simpl.
  destruct (read16 _ (_ + IdOffset) _); [|done]. simpl.
  destruct (read16 _ (_ + OperationOffset) _); [|done]. simpl.
  destruct (read32 _ _ _); [|done]. simpl. by intros [= <-].
Qed.

Lemma decoded_header m r :
  wf_metadata m → decoded (header_bytes m ++ r) 0 = Some m.
Proof.
  intros (?&?&?&?). unfold header_bytes.
  assert (decoded ((be16 (Magic m) ++ be16 (Id m) ++ be16 (Operation m) ++ be32 (ContentLength m)) ++ r) 0
    = Some (mkMetadata (wrap 16 (Magic m)) (wrap 16 (Id m)) (wrap 16 (Operation m)) (wrap 32 (ContentLength m)))) as ->.
  { rewrite decoded_sub; [|done|rewrite len_app, (len_header_bytes m : len (_ ++ _) = _);
      pose proof (len_nonneg r); lia].
    rewrite sub_app_l by done.
    pose proof (Uint16_be16 (Magic m) []) as E1. pose proof (Uint16_be16 (Id m) []) as E2.
    pose proof (Uint16_be16 (Operation m) []) as E3. pose proof (Uint32_be32 (ContentLength m) []) as E4.
    rewrite app_nil_r in E1, E2, E3, E4.
    transitivity (magic ← Uint16 (be16 (Magic m)); id ← Uint16 (be16 (Id m));
      op ← Uint16 (be16 (Operation m)); cl ← Uint32 (be32 (ContentLength m));
      Some (mkMetadata magic id op cl)); [reflexivity|].
    rewrite E1, E2, E3, E4. done. }
  unfold wrap, in_width in *. rewrite !Z.mod_small by lia. by destruct m.
Qed.

(** Any ten bytes are the image of the metadata they decode to. *)
Lemma byte_split_hi b0 b1 : byte_of_Z (Z.shiftr (byte_to_Z b0 * 256 + byte_to_Z b1) 8) = b0.
Proof.
  rewrite Z.shiftr_div_pow2 by lia. change (2 ^ 8) with 256.
  pose proof (byte_to_Z_range b1).
  rewrite Z.add_comm, Z.div_add, Z.div_small by lia. apply byte_of_to_Z.
Qed.

Lemma byte_of_Z_eqm a b : a mod 256 = byte_to_Z b → byte_of_Z a = b.
Proof.
  intros E. rewrite <- (byte_of_to_Z b), <- E. unfold byte_of_Z.
  by rewrite Zmod_mod.
Qed.

Lemma be16_Uint16 b0 b1 v : Uint16 [b0; b1] = Some v → be16 v = [b0; b1].
Proof.
  rewrite Uint16_spec. intros [= <-]. unfold be16. rewrite byte_split_hi.
  f_equal. f_equal. apply byte_of_Z_eqm.
  rewrite Z.add_comm, Z.mod_add, Z.mod_small; [done|apply byte_to_Z_range|lia].
Qed.

Lemma be32_Uint32 b0 b1 b2 b3 v : Uint32 [b0; b1; b2; b3] = Some v → be32 v = [b0; b1; b2; b3].
Proof.
  rewrite Uint32_spec. intros [= <-]. unfold be32.
  pose proof (byte_to_Z_range b0); pose proof (byte_to_Z_range b1);
  pose proof (byte_to_Z_range b2); pose proof (byte_to_Z_range b3).
  rewrite !Z.shiftr_div_pow2 by lia.
  change (2 ^ 24) with 16777216. change (2 ^ 16) with 65536. change (2 ^ 8) with 256.
  repeat f_equal; apply byte_of_Z_eqm.
  all: Z.div_mod_to_equations; lia.
Qed.

Lemma header_bytes_decoded b m :
  len b = Size → decoded b 0 = Some m → header_bytes m = b.
Proof.
  intros (b0&b1&b2&b3&b4&b5&b6&b7&b8&b9&->)%ten_bytes H.
  assert (Some m = magic ← Uint16 [b0; b1]; id ← Uint16 [b2; b3];
      op ← Uint16 [b4; b5]; cl ← Uint32 [b6; b7; b8; b9];
      Some (mkMetadata magic id op cl)) as E by (rewrite <- H; reflexivity).
  destruct (Uint16 [b0; b1]) eqn:E1; [|done]. destruct (Uint16 [b2; b3]) eqn:E2; [|done].
  destruct (Uint16 [b4; b5]) eqn:E3; [|done]. destruct (Uint32 [b6; b7; b8; b9]) eqn:E4; [|done].
  injection E as ->. unfold header_bytes. simpl Magic. simpl Id. simpl Operation. simpl ContentLength.
  by rewrite (be16_Uint16 _ _ _ E1), (be16_Uint16 _ _ _ E2), (be16_Uint16 _ _ _ E3), (be32_Uint32 _ _ _ _ _ E4).
Qed.

(** ** Properties *)

(** C21: encoding and decoding are inverse.  A header encoded by [Encode] (any
    identifier, operation and content length of their widths), followed by any
    bytes, decodes without error to exactly the metadata that was encoded, and
    the encoding has ten bytes. *)
Theorem encode_decode_roundtrip (id op cl : Z) (r : list byte) :
  is_uint16 id → is_uint16 op → is_uint32 cl →
  let '(b, err) := Encode id op cl in
  err = None ∧ len b = Size ∧
  Decode (b ++ r) = (Some (mkMetadata PacketMagicHeader id op cl), None).
Proof.
  intros Hi Ho Hc. unfold Encode. rewrite Metadata_Encode_spec.
  split_and!; [done..|].
  set (m := mkMetadata _ _ _ _). assert (wf_metadata m) by (split_and!; try done; by vm_compute).
  unfold Decode, Metadata_Decode.
  replace (len (header_bytes m ++ r) <? Size) with false
    by (rewrite len_app, len_header_bytes; pose proof (len_nonneg r); lia).
  rewrite sub_app_l, sub_all by done.
  rewrite (read_fields_decoded _ _ _ m); [done|].
  rewrite <- (app_nil_r (header_bytes m)). by apply decoded_header.
Qed.

Lemma encode_decode_roundtrip_witness :
  let '(b, err) := Encode 7 10 300 in
  err = None ∧ len b = Size ∧
  Decode (b ++ [Byte.x2a]) = (Some (mkMetadata PacketMagicHeader 7 10 300), None).
Proof. apply (encode_decode_roundtrip 7 10 300 [Byte.x2a]); unfold in_width; lia. Defined.

(** Decoding is total and injective.  A slice shorter than a header gives
    [InvalidBufferLengthErr]; any other slice, whatever its bytes, decodes
    without a panic to fields within their widths, and encoding those fields
    again gives back the first ten bytes. *)
Theorem decode_total (buf : list byte) :
  match Decode buf with
  | (None, err) => len buf < Size ∧ err = Some InvalidBufferLengthErr
  | (Some m, err) => Size ≤ len buf ∧ err = None ∧ wf_metadata m ∧
      Metadata_Encode m = (sub buf 0 Size, None)
  end.
Proof.
  unfold Decode. destruct (Z.ltb_spec (len buf) Size) as [Hlt|Hge]; [done|].
  destruct (decoded_total buf 0) as (m&Hm&Hwf); [done..|].
  rewrite decoded_sub in Hm by done.
  unfold Metadata_Decode. rewrite (read_fields_decoded _ _ _ m) by done.
  split_and!; [done..|]. rewrite Metadata_Encode_spec. f_equal.
  apply header_bytes_decoded; [|done]. rewrite len_sub; done || lia.
Qed.

(** Buffers of a pool that has only ever seen buffers. *)
Definition buffers_ok {BP : BufferPool} (pool : Pool BP) : Prop :=
  pool_ok BP (λ b, len b = Size) pool.

(** Recycled header buffers leak nothing.  [Buffer.Reset] does not clear the
    array, but filling in a header on a buffer from the pool yields the ten
    bytes of that header whatever the buffer held, and the pool keeps holding
    buffers of the right size when it is put back. *)
Theorem pooled_header_clean {BP : BufferPool} `{!PoolLaws BP} (pool : Pool BP) (m : Metadata) :
  buffers_ok pool →
  let '(b, pool') := GetBuffer pool in
  let '(r, b') := put_fields (Magic m) (Id m) (Operation m) (ContentLength m) b in
  r = Ret tt ∧ b' = (Metadata_Encode m).1 ∧ buffers_ok (PutBuffer b' pool').
Proof.
  intros Hok. unfold GetBuffer. destruct (pool_Get_ok (λ b, len b = Size) pool) as [Hb Hp]; [done..|].
  destruct (pool_Get BP pool) as [b pool']. cbn [fst snd] in *.
  rewrite put_fields_spec by done. cbn beta iota. rewrite Metadata_Encode_spec.
  destruct m; split_and!; [done..|]. by apply pool_Put_ok.
Qed.

(** A pool whose one buffer is full of ones. *)
Lemma pooled_header_clean_witness :
  let BP := list_pool (list byte) NewBuffer Reset in
  let '(b, pool') := GetBuffer (BP := BP) [replicate 10 Byte.xff] in
  let '(r, b') := put_fields 15 3 11 4 b in
  r = Ret tt ∧ b' = (Metadata_Encode (mkMetadata 15 3 11 4)).1 ∧
  buffers_ok (BP := BP) (PutBuffer (BP := BP) b' pool').
Proof.
  apply (pooled_header_clean (BP := list_pool (list byte) NewBuffer Reset)
           [replicate 10 Byte.xff] (mkMetadata 15 3 11 4)).
  intros x Hx. apply list_elem_of_singleton in Hx. by subst x.
Defined.

End metadata.
