(* ===== verification/Packet.v ===== *)
(** * Packets and their pool (pkg/packet) *)

From S2P Require Import Prelude Frisbee GoStd Interfaces Metadata.

Module packet.
Import metadata.

Section packet.
Context {PB : Polyglot}.

(** A [*Packet] is used through its two fields; packets are passed by value
    here, and by reference in the dispatchers, where their identity matters. *)
Record Packet := mkPacket {
  Metadata : metadata.Metadata;
  Content : Buffer;
}.

Definition Reset (p : Packet) : Packet :=
  let m := Metadata p in
  let m := set_Magic 0 m in
  let m := set_Id 0 m in
  let m := set_Operation 0 m in
  let m := set_ContentLength 0 m in
  mkPacket m (Buffer_Reset (Content p)).

Definition New : Packet := mkPacket zeroMetadata polyglot_NewBuffer.

Definition PacketPool := PoolOps Packet New Reset.
Existing Class PacketPool.

Definition Get {PP : PacketPool} (pool : Pool PP) : Packet * Pool PP := pool_Get PP pool.

Definition Put {PP : PacketPool} (p : Packet) (pool : Pool PP) : Pool PP := pool_Put PP p pool.

(** What the user of a packet sees of it. *)
Definition view (p : Packet) : metadata.Metadata * list byte := (Metadata p, Bytes (Content p)).

(** A packet ready for reuse. *)
Definition blank (p : Packet) : Prop := view p = (zeroMetadata, []).

Definition set_Metadata m p := mkPacket m (Content p).
Definition set_Content c p := mkPacket (Metadata p) c.

(** [p.Content.Write(d)]. *)
Definition write_content (d : list byte) (p : Packet) : Packet :=
  set_Content (Write (Content p) d).2 p.

(** ** The wire image of a packet *)

(** The header both writers put in front of a packet: the magic field is the
    constant, whatever the packet holds. *)
Definition wire_metadata (m : metadata.Metadata) : metadata.Metadata := set_Magic PacketMagicHeader m.

Definition frame (p : Packet) : list byte :=
  header_bytes (wire_metadata (Metadata p)) ++ Bytes (Content p).

(** A packet both writers accept: fields within their widths, a content length
    that is the length of the content, and no more than the limit. *)
Definition sendable {G : Globals} (p : Packet) : Prop :=
  wf_metadata (Metadata p) ∧ ContentLength (Metadata p) = len (Bytes (Content p)) ∧
  exceeds_max (ContentLength (Metadata p)) = false.

(** What the receiver of [p] sees. *)
Definition received (p : Packet) : metadata.Metadata * list byte :=
  (wire_metadata (Metadata p), Bytes (Content p)).

Context `{!PolyglotLaws PB}.

Lemma wf_wire_metadata m : wf_metadata m → wf_metadata (wire_metadata m).
Proof. intros (?&?&?&?). split_and!; try done; by vm_compute. Qed.

Lemma decoded_frame p r : wf_metadata (Metadata p) →
  decoded (frame p ++ r) 0 = Some (wire_metadata (Metadata p)).
Proof.
  intros H. unfold frame. rewrite <- app_assoc. by apply decoded_header, wf_wire_metadata.
Qed.

Lemma len_frame p : len (frame p) = Size + len (Bytes (Content p)).
Proof. unfold frame. by rewrite len_app, len_header_bytes. Qed.

Lemma blank_New : blank New.
Proof. unfold blank, view. simpl. by rewrite Bytes_NewBuffer. Qed.

Lemma blank_Reset p : blank (Reset p).
Proof. unfold blank, view. simpl. by rewrite Reset_Bytes. Qed.

Lemma view_write_content p d :
  view (write_content d p) = (Metadata p, Bytes (Content p) ++ d).
Proof. unfold view. simpl. by rewrite Write_Bytes. Qed.

(** *** The pool *)
Context {PP : PacketPool} `{!PoolLaws PP}.

Definition packets_blank (pool : Pool PP) : Prop := pool_ok PP blank pool.

Lemma Get_blank pool : packets_blank pool →
  blank (Get pool).1 ∧ packets_blank (Get pool).2.
Proof. intros. apply pool_Get_ok; [apply blank_New|done]. Qed.

Lemma Put_blank pool p : packets_blank pool → packets_blank (Put p pool).
Proof. intros. apply pool_Put_ok; [apply blank_Reset|done]. Qed.

(** Uses of the pool, in any order, by any of the goroutines. *)
Inductive pool_use := UseGet | UsePut (p : Packet).

Fixpoint pool_run (us : list pool_use) (pool : Pool PP) : list Packet * Pool PP :=
  match us with
  | [] => ([], pool)
  | UseGet :: us =>
      let '(p, pool) := Get pool in
      let '(ps, pool) := pool_run us pool in (p :: ps, pool)
  | UsePut p :: us => pool_run us (Put p pool)
  end.

Lemma pool_run_blank us pool :
  packets_blank pool → Forall blank (pool_run us pool).1 ∧ packets_blank (pool_run us pool).2.
Proof.
  revert pool. induction us as [|[|p] us IH]; intros pool Hp; simpl; [done| |].
  - destruct (Get_blank pool Hp) as [Hb Hp']. destruct (Get pool) as [q pool']. simpl in *.
    destruct (IH _ Hp') as [??]. destruct (pool_run us pool'). simpl in *. by split; [constructor|].
  - apply IH. by apply Put_blank.
Qed.

(** Recycled packets are clean.  Whatever packets are put back (with any
    metadata and content) and in whatever order [Get] and [Put] are called,
    every packet the pool hands out has zero metadata and empty content. *)
Theorem pooled_packets_blank (us : list pool_use) :
  Forall (λ p, Metadata p = zeroMetadata ∧ Len (Content p) = 0) (pool_run us (NewPool PP)).1.
Proof.
  destruct (pool_run_blank us (NewPool PP)) as [H _]; [apply pool_ok_new|].
  eapply Forall_impl; [|exact H].
  intros p [= Hm Hb]. split; [done|]. by rewrite Len_Bytes, Hb.
Qed.

End packet.

Lemma pooled_packets_blank_witness :
  let PB := list_polyglot in
  let PP := list_pool Packet New Reset in
  Forall (λ p, Metadata p = zeroMetadata ∧ Len (Content p) = 0)
    (pool_run (PP := PP)
       [UseGet; UsePut (mkPacket (mkMetadata 1 2 3 4) [Byte.x41]); UseGet] []).1.
Proof.
  apply (pooled_packets_blank (PB := list_polyglot) (PP := list_pool _ _ _)).
Defined.

End packet.
