(* ===== verification/Sync.v ===== *)
(** * The synchronous connection (sync.go)

    [Sync] writes each packet straight to its [net.Conn] and reads with
    [io.ReadAtLeast].  The state holds both directions of the connection; the
    logger carries no protocol state and is left out, and connecting and the TLS
    accessors are in [Connect].  [racing] says what other goroutines do
    to the connection, at each successive point where it makes a difference: while
    an I/O call is in progress, and before the compare-and-swap of
    [closeWithError], after the failed call has found the connection open. *)

From S2P Require Import Prelude Frisbee GoStd Interfaces Metadata Packet.

Module sync.
Import metadata packet.

(** [atomic.Value] panics when values of different dynamic types are stored.
    Sentinel errors are [*errors.errorString], joined errors [*joinError], I/O
    errors of the network [*net.OpError], runtime errors [runtime.Error]. *)
Inductive dynamic_type := ErrorString | JoinError | OpError | RuntimeErrorType.

#[global] Instance dynamic_type_eq_dec : EqDecision dynamic_type.
Proof. solve_decision. Defined.

Definition type_of (e : error) : dynamic_type :=
  match e with
  | Join _ _ => JoinError
  | IOError _ | ErrNetClosed => OpError
  | RuntimeError _ => RuntimeErrorType
  | _ => ErrorString
  end.

(** What another goroutine does: call [Close] or [Raw], or fail with an error of
    its own and go through [closeWithError]. *)
Inductive rival := Nobody | Closes | TakesRaw | Fails (e : error).

Section sync.
Context {G : Globals} {PB : Polyglot} {PP : PacketPool}.

Record Sync := mkSync {
  conn : WConn;
  rx : script;
  closed : bool;
  error : option Frisbee.error;
  ctx : option Z;
  pool : Pool PP;
  racing : list rival;
}.

Definition set_conn v c := mkSync v (rx c) (closed c) (error c) (ctx c) (pool c) (racing c).
Definition set_rx v c := mkSync (conn c) v (closed c) (error c) (ctx c) (pool c) (racing c).
Definition set_closed v c := mkSync (conn c) (rx c) v (error c) (ctx c) (pool c) (racing c).
Definition set_error v c := mkSync (conn c) (rx c) (closed c) v (ctx c) (pool c) (racing c).
Definition set_ctx v c := mkSync (conn c) (rx c) (closed c) (error c) v (pool c) (racing c).
Definition set_pool v c := mkSync (conn c) (rx c) (closed c) (error c) (ctx c) v (racing c).
Definition set_racing v c := mkSync (conn c) (rx c) (closed c) (error c) (ctx c) (pool c) v.

(** [NewSync(conn, logger)]. *)
Definition NewSync (c : WConn) (s : script) (pl : Pool PP) (race : list rival) : Sync :=
  mkSync c s false None None pl race.

(** [SetDeadline], [SetReadDeadline] and [SetWriteDeadline] pass the call on. *)
Definition SetDeadline : M Sync (option Frisbee.error) := zoom conn set_conn conn_SetDeadline.

(** ** Closing *)

(** [close()]: the compare-and-swap on [closed]. *)
Definition close : M Sync (option Frisbee.error) :=
  c ← get;
  if closed c then mret (Some ConnectionClosed)
  else modify (set_closed true);; mret None.

(** [c.error.Store(err)]. *)
Definition error_Store (err : Frisbee.error) : M Sync unit :=
  c ← get;
  match error c with
  | Some old =>
      if bool_decide (type_of old = type_of err) then modify (set_error (Some err))
      else panicM InconsistentStore
  | None => modify (set_error (Some err))
  end.

Definition close_conn : M Sync unit := modify (λ c, set_conn (conn_Close (conn c)) c).

Definition closeWithError (err : Frisbee.error) : M Sync Frisbee.error :=
  closeError ← close;
  match closeError with
  | Some e => if errors_Is e ConnectionClosed then mret ConnectionClosed
              else error_Store err;; close_conn;; mret err
  | None => error_Store err;; close_conn;; mret err
  end.

Definition Close : M Sync (option Frisbee.error) :=
  err ← close;
  match err with
  | Some e => if errors_Is e ConnectionClosed then mret None
              else close_conn;; mret (Some e)
  | None => close_conn;; mret None
  end.

(** [Raw()] gives up the connection without closing it. *)
Definition Raw : M Sync WConn := _ ← close; c ← get; mret (conn c).

Definition Error (c : Sync) : option Frisbee.error := error c.

Definition SetContext (x : option Z) : M Sync unit := modify (set_ctx x).
Definition Context (c : Sync) : option Z := ctx c.

(** ** Other goroutines *)

Definition rival_acts (r : rival) : M Sync unit :=
  match r with
  | Nobody => mret tt
  | Closes => _ ← Close; mret tt
  | TakesRaw => _ ← Raw; mret tt
  | Fails e => _ ← closeWithError e; mret tt
  end.

Definition interfere : M Sync unit :=
  c ← get;
  match racing c with
  | r :: rs => modify (set_racing rs);; rival_acts r
  | [] => mret tt
  end.

(** [closeWithError] as the operations below call it: somebody may come first. *)
Definition close_with (err : Frisbee.error) : M Sync Frisbee.error := interfere;; closeWithError err.

(** ** I/O calls *)

Definition sync_Write (p : list byte) : M Sync (Z * option Frisbee.error) :=
  interfere;; zoom conn set_conn (conn_Write p).

(** The error a failed call reports: [ConnectionClosed] when the connection was
    closed meanwhile, else the connection is closed with the error. *)
Definition fail_io (err : Frisbee.error) : M Sync Frisbee.error :=
  c ← get;
  if closed c then mret ConnectionClosed else close_with err.

(** ** Writing *)

Definition WritePacket (p : Packet) : M Sync (option Frisbee.error) :=
  let cl := ContentLength (Metadata p) in
  if negb (cl =? Len (Content p)) then mret (Some InvalidContentLength)
  else if exceeds_max cl then mret (Some ContentLengthExceeded)
  else
    encodedMetadata ←
      (match put_fields PacketMagicHeader (Id (Metadata p)) (Operation (Metadata p)) cl NewBuffer with
       | (Ret _, b) => mret b
       | _ => panicM IndexOutOfRange
       end);
    c ← get;
    if closed c then mret (Some ConnectionClosed)
    else
      '(_, err) ← sync_Write encodedMetadata;
      match err with
      | Some err => e ← fail_io err; mret (Some e)
      | None =>
          if cl =? 0 then mret None
          else
            content ← or_panic (slice (Bytes (Content p)) 0 cl) IndexOutOfRange;
            '(_, err) ← sync_Write content;
            match err with
            | Some err => e ← fail_io err; mret (Some e)
            | None => mret None
            end
      end.

(** ** Reading *)

(** [io.ReadAtLeast(c.conn, buf, min)]; a closed connection fails the read. *)
Definition sync_ReadAtLeast (buf : list byte) (min : Z) : M Sync (list byte + Frisbee.error) :=
  interfere;;
  c ← get;
  if conn_closed (conn c) then mret (inr ErrNetClosed)
  else
    match ReadAtLeast (rx c) buf min with
    | ReadOk buf' s => modify (set_rx s);; mret (inl buf')
    | ReadErr err => mret (inr err)
    | ReadBlocked => blockM
    | ReadDiverges => out_of_fuel
    end.

Definition packet_Get : M Sync Packet := λ c,
  let '(p, pl) := Get (pool c) in (Ret p, set_pool pl c).

(** The end of [ReadPacket]: the content of the packet whose header was read. *)
Definition sync_read_content (p : Packet) : M Sync (Packet + Frisbee.error) :=
  let cl := ContentLength (Metadata p) in
  if cl >? 0 then
    let content := MoveOffset (Grow (Content p) cl) cl in
    r ← sync_ReadAtLeast (Bytes content) cl;
    match r with
    | inr err => e ← fail_io err; mret (inr e)
    | inl bs => mret (inl (set_Content (Fill content bs) p))
    end
  else mret (inl p).

Definition ReadPacket : M Sync (Packet + Frisbee.error) :=
  c ← get;
  if closed c then mret (inr ConnectionClosed)
  else
    r ← sync_ReadAtLeast NewBuffer Size;
    match r with
    | inr err => e ← fail_io err; mret (inr e)
    | inl encodedPacket =>
        p ← packet_Get;
        m ← (match read_fields encodedPacket 0 (Metadata p) with
             | (Ret _, m) => mret m
             | _ => panicM IndexOutOfRange
             end);
        let p := set_Metadata m p in
        if negb (Magic m =? PacketMagicHeader) then
          e ← close_with InvalidMagicHeader; mret (inr e)
        else if exceeds_max (ContentLength m) then
          e ← close_with ContentLengthExceeded; mret (inr e)
        else sync_read_content p
    end.

(** ** Functional behaviour on a connection nobody else closes *)

Context `{!GlobalsLaws G} `{!PolyglotLaws PB} `{!PoolLaws PP}.

(** Open, with no other goroutine about to close it. *)
Definition quiet (c : Sync) : Prop :=
  closed c = false ∧ conn_closed (conn c) = false ∧ racing c = [] ∧ error c = None ∧
  packets_blank (pool c).

Definition on_wire (bs : list byte) (c : Sync) : Sync :=
  set_conn (mkWConn (wire (conn c) ++ bs) [] [] false) c.

Lemma sync_Write_healthy bs c :
  quiet c → healthy (conn c) → sync_Write bs c = (Ret (len bs, None), on_wire bs c).
Proof.
  destruct c as [[w f d cl] s clo er cx pl ra]. intros (?&?&?&?&?) (?&?&?); simpl in *; subst.
  reflexivity.
Qed.

Lemma quiet_on_wire bs c : quiet c → quiet (on_wire bs c).
Proof. by intros (?&?&?&?&?). Qed.

Lemma on_wire_app a b c : on_wire b (on_wire a c) = on_wire (a ++ b) c.
Proof. unfold on_wire, set_conn. simpl. by rewrite <- app_assoc. Qed.

(** A sendable packet goes out as its frame, in one or two writes. *)
Lemma WritePacket_frame p c :
  quiet c → healthy (conn c) → sendable p → WritePacket p c = (Ret None, on_wire (frame p) c).
Proof.
  intros Hq Hh (Hwf&Hcl&Hmax). unfold WritePacket.
  rewrite Len_Bytes, Hcl, Z.eqb_refl, <- Hcl, Hmax. cbn [negb].
  rewrite put_fields_spec by done.
  erewrite bind_Ret by reflexivity. rewrite (bind_Ret get _ c c c) by done.
  rewrite (proj1 Hq). erewrite bind_Ret by (by apply sync_Write_healthy). cbn beta iota.
  assert (header_bytes (mkMetadata PacketMagicHeader (Id (Metadata p)) (Operation (Metadata p))
    (ContentLength (Metadata p))) = header_bytes (wire_metadata (Metadata p))) as -> by done.
  unfold frame. destruct (Z.eqb_spec (ContentLength (Metadata p)) 0) as [H0|H0].
  { rewrite (len_zero_inv (Bytes (Content p))) by lia. by rewrite app_nil_r. }
  pose proof (len_nonneg (Bytes (Content p))).
  rewrite slice_Some by lia. erewrite bind_Ret by reflexivity.
  rewrite sub_all by done. erewrite bind_Ret; [|apply sync_Write_healthy; [by apply quiet_on_wire|by split_and!]].
  cbn beta iota. by rewrite on_wire_app.
Qed.

(** A read of a whole buffer from a clean delivery: the next bytes, or the error
    of a stream that stops short ([ErrUnexpectedEOF] within the bytes wanted), or
    a wait for more. *)
Definition short_error (tail : option Frisbee.error) (have : Z) : option Frisbee.error :=
  match tail with
  | None => None
  | Some e => Some (if (0 <? have) && bool_decide (e = EOF) then ErrUnexpectedEOF else e)
  end.

Lemma sync_ReadAtLeast_feed chunks tail buf n c :
  quiet c → rx c = feed chunks tail → n = len buf →
  let bs := concat chunks in
  if bool_decide (n ≤ len bs) then
    ∃ chunks', sync_ReadAtLeast buf n c = (Ret (inl (sub bs 0 n)), set_rx (feed chunks' tail) c) ∧
      concat chunks' = sub bs n (len bs)
  else
    sync_ReadAtLeast buf n c =
      match short_error tail (len bs) with
      | Some e => (Ret (inr e), c)
      | None => (Block, c)
      end.
Proof.
  intros (?&Hcc&Hr&?) Hrx -> bs.
  assert (∀ r, ReadAtLeast (rx c) buf (len buf) = r →
    sync_ReadAtLeast buf (len buf) c = match r with
      | ReadOk buf' s => (Ret (inl buf'), set_rx s c) | ReadErr err => (Ret (inr err), c)
      | ReadBlocked => (Block, c) | ReadDiverges => (OutOfFuel, c) end) as Hrun.
  { intros r Hra. unfold sync_ReadAtLeast.
    erewrite bind_Ret; [|unfold interfere; rewrite (bind_Ret get _ c c c) by done; by rewrite Hr].
    rewrite (bind_Ret get _ c c c) by done. rewrite Hcc, Hra. by destruct r. }
  rewrite Hrx in Hrun.
  destruct (ReadAtLeast_feed chunks tail buf) as [(chunks'&E&?&?)|[E ?]]; rewrite (Hrun _ E).
  - rewrite bool_decide_true by done. eauto.
  - rewrite bool_decide_false by (unfold bs; lia). by destruct tail.
Qed.

Definition got_packet (c : Sync) : Packet * Sync := ((Get (pool c)).1, set_pool (Get (pool c)).2 c).

Lemma quiet_got_packet c : quiet c → blank (got_packet c).1 ∧ quiet (got_packet c).2.
Proof.
  intros (?&?&?&?&Hb). destruct (Get_blank (pool c) Hb) as [? ?]. unfold got_packet. simpl. by split_and!.
Qed.

Lemma sync_packet_Get_eq c : packet_Get c = (Ret (got_packet c).1, (got_packet c).2).
Proof. unfold packet_Get, got_packet. by destruct (Get (pool c)). Qed.

(** *** What one [ReadPacket] makes of a byte stream *)

Inductive read_outcome :=
  | GotPacket (m : metadata.Metadata) (d rest : list byte)
  | Failed (e : Frisbee.error)
  | Waiting.

Definition stream_short (tail : option Frisbee.error) (have : Z) : read_outcome :=
  match short_error tail have with Some e => Failed e | None => Waiting end.

Definition read_spec (bs : list byte) (tail : option Frisbee.error) : read_outcome :=
  match decoded bs 0 with
  | Some m =>
      let cl := ContentLength m in
      if negb (Magic m =? PacketMagicHeader) then Failed InvalidMagicHeader
      else if exceeds_max cl then Failed ContentLengthExceeded
      else if len bs <? Size + cl then stream_short tail (len bs - Size)
      else GotPacket m (sub bs Size (Size + cl)) (sub bs (Size + cl) (len bs))
  | None => stream_short tail (len bs)
  end.

(** The connection after it was closed with an error. *)
Definition closed_with (e : Frisbee.error) (c : Sync) : Sync :=
  set_conn (conn_Close (conn c)) (set_error (Some e) (set_closed true c)).

Lemma closeWithError_quiet e c : quiet c → closeWithError e c = (Ret e, closed_with e c).
Proof.
  destruct c. intros (?&?&?&?&?); simpl in *; subst. reflexivity.
Qed.

Lemma close_with_quiet e c : quiet c → close_with e c = (Ret e, closed_with e c).
Proof.
  intros Hq. assert (interfere c = (Ret tt, c)) as Ei
    by (unfold interfere; rewrite (bind_Ret get _ c c c) by done; destruct Hq as (_&_&Hr&_); by rewrite Hr).
  unfold close_with. rewrite (bind_Ret _ _ _ _ _ Ei). by apply closeWithError_quiet.
Qed.

Lemma fail_io_quiet e c : quiet c → fail_io e c = (Ret e, closed_with e c).
Proof.
  intros Hq. unfold fail_io. rewrite (bind_Ret get _ c c c) by done. rewrite (proj1 Hq).
  by apply close_with_quiet.
Qed.

(** [ReadPacket] implements [read_spec], however the stream is cut. *)
Definition reads_as (o : read_outcome) (tail : option Frisbee.error) (c : Sync)
    (r : outcome (Packet + Frisbee.error) * Sync) : Prop :=
  match o with
  | GotPacket m d rest => ∃ q chunks' c', r = (Ret (inl q), c') ∧ view q = (m, d) ∧
      quiet c' ∧ rx c' = feed chunks' tail ∧ concat chunks' = rest ∧ conn c' = conn c
  | Failed e => ∃ c', r = (Ret (inr e), c') ∧ closed c' = true ∧
      conn_closed (conn c') = true ∧ Error c' = Some e
  | Waiting => ∃ c', r = (Block, c') ∧ quiet c'
  end.

Lemma sync_read_content_spec chunks tail p c :
  quiet c → rx c = feed chunks tail → Bytes (Content p) = [] → 0 ≤ ContentLength (Metadata p) →
  let bs := concat chunks in
  let cl := ContentLength (Metadata p) in
  reads_as (if len bs <? cl then stream_short tail (len bs) else GotPacket (Metadata p) (sub bs 0 cl) (sub bs cl (len bs)))
    tail c (sync_read_content p c).
Proof.
  intros Hq Hrx Hb Hcl bs cl. unfold sync_read_content. fold cl.
  destruct (cl >? 0) eqn:Hpos.
  - set (content := MoveOffset _ _).
    assert (len (Bytes content) = cl) as Hlc.
    { unfold content. rewrite Grow_MoveOffset_Len by done. rewrite Hb, len_nil. lia. }
    pose proof (sync_ReadAtLeast_feed chunks tail (Bytes content) cl c Hq Hrx (eq_sym Hlc)) as E.
    cbv zeta in E. fold bs in E. case_bool_decide as Hfull.
    + replace (len bs <? cl) with false by lia. destruct E as (chunks2&E&Hc2).
      erewrite bind_Ret by apply E. eexists _, chunks2, _. split; [done|]. split_and!; try done.
      unfold view. simpl. by rewrite Fill_Bytes by (rewrite len_sub; lia).
    + replace (len bs <? cl) with true by lia. unfold stream_short, mbind, M_bind. rewrite E.
      destruct (short_error tail _) as [e|]; simpl; [|eauto]. rewrite fail_io_quiet by done. eauto 10.
  - assert (cl = 0) as -> by lia. pose proof (len_nonneg bs). replace (len bs <? 0) with false by lia.
    eexists _, chunks, _. split; [done|]. split_and!; try done.
    + unfold view. by rewrite Hb, sub_empty.
    + unfold bs. by rewrite sub_all.
Qed.

Lemma ReadPacket_spec chunks tail c :
  quiet c → rx c = feed chunks tail →
  reads_as (read_spec (concat chunks) tail) tail c (ReadPacket c).
Proof.
  intros Hq Hrx. set (bs := concat chunks).
  unfold ReadPacket. rewrite (bind_Ret get _ c c c) by done. rewrite (proj1 Hq).
  pose proof (sync_ReadAtLeast_feed chunks tail NewBuffer Size c Hq Hrx eq_refl) as E.
  cbv zeta in E. fold bs in E. case_bool_decide as Hlen.
  2:{ assert (decoded bs 0 = None) as Hn.
      { destruct (decoded bs 0) as [m|] eqn:Hd; [|done]. exfalso. apply Hlen.
        by eapply decoded_length. }
      unfold read_spec, stream_short. rewrite Hn. unfold mbind, M_bind. rewrite E.
      destruct (short_error tail (len bs)) as [e|]; simpl; [|eauto].
      rewrite fail_io_quiet by done. eauto 10. }
  destruct E as (chunks1&E&Hc1). erewrite bind_Ret by apply E. clear E. cbn beta iota.
  destruct (decoded_total bs 0) as (m&Hm&(_&_&_&Hcl)); [done|lia|].
  unfold read_spec. rewrite Hm. rewrite decoded_sub in Hm by (done || lia).
  erewrite bind_Ret by apply sync_packet_Get_eq.
  destruct (quiet_got_packet (set_rx (feed chunks1 tail) c)) as [Hblank Hq2]; [done|].
  set (q := (got_packet _).1) in *. set (c2 := (got_packet _).2) in *.
  assert (rx c2 = feed chunks1 tail) as Hrx2 by done. assert (conn c2 = conn c) as Hco by done.
  clearbody q c2. rewrite (read_fields_decoded _ _ _ _ Hm). erewrite bind_Ret by reflexivity.
  destruct (negb (Magic m =? PacketMagicHeader)).
  { rewrite (bind_Ret _ _ _ _ _ (close_with_quiet InvalidMagicHeader c2 Hq2)). by eexists. }
  destruct (exceeds_max (ContentLength m)).
  { rewrite (bind_Ret _ _ _ _ _ (close_with_quiet ContentLengthExceeded c2 Hq2)). by eexists. }
  injection Hblank as Hqm Hqb. unfold in_width in Hcl. assert (Size = 10) as HS by done.
  assert (len (concat chunks1) = len bs - Size) as Hl1 by (rewrite Hc1, len_sub by (done || lia); lia).
  pose proof (sync_read_content_spec chunks1 tail (set_Metadata m q) c2 Hq2 Hrx2 Hqb (proj1 Hcl)) as E.
  cbv zeta in E. change (Metadata (set_Metadata m q)) with m in E. rewrite Hl1 in E.
  replace (len bs - Size <? ContentLength m) with (len bs <? Size + ContentLength m) in E by lia.
  destruct (Z.ltb_spec (len bs) (Size + ContentLength m)) as [Hs|Hs].
  - unfold stream_short in *. destruct (short_error _ _); exact E.
  - destruct E as (q'&chunks'&c'&Er&Hv&Hq'&Hrx'&Hrest&Hconn). rewrite Hc1 in Hv, Hrest.
    rewrite sub_sub in Hv, Hrest by lia. exists q', chunks', c'. split_and!; try done.
    + rewrite Hrest. f_equal; lia.
    + by rewrite Hconn.
Qed.

(** A frame in the stream is read as its packet; the rest of the stream stays. *)
Lemma read_spec_frame p rest tail : sendable p →
  read_spec (frame p ++ rest) tail = GotPacket (wire_metadata (Metadata p)) (Bytes (Content p)) rest.
Proof.
  intros (Hwf&Hcl&Hmax). unfold read_spec. rewrite decoded_frame by done.
  change (Magic (wire_metadata _) =? PacketMagicHeader) with true.
  change (ContentLength (wire_metadata (Metadata p))) with (ContentLength (Metadata p)).
  rewrite Hmax, Hcl. cbn [negb]. pose proof (len_nonneg rest).
  rewrite len_app, len_frame.
  replace (_ <? _) with false by lia. f_equal.
  - rewrite sub_app_l by (rewrite ?len_frame; done || lia). unfold frame. by apply sub_app_r.
  - apply sub_app_r; by rewrite len_frame.
Qed.

Lemma ReadPacket_frame p rest chunks tail c :
  quiet c → rx c = feed chunks tail → sendable p → concat chunks = frame p ++ rest →
  ∃ q chunks' c', ReadPacket c = (Ret (inl q), c') ∧ view q = received p ∧
    quiet c' ∧ rx c' = feed chunks' tail ∧ concat chunks' = rest ∧ conn c' = conn c.
Proof.
  intros Hq Hrx Hp Hbs. pose proof (ReadPacket_spec chunks tail c Hq Hrx) as H.
  rewrite Hbs, read_spec_frame in H by done. done.
Qed.

(** Writing and reading several packets in a row. *)
Fixpoint WriteAll (ps : list Packet) : M Sync (list (option Frisbee.error)) :=
  match ps with
  | [] => mret []
  | p :: ps => r ← WritePacket p; rs ← WriteAll ps; mret (r :: rs)
  end.

Fixpoint ReadN (n : nat) : M Sync (list (Packet + Frisbee.error)) :=
  match n with
  | O => mret []
  | S n => r ← ReadPacket; rs ← ReadN n; mret (r :: rs)
  end.

Lemma WriteAll_frames ps c :
  quiet c → healthy (conn c) → Forall sendable ps →
  ∃ c', WriteAll ps c = (Ret ((λ _, None) <$> ps), c') ∧ quiet c' ∧ healthy (conn c') ∧
    wire (conn c') = wire (conn c) ++ concat (frame <$> ps).
Proof.
  intros Hq Hh Hall. revert c Hq Hh. induction Hall as [|p ps Hp _ IH]; intros c Hq Hh.
  { exists c. simpl. by rewrite app_nil_r. }
  cbn [WriteAll]. erewrite bind_Ret by (by apply WritePacket_frame).
  destruct (IH (on_wire (frame p) c)) as (c'&E&?&?&Hw); [by apply quiet_on_wire|by split_and!|].
  erewrite bind_Ret by apply E. exists c'. split_and!; try done.
  rewrite Hw. simpl. by rewrite <- app_assoc.
Qed.

Lemma ReadN_frames ps rest chunks tail c :
  quiet c → rx c = feed chunks tail → Forall sendable ps →
  concat chunks = concat (frame <$> ps) ++ rest →
  ∃ qs c' chunks', ReadN (length ps) c = (Ret (inl <$> qs), c') ∧ (view <$> qs) = (received <$> ps) ∧
    quiet c' ∧ rx c' = feed chunks' tail ∧ concat chunks' = rest.
Proof.
  intros Hq Hrx Hall. revert c chunks Hq Hrx. induction Hall as [|p ps Hp _ IH]; intros c chunks Hq Hrx Hbs.
  { exists [], c, chunks. by split_and!. }
  simpl in Hbs. rewrite <- app_assoc in Hbs.
  destruct (ReadPacket_frame p _ chunks tail c Hq Hrx Hp Hbs) as (q&ch1&c1&E&Hv&Hq1&Hrx1&Hb1&_).
  destruct (IH c1 ch1 Hq1 Hrx1 Hb1) as (qs&c'&ch'&E'&Hvs&?&?&?).
  exists (q :: qs), c', ch'. cbn [ReadN length]. erewrite bind_Ret by apply E.
  erewrite bind_Ret by apply E'. rewrite !fmap_cons, Hv, Hvs. by split_and!.
Qed.

(** ** The invariant of a connection, under arbitrary I/O failures and races *)

(** An open connection has no error recorded and its socket is open. *)
Definition sync_ok (c : Sync) : Prop :=
  (closed c = false → error c = None ∧ conn_closed (conn c) = false) ∧ packets_blank (pool c).

(** Nothing is undone: a closed connection stays closed, the first recorded
    error stays, bytes on the wire stay. *)
Definition later (c c' : Sync) : Prop :=
  (closed c = true → closed c' = true) ∧ (∀ e, error c = Some e → error c' = Some e) ∧
  wire (conn c) `prefix_of` wire (conn c').

#[global] Instance later_preorder : PreOrder later.
Proof.
  split; [by intros c; split_and!|].
  intros c1 c2 c3 (?&?&?) (?&?&?). split_and!; eauto. by etrans.
Qed.

Abbreviation keeps := (preserves sync_ok later).

(** Decides the closing operations by cases on the two flags and the error. *)
Local Ltac by_flags :=
  intros [[w f d cc] s [] er cx pl ra] [Hok Hp]; simpl in *;
  [|destruct Hok as [? ?]; [done|]; simpl in *; subst];
  unfold moved, sync_ok, later; simpl; split_and!; try done; intros; simplify_eq/=; done.

Lemma sync_close_keeps : keeps close.
Proof. by_flags. Qed.

Lemma sync_closeWithError_keeps e : keeps (closeWithError e).
Proof. by_flags. Qed.

Lemma sync_Close_keeps : keeps Close.
Proof. by_flags. Qed.

Hint Resolve sync_close_keeps sync_closeWithError_keeps sync_Close_keeps : preserve.

Lemma set_racing_keeps v : keeps (modify (set_racing v)).
Proof. by apply preserves_modify. Qed.

Lemma set_ctx_keeps v : keeps (modify (set_ctx v)).
Proof. by apply preserves_modify. Qed.

Lemma set_rx_keeps v : keeps (modify (set_rx v)).
Proof. by apply preserves_modify. Qed.

Hint Resolve set_racing_keeps set_ctx_keeps set_rx_keeps : preserve.

Lemma Raw_sync_keeps : keeps Raw.
Proof. unfold Raw. preserve. Qed.

Hint Resolve Raw_sync_keeps : preserve.

Lemma rival_acts_keeps r : keeps (rival_acts r).
Proof. destruct r; simpl; preserve. Qed.

Hint Resolve rival_acts_keeps : preserve.

Lemma interfere_keeps : keeps interfere.
Proof. unfold interfere. preserve. Qed.

Hint Resolve interfere_keeps : preserve.

Lemma close_with_keeps e : keeps (close_with e).
Proof. unfold close_with. preserve. Qed.

Hint Resolve close_with_keeps : preserve.

Lemma fail_io_keeps e : keeps (fail_io e).
Proof. unfold fail_io. preserve. Qed.

Hint Resolve interfere_keeps fail_io_keeps : preserve.

Lemma sync_Write_keeps p : keeps (sync_Write p).
Proof.
  unfold sync_Write. preserve. intros c [Hok Hp]. apply wp_zoom. unfold wp.
  destruct (conn_Write_mono p (conn c)) as (r&c'&->&Hcc&Hpre&_).
  unfold moved, sync_ok, later. simpl. by rewrite Hcc.
Qed.

Lemma ReadAtLeast_converges s buf : ReadAtLeast s buf (len buf) ≠ ReadDiverges.
Proof.
  unfold ReadAtLeast. pose proof (len_nonneg buf).
  pose proof (fill_safe s [] buf 0 0 (len buf)) as H0.
  destruct (fill _ _ _ _ _ _); try done; exfalso; apply H0; lia.
Qed.

Lemma sync_ReadAtLeast_keeps buf n : n = len buf → keeps (sync_ReadAtLeast buf n).
Proof.
  intros ->. unfold sync_ReadAtLeast. preserve.
  exfalso. by eapply ReadAtLeast_converges.
Qed.

Lemma packet_Get_keeps : keeps packet_Get.
Proof.
  intros c [Hok Hb]. destruct (Get_blank (pool c) Hb) as [? ?]. unfold wp. rewrite sync_packet_Get_eq.
  by split; [split|].
Qed.

Hint Resolve sync_Write_keeps sync_ReadAtLeast_keeps packet_Get_keeps : preserve.

Lemma sync_WritePacket_keeps p : keeps (WritePacket p).
Proof.
  unfold WritePacket. rewrite put_fields_spec by done. preserve.
  apply preserves_or_panic; [apply _|]. rewrite Len_Bytes in *.
  pose proof (len_nonneg (Bytes (Content p))). rewrite slice_Some by lia. done.
Qed.

(** Facts about what the reading steps return. *)
Lemma sync_ReadAtLeast_len buf n s b s' :
  n = len buf → sync_ReadAtLeast buf n s = (Ret (inl b), s') → len b = n.
Proof.
  intros -> H. unfold sync_ReadAtLeast in H.
  apply bind_Ret_inv in H as (?&c&_&H). apply bind_Ret_inv in H as (?&?&[= <- <-]&H).
  destruct (conn_closed _); [done|]. unfold ReadAtLeast in H.
  pose proof (len_nonneg buf). pose proof (fill_safe (rx c) [] buf 0 0 (len buf)) as Hf.
  destruct (fill _ _ _ _ _ _) as [b' n' s'' ds|?[]| | |]; try done.
  injection H as -> _. apply Hf; lia.
Qed.

Lemma packet_Get_is_blank s p s' :
  sync_ok s → packet_Get s = (Ret p, s') → blank p.
Proof. intros [_ Hb]. rewrite sync_packet_Get_eq. intros [= <- _]. by apply Get_blank. Qed.

Lemma sync_ReadPacket_keeps : keeps ReadPacket.
Proof.
  unfold ReadPacket. apply preserves_bind; [apply _|preserve|intros c0].
  destruct (closed c0); [preserve|].
  apply (preserves_bind_post _ _ (λ r, match r with inl b => len b = Size | inr _ => True end));
    [preserve..| |].
  { intros s [b|] s' _ E; [|done]. by apply sync_ReadAtLeast_len in E. }
  intros [b|e] Hb; [|preserve].
  apply (preserves_bind_post _ _ blank); [preserve..|by eauto using packet_Get_is_blank|].
  intros p Hp. destruct (decoded_total b 0) as (m&Hm&(_&_&_&Hcl)); [done|lia|].
  rewrite (read_fields_decoded _ _ _ _ Hm). apply preserves_ret_bind.
  injection Hp as Hpm Hpb. unfold in_width in Hcl. unfold sync_read_content. preserve.
  apply sync_ReadAtLeast_keeps. rewrite Grow_MoveOffset_Len by lia.
  simpl. rewrite Hpb, len_nil. lia.
Qed.

Hint Resolve sync_WritePacket_keeps sync_ReadPacket_keeps : preserve.

(** *** Any use of a connection *)

Inductive op := OpWrite (p : Packet) | OpRead | OpClose | OpRaw | OpSetContext (x : option Z) | OpSetDeadline.

Definition run_op (o : op) : M Sync unit :=
  match o with
  | OpWrite p => _ ← WritePacket p; mret tt
  | OpRead => _ ← ReadPacket; mret tt
  | OpClose => _ ← Close; mret tt
  | OpRaw => _ ← Raw; mret tt
  | OpSetContext x => SetContext x
  | OpSetDeadline => _ ← SetDeadline; mret tt
  end.

Fixpoint run_ops (os : list op) : M Sync unit :=
  match os with
  | [] => mret tt
  | o :: os => run_op o;; run_ops os
  end.

Lemma SetDeadline_keeps : keeps SetDeadline.
Proof.
  intros c [Hok Hp]. apply wp_zoom. unfold wp. destruct (conn_SetDeadline_cases (conn c)) as (r&ds&->&_).
  by unfold moved, sync_ok, later.
Qed.

Lemma sync_run_op_keeps o : keeps (run_op o).
Proof.
  destruct o; simpl; unfold Raw, SetContext; preserve. apply SetDeadline_keeps.
Qed.

Lemma run_ops_keeps os : keeps (run_ops os).
Proof. induction os; simpl; preserve. apply sync_run_op_keeps. Qed.

(** ** Properties *)

(** C18: the synchronous connection transports packets faithfully.  Any list of
    packets that the writer accepts is written without error; a peer that gets
    those bytes, cut into deliveries in any way and followed by anything,
    reads back exactly these packets (metadata with the magic header, and
    content), in order, and leaves what follows unread. *)
Theorem sync_roundtrip (ps : list Packet) (w : Sync) :
  quiet w → healthy (conn w) → Forall sendable ps →
  ∃ w', WriteAll ps w = (Ret ((λ _, None) <$> ps), w') ∧
    ∀ (r : Sync) chunks tail rest,
      quiet r → rx r = feed chunks tail →
      wire (conn w) ++ concat chunks = wire (conn w') ++ rest →
      ∃ qs r' chunks', ReadN (length ps) r = (Ret (inl <$> qs), r') ∧
        (view <$> qs) = (received <$> ps) ∧ rx r' = feed chunks' tail ∧ concat chunks' = rest.
Proof.
  intros Hq Hh Hps. destruct (WriteAll_frames ps w) as (w'&E&_&_&Hw); [done..|].
  exists w'. split; [done|]. intros r chunks tail rest Hr Hrx Hbs.
  rewrite Hw, <- app_assoc in Hbs. apply app_inv_head in Hbs.
  destruct (ReadN_frames ps rest chunks tail r) as (qs&r'&ch&?&?&?&?&?); [done..|].
  exists qs, r', ch. by split_and!.
Qed.

(** C19: [ReadPacket] implements its specification.  However the network cuts the
    stream, one call returns the first frame and leaves the rest; or fails with
    [InvalidMagicHeader], [ContentLengthExceeded], the I/O error, or
    [ErrUnexpectedEOF] for an end of stream inside a header or a content, having
    closed the connection and recorded that error; or waits for more bytes. *)
Theorem ReadPacket_refines (chunks : list (list byte)) (tail : option Frisbee.error) (c : Sync) :
  quiet c → rx c = feed chunks tail →
  reads_as (read_spec (concat chunks) tail) tail c (ReadPacket c).
Proof. apply ReadPacket_spec. Qed.

(** C20: no use of a synchronous connection breaks it.  For any sequence of
    writes, reads, [Close], [Raw] and [SetContext], with any deliveries and write
    failures, while other goroutines call [Close] or [Raw], or fail with any error
    and close the connection with it, during the I/O calls or just before this
    goroutine closes it: no call panics (in particular, however the failures race,
    errors of two dynamic types are never stored) and no read loop diverges; an
    open connection has no error and an open socket; and closing, the first
    recorded error and the bytes on the wire are never undone. *)
Theorem sync_safety (os : list op) (c : Sync) :
  sync_ok c →
  match run_ops os c with
  | (Ret _, c') | (Block, c') => sync_ok c' ∧ later c c'
  | (Panic _, _) | (OutOfFuel, _) => False
  end.
Proof.
  intros Hc. pose proof (preserves_out _ _ _ _ (run_ops_keeps os) Hc) as H.
  by destruct (run_ops os c) as [[]].
Qed.

End sync.

(** *** A concrete connection *)

Definition ex_pool : @PacketPool list_polyglot := list_pool _ _ _.
Definition ex_packet : @Packet list_polyglot :=
  @mkPacket list_polyglot (mkMetadata 0 7 10 3) [Byte.x61; Byte.x62; Byte.x63].
Definition ex_sync (s : script) (race : list rival) : @Sync list_polyglot ex_pool :=
  @NewSync list_polyglot ex_pool (mkWConn [] [] [] false) s [] race.

Lemma ex_sendable : @sendable list_polyglot default_globals ex_packet.
Proof. split_and!; try done; unfold in_width; simpl; lia. Qed.

Lemma ex_quiet s : @quiet list_polyglot ex_pool (ex_sync s []).
Proof. split_and!; try done. intros x Hx. set_solver. Qed.

Lemma sync_roundtrip_witness :
  ∃ w', @WriteAll default_globals list_polyglot ex_pool [ex_packet; ex_packet] (ex_sync [] []) =
    (Ret [None; None], w') ∧
    ∀ r chunks tail rest,
      @quiet list_polyglot ex_pool r → rx r = feed chunks tail →
      concat chunks = wire (conn w') ++ rest →
      ∃ qs r' chunks', @ReadN default_globals list_polyglot ex_pool 2 r = (Ret (inl <$> qs), r') ∧
        (view <$> qs) = (received <$> [ex_packet; ex_packet]) ∧
        rx r' = feed chunks' tail ∧ concat chunks' = rest.
Proof.
  apply (@sync_roundtrip default_globals list_polyglot ex_pool _ _
           [ex_packet; ex_packet] (ex_sync [] [])).
  - apply ex_quiet.
  - by split_and!.
  - repeat constructor; apply ex_sendable.
Defined.

(** Seven bytes of a header, then the end of the stream. *)
Lemma ReadPacket_refines_witness :
  @reads_as list_polyglot ex_pool (Failed ErrUnexpectedEOF) (Some EOF)
    (ex_sync (feed [[Byte.x00; Byte.x0f]; [Byte.x00; Byte.x00; Byte.x00; Byte.x0a; Byte.x00]] (Some EOF)) [])
    (@ReadPacket default_globals list_polyglot ex_pool
      (ex_sync (feed [[Byte.x00; Byte.x0f]; [Byte.x00; Byte.x00; Byte.x00; Byte.x0a; Byte.x00]] (Some EOF)) [])).
Proof.
  apply (@ReadPacket_refines default_globals list_polyglot ex_pool _ _
    [[Byte.x00; Byte.x0f]; [Byte.x00; Byte.x00; Byte.x00; Byte.x0a; Byte.x00]] (Some EOF)).
  - apply ex_quiet.
  - done.
Defined.

(** A write fails after three bytes and finds the connection open; before it
    closes it, another goroutine has done so with an error of another type. *)
Lemma sync_safety_witness :
  let c := @mkSync list_polyglot ex_pool (mkWConn [] [Some (3, IOError 32)] [] false)
             [([Byte.x00], Some EOF)] false None None [] [Nobody; Fails ErrUnexpectedEOF; TakesRaw] in
  match @run_ops default_globals list_polyglot ex_pool [OpWrite ex_packet; OpRead; OpClose; OpRaw] c with
  | (Ret _, c') | (Block, c') => sync_ok c' ∧ later c c'
  | (Panic _, _) | (OutOfFuel, _) => False
  end.
Proof.
  apply sync_safety.
  split; [done|]. intros x Hx. set_solver.
Defined.

End sync.
