(* ===== verification/Async.v ===== *)
(** * The asynchronous connection and its streams (async.go, stream.go)

    [Async] buffers what it writes, flushes from a goroutine, queues the packets
    its read loop receives and multiplexes streams.  This file models every
    operation of the connection and of its streams as a function on one state:
    the connection, the objects of its streams (a heap indexed by pointer, since
    users hold streams too) and the two pools.  The read loop is in [ReadLoop],
    the interleavings of the goroutines (locks, wait group) in [Lifecycle]; a
    function here is what one goroutine does when nobody interferes.

    [writePacket] may close the connection, closing it closes its streams, and
    closing a stream writes a packet: the recursion is broken by the [closed]
    flag, and here by a depth that is shown to be enough. *)

From S2P Require Import Prelude Frisbee GoStd Interfaces Metadata Packet.

Module async.
Import metadata packet.

(** A buffered channel of [struct{}]: how many values it holds and whether it
    was closed. *)
Record Chan := mkChan { ch_len : Z; ch_closed : bool }.

Definition flush_capacity : Z := 3.

Section async.
Context {G : Globals} {PB : Polyglot} {CQ : CircularQueue} {PP : PacketPool} {BP : BufferPool}.

Record Stream := mkStream {
  id : Z;
  s_closed : bool;
  queue : Queue Packet;
  s_stale : list Packet;
}.

(** [streams] maps identifiers to pointers into [heap]; handlers are known by a
    number, [spawned] logs the goroutines started for new streams. *)
Record Async := mkAsync {
  out : Out;
  closed : bool;
  flushCh : Chan;
  closeCh : bool;
  incoming : Queue Packet;
  stale : list Packet;
  error : option Frisbee.error;
  streams : gmap Z nat;
  heap : list Stream;
  newStreamHandler : option Z;
  spawned : list (Z * nat);
  pool : Pool PP;
  buffers : Pool BP;
}.

Definition set_out v c := mkAsync v (closed c) (flushCh c) (closeCh c) (incoming c) (stale c) (error c) (streams c) (heap c) (newStreamHandler c) (spawned c) (pool c) (buffers c).
Definition set_closed v c := mkAsync (out c) v (flushCh c) (closeCh c) (incoming c) (stale c) (error c) (streams c) (heap c) (newStreamHandler c) (spawned c) (pool c) (buffers c).
Definition set_flushCh v c := mkAsync (out c) (closed c) v (closeCh c) (incoming c) (stale c) (error c) (streams c) (heap c) (newStreamHandler c) (spawned c) (pool c) (buffers c).
Definition set_closeCh v c := mkAsync (out c) (closed c) (flushCh c) v (incoming c) (stale c) (error c) (streams c) (heap c) (newStreamHandler c) (spawned c) (pool c) (buffers c).
Definition set_incoming v c := mkAsync (out c) (closed c) (flushCh c) (closeCh c) v (stale c) (error c) (streams c) (heap c) (newStreamHandler c) (spawned c) (pool c) (buffers c).
Definition set_stale v c := mkAsync (out c) (closed c) (flushCh c) (closeCh c) (incoming c) v (error c) (streams c) (heap c) (newStreamHandler c) (spawned c) (pool c) (buffers c).
Definition set_error v c := mkAsync (out c) (closed c) (flushCh c) (closeCh c) (incoming c) (stale c) v (streams c) (heap c) (newStreamHandler c) (spawned c) (pool c) (buffers c).
Definition set_streams v c := mkAsync (out c) (closed c) (flushCh c) (closeCh c) (incoming c) (stale c) (error c) v (heap c) (newStreamHandler c) (spawned c) (pool c) (buffers c).
Definition set_heap v c := mkAsync (out c) (closed c) (flushCh c) (closeCh c) (incoming c) (stale c) (error c) (streams c) v (newStreamHandler c) (spawned c) (pool c) (buffers c).
Definition set_newStreamHandler v c := mkAsync (out c) (closed c) (flushCh c) (closeCh c) (incoming c) (stale c) (error c) (streams c) (heap c) v (spawned c) (pool c) (buffers c).
Definition set_spawned v c := mkAsync (out c) (closed c) (flushCh c) (closeCh c) (incoming c) (stale c) (error c) (streams c) (heap c) (newStreamHandler c) v (pool c) (buffers c).
Definition set_pool v c := mkAsync (out c) (closed c) (flushCh c) (closeCh c) (incoming c) (stale c) (error c) (streams c) (heap c) (newStreamHandler c) (spawned c) v (buffers c).
Definition set_buffers v c := mkAsync (out c) (closed c) (flushCh c) (closeCh c) (incoming c) (stale c) (error c) (streams c) (heap c) (newStreamHandler c) (spawned c) (pool c) v.

(** [newStream(id, conn)]. *)
Definition newStream (i : Z) : Stream :=
  mkStream i false (NewCircular DefaultStreamBufferSize) [].

(** [NewAsync(c, logger, streamHandler...)], without the three goroutines. *)
Definition NewAsync (c : WConn) (handler : option Z) (pl : Pool PP) (bl : Pool BP) : Async :=
  mkAsync (NewWriterSize c DefaultBufferSize) false (mkChan 0 false) false
    (NewCircular DefaultBufferSize) [] None ∅ [] handler [] pl bl.

(** ** Access to the parts of the state *)

Definition aconn (c : Async) : WConn := conn (out c).

Definition on_out {A} (m : M Out A) : M Async A := zoom out set_out m.

Definition on_conn {A} (m : M WConn A) : M Async A := on_out (zoom conn set_conn m).

Definition SetWriteDeadline : M Async (option Frisbee.error) := on_conn conn_SetDeadline.

Definition on_incoming {A} (m : M (Queue Packet) A) : M Async A := zoom incoming set_incoming m.

Definition packet_Get : M Async Packet := λ c,
  let '(p, pl) := Get (pool c) in (Ret p, set_pool pl c).

Definition packet_Put (p : Packet) : M Async unit := modify (λ c, set_pool (Put p (pool c)) c).

Definition metadata_GetBuffer : M Async (list byte) := λ c,
  let '(b, bl) := GetBuffer (buffers c) in (Ret b, set_buffers bl c).

Definition metadata_PutBuffer (b : list byte) : M Async unit :=
  modify (λ c, set_buffers (PutBuffer b (buffers c)) c).

(** The object behind a stream pointer. *)
Definition deref (sp : nat) : M Async Stream := λ c,
  match heap c !! sp with
  | Some s => (Ret s, c)
  | None => (Panic NilDereference, c)
  end.

Definition store (sp : nat) (s : Stream) : M Async unit :=
  modify (λ c, set_heap (<[sp := s]> (heap c)) c).

(** [close(ch)] and the non-blocking send of [writePacket]. *)
Definition close_flushCh : M Async unit :=
  c ← get;
  if ch_closed (flushCh c) then panicM CloseOfClosedChannel
  else modify (set_flushCh (mkChan (ch_len (flushCh c)) true)).

Definition close_closeCh : M Async unit :=
  c ← get;
  if closeCh c then panicM CloseOfClosedChannel else modify (set_closeCh true).

Definition signal_flush : M Async unit :=
  c ← get;
  if ch_len (flushCh c) =? 0 then
    if ch_closed (flushCh c) then panicM SendOnClosedChannel
    else if ch_len (flushCh c) <? flush_capacity then
      modify (set_flushCh (mkChan (ch_len (flushCh c) + 1) false))
    else mret tt
  else mret tt.

(** ** Writing, with the operation that closes the connection as a parameter *)

Section write.
Context (closeWithError : Frisbee.error → M Async Frisbee.error).

(** The error exits of [writePacket]. *)
Definition write_failed (closeOnErr : bool) (err : Frisbee.error) : M Async (option Frisbee.error) :=
  c ← get;
  if closed c then mret (Some ConnectionClosed)
  else if closeOnErr then e ← closeWithError err; mret (Some e)
  else mret (Some err).

Definition writePacket_body (p : Packet) (closeOnErr : bool) : M Async (option Frisbee.error) :=
  let cl := ContentLength (Metadata p) in
  if negb (cl =? Len (Content p)) then mret (Some InvalidContentLength)
  else if exceeds_max cl then mret (Some ContentLengthExceeded)
  else
    b ← metadata_GetBuffer;
    encodedMetadata ←
      (match put_fields PacketMagicHeader (Id (Metadata p)) (Operation (Metadata p)) cl b with
       | (Ret _, b) => mret b
       | _ => panicM IndexOutOfRange
       end);
    c ← get;
    if closed c then mret (Some ConnectionClosed)
    else
      err ← SetWriteDeadline;
      match err with
      | Some err => write_failed closeOnErr err
      | None =>
          '(_, err) ← on_out (Writer_Write encodedMetadata);
          metadata_PutBuffer encodedMetadata;;
          match err with
          | Some err => write_failed closeOnErr err
          | None =>
              err ← (if cl =? 0 then mret None
                     else
                       content ← or_panic (slice (Bytes (Content p)) 0 cl) IndexOutOfRange;
                       '(_, err) ← on_out (Writer_Write content);
                       mret err);
              match err with
              | Some err => write_failed closeOnErr err
              | None => signal_flush;; mret None
              end
          end
      end.
End write.

(** ** Closing a stream, with [writePacket] as a parameter *)

(** Closing the queue of a stream and keeping what it held. *)
Definition shut (s : Stream) : Stream :=
  let '(pending, q) := Drain (Queue_Close (queue s)) in mkStream (id s) true q pending.

Definition closeSend_body (writePacket : Packet → bool → M Async (option Frisbee.error))
    (sp : nat) (lock : bool) : M Async (option Frisbee.error) :=
  s ← deref sp;
  if s_closed s then mret (Some StreamClosed)
  else
    store sp (shut s);;
    p ← packet_Get;
    let p := set_Metadata (set_Operation STREAM (set_Id (id s) (Metadata p))) p in
    err ← writePacket p true;
    packet_Put p;;
    (if lock then modify (λ c, set_streams (delete (id s) (streams c)) c) else mret tt);;
    mret err.

(** ** Closing the connection, with [closeSend] as a parameter *)

(** From the successful compare-and-swap to the draining of the queue; the wait
    for the goroutines in between is in [Lifecycle]. *)
Definition close_begin : M Async unit :=
  modify (set_closed true);;
  modify (λ c, set_incoming (Queue_Close (incoming c)) c);;
  close_closeCh;;
  close_flushCh;;
  _ ← SetWriteDeadline;
  _ ← SetWriteDeadline;
  modify (λ c, let '(pending, q) := Drain (incoming c) in set_stale pending (set_incoming q c)).

(** [for _, stream := range c.streams { _ = stream.closeSend(false) }]. *)
Fixpoint close_streams (closeSend : nat → bool → M Async (option Frisbee.error))
    (sps : list nat) : M Async unit :=
  match sps with
  | [] => mret tt
  | sp :: sps => _ ← closeSend sp false; close_streams closeSend sps
  end.

Definition close_flush : M Async unit :=
  c ← get;
  if Buffered (out c) >? 0 then
    _ ← SetWriteDeadline;
    _ ← on_out Writer_Flush;
    _ ← SetWriteDeadline;
    mret tt
  else mret tt.

Definition close_body (closeSend : nat → bool → M Async (option Frisbee.error))
    : M Async (option Frisbee.error) :=
  c ← get;
  if closed c then mret (Some ConnectionClosed)
  else
    close_begin;;
    c ← get;
    close_streams closeSend (map_to_list (streams c)).*2;;
    close_flush;;
    mret None.

Definition conn_close : M Async unit := modify (λ c, set_out (set_conn (conn_Close (aconn c)) (out c)) c).

Definition closeWithError_body (close : M Async (option Frisbee.error)) (err : Frisbee.error)
    : M Async Frisbee.error :=
  modify (set_error (Some err));;
  closeError ← close;
  match closeError with
  | Some ce => modify (set_error (Some (Join ce err)));; mret (Join ce err)
  | None => conn_close;; mret err
  end.

(** ** Tying the knot *)

Fixpoint writePacketN (depth : nat) (p : Packet) (closeOnErr : bool) : M Async (option Frisbee.error) :=
  match depth with
  | O => out_of_fuel
  | S depth =>
      writePacket_body
        (closeWithError_body (close_body (closeSend_body (writePacketN depth)))) p closeOnErr
  end.

(** A write on the open connection may close it, and the writes of the closing
    streams then find it closed. *)
Definition writePacket : Packet → bool → M Async (option Frisbee.error) := writePacketN 2.
Definition closeSend : nat → bool → M Async (option Frisbee.error) := closeSend_body writePacket.
Definition close : M Async (option Frisbee.error) := close_body closeSend.
Definition closeWithError : Frisbee.error → M Async Frisbee.error := closeWithError_body close.

(** ** The exported operations of the connection *)

Definition WritePacket (p : Packet) : M Async (option Frisbee.error) :=
  if Operation (Metadata p) <=? RESERVED9 then mret (Some InvalidOperation)
  else writePacket p true.

(** [p, c.stale = c.stale[0], c.stale[1:]], or [ConnectionClosed]. *)
Definition take_stale : M Async (Packet + Frisbee.error) :=
  c ← get;
  match stale c with
  | p :: r => modify (set_stale r);; mret (inl p)
  | [] => mret (inr ConnectionClosed)
  end.

Definition ReadPacket : M Async (Packet + Frisbee.error) :=
  c ← get;
  if closed c then take_stale
  else
    r ← on_incoming Pop;
    match r with
    | inl p => mret (inl p)
    | inr err => c ← get; if closed c then take_stale else mret (inr err)
    end.

Definition flush : M Async (option Frisbee.error) :=
  c ← get;
  if closed c then mret (Some ConnectionClosed)
  else if Buffered (out c) >? 0 then
    err ← SetWriteDeadline;
    match err with
    | Some err => mret (Some err)
    | None =>
        err ← on_out Writer_Flush;
        match err with
        | Some err => mret (Some err)
        | None => mret None
        end
    end
  else mret None.

Definition Flush : M Async (option Frisbee.error) :=
  err ← flush;
  match err with
  | Some err => e ← closeWithError err; mret (Some e)
  | None => mret None
  end.

Definition WriteBufferSize (c : Async) : Z := if closed c then 0 else Buffered (out c).

Definition Error (c : Async) : option Frisbee.error := error c.

Definition Closed (c : Async) : bool := closed c.

Definition SetDeadline : M Async (option Frisbee.error) :=
  c ← get;
  if closed c then mret (Some ConnectionClosed) else SetWriteDeadline.

Definition Close : M Async (option Frisbee.error) :=
  err ← close;
  match err with
  | Some e => if errors_Is e ConnectionClosed then mret None else conn_close;; mret (Some e)
  | None => conn_close;; mret None
  end.

Definition Raw : M Async WConn := _ ← close; c ← get; mret (aconn c).

(** Allocates a stream object and registers it. *)
Definition register_stream (i : Z) : M Async nat :=
  c ← get;
  let sp := length (heap c) in
  modify (λ c, set_streams (<[i := sp]> (streams c)) (set_heap (heap c ++ [newStream i]) c));;
  mret sp.

Definition NewStream (i : Z) : M Async nat :=
  c ← get;
  match streams c !! i with
  | Some sp => mret sp
  | None => register_stream i
  end.

Definition SetNewStreamHandler (h : option Z) : M Async unit := modify (set_newStreamHandler h).

(** ** The exported operations of a stream *)

Definition stream_take_stale (sp : nat) : M Async (Packet + Frisbee.error) :=
  s ← deref sp;
  match s_stale s with
  | p :: r => store sp (mkStream (id s) (s_closed s) (queue s) r);; mret (inl p)
  | [] => mret (inr StreamClosed)
  end.

Definition on_queue {A} (sp : nat) (m : M (Queue Packet) A) : M Async A :=
  s ← deref sp;
  zoom (λ _, queue s) (λ q c, set_heap (<[sp := mkStream (id s) (s_closed s) q (s_stale s)]> (heap c)) c) m.

Definition Stream_ReadPacket (sp : nat) : M Async (Packet + Frisbee.error) :=
  s ← deref sp;
  if s_closed s then stream_take_stale sp
  else
    r ← on_queue sp Pop;
    match r with
    | inl p => mret (inl p)
    | inr err => s ← deref sp; if s_closed s then stream_take_stale sp else mret (inr err)
    end.

(** [ID()]. *)
Definition Stream_ID (sp : nat) : M Async Z := s ← deref sp; mret (id s).

(** A packet stamped with the identifier of a stream. *)
Definition stamped (i : Z) (p : Packet) : Packet :=
  set_Metadata (set_Operation STREAM (set_Id i (Metadata p))) p.

(** [WritePacket] stamps the caller's packet, which is returned as it leaves it. *)
Definition Stream_WritePacket (sp : nat) (p : Packet) : M Async (option Frisbee.error * Packet) :=
  s ← deref sp;
  if s_closed s then mret (Some StreamClosed, p)
  else if ContentLength (Metadata p) =? 0 then mret (Some InvalidStreamPacket, p)
  else
    let p := stamped (id s) p in
    err ← writePacket p true;
    mret (err, p).

Definition Stream_Close (sp : nat) : M Async (option Frisbee.error) := closeSend sp true.

(** [stream.close()]: the peer has closed the stream, nothing is sent. *)
Definition Stream_close (sp : nat) : M Async unit :=
  s ← deref sp;
  if s_closed s then mret tt else store sp (shut s).

(** ** One turn of the two background loops *)

Inductive turn := Continue | Exit.

(** [flushLoop]: receive from [flushCh], flush, close on failure. *)
Definition flushLoop_turn : M Async turn :=
  c ← get;
  if ch_len (flushCh c) >? 0 then
    modify (set_flushCh (mkChan (ch_len (flushCh c) - 1) (ch_closed (flushCh c))));;
    err ← flush;
    match err with
    | Some err => _ ← closeWithError err; mret Exit
    | None => mret Continue
    end
  else if ch_closed (flushCh c) then mret Exit
  else blockM.

Definition PINGPacket : Packet := mkPacket (mkMetadata 0 0 PING 0) polyglot_NewBuffer.
Definition PONGPacket : Packet := mkPacket (mkMetadata 0 0 PONG 0) polyglot_NewBuffer.

(** [pingLoop]: [tick] says that the ticker fires; when the close channel is
    ready too the choice of the select is [prefer_close]. *)
Definition pingLoop_turn (tick prefer_close : bool) : M Async turn :=
  c ← get;
  if closeCh c && (prefer_close || negb tick) then mret Exit
  else if tick then
    err ← writePacket PINGPacket false;
    match err with
    | Some err => _ ← closeWithError err; mret Exit
    | None => mret Continue
    end
  else blockM.

(** ** The invariant *)

Context `{!PolyglotLaws PB} `{!CircularLaws CQ} `{!PoolLaws PP} `{!PoolLaws BP}.

(** The packets received and not yet read, on the connection and on a stream. *)
Definition arrived (c : Async) : list Packet := stale c ++ items (incoming c).
Definition unread_on (s : Stream) : list Packet := s_stale s ++ items (queue s).

(** What the queues can hold. *)
Definition queue_limit : Z := capacity (NewCircular DefaultBufferSize : Queue Packet).
Definition stream_limit : Z := capacity (NewCircular DefaultStreamBufferSize : Queue Packet).

Definition stream_bounded (s : Stream) : Prop :=
  len (unread_on s) ≤ stream_limit ∧ (s_closed s = false → capacity (queue s) = stream_limit).

(** A stream is open, with an open queue and nothing kept aside, or closed, with
    an empty closed queue. *)
Definition stream_ok (s : Stream) : Prop :=
  if s_closed s then queue_closed (queue s) = true ∧ items (queue s) = []
  else queue_closed (queue s) = false ∧ s_stale s = [].

Record async_ok (c : Async) : Prop := {
  ok_writer : writer_ok (out c);
  ok_size : wsize (writer (out c)) = DefaultBufferSize;
  ok_flushCh : 0 ≤ ch_len (flushCh c) ≤ 1;
  ok_open : closed c = false →
    ch_closed (flushCh c) = false ∧ closeCh c = false ∧
    queue_closed (incoming c) = false ∧ conn_closed (aconn c) = false ∧ stale c = [];
  ok_closed : closed c = true →
    ch_closed (flushCh c) = true ∧ closeCh c = true ∧
    queue_closed (incoming c) = true ∧ items (incoming c) = [];
  ok_streams i sp : streams c !! i = Some sp → ∃ s, heap c !! sp = Some s ∧ id s = i;
  ok_heap sp s : heap c !! sp = Some s → stream_ok s;
  ok_arrived : len (arrived c) ≤ queue_limit;
  ok_capacity : closed c = false → capacity (incoming c) = queue_limit;
  ok_unread sp s : heap c !! sp = Some s → stream_bounded s;
  ok_pool : packets_blank (pool c);
  ok_buffers : buffers_ok (buffers c);
}.

(** ** Received packets *)

(** A packet as the wire format allows it: fields within their widths, the magic
    header, a content of the length it announces and within the limit. *)
Definition well_formed (p : Packet) : Prop :=
  wf_metadata (Metadata p) ∧ Magic (Metadata p) = PacketMagicHeader ∧
  ContentLength (Metadata p) = len (Bytes (Content p)) ∧ exceeds_max (ContentLength (Metadata p)) = false.

(** What the queue of a connection holds, and the queue of stream [i]. *)
Definition ordinary (p : Packet) : Prop :=
  well_formed p ∧ Operation (Metadata p) ≠ PING ∧ Operation (Metadata p) ≠ PONG ∧ Operation (Metadata p) ≠ STREAM.

Definition of_stream (i : Z) (p : Packet) : Prop :=
  well_formed p ∧ Operation (Metadata p) = STREAM ∧ Id (Metadata p) = i ∧ 0 < ContentLength (Metadata p).

(** [l'] has nothing that [l] has not, but for packets that satisfy [φ]. *)
Definition gains (φ : Packet → Prop) (l l' : list Packet) : Prop := ∀ p, p ∈ l' → p ∈ l ∨ φ p.

#[global] Instance gains_preorder φ : PreOrder (gains φ).
Proof.
  split; [intros l p; by left|]. intros l1 l2 l3 H12 H23 p [Hp|Hp]%H23; [by apply H12|by right].
Qed.

Lemma gains_nil φ l : gains φ l [].
Proof. intros p Hp. by apply not_elem_of_nil in Hp. Qed.

Lemma gains_app φ l x : φ x → gains φ l (l ++ [x]).
Proof. intros Hx p [Hp| ->%list_elem_of_singleton]%elem_of_app; [by left|by right]. Qed.

Lemma gains_app_l φ l l1 l2 : gains φ l1 l2 → gains φ (l ++ l1) (l ++ l2).
Proof. intros H p. rewrite !elem_of_app. intros [?|[?|?]%H]; auto. Qed.

Lemma gains_tail φ x l : gains φ (x :: l) l.
Proof. intros p Hp. left. apply elem_of_cons. by right. Qed.

(** Nothing is undone: a closed connection or stream stays closed, stream
    objects keep their identity, bytes on the wire stay, and the queues only gain
    the packets that belong there. *)
Definition heap_le (h h' : list Stream) : Prop :=
  (∀ sp s, h !! sp = Some s →
    ∃ s', h' !! sp = Some s' ∧ id s' = id s ∧ (s_closed s = true → s_closed s' = true)) ∧
  (∀ sp s', h' !! sp = Some s' →
    gains (of_stream (id s')) (match h !! sp with Some s => unread_on s | None => [] end) (unread_on s')).

Definition later (c c' : Async) : Prop :=
  (closed c = true → closed c' = true) ∧ wire (aconn c) `prefix_of` wire (aconn c') ∧
  heap_le (heap c) (heap c') ∧ gains ordinary (arrived c) (arrived c').

#[global] Instance heap_le_preorder : PreOrder heap_le.
Proof.
  split; [intros h; split; [intros sp s ?; by exists s|by intros sp s ->]|].
  intros h1 h2 h3 [H12 G12] [H23 G23]. split.
  - intros sp s (s2&(s3&?&?&?)%H23&?&?)%H12. exists s3. split_and!; [done|congruence|auto].
  - intros sp s3 Hs3. specialize (G23 sp s3 Hs3). destruct (h2 !! sp) as [s2|] eqn:E2.
    + specialize (G12 sp s2 E2). destruct (H23 sp s2 E2) as (s3'&E3&Hid&_).
      rewrite E3 in Hs3. injection Hs3 as ->. rewrite Hid in *. by etrans.
    + etrans; [|exact G23]. apply gains_nil.
Qed.

#[global] Instance later_preorder : PreOrder later.
Proof.
  split; [by intros c; split_and!|].
  intros c1 c2 c3 (?&?&?&?) (?&?&?&?). split_and!; [auto|by etrans|by etrans|by etrans].
Qed.

Lemma heap_le_insert h sp s s' :
  h !! sp = Some s → id s' = id s → (s_closed s = true → s_closed s' = true) →
  gains (of_stream (id s)) (unread_on s) (unread_on s') → heap_le h (<[sp := s']> h).
Proof.
  intros Hs Hid Hc Hg. split.
  - intros sp1 s1 H1. destruct (decide (sp1 = sp)) as [->|Hne].
    + rewrite Hs in H1. injection H1 as <-. exists s'.
      rewrite list_lookup_insert_eq by (by eapply lookup_lt_Some). done.
    + exists s1. by rewrite list_lookup_insert_ne.
  - intros sp1 s1 [(->&<-&_)|[Hne H1]]%list_lookup_insert_Some.
    + rewrite Hs, Hid. done.
    + by rewrite H1.
Qed.

Lemma heap_le_app h s : unread_on s = [] → heap_le h (h ++ [s]).
Proof.
  intros Hs. split; [intros sp s1 H; exists s1; by rewrite (lookup_app_l_Some _ _ _ _ H)|].
  intros sp s1 [H1|[Hlt [_ <-]%list_lookup_singleton_Some]]%lookup_app_Some; [by rewrite H1|].
  rewrite Hs. apply gains_nil.
Qed.

(** Operations restricted to states where some lasting fact [D] holds. *)
Definition within (D : Async → Prop) (c : Async) : Prop := async_ok c ∧ D c.

(** Moving without closing the connection or touching what has arrived. *)
Definition still (c c' : Async) : Prop :=
  later c c' ∧ closed c' = closed c ∧ arrived c' = arrived c.

#[global] Instance still_preorder : PreOrder still.
Proof.
  split; [by intros c|]. intros c1 c2 c3 (?&?&?) (?&?&?). split_and!; [by etrans|congruence..].
Qed.

Abbreviation keeps := (preserves async_ok later).
Abbreviation calm := (preserves async_ok still).
Abbreviation keeps_in D := (preserves (within D) later).

Definition lasting (D : Async → Prop) : Prop := ∀ c c', later c c' → D c → D c'.

Lemma lift_in {A} D (m : M Async A) : lasting D → keeps m → keeps_in D m.
Proof.
  intros HD Hm c [Hc Hd]. eapply wp_mono; [by apply Hm|..]; simpl.
  all: intros; destruct_and?; unfold moved, within in *; destruct_and!; split_and!; eauto.
Qed.

Lemma calm_keeps {A} (m : M Async A) : calm m → keeps m.
Proof.
  intros Hm c Hc. eapply wp_mono; [by apply Hm|..]; simpl.
  all: intros; destruct_and?; unfold moved, still in *; by destruct_and!.
Qed.

(** Sequencing from a start state [c0], on the open connection. *)
Lemma wp_calm_bind {A B} (m : M Async A) (k : A → M Async B) c0 c :
  calm m → async_ok c → closed c = false → later c0 c →
  (∀ a c', async_ok c' → closed c' = false → later c0 c' →
     wp (k a) (λ _, moved async_ok later c0) (moved async_ok later c0) c') →
  wp (m ≫= k) (λ _, moved async_ok later c0) (moved async_ok later c0) c.
Proof.
  intros Hm Hc Ho Hl Hk. apply wp_bind. eapply wp_mono; [by apply Hm|..]; simpl.
  - intros a c' (?&?&?&?). apply Hk; [done|congruence|by etrans].
  - intros c' (?&?&?&?). split; [done|by etrans].
Qed.

Lemma wp_keeps_from {A} (m : M Async A) c0 c :
  keeps m → async_ok c → later c0 c →
  wp m (λ _, moved async_ok later c0) (moved async_ok later c0) c.
Proof.
  intros Hm Hc Hl. eapply wp_mono; [by apply Hm|..]; simpl.
  all: intros; destruct_and?; unfold moved in *; destruct_and!; split; [done|by etrans].
Qed.

Lemma restrict_in {A} D D' (m : M Async A) :
  (∀ c, D' c → D c) → lasting D' → keeps_in D m → keeps_in D' m.
Proof.
  intros HDD HD Hm c [Hc Hd]. eapply wp_mono; [apply Hm; split; auto|..]; simpl.
  all: unfold moved, within; intros; destruct_and!; split; [split|]; eauto.
Qed.

(** The invariant does not depend on the fields an update leaves alone. *)
Lemma async_ok_out o c :
  async_ok c → writer_ok o → wsize (writer o) = wsize (writer (out c)) →
  conn_closed (conn o) = conn_closed (aconn c) → async_ok (set_out o c).
Proof. intros [] ? Hz E. split; try done; [by rewrite <- ok_size0|]. simpl. unfold aconn in *. simpl. by rewrite E. Qed.

Lemma calm_on_out {A} (m : M Out A) :
  (∀ o, writer_ok o → ∃ r o', m o = (Ret r, o') ∧ writer_ok o' ∧ out_le o o') → calm (on_out m).
Proof.
  intros Hm c Hc. apply wp_zoom. unfold wp.
  destruct (Hm (out c)) as (r&o'&->&?&(?&?&?&?)); [apply Hc|].
  split; [by apply async_ok_out|by split_and!].
Qed.

Lemma Writer_Write_calm p : calm (on_out (Writer_Write p)).
Proof. apply calm_on_out. intros. by apply Writer_Write_returns. Qed.

Lemma Writer_Flush_calm : calm (on_out Writer_Flush).
Proof. apply calm_on_out. intros. by apply Writer_Flush_returns. Qed.

Lemma SetWriteDeadline_calm : calm SetWriteDeadline.
Proof.
  intros c Hc. apply wp_zoom, wp_zoom. unfold wp, conn_SetDeadline. fold (aconn c).
  destruct (conn_closed (aconn c)) eqn:E; simpl.
  - split; [|by split_and!]. apply async_ok_out; [done|apply Hc|done|done].
  - destruct (next_deadline _); simpl. split; [|by split_and!].
    apply async_ok_out; [done| |done|by rewrite E]. apply Hc.
Qed.

Lemma packet_Get_calm : calm packet_Get.
Proof.
  intros c []. destruct (Get_blank (pool c)) as [? ?]; [done|]. unfold wp, packet_Get.
  destruct (Get (pool c)). simpl in *. by split; [split|split_and!].
Qed.

Lemma packet_Put_calm p : calm (packet_Put p).
Proof.
  apply preserves_modify. intros c []. split; [|by split_and!]. split; try done. by apply Put_blank.
Qed.

Lemma metadata_GetBuffer_calm : calm metadata_GetBuffer.
Proof.
  intros c []. unfold wp, metadata_GetBuffer, GetBuffer.
  destruct (pool_Get_ok (λ b, len b = Size) (buffers c)) as [? ?]; [done..|].
  destruct (pool_Get BP (buffers c)). simpl in *. by split; [split|split_and!].
Qed.

Lemma metadata_GetBuffer_len c b c' :
  async_ok c → metadata_GetBuffer c = (Ret b, c') → len b = Size.
Proof.
  intros Hc. unfold metadata_GetBuffer, GetBuffer.
  destruct (pool_Get_ok (λ b, len b = Size) (buffers c)) as [? ?]; [done|apply Hc|].
  destruct (pool_Get BP (buffers c)). by intros [= -> _].
Qed.

Lemma metadata_PutBuffer_calm b : len b = Size → calm (metadata_PutBuffer b).
Proof.
  intros Hb. apply preserves_modify. intros c []. split; [|by split_and!]. split; try done.
  by apply pool_Put_ok.
Qed.

Hint Resolve Writer_Write_calm Writer_Flush_calm SetWriteDeadline_calm packet_Get_calm
  packet_Put_calm metadata_GetBuffer_calm metadata_PutBuffer_calm : preserve.

Lemma signal_flush_still c :
  async_ok c → closed c = false →
  wp signal_flush (λ _, moved async_ok still c) (moved async_ok still c) c.
Proof.
  intros Hc Ho. unfold signal_flush. apply wp_bind, wp_get.
  destruct (ok_open c Hc Ho) as (Hf&?&?&?&?). pose proof (ok_flushCh c Hc) as Hn.
  rewrite Hf. wp_steps; try by split.
  split; [|done]. destruct Hc. split; try done; simpl; [lia|].
  intros ?; congruence.
Qed.

Lemma signal_flush_wp c0 c :
  async_ok c → closed c = false → later c0 c →
  wp signal_flush (λ _, moved async_ok later c0) (moved async_ok later c0) c.
Proof.
  intros Hc Ho Hl. eapply wp_mono; [by apply signal_flush_still|..]; simpl.
  - intros _ c' [? [? _]]. split; [done|by etrans].
  - intros c' [? [? _]]. split; [done|by etrans].
Qed.

(** *** [writePacket], given that the closing operation behaves *)

Lemma write_failed_keeps cwe closeOnErr err :
  (∀ e, keeps (cwe e)) → keeps (write_failed cwe closeOnErr err).
Proof. intros. unfold write_failed. preserve. Qed.

Lemma content_write_calm p :
  ContentLength (Metadata p) = Len (Content p) →
  calm (if ContentLength (Metadata p) =? 0 then mret None
        else
          content ← or_panic (slice (Bytes (Content p)) 0 (ContentLength (Metadata p))) IndexOutOfRange;
          '(_, err) ← on_out (Writer_Write content);
          mret err).
Proof.
  intros ->. rewrite Len_Bytes. pose proof (len_nonneg (Bytes (Content p))).
  rewrite slice_Some by lia. preserve.
Qed.

Lemma writePacket_body_keeps cwe p closeOnErr :
  (∀ e, keeps (cwe e)) → keeps (writePacket_body cwe p closeOnErr).
Proof.
  intros Hcwe. pose proof (λ e, write_failed_keeps cwe closeOnErr e Hcwe) as Hwf.
  unfold writePacket_body. destruct (negb _) eqn:Hlen; [preserve|].
  destruct (exceeds_max _); [preserve|].
  apply (preserves_bind_post _ _ (λ b, len b = Size)); [|by eauto using metadata_GetBuffer_len|].
  { apply calm_keeps, metadata_GetBuffer_calm. }
  intros b Hb. rewrite put_fields_spec by done. apply preserves_ret_bind.
  apply preserves_get_bind. intros c Hc. destruct (closed c) eqn:Ho; [by apply wp_ret|].
  apply wp_calm_bind; [preserve|done..|]. intros [e|] c1 Hc1 Ho1 Hl1; [by apply wp_keeps_from|].
  apply wp_calm_bind; [preserve|done..|]. intros [n err] c2 Hc2 Ho2 Hl2.
  apply wp_calm_bind; [preserve|done..|]. intros _ c3 Hc3 Ho3 Hl3.
  destruct err as [e|]; [by apply wp_keeps_from|].
  apply wp_calm_bind; [apply content_write_calm; lia|done..|]. intros [e|] c4 Hc4 Ho4 Hl4;
    [by apply wp_keeps_from|].
  apply wp_bind. eapply wp_mono; [by apply (signal_flush_wp c)|done..].
Qed.

(** On a closed connection nothing is written, and nothing is closed again. *)
Lemma writePacket_body_closed cwe p closeOnErr :
  keeps_in (λ c, closed c = true) (writePacket_body cwe p closeOnErr).
Proof.
  assert (lasting (λ c, closed c = true)) as HD by (intros c c' [? _]; auto).
  unfold writePacket_body. destruct (negb _) eqn:Hlen; [preserve|].
  destruct (exceeds_max _); [preserve|].
  apply (preserves_bind_post _ _ (λ b, len b = Size)).
  - apply lift_in; [done|apply calm_keeps, metadata_GetBuffer_calm].
  - intros c b c' [Hc _]. by apply metadata_GetBuffer_len.
  - intros b Hb. rewrite put_fields_spec by done. apply preserves_ret_bind.
    apply preserves_get_bind. intros c Hc. rewrite (proj2 Hc). by apply wp_ret.
Qed.

(** *** Streams *)

Definition valid (sp : nat) (c : Async) : Prop := is_Some (heap c !! sp).

Lemma valid_lasting sp : lasting (valid sp).
Proof. intros c c' (_&_&[Hh _]&_) [s Hs]. destruct (Hh _ _ Hs) as (s'&?&_). by exists s'. Qed.

Lemma lasting_and D1 D2 : lasting D1 → lasting D2 → lasting (λ c, D1 c ∧ D2 c).
Proof. intros H1 H2 c c' Hl [? ?]. split; [by eapply H1|by eapply H2]. Qed.

Lemma shut_ok s : stream_ok (shut s).
Proof.
  unfold shut, stream_ok. destruct (Drain (Queue_Close (queue s))) as [pend q] eqn:E. simpl.
  change q with (pend, q).2. rewrite <- E, Drain_closed, Drain_empty. by rewrite Close_closed.
Qed.

Lemma shut_stale s : s_stale (shut s) = items (queue s).
Proof.
  unfold shut. destruct (Drain (Queue_Close (queue s))) as [pend q] eqn:E. simpl.
  change pend with (pend, q).1. by rewrite <- E, Drain_items, Close_items.
Qed.

Lemma shut_fields s : id (shut s) = id s ∧ s_closed (shut s) = true.
Proof. unfold shut. by destruct (Drain _). Qed.

(** Nothing is lost, nor gained, by closing a stream. *)
Lemma shut_gains φ s : gains φ (unread_on s) (unread_on (shut s)).
Proof.
  unfold unread_on. rewrite shut_stale. pose proof (shut_ok s) as H. unfold stream_ok in H.
  rewrite (proj2 (shut_fields s)) in H. destruct H as [_ ->]. rewrite app_nil_r.
  intros p Hp. left. apply elem_of_app. by right.
Qed.

Lemma shut_bounded s : stream_bounded s → stream_bounded (shut s).
Proof.
  intros [Hs _]. destruct (shut_fields s) as [_ Hcl]. split; [|by rewrite Hcl].
  pose proof (shut_ok s) as H. unfold stream_ok in H. rewrite Hcl in H. destruct H as [_ H].
  unfold unread_on in *. rewrite shut_stale, H, app_nil_r. rewrite len_app in Hs.
  pose proof (len_nonneg (s_stale s)). lia.
Qed.

(** Replacing a stream object by one with the same identity. *)
Lemma store_moved sp s s' c :
  async_ok c → heap c !! sp = Some s → id s' = id s → (s_closed s = true → s_closed s' = true) →
  gains (of_stream (id s)) (unread_on s) (unread_on s') →
  stream_ok s' → stream_bounded s' → moved async_ok still c (set_heap (<[sp := s']> (heap c)) c).
Proof.
  intros [] Hs Hid Hcl Hg Hok Hbd. pose proof (heap_le_insert _ _ _ _ Hs Hid Hcl Hg) as Hle.
  split; [|split; [|done]].
  - split; try done; simpl.
    + intros i sp1 Hi. destruct (ok_streams0 _ _ Hi) as (s1&H1&<-).
      destruct (proj1 Hle _ _ H1) as (s2&?&?&_). by exists s2.
    + intros sp1 s1. rewrite list_lookup_insert_Some.
      intros [(_&<-&_)|[_ ?]]; [done|by eapply ok_heap0].
    + intros sp1 s1. rewrite list_lookup_insert_Some.
      intros [(_&<-&_)|[_ ?]]; [done|by eapply ok_unread0].
  - by split_and!.
Qed.

Lemma deref_wp sp s (Q : Stream → Async → Prop) Bl c :
  heap c !! sp = Some s → Q s c → wp (deref sp) Q Bl c.
Proof. intros Hs HQ. unfold wp, deref. by rewrite Hs. Qed.

Lemma delete_stream_keeps i : keeps (modify (λ c, set_streams (delete i (streams c)) c)).
Proof.
  apply preserves_modify. intros c []. split; [|by split_and!]. split; try done.
  intros j sp. simpl. intros [_ ?]%lookup_delete_Some. by apply ok_streams0.
Qed.

Lemma wp_in_from {A} D (m : M Async A) c0 c :
  keeps_in D m → within D c → later c0 c →
  wp m (λ _, moved (within D) later c0) (moved (within D) later c0) c.
Proof.
  intros Hm Hc Hl. eapply wp_mono; [by apply Hm|..]; simpl.
  all: intros; destruct_and?; unfold moved in *; destruct_and!; split; [done|by etrans].
Qed.

Lemma closeSend_body_keeps D write sp lock :
  lasting D → (∀ c, D c → valid sp c) → (∀ p b, keeps_in D (write p b)) →
  keeps_in D (closeSend_body write sp lock).
Proof.
  intros HD Hv Hw c [Hc Hd]. destruct (Hv c Hd) as [s Hs]. unfold closeSend_body.
  apply wp_bind, (deref_wp sp s); [done|]. destruct (s_closed s) eqn:Hsc; [by apply wp_ret|].
  apply wp_bind, wp_modify. destruct (shut_fields s) as [Hid Hcl].
  destruct (store_moved sp s (shut s) c) as [Hc1 [Hl1 _]]; [done..|apply shut_gains|apply shut_ok|by eapply shut_bounded, ok_unread|].
  apply wp_in_from; [|by split; [|eapply HD]|done].
  apply preserves_bind; [apply _|apply lift_in, calm_keeps, packet_Get_calm; done|intros p].
  apply preserves_bind; [apply _|apply Hw|intros err].
  apply preserves_bind; [apply _|apply lift_in, calm_keeps, packet_Put_calm; done|intros _].
  apply preserves_bind; [apply _| |intros _; preserve].
  destruct lock; [|preserve]. by apply lift_in, delete_stream_keeps.
Qed.

Lemma close_streams_keeps write sps :
  (∀ p b, keeps_in (λ c, closed c = true) (write p b)) →
  keeps_in (λ c, closed c = true ∧ Forall (λ sp, valid sp c) sps)
    (close_streams (closeSend_body write) sps).
Proof.
  intros Hw.
  assert (lasting (λ c, closed c = true)) as HDc by (intros c c' [? _]; auto).
  induction sps as [|sp sps IH]; [simpl; preserve|].
  assert (lasting (λ c, closed c = true ∧ Forall (λ sp, valid sp c) (sp :: sps))) as HD.
  { apply lasting_and; [done|]. intros c c' Hl Hf. eapply Forall_impl; [|exact Hf].
    intros sp1. by apply valid_lasting. }
  cbn [close_streams]. apply preserves_bind; [apply _| |intros _].
  - apply closeSend_body_keeps; [done|by intros c [_ [? _]%Forall_cons_1]|].
    intros p b. eapply restrict_in; [|done|apply Hw]. by intros c [? _].
  - eapply restrict_in; [|done|apply IH]. by intros c [? [_ ?]%Forall_cons_1].
Qed.

(** *** Closing *)

(** The state after [close_begin], for some results of the deadline calls. *)
Definition begun (ds : deadlines) (c : Async) : Async :=
  let q := Queue_Close (incoming c) in
  mkAsync (mkOut (mkWConn (wire (aconn c)) (faults (aconn c)) ds (conn_closed (aconn c))) (writer (out c)))
    true (mkChan (ch_len (flushCh c)) true) true (Drain q).2 (items (incoming c)) (error c)
    (streams c) (heap c) (newStreamHandler c) (spawned c) (pool c) (buffers c).

Lemma close_begin_eq c :
  async_ok c → closed c = false →
  ∃ ds, close_begin c = (Ret tt, begun ds c) ∧ (wdeadlines (aconn c) = [] → ds = []).
Proof.
  intros Hc Ho. destruct (ok_open c Hc Ho) as (Hf&Hcc&_&Hcl&_). unfold close_begin.
  erewrite bind_Ret by reflexivity. erewrite bind_Ret by reflexivity.
  erewrite bind_Ret; [|unfold close_closeCh; erewrite bind_Ret by reflexivity; simpl; by rewrite Hcc].
  erewrite bind_Ret; [|unfold close_flushCh; erewrite bind_Ret by reflexivity; simpl; by rewrite Hf].
  unfold SetWriteDeadline, on_conn, on_out, aconn.
  destruct (conn_SetDeadline_cases (conn (out c))) as (r1&ds1&E1&H1).
  erewrite bind_Ret; [|unfold zoom; simpl; rewrite E1; reflexivity].
  set (k := mkWConn _ _ ds1 _) in *.
  destruct (conn_SetDeadline_cases k) as (r2&ds2&E2&H2).
  erewrite bind_Ret; [|unfold zoom; simpl; rewrite E2; reflexivity].
  exists ds2. split.
  - unfold modify, begun, aconn. simpl.
    rewrite <- (Close_items (incoming c)), <- Drain_items.
    by destruct (Drain (Queue_Close (incoming c))).
  - intros Hd. destruct (H1 Hd Hcl) as [_ ->]. by apply H2.
Qed.

Lemma begun_ok ds c : async_ok c → closed c = false → moved async_ok later c (begun ds c).
Proof.
  intros Hc Ho. destruct (ok_open c Hc Ho) as (?&?&?&?&Hs). destruct Hc. split.
  - split; try done; simpl.
    + intros _. by rewrite Drain_closed, Close_closed, Drain_empty.
    + unfold arrived in *. simpl. by rewrite Drain_empty, app_nil_r; rewrite Hs in ok_arrived0.
  - split_and!; try done. unfold arrived. simpl. by rewrite Drain_empty, app_nil_r, Hs.
Qed.

Lemma close_flush_calm : calm close_flush.
Proof. unfold close_flush. preserve. Qed.

Lemma close_body_wp write c :
  (∀ p b, keeps_in (λ c, closed c = true) (write p b)) → async_ok c →
  wp (close_body (closeSend_body write))
    (λ r c', moved async_ok later c c' ∧ closed c' = true ∧
             r = if closed c then Some ConnectionClosed else None)
    (moved async_ok later c) c.
Proof.
  intros Hw Hc. unfold close_body. apply wp_bind, wp_get.
  destruct (closed c) eqn:Ho; [by apply wp_ret|].
  destruct (close_begin_eq c Hc Ho) as (ds&E&_). destruct (begun_ok ds c Hc Ho) as [Hc1 Hl1].
  apply wp_bind. unfold wp at 1. rewrite E. apply wp_bind, wp_get, wp_bind.
  eapply wp_mono; [apply (wp_in_from _ _ c _ (close_streams_keeps _ _ Hw)); [split; [done|split; [done|]]|done]|..];
    simpl; unfold moved, within.
  - apply Forall_fmap, Forall_forall. intros [i sp] Hi%list_elem_of_In%elem_of_map_to_list.
    destruct (ok_streams c Hc _ _ Hi) as (s&?&_). by exists s.
  - intros _ c2 [[Hc2 [Hcl2 _]] Hl2]. apply wp_bind.
    eapply wp_mono; [by apply close_flush_calm|..]; simpl; unfold moved, still.
    + intros _ c3 (?&?&?&?). apply wp_ret. split_and!; [done|by etrans|congruence|done].
    + intros c3 [? [? ?]]. split; [done|by etrans].
  - intros c2 [[? _] ?]. done.
Qed.

Lemma set_error_keeps e : keeps (modify (set_error e)).
Proof. apply preserves_modify. intros c []. by split; [split|split_and!]. Qed.

(** Only a connection that was just closed has its socket closed. *)
Lemma conn_close_keeps : keeps_in (λ c, closed c = true) conn_close.
Proof.
  apply preserves_modify. intros c [[] Hcl]. split; [split; [|done]|by split_and!].
  split; try done. simpl. by rewrite Hcl.
Qed.

Lemma closeWithError_body_keeps write err :
  (∀ p b, keeps_in (λ c, closed c = true) (write p b)) →
  keeps (closeWithError_body (close_body (closeSend_body write)) err).
Proof.
  intros Hw c Hc. unfold closeWithError_body. apply wp_bind.
  eapply wp_mono; [by apply set_error_keeps|simpl|done]. intros _ c1 [Hc1 Hl1].
  apply wp_bind. eapply wp_mono; [by apply close_body_wp|simpl|].
  - intros r c2 [[Hc2 Hl2] [Hcl Hr]]. assert (later c c2) by (by etrans).
    destruct r as [ce|].
    + apply wp_keeps_from; [|done..]. pose proof set_error_keeps. preserve.
    + apply wp_bind. eapply wp_mono; [by apply conn_close_keeps|simpl; unfold moved, within..].
      * intros _ c3 [[? _] ?]. apply wp_ret. split; [done|by etrans].
      * intros c3 [[? _] ?]. split; [done|by etrans].
  - intros c2 [? ?]. split; [done|by etrans].
Qed.

(** *** The recursion is two deep *)

Lemma writePacketN_closed d p b : keeps_in (λ c, closed c = true) (writePacketN (S d) p b).
Proof. apply writePacket_body_closed. Qed.

Lemma writePacketN_keeps d p b : keeps (writePacketN (S (S d)) p b).
Proof.
  cbn [writePacketN]. apply writePacket_body_keeps. intros e.
  apply closeWithError_body_keeps. intros. apply writePacketN_closed.
Qed.

Lemma writePacket_keeps p b : keeps (writePacket p b).
Proof. apply writePacketN_keeps. Qed.

Lemma closeWithError_keeps e : keeps (closeWithError e).
Proof. apply closeWithError_body_keeps. intros. apply writePacketN_closed. Qed.

Lemma close_wp c : async_ok c →
  wp close (λ r c', moved async_ok later c c' ∧ closed c' = true ∧
                    r = if closed c then Some ConnectionClosed else None)
    (moved async_ok later c) c.
Proof. apply close_body_wp. intros. apply writePacketN_closed. Qed.

Lemma close_keeps : keeps close.
Proof. intros c Hc. eapply wp_mono; [by apply close_wp|by intros ? ? [? _]|done]. Qed.

Hint Resolve writePacket_keeps closeWithError_keeps close_keeps : preserve.

Lemma Close_keeps : keeps Close.
Proof.
  intros c Hc. unfold Close. apply wp_bind. eapply wp_mono; [by apply close_wp|simpl|done].
  intros r c1 ([Hc1 Hl1]&Hcl&->). destruct (closed c); [by apply wp_ret|].
  apply wp_bind. eapply wp_mono; [by apply conn_close_keeps|simpl; unfold moved, within..].
  - intros _ c2 [[? _] ?]. apply wp_ret. split; [done|by etrans].
  - intros c2 [[? _] ?]. split; [done|by etrans].
Qed.

Lemma Raw_keeps : keeps Raw.
Proof. unfold Raw. preserve. Qed.

Lemma WritePacket_keeps p : keeps (WritePacket p).
Proof. unfold WritePacket. preserve. Qed.

Lemma flush_calm : calm flush.
Proof. unfold flush. preserve. Qed.

Lemma Flush_keeps : keeps Flush.
Proof. pose proof (calm_keeps _ flush_calm). unfold Flush. preserve. Qed.

Lemma SetDeadline_calm : calm SetDeadline.
Proof. unfold SetDeadline. preserve. Qed.

Lemma take_stale_keeps : keeps_in (λ c, closed c = true) take_stale.
Proof.
  unfold take_stale. apply preserves_get_bind. intros c [Hc Hcl].
  destruct (stale c) as [|p r] eqn:Es; wp_steps; [done|]. destruct Hc.
  unfold arrived in *. split; [split; [|done]|].
  - split; try done; simpl; [congruence|]. unfold arrived. rewrite Es in ok_arrived0. simpl in *.
    rewrite len_cons in ok_arrived0. lia.
  - split_and!; try done. unfold arrived. rewrite Es. apply gains_tail.
Qed.

(** Taking from an open queue. *)
Lemma Pop_cases {T} (q : Queue T) : queue_closed q = false →
  (∃ x q', Pop q = (Ret (inl x), q') ∧ items q = x :: items q' ∧ queue_closed q' = false ∧
     capacity q' = capacity q) ∨
  (Pop q = (Block, q) ∧ items q = []).
Proof.
  intros Ho. destruct (items q) as [|x r] eqn:E.
  - right. by rewrite Pop_empty.
  - left. destruct (Pop_item x r q) as (q'&->&?&?&?); [done..|]. exists x, q'. split_and!; try done.
    congruence.
Qed.

Lemma ReadPacket_keeps : keeps ReadPacket.
Proof.
  unfold ReadPacket. apply preserves_get_bind. intros c Hc. destruct (closed c) eqn:Ho.
  { eapply wp_mono; [by apply take_stale_keeps|..]; simpl; unfold moved, within; intros; by destruct_and!. }
  apply wp_bind, wp_zoom. destruct (ok_open c Hc Ho) as (?&?&Hq&?&?). unfold wp at 1.
  assert (∀ q', queue_closed q' = false → gains ordinary (items (incoming c)) (items q') →
    len (items q') ≤ len (items (incoming c)) → capacity q' = capacity (incoming c) →
    moved async_ok later c (set_incoming q' c)) as Hmv.
  { intros q' Hq' Hg Hlen Hcap. destruct Hc. split.
    - split; try done; simpl; try congruence; [|intros; rewrite Hcap; auto].
      unfold arrived in *. rewrite len_app in *. simpl. lia.
    - split_and!; try done. by apply gains_app_l. }
  destruct (Pop_cases (incoming c) Hq) as [(p&q'&->&Hi&?&?)|[-> _]].
  - apply wp_ret. apply Hmv; [done| | |done]; rewrite Hi; [apply gains_tail|rewrite len_cons; lia].
  - by apply Hmv.
Qed.

(** *** Operations on streams *)

Lemma newStream_ok i : stream_ok (newStream i).
Proof. unfold stream_ok. simpl. by rewrite closed_new. Qed.

Lemma newStream_bounded i : stream_bounded (newStream i).
Proof.
  split; [|done]. unfold unread_on, stream_limit. simpl. rewrite items_new, len_nil.
  pose proof (capacity_new (T := Packet) DefaultStreamBufferSize). assert (0 ≤ DefaultStreamBufferSize) by done. lia.
Qed.

Lemma register_stream_moved i c :
  async_ok c → ∃ c', register_stream i c = (Ret (length (heap c)), c') ∧ moved async_ok still c c' ∧
    heap c' = heap c ++ [newStream i] ∧ streams c' = <[i := length (heap c)]> (streams c).
Proof.
  intros [].
  exists (set_streams (<[i := length (heap c)]> (streams c)) (set_heap (heap c ++ [newStream i]) c)).
  split; [reflexivity|]. split; [|by split]. split.
  2:{ split; [|done]. split_and!; [done|done| |done]. simpl. apply heap_le_app.
    unfold unread_on. simpl. apply items_new. }
  split; try done; simpl.
  - intros j sp. rewrite lookup_insert. case_decide as E.
    + intros [= <-]. subst. exists (newStream j). split; [|done].
      by rewrite lookup_app_r, Nat.sub_diag by done.
    + intros (s&Hs&?)%ok_streams0. exists s. by rewrite (lookup_app_l_Some _ _ _ _ Hs).
  - intros sp s [?|[_ [_ <-]%list_lookup_singleton_Some]]%lookup_app_Some; [by eapply ok_heap0|].
    apply newStream_ok.
  - intros sp s [?|[_ [_ <-]%list_lookup_singleton_Some]]%lookup_app_Some; [by eapply ok_unread0|].
    apply newStream_bounded.
Qed.

Lemma NewStream_keeps i : keeps (NewStream i).
Proof.
  unfold NewStream. apply preserves_get_bind. intros c Hc. destruct (streams c !! i).
  { by apply wp_ret. }
  destruct (register_stream_moved i c Hc) as (c'&E&[? [? ?]]&_). unfold wp. by rewrite E.
Qed.

Lemma SetNewStreamHandler_keeps h : keeps (SetNewStreamHandler h).
Proof. apply preserves_modify. intros c []. by split; [split|split_and!]. Qed.

Lemma stream_take_stale_keeps sp :
  keeps_in (λ c, ∃ s, heap c !! sp = Some s ∧ s_closed s = true) (stream_take_stale sp).
Proof.
  intros c [Hc (s&Hs&Hcl)]. unfold stream_take_stale. apply wp_bind, (deref_wp _ s); [done|].
  destruct (s_stale s) as [|p r] eqn:Es; [by apply wp_ret; split; [split; eauto|]|].
  apply wp_bind, wp_modify, wp_ret. set (s' := mkStream _ _ _ r).
  destruct (store_moved sp s s' c) as [? [? _]]; [done..| | | |].
  { unfold unread_on. simpl. rewrite Es. apply gains_tail. }
  2:{ destruct (ok_unread c Hc _ _ Hs) as [Hb _]. split; [|simpl; congruence].
      unfold unread_on in *. rewrite Es in Hb. simpl in *. rewrite len_cons in Hb. lia. }
  { pose proof (ok_heap c Hc _ _ Hs) as H0. unfold stream_ok in *. simpl. by rewrite Hcl in *. }
  split; [split; [done|]|done]. exists s'. simpl.
  by rewrite list_lookup_insert_eq by (by eapply lookup_lt_Some).
Qed.

(** Queue operations on an open stream that leave its queue open. *)
Lemma on_queue_wp {A} sp s (m : M (Queue Packet) A) (Q : A → Async → Prop) (Bl : Async → Prop) c :
  heap c !! sp = Some s →
  wp m (λ a q, Q a (set_heap (<[sp := mkStream (id s) (s_closed s) q (s_stale s)]> (heap c)) c))
       (λ q, Bl (set_heap (<[sp := mkStream (id s) (s_closed s) q (s_stale s)]> (heap c)) c)) (queue s) →
  wp (on_queue sp m) Q Bl c.
Proof. intros Hs H. unfold on_queue. apply wp_bind, (deref_wp _ s); [done|]. by apply wp_zoom. Qed.

Lemma store_queue_moved sp s q c :
  async_ok c → heap c !! sp = Some s → s_closed s = false → queue_closed q = false →
  gains (of_stream (id s)) (items (queue s)) (items q) → len (items q) ≤ len (items (queue s)) →
  capacity q = capacity (queue s) →
  moved async_ok still c (set_heap (<[sp := mkStream (id s) (s_closed s) q (s_stale s)]> (heap c)) c).
Proof.
  intros Hc Hs Hcl Hq Hg Hlen Hcap. eapply store_moved; [done..|by apply gains_app_l| |].
  2:{ destruct (ok_unread c Hc _ _ Hs) as [Hb Hca]. split; [|simpl; rewrite Hcap; done].
      unfold unread_on in *. rewrite len_app in *. simpl. lia. }
  pose proof (ok_heap c Hc _ _ Hs) as H0. unfold stream_ok in *. simpl. rewrite Hcl in *. by destruct H0.
Qed.

Lemma Stream_ReadPacket_keeps sp : keeps_in (valid sp) (Stream_ReadPacket sp).
Proof.
  intros c [Hc Hv]. pose proof Hv as [s Hs]. unfold Stream_ReadPacket.
  apply wp_bind, (deref_wp _ s); [done|]. destruct (s_closed s) eqn:Hcl.
  { eapply wp_mono; [apply stream_take_stale_keeps; split; eauto|..]; simpl; unfold moved, within.
    all: intros; destruct_and!; split_and!; [done|by eapply valid_lasting|done]. }
  assert (∀ q, queue_closed q = false → gains (of_stream (id s)) (items (queue s)) (items q) →
    len (items q) ≤ len (items (queue s)) → capacity q = capacity (queue s) →
    moved (within (valid sp)) later c
      (set_heap (<[sp := mkStream (id s) (s_closed s) q (s_stale s)]> (heap c)) c)) as Hmv.
  { intros q Hq Hg Hlen Hcap. destruct (store_queue_moved sp s q c) as [? [? _]]; [done..|].
    split; [split; [done|by eapply valid_lasting]|done]. }
  apply wp_bind, (on_queue_wp _ s); [done|]. unfold wp at 1.
  assert (queue_closed (queue s) = false) as Hq.
  { pose proof (ok_heap c Hc _ _ Hs) as H0. unfold stream_ok in H0. rewrite Hcl in H0. apply H0. }
  destruct (Pop_cases (queue s) Hq) as [(p&q'&->&Hi&?&?)|[-> _]].
  - apply wp_ret. apply Hmv; [done| | |done]; rewrite Hi; [apply gains_tail|rewrite len_cons; lia].
  - by apply Hmv.
Qed.

Lemma Stream_WritePacket_keeps sp p : keeps_in (valid sp) (Stream_WritePacket sp p).
Proof.
  pose proof (valid_lasting sp) as HD. intros c [Hc Hv]. pose proof Hv as [s Hs].
  unfold Stream_WritePacket. apply wp_bind, (deref_wp _ s); [done|].
  destruct (s_closed s); [by apply wp_ret|]. destruct (_ =? 0); [by apply wp_ret|].
  pose proof (lift_in (valid sp) _ HD (writePacket_keeps (stamped (id s) p) true)).
  assert (keeps_in (valid sp) (err ← writePacket (stamped (id s) p) true; mret (err, stamped (id s) p)))
    as Hk by preserve. by apply Hk.
Qed.

Lemma Stream_Close_keeps sp : keeps_in (valid sp) (Stream_Close sp).
Proof.
  pose proof (valid_lasting sp). apply closeSend_body_keeps; [done..|].
  intros. apply lift_in; [done|apply writePacket_keeps].
Qed.

Lemma Stream_close_keeps sp : keeps_in (valid sp) (Stream_close sp).
Proof.
  intros c [Hc Hv]. pose proof Hv as [s Hs]. unfold Stream_close.
  apply wp_bind, (deref_wp _ s); [done|]. destruct (s_closed s) eqn:Hcl; [by apply wp_ret|].
  apply wp_modify. destruct (shut_fields s) as [? ?].
  destruct (store_moved sp s (shut s) c) as [? [? _]]; [done..|apply shut_gains|apply shut_ok|by eapply shut_bounded, ok_unread|].
  split; [split; [done|by eapply valid_lasting]|done].
Qed.

(** *** The background loops *)

Lemma flushLoop_turn_keeps : keeps flushLoop_turn.
Proof.
  unfold flushLoop_turn. apply preserves_get_bind. intros c Hc. destruct (_ >? 0) eqn:Hn.
  2:{ wp_steps; by split. }
  apply wp_bind, wp_modify, wp_keeps_from.
  - pose proof (calm_keeps _ flush_calm). preserve.
  - destruct Hc. split; try done; simpl; try lia.
  - by split_and!.
Qed.

Lemma pingLoop_turn_keeps tick prefer : keeps (pingLoop_turn tick prefer).
Proof. unfold pingLoop_turn. preserve. Qed.

(** *** Any use of a connection *)

Inductive op :=
  | OpWrite (p : Packet) | OpRead | OpFlush | OpClose | OpRaw | OpSetDeadline
  | OpNewStream (i : Z) | OpSetHandler (h : option Z)
  | OpStreamRead (sp : nat) | OpStreamWrite (sp : nat) (p : Packet) | OpStreamClose (sp : nat)
  | OpFlushLoop | OpPingLoop (tick prefer : bool).

(** Streams are reached through pointers to existing objects only. *)
Definition with_stream {A} (sp : nat) (m : M Async A) : M Async unit :=
  c ← get;
  if bool_decide (sp < length (heap c))%nat then _ ← m; mret tt else mret tt.

Definition run_op (o : op) : M Async unit :=
  match o with
  | OpWrite p => _ ← WritePacket p; mret tt
  | OpRead => _ ← ReadPacket; mret tt
  | OpFlush => _ ← Flush; mret tt
  | OpClose => _ ← Close; mret tt
  | OpRaw => _ ← Raw; mret tt
  | OpSetDeadline => _ ← SetDeadline; mret tt
  | OpNewStream i => _ ← NewStream i; mret tt
  | OpSetHandler h => SetNewStreamHandler h
  | OpStreamRead sp => with_stream sp (Stream_ReadPacket sp)
  | OpStreamWrite sp p => with_stream sp (Stream_WritePacket sp p)
  | OpStreamClose sp => with_stream sp (Stream_Close sp)
  | OpFlushLoop => _ ← flushLoop_turn; mret tt
  | OpPingLoop tick prefer => _ ← pingLoop_turn tick prefer; mret tt
  end.

(** The operations one after the other; one that would block is abandoned, as
    when its goroutine never gets to run again. *)
Fixpoint run_ops (os : list op) : M Async unit := λ c,
  match os with
  | [] => (Ret tt, c)
  | o :: os =>
      match run_op o c with
      | (Ret _, c') | (Block, c') => run_ops os c'
      | r => r
      end
  end.

Lemma with_stream_keeps {A} sp (m : M Async A) : keeps_in (valid sp) m → keeps (with_stream sp m).
Proof.
  intros Hm. unfold with_stream. apply preserves_get_bind. intros c Hc.
  case_bool_decide as Hlt; [|by apply wp_ret]. apply wp_bind.
  eapply wp_mono; [apply Hm; split; [done|by apply lookup_lt_is_Some_2]|..]; simpl; unfold moved, within.
  - intros ? c' [[? _] ?]. by apply wp_ret.
  - by intros c' [[? _] ?].
Qed.

Lemma run_op_keeps o : keeps (run_op o).
Proof.
  destruct o; simpl;
    first [apply with_stream_keeps|apply SetNewStreamHandler_keeps|apply preserves_bind; [apply _| |intros ?; preserve]].
  all: eauto using WritePacket_keeps, ReadPacket_keeps, Flush_keeps, Close_keeps, Raw_keeps,
    NewStream_keeps, Stream_ReadPacket_keeps, Stream_WritePacket_keeps, Stream_Close_keeps,
    flushLoop_turn_keeps, pingLoop_turn_keeps, calm_keeps, SetDeadline_calm.
Qed.

Lemma run_ops_moved os c : async_ok c →
  ∃ c', run_ops os c = (Ret tt, c') ∧ moved async_ok later c c'.
Proof.
  revert c. induction os as [|o os IH]; intros c Hc; simpl.
  { eexists. by split_and!. }
  pose proof (run_op_keeps o c Hc) as H0. unfold wp in H0.
  destruct (run_op o c) as [[| | |] c1]; try done.
  all: destruct H0 as [Hc1 Hl1]; destruct (IH c1 Hc1) as (c2&->&[? ?]).
  all: exists c2; split; [done|]; split; [done|by etrans].
Qed.

(** *** Writing and closing never wait, in the absence of other goroutines *)

Lemma SetWriteDeadline_nonblocking : nonblocking SetWriteDeadline.
Proof. unfold SetWriteDeadline, on_conn, on_out. nonblock. Qed.

Lemma on_out_nonblocking {A} (m : M Out A) : nonblocking m → nonblocking (on_out m).
Proof. intros. unfold on_out. nonblock. Qed.

Lemma deref_nonblocking sp : nonblocking (deref sp).
Proof. intros c. unfold deref. by destruct (_ !! _). Qed.

Lemma packet_Get_nonblocking : nonblocking packet_Get.
Proof. intros c. unfold packet_Get. by destruct (Get _). Qed.

Lemma metadata_GetBuffer_nonblocking : nonblocking metadata_GetBuffer.
Proof. intros c. unfold metadata_GetBuffer. by destruct (GetBuffer _). Qed.

Hint Resolve SetWriteDeadline_nonblocking on_out_nonblocking deref_nonblocking
  packet_Get_nonblocking metadata_GetBuffer_nonblocking : nonblock.

Lemma close_body_nonblocking f : (∀ sp b, nonblocking (f sp b)) → nonblocking (close_body f).
Proof.
  intros Hf. assert (∀ sps, nonblocking (close_streams f sps)) by (induction sps; simpl; nonblock).
  unfold close_body, close_begin, close_closeCh, close_flushCh, close_flush. nonblock.
Qed.

Lemma closeSend_body_nonblocking w sp b :
  (∀ p b, nonblocking (w p b)) → nonblocking (closeSend_body w sp b).
Proof. intros Hw. unfold closeSend_body, store, packet_Put. nonblock. Qed.

Hint Resolve close_body_nonblocking closeSend_body_nonblocking : nonblock.

Lemma writePacketN_nonblocking d p b : nonblocking (writePacketN d p b).
Proof.
  revert p b. induction d as [|d IH]; intros p b; simpl; [nonblock|].
  unfold writePacket_body, write_failed, closeWithError_body, conn_close, signal_flush, metadata_PutBuffer.
  nonblock.
Qed.

(** A fresh connection. *)
Lemma NewAsync_ok w handler pl bl :
  conn_closed w = false → packets_blank pl → buffers_ok bl → async_ok (NewAsync w handler pl bl).
Proof.
  intros. split; try done; [simpl; by rewrite closed_new|].
  unfold arrived, queue_limit. simpl. rewrite items_new, len_nil.
  pose proof (capacity_new (T := Packet) DefaultBufferSize). assert (0 ≤ DefaultBufferSize) by done. lia.
Qed.

End async.

Abbreviation keeps := (preserves async_ok later).
Abbreviation keeps_in D := (preserves (within D) later).
Abbreviation calm := (preserves async_ok still).

End async.
