(* ===== verification/Concrete.v ===== *)
(** * A concrete world

    The parameters of the development instantiated by the executable models of
    [Interfaces], and a few objects to evaluate theorems on. *)

From S2P Require Import Prelude Frisbee GoStd Interfaces Metadata Packet Async.

Module concrete.
Import metadata packet async.

#[export] Instance world_globals : Globals := default_globals.
#[export] Instance world_polyglot : Polyglot := list_polyglot.
#[export] Instance world_queue : CircularQueue := list_circular.
#[export] Instance world_packets : PacketPool := list_pool Packet New packet.Reset.
#[export] Instance world_buffers : BufferPool := list_pool (list byte) NewBuffer metadata.Reset.

#[export] Instance world_globals_laws : GlobalsLaws world_globals := default_globals_laws.
#[export] Instance world_polyglot_laws : PolyglotLaws world_polyglot := list_polyglot_laws.
#[export] Instance world_queue_laws : CircularLaws world_queue := list_circular_laws.
#[export] Instance world_packets_laws : PoolLaws world_packets := list_pool_laws _ _ _.
#[export] Instance world_buffers_laws : PoolLaws world_buffers := list_pool_laws _ _ _.

(** A packet with three bytes of content, operation 10. *)
Definition hello : Packet :=
  mkPacket (mkMetadata 0 7 10 3) ([Byte.x61; Byte.x62; Byte.x63] : list byte).

Definition fresh_conn (faults : list (option (Z * Frisbee.error))) : Async :=
  NewAsync (mkWConn [] faults [] false) None ([] : list Packet) ([] : list (list byte)).

Lemma hello_sendable : sendable hello.
Proof. split_and!; try done; unfold in_width; simpl; lia. Qed.

Lemma no_members {T} {new : T} {reset} (φ : T → Prop) :
  pool_ok (list_pool T new reset) φ ([] : list T).
Proof. intros x Hx. set_solver. Qed.

Lemma fresh_conn_ok faults : async_ok (fresh_conn faults).
Proof. apply NewAsync_ok; [done|apply no_members|apply no_members]. Qed.

(** A connection with one packet queued and one open stream, number 5. *)
Definition busy_conn : Async :=
  set_heap [newStream 5] (set_streams {[5 := 0%nat]}
    (set_incoming (mkListQueue [hello] false DefaultBufferSize : Queue Packet) (fresh_conn []))).

Lemma busy_conn_ok : async_ok busy_conn.
Proof.
  destruct (fresh_conn_ok []). split; try done.
  - intros i sp. simpl. intros [<- <-]%lookup_singleton_Some. eexists. by split.
  - intros sp s. simpl. intros [_ <-]%list_lookup_singleton_Some. apply newStream_ok.
  - intros sp s. simpl. intros [_ <-]%list_lookup_singleton_Some. apply newStream_bounded.
Qed.

End concrete.
