(* ===== verification/AsyncSpec.v ===== *)
(** * What the operations of a connection do (async.go, stream.go)

    Functional descriptions of the operations of [Async], on every branch, and
    the properties users of a connection rely on. *)

From S2P Require Import Prelude Frisbee GoStd Interfaces Metadata Packet Async Concrete.

Module async_spec.
Import metadata packet async.

Section spec.
Context {G : Globals} {PB : Polyglot} {CQ : CircularQueue} {PP : PacketPool} {BP : BufferPool}.
Context `{!PolyglotLaws PB} `{!CircularLaws CQ} `{!PoolLaws PP} `{!PoolLaws BP}.
Implicit Types c : Async.

(** ** A working connection *)

Definition working c : Prop :=
  async_ok c ∧ closed c = false ∧ healthy (aconn c) ∧ werr (writer (out c)) = None.

(** [c'] is [c] but for what is written, the flush channel and the pool of
    header buffers. *)
Definition same_data c c' : Prop :=
  closed c' = closed c ∧ closeCh c' = closeCh c ∧ ch_closed (flushCh c') = ch_closed (flushCh c) ∧
  incoming c' = incoming c ∧ stale c' = stale c ∧ error c' = error c ∧
  streams c' = streams c ∧ heap c' = heap c ∧ newStreamHandler c' = newStreamHandler c ∧
  spawned c' = spawned c ∧ pool c' = pool c.

#[global] Instance same_data_preorder : PreOrder same_data.
Proof.
  split; [by intros c; split_and!|].
  intros c1 c2 c3 H1 H2. unfold same_data in *. destruct_and!. split_and!; congruence.
Qed.

(** [written bs c c']: from the working [c], [bs] was accepted. *)
Definition written (bs : list byte) c c' : Prop :=
  working c' ∧ same_data c c' ∧ stream_out (out c') = stream_out (out c) ++ bs.

Lemma written_trans a b c1 c2 c3 : written a c1 c2 → written b c2 c3 → written (a ++ b) c1 c3.
Proof.
  intros (_&?&E1) (?&?&E2). split_and!; [done|by etrans|]. by rewrite E2, E1, app_assoc.
Qed.

Lemma working_out c o :
  working c → writer_ok o → wsize (writer o) = wsize (writer (out c)) → werr (writer o) = None →
  healthy (conn o) → working (set_out o c).
Proof.
  intros (Hc&?&(?&?&?)&?) ? ? ? Hh. pose proof Hh as (_&_&Hcl). split_and!; try done; try apply Hh.
  apply async_ok_out; [done..|]. congruence.
Qed.

Lemma SetWriteDeadline_working c : working c → SetWriteDeadline c = (Ret None, c).
Proof.
  destruct c as [[[w f d cl] wr] ? ? ? ? ? ? ? ? ? ? ? ?]. intros (_&_&(?&?&?)&_).
  unfold aconn in *. simpl in *. subst. done.
Qed.

Lemma Writer_Write_working p c :
  working c → ∃ n c', on_out (Writer_Write p) c = (Ret (n, None), c') ∧ written p c c' ∧
    flushCh c' = flushCh c ∧ buffers c' = buffers c.
Proof.
  intros Hw. pose proof Hw as (Hc&Ho&Hh&He).
  destruct (Writer_Write_spec p (out c)) as (n&[e|]&o'&E&H); [apply Hc|done| |].
  { by destruct H as (_&[]&_). }
  destruct H as [-> Hacc]. exists (len p), (set_out o' c). unfold on_out, zoom. rewrite E.
  pose proof Hacc as (?&?&?&?&_). split_and!; try done. split_and!; try done.
  apply working_out; [done..|]. by eapply accepted_healthy.
Qed.

Lemma signal_flush_working c :
  working c → ∃ c', signal_flush c = (Ret tt, c') ∧ written [] c c' ∧
    1 ≤ ch_len (flushCh c') ∧ wire (aconn c') = wire (aconn c).
Proof.
  intros Hw. pose proof Hw as (Hc&Ho&Hh&He). destruct (ok_open c Hc Ho) as (Hf&?&?&?&?).
  pose proof (ok_flushCh c Hc) as Hn. unfold signal_flush. erewrite bind_Ret by reflexivity.
  rewrite Hf. destruct (Z.eqb_spec (ch_len (flushCh c)) 0) as [Hz|Hz].
  - exists (set_flushCh (mkChan 1 false) c). rewrite Hz. split; [done|]. split; [|done].
    unfold written. split_and!; [|done|simpl; by rewrite app_nil_r]. split_and!; [|done..].
    destruct Hc. split; try done. simpl. congruence.
  - exists c. split; [done|]. split_and!; [|lia|done]. split_and!; [done..|]. by rewrite app_nil_r.
Qed.

(** ** Writing *)

(** The guards of [writePacket], which leave everything as it was. *)
Lemma writePacketN_length d p b c :
  ContentLength (Metadata p) ≠ len (Bytes (Content p)) →
  writePacketN (S d) p b c = (Ret (Some InvalidContentLength), c).
Proof.
  intros H. cbn [writePacketN]. unfold writePacket_body. rewrite Len_Bytes.
  by replace (_ =? _) with false by lia.
Qed.

Lemma writePacketN_exceeds d p b c :
  ContentLength (Metadata p) = len (Bytes (Content p)) → exceeds_max (ContentLength (Metadata p)) = true →
  writePacketN (S d) p b c = (Ret (Some ContentLengthExceeded), c).
Proof.
  intros H Hm. cbn [writePacketN]. unfold writePacket_body. rewrite Len_Bytes.
  replace (_ =? _) with true by lia. by rewrite Hm.
Qed.

(** After the guards the header has been filled in on a buffer of the pool. *)
Definition took_buffer c : Async := set_buffers (GetBuffer (buffers c)).2 c.

Lemma GetBuffer_eq c : async_ok c →
  ∃ b, metadata_GetBuffer c = (Ret b, took_buffer c) ∧ len b = Size ∧ async_ok (took_buffer c).
Proof.
  intros Hc. pose proof (metadata_GetBuffer_calm c Hc) as Hw.
  unfold wp, metadata_GetBuffer, took_buffer in *.
  destruct (GetBuffer (buffers c)) as [b bl] eqn:E. exists b. split; [done|]. split; [|apply Hw].
  eapply (metadata_GetBuffer_len c); [done|]. unfold metadata_GetBuffer. by rewrite E.
Qed.

(** A write on a closed connection is refused and writes nothing. *)
Lemma writePacketN_closed_eq d p b c :
  async_ok c → closed c = true → ContentLength (Metadata p) = len (Bytes (Content p)) →
  exceeds_max (ContentLength (Metadata p)) = false →
  writePacketN (S d) p b c = (Ret (Some ConnectionClosed), took_buffer c).
Proof.
  intros Hc Hcl Hl Hm. cbn [writePacketN]. unfold writePacket_body. rewrite Len_Bytes.
  replace (_ =? len _) with true by lia. rewrite Hm. cbn [negb].
  destruct (GetBuffer_eq c Hc) as (b0&E&Hb&_). rewrite (bind_Ret _ _ _ _ _ E).
  rewrite put_fields_spec by done. erewrite bind_Ret by reflexivity.
  erewrite bind_Ret by reflexivity. simpl. by rewrite Hcl.
Qed.

(** A sendable packet is accepted by a working connection: its frame follows
    everything accepted before, and a flush is due. *)
Lemma writePacketN_working d p b c :
  working c → sendable p →
  ∃ c', writePacketN (S d) p b c = (Ret None, c') ∧ written (frame p) c c' ∧ 1 ≤ ch_len (flushCh c').
Proof.
  intros Hw (Hwf&Hl&Hm). pose proof Hw as (Hc&Ho&Hh&He).
  cbn [writePacketN]. unfold writePacket_body. rewrite Len_Bytes.
  replace (_ =? len _) with true by lia. rewrite Hm. cbn [negb].
  destruct (GetBuffer_eq c Hc) as (b0&E&Hb&Hc0). rewrite (bind_Ret _ _ _ _ _ E). clear E.
  rewrite put_fields_spec by done. erewrite bind_Ret by reflexivity.
  erewrite bind_Ret by reflexivity. change (closed (took_buffer c)) with (closed c). rewrite Ho.
  assert (written [] c (took_buffer c)) as W0.
  { unfold written. rewrite app_nil_r. split_and!; [|done..]. by split_and!. }
  rewrite (bind_Ret _ _ _ _ _ (SetWriteDeadline_working _ (proj1 W0))). cbn beta iota.
  set (hdr := header_bytes _). destruct (Writer_Write_working hdr _ (proj1 W0)) as (n&c1&E&W1&_&_).
  rewrite (bind_Ret _ _ _ _ _ E). clear E. cbn beta iota. erewrite bind_Ret by reflexivity.
  set (c2 := set_buffers _ c1). assert (written [] c1 c2) as W2.
  { destruct W1 as ((Hc1&?&?&?)&_). unfold written. rewrite app_nil_r. split_and!; [|done..].
    split_and!; try done. destruct Hc1. split; try done. by apply pool_Put_ok. }
  assert (written hdr c c2) as W by
    (rewrite <- (app_nil_r hdr), <- (app_nil_l (hdr ++ [])); by eauto using written_trans).
  assert (∃ c3, (if ContentLength (Metadata p) =? 0 then mret None
                 else content ← or_panic (slice (Bytes (Content p)) 0 (ContentLength (Metadata p))) IndexOutOfRange;
                      '(_, err) ← on_out (Writer_Write content); mret err) c2 = (Ret None, c3) ∧
                written (Bytes (Content p)) c2 c3) as (c3&E3&W3).
  { destruct (Z.eqb_spec (ContentLength (Metadata p)) 0).
    - exists c2. rewrite (len_zero_inv (Bytes (Content p))) by lia. split; [done|].
      unfold written. rewrite app_nil_r. split_and!; [apply W|done..].
    - pose proof (len_nonneg (Bytes (Content p))). rewrite slice_Some by lia.
      destruct (Writer_Write_working (Bytes (Content p)) c2 (proj1 W)) as (n3&c3&E&W3&_&_).
      exists c3. erewrite bind_Ret by reflexivity. rewrite sub_all by done.
      by rewrite (bind_Ret _ _ _ _ _ E). }
  rewrite (bind_Ret _ _ _ _ _ E3). cbn beta iota.
  destruct (signal_flush_working c3 (proj1 W3)) as (c4&E4&W4&?&_). rewrite (bind_Ret _ _ _ _ _ E4).
  exists c4. split_and!; [done| |done].
  rewrite <- (app_nil_r (frame p)). eapply written_trans; [|done]. by eapply written_trans.
Qed.

(** ** Flushing *)

Lemma Flush_working c :
  working c → ∃ c', Flush c = (Ret None, c') ∧ working c' ∧ same_data c c' ∧
    wire (aconn c') = stream_out (out c) ∧ Buffered (out c') = 0.
Proof.
  intros Hw. pose proof Hw as (Hc&Ho&Hh&He). unfold Flush, flush.
  destruct (Z.gtb_spec (Buffered (out c)) 0) as [Hb|Hb].
  - destruct (Writer_Flush_spec (out c)) as ([e|]&o'&E&H); [apply Hc|done| |].
    { by destruct H as (_&[]&_). }
    destruct H as [Hacc Hemp]. pose proof Hacc as (Hs&?&?&?&_).
    assert (SetWriteDeadline c = (Ret None, c)) as Ed by (by apply SetWriteDeadline_working).
    exists (set_out o' c). split_and!; try done.
    + unfold mbind at 1, M_bind at 1. rewrite (bind_Ret get _ c c c) by done. rewrite Ho.
      replace (Buffered (out c) >? 0) with true by lia. rewrite (bind_Ret _ _ _ _ _ Ed).
      unfold mbind, M_bind, on_out, zoom. by rewrite E.
    + apply working_out; [done..|]. by eapply accepted_healthy.
    + unfold stream_out in Hs. rewrite Hemp, !app_nil_r in Hs. done.
    + unfold Buffered. simpl. by rewrite Hemp.
  - exists c. pose proof (len_nonneg (wbuf (writer (out c)))). unfold Buffered in *.
    assert (wbuf (writer (out c)) = []) as Hn by (apply len_zero_inv; lia).
    split_and!; try done.
    + unfold mbind at 1, M_bind at 1. rewrite (bind_Ret get _ c c c) by done. rewrite Ho.
      unfold Buffered. by replace (len (wbuf (writer (out c))) >? 0) with false by lia.
    + unfold stream_out, aconn. by rewrite Hn, app_nil_r.
    + by rewrite Hn.
Qed.

(** The flush at the end of [close]. *)
Lemma close_flush_eq c :
  async_ok c → ∃ o', close_flush c = (Ret tt, set_out o' c) ∧
    conn_closed (conn o') = conn_closed (aconn c) ∧
    (healthy (aconn c) → werr (writer (out c)) = None → wire (conn o') = stream_out (out c)).
Proof.
  intros Hc. unfold close_flush. rewrite (bind_Ret get _ c c c) by done.
  destruct (Z.gtb_spec (Buffered (out c)) 0) as [Hb|Hb].
  - unfold SetWriteDeadline, on_conn, on_out, aconn.
    destruct (conn_SetDeadline_cases (conn (out c))) as (r1&ds1&E1&H1).
    erewrite bind_Ret; [|unfold zoom; simpl; rewrite E1; reflexivity].
    set (o1 := set_conn _ (out c)). change (set_out o1 c) with (set_out o1 c).
    assert (writer_ok o1) as Hok1 by apply Hc.
    destruct (Writer_Flush_returns o1 Hok1) as (r2&o2&E2&Hok2&(_&Hcc&_&_)).
    erewrite bind_Ret; [|unfold zoom; simpl; rewrite E2; reflexivity].
    destruct (conn_SetDeadline_cases (conn o2)) as (r3&ds3&E3&_).
    erewrite bind_Ret; [|unfold zoom; simpl; rewrite E3; reflexivity].
    eexists. split; [reflexivity|]. split; [done|]. intros (Hf&Hd&Hcl) He. simpl.
    destruct (H1 Hd Hcl) as [_ ->].
    destruct (Writer_Flush_spec o1) as (r&o'&E&H); [done..|]. rewrite E2 in E. injection E as <- <-.
    destruct r2; [by destruct H as (_&[]&_)|]. destruct H as [(Hs&_) Hemp].
    unfold stream_out in *. rewrite Hemp, !app_nil_r in Hs. done.
  - exists (out c). split; [by destruct c|]. split; [done|]. intros _ _. unfold stream_out, Buffered in *.
    pose proof (len_nonneg (wbuf (writer (out c)))).
    rewrite (len_zero_inv (wbuf (writer (out c)))) by lia. by rewrite app_nil_r.
Qed.

(** ** Closing *)

(** The effect of closing the streams of a connection on their objects. *)
Definition shut_once (s : Stream) : Stream := if s_closed s then s else shut s.

Definition shut_all (sps : list nat) (h : list Stream) : list Stream :=
  foldl (λ h sp, alter shut_once sp h) h sps.

(** Up to the pools. *)
Definition with_heap (h : list Stream) (pl : Pool PP) (bl : Pool BP) c : Async :=
  set_buffers bl (set_pool pl (set_heap h c)).

Lemma exceeds_max_0 : exceeds_max 0 = false.
Proof. unfold exceeds_max. destruct (_ >? 0) eqn:E; [|done]. simpl. lia. Qed.

(** Closing a stream of a closed connection: the packet it sends is refused. *)
Lemma closeSend_closed d sp s c :
  async_ok c → closed c = true → heap c !! sp = Some s →
  ∃ r pl bl, closeSend_body (writePacketN (S d)) sp false c =
    (Ret r, with_heap (alter shut_once sp (heap c)) pl bl c).
Proof.
  intros Hc Hcl Hs. unfold closeSend_body. rewrite (alter_at _ _ _ _ Hs).
  assert (deref sp c = (Ret s, c)) as Ed by (unfold deref; by rewrite Hs).
  rewrite (bind_Ret _ _ _ _ _ Ed). unfold shut_once.
  destruct (s_closed s) eqn:Hsc.
  { eexists _, (pool c), (buffers c). unfold with_heap. rewrite list_insert_id by done. by destruct c. }
  erewrite bind_Ret by reflexivity. set (c1 := set_heap (<[sp := shut s]> (heap c)) c).
  assert (async_ok c1) as Hc1.
  { destruct (shut_fields s). by eapply (store_moved sp s (shut s) c); [..|apply shut_gains|apply shut_ok|by eapply shut_bounded, ok_unread]. }
  destruct (Get_blank (pool c) (ok_pool c Hc)) as [[= Hm Hb] _].
  assert (packet_Get c1 = (Ret (Get (pool c)).1, set_pool (Get (pool c)).2 c1)) as Eg
    by (unfold packet_Get; simpl; by destruct (Get (pool c))).
  pose proof (packet_Get_calm c1 Hc1) as Hw. unfold wp in Hw. rewrite Eg in Hw.
  destruct Hw as [Hc2 _]. rewrite (bind_Ret _ _ _ _ _ Eg). cbv zeta.
  erewrite bind_Ret.
  2:{ apply writePacketN_closed_eq; [done|done|simpl; by rewrite Hm, Hb|].
      simpl. rewrite Hm. apply exceeds_max_0. }
  eexists _, _, _. reflexivity.
Qed.

(** Closing some streams of a closed connection. *)
Lemma close_streams_closed d sps c :
  async_ok c → closed c = true → Forall (λ sp, valid sp c) sps →
  ∃ pl bl, close_streams (closeSend_body (writePacketN (S d))) sps c =
    (Ret tt, with_heap (shut_all sps (heap c)) pl bl c).
Proof.
  revert c. induction sps as [|sp sps IH]; intros c Hc Hcl Hv.
  { exists (pool c), (buffers c). by destruct c. }
  apply Forall_cons_1 in Hv as [Hsp Hv]. pose proof Hsp as [s Hs]. cbn [close_streams].
  destruct (closeSend_closed d sp s c Hc Hcl Hs) as (r&pl&bl&E). rewrite (bind_Ret _ _ _ _ _ E).
  assert (lasting (λ c, closed c = true ∧ valid sp c)) as HD.
  { apply lasting_and; [by intros ? ? [? _]; auto|apply valid_lasting]. }
  assert (keeps_in (λ c, closed c = true ∧ valid sp c) (closeSend_body (writePacketN (S d)) sp false)) as Hk.
  { apply closeSend_body_keeps; [done|by intros ? [? ?]|]. intros p b.
    eapply (restrict_in (λ c, closed c = true)); [by intros ? [? _]|done|apply writePacketN_closed]. }
  assert (moved (within (λ c, closed c = true ∧ valid sp c)) later c
    (with_heap (alter shut_once sp (heap c)) pl bl c)) as [[Hc1 [Hcl1 _]] Hl1].
  { specialize (Hk c). unfold wp in Hk. rewrite E in Hk. apply Hk. by split. }
  destruct (IH _ Hc1 Hcl1) as (pl'&bl'&->).
  { eapply Forall_impl; [|exact Hv]. intros sp1. by apply valid_lasting. }
  by exists pl', bl'.
Qed.

Lemma registered_valid c :
  async_ok c → Forall (λ sp, valid sp c) (map_to_list (streams c)).*2.
Proof.
  intros Hc. apply Forall_fmap, Forall_forall. intros [i sp] Hi%list_elem_of_In%elem_of_map_to_list.
  destruct (ok_streams c Hc _ _ Hi) as (s&?&_). by exists s.
Qed.

(** [close] on an open connection: the channels and the queue are closed, the
    undelivered packets set aside, every registered stream shut, and the write
    buffer flushed to the socket, which stays open.  The packets the streams
    would send to announce their end are refused. *)
Definition after_close c (c' : Async) : Prop :=
  async_ok c' ∧ closed c' = true ∧ stale c' = items (incoming c) ∧ error c' = error c ∧
  streams c' = streams c ∧ heap c' = shut_all (map_to_list (streams c)).*2 (heap c) ∧
  conn_closed (aconn c') = false ∧
  (healthy (aconn c) → werr (writer (out c)) = None → wire (aconn c') = stream_out (out c)).

(** [close] and [closeWithError] at any depth of the recursion. *)
Abbreviation closeN d := (close_body (closeSend_body (writePacketN (S d)))).
Abbreviation closeWithErrorN d := (closeWithError_body (closeN d)).

Lemma close_open d c :
  async_ok c → closed c = false → ∃ c', closeN d c = (Ret None, c') ∧ after_close c c'.
Proof.
  intros Hc Ho. destruct (ok_open c Hc Ho) as (_&_&_&Hcn&_).
  pose proof (close_body_wp (writePacketN (S d)) c (λ p b, writePacketN_closed d p b) Hc) as Hwp.
  unfold wp in Hwp. unfold close_body in *.
  rewrite (bind_Ret get _ c c c) in * by done. rewrite Ho in *.
  destruct (close_begin_eq c Hc Ho) as (ds&E&Hds). destruct (begun_ok ds c Hc Ho) as [Hc1 _].
  rewrite (bind_Ret _ _ _ _ _ E) in *. rewrite (bind_Ret get _ _ (begun ds c) (begun ds c)) in * by done.
  pose proof (registered_valid (begun ds c) Hc1) as Hv.
  destruct (close_streams_closed d _ (begun ds c) Hc1 eq_refl Hv) as (pl&bl&E2).
  pose proof (close_streams_keeps (writePacketN (S d)) (map_to_list (streams (begun ds c))).*2
    (λ p b, writePacketN_closed d p b) (begun ds c)) as Hk.
  unfold wp in Hk. rewrite E2 in Hk. destruct Hk as [[Hc2 _] _]; [by split|].
  rewrite (bind_Ret _ _ _ _ _ E2) in *. set (c2 := with_heap _ _ _ _) in *.
  destruct (close_flush_eq c2 Hc2) as (o'&E3&Hcc&Hw). rewrite (bind_Ret _ _ _ _ _ E3) in *.
  eexists. split; [reflexivity|]. destruct Hwp as [[Hok _] _]. split_and!; try done.
  - change (conn_closed (conn o') = false). rewrite Hcc. done.
  - intros Hh He. change (wire (conn o') = stream_out (out c)). rewrite Hw; [done| |done].
    destruct Hh as (?&?&?). split_and!; [done| |done]. simpl. by apply Hds.
Qed.

Lemma close_closed f c : closed c = true → close_body f c = (Ret (Some ConnectionClosed), c).
Proof. intros Hcl. unfold close_body. rewrite (bind_Ret get _ c c c) by done. by rewrite Hcl. Qed.

(** Closing for an error records it and closes the socket too. *)
Definition failed_with (e : Frisbee.error) c (c' : Async) : Prop :=
  async_ok c' ∧ closed c' = true ∧ Error c' = Some e ∧
  conn_closed (aconn c') = true ∧ stale c' = items (incoming c) ∧
  (healthy (aconn c) → werr (writer (out c)) = None → wire (aconn c') = stream_out (out c)).

Lemma closeWithError_open d e c :
  async_ok c → closed c = false →
  ∃ c', closeWithErrorN d e c = (Ret e, c') ∧ failed_with e c c'.
Proof.
  intros Hc Ho.
  pose proof (closeWithError_body_keeps (writePacketN (S d)) e (λ p b, writePacketN_closed d p b) c Hc) as Hwp.
  unfold wp in Hwp. unfold closeWithError_body in *.
  destruct (close_open d (set_error (Some e) c)) as (c1&E&(?&?&?&?&_&_&_&?)); [|done|].
  { pose proof (set_error_keeps (Some e) c Hc) as [? _]. done. }
  erewrite bind_Ret in * by reflexivity. rewrite (bind_Ret _ _ _ _ _ E) in *.
  eexists. split; [reflexivity|]. destruct Hwp as [? _]. by split_and!.
Qed.

Lemma closeWithError_closed f e c :
  closed c = true →
  closeWithError_body (close_body f) e c =
    (Ret (Join ConnectionClosed e), set_error (Some (Join ConnectionClosed e)) c).
Proof.
  intros Hcl. unfold closeWithError_body. erewrite bind_Ret by reflexivity.
  rewrite (bind_Ret _ _ _ _ _ (close_closed f (set_error (Some e) c) Hcl)). by destruct c.
Qed.

Lemma Close_open c :
  async_ok c → closed c = false →
  ∃ c1, close c = (Ret None, c1) ∧ after_close c c1 ∧
    Close c = (Ret None, set_out (set_conn (conn_Close (aconn c1)) (out c1)) c1).
Proof.
  intros Hc Ho. destruct (close_open 1 c Hc Ho) as (c1&E&H). exists c1. split_and!; [done..|].
  unfold Close, close, closeSend, writePacket. by rewrite (bind_Ret _ _ _ _ _ E).
Qed.

Lemma Close_closed c : closed c = true → Close c = (Ret None, c).
Proof.
  intros Hcl. unfold Close, close. by rewrite (bind_Ret _ _ _ _ _ (close_closed closeSend c Hcl)).
Qed.

(** ** Reading *)

Fixpoint ReadN (n : nat) : M Async (list (Packet + Frisbee.error)) :=
  match n with
  | O => mret []
  | S n => r ← ReadPacket; rs ← ReadN n; mret (r :: rs)
  end.

Lemma ReadPacket_closed_eq c :
  closed c = true → ReadPacket c = take_stale c.
Proof. intros Hcl. unfold ReadPacket. rewrite (bind_Ret get _ c c c) by done. by rewrite Hcl. Qed.

(** After the close, the packets set aside are read in order; then every read
    reports the close. *)
Lemma ReadN_stale n c :
  closed c = true → ∃ c', ReadN (length (stale c) + n) c =
    (Ret ((inl <$> stale c) ++ replicate n (inr ConnectionClosed)), c') ∧ closed c' = true.
Proof.
  remember (stale c) as ps eqn:Hps. revert c Hps. induction ps as [|p ps IH]; intros c Hps Hcl; simpl.
  - induction n as [|n IHn]; simpl; [by exists c|].
    assert (ReadPacket c = (Ret (inr ConnectionClosed), c)) as E.
    { rewrite ReadPacket_closed_eq by done. unfold take_stale.
      rewrite (bind_Ret get _ c c c) by done. by rewrite <- Hps. }
    rewrite (bind_Ret _ _ _ _ _ E). destruct IHn as (c'&E'&?). rewrite (bind_Ret _ _ _ _ _ E'). by exists c'.
  - assert (ReadPacket c = (Ret (inl p), set_stale ps c)) as E.
    { rewrite ReadPacket_closed_eq by done. unfold take_stale.
      rewrite (bind_Ret get _ c c c) by done. by rewrite <- Hps. }
    rewrite (bind_Ret _ _ _ _ _ E). destruct (IH (set_stale ps c)) as (c'&E'&?); [done..|].
    rewrite (bind_Ret _ _ _ _ _ E'). by exists c'.
Qed.

(** ** Failing writes *)

Lemma wp_calm_bind_post {A B} (m : M Async A) (k : A → M Async B) (Q : B → Async → Prop) c :
  calm m → async_ok c → closed c = false →
  (∀ a c', async_ok c' → closed c' = false → arrived c' = arrived c → wp (k a) Q (λ _, True) c') →
  wp (m ≫= k) Q (λ _, True) c.
Proof.
  intros Hm Hc Ho Hk. apply wp_bind. eapply wp_mono; [by apply Hm|simpl|done].
  intros a c' (?&?&?&?). apply Hk; [done|congruence|done].
Qed.

(** The result of a write with [closeOnErr] on an open connection. *)
Definition write_result (c0 : Async) (r : option Frisbee.error) c : Prop :=
  async_ok c ∧ arrived c = arrived c0 ∧
  match r with
  | None => closed c = false
  | Some e => closed c = true ∧ Error c = Some e ∧ conn_closed (aconn c) = true
  end.

(** Closing sets aside what had arrived. *)
Lemma arrived_closed c c' :
  async_ok c → closed c = false → async_ok c' → closed c' = true → stale c' = items (incoming c) →
  arrived c' = arrived c.
Proof.
  intros Hc Ho Hc' Hcl Hst. unfold arrived. destruct (ok_open c Hc Ho) as (_&_&_&_&->).
  destruct (ok_closed c' Hc' Hcl) as (_&_&_&->). by rewrite Hst, app_nil_r.
Qed.

Lemma write_failed_open d e c0 c :
  async_ok c → closed c = false → arrived c = arrived c0 →
  wp (write_failed (closeWithErrorN d) true e) (write_result c0) (λ _, True) c.
Proof.
  intros Hc Ho Ha. unfold write_failed. apply wp_bind, wp_get. rewrite Ho. apply wp_bind.
  destruct (closeWithError_open d e c Hc Ho) as (c'&E&(?&?&?&?&?&_)). unfold wp at 1. rewrite E.
  split_and!; try done. rewrite <- Ha. by apply arrived_closed.
Qed.

Lemma writePacketN_result d p c :
  async_ok c → closed c = false → ContentLength (Metadata p) = len (Bytes (Content p)) →
  exceeds_max (ContentLength (Metadata p)) = false →
  wp (writePacketN (S (S d)) p true) (write_result c) (λ _, True) c.
Proof.
  intros Hc Ho Hl Hm. cbn [writePacketN]. fold (writePacketN (S d)).
  pose proof (λ e c', write_failed_open d e c c') as Hf.
  unfold writePacket_body. rewrite Len_Bytes. replace (_ =? len _) with true by lia.
  rewrite Hm. cbn [negb]. destruct (GetBuffer_eq c Hc) as (b&E&Hb&Hc0).
  apply wp_bind. unfold wp at 1. rewrite E. rewrite put_fields_spec by done.
  apply wp_bind, wp_ret, wp_bind, wp_get. change (closed (took_buffer c)) with (closed c). rewrite Ho.
  apply wp_calm_bind_post; [apply SetWriteDeadline_calm|done..|]. intros [e|] c1 Hc1 Ho1 Ha1; [by apply Hf|].
  change (arrived (took_buffer c)) with (arrived c) in Ha1.
  apply wp_calm_bind_post; [apply Writer_Write_calm|done..|]. intros [n err] c2 Hc2 Ho2 Ha2.
  apply wp_calm_bind_post; [by apply metadata_PutBuffer_calm|done..|]. intros _ c3 Hc3 Ho3 Ha3.
  destruct err as [e|]; [apply Hf; [done..|congruence]|].
  apply wp_calm_bind_post; [apply content_write_calm; by rewrite Len_Bytes|done..|].
  intros [e|] c4 Hc4 Ho4 Ha4; [apply Hf; [done..|congruence]|].
  apply wp_bind. eapply wp_mono; [by apply signal_flush_still|simpl|done].
  intros _ c5 (?&_&?&?). apply wp_ret. split_and!; [done|congruence..].
Qed.

(** ** Closing a stream *)

(** The packet that announces the end of a stream. *)
Definition end_of_stream (i : Z) : list byte :=
  header_bytes (mkMetadata PacketMagicHeader i STREAM 0).

Lemma Stream_Close_working sp s c :
  working c → heap c !! sp = Some s → s_closed s = false → is_uint16 (id s) →
  ∃ c', Stream_Close sp c = (Ret None, c') ∧ working c' ∧
    stream_out (out c') = stream_out (out c) ++ end_of_stream (id s) ∧
    streams c' = delete (id s) (streams c) ∧ heap c' = <[sp := shut s]> (heap c) ∧
    incoming c' = incoming c.
Proof.
  intros Hw Hs Hsc Hid. pose proof Hw as (Hc&Ho&Hh&He).
  pose proof (Stream_Close_keeps sp c) as Hk. unfold wp in Hk.
  unfold Stream_Close, closeSend, closeSend_body in *.
  assert (deref sp c = (Ret s, c)) as Ed by (unfold deref; by rewrite Hs).
  rewrite (bind_Ret _ _ _ _ _ Ed), Hsc in *.
  assert (store sp (shut s) c = (Ret tt, set_heap (<[sp := shut s]> (heap c)) c)) as Est by done.
  rewrite (bind_Ret _ _ _ _ _ Est) in *. set (c1 := set_heap _ c) in *.
  assert (async_ok c1) as Hc1.
  { destruct (shut_fields s). by eapply (store_moved sp s (shut s) c); [..|apply shut_gains|apply shut_ok|by eapply shut_bounded, ok_unread]. }
  destruct (Get_blank (pool c) (ok_pool c Hc)) as [[= Hm Hb] _].
  assert (packet_Get c1 = (Ret (Get (pool c)).1, set_pool (Get (pool c)).2 c1)) as Eg
    by (unfold packet_Get; simpl; by destruct (Get (pool c))).
  pose proof (packet_Get_calm c1 Hc1) as Hwg. unfold wp in Hwg. rewrite Eg in Hwg. destruct Hwg as [Hc2 _].
  rewrite (bind_Ret _ _ _ _ _ Eg) in *. cbv zeta in *. set (p := set_Metadata _ _) in *.
  set (c2 := set_pool _ c1) in *. assert (working c2) as Hw2 by by split_and!.
  destruct (writePacketN_working 1 p true c2 Hw2) as (c3&E3&(Hw3&Hsd&Hso)&_).
  { unfold sendable. simpl. rewrite Hm, Hb. split_and!; try done. apply exceeds_max_0. }
  unfold writePacket in *. rewrite (bind_Ret _ _ _ _ _ E3) in *.
  unfold same_data in Hsd. destruct_and! Hsd.
  eexists. split; [reflexivity|]. split_and!.
  - destruct Hk as [[? _] _]; [split; [done|by exists s]|]. by destruct Hw3 as (_&?&?&?).
  - change (stream_out (out c3) = stream_out (out c) ++ end_of_stream (id s)). rewrite Hso.
    change (stream_out (out c2)) with (stream_out (out c)). f_equal. unfold frame, end_of_stream.
    change (Content p) with (Content (Get (pool c)).1). rewrite Hb, app_nil_r. unfold p.
    cbn [Metadata set_Metadata]. by rewrite Hm.
  - subst c2 c1. simpl in *. congruence.
  - subst c2 c1. simpl in *. congruence.
  - subst c2 c1. simpl in *. congruence.
Qed.

(** ** Properties *)

(** C14: no use of an asynchronous connection breaks it.  For a fresh connection
    and any sequence of writes, reads, flushes, closes, stream operations and
    turns of the background loops, with any failures of the socket: no call
    panics (no channel is closed twice, nothing is sent on a closed channel, no
    slice is out of range), the recursion between [writePacket], [close] and
    [closeSend] stays within its depth, and the invariant holds at the end;
    closing a connection or a stream and putting bytes on the wire are never
    undone. *)
Theorem async_safety (w : WConn) (handler : option Z) (pl : Pool PP) (bl : Pool BP) (os : list op) :
  conn_closed w = false → packets_blank pl → buffers_ok bl →
  ∃ c', run_ops os (NewAsync w handler pl bl) = (Ret tt, c') ∧ async_ok c' ∧
    later (NewAsync w handler pl bl) c'.
Proof.
  intros. destruct (run_ops_moved os (NewAsync w handler pl bl)) as (c'&?&?&?);
    [by apply NewAsync_ok|]. by exists c'.
Qed.

(** C22: [WritePacket] on every branch.  Reserved operations, a content length
    that is not the length of the content, and a content beyond the limit are
    refused with their errors and no effect; a closed connection refuses without
    writing; a working one accepts: the frame of the packet follows everything
    accepted before, nothing else changes, and a flush is due. *)
Theorem WritePacket_correct (p : Packet) (c : Async) :
  async_ok c → wf_metadata (Metadata p) →
  let m := Metadata p in
  if bool_decide (Operation m ≤ 9) then WritePacket p c = (Ret (Some InvalidOperation), c)
  else if bool_decide (ContentLength m ≠ len (Bytes (Content p))) then
    WritePacket p c = (Ret (Some InvalidContentLength), c)
  else if exceeds_max (ContentLength m) then WritePacket p c = (Ret (Some ContentLengthExceeded), c)
  else if closed c then
    ∃ c', WritePacket p c = (Ret (Some ConnectionClosed), c') ∧ stream_out (out c') = stream_out (out c)
  else working c →
    ∃ c', WritePacket p c = (Ret None, c') ∧ working c' ∧ same_data c c' ∧
      stream_out (out c') = stream_out (out c) ++ frame p ∧ 1 ≤ ch_len (flushCh c').
Proof.
  intros Hc Hwf m. unfold WritePacket, writePacket. fold m.
  case_bool_decide as Hop; [by replace (Operation m <=? RESERVED9) with true by (unfold RESERVED9; lia)|].
  replace (Operation m <=? RESERVED9) with false by (unfold RESERVED9; lia).
  case_bool_decide as Hl; [by apply writePacketN_length|].
  assert (ContentLength m = len (Bytes (Content p))) as Hl' by lia.
  destruct (exceeds_max _) eqn:Hm; [by apply writePacketN_exceeds|].
  destruct (closed c) eqn:Hcl.
  - eexists. split; [by apply writePacketN_closed_eq|]. done.
  - intros Hw. destruct (writePacketN_working 1 p true c Hw) as (c'&?&(?&?&?)&?); [by split_and!|].
    by exists c'.
Qed.

(** C23: a failed write closes the connection and says why.  On an open
    connection with any pending socket failures, [WritePacket] of an admissible
    packet returns; either without error, and the connection is still open, or
    with the error that [Error] then reports, the connection and its socket
    being closed. *)
Theorem WritePacket_failure (p : Packet) (c : Async) :
  async_ok c → closed c = false → 9 < Operation (Metadata p) →
  ContentLength (Metadata p) = len (Bytes (Content p)) →
  exceeds_max (ContentLength (Metadata p)) = false →
  match WritePacket p c with
  | (Ret None, c') => closed c' = false
  | (Ret (Some e), c') => closed c' = true ∧ Error c' = Some e ∧ conn_closed (aconn c') = true
  | _ => False
  end.
Proof.
  intros Hc Ho Hop Hl Hm. unfold WritePacket, writePacket.
  replace (_ <=? RESERVED9) with false by (unfold RESERVED9; lia).
  pose proof (writePacketN_result 0 p c Hc Ho Hl Hm) as H. unfold wp in H.
  pose proof (writePacketN_nonblocking 2 p true c) as Hb.
  destruct (writePacketN 2 p true c) as [[[e|]| | |] c']; try done; apply H.
Qed.

(** A written packet reaches the peer.  After a packet is accepted by a
    working connection, the next turn of the flush loop finds the signal, keeps
    running, and everything accepted so far, the packet last, is on the wire. *)
Theorem written_packet_reaches_wire (p : Packet) (c : Async) :
  working c → sendable p → 9 < Operation (Metadata p) →
  ∃ c1 c2, WritePacket p c = (Ret None, c1) ∧ flushLoop_turn c1 = (Ret Continue, c2) ∧
    wire (aconn c2) = stream_out (out c) ++ frame p.
Proof.
  intros Hw Hp Hop. unfold WritePacket, writePacket.
  replace (_ <=? RESERVED9) with false by (unfold RESERVED9; lia).
  destruct (writePacketN_working 1 p true c Hw Hp) as (c1&E&(Hw1&_&Hs)&Hn).
  set (c1' := set_flushCh (mkChan (ch_len (flushCh c1) - 1) (ch_closed (flushCh c1))) c1).
  assert (working c1') as Hw1'.
  { destruct Hw1 as (Hc1&?&?&?). split_and!; try done.
    destruct Hc1. split; try done. simpl. lia. }
  destruct (Flush_working c1' Hw1') as (c2&E2&_&_&Hwire&_).
  exists c1, c2. split_and!; [done| |by rewrite Hwire, <- Hs].
  unfold flushLoop_turn. rewrite (bind_Ret get _ c1 c1 c1) by done.
  replace (ch_len (flushCh c1) >? 0) with true by lia. erewrite bind_Ret by reflexivity.
  fold c1'. unfold Flush in E2. apply bind_Ret_inv in E2 as ([e|]&c3&E3&E4).
  { apply bind_Ret_inv in E4 as (?&?&_&?). done. }
  injection E4 as <-. by rewrite (bind_Ret _ _ _ _ _ E3).
Qed.

(** C24: closing loses nothing.  [Close] on a working connection returns nil with
    every accepted byte on the wire and the socket closed (and no other byte:
    the ends of the open streams are not announced); afterwards the packets
    received but not yet read are still read, in order, and then every read
    returns [ConnectionClosed]; a second [Close] does nothing and returns nil. *)
Theorem close_graceful (c : Async) (n : nat) :
  working c →
  ∃ c', Close c = (Ret None, c') ∧ closed c' = true ∧ conn_closed (aconn c') = true ∧
    wire (aconn c') = stream_out (out c) ∧ Error c' = Error c ∧ Close c' = (Ret None, c') ∧
    (ReadN (length (items (incoming c)) + n) c').1 =
      Ret ((inl <$> items (incoming c)) ++ replicate n (inr ConnectionClosed)).
Proof.
  intros (Hc&Ho&Hh&He). destruct (Close_open c Hc Ho) as (c1&_&Hac&E).
  destruct Hac as (_&Hcl&Hst&Her&_&_&_&Hw). eexists. split; [exact E|].
  set (c' := set_out _ c1). assert (closed c' = true) as Hcl' by done.
  assert (stale c' = items (incoming c)) as Hst' by done.
  split_and!; try done.
  - change (wire (aconn c1) = stream_out (out c)). by apply Hw.
  - by apply Close_closed.
  - rewrite <- Hst'. by destruct (ReadN_stale n c' Hcl') as (c2&->&_).
Qed.

(** Reading several packets from a stream. *)
Fixpoint Stream_ReadMany (n sp : nat) : M Async (list (Packet + Frisbee.error)) :=
  match n with
  | O => mret []
  | S n => r ← Stream_ReadPacket sp; rs ← Stream_ReadMany n sp; mret (r :: rs)
  end.

Lemma Stream_ReadMany_closed n sp s c :
  heap c !! sp = Some s → s_closed s = true →
  (Stream_ReadMany n sp c).1 = Ret (take n ((inl <$> s_stale s) ++ replicate n (inr StreamClosed))).
Proof.
  revert s c. induction n as [|n IH]; intros s c Hs Hcl; [done|]. cbn [Stream_ReadMany].
  assert (deref sp c = (Ret s, c)) as Ed by (unfold deref; by rewrite Hs).
  destruct (s_stale s) as [|p r] eqn:Es.
  - assert (Stream_ReadPacket sp c = (Ret (inr StreamClosed), c)) as E.
    { unfold Stream_ReadPacket, stream_take_stale. rewrite (bind_Ret _ _ _ _ _ Ed), Hcl.
      rewrite (bind_Ret _ _ _ _ _ Ed). by rewrite Es. }
    rewrite (bind_Ret _ _ _ _ _ E). specialize (IH s c Hs Hcl). rewrite Es in IH. unfold mbind, M_bind.
    destruct (Stream_ReadMany n sp c) as [o c']. simpl in *. by subst o.
  - set (s1 := mkStream (id s) (s_closed s) (queue s) r).
    set (c1 := set_heap (<[sp := s1]> (heap c)) c).
    assert (Stream_ReadPacket sp c = (Ret (inl p), c1)) as E.
    { unfold Stream_ReadPacket, stream_take_stale. rewrite (bind_Ret _ _ _ _ _ Ed), Hcl.
      rewrite (bind_Ret _ _ _ _ _ Ed). by rewrite Es. }
    rewrite (bind_Ret _ _ _ _ _ E).
    assert (heap c1 !! sp = Some s1) as Hs1 by (apply list_lookup_insert_eq; by eapply lookup_lt_Some).
    specialize (IH s1 c1 Hs1 Hcl). unfold mbind, M_bind.
    destruct (Stream_ReadMany n sp c1) as [o c']. simpl in *. subst o. simpl. do 2 f_equal.
    rewrite !take_app. f_equal. change (inr StreamClosed :: replicate n (inr StreamClosed)) with (replicate (S n) (inr StreamClosed : Packet + Frisbee.error)).
    rewrite !take_replicate. f_equal. change (list_fmap _ _ inl r) with (inl (B := Frisbee.error) <$> r). lia.
Qed.

(** C25: closing a stream.  On a working connection, [Close] of an open stream
    returns nil, sends the empty STREAM packet that announces the end after
    everything accepted before, and unregisters the stream; from then on the
    stream refuses writes and a second [Close] with [StreamClosed], and sends
    nothing more.  Its unread packets are kept and can still be read, in order,
    and only then does reading fail with [StreamClosed] (the comment on [Close]
    says that it prevents further reads). *)
Theorem stream_close_announces (sp : nat) (s : Stream) (c : Async) (p : Packet) :
  working c → heap c !! sp = Some s → s_closed s = false → is_uint16 (id s) →
  ∃ c', Stream_Close sp c = (Ret None, c') ∧ working c' ∧
    stream_out (out c') = stream_out (out c) ++ end_of_stream (id s) ∧
    streams c' !! id s = None ∧
    (∃ s', heap c' !! sp = Some s' ∧ s_closed s' = true ∧ s_stale s' = items (queue s)) ∧
    (∀ n, (Stream_ReadMany n sp c').1 = Ret (take n ((inl <$> items (queue s)) ++ replicate n (inr StreamClosed)))) ∧
    Stream_WritePacket sp p c' = (Ret (Some StreamClosed, p), c') ∧
    Stream_Close sp c' = (Ret (Some StreamClosed), c').
Proof.
  intros Hw Hs Hsc Hid.
  destruct (Stream_Close_working sp s c Hw Hs Hsc Hid) as (c'&?&?&?&Hst&Hh&_).
  destruct (shut_fields s) as [Hi Hcl].
  assert (heap c' !! sp = Some (shut s)) as Hs'.
  { rewrite Hh. apply list_lookup_insert_eq. by eapply lookup_lt_Some. }
  assert (deref sp c' = (Ret (shut s), c')) as Ed by (unfold deref; by rewrite Hs').
  exists c'. split_and!; try done.
  - by rewrite Hst, lookup_delete_eq.
  - exists (shut s). split_and!; [done..|apply shut_stale].
  - intros n. rewrite (Stream_ReadMany_closed n sp (shut s) c') by done. by rewrite shut_stale.
  - unfold Stream_WritePacket. rewrite (bind_Ret _ _ _ _ _ Ed). by rewrite Hcl.
  - unfold Stream_Close, closeSend, closeSend_body. rewrite (bind_Ret _ _ _ _ _ Ed). by rewrite Hcl.
Qed.

(** C40: [Error] does not keep the cause of the close.  Let a connection be closed
    because of an error [e] that is neither [ConnectionClosed] nor joined from it.
    [Error] reports [e]; but a later [Flush] (as the flush loop does when it still
    finds a signal) returns [ConnectionClosed] joined with itself, which is then
    what [Error] reports, and in which [e] does not occur any more. *)
Theorem late_flush_hides_cause (e : Frisbee.error) (c : Async) :
  async_ok c → closed c = false → errors_Is e ConnectionClosed = false →
  let joined := Join ConnectionClosed ConnectionClosed in
  ∃ c1 c2, closeWithError e c = (Ret e, c1) ∧ Error c1 = Some e ∧
    Flush c1 = (Ret (Some joined), c2) ∧ Error c2 = Some joined ∧ errors_Is joined e = false.
Proof.
  intros Hc Ho Hne joined. destruct (closeWithError_open 1 e c Hc Ho) as (c1&E&(_&Hcl&Her&_)).
  exists c1, (set_error (Some joined) c1). split_and!; try done.
  - unfold Flush. assert (flush c1 = (Ret (Some ConnectionClosed), c1)) as Ef.
    { unfold flush. rewrite (bind_Ret get _ c1 c1 c1) by done. by rewrite Hcl. }
    rewrite (bind_Ret _ _ _ _ _ Ef). unfold closeWithError, close.
    by rewrite (bind_Ret _ _ _ _ _ (closeWithError_closed closeSend ConnectionClosed c1 Hcl)).
  - unfold joined. cbn [errors_Is]. rewrite !bool_decide_false; [done|by intros <-..].
Qed.

End spec.

(** ** Witnesses *)

Import concrete.

Lemma fresh_working : working (fresh_conn []).
Proof. split_and!; try done. apply fresh_conn_ok. Qed.

Lemma busy_working : working busy_conn.
Proof. split_and!; try done. apply busy_conn_ok. Qed.

Lemma async_safety_witness :
  ∃ c', run_ops [OpNewStream 3; OpStreamClose 0; OpWrite hello; OpFlushLoop; OpClose; OpRead]
      (NewAsync (mkWConn [] [Some (4, IOError 32)] [] false) None ([] : list Packet) ([] : list (list byte)))
    = (Ret tt, c') ∧ async_ok c' ∧
    later (NewAsync (mkWConn [] [Some (4, IOError 32)] [] false) None ([] : list Packet) ([] : list (list byte))) c'.
Proof. apply async_safety; [done|apply no_members|apply no_members]. Defined.

Lemma WritePacket_correct_witness :
  ∃ c', WritePacket hello (fresh_conn []) = (Ret None, c') ∧ working c' ∧ same_data (fresh_conn []) c' ∧
    stream_out (out c') = stream_out (out (fresh_conn [])) ++ frame hello ∧ 1 ≤ ch_len (flushCh c').
Proof.
  exact (WritePacket_correct hello (fresh_conn []) (fresh_conn_ok []) (proj1 hello_sendable) fresh_working).
Defined.

(** A socket that refuses the write deadline. *)
Lemma WritePacket_failure_witness :
  match WritePacket hello (set_out (mkOut (mkWConn [] [] [Some (IOError 32)] false) (mkWriter [] None DefaultBufferSize))
          (fresh_conn [])) with
  | (Ret None, c') => closed c' = false
  | (Ret (Some e), c') => closed c' = true ∧ Error c' = Some e ∧ conn_closed (aconn c') = true
  | _ => False
  end.
Proof.
  apply WritePacket_failure; try done.
  apply async_ok_out; [apply fresh_conn_ok|done|done|done].
Defined.

Lemma written_packet_reaches_wire_witness :
  ∃ c1 c2, WritePacket hello (fresh_conn []) = (Ret None, c1) ∧ flushLoop_turn c1 = (Ret Continue, c2) ∧
    wire (aconn c2) = stream_out (out (fresh_conn [])) ++ frame hello.
Proof. apply written_packet_reaches_wire; [apply fresh_working|apply hello_sendable|done]. Defined.

Lemma close_graceful_witness :
  ∃ c', Close busy_conn = (Ret None, c') ∧ closed c' = true ∧ conn_closed (aconn c') = true ∧
    wire (aconn c') = stream_out (out busy_conn) ∧ Error c' = Error busy_conn ∧ Close c' = (Ret None, c') ∧
    (ReadN 3 c').1 = Ret [inl hello; inr ConnectionClosed; inr ConnectionClosed].
Proof. apply (close_graceful busy_conn 2). apply busy_working. Defined.

(** The stream of [busy_conn] with a packet that nobody has read. *)
Definition unread_stream : Stream :=
  mkStream 5 false (mkListQueue [hello] false DefaultStreamBufferSize : Queue Packet) [].

Definition unread_conn : Async := set_heap [unread_stream] busy_conn.

Lemma unread_working : working unread_conn.
Proof.
  split_and!; try done. destruct busy_conn_ok. split; try done.
  - intros i sp. simpl. intros [<- <-]%lookup_singleton_Some. eexists. by split.
  - intros sp s. simpl. by intros [_ <-]%list_lookup_singleton_Some.
  - intros sp s. simpl. by intros [_ <-]%list_lookup_singleton_Some.
Qed.

Lemma stream_close_announces_witness :
  ∃ c', Stream_Close 0 unread_conn = (Ret None, c') ∧ working c' ∧
    stream_out (out c') = stream_out (out unread_conn) ++ end_of_stream 5 ∧
    streams c' !! 5 = None ∧
    (∃ s', heap c' !! 0%nat = Some s' ∧ s_closed s' = true ∧ s_stale s' = [hello]) ∧
    (Stream_ReadMany 2 0 c').1 = Ret [inl hello; inr StreamClosed] ∧
    Stream_WritePacket 0 hello c' = (Ret (Some StreamClosed, hello), c') ∧
    Stream_Close 0 c' = (Ret (Some StreamClosed), c').
Proof.
  destruct (stream_close_announces 0 unread_stream unread_conn hello) as (c'&?&?&?&?&?&Hr&?&?); try done.
  { apply unread_working. }
  exists c'. split_and!; try done.
Defined.

Lemma late_flush_hides_cause_witness :
  ∃ c1 c2, closeWithError (IOError 104) busy_conn = (Ret (IOError 104), c1) ∧
    Error c1 = Some (IOError 104) ∧
    Flush c1 = (Ret (Some (Join ConnectionClosed ConnectionClosed)), c2) ∧
    Error c2 = Some (Join ConnectionClosed ConnectionClosed) ∧
    errors_Is (Join ConnectionClosed ConnectionClosed) (IOError 104) = false.
Proof. apply late_flush_hides_cause; try done. apply busy_conn_ok. Defined.

End async_spec.
