(* ===== verification/ReadLoop.v ===== *)
(** * The read loop (async.go, [readLoop])

    The goroutine that reads the socket into a buffer, cuts it into packets and
    delivers them.  The model keeps the loop's own variables: the buffer, the
    indices [index] and [n] of its unread part, and the three locals of the
    STREAM case, which survive from one packet to the next unless reset.  The
    reading side of the socket is a script (see [GoStd]); the connection is the
    state of [Async].  Every slice expression is bounds-checked.

    Its specification, on plain byte strings, is in [ReadSpec]. *)

From S2P Require Import Prelude Frisbee GoStd Interfaces Metadata Packet Async AsyncSpec Concrete.

Module read_loop.
Import metadata packet async async_spec.

Section read_loop.
Context {G : Globals} {PB : Polyglot} {CQ : CircularQueue} {PP : PacketPool} {BP : BufferPool}.

(** The variables [isStream], [stream] and [newStreamHandler]. *)
Record locals := mkLocals {
  isStream : bool;
  stream : option nat;
  handler : option Z;
}.

Definition reset_locals : locals := mkLocals false None None.

(** The buffer, always resliced to its capacity, and its unread part. *)
Record reader := mkReader {
  rx : script;
  rdeadlines : deadlines;
  buf : list byte;
  index : Z;
  n : Z;
}.

(** Every error exit of the loop. *)
Definition fail_loop (err : Frisbee.error) : M Async Frisbee.error :=
  _ ← closeWithError err; mret err.

(** Going on after one of the loops that read from the socket. *)
Definition after_fill (r : fill_result)
    (k : list byte → Z → script → deadlines → M Async Frisbee.error) : M Async Frisbee.error :=
  match r with
  | Filled b n s ds => k b n s ds
  | FillFailed _ err => fail_loop err
  | FillBlocked => blockM
  | FillPanic => panicM IndexOutOfRange
  | FillSpin => out_of_fuel
  end.

(** A fresh read of at least a header into the whole buffer. *)
Definition read_header (st : reader) (k : reader → M Async Frisbee.error) : M Async Frisbee.error :=
  if len (buf st) <? Size then fail_loop InvalidBufferLength
  else
    after_fill (fill (rx st) (rdeadlines st) (buf st) 0 0 Size)
      (λ b n s ds, k (mkReader s ds b 0 n)).

(** After a packet: read again when everything was consumed, complete a partial
    header when there is one. *)
Definition refill (st : reader) (k : reader → M Async Frisbee.error) : M Async Frisbee.error :=
  if n st =? index st then read_header st k
  else if n st - index st <? Size then
    rest ← or_panic (slice (buf st) (index st) (n st)) IndexOutOfRange;
    let b := splice (buf st) 0 rest in
    let index := n st - index st in
    let minSize := Size - index in
    if len b <? minSize then fail_loop InvalidBufferLength
    else
      after_fill (fill (rx st) (rdeadlines st) b index 0 minSize)
        (λ b n s ds, k (mkReader s ds b 0 (n + index)))
  else k st.

(** [for cap(buf) < minSize { buf = append(buf[:cap(buf)], 0) }]. *)
Fixpoint grow_buf (fuel : nat) (b : list byte) (minSize : Z) : option (list byte) :=
  if len b <? minSize then
    match fuel with
    | O => None
    | S fuel => grow_buf fuel (b ++ replicate (Z.to_nat (append_cap (len b) - len b)) Byte.x00) minSize
    end
  else Some b.

(** The content of a packet, from the buffer or partly from the socket. *)
Definition read_content (p : Packet) (st : reader)
    (k : Packet → reader → M Async Frisbee.error) : M Async Frisbee.error :=
  let cl := ContentLength (Metadata p) in
  if cl >? 0 then
    if n st - index st <? cl then
      part ← or_panic (slice (buf st) (index st) (n st)) IndexOutOfRange;
      let '(written, content) := Write (Content p) part in
      let minSize := cl - written in
      match grow_buf (Z.to_nat (minSize - len (buf st))) (buf st) minSize with
      | None => out_of_fuel
      | Some b =>
          after_fill (fill (rx st) (rdeadlines st) b 0 0 minSize)
            (λ b n s ds,
               part ← or_panic (slice b 0 minSize) IndexOutOfRange;
               k (set_Content (Write content part).2 p) (mkReader s ds b minSize n))
      end
    else
      part ← or_panic (slice (buf st) (index st) (index st + cl)) IndexOutOfRange;
      let '(written, content) := Write (Content p) part in
      k (set_Content content p) (mkReader (rx st) (rdeadlines st) (buf st) (index st + written) (n st))
  else k p st.

(** The STREAM case, before it falls through. *)
Definition route_stream (m : metadata.Metadata) (lc : locals) : M Async locals :=
  c ← get;
  let h := newStreamHandler c in
  mret (mkLocals true
          (if bool_decide (h ≠ None) || (ContentLength m =? 0) then streams c !! Id m else stream lc) h).

(** The delivery of a complete packet: its error closes the connection. *)
Definition deliver (lc : locals) (p : Packet) : M Async (option Frisbee.error) :=
  let m := Metadata p in
  if negb (isStream lc) then on_incoming (Push p)
  else if ContentLength m =? 0 then
    (match stream lc with
     | Some sp => Stream_close sp;; modify (λ c, set_streams (delete (Id m) (streams c)) c)
     | None => mret tt
     end);;
    packet_Put p;;
    mret None
  else
    match handler lc with
    | None => packet_Put p;; mret None
    | Some h =>
        sp ← (match stream lc with
              | Some sp => mret sp
              | None =>
                  sp ← register_stream (Id m);
                  modify (λ c, set_spawned (spawned c ++ [(h, sp)]) c);;
                  mret sp
              end);
        on_queue sp (Push p)
    end.

(** One header, read and checked. *)
Definition read_metadata (st : reader) : M Async Packet :=
  p ← packet_Get;
  m ← (match read_fields (buf st) (index st) (Metadata p) with
       | (Ret _, m) => mret m
       | _ => panicM IndexOutOfRange
       end);
  mret (set_Metadata m p).

(** The loop over packets.  When its condition fails the enclosing loop starts
    over with a fresh read. *)
Fixpoint packets (fuel : nat) (st : reader) (lc : locals) : M Async Frisbee.error :=
  match fuel with
  | O => out_of_fuel
  | S fuel =>
      if index st <? n st then
        p ← read_metadata st;
        let m := Metadata p in
        let st := mkReader (rx st) (rdeadlines st) (buf st) (index st + Size) (n st) in
        if negb (Magic m =? PacketMagicHeader) then fail_loop InvalidMagicHeader
        else if exceeds_max (ContentLength m) then fail_loop ContentLengthExceeded
        else if Operation m =? PING then
          err ← writePacket PONGPacket false;
          match err with
          | Some err => fail_loop err
          | None => packet_Put p;; refill st (λ st, packets fuel st lc)
          end
        else if Operation m =? PONG then
          packet_Put p;; refill st (λ st, packets fuel st lc)
        else
          lc ← (if Operation m =? STREAM then route_stream m lc else mret lc);
          read_content p st (λ p st,
            err ← deliver lc p;
            match err with
            | Some err => fail_loop err
            | None => refill st (λ st, packets fuel st reset_locals)
            end)
      else read_header st (λ st, packets fuel st lc)
  end.

(** [readLoop()]: each turn consumes a header at least. *)
Definition readLoop_with (size : Z) (s : script) (ds : deadlines) : M Async Frisbee.error :=
  packets (S (S (length (script_bytes s))))
    (mkReader s ds (replicate (Z.to_nat size) Byte.x00) 0 0) reset_locals.

Definition readLoop : script → deadlines → M Async Frisbee.error := readLoop_with DefaultBufferSize.

(** ** Safety, whatever arrives *)

Context `{!GlobalsLaws G} `{!PolyglotLaws PB} `{!CircularLaws CQ} `{!PoolLaws PP} `{!PoolLaws BP}.

(** [good c0 m c]: run from [c], reached from [c0], [m] keeps the invariant. *)
Definition good {A} c0 (m : M Async A) c : Prop :=
  wp m (λ _, moved async_ok later c0) (moved async_ok later c0) c.

(** How the loop ends: with the connection closed, and [e] recorded as the cause,
    or joined to an earlier one. *)
Definition ended (e : Frisbee.error) (c : Async) : Prop :=
  closed c = true ∧ ∃ e', error c = Some e' ∧ errors_Is e' e = true.

(** [loops c0 m c]: [good], and when [m] returns the loop has ended. *)
Definition loops c0 (m : M Async Frisbee.error) c : Prop :=
  wp m (λ e c', moved async_ok later c0 c' ∧ ended e c') (moved async_ok later c0) c.

Lemma fail_loop_loops e c0 c : async_ok c → later c0 c → loops c0 (fail_loop e) c.
Proof.
  intros Hc Hl. pose proof (closeWithError_keeps e c Hc) as Hk. apply wp_bind. unfold wp in *.
  destruct (closed c) eqn:Ho.
  - assert (closeWithError e c = (Ret (Join ConnectionClosed e), set_error (Some (Join ConnectionClosed e)) c)) as E
      by (by apply closeWithError_closed).
    rewrite E in *. destruct Hk as [? ?]. split; [split; [done|by etrans]|]. split; [done|]. eexists. split; [done|].
    cbn [errors_Is]. rewrite errors_Is_refl. by rewrite !orb_true_r.
  - destruct (closeWithError_open 1 e c Hc Ho) as (c'&E&(_&?&?&_)).
    change (closeWithError e c = (Ret e, c')) in E. rewrite E in *. destruct Hk as [? ?].
    split; [split; [done|by etrans]|]. split; [done|]. exists e. split; [done|apply errors_Is_refl].
Qed.

(** The unread part lies within the buffer. *)
Definition in_bounds (st : reader) : Prop :=
  0 ≤ index st ∧ index st ≤ n st ∧ n st ≤ len (buf st) ∧ Size ≤ len (buf st).

(** At the top of the loop it holds a header at least. *)
Definition has_header (st : reader) : Prop := in_bounds st ∧ index st + Size ≤ n st.

(** The bytes not yet consumed. *)
Definition unread (st : reader) : Z := n st - index st + len (script_bytes (rx st)).

Lemma read_header_loops st k c0 c :
  in_bounds st → n st = index st → async_ok c → later c0 c →
  (∀ st', has_header st' → unread st' = unread st → loops c0 (k st') c) →
  loops c0 (read_header st k) c.
Proof.
  intros (?&?&?&Hs) Hn Hc Hl Hk. unfold read_header.
  replace (len (buf st) <? Size) with false by lia.
  pose proof (fill_safe (rx st) (rdeadlines st) (buf st) 0 0 Size) as Hf.
  assert (Size = 10) as HS by done.
  destruct (fill _ _ _ _ _ _) as [b n' s ds|? err| | |]; simpl; try (exfalso; apply Hf; lia).
  - destruct Hf as (?&?&?&?&?); [lia..|]. apply Hk; [split; [split_and!|]|]; unfold unread; simpl; lia.
  - by apply fail_loop_loops.
  - by split.
Qed.

Lemma refill_loops st k c0 c :
  in_bounds st → async_ok c → later c0 c →
  (∀ st', has_header st' → unread st' = unread st → loops c0 (k st') c) →
  loops c0 (refill st k) c.
Proof.
  intros Hb Hc Hl Hk. pose proof Hb as (?&?&?&Hs). unfold refill.
  destruct (Z.eqb_spec (n st) (index st)); [by apply read_header_loops|].
  destruct (Z.ltb_spec (n st - index st) Size); [|by apply Hk; [split|]; [done|lia|]].
  rewrite slice_Some by lia. apply wp_bind, wp_ret.
  assert (len (sub (buf st) (index st) (n st)) = n st - index st) as Hls by (rewrite len_sub; lia).
  assert (len (splice (buf st) 0 (sub (buf st) (index st) (n st))) = len (buf st)) as Hlb
    by (rewrite len_splice; lia).
  rewrite Hlb. replace (len (buf st) <? Size - (n st - index st)) with false by lia.
  pose proof (fill_safe (rx st) (rdeadlines st) (splice (buf st) 0 (sub (buf st) (index st) (n st)))
    (n st - index st) 0 (Size - (n st - index st))) as Hf. rewrite Hlb in Hf.
  destruct (fill _ _ _ _ _ _) as [b n' s ds|? err| | |]; simpl; try (exfalso; apply Hf; lia).
  - destruct Hf as (?&?&?&?&?); [lia..|]. apply Hk; [split; [split_and!|]|]; unfold unread; simpl; lia.
  - by apply fail_loop_loops.
  - by split.
Qed.

Lemma grow_buf_Some fuel b minSize :
  minSize - len b ≤ Z.of_nat fuel →
  ∃ b', grow_buf fuel b minSize = Some b' ∧ minSize ≤ len b' ∧ len b ≤ len b'.
Proof.
  revert b. induction fuel as [|fuel IH]; intros b Hf; simpl.
  { replace (len b <? minSize) with false by lia. exists b. split_and!; done || lia. }
  destruct (Z.ltb_spec (len b) minSize); [|exists b; split_and!; done || lia].
  pose proof (append_cap_grows (len b) (len_nonneg b)) as Hg.
  assert (len (b ++ replicate (Z.to_nat (append_cap (len b) - len b)) Byte.x00) = append_cap (len b)) as Hl
    by (rewrite len_app, len_replicate; lia).
  destruct (IH (b ++ replicate (Z.to_nat (append_cap (len b) - len b)) Byte.x00)) as (b'&E&?&?); [lia|].
  exists b'. split_and!; [done|lia..].
Qed.

Lemma read_content_loops p st k c0 c :
  in_bounds st → async_ok c → later c0 c → 0 ≤ ContentLength (Metadata p) → Bytes (Content p) = [] →
  (∀ p' st', Metadata p' = Metadata p → len (Bytes (Content p')) = ContentLength (Metadata p) →
     in_bounds st' → unread st' ≤ unread st → loops c0 (k p' st') c) →
  loops c0 (read_content p st k) c.
Proof.
  intros Hb Hc Hl Hcl Hbl Hk. pose proof Hb as (?&?&?&Hs). unfold read_content.
  destruct (Z.gtb_spec (ContentLength (Metadata p)) 0) as [Hpos|]; [|apply Hk; [done|rewrite Hbl, len_nil; lia|done..]].
  destruct (Z.ltb_spec (n st - index st) (ContentLength (Metadata p))) as [Hlt|Hge].
  - rewrite slice_Some by lia. apply wp_bind, wp_ret.
    pose proof (Write_count (Content p) (sub (buf st) (index st) (n st))) as Hw.
    pose proof (Write_Bytes (Content p) (sub (buf st) (index st) (n st))) as Hwb.
    destruct (Write (Content p) _) as [w content]. simpl in Hw, Hwb. subst w.
    rewrite len_sub by lia. set (minSize := _ - (n st - index st)).
    destruct (grow_buf_Some (Z.to_nat (minSize - len (buf st))) (buf st) minSize) as (b&->&?&?); [lia|].
    pose proof (fill_safe (rx st) (rdeadlines st) b 0 0 minSize) as Hf.
    destruct (fill _ _ _ _ _ _) as [b' n' s ds|? err| | |]; simpl; try (exfalso; apply Hf; lia).
    + destruct Hf as (?&?&?&?&?); [lia..|]. rewrite slice_Some by lia. apply wp_bind, wp_ret.
      apply Hk; [done| |split_and!; simpl; lia|unfold unread; simpl; lia]. simpl.
      rewrite Write_Bytes, Hwb, Hbl, app_nil_l, len_app, !len_sub by lia. lia.
    + by apply fail_loop_loops.
    + by split.
  - rewrite slice_Some by lia. apply wp_bind, wp_ret.
    pose proof (Write_count (Content p) (sub (buf st) (index st) (index st + ContentLength (Metadata p)))) as Hw.
    pose proof (Write_Bytes (Content p) (sub (buf st) (index st) (index st + ContentLength (Metadata p)))) as Hwb.
    destruct (Write (Content p) _) as [w content]. simpl in Hw, Hwb. subst w. rewrite len_sub by lia.
    apply Hk; [done| |split_and!; simpl; lia|unfold unread; simpl; lia]. simpl.
    rewrite Hwb, Hbl, app_nil_l, len_sub by lia. lia.
Qed.

(** *** Delivery *)

(** The locals belong to the header [m]: the pointer, if any, points to the stream
    of that identifier. *)
Definition points_to (sp : nat) (i : Z) (c : Async) : Prop := ∃ s, heap c !! sp = Some s ∧ id s = i.

Definition locals_ok (m : metadata.Metadata) (lc : locals) (c : Async) : Prop :=
  isStream lc = (Operation m =? STREAM) ∧ ∀ sp, stream lc = Some sp → points_to sp (Id m) c.

Lemma points_to_lasting sp i : lasting (points_to sp i).
Proof. intros c c' (_&_&[Hh _]&_) (s&Hs&<-). destruct (Hh _ _ Hs) as (s'&?&?&_). by exists s'. Qed.

Lemma points_to_valid sp i c : points_to sp i c → valid sp c.
Proof. intros (s&?&_). by exists s. Qed.

Lemma route_stream_eq m c :
  async_ok c → Operation m = STREAM → ∃ lc, route_stream m reset_locals c = (Ret lc, c) ∧ locals_ok m lc c.
Proof.
  intros Hc Hm. eexists. split; [reflexivity|]. split; [by rewrite Hm|]. intros sp. simpl.
  destruct (_ || _); [|done]. apply (ok_streams c Hc).
Qed.

(** Appending to a queue leaves it alone (it is closed, or full and the caller
    waits) or finds room in it. *)
Definition pushed {T} (x : T) (q q' : Queue T) : Prop :=
  queue_closed q = false ∧ len (items q) < capacity q ∧
  items q' = items q ++ [x] ∧ queue_closed q' = false ∧ capacity q' = capacity q.

Lemma Push_wp {T} (x : T) (q : Queue T) :
  wp (Push x) (λ _ q', q' = q ∨ pushed x q q') (λ q', q' = q ∨ pushed x q q') q.
Proof.
  unfold wp. destruct (queue_closed q) eqn:E; [rewrite Push_closed by done; by left|].
  destruct (decide (len (items q) < capacity q)) as [Hlt|Hlt].
  - destruct (Push_room x q E Hlt) as (q'&->&?&?&?). by right.
  - rewrite Push_full by (done || lia). by left.
Qed.

Lemma Push_incoming_keeps p : ordinary p → keeps (on_incoming (Push p)).
Proof.
  intros Hp c Hc.
  assert (∀ q', q' = incoming c ∨ pushed p (incoming c) q' → moved async_ok later c (set_incoming q' c)) as Hmv.
  { intros q' [->|(Hq&Hlt&Hi&Hq'&Hcap)]; [by destruct c|]. destruct Hc.
    assert (closed c = false) as Ho by (destruct (closed c); [|done]; destruct ok_closed0 as (_&_&?&_); congruence).
    destruct (ok_open0 Ho) as (?&?&?&?&Hst). specialize (ok_capacity0 Ho).
    split; [|split_and!; try done; apply gains_app_l; simpl; rewrite Hi; by apply gains_app].
    split; try done; simpl; try congruence.
    unfold arrived. simpl. rewrite Hst, Hi, app_nil_l, len_app, len_cons, len_nil. lia. }
  apply wp_zoom. eapply wp_mono; [apply Push_wp|..]; auto.
Qed.

Lemma Push_stream_keeps sp i p : of_stream i p → keeps_in (points_to sp i) (on_queue sp (Push p)).
Proof.
  intros Hp c [Hc Hv]. pose proof Hv as (s&Hs&<-). apply (on_queue_wp _ s); [done|].
  pose proof (ok_heap c Hc _ _ Hs) as Hok. pose proof (ok_unread c Hc _ _ Hs) as [Hb Hcp].
  assert (∀ q, q = queue s ∨ pushed p (queue s) q →
    moved (within (points_to sp (id s))) later c
      (set_heap (<[sp := mkStream (id s) (s_closed s) q (s_stale s)]> (heap c)) c)) as Hmv.
  { intros q Hq. set (s' := mkStream _ _ _ _).
    destruct (store_moved sp s s' c) as [? [? _]]; [done..| | | |].
    - apply gains_app_l. destruct Hq as [->|(_&_&Hi&_)]; simpl; [done|]. rewrite Hi. by apply gains_app.
    - destruct Hq as [->|(Hq&_&_&Hq'&_)]; [done|]. unfold stream_ok, s' in *. simpl.
      destruct (s_closed s), Hok; [congruence|done].
    - destruct Hq as [->|(Hq&Hlt&Hi&Hq'&Hcap)]; [done|]. unfold stream_ok in Hok.
      destruct (s_closed s) eqn:Hcl; [destruct Hok; congruence|]. specialize (Hcp eq_refl). destruct Hok as [_ Hst].
      split; [|simpl; congruence].
      unfold unread_on, s'. simpl. rewrite Hst, Hi, app_nil_l, len_app, len_cons, len_nil. lia.
    - split; [split; [done|by eapply points_to_lasting]|done]. }
  eapply wp_mono; [apply Push_wp|..]; auto.
Qed.

(** Where a fact [D] holds, in the terms of [good]. *)
Lemma good_in {A} D (m : M Async A) c0 c :
  keeps_in D m → async_ok c → D c → later c0 c → good c0 m c.
Proof.
  intros Hm Hc Hv Hl. unfold good. eapply wp_mono; [by apply Hm|..]; unfold moved, within; simpl.
  - intros _ c' [[? _] ?]. split; [done|by etrans].
  - intros c' [[? _] ?]. split; [done|by etrans].
Qed.

Lemma good_bind {A B} c0 c (m : M Async A) (k : A → M Async B) :
  good c0 m c → (∀ a c', async_ok c' → later c0 c' → good c0 (k a) c') → good c0 (m ≫= k) c.
Proof.
  intros Hm Hk. apply wp_bind. eapply wp_mono; [exact Hm|simpl|done]. intros a c' [? ?]. by apply Hk.
Qed.

Lemma loops_bind {A} c0 c (m : M Async A) (k : A → M Async Frisbee.error) :
  good c0 m c → (∀ a c', async_ok c' → later c0 c' → loops c0 (k a) c') → loops c0 (m ≫= k) c.
Proof.
  intros Hm Hk. apply wp_bind. eapply wp_mono; [exact Hm|simpl|done]. intros a c' [? ?]. by apply Hk.
Qed.

Lemma good_keeps {A} c0 c (m : M Async A) : keeps m → async_ok c → later c0 c → good c0 m c.
Proof. apply wp_keeps_from. Qed.

(** A packet read from the wire goes where it belongs. *)
Lemma deliver_good lc p c0 c :
  async_ok c → locals_ok (Metadata p) lc c → well_formed p → Operation (Metadata p) ≠ PING →
  Operation (Metadata p) ≠ PONG → later c0 c → good c0 (deliver lc p) c.
Proof.
  intros Hc [Hst Hlc] Hwf Hp1 Hp2 Hl. unfold deliver. rewrite Hst.
  destruct (Z.eqb_spec (Operation (Metadata p)) STREAM) as [Hop|Hop]; cbn [negb].
  2:{ apply good_keeps; [by apply Push_incoming_keeps|done..]. }
  destruct (Z.eqb_spec (ContentLength (Metadata p)) 0) as [E0|E0].
  - apply good_bind.
    + destruct (stream lc) as [sp|] eqn:Es; [|by apply good_keeps; [apply preserves_ret, _|..]].
      apply good_bind.
      { eapply (good_in (valid sp)); [apply Stream_close_keeps|done|eapply points_to_valid; eauto|done]. }
      intros _ c1 Hc1 Hl1. by apply good_keeps; [apply delete_stream_keeps|..].
    + intros _ c1 Hc1 Hl1. apply good_keeps; [|done..].
      pose proof (calm_keeps _ (packet_Put_calm p)). preserve.
  - assert (of_stream (Id (Metadata p)) p) as Hos.
    { split_and!; try done. destruct Hwf as (_&_&E&_). pose proof (len_nonneg (Bytes (Content p))). lia. }
    destruct (handler lc) as [h|].
    2:{ apply good_keeps; [|done..]. pose proof (calm_keeps _ (packet_Put_calm p)). preserve. }
    destruct (stream lc) as [sp|] eqn:Es.
    { apply wp_bind, wp_ret. eapply good_in; [by apply Push_stream_keeps|..]; auto. }
    apply wp_bind, wp_bind.
    destruct (register_stream_moved (Id (Metadata p)) c Hc) as (c1&E&[Hc1 [Hl1 _]]&Hh&_).
    unfold wp at 1. rewrite E. apply wp_bind, wp_modify, wp_ret.
    eapply good_in; [by apply Push_stream_keeps|by destruct Hc1|..].
    + eexists. simpl. rewrite Hh, lookup_app_r, Nat.sub_diag by done. done.
    + etrans; [exact Hl|]. etrans; [exact Hl1|]. by split_and!.
Qed.

(** *** The loop *)

Lemma packet_Get_eq c : async_ok c →
  ∃ p c1, packet_Get c = (Ret p, c1) ∧ blank p ∧ moved async_ok still c c1.
Proof.
  intros Hc. pose proof (packet_Get_calm c Hc) as Hw. unfold wp in Hw.
  destruct (Get_blank (pool c) (ok_pool c Hc)) as [Hb _].
  unfold packet_Get in *. destruct (Get (pool c)) as [p pl]. eauto.
Qed.

Lemma read_metadata_eq st c :
  has_header st → async_ok c →
  ∃ m p c1, decoded (buf st) (index st) = Some m ∧ wf_metadata m ∧ packet_Get c = (Ret p, c1) ∧
    blank p ∧ moved async_ok still c c1 ∧ read_metadata st c = (Ret (set_Metadata m p), c1).
Proof.
  intros [(?&?&?&?) ?] Hc. destruct (decoded_total (buf st) (index st)) as (m&Hm&Hwf); [lia..|].
  destruct (packet_Get_eq c Hc) as (p&c1&E&Hb&Hmv). exists m, p, c1. split_and!; try done.
  unfold read_metadata. rewrite (bind_Ret _ _ _ _ _ E).
  by rewrite (read_fields_decoded _ _ _ _ Hm).
Qed.

Lemma packets_loops fuel st c0 c :
  (has_header st ∧ unread st < Z.of_nat fuel ∨
   in_bounds st ∧ n st = index st ∧ unread st < Z.of_nat fuel - 1) →
  async_ok c → later c0 c → loops c0 (packets fuel st reset_locals) c.
Proof.
  revert st c. induction fuel as [|fuel IH]; intros st c Hst Hc Hl.
  { pose proof (len_nonneg (script_bytes (rx st))).
    unfold unread, has_header, in_bounds in Hst. lia. }
  assert (Size = 10) as HS by done. cbn [packets].
  destruct (Z.ltb_spec (index st) (n st)) as [Hlt|Hge].
  2:{ destruct Hst as [[[_ ?] _]|(Hb&?&?)]; [lia|]. apply read_header_loops; [done..|].
      intros st' ? ?. apply IH; [left; split; [done|lia]|done..]. }
  destruct Hst as [[Hh Hu]|(?&?&?)]; [|lia]. pose proof Hh as [(?&?&?&?) ?].
  destruct (read_metadata_eq st c Hh Hc) as (m&p&c1&_&Hwf&_&[= _ Hblank]&[Hc1 [Hl1 _]]&E).
  pose proof Hwf as (_&_&_&Hcl).
  assert (later c0 c1) as Hl01 by (by etrans). unfold in_width in Hcl.
  apply wp_bind. unfold wp at 1. rewrite E. cbv zeta.
  change (Metadata (set_Metadata m p)) with m.
  set (st1 := mkReader _ _ _ _ _). assert (in_bounds st1) as Hb1 by (split_and!; simpl; lia).
  assert (unread st1 = unread st - Size) as Hu1 by (unfold unread; simpl; lia).
  assert (∀ st2 c2, in_bounds st2 → unread st2 ≤ unread st1 → async_ok c2 → later c0 c2 →
    loops c0 (refill st2 (λ st, packets fuel st reset_locals)) c2) as Hnext.
  { intros st2 c2 ? ? ? ?. apply refill_loops; [done..|]. intros st3 ? ?.
    apply IH; [left; split; [done|lia]|done..]. }
  destruct (Z.eqb_spec (Magic m) PacketMagicHeader) as [Hmg|]; cbn [negb]; [|by apply fail_loop_loops].
  destruct (exceeds_max _) eqn:Hmax; [by apply fail_loop_loops|].
  destruct (Z.eqb_spec (Operation m) PING) as [_|Hp1].
  { apply loops_bind; [apply good_keeps; [apply writePacket_keeps|done..]|]. intros [e|] c2 ? ?;
      [by apply fail_loop_loops|].
    apply loops_bind; [apply good_keeps; [apply calm_keeps, packet_Put_calm|done..]|]. intros _ c3 ? ?.
    by apply Hnext. }
  destruct (Z.eqb_spec (Operation m) PONG) as [_|Hp2].
  { apply loops_bind; [apply good_keeps; [apply calm_keeps, packet_Put_calm|done..]|]. intros _ c2 ? ?.
    by apply Hnext. }
  assert (∃ lc, (if Operation m =? STREAM then route_stream m reset_locals else mret reset_locals) c1
      = (Ret lc, c1) ∧ locals_ok m lc c1) as (lc&Elc&Hlc).
  { destruct (Z.eqb_spec (Operation m) STREAM); [by apply route_stream_eq|].
    eexists. split; [done|]. split; [|done]. symmetry. by apply Z.eqb_neq. }
  apply wp_bind. unfold wp at 1. rewrite Elc.
  apply read_content_loops; [done..|simpl; lia|done|]. intros p2 st2 Hm2 Hl2 Hb2 Hu2. cbn in Hm2, Hl2.
  assert (well_formed p2) by (unfold well_formed; by rewrite Hm2, Hl2).
  apply loops_bind; [by apply deliver_good; rewrite ?Hm2|]. intros [e|] c3 ? ?; [by apply fail_loop_loops|by apply Hnext].
Qed.

Lemma readLoop_with_loops size s ds c :
  Size ≤ size → async_ok c → loops c (readLoop_with size s ds) c.
Proof.
  intros Hs Hc. unfold readLoop_with. apply packets_loops; [|done..].
  right. unfold in_bounds, unread. cbn [index n buf rx].
  assert (0 ≤ size) by (assert (Size = 10) by done; lia).
  rewrite len_replicate by done. split_and!; try done. unfold len. lia.
Qed.

(** C3: the read loop is memory-safe and makes progress.  Whatever the peer
    sends, however it is cut, and whatever errors the socket reports: no slice
    expression is out of range, no inner loop spins, the loop consumes input
    with every turn (its fuel, the number of bytes, suffices); it waits for input
    with the invariant intact, or it ends, and then the connection is closed and
    the error the loop ended with is, or is joined to, what [Error] reports. *)
Theorem readLoop_safety (s : script) (ds : deadlines) (c : Async) :
  async_ok c →
  match readLoop s ds c with
  | (Ret e, c') =>
      async_ok c' ∧ later c c' ∧ closed c' = true ∧ ∃ e', Error c' = Some e' ∧ errors_Is e' e = true
  | (Block, c') => async_ok c' ∧ later c c'
  | (Panic _, _) | (OutOfFuel, _) => False
  end.
Proof.
  intros Hc. assert (Size ≤ DefaultBufferSize) as Hs by done.
  unfold readLoop. generalize dependent DefaultBufferSize. intros size Hs.
  pose proof (readLoop_with_loops size s ds c Hs Hc) as H. unfold loops, wp in H.
  destruct (readLoop_with size s ds c) as [[] ?]; try done. by destruct H as [[? ?] [? ?]].
Qed.

End read_loop.

Import concrete.

(** A peer that sends a frame in two pieces and breaks the connection. *)
Lemma readLoop_safety_witness :
  let s := [(take 4 (frame hello), None); (drop 4 (frame hello), Some EOF)] in
  match readLoop s [] (fresh_conn []) with
  | (Ret e, c') =>
      async_ok c' ∧ later (fresh_conn []) c' ∧ closed c' = true ∧ ∃ e', Error c' = Some e' ∧ errors_Is e' e = true
  | (Block, c') => async_ok c' ∧ later (fresh_conn []) c'
  | (Panic _, _) | (OutOfFuel, _) => False
  end.
Proof. apply readLoop_safety. apply fresh_conn_ok. Defined.

End read_loop.
