(* ===== verification/Typed.v ===== *)
(** * What the queues hold (async.go, stream.go)

    The read loop sorts what arrives: heartbeats are consumed, stream packets go
    to the stream they name, everything else goes to the queue of the
    connection.  This file shows what readers may therefore rely on, over whole
    sessions: sequences of operations and of runs of the read loop on anything
    the peer may send.  The same invariant bounds what a connection stores. *)

From S2P Require Import Prelude Frisbee GoStd Interfaces Metadata Packet Async AsyncSpec ReadLoop Concrete.

Module typed.
Import metadata packet async async_spec read_loop.

Section typed.
Context {G : Globals} {PB : Polyglot} {CQ : CircularQueue} {PP : PacketPool} {BP : BufferPool}.
Context `{!GlobalsLaws G} `{!PolyglotLaws PB} `{!CircularLaws CQ} `{!PoolLaws PP} `{!PoolLaws BP}.
Implicit Types c : Async.

(** ** Sessions *)

(** What happens on a connection, one thing after the other: calls of its
    operations and turns of its background loops, or the read loop fed from the
    socket until it ends or waits for more. *)
Inductive phase :=
  | Use (os : list op)
  | Receive (s : script) (ds : deadlines).

Definition run_phase (ph : phase) : M Async unit :=
  match ph with
  | Use os => run_ops os
  | Receive s ds => λ c,
      match readLoop s ds c with
      | (Ret _, c') | (Block, c') => (Ret tt, c')
      | (Panic e, c') => (Panic e, c')
      | (OutOfFuel, c') => (OutOfFuel, c')
      end
  end.

Fixpoint run_session (phs : list phase) : M Async unit :=
  match phs with
  | [] => mret tt
  | ph :: phs => run_phase ph;; run_session phs
  end.

Lemma run_phase_moved ph c : async_ok c →
  ∃ c', run_phase ph c = (Ret tt, c') ∧ moved async_ok later c c'.
Proof.
  intros Hc. destruct ph as [os|s ds]; [by apply run_ops_moved|].
  assert (Size ≤ DefaultBufferSize) as Hs by done. unfold run_phase, readLoop.
  generalize dependent DefaultBufferSize. intros size Hs.
  pose proof (readLoop_with_loops size s ds c Hs Hc) as H. unfold loops, wp in H.
  destruct (readLoop_with size s ds c) as [[] c']; try done; exists c'; [by destruct H|done].
Qed.

Lemma run_session_moved phs c : async_ok c →
  ∃ c', run_session phs c = (Ret tt, c') ∧ moved async_ok later c c'.
Proof.
  revert c. induction phs as [|ph phs IH]; intros c Hc; simpl.
  { exists c. by split_and!. }
  destruct (run_phase_moved ph c Hc) as (c1&E1&Hc1&Hl1). rewrite (bind_Ret _ _ _ _ _ E1).
  destruct (IH c1 Hc1) as (c2&->&?&?). exists c2. split; [done|]. split; [done|by etrans].
Qed.

(** ** Types *)

Definition well_typed c : Prop :=
  (∀ p, p ∈ arrived c → ordinary p) ∧
  ∀ sp s, heap c !! sp = Some s → ∀ p, p ∈ unread_on s → of_stream (id s) p.

Lemma later_well_typed c c' : later c c' → well_typed c → well_typed c'.
Proof.
  intros (_&_&[Hid Hg]&Ha) [Ho Hs]. split; [intros p [?|?]%Ha; auto|].
  intros sp s' Hs' p [Hp|?]%(Hg sp s' Hs'); [|done].
  destruct (heap c !! sp) as [s|] eqn:E; [|by apply not_elem_of_nil in Hp].
  destruct (Hid _ _ E) as (s1&E1&Hi&_). assert (s1 = s') as -> by congruence.
  rewrite Hi. by eapply Hs.
Qed.

Lemma NewAsync_well_typed w handler pl bl : well_typed (NewAsync w handler pl bl).
Proof.
  split; [|done]. unfold arrived. simpl. rewrite items_new.
  by intros p ?%not_elem_of_nil.
Qed.

(** Reading takes from what has arrived. *)
Lemma take_stale_In c p c' : take_stale c = (Ret (inl p), c') → p ∈ stale c.
Proof.
  unfold take_stale. rewrite (bind_Ret get _ c c c) by done. destruct (stale c) as [|x r]; [done|].
  erewrite bind_Ret by reflexivity. intros [= -> _]. apply elem_of_cons. by left.
Qed.

Lemma stream_take_stale_In sp s c p c' :
  heap c !! sp = Some s → stream_take_stale sp c = (Ret (inl p), c') → p ∈ s_stale s.
Proof.
  intros Hs. unfold stream_take_stale. erewrite bind_Ret; [|unfold deref; by rewrite Hs].
  destruct (s_stale s) as [|x r]; [done|]. erewrite bind_Ret by reflexivity.
  intros [= -> _]. apply elem_of_cons. by left.
Qed.

Lemma ReadPacket_In c p c' : async_ok c → ReadPacket c = (Ret (inl p), c') → p ∈ arrived c.
Proof.
  intros Hc. unfold ReadPacket, arrived. rewrite (bind_Ret get _ c c c) by done.
  destruct (closed c) eqn:Ho; [intros ?%take_stale_In; apply elem_of_app; by left|].
  destruct (ok_open c Hc Ho) as (_&_&Hq&_). intros (r&c1&E&Ek)%bind_Ret_inv.
  unfold on_incoming, zoom in E.
  destruct (Pop_cases (incoming c) Hq) as [(x&q'&Ep&Hi&_)|[Ep _]]; rewrite Ep in E; [|done].
  injection E as <- <-. injection Ek as -> <-. rewrite Hi, elem_of_app, elem_of_cons. auto.
Qed.

Lemma Stream_ReadPacket_In sp s c p c' :
  async_ok c → heap c !! sp = Some s → Stream_ReadPacket sp c = (Ret (inl p), c') → p ∈ unread_on s.
Proof.
  intros Hc Hs. unfold Stream_ReadPacket, unread_on. pose proof (ok_heap c Hc _ _ Hs) as Hok.
  assert (deref sp c = (Ret s, c)) as Ed by (unfold deref; by rewrite Hs).
  rewrite (bind_Ret _ _ _ _ _ Ed). unfold stream_ok in Hok.
  destruct (s_closed s); [intros ?%(stream_take_stale_In _ s); [apply elem_of_app; by left|done]|].
  destruct Hok as [Hq _]. intros (r&c1&E&Ek)%bind_Ret_inv.
  unfold on_queue, zoom in E. rewrite (bind_Ret _ _ _ _ _ Ed) in E.
  destruct (Pop_cases (queue s) Hq) as [(x&q'&Ep&Hi&_)|[Ep _]]; rewrite Ep in E; [|done].
  injection E as <- <-. injection Ek as -> <-. rewrite Hi, elem_of_app, elem_of_cons. auto.
Qed.

(** C12: readers get packets of the right type.  After any session on a new
    connection, whatever the peer sent, a packet returned by [ReadPacket] is well
    formed (fields within their widths, the magic header, content of the length
    announced and within the limit) and is neither a heartbeat nor a stream
    packet; a packet returned by the [ReadPacket] of a stream is well formed,
    carries the identifier of that stream and has content. *)
Theorem received_well_typed (phs : list phase) (w : WConn) (handler : option Z) (pl : Pool PP) (bl : Pool BP) :
  conn_closed w = false → packets_blank pl → buffers_ok bl →
  ∃ c, run_session phs (NewAsync w handler pl bl) = (Ret tt, c) ∧
    (∀ p c', ReadPacket c = (Ret (inl p), c') → ordinary p) ∧
    (∀ sp s p c', heap c !! sp = Some s → Stream_ReadPacket sp c = (Ret (inl p), c') → of_stream (id s) p).
Proof.
  intros Hw Hpl Hbl. pose proof (NewAsync_ok w handler pl bl Hw Hpl Hbl) as H0.
  destruct (run_session_moved phs _ H0) as (c&E&Hc&Hl). exists c. split; [done|].
  destruct (later_well_typed _ _ Hl (NewAsync_well_typed w handler pl bl)) as [Ht Hs].
  split; [eauto using ReadPacket_In|]. intros sp s p c' Hsp ?%(Stream_ReadPacket_In _ s); [|done..].
  by eapply Hs.
Qed.

(** ** Bounds *)

(** The bytes of content a list of packets holds. *)
Definition held (l : list Packet) : Z := foldr (λ p n, len (Bytes (Content p)) + n) 0 l.

Lemma held_bound m l :
  (∀ p, p ∈ l → len (Bytes (Content p)) ≤ m) → held l ≤ len l * m.
Proof.
  induction l as [|p l IH]; intros H; [done|]. rewrite len_cons. cbn [held foldr]. fold (held l).
  assert (held l ≤ len l * m) by (apply IH; intros; apply H, elem_of_cons; by right).
  assert (len (Bytes (Content p)) ≤ m) by (apply H, elem_of_cons; by left). lia.
Qed.

(** With a limit in force, [k] well-formed packets hold at most [k] contents of
    the largest size. *)
Lemma held_limit k l :
  0 < DefaultMaxContentLength → len l ≤ k → (∀ p, p ∈ l → well_formed p) →
  held l ≤ k * DefaultMaxContentLength.
Proof.
  intros HD Hk Hl. etrans; [apply (held_bound DefaultMaxContentLength)|nia].
  intros p Hp. destruct (Hl p Hp) as (_&_&<-&He). unfold exceeds_max in He. lia.
Qed.

(** C13: a connection stores a bounded amount.  After any session on a new
    connection: at most 65536 bytes are buffered for writing, at most one flush
    is pending (so the signal of a write always finds room in its channel), the
    packets waiting on the connection, and on each stream, are at most what
    their queues were created for, and with a limit on the content in force the
    bytes they hold are bounded too, whatever the peer sends. *)
Theorem resource_bounds (phs : list phase) (w : WConn) (handler : option Z) (pl : Pool PP) (bl : Pool BP) :
  conn_closed w = false → packets_blank pl → buffers_ok bl → 0 < DefaultMaxContentLength →
  ∃ c, run_session phs (NewAsync w handler pl bl) = (Ret tt, c) ∧
    0 ≤ WriteBufferSize c ≤ 65536 ∧ 0 ≤ ch_len (flushCh c) ≤ 1 ∧
    len (arrived c) ≤ queue_limit ∧ held (arrived c) ≤ queue_limit * DefaultMaxContentLength ∧
    ∀ sp s, heap c !! sp = Some s →
      len (unread_on s) ≤ stream_limit ∧ held (unread_on s) ≤ stream_limit * DefaultMaxContentLength.
Proof.
  intros Hw Hpl Hbl HD. pose proof (NewAsync_ok w handler pl bl Hw Hpl Hbl) as H0.
  destruct (run_session_moved phs _ H0) as (c&E&Hc&Hl). exists c. split; [done|].
  destruct (later_well_typed _ _ Hl (NewAsync_well_typed w handler pl bl)) as [Ht Hs].
  destruct (ok_writer c Hc) as [_ Hb]. pose proof (len_nonneg (wbuf (writer (out c)))) as Hn.
  split_and!; try apply Hc.
  - unfold WriteBufferSize, Buffered. destruct (closed c); lia.
  - unfold WriteBufferSize. rewrite (ok_size c Hc) in Hb. destruct (closed c); [done|exact Hb].
  - apply held_limit; [done|apply Hc|]. intros p Hp. by apply Ht.
  - intros sp s Hsp. destruct (ok_unread c Hc _ _ Hsp) as [Hlen _]. split; [done|].
    apply held_limit; [done..|]. intros p Hp. by eapply Hs.
Qed.

End typed.

(** ** Witnesses *)

Import concrete.

(** A handler is set, a packet and half of another arrive, a packet is written,
    and the peer goes away. *)
Definition sample_session : list phase :=
  [Use [OpSetHandler (Some 1); OpNewStream 5]; Receive [(frame hello ++ take 4 (frame hello), None)] [];
   Use [OpWrite hello; OpFlushLoop]; Receive [([], Some EOF)] []].

Lemma received_well_typed_witness :
  ∃ c, run_session sample_session (fresh_conn []) = (Ret tt, c) ∧
    (∀ p c', ReadPacket c = (Ret (inl p), c') → ordinary p) ∧
    (∀ sp s p c', heap c !! sp = Some s → Stream_ReadPacket sp c = (Ret (inl p), c') → of_stream (id s) p).
Proof. apply received_well_typed; [done|apply no_members|apply no_members]. Defined.

Lemma resource_bounds_witness :
  ∃ c, run_session sample_session (fresh_conn []) = (Ret tt, c) ∧
    0 ≤ WriteBufferSize c ≤ 65536 ∧ 0 ≤ ch_len (flushCh c) ≤ 1 ∧
    len (arrived c) ≤ queue_limit ∧ held (arrived c) ≤ queue_limit * DefaultMaxContentLength ∧
    ∀ sp s, heap c !! sp = Some s →
      len (unread_on s) ≤ stream_limit ∧ held (unread_on s) ≤ stream_limit * DefaultMaxContentLength.
Proof. apply resource_bounds; [done|apply no_members|apply no_members|done]. Defined.

End typed.
