(* ===== verification/ReadSpec.v ===== *)
(** * What the read loop does (async.go, [readLoop])

    The specification reads a plain byte string, frame by frame: it knows
    nothing of buffers, deliveries or indices.  The refinement theorem says that
    the loop does exactly what the specification allows on the bytes the network
    delivers, however it cuts them. *)

From S2P Require Import Prelude Frisbee GoStd Interfaces Metadata Packet Async AsyncSpec ReadLoop Concrete.

Module read_spec.
Import metadata packet async async_spec read_loop.

Section read_spec.
Context {G : Globals} {PB : Polyglot} {CQ : CircularQueue} {PP : PacketPool} {BP : BufferPool}.

(** ** The specification *)

(** The end of the input: nothing more for now, or an error. *)
Definition stop (tail : option Frisbee.error) : M Async Frisbee.error :=
  match tail with
  | None => blockM
  | Some e => fail_loop e
  end.

(** The bytes from position [k] on. *)
Definition from (bs : list byte) (k : Z) : list byte := drop (Z.to_nat k) bs.

(** Headers that are refused. *)
Definition refused (m : metadata.Metadata) : option Frisbee.error :=
  if negb (Magic m =? PacketMagicHeader) then Some InvalidMagicHeader
  else if exceeds_max (ContentLength m) then Some ContentLengthExceeded
  else None.

(** How the packet under the header [m] is delivered. *)
Definition routing (m : metadata.Metadata) (c : Async) : locals :=
  if Operation m =? STREAM then
    mkLocals true
      (if bool_decide (newStreamHandler c ≠ None) || (ContentLength m =? 0) then streams c !! Id m else None)
      (newStreamHandler c)
  else reset_locals.

Inductive verdict :=
  | Next (bs : list byte) (c : Async)
  | Done (res : outcome Frisbee.error * Async).

(** One frame.  A frame starts with a header [m]; the loop takes a packet [p]
    from the pool for it. *)
Inductive step (tail : option Frisbee.error) (bs : list byte) (c : Async) : verdict → Prop :=
  | step_short :
      len bs < Size → step tail bs c (Done (stop tail c))
  | step_refused m p c1 e :
      decoded bs 0 = Some m → packet_Get c = (Ret p, c1) →
      refused m = Some e → step tail bs c (Done (fail_loop e c1))
  | step_ping m p c1 c2 :
      decoded bs 0 = Some m → packet_Get c = (Ret p, c1) → refused m = None →
      Operation m = PING → writePacket PONGPacket false c1 = (Ret None, c2) →
      step tail bs c (Next (from bs Size) (set_pool (Put (set_Metadata m p) (pool c2)) c2))
  | step_ping_failed m p c1 c2 e :
      decoded bs 0 = Some m → packet_Get c = (Ret p, c1) → refused m = None →
      Operation m = PING → writePacket PONGPacket false c1 = (Ret (Some e), c2) →
      step tail bs c (Done (fail_loop e c2))
  | step_pong m p c1 :
      decoded bs 0 = Some m → packet_Get c = (Ret p, c1) → refused m = None →
      Operation m = PONG →
      step tail bs c (Next (from bs Size) (set_pool (Put (set_Metadata m p) (pool c1)) c1))
  | step_partial m p c1 :
      decoded bs 0 = Some m → packet_Get c = (Ret p, c1) → refused m = None →
      Operation m ≠ PING → Operation m ≠ PONG →
      len bs < Size + ContentLength m → step tail bs c (Done (stop tail c1))
  | step_packet m p c1 p' c2 :
      decoded bs 0 = Some m → packet_Get c = (Ret p, c1) → refused m = None →
      Operation m ≠ PING → Operation m ≠ PONG → Size + ContentLength m ≤ len bs →
      view p' = (m, sub bs Size (Size + ContentLength m)) →
      deliver (routing m c1) p' c1 = (Ret None, c2) →
      step tail bs c (Next (from bs (Size + ContentLength m)) c2)
  | step_undelivered m p c1 p' c2 r :
      decoded bs 0 = Some m → packet_Get c = (Ret p, c1) → refused m = None →
      Operation m ≠ PING → Operation m ≠ PONG → Size + ContentLength m ≤ len bs →
      view p' = (m, sub bs Size (Size + ContentLength m)) →
      deliver (routing m c1) p' c1 = (r, c2) →
      r ≠ Ret None →
      step tail bs c (Done (match r with Ret (Some e) => fail_loop e c2 | _ => (Block, c2) end)).

Inductive reads (tail : option Frisbee.error) : list byte → Async → outcome Frisbee.error * Async → Prop :=
  | reads_done bs c res : step tail bs c (Done res) → reads tail bs c res
  | reads_next bs c bs' c' res :
      step tail bs c (Next bs' c') → reads tail bs' c' res → reads tail bs c res.

(** ** The parts of the loop, on clean input *)

Context `{!GlobalsLaws G} `{!PolyglotLaws PB} `{!CircularLaws CQ} `{!PoolLaws PP} `{!PoolLaws BP}.

(** The bytes not yet consumed: in the buffer, then to be delivered. *)
Definition pending (st : reader) : list byte :=
  sub (buf st) (index st) (n st) ++ script_bytes (rx st).

Definition clean (tail : option Frisbee.error) (st : reader) : Prop :=
  rdeadlines st = [] ∧ ∃ chunks, rx st = feed chunks tail.

Lemma clean_feed chunks tail b i k : clean tail (mkReader (feed chunks tail) [] b i k).
Proof. split; [done|]. by exists chunks. Qed.

Lemma len_pending st : in_bounds st → len (pending st) = unread st.
Proof. intros (?&?&?&?). unfold pending, unread. rewrite len_app, len_sub by lia. lia. Qed.

(** [resumes tail st m k]: from [st], [m] gets a header into the buffer and goes
    on with [k], or stops for want of input. *)
Definition resumes tail st (m : (reader → M Async Frisbee.error) → M Async Frisbee.error) : Prop :=
  (∃ st', has_header st' ∧ clean tail st' ∧ pending st' = pending st ∧ ∀ k, m k = k st') ∨
  (len (pending st) < Size ∧ ∀ k, m k = stop tail).

Lemma read_header_resumes tail st :
  in_bounds st → n st = index st → clean tail st → resumes tail st (read_header st).
Proof.
  intros (?&?&?&?) Hn [Hd [chunks Hrx]]. assert (Size = 10) as HS by done.
  unfold resumes, read_header, pending. rewrite Hd, Hrx, Hn, sub_empty, script_bytes_feed.
  replace (len (buf st) <? Size) with false by lia.
  destruct (fill_feed chunks tail (buf st) 0 0 Size) as
    [(b&n'&chunks'&->&?&?&?&?&_&Hcat)|(->&Hs)]; [lia..| |].
  - left. exists (mkReader (feed chunks' tail) [] b 0 n'). rewrite !Z.add_0_l, sub_empty in Hcat.
    cbn [rx buf index n]. rewrite script_bytes_feed. split_and!; [|apply clean_feed|done|done].
    split; [split_and!|]; simpl; lia.
  - right. rewrite sub_empty in *. split; [done|]. intros k. by destruct tail.
Qed.

Lemma refill_resumes tail st :
  in_bounds st → clean tail st → resumes tail st (refill st).
Proof.
  intros Hb Hcl. pose proof Hb as (?&?&?&?). unfold refill.
  destruct (Z.eqb_spec (n st) (index st)) as [E|E]; [by apply read_header_resumes|].
  destruct (Z.ltb_spec (n st - index st) Size) as [Hlt|].
  2:{ left. exists st. split_and!; try done. split; [done|lia]. }
  destruct Hcl as [Hd [chunks Hrx]]. assert (Size = 10) as HS by done.
  set (rest := sub (buf st) (index st) (n st)).
  assert (len rest = n st - index st) as Hlr by (unfold rest; rewrite len_sub; lia).
  assert (len (splice (buf st) 0 rest) = len (buf st)) as Hlb by (rewrite len_splice; lia).
  set (i := n st - index st) in *. assert (sub (splice (buf st) 0 rest) 0 i = rest) as Hsub
    by (apply sub_splice_at; lia).
  assert (∀ k, (or_panic (slice (buf st) (index st) (n st)) IndexOutOfRange ≫= λ rest : list byte,
      let b := splice (buf st) 0 rest in
      if len b <? Size - i then fail_loop InvalidBufferLength
      else after_fill (fill (rx st) (rdeadlines st) b i 0 (Size - i))
             (λ b n s ds, k (mkReader s ds b 0 (n + i)))) =
      after_fill (fill (rx st) (rdeadlines st) (splice (buf st) 0 rest) i 0 (Size - i))
             (λ b n s ds, k (mkReader s ds b 0 (n + i)))) as Hk.
  { intros k. rewrite slice_Some by lia. fold rest. cbn [or_panic].
    unfold mbind, M_bind, mret, M_ret. cbv zeta. rewrite Hlb.
    by replace (len (buf st) <? Size - i) with false by lia. }
  unfold resumes. cbv zeta. setoid_rewrite Hk. clear Hk. unfold pending. fold rest.
  rewrite Hd, Hrx, script_bytes_feed.
  destruct (fill_feed chunks tail (splice (buf st) 0 rest) i 0 (Size - i)) as
    [(b&n'&chunks'&->&?&?&?&?&Hpre&Hcat)|(->&Hs)]; [lia..| |].
  - left. exists (mkReader (feed chunks' tail) [] b 0 (n' + i)). rewrite Z.add_0_r, sub_empty in Hcat.
    cbn [rx buf index n]. rewrite script_bytes_feed. split_and!; [|apply clean_feed| |done].
    + split; [split_and!|]; simpl; lia.
    + rewrite (sub_split _ 0 i) by lia. rewrite Hpre, Hsub, <- app_assoc. f_equal.
      by rewrite (Z.add_comm n').
  - right. rewrite Z.add_0_r, sub_empty, app_nil_l in *. rewrite len_app, Hlr. split; [lia|].
    intros k. by destruct tail.
Qed.

(** The content: the next bytes of the input, appended to the packet. *)
Lemma read_content_eq tail p st :
  in_bounds st → clean tail st → 0 ≤ ContentLength (Metadata p) →
  (∃ d p' st', in_bounds st' ∧ clean tail st' ∧ pending st = d ++ pending st' ∧
     len d = ContentLength (Metadata p) ∧ view p' = (Metadata p, Bytes (Content p) ++ d) ∧
     ∀ k, read_content p st k = k p' st') ∨
  (len (pending st) < ContentLength (Metadata p) ∧ ∀ k, read_content p st k = stop tail).
Proof.
  intros Hb Hcl H0. pose proof Hb as (?&?&?&?). unfold read_content.
  set (cl := ContentLength (Metadata p)) in *. destruct (Z.gtb_spec cl 0) as [Hpos|].
  2:{ left. exists [], p, st. assert (cl = 0) as -> by lia. unfold view. by rewrite app_nil_r. }
  destruct (Z.ltb_spec (n st - index st) cl) as [Hlt|Hge].
  - rewrite slice_Some by lia. set (part := sub (buf st) (index st) (n st)).
    assert (len part = n st - index st) as Hlp by (unfold part; rewrite len_sub; lia).
    pose proof (Write_count (Content p) part) as Hw. pose proof (Write_Bytes (Content p) part) as HB.
    cbn [or_panic]. unfold mbind, M_bind, mret, M_ret.
    destruct (Write (Content p) part) as [w content]. simpl in Hw, HB. subst w. rewrite Hlp.
    set (minSize := cl - (n st - index st)).
    destruct (grow_buf_Some (Z.to_nat (minSize - len (buf st))) (buf st) minSize) as (b&->&?&?); [lia|].
    destruct Hcl as [Hd [chunks Hrx]]. unfold pending. fold part. rewrite Hd, Hrx, script_bytes_feed.
    destruct (fill_feed chunks tail b 0 0 minSize) as
      [(b'&n'&chunks'&->&?&?&?&?&_&Hcat)|(->&Hs)]; [lia..| |].
    + left. rewrite !Z.add_0_l, sub_empty in Hcat. cbn [after_fill].
      exists (part ++ sub b' 0 minSize), (set_Content (Write content (sub b' 0 minSize)).2 p),
        (mkReader (feed chunks' tail) [] b' minSize n').
      rewrite slice_Some by lia. cbn [rx buf index n]. rewrite script_bytes_feed.
      split_and!; [split_and!; simpl; lia|apply clean_feed| | | |done].
      * rewrite <- app_assoc. f_equal. simpl in Hcat. rewrite <- Hcat, (sub_split _ 0 minSize) by lia.
        by rewrite app_assoc.
      * rewrite len_app, len_sub by lia. lia.
      * unfold view. simpl. by rewrite Write_Bytes, HB, app_assoc.
    + right. rewrite sub_empty in Hs. simpl in Hs. rewrite len_app. split; [lia|]. by destruct tail.
  - left. rewrite slice_Some by lia. set (d := sub (buf st) (index st) (index st + cl)).
    assert (len d = cl) as Hld by (unfold d; rewrite len_sub; lia).
    pose proof (Write_count (Content p) d) as Hw. pose proof (Write_Bytes (Content p) d) as HB.
    cbn [or_panic]. unfold mbind, M_bind, mret, M_ret.
    destruct (Write (Content p) d) as [w content]. simpl in Hw, HB. subst w. rewrite Hld.
    exists d, (set_Content content p), (mkReader (rx st) (rdeadlines st) (buf st) (index st + cl) (n st)).
    split_and!; [split_and!; simpl; lia|done| |done| |done].
    + unfold pending. simpl. rewrite app_assoc. f_equal. apply sub_split; lia.
    + unfold view. simpl. by rewrite HB.
Qed.

(** ** The loop *)

Lemma from_app (d r : list byte) k : k = len d → from (d ++ r) k = r.
Proof. intros ->. apply drop_app_length'. len_solve. Qed.

(** The header at the front of the pending bytes. *)
Lemma decoded_pending st m :
  has_header st → decoded (buf st) (index st) = Some m →
  decoded (pending st) 0 = Some m ∧ Size ≤ len (pending st).
Proof.
  intros [(?&?&?&?) ?] Hm. assert (Size = 10) as HS by done.
  rewrite len_pending by done. unfold unread. pose proof (len_nonneg (script_bytes (rx st))).
  split; [|lia].
  assert (len (sub (buf st) (index st) (n st)) = n st - index st) by (rewrite len_sub; lia).
  rewrite decoded_sub in Hm |- *; [|unfold pending; rewrite ?len_app; lia..].
  rewrite <- Hm. f_equal. unfold pending. rewrite sub_app_l, sub_sub by lia. f_equal; lia.
Qed.

Lemma resumes_reads tail st c (m : (reader → M Async Frisbee.error) → M Async Frisbee.error) k :
  in_bounds st → resumes tail st m →
  (∀ st', has_header st' → clean tail st' → unread st' = unread st → reads tail (pending st') c (k st' c)) →
  reads tail (pending st) c (m k c).
Proof.
  intros Hb [(st'&Hh&Hcl&Hp&->)|[Hs ->]] Hk.
  - rewrite <- Hp. apply Hk; [done..|]. destruct Hh as [? _].
    rewrite <- !len_pending by done. by rewrite Hp.
  - by apply reads_done, step_short.
Qed.

Lemma route_stream_routing m c :
  (if Operation m =? STREAM then route_stream m reset_locals else mret reset_locals) c =
  (Ret (routing m c), c).
Proof. unfold routing. by destruct (_ =? STREAM). Qed.

Lemma routing_ok m c : async_ok c → locals_ok m (routing m c) c.
Proof.
  intros Hc. unfold routing. destruct (Z.eqb_spec (Operation m) STREAM) as [Hm|Hm].
  - by destruct (route_stream_eq m c Hc Hm) as (lc&[= <-]&?).
  - split; [|done]. symmetry. by apply Z.eqb_neq.
Qed.

(** A packet with an accepted header and the content it announces. *)
Lemma refused_well_formed m p d :
  wf_metadata m → refused m = None → view p = (m, d) → len d = ContentLength m → well_formed p.
Proof.
  unfold refused. intros Hwf Hr [= <- <-] Hd. destruct (Z.eqb_spec (Magic (Metadata p)) PacketMagicHeader); [|done].
  cbn [negb] in Hr. destruct (exceeds_max _) eqn:E; [done|]. by split_and!.
Qed.

Section turn.
Context (tail : option Frisbee.error) (fuel : nat) (c : Async) (Hc : async_ok c).

(** The loop goes on as specified when there is fuel for what is left. *)
Context (Hnext : ∀ st c, in_bounds st → clean tail st → async_ok c → unread st < Z.of_nat fuel →
  reads tail (pending st) c (refill st (λ st, packets fuel st reset_locals) c)).

(** A packet that is not a heartbeat. *)
Lemma packet_reads m p d c1 st :
  async_ok c1 → in_bounds st → clean tail st → unread st < Z.of_nat fuel → blank p →
  len d = Size → decoded (d ++ pending st) 0 = Some m → packet_Get c = (Ret p, c1) →
  refused m = None → Operation m ≠ PING → Operation m ≠ PONG → wf_metadata m →
  reads tail (d ++ pending st) c
    (read_content (set_Metadata m p) st (λ p st,
       err ← deliver (routing m c1) p;
       match err with
       | Some err => fail_loop err
       | None => refill st (λ st, packets fuel st reset_locals)
       end) c1).
Proof.
  intros Hc1 Hb Hcl Hu Hbl Hd Hm Hg Hr Hnp Hnq Hwf. pose proof Hwf as (_&_&_&[H0 _]).
  destruct (read_content_eq tail (set_Metadata m p) st) as
    [(x&p'&st'&Hb'&Hcl'&Hp&Hx&Hv&->)|[Hs ->]]; [done..| |].
  2:{ apply reads_done. eapply step_partial; try done. rewrite len_app. simpl in Hs. lia. }
  simpl in Hx, Hv. injection Hbl as _ HB. rewrite HB, app_nil_l in Hv. rewrite Hp in *.
  assert (sub (d ++ x ++ pending st') Size (Size + ContentLength m) = x) as Hsub.
  { rewrite app_assoc, sub_app_l by (rewrite ?len_app; change Size with 10 in *; lia).
    rewrite sub_app_r by lia. done. }
  assert (Size + ContentLength m ≤ len (d ++ x ++ pending st')) as Hle
    by (rewrite !len_app; pose proof (len_nonneg (pending st')); lia).
  rewrite <- Hsub in Hv. assert (Metadata p' = m) as Hpm by (by injection Hv).
  assert (well_formed p') as Hpw by (eapply refused_well_formed; [done..|rewrite Hsub; lia]).
  pose proof (deliver_good (routing m c1) p' c1 c1 Hc1) as Hdl. rewrite Hpm in Hdl.
  specialize (Hdl (routing_ok m c1 Hc1) Hpw Hnp Hnq).
  unfold good, wp in Hdl. unfold mbind, M_bind.
  destruct (deliver (routing m c1) p' c1) as [[[e|]|w| |] c2] eqn:E; try (exfalso; by apply Hdl).
  - by apply reads_done, (step_undelivered _ _ _ m p c1 p' c2 (Ret (Some e))).
  - eapply reads_next; [by apply (step_packet _ _ _ m p c1 p' c2)|].
    rewrite app_assoc, from_app by (rewrite len_app; lia). destruct Hdl as [? _]; [done|].
    apply Hnext; try done. rewrite <- len_pending in * by done. rewrite Hp, len_app in Hu.
    pose proof (len_nonneg x). lia.
  - by apply reads_done, (step_undelivered _ _ _ m p c1 p' c2 Block).
Qed.

(** A whole turn. *)
Lemma turn_reads st :
  has_header st → clean tail st → unread st < Z.of_nat (S fuel) →
  reads tail (pending st) c (packets (S fuel) st reset_locals c).
Proof.
  intros Hh Hcl Hu. pose proof Hh as [(?&?&?&?) ?]. assert (Size = 10) as HS by done.
  destruct (read_metadata_eq st c Hh Hc) as (m&p&c1&Hm&Hwf&Hg&Hbl&[Hc1 _]&E).
  pose proof Hwf as (_&_&_&Hcl0).
  destruct (decoded_pending st m Hh Hm) as [Hdm Hlp]. unfold in_width in Hcl0. cbn [packets].
  replace (index st <? n st) with true by lia. rewrite (bind_Ret _ _ _ _ _ E). cbv zeta.
  change (Metadata (set_Metadata m p)) with m. set (st1 := mkReader _ _ _ _ _).
  assert (in_bounds st1) as Hb1 by (split_and!; simpl; lia).
  assert (pending st = sub (buf st) (index st) (index st + Size) ++ pending st1) as Hp
    by (unfold pending; simpl; rewrite app_assoc; f_equal; apply sub_split; lia).
  set (d := sub (buf st) (index st) (index st + Size)) in *.
  assert (len d = Size) as Hd by (unfold d; rewrite len_sub; lia). rewrite Hp in *.
  assert (unread st1 < Z.of_nat fuel) as Hu1 by (unfold unread in *; simpl; lia).
  assert (from (d ++ pending st1) Size = pending st1) as Hfrom by (by apply from_app).
  destruct (refused m) as [e|] eqn:Hr.
  { pose proof Hr as Hr'. unfold refused in Hr'.
    assert (reads tail (d ++ pending st1) c (fail_loop e c1)) as Hf by by eapply reads_done, step_refused.
    destruct (negb _); [by simplify_eq|]. destruct (exceeds_max _); by simplify_eq. }
  pose proof Hr as Hr'. unfold refused in Hr'. destruct (negb _); [done|]. destruct (exceeds_max _); [done|].
  destruct (Z.eqb_spec (Operation m) PING) as [Hop|Hnp].
  { pose proof (writePacket_keeps PONGPacket false c1 Hc1) as Hk. unfold wp in Hk.
    pose proof (writePacketN_nonblocking 2 PONGPacket false c1) as Hnb. unfold mbind at 1, M_bind at 1.
    unfold writePacket in Hk |- *.
    destruct (writePacketN 2 PONGPacket false c1) as [[[e|]|w| |] c2] eqn:Ew; try done; destruct Hk as [Hc2 _].
    - by eapply reads_done, step_ping_failed.
    - eapply reads_next; [by eapply step_ping|]. rewrite Hfrom.
      pose proof (packet_Put_calm (set_Metadata m p) c2 Hc2) as [? _].
      by apply Hnext. }
  destruct (Z.eqb_spec (Operation m) PONG) as [Hop|Hnq].
  { eapply reads_next; [by eapply step_pong|]. rewrite Hfrom.
    pose proof (packet_Put_calm (set_Metadata m p) c1 Hc1) as [? _]. by apply Hnext. }
  rewrite (bind_Ret _ _ _ _ _ (route_stream_routing m c1)). by apply packet_reads.
Qed.
End turn.

Lemma packets_reads tail fuel st c :
  has_header st → clean tail st → unread st < Z.of_nat fuel → async_ok c →
  reads tail (pending st) c (packets fuel st reset_locals c).
Proof.
  revert st c. induction fuel as [|fuel IH]; intros st c Hh Hcl Hu Hc.
  { pose proof (len_nonneg (script_bytes (rx st))). unfold unread, has_header, in_bounds in *. lia. }
  apply turn_reads; try done. intros st1 c1 Hb1 Hcl1 Hc1 Hu1.
  apply resumes_reads; [done|by apply refill_resumes|]. intros st2 ? ? ?. apply IH; [done..|lia|done].
Qed.

Lemma readLoop_with_reads size chunks tail c :
  Size ≤ size → async_ok c →
  reads tail (concat chunks) c (readLoop_with size (feed chunks tail) [] c).
Proof.
  intros Hs Hc. unfold readLoop_with. rewrite script_bytes_feed.
  assert (Size = 10) as HS by done.
  set (st := mkReader _ _ _ _ _). assert (in_bounds st) as Hb.
  { unfold in_bounds, st. cbn [index n buf]. rewrite len_replicate by lia. lia. }
  assert (pending st = concat chunks) as <-
    by (unfold pending, st; cbn [buf index n rx]; by rewrite sub_empty, script_bytes_feed).
  set (fuel := S (length (pending st))). cbn [packets].
  replace (index st <? n st) with false by done.
  apply resumes_reads; [done|apply read_header_resumes; [done..|apply clean_feed]|].
  intros st' Hh ? Hu. apply packets_reads; try done. rewrite Hu, <- len_pending by done.
  unfold fuel, len. lia.
Qed.

Lemma readLoop_reads chunks tail c :
  async_ok c → reads tail (concat chunks) c (readLoop (feed chunks tail) [] c).
Proof. apply readLoop_with_reads. done. Qed.

(** C2: the read loop implements its specification.  Whatever bytes the peer
    sends, in whatever pieces they arrive (and whether the input then dries up or
    ends with an error), the loop does what the specification does on the plain
    byte string: the same frames, with the same contents, are recognised,
    answered, delivered or refused in the same order, and the loop ends in the
    same way. *)
Theorem readLoop_refines (chunks : list (list byte)) (tail : option Frisbee.error) (c : Async) :
  async_ok c → reads tail (concat chunks) c (readLoop (feed chunks tail) [] c).
Proof. apply readLoop_reads. Qed.

End read_spec.

Import concrete.

Lemma readLoop_refines_witness :
  reads (Some EOF) (frame hello) (fresh_conn [])
    (readLoop (feed [take 4 (frame hello); drop 4 (frame hello)] (Some EOF)) [] (fresh_conn [])).
Proof.
  apply (readLoop_refines [take 4 (frame hello); drop 4 (frame hello)] (Some EOF) (fresh_conn [])
    (fresh_conn_ok [])).
Defined.

End read_spec.
