(* ===== verification/Wire.v ===== *)
(** * From one end of a connection to the other

    What a peer sends is what the read loop delivers: the writing side of
    [AsyncSpec] and the reading side of [ReadSpec] put together. *)

From S2P Require Import Prelude Frisbee GoStd Interfaces Metadata Packet Async AsyncSpec ReadLoop ReadSpec Concrete.

Module wire.
Import metadata packet async async_spec read_loop read_spec.

Section wire.
Context {G : Globals} {PB : Polyglot} {CQ : CircularQueue} {PP : PacketPool} {BP : BufferPool}.
Context `{!GlobalsLaws G} `{!PolyglotLaws PB} `{!CircularLaws CQ} `{!PoolLaws PP} `{!PoolLaws BP}.

(** ** One frame *)

Lemma packet_Get_pool c p c1 :
  packet_Get c = (Ret p, c1) → c1 = set_pool (pool c1) c ∧ p = (Get (pool c)).1.
Proof. unfold packet_Get. destruct (Get (pool c)). intros [= <- <-]. done. Qed.

(** A frame whose header [m] is accepted and which carries [d]. *)
Definition acceptable (m : metadata.Metadata) (d : list byte) : Prop :=
  wf_metadata m ∧ refused m = None ∧ ContentLength m = len d.

Lemma acceptable_well_formed m d q : acceptable m d → view q = (m, d) → well_formed q.
Proof. intros (?&?&?) ?. by eapply refused_well_formed. Qed.

Lemma frame_step tail m d r c v :
  acceptable m d → Operation m ≠ PING → Operation m ≠ PONG →
  step tail (header_bytes m ++ d ++ r) c v →
  ∃ p c1 p' o c2, packet_Get c = (Ret p, c1) ∧ view p' = (m, d) ∧
    deliver (routing m c1) p' c1 = (o, c2) ∧ (o = Ret None → v = Next r c2).
Proof.
  intros (Hwf&Hr&Hcl) Hnp Hnq Hst. pose proof (len_nonneg d). pose proof (len_nonneg r).
  assert (decoded (header_bytes m ++ d ++ r) 0 = Some m) as Hdec by by apply decoded_header.
  assert (len (header_bytes m) = Size) as Hh by apply len_header_bytes.
  assert (sub (header_bytes m ++ d ++ r) Size (Size + ContentLength m) = d) as Hsub.
  { rewrite app_assoc, sub_app_l by (rewrite ?len_app; change Size with 10 in *; lia).
    rewrite sub_app_r by lia. done. }
  destruct Hst as [Hs|m' p c1 e Hm Hg Hf|m' p c1 c2 Hm|m' p c1 c2 e Hm|m' p c1 Hm|m' p c1 Hm Hg ? ? ? Hs
    |m' p c1 p' c2 Hm Hg ? ? ? ? Hv Hd|m' p c1 p' c2 o Hm Hg ? ? ? ? Hv Hd Ho]; simplify_eq; try congruence.
  - rewrite !len_app in Hs. lia.
  - rewrite !len_app in Hs. lia.
  - exists p, c1, p', (Ret None), c2. rewrite Hsub in Hv. split_and!; try done. intros _.
    by rewrite app_assoc, from_app by (rewrite len_app; lia).
  - exists p, c1, p', o, c2. by rewrite Hsub in Hv.
Qed.

(** A heartbeat, whose content, if it announces any, stays in the input. *)
Lemma heartbeat_step tail m r c v :
  wf_metadata m → refused m = None → working c → (Operation m = PING ∨ Operation m = PONG) →
  step tail (header_bytes m ++ r) c v →
  ∃ c', v = Next r c' ∧ working c' ∧ incoming c' = incoming c ∧
    stream_out (out c') = stream_out (out c) ++ (if Operation m =? PING then frame PONGPacket else []).
Proof.
  intros Hwf Hr Hw Hop Hst. pose proof (len_nonneg r).
  assert (decoded (header_bytes m ++ r) 0 = Some m) as Hdec by by apply decoded_header.
  assert (len (header_bytes m) = Size) as Hh by apply len_header_bytes.
  assert (from (header_bytes m ++ r) Size = r) as Hfrom by by apply from_app.
  assert (∀ p c1, packet_Get c = (Ret p, c1) → working c1) as Hget.
  { intros p c1 E. destruct Hw as (Hc&?&?&?). pose proof (packet_Get_calm c Hc) as Hk. unfold wp in Hk.
    rewrite E in Hk. destruct Hk as [? _]. destruct (packet_Get_pool _ _ _ E) as [E1 _].
    split; [done|]. rewrite E1. by split_and!. }
  assert (∀ p c', working c' → working (set_pool (Put p (pool c')) c')) as Hput.
  { intros p c' (Hc'&?&?&?). pose proof (packet_Put_calm p c' Hc') as [? _]. by split_and!. }
  destruct Hst as [Hs|m' p c1 e Hm Hg Hf|m' p c1 c2 Hm Hg _ Ho Hwr|m' p c1 c2 e Hm Hg _ Ho Hwr
    |m' p c1 Hm Hg _ Ho|m' p c1 Hm Hg ? ? ?|m' p c1 p' c2 Hm Hg ? ? ?|m' p c1 p' c2 o Hm Hg ? ? ?];
    simplify_eq; try (destruct Hop; congruence).
  - rewrite !len_app in Hs. lia.
  - destruct (writePacketN_working 1 PONGPacket false c1 (Hget _ _ Hg)) as (c3&E&(Hw3&Hsd&Hso)&_).
    { split_and!; [done| |apply exceeds_max_0]. simpl. by rewrite Bytes_NewBuffer. }
    unfold writePacket in Hwr. rewrite E in Hwr. injection Hwr as <-. rewrite Hfrom.
    eexists. split_and!; [done|by apply Hput| |].
    + destruct (packet_Get_pool _ _ _ Hg) as [Hc1 _]. destruct Hsd as (_&_&_&Hi&_). simpl.
      rewrite Hi, Hc1. done.
    + rewrite Ho. simpl. rewrite Hso. by destruct (packet_Get_pool _ _ _ Hg) as [-> _].
  - destruct (writePacketN_working 1 PONGPacket false c1 (Hget _ _ Hg)) as (c3&E&_).
    { split_and!; [done| |apply exceeds_max_0]. simpl. by rewrite Bytes_NewBuffer. }
    unfold writePacket in Hwr. rewrite E in Hwr. done.
  - rewrite Hfrom. eexists. split_and!; [done|by apply Hput; eauto|..];
      destruct (packet_Get_pool _ _ _ Hg) as [-> _]; [done|]. rewrite Ho. simpl. by rewrite app_nil_r.
Qed.

(** ** A sequence of messages *)

(** What a peer puts on the wire: packets, and headers of heartbeats. *)
Inductive message :=
  | Data (p : Packet)
  | Heartbeat (m : metadata.Metadata).

Definition encode (m : message) : list byte :=
  match m with
  | Data p => frame p
  | Heartbeat m => header_bytes (wire_metadata m)
  end.

Definition well_sent (m : message) : Prop :=
  match m with
  | Data p => sendable p ∧ 9 < Operation (Metadata p)
  | Heartbeat m => wf_metadata m ∧ (Operation m = PING ∨ Operation m = PONG) ∧
      exceeds_max (ContentLength m) = false
  end.

Definition data : list message → list Packet := omap (λ m, match m with Data p => Some p | _ => None end).

(** The answers to the heartbeats among the messages. *)
Definition answers (ms : list message) : list byte :=
  concat ((λ m, match m with Heartbeat m => if Operation m =? PING then frame PONGPacket else [] | _ => [] end) <$> ms).

Lemma refused_magic m :
  Magic m = PacketMagicHeader → exceeds_max (ContentLength m) = false → refused m = None.
Proof. intros Hm He. unfold refused. rewrite Hm. simpl. by rewrite He. Qed.

Lemma sendable_acceptable p : sendable p → acceptable (wire_metadata (Metadata p)) (Bytes (Content p)).
Proof.
  intros (?&?&?). split_and!; [by apply wf_wire_metadata|by apply refused_magic|done].
Qed.

(** An ordinary packet goes to the queue. *)
Lemma data_step tail p r c v :
  sendable p → 9 < Operation (Metadata p) → working c → len (items (incoming c)) < capacity (incoming c) →
  step tail (frame p ++ r) c v →
  ∃ q c', v = Next r c' ∧ working c' ∧ view q = received p ∧ items (incoming c') = items (incoming c) ++ [q] ∧
    capacity (incoming c') = capacity (incoming c) ∧ stream_out (out c') = stream_out (out c).
Proof.
  intros Hp Hop Hw Hroom Hst. unfold frame in Hst. rewrite <- app_assoc in Hst.
  pose proof Hw as (Hc&Ho&Hh&He). destruct (ok_open c Hc Ho) as (_&_&Hq&_).
  assert (PING = 0 ∧ PONG = 1 ∧ STREAM = 2) as (HP&HQ&HS) by done.
  apply frame_step in Hst as (p0&c1&q&o&c2&Hg&Hv&Hd&Hnext);
    [|by apply sendable_acceptable|simpl; lia..].
  pose proof (packet_Get_calm c Hc) as Hk. unfold wp in Hk. rewrite Hg in Hk. destruct Hk as [Hc1 _].
  destruct (packet_Get_pool _ _ _ Hg) as [E1 _].
  assert (routing (wire_metadata (Metadata p)) c1 = reset_locals) as Hrt
    by (unfold routing; simpl; by replace (_ =? STREAM) with false by lia).
  rewrite Hrt in Hd. destruct (Push_room q (incoming c) Hq Hroom) as (q'&Epush&Hi&?&?).
  unfold deliver, on_incoming, zoom in Hd. simpl in Hd.
  assert (incoming c1 = incoming c) as Ei by (rewrite E1; done). rewrite Ei, Epush in Hd.
  injection Hd as <- <-. exists q, (set_incoming q' c1).
  assert (ordinary q) as Hord.
  { split; [by eapply acceptable_well_formed; [apply sendable_acceptable|]|].
    injection Hv as -> _. simpl. split_and!; lia. }
  pose proof (Push_incoming_keeps q Hord c1 Hc1) as Hk. unfold wp, on_incoming, zoom in Hk.
  rewrite Ei, Epush in Hk. destruct Hk as [Hc2 _].
  split_and!; [by apply Hnext| |done|done|done|rewrite E1; done].
  split; [done|]. rewrite E1. by split_and!.
Qed.

Lemma step_nil tail c v : step tail [] c v → v = Done (stop tail c).
Proof. intros []; try (exfalso; discriminate); done. Qed.

(** When every step from here goes on to [r], so does the run. *)
Lemma reads_forced tail bs r c res (P : Async → Prop) :
  (∀ v, step tail bs c v → ∃ c', v = Next r c' ∧ P c') → reads tail bs c res →
  ∃ c', P c' ∧ reads tail r c' res.
Proof.
  intros H Hrd. inversion Hrd as [? ? ? Hst|? ? ? ? ? Hst Hrd']; subst; apply H in Hst as (c2&E&?); [done|].
  simplify_eq. by exists c2.
Qed.

Lemma reads_nil c res : reads None [] c res → res = (Block, c).
Proof.
  inversion 1 as [? ? ? Hst|? ? ? ? ? Hst]; subst; apply step_nil in Hst; [by injection Hst|done].
Qed.

Lemma reads_messages ms c res :
  Forall well_sent ms → working c → len (items (incoming c)) + len (data ms) ≤ capacity (incoming c) →
  reads None (concat (encode <$> ms)) c res →
  ∃ c' qs, res = (Block, c') ∧ working c' ∧ view <$> qs = received <$> data ms ∧
    items (incoming c') = items (incoming c) ++ qs ∧
    stream_out (out c') = stream_out (out c) ++ answers ms.
Proof.
  intros Hms. revert c. induction Hms as [|m ms Hm Hms IH]; intros c Hw Hroom Hrd.
  { exists c, []. rewrite !app_nil_r. split_and!; try done. by apply reads_nil. }
  apply (reads_forced _ _ (concat (encode <$> ms)) _ _ (λ c1, ∃ qs, working c1 ∧
      view <$> qs = received <$> data [m] ∧ items (incoming c1) = items (incoming c) ++ qs ∧
      capacity (incoming c1) = capacity (incoming c) ∧
      stream_out (out c1) = stream_out (out c) ++ answers [m])) in Hrd
    as (c1&(qs&Hw1&Hv1&Hi1&Hcap1&Hs1)&Hrd1).
  2:{ cbn [fmap list_fmap concat]. intros v Hv. destruct m as [p|m].
    - destruct Hm as [Hp Hop]. pose proof (len_nonneg (data ms)).
      change (data (Data p :: ms)) with (p :: data ms) in Hroom. rewrite len_cons in Hroom.
      apply data_step in Hv as (q&c1&->&?&Hq&?&?&Hs); [|done..|lia].
      exists c1. split; [done|]. exists [q]. rewrite Hs. unfold answers. simpl.
      rewrite app_nil_r, Hq. by split_and!.
    - destruct Hm as (?&Hop&?). apply heartbeat_step in Hv as (c1&->&?&Hi&Hs); [|..|done|done].
      + exists c1. split; [done|]. exists []. rewrite Hi, Hs, app_nil_r. unfold answers. simpl. rewrite app_nil_r. by split_and!.
      + by apply wf_wire_metadata.
      + by apply refused_magic. }
  assert (data (m :: ms) = data [m] ++ data ms) as Hdata by (by destruct m).
  assert (length qs = length (data [m])) as Hlen
    by (rewrite <- (length_fmap view), Hv1, length_fmap; done).
  destruct (IH c1) as (c'&qs'&->&?&Hv&Hi&Hs); [done| |done|].
  { rewrite Hi1, Hcap1. rewrite Hdata in Hroom. unfold len in *. rewrite !length_app in *. lia. }
  exists c', (qs ++ qs'). split_and!; try done.
  - by rewrite fmap_app, Hdata, fmap_app, Hv1, Hv.
  - by rewrite Hi, Hi1, app_assoc.
  - rewrite Hs, Hs1, <- app_assoc. f_equal. unfold answers. simpl. by rewrite app_nil_r.
Qed.

(** ** Streams *)

(** The packets a stream accepts. *)
Definition streamable (i : Z) (p : Packet) : Prop := sendable p ∧ is_uint16 i ∧ 0 < ContentLength (Metadata p).

Lemma stamped_acceptable i p :
  streamable i p → acceptable (wire_metadata (Metadata (stamped i p))) (Bytes (Content p)).
Proof.
  intros ((?&?&?)&?&?). apply (sendable_acceptable (stamped i p)). split_and!; try done.
  unfold wf_metadata in *. destruct_and!. by split_and!.
Qed.

(** What the delivery of a packet for stream [i] leaves alone. *)
Definition same_but_streams (c c' : Async) : Prop :=
  working c' ∧ incoming c' = incoming c ∧ newStreamHandler c' = newStreamHandler c ∧
  stream_out (out c') = stream_out (out c).

Lemma same_but_streams_trans c1 c2 c3 :
  same_but_streams c1 c2 → same_but_streams c2 c3 → same_but_streams c1 c3.
Proof. intros (_&?&?&?) (?&?&?&?). split_and!; congruence || done. Qed.

(** The packet is taken from the pool and delivered. *)
Lemma stream_step tail m d r c v h :
  acceptable m d → Operation m = STREAM → working c → newStreamHandler c = Some h →
  step tail (header_bytes m ++ d ++ r) c v →
  ∃ pl q o c2, view q = (m, d) ∧
    deliver (mkLocals true (streams c !! Id m) (Some h)) q (set_pool pl c) = (o, c2) ∧
    (o = Ret None → async_ok c2) ∧ (o = Ret None → v = Next r c2).
Proof.
  intros Hm Hop (Hc&_) Hh Hst.
  apply frame_step in Hst as (p0&c1&q&o&c2&Hg&Hv&Hd&Hnext); [|done|by rewrite Hop..].
  pose proof (packet_Get_calm c Hc) as Hk. unfold wp in Hk. rewrite Hg in Hk. destruct Hk as [Hc1 _].
  assert (Metadata q = m) as Hqm by (by injection Hv).
  pose proof (deliver_good (routing m c1) q c1 c1 Hc1) as Hdl. rewrite Hqm, Hop in Hdl.
  specialize (Hdl (routing_ok _ c1 Hc1) (acceptable_well_formed _ _ _ Hm Hv) ltac:(done) ltac:(done) (reflexivity c1)).
  unfold good, wp in Hdl. rewrite Hd in Hdl. destruct (packet_Get_pool _ _ _ Hg) as [E1 _].
  exists (pool c1), q, o, c2. rewrite <- E1. split_and!; try done.
  - rewrite <- Hd. f_equal. unfold routing. rewrite Hop, E1. simpl. by rewrite Hh.
  - intros ->. apply Hdl.
Qed.

(** Pushing into the queue of an open stream with room. *)
Lemma on_queue_room sp s q c :
  heap c !! sp = Some s → queue_closed (queue s) = false → len (items (queue s)) < capacity (queue s) →
  ∃ s', on_queue sp (Push q) c = (Ret None, set_heap (<[sp := s']> (heap c)) c) ∧ id s' = id s ∧
    s_closed s' = s_closed s ∧ items (queue s') = items (queue s) ++ [q] ∧
    capacity (queue s') = capacity (queue s).
Proof.
  intros Hs Hq Hroom. destruct (Push_room q (queue s) Hq Hroom) as (q'&E&?&?&?).
  exists (mkStream (id s) (s_closed s) q' (s_stale s)). split_and!; try done.
  assert (deref sp c = (Ret s, c)) as Ed by (unfold deref; by rewrite Hs).
  unfold on_queue. rewrite (bind_Ret _ _ _ _ _ Ed). unfold zoom. by rewrite E.
Qed.

(** The first packet of a stream nobody knows: the handler is started on a new
    stream. *)
Lemma stream_first_step tail i p r c v h :
  streamable i p → working c → newStreamHandler c = Some h → streams c !! i = None →
  step tail (frame (stamped i p) ++ r) c v →
  ∃ c' q s, v = Next r c' ∧ same_but_streams c c' ∧ streams c' = <[i := length (heap c)]> (streams c) ∧
    heap c' = heap c ++ [s] ∧ spawned c' = spawned c ++ [(h, length (heap c))] ∧
    id s = i ∧ s_closed s = false ∧ items (queue s) = [q] ∧ DefaultStreamBufferSize ≤ capacity (queue s) ∧
    view q = received (stamped i p).
Proof.
  intros Hp Hw Hh Hn Hst. unfold frame in Hst. rewrite <- app_assoc in Hst.
  destruct (stream_step _ _ _ _ _ _ _ (stamped_acceptable i p Hp) eq_refl Hw Hh Hst)
    as (pl&q&o&c2&Hv&Hd&Hok&Hnext).
  clear Hst. pose proof Hw as (Hc&Ho&Hhl&He). destruct Hp as (_&_&Hpos).
  assert (Metadata q = wire_metadata (Metadata (stamped i p))) as Hm by (by injection Hv).
  simpl in Hd. rewrite Hn in Hd. unfold deliver in Hd. rewrite Hm in Hd. simpl in Hd.
  replace (ContentLength (Metadata p) =? 0) with false in Hd by lia.
  set (sp := length (heap c)). set (c1 := set_spawned (spawned c ++ [(h, sp)])
    (set_streams (<[i := sp]> (streams c)) (set_heap (heap c ++ [newStream i]) (set_pool pl c)))).
  change (on_queue sp (Push q) c1 = (o, c2)) in Hd.
  destruct (on_queue_room sp (newStream i) q c1) as (s&E&?&?&Hi&Hcap).
  { simpl. unfold sp. by rewrite lookup_app_r, Nat.sub_diag by done. }
  { apply closed_new. }
  { simpl. rewrite items_new. pose proof (capacity_new (T := Packet) DefaultStreamBufferSize).
    assert (0 < DefaultStreamBufferSize) by done. unfold len; simpl; lia. }
  rewrite E in Hd. injection Hd as <- <-. simpl in Hi. rewrite items_new in Hi.
  eexists _, q, s. split_and!; [by apply Hnext| |done| |done..| |done].
  - split_and!; try done. split; [by apply Hok|by split_and!].
  - simpl. unfold sp. rewrite insert_app_r_alt by done. by rewrite Nat.sub_diag.
  - rewrite Hcap. apply capacity_new.
Qed.

(** Further packets are queued on it. *)
Lemma stream_next_step tail i p r c v h sp s :
  streamable i p → working c → newStreamHandler c = Some h → streams c !! i = Some sp →
  heap c !! sp = Some s → s_closed s = false → len (items (queue s)) < capacity (queue s) →
  step tail (frame (stamped i p) ++ r) c v →
  ∃ c' q s', v = Next r c' ∧ same_but_streams c c' ∧ streams c' = streams c ∧
    heap c' = <[sp := s']> (heap c) ∧ spawned c' = spawned c ∧
    id s' = id s ∧ s_closed s' = false ∧ items (queue s') = items (queue s) ++ [q] ∧
    capacity (queue s') = capacity (queue s) ∧ view q = received (stamped i p).
Proof.
  intros Hp Hw Hh Hn Hs Hsc Hroom Hst. unfold frame in Hst. rewrite <- app_assoc in Hst.
  destruct (stream_step _ _ _ _ _ _ _ (stamped_acceptable i p Hp) eq_refl Hw Hh Hst)
    as (pl&q&o&c2&Hv&Hd&Hok&Hnext).
  clear Hst. pose proof Hw as (Hc&Ho&Hhl&He). destruct Hp as (_&_&Hpos).
  assert (Metadata q = wire_metadata (Metadata (stamped i p))) as Hm by (by injection Hv).
  simpl in Hd. rewrite Hn in Hd. unfold deliver in Hd. rewrite Hm in Hd. simpl in Hd.
  replace (ContentLength (Metadata p) =? 0) with false in Hd by lia.
  change (on_queue sp (Push q) (set_pool pl c) = (o, c2)) in Hd.
  pose proof (ok_heap c Hc _ _ Hs) as Hso. unfold stream_ok in Hso. rewrite Hsc in Hso.
  destruct (on_queue_room sp s q (set_pool pl c)) as (s'&E&?&?&Hi&Hcap); [done|by destruct Hso|done|].
  rewrite E in Hd. injection Hd as <- <-.
  eexists _, q, s'. split_and!; [by apply Hnext| |done..|congruence|done|done|done].
  split_and!; try done. split; [by apply Hok|by split_and!].
Qed.

(** The empty packet ends the stream: it is shut and forgotten. *)
Lemma stream_end_step tail i r c v h sp s :
  is_uint16 i → working c → newStreamHandler c = Some h → streams c !! i = Some sp →
  heap c !! sp = Some s → s_closed s = false →
  step tail (end_of_stream i ++ r) c v →
  ∃ c', v = Next r c' ∧ same_but_streams c c' ∧ streams c' = delete i (streams c) ∧
    heap c' = <[sp := shut s]> (heap c) ∧ spawned c' = spawned c.
Proof.
  intros Hi Hw Hh Hn Hs Hsc Hst. unfold end_of_stream in Hst. set (m := mkMetadata _ _ _ _) in *.
  assert (acceptable m []) as Ha.
  { split_and!; [|by apply refused_magic, exceeds_max_0|done]. split_and!; done. }
  rewrite <- (app_nil_l r) in Hst.
  destruct (stream_step _ _ _ _ _ _ _ Ha eq_refl Hw Hh Hst) as (pl&q&o&c2&Hv&Hd&Hok&Hnext).
  clear Hst. pose proof Hw as (Hc&Ho&Hhl&He).
  assert (Metadata q = m) as Hm by (by injection Hv).
  simpl in Hd. rewrite Hn in Hd. unfold deliver in Hd. rewrite Hm in Hd. simpl in Hd.
  assert (Stream_close sp (set_pool pl c) = (Ret tt, set_heap (<[sp := shut s]> (heap c)) (set_pool pl c))) as E.
  { unfold Stream_close.
    assert (deref sp (set_pool pl c) = (Ret s, set_pool pl c)) as Ed by (unfold deref; simpl; by rewrite Hs).
    rewrite (bind_Ret _ _ _ _ _ Ed). by rewrite Hsc. }
  unfold mbind, M_bind in Hd. rewrite E in Hd. injection Hd as <- <-.
  eexists. split_and!; [by apply Hnext| |done..].
  split_and!; try done. split; [by apply Hok|by split_and!].
Qed.

(** The bytes of a whole stream, to its end. *)
Definition stream_bytes (i : Z) (ps : list Packet) : list byte :=
  concat (frame <$> (stamped i <$> ps)) ++ end_of_stream i.

Lemma reads_open_stream i ps c res h sp s :
  is_uint16 i → Forall (streamable i) ps → working c → newStreamHandler c = Some h →
  streams c !! i = Some sp → heap c !! sp = Some s → s_closed s = false →
  len (items (queue s)) + len ps ≤ capacity (queue s) →
  reads None (stream_bytes i ps) c res →
  ∃ c' s' qs, res = (Block, c') ∧ same_but_streams c c' ∧ streams c' = delete i (streams c) ∧
    heap c' !! sp = Some (shut s') ∧ spawned c' = spawned c ∧ items (queue s') = items (queue s) ++ qs ∧
    view <$> qs = received <$> (stamped i <$> ps).
Proof.
  intros Hi Hps. revert c s. induction Hps as [|p ps Hp Hps IH]; intros c s Hw Hh Hn Hs Hsc Hroom Hrd.
  - unfold stream_bytes in Hrd. simpl concat in Hrd. rewrite app_nil_l in Hrd.
    rewrite <- (app_nil_r (end_of_stream i)) in Hrd. eapply reads_forced in Hrd as (c'&H&Hrd).
    2:{ intros v Hv. apply (stream_end_step _ _ _ _ _ h sp s) in Hv as (c1&->&H1); [|done..].
        exists c1. split; [done|exact H1]. }
    destruct H as (?&?&Hhp&?). apply reads_nil in Hrd as ->. exists c', s, [].
    rewrite app_nil_r. split_and!; try done. rewrite Hhp. apply list_lookup_insert_eq. by eapply lookup_lt_Some.
  - unfold stream_bytes in Hrd. cbn [fmap list_fmap concat] in Hrd. rewrite <- app_assoc in Hrd.
    rewrite len_cons in Hroom. pose proof (len_nonneg ps). eapply reads_forced in Hrd as (c1&H1&Hrd).
    2:{ intros v Hv. apply (stream_next_step _ _ _ _ _ _ h sp s) in Hv as (c1&q&s1&->&H1); [|done..|lia].
        exists c1. split; [done|]. exact (ex_intro _ q (ex_intro _ s1 H1)). }
    destruct H1 as (q&s1&Hsb&Hst&Hhp&Hsw&_&?&Hi1&Hcap&Hv).
    assert (heap c1 !! sp = Some s1) as Hs1
      by (rewrite Hhp; apply list_lookup_insert_eq; by eapply lookup_lt_Some).
    pose proof Hsb as (Hw1&_&Hh1&_).
    destruct (IH c1 s1) as (c'&s'&qs&->&Hsb'&?&?&?&Hi2&Hv'); try done; try congruence.
    { rewrite Hi1, Hcap. unfold len in *. rewrite length_app. simpl. lia. }
    exists c', s', (q :: qs). split_and!; try done; try congruence.
    + by eapply same_but_streams_trans.
    + rewrite Hi2, Hi1, <- app_assoc. done.
    + cbn [fmap list_fmap]. by f_equal.
Qed.

Lemma reads_new_stream i p ps c res h :
  is_uint16 i → Forall (streamable i) (p :: ps) → working c → newStreamHandler c = Some h →
  streams c !! i = None → len (p :: ps) ≤ DefaultStreamBufferSize →
  reads None (stream_bytes i (p :: ps)) c res →
  ∃ c' s qs, res = (Block, c') ∧ same_but_streams c c' ∧ streams c' = streams c ∧
    heap c' !! length (heap c) = Some (shut s) ∧ spawned c' = spawned c ++ [(h, length (heap c))] ∧
    items (queue s) = qs ∧ view <$> qs = received <$> (stamped i <$> p :: ps).
Proof.
  intros Hi Hps Hw Hh Hn Hlen Hrd. inversion Hps as [|? ? Hp Hps']; subst.
  unfold stream_bytes in Hrd. cbn [fmap list_fmap concat] in Hrd. rewrite <- app_assoc in Hrd.
  rewrite len_cons in Hlen. eapply reads_forced in Hrd as (c1&H1&Hrd).
  2:{ intros v Hv. apply (stream_first_step _ _ _ _ _ _ h) in Hv as (c1&q&s1&->&H1); [|done..].
      exists c1. split; [done|]. exact (ex_intro _ q (ex_intro _ s1 H1)). }
  destruct H1 as (q&s1&Hsb&Hst&Hhp&Hsw&_&?&Hi1&Hcap&Hv). pose proof Hsb as (Hw1&_&Hh1&_).
  apply (reads_open_stream i ps c1 res h (length (heap c)) s1) in Hrd
    as (c'&s'&qs&->&Hsb'&Hst'&?&?&Hi2&Hv'); try done; try congruence.
  - exists c', s', (q :: qs). split_and!; try done; try congruence.
    + by eapply same_but_streams_trans.
    + rewrite Hst', Hst. by apply delete_insert_id.
    + rewrite Hi2, Hi1. done.
    + cbn [fmap list_fmap]. by f_equal.
  - rewrite Hst. apply lookup_insert_eq.
  - rewrite Hhp, lookup_app_r, Nat.sub_diag by done. done.
  - rewrite Hi1. unfold len at 1. simpl length. lia.
Qed.

(** ** Both ends *)

Fixpoint WriteAll (ps : list Packet) : M Async (list (option Frisbee.error)) :=
  match ps with
  | [] => mret []
  | p :: ps => e ← WritePacket p; es ← WriteAll ps; mret (e :: es)
  end.

Lemma WriteAll_working ps c :
  working c → Forall (λ p, sendable p ∧ 9 < Operation (Metadata p)) ps →
  ∃ c', WriteAll ps c = (Ret (replicate (length ps) None), c') ∧ written (concat (frame <$> ps)) c c'.
Proof.
  intros Hw Hps. revert c Hw. induction Hps as [|p ps [Hp Hop] _ IH]; intros c Hw; cbn [WriteAll].
  { exists c. split; [done|]. split_and!; [done..|]. simpl. by rewrite app_nil_r. }
  destruct (writePacketN_working 1 p true c Hw Hp) as (c1&E&W1&_).
  assert (WritePacket p c = (Ret None, c1)) as E'
    by (unfold WritePacket; by replace (_ <=? RESERVED9) with false by (unfold RESERVED9; lia)).
  rewrite (bind_Ret _ _ _ _ _ E'). destruct (IH c1 (proj1 W1)) as (c2&E2&W2).
  rewrite (bind_Ret _ _ _ _ _ E2). exists c2. split; [done|].
  by eapply (written_trans (frame p)).
Qed.

(** Reading what the queue of an open connection holds. *)
Lemma ReadN_open qs c :
  async_ok c → closed c = false → items (incoming c) = qs →
  ∃ c', ReadN (length qs) c = (Ret (inl <$> qs), c') ∧ closed c' = false.
Proof.
  revert c. induction qs as [|q qs IH]; intros c Hc Ho Hi; simpl; [by exists c|].
  destruct (ok_open c Hc Ho) as (_&_&Hq&_).
  destruct (Pop_item q qs (incoming c) Hq Hi) as (q'&Ep&Hi'&_).
  assert (ReadPacket c = (Ret (inl q), set_incoming q' c)) as E.
  { unfold ReadPacket. rewrite (bind_Ret get _ c c c) by done. rewrite Ho.
    unfold mbind, M_bind, on_incoming, zoom. by rewrite Ep. }
  pose proof (ReadPacket_keeps c Hc) as Hk. unfold wp in Hk. rewrite E in Hk. destruct Hk as [? _].
  destruct (IH (set_incoming q' c)) as (c'&E'&?); [done..|].
  rewrite (bind_Ret _ _ _ _ _ E), (bind_Ret _ _ _ _ _ E'). by exists c'.
Qed.

Lemma data_Data ps : data (Data <$> ps) = ps.
Proof. induction ps as [|p ps IH]; [done|]. change (data (Data <$> p :: ps)) with (p :: data (Data <$> ps)). by rewrite IH. Qed.

Lemma encode_Data (ps : list Packet) : encode <$> (Data <$> ps) = frame <$> ps.
Proof. by rewrite <- list_fmap_compose. Qed.

(** C1: what is written on one end is read on the other.  Packets written to a
    working connection and flushed, carried over the network in whatever
    pieces, received by the read loop of a working connection with room for
    them: reading there returns the packets queued before and then exactly the
    packets written, in order, with their identifiers, operations and contents. *)
Theorem end_to_end (ps : list Packet) (w c : Async) :
  working w → stream_out (out w) = [] → Forall (λ p, sendable p ∧ 9 < Operation (Metadata p)) ps →
  working c → len (items (incoming c)) + len ps ≤ capacity (incoming c) →
  ∃ w1 w2, WriteAll ps w = (Ret (replicate (length ps) None), w1) ∧ Flush w1 = (Ret None, w2) ∧
    ∀ chunks, concat chunks = wire (aconn w2) →
      ∃ c1 c2 qs, readLoop (feed chunks None) [] c = (Block, c1) ∧
        ReadN (length (items (incoming c)) + length ps) c1 = (Ret (inl <$> items (incoming c) ++ qs), c2) ∧
        view <$> qs = received <$> ps.
Proof.
  intros Hw Hs Hps Hwc Hroom. destruct (WriteAll_working ps w Hw Hps) as (w1&E1&(Hw1&_&Hs1)).
  destruct (Flush_working w1 Hw1) as (w2&E2&_&_&Hwire&_). exists w1, w2. split_and!; [done..|].
  intros chunks Hch. rewrite Hwire, Hs1, Hs, app_nil_l, <- encode_Data in Hch.
  pose proof (readLoop_reads chunks None c) as Hrd. rewrite Hch in Hrd.
  apply reads_messages in Hrd as (c1&qs&E&(Hc1&Ho1&_)&Hv&Hi&_);
    [|by apply Forall_fmap|exact Hwc|by rewrite data_Data|apply Hwc].
  rewrite data_Data in Hv. destruct (ReadN_open _ c1 Hc1 Ho1 Hi) as (c2&E3&_).
  exists c1, c2, qs. split_and!; [exact E| |exact Hv]. rewrite <- E3. f_equal. rewrite length_app. f_equal.
  by rewrite <- (length_fmap received), <- Hv, length_fmap.
Qed.

(** C26: heartbeats are answered and leave no trace among the packets.  For any
    sequence of packets and heartbeat headers, in any pieces: the read loop ends
    up waiting for more, the packets, and nothing else, are queued in order, and
    one PONG is sent for each PING. *)
Theorem heartbeats_answered (ms : list message) (chunks : list (list byte)) (c : Async) :
  working c → Forall well_sent ms → concat chunks = concat (encode <$> ms) →
  len (items (incoming c)) + len (data ms) ≤ capacity (incoming c) →
  ∃ c' qs, readLoop (feed chunks None) [] c = (Block, c') ∧ working c' ∧
    items (incoming c') = items (incoming c) ++ qs ∧ view <$> qs = received <$> data ms ∧
    stream_out (out c') = stream_out (out c) ++ answers ms.
Proof.
  intros Hw Hms Hch Hroom. pose proof (readLoop_reads chunks None c) as Hrd.
  rewrite Hch in Hrd. apply reads_messages in Hrd as (c1&qs&E&?&?&?&?); [|assumption..|apply Hw].
  exists c1, qs. split_and!; assumption.
Qed.

(** The content of a heartbeat is taken for packets.  The loop skips the
    header of a PING but not the content it announces: when a PING carries, as
    its content, the frame of a packet [p], that packet is delivered as if the
    peer had sent it. *)
Theorem ping_content_is_parsed (ping p : Packet) (chunks : list (list byte)) (c : Async) :
  working c → sendable ping → Operation (Metadata ping) = PING → Bytes (Content ping) = frame p →
  sendable p → 9 < Operation (Metadata p) → concat chunks = frame ping →
  len (items (incoming c)) < capacity (incoming c) →
  ∃ c' q, readLoop (feed chunks None) [] c = (Block, c') ∧
    items (incoming c') = items (incoming c) ++ [q] ∧ view q = received p.
Proof.
  intros Hw (Hwf&_&Hx) Hop HB Hp Hopp Hch Hroom.
  pose proof (readLoop_reads chunks None c) as Hrd.
  assert (concat chunks = concat (encode <$> [Heartbeat (Metadata ping); Data p])) as E
    by (rewrite Hch; simpl; unfold frame at 1; by rewrite HB, app_nil_r).
  rewrite E in Hrd. apply reads_messages in Hrd as (c1&qs&E'&_&Hv&Hi&_); [|..|apply Hw].
  - destruct qs as [|q [|]]; try discriminate Hv. exists c1, q.
    assert (view q = received p) as Hq 
      by (apply (f_equal (list_lookup 0%nat)) in Hv; by apply (inj Some) in Hv).
    split_and!; assumption.
  - constructor; [split_and!; [exact Hwf|by left|exact Hx]|]. constructor; [by split|constructor].
  - exact Hw.
  - change (len (data _)) with 1. lia.
Qed.

(** *** Streams, end to end *)

Fixpoint Stream_WriteAll (sp : nat) (ps : list Packet) : M Async (list (option Frisbee.error)) :=
  match ps with
  | [] => mret []
  | p :: ps => '(e, _) ← Stream_WritePacket sp p; es ← Stream_WriteAll sp ps; mret (e :: es)
  end.

Fixpoint Stream_ReadN (sp n : nat) : M Async (list (Packet + Frisbee.error)) :=
  match n with
  | O => mret []
  | S n => r ← Stream_ReadPacket sp; rs ← Stream_ReadN sp n; mret (r :: rs)
  end.

Lemma Stream_WriteAll_working sp s ps c :
  working c → heap c !! sp = Some s → s_closed s = false → Forall (streamable (id s)) ps →
  ∃ c', Stream_WriteAll sp ps c = (Ret (replicate (length ps) None), c') ∧
    written (concat (frame <$> (stamped (id s) <$> ps))) c c'.
Proof.
  intros Hw Hs Hsc Hps. revert c Hw Hs. induction Hps as [|p ps Hp _ IH]; intros c Hw Hs; cbn [Stream_WriteAll].
  { exists c. split; [done|]. split_and!; [done..|]. simpl. by rewrite app_nil_r. }
  assert (deref sp c = (Ret s, c)) as Ed by (unfold deref; by rewrite Hs).
  assert (sendable (stamped (id s) p)) as Hsp.
  { destruct Hp as ((?&?&?)&?&?). unfold wf_metadata in *. destruct_and!. by split_and!. }
  destruct (writePacketN_working 1 (stamped (id s) p) true c Hw Hsp) as (c1&E&W1&_).
  assert (Stream_WritePacket sp p c = (Ret (None, stamped (id s) p), c1)) as E'.
  { unfold Stream_WritePacket. rewrite (bind_Ret _ _ _ _ _ Ed). rewrite Hsc.
    destruct Hp as (_&_&?). replace (ContentLength (Metadata p) =? 0) with false by lia.
    by rewrite (bind_Ret _ _ _ _ _ E). }
  rewrite (bind_Ret _ _ _ _ _ E'). pose proof W1 as (Hw1&Hsd&_). destruct Hsd as (_&_&_&_&_&_&_&Hhp&_).
  destruct (IH c1) as (c2&E2&W2); [done|congruence|].
  rewrite (bind_Ret _ _ _ _ _ E2). exists c2. split; [done|].
  by eapply (written_trans (frame (stamped (id s) p))).
Qed.

(** A closed stream gives what it had received, then reports that it is closed. *)
Lemma Stream_ReadN_stale sp s c :
  heap c !! sp = Some s → s_closed s = true →
  ∃ c', Stream_ReadN sp (length (s_stale s) + 1) c = (Ret ((inl <$> s_stale s) ++ [inr StreamClosed]), c').
Proof.
  remember (s_stale s) as qs eqn:Hq. revert s c Hq. induction qs as [|q qs IH]; intros s c Hq Hs Hsc.
  all: assert (deref sp c = (Ret s, c)) as Ed by (unfold deref; by rewrite Hs).
  - exists c. cbn [length plus Stream_ReadN]. unfold Stream_ReadPacket, stream_take_stale.
    unfold mbind, M_bind. rewrite !Ed, Hsc, Ed, <- Hq. done.
  - set (s' := mkStream (id s) (s_closed s) (queue s) qs). set (c1 := set_heap (<[sp := s']> (heap c)) c).
    assert (Stream_ReadPacket sp c = (Ret (inl q), c1)) as E.
    { unfold Stream_ReadPacket, stream_take_stale. unfold mbind, M_bind. by rewrite Ed, Hsc, Ed, <- Hq. }
    cbn [length plus Stream_ReadN]. rewrite (bind_Ret _ _ _ _ _ E).
    destruct (IH s' c1) as (c'&E'); [done| |done|].
    { simpl. apply list_lookup_insert_eq. by eapply lookup_lt_Some. }
    exists c'. by rewrite (bind_Ret _ _ _ _ _ E').
Qed.

(** C11: a stream, from its first packet to its end.  One side writes packets
    with content on an open stream, closes it and flushes; the other side has a
    handler and no such stream.  However the bytes are cut, the handler is
    started once, on a new stream; reading from that stream gives the packets
    written, in order, stamped with the identifier of the stream, and then
    [StreamClosed]; the stream is unregistered on both sides, and the queue of
    ordinary packets is untouched. *)
Theorem stream_end_to_end (p : Packet) (ps : list Packet) (wsp : nat) (ws : Stream) (h : Z) (w c : Async) :
  working w → stream_out (out w) = [] → heap w !! wsp = Some ws → s_closed ws = false →
  is_uint16 (id ws) → Forall (streamable (id ws)) (p :: ps) →
  working c → newStreamHandler c = Some h → streams c !! id ws = None →
  len (p :: ps) ≤ DefaultStreamBufferSize →
  ∃ w1 w2 w3, Stream_WriteAll wsp (p :: ps) w = (Ret (replicate (length (p :: ps)) None), w1) ∧
    Stream_Close wsp w1 = (Ret None, w2) ∧ Flush w2 = (Ret None, w3) ∧ streams w3 !! id ws = None ∧
    ∀ chunks, concat chunks = wire (aconn w3) →
      ∃ c1 c2 sp qs, readLoop (feed chunks None) [] c = (Block, c1) ∧
        spawned c1 = spawned c ++ [(h, sp)] ∧
        Stream_ReadN sp (length (p :: ps) + 1) c1 = (Ret ((inl <$> qs) ++ [inr StreamClosed]), c2) ∧
        view <$> qs = received <$> (stamped (id ws) <$> p :: ps) ∧
        streams c1 !! id ws = None ∧ incoming c1 = incoming c.
Proof.
  intros Hw Hso Hs Hsc Hi Hps Hwc Hh Hn Hlen.
  destruct (Stream_WriteAll_working wsp ws (p :: ps) w Hw Hs Hsc Hps) as (w1&E1&(Hw1&Hsd1&Ho1)).
  destruct Hsd1 as (_&_&_&_&_&_&_&Hhp1&_).
  destruct (Stream_Close_working wsp ws w1) as (w2&E2&Hw2&Ho2&Hst2&_); [done|congruence|done..|].
  destruct (Flush_working w2 Hw2) as (w3&E3&_&Hsd3&Hwire&_).
  destruct Hsd3 as (_&_&_&_&_&_&Hst3&_).
  exists w1, w2, w3. split_and!; [done..|by rewrite Hst3, Hst2, lookup_delete_eq|].
  intros chunks Hch. rewrite Hwire, Ho2, Ho1, Hso, app_nil_l in Hch.
  pose proof (readLoop_reads chunks None c (proj1 Hwc)) as Hrd. rewrite Hch in Hrd.
  apply (reads_new_stream _ _ _ _ _ h) in Hrd as (c1&s&qs&E&(_&?&_)&Hst&Hhp&?&Hq&Hv); [|assumption..].
  destruct (shut_fields s) as [_ Hcl]. destruct (Stream_ReadN_stale _ _ c1 Hhp Hcl) as (c2&Er).
  rewrite shut_stale, Hq in Er.
  assert (length qs = length (p :: ps)) as Hl
    by (rewrite <- (length_fmap view), Hv, !length_fmap; done).
  exists c1, c2, (length (heap c)), qs. rewrite <- Hl.
  split_and!; try assumption. by rewrite Hst.
Qed.

End wire.

Import concrete.

Lemma hello_streamable i : is_uint16 i → streamable i hello.
Proof. intros. split_and!; [apply hello_sendable|done|done]. Qed.

Lemma end_to_end_witness :
  ∃ w1 w2, WriteAll [hello; hello] (fresh_conn []) = (Ret [None; None], w1) ∧ Flush w1 = (Ret None, w2) ∧
    ∀ chunks, concat chunks = wire (aconn w2) →
      ∃ c1 c2 qs, readLoop (feed chunks None) [] (fresh_conn []) = (Block, c1) ∧
        ReadN 2 c1 = (Ret (inl <$> qs), c2) ∧ view <$> qs = received <$> [hello; hello].
Proof.
  pose proof hello_sendable.
  apply (end_to_end [hello; hello] (fresh_conn []) (fresh_conn [])); [apply fresh_working|done| |apply fresh_working|done].
  repeat constructor; done.
Defined.

Definition ping_metadata : metadata.Metadata := mkMetadata 0 0 PING 0.

(** A packet between two heartbeats. *)
Lemma heartbeats_answered_witness :
  let ms := [Heartbeat ping_metadata; Data hello; Heartbeat ping_metadata] in
  ∃ c' qs, readLoop (feed (encode <$> ms) None) [] (fresh_conn []) = (Block, c') ∧ working c' ∧
    items (incoming c') = items (incoming (fresh_conn [])) ++ qs ∧ view <$> qs = received <$> [hello] ∧
    stream_out (out c') = stream_out (out (fresh_conn [])) ++ frame PONGPacket ++ frame PONGPacket.
Proof.
  intros ms. pose proof hello_sendable.
  apply (heartbeats_answered ms (encode <$> ms) (fresh_conn [])); [apply fresh_working| |done|done].
  assert (well_sent (Heartbeat ping_metadata)) by (split_and!; [done|by left|done]).
  repeat constructor; done.
Defined.

(** A PING whose content is the frame of [hello]. *)
Definition loaded_ping : Packet := mkPacket (mkMetadata 0 0 PING 13) (frame hello : list byte).

Lemma ping_content_is_parsed_witness :
  ∃ c' q, readLoop (feed [frame loaded_ping] None) [] (fresh_conn []) = (Block, c') ∧
    items (incoming c') = items (incoming (fresh_conn [])) ++ [q] ∧ view q = received hello.
Proof.
  apply (ping_content_is_parsed loaded_ping hello [frame loaded_ping] (fresh_conn []));
    [apply fresh_working|split_and!; done|done|done|apply hello_sendable|done|done|done].
Defined.

(** The connection of the receiver, with a handler for new streams. *)
Definition handling_conn : Async := set_newStreamHandler (Some 1) (fresh_conn []).

Lemma handling_working : working handling_conn.
Proof. pose proof (fresh_conn_ok []) as []. split; [by split|by split_and!]. Qed.

Lemma stream_end_to_end_witness :
  ∃ w1 w2 w3, Stream_WriteAll 0 [hello; hello] busy_conn = (Ret [None; None], w1) ∧
    Stream_Close 0 w1 = (Ret None, w2) ∧ Flush w2 = (Ret None, w3) ∧ streams w3 !! 5 = None ∧
    ∀ chunks, concat chunks = wire (aconn w3) →
      ∃ c1 c2 sp qs, readLoop (feed chunks None) [] handling_conn = (Block, c1) ∧
        spawned c1 = spawned handling_conn ++ [(1, sp)] ∧
        Stream_ReadN sp 3 c1 = (Ret ((inl <$> qs) ++ [inr StreamClosed]), c2) ∧
        view <$> qs = received <$> (stamped 5 <$> [hello; hello]) ∧
        streams c1 !! 5 = None ∧ incoming c1 = incoming handling_conn.
Proof.
  apply (stream_end_to_end hello [hello] 0 (newStream 5) 1 busy_conn handling_conn);
    [apply busy_working|done|done|done|done| |apply handling_working|done|done|done].
  pose proof (hello_streamable 5 ltac:(done)). repeat constructor; done.
Defined.

End wire.
