(* ===== verification/Options.v ===== *)
(** * Options (options.go)

    An option is a function on the options record; [loadOptions] applies them in
    order and fills in the defaults.  Durations are nanoseconds; loggers and TLS
    configurations are known by a number. *)

From S2P Require Import Prelude.

Module options.

Record Options := mkOptions {
  KeepAlive : Z;
  Logger : option Z;
  TLSConfig : option Z;
}.

Definition Option_ := Options → Options.

(** [new(Options)]. *)
Definition zeroOptions : Options := mkOptions 0 None None.

Definition Minute : Z := 60 * 1000000000.

Section options.
(** [noop.New(types.InfoLevel)]. *)
Context (noop : Z).

(** The two defaults at the end of [loadOptions]. *)
Definition default_logger (opts : Options) : Options :=
  match Logger opts with
  | None => mkOptions (KeepAlive opts) (Some noop) (TLSConfig opts)
  | Some _ => opts
  end.

Definition default_keepalive (opts : Options) : Options :=
  if KeepAlive opts =? 0 then mkOptions (Minute * 3) (Logger opts) (TLSConfig opts) else opts.

Definition loadOptions (options : list Option_) : Options :=
  default_keepalive (default_logger (fold_left (λ opts option, option opts) options zeroOptions)).

Definition WithOptions (options : Options) : Option_ := λ _, options.
Definition WithKeepAlive (keepAlive : Z) : Option_ := λ opts,
  mkOptions keepAlive (Logger opts) (TLSConfig opts).
Definition WithLogger (logger : option Z) : Option_ := λ opts,
  mkOptions (KeepAlive opts) logger (TLSConfig opts).
Definition WithTLS (tlsConfig : option Z) : Option_ := λ opts,
  mkOptions (KeepAlive opts) (Logger opts) tlsConfig.

(** ** What the options come to *)

(** The value each field has after the options, before the defaults: the last
    option that sets it. *)
Inductive setting :=
  | SetAll (o : Options) | SetKeepAlive (k : Z) | SetLogger (l : option Z) | SetTLS (t : option Z).

Definition option_of (s : setting) : Option_ :=
  match s with
  | SetAll o => WithOptions o
  | SetKeepAlive k => WithKeepAlive k
  | SetLogger l => WithLogger l
  | SetTLS t => WithTLS t
  end.

Definition sets_keepalive (s : setting) : option Z :=
  match s with SetAll o => Some (KeepAlive o) | SetKeepAlive k => Some k | _ => None end.
Definition sets_logger (s : setting) : option (option Z) :=
  match s with SetAll o => Some (Logger o) | SetLogger l => Some l | _ => None end.
Definition sets_tls (s : setting) : option (option Z) :=
  match s with SetAll o => Some (TLSConfig o) | SetTLS t => Some t | _ => None end.

Lemma fold_settings (ss : list setting) o :
  fold_left (λ opts option, option opts) (option_of <$> ss) o =
  mkOptions (default (KeepAlive o) (list.last (omap sets_keepalive ss)))
            (default (Logger o) (list.last (omap sets_logger ss)))
            (default (TLSConfig o) (list.last (omap sets_tls ss))).
Proof.
  revert o. induction ss as [|s ss IH]; intros o; [by destruct o|]. cbn [fmap list_fmap fold_left].
  rewrite IH. assert (∀ A (f : setting → option A), list.last (omap f (s :: ss)) =
    match list.last (omap f ss) with Some y => Some y | None => f s end) as Hl.
  { intros A f.
    change (omap f (s :: ss)) with (match f s with Some y => y :: omap f ss | None => omap f ss end).
    destruct (f s); [apply last_cons|]. by destruct (list.last (omap f ss)). }
  rewrite !Hl. f_equal; [destruct (list.last (omap sets_keepalive ss))
    |destruct (list.last (omap sets_logger ss))|destruct (list.last (omap sets_tls ss))]; by destruct s.
Qed.

(** The options.  For any list of options, each field of the result is the
    one given last; a keep-alive of zero, given or not, becomes three minutes and
    a missing logger the no-op logger, so neither is ever missing; and loading
    options that were loaded before changes nothing. *)
Theorem loadOptions_spec (ss : list setting) :
  let o := loadOptions (option_of <$> ss) in
  let k := default 0 (list.last (omap sets_keepalive ss)) in
  KeepAlive o = (if bool_decide (k = 0) then 180 * 1000000000 else k) ∧
  Logger o = Some (default noop (mjoin (list.last (omap sets_logger ss)))) ∧
  TLSConfig o = mjoin (list.last (omap sets_tls ss)) ∧
  loadOptions [WithOptions o] = o.
Proof.
  intros o k. subst o. unfold loadOptions. rewrite fold_settings. cbn [KeepAlive Logger TLSConfig zeroOptions].
  fold k. assert (∀ (x : option (option Z)), default None x = mjoin x) as Hj by by intros [[]|].
  rewrite !Hj. set (l := mjoin (list.last (omap sets_logger ss))). set (t := mjoin (list.last (omap sets_tls ss))).
  assert (bool_decide (k = 0) = (k =? 0)) as -> by (case_bool_decide; lia).
  unfold default_keepalive, default_logger, WithOptions. cbn.
  destruct l as [l|]; cbn; destruct (k =? 0) eqn:E; cbn; rewrite ?E; by split_and!.
Qed.

End options.
End options.
