(* ===== verification/Dialer.v ===== *)
(** * Dialing with retries (internal/dialer)

    The dialers of the standard library are parameters: the result of each
    successive attempt. *)

From S2P Require Import Prelude Frisbee.

Module dialer.

(** [Retry]: the timeout and the keep-alive of the underlying dialer, in
    nanoseconds, and the number of attempts, a Go [int]. *)
Record Retry := mkRetry {
  Timeout : Z;
  DialerKeepAlive : Z;
  NumRetries : Z;
}.

Definition Second : Z := 1000000000.

Definition NewRetry : Retry := mkRetry Second (Second * 15) 10.

Section dialer.
Context {C : Type}.

(** One attempt of [net.Dialer.Dial] or [tls.Dialer.Dial]. *)
Context (attempt : nat → option C * option error).

(** The loop with its named results; the number of attempts made comes along. *)
Fixpoint dial_loop (m i : nat) (c : option C) (err : option error) : option C * option error * nat :=
  match m with
  | O => (c, err, i)
  | S m =>
      let '(c, err) := attempt i in
      match err with
      | None => (c, err, S i)
      | Some _ => dial_loop m (S i) c err
      end
  end.

(** [Dial] and [DialTLS], which differ in the dialer only. *)
Definition Dial (r : Retry) : option C * option error * nat :=
  dial_loop (Z.to_nat (NumRetries r)) 0 None None.

Lemma dial_loop_spec m i c err :
  (∃ k, (i ≤ k < i + m)%nat ∧ (attempt k).2 = None ∧
     (∀ j, (i ≤ j < k)%nat → (attempt j).2 ≠ None) ∧
     dial_loop m i c err = ((attempt k).1, None, S k)) ∨
  ((∀ j, (i ≤ j < i + m)%nat → (attempt j).2 ≠ None) ∧
     dial_loop m i c err =
       (if decide (m = 0%nat) then (c, err) else attempt (i + m - 1)%nat, (i + m)%nat)).
Proof.
  revert i c err. induction m as [|m IH]; intros i c err; simpl.
  - right. split; [lia|]. by rewrite Nat.add_0_r.
  - destruct (attempt i) as [c' [e|]] eqn:E.
    + destruct (IH (S i) c' (Some e)) as [(k&?&?&Hj&->)|[Hj ->]].
      * left. exists k. split_and!; [lia|lia|done| |done]. intros j Hlt.
        destruct (decide (j = i)) as [->|]; [by rewrite E|]. apply Hj. lia.
      * right. split.
        -- intros j Hlt. destruct (decide (j = i)) as [->|]; [by rewrite E|]. apply Hj. lia.
        -- destruct (decide (m = 0%nat)) as [->|]; simpl.
           ++ f_equal; [|lia]. rewrite <- E. f_equal. lia.
           ++ f_equal; [|lia]. f_equal. lia.
    + left. exists i. rewrite E. split_and!; try done; lia.
Qed.

Lemma Dial_cases (r : Retry) :
  0 < NumRetries r →
  (∃ k, (k < Z.to_nat (NumRetries r))%nat ∧ (attempt k).2 = None ∧
     (∀ j, (j < k)%nat → (attempt j).2 ≠ None) ∧ Dial r = ((attempt k).1, None, S k)) ∨
  ((∀ j, (j < Z.to_nat (NumRetries r))%nat → (attempt j).2 ≠ None) ∧
     Dial r = (attempt (Z.to_nat (NumRetries r) - 1)%nat, Z.to_nat (NumRetries r))).
Proof.
  intros Hn. unfold Dial.
  destruct (dial_loop_spec (Z.to_nat (NumRetries r)) 0 None None) as [(k&?&?&Hj&->)|[Hj ->]].
  - left. exists k. split_and!; [lia|done| |done]. intros j ?. apply Hj. lia.
  - right. split; [intros j ?; apply Hj; lia|]. by rewrite decide_False by lia.
Qed.

(** Dialing.  With [n > 0] attempts allowed, [Dial] makes attempts until one
    succeeds and returns the connection of the first that does, without trying
    further; when the [n] attempts all fail, it returns what the last one
    returned. *)
Theorem Dial_retries (r : Retry) :
  0 < NumRetries r →
  (∃ k, (k < Z.to_nat (NumRetries r))%nat ∧ (attempt k).2 = None ∧
     (∀ j, (j < k)%nat → (attempt j).2 ≠ None) ∧ Dial r = ((attempt k).1, None, S k)) ∨
  ((∀ j, (j < Z.to_nat (NumRetries r))%nat → (attempt j).2 ≠ None) ∧
     Dial r = (attempt (Z.to_nat (NumRetries r) - 1)%nat, Z.to_nat (NumRetries r))).
Proof. apply Dial_cases. Qed.

(** Without attempts there is neither a connection nor an error. *)
Lemma Dial_nothing r : NumRetries r ≤ 0 → Dial r = (None, None, 0%nat).
Proof. intros. unfold Dial. by replace (Z.to_nat (NumRetries r)) with 0%nat by lia. Qed.

End dialer.

(** A server that comes up for the third attempt. *)
Lemma Dial_retries_witness :
  let attempt := λ k, if (k <? 2)%nat then (None, Some (IOError 111)) else (Some k, None : option error) in
  (∃ k, (k < 10)%nat ∧ (attempt k).2 = None ∧ (∀ j, (j < k)%nat → (attempt j).2 ≠ None) ∧
     Dial attempt NewRetry = ((attempt k).1, None, S k)) ∨
  ((∀ j, (j < 10)%nat → (attempt j).2 ≠ None) ∧ Dial attempt NewRetry = (attempt 9%nat, 10%nat)).
Proof.
  intros attempt. apply (Dial_retries attempt NewRetry). done.
Defined.

End dialer.
