(* ===== verification/Connect.v ===== *)
(** * Connecting, and the TLS side of a connection (async.go, sync.go)

    [ConnectAsync] and [ConnectSync] dial with retries and wrap what they get.
    Here the dynamic type of a [net.Conn] matters: the code asserts that a plain
    TCP dial gave a [*net.TCPConn], and the accessors [ConnectionState],
    [Handshake] and [HandshakeContext] ask for a [*tls.Conn].  A TLS session and
    its handshake are parameters. *)

From S2P Require Import Prelude Frisbee GoStd Interfaces Metadata Packet Sync Async Concrete Dialer.

Module connect.
Import dialer.

(** What [crypto/tls] offers of a session: its state, and the handshake under a
    context ([None]: the background context). *)
Class TLS := {
  Session : Type;
  State : Type;
  emptyState : State;
  session_State : Session → State;
  session_Handshake : option Z → Session → option error * Session;
}.

Section connect.
Context {T : TLS}.

(** A [net.Conn] by its dynamic type.  Of a TCP connection the keep-alive options
    are kept, and whether the system refuses to change them. *)
Inductive net_Conn :=
  | TCPConn (c : WConn) (refuses : bool) (keepAlive : bool) (period : Z)
  | TLSConn (c : WConn) (s : Session)
  | OtherConn (c : WConn).

Definition transport (c : net_Conn) : WConn :=
  match c with TCPConn k _ _ _ | TLSConn k _ | OtherConn k => k end.

(** The assertion that [conn] is a [*net.TCPConn], then [SetKeepAlive(on)] or
    [SetKeepAlivePeriod(d)], errors ignored; the assertion panics on any other type, and on nil. *)
Definition SetKeepAlive (on : bool) (c : option net_Conn) : outcome (option net_Conn) :=
  match c with
  | Some (TCPConn k r ka p) => Ret (Some (TCPConn k r (if r then ka else on) p))
  | _ => Panic TypeAssertion
  end.

Definition SetKeepAlivePeriod (d : Z) (c : option net_Conn) : outcome (option net_Conn) :=
  match c with
  | Some (TCPConn k r ka p) => Ret (Some (TCPConn k r ka (if r then p else d)))
  | _ => Panic TypeAssertion
  end.

Definition ConnectionState (c : net_Conn) : State * option error :=
  match c with
  | TLSConn _ s => (session_State s, None)
  | _ => (emptyState, Some NotTLSConnectionError)
  end.

(** [HandshakeContext(ctx)], and [Handshake()] for no context. *)
Definition HandshakeContext (ctx : option Z) (c : net_Conn) : option error * net_Conn :=
  match c with
  | TLSConn k s => let '(e, s) := session_Handshake ctx s in (e, TLSConn k s)
  | _ => (Some NotTLSConnectionError, c)
  end.

Definition Handshake (c : net_Conn) : option error * net_Conn := HandshakeContext None c.

(** The attempts of the two dialers, in order. *)
Context (dial_tcp dial_tls : nat → option net_Conn * option error).

(** The part [ConnectAsync] and [ConnectSync] share; a nil connection with a nil
    error is handed on as the code hands it on, [None]. *)
Definition dial (keepAlive : Z) (useTLS : bool) : outcome (option net_Conn + error) :=
  let d := NewRetry in
  if useTLS then
    let '(c, err, _) := Dial dial_tls d in
    match err with Some e => Ret (inr e) | None => Ret (inl c) end
  else
    let '(c, err, _) := Dial dial_tcp d in
    match err with
    | Some e => Ret (inr e)
    | None =>
        match SetKeepAlive true c with
        | Ret c =>
            match SetKeepAlivePeriod keepAlive c with
            | Ret c => Ret (inl c)
            | Panic w => Panic w | Block => Block | OutOfFuel => OutOfFuel
            end
        | Panic w => Panic w | Block => Block | OutOfFuel => OutOfFuel
        end
    end.

(** What the two dialers promise: an attempt without an error gives a connection,
    of the type that belongs to the dialer. *)
Definition tcp_dialer : Prop :=
  ∀ i, (dial_tcp i).2 = None → ∃ k r ka p, (dial_tcp i).1 = Some (TCPConn k r ka p).
Definition tls_dialer : Prop :=
  ∀ i, (dial_tls i).2 = None → ∃ k s, (dial_tls i).1 = Some (TLSConn k s).

Definition attempts (useTLS : bool) : nat → option net_Conn * option error :=
  if useTLS then dial_tls else dial_tcp.

(** The connection that comes out of a dial that gave [c]. *)
Definition tuned (keepAlive : Z) (c : net_Conn) : net_Conn :=
  match c with
  | TCPConn k false _ _ => TCPConn k false true keepAlive
  | c => c
  end.

Lemma dial_spec keepAlive useTLS :
  tcp_dialer → tls_dialer →
  (∃ k c, (k < 10)%nat ∧ (∀ j, (j < k)%nat → (attempts useTLS j).2 ≠ None) ∧
     attempts useTLS k = (Some c, None) ∧
     dial keepAlive useTLS = Ret (inl (Some (tuned keepAlive c))) ∧
     ((ConnectionState (tuned keepAlive c)).2 = None ↔ useTLS = true)) ∨
  ((∀ j, (j < 10)%nat → (attempts useTLS j).2 ≠ None) ∧
     ∃ e, (attempts useTLS 9%nat).2 = Some e ∧ dial keepAlive useTLS = Ret (inr e)).
Proof.
  intros Htcp Htls. unfold dial, attempts.
  destruct useTLS.
  - destruct (Dial_cases dial_tls NewRetry) as [(k&Hk&Hn&Hj&->)|[Hj ->]]; [done| |].
    + left. destruct (Htls k Hn) as (c&s&Hc). exists k, (TLSConn c s). rewrite Hc.
      split_and!; [exact Hk|done|by destruct (dial_tls k); simpl in *; subst|done|done].
    + right. split; [exact Hj|]. change (Z.to_nat _ - 1)%nat with 9%nat.
      specialize (Hj 9%nat ltac:(vm_compute; lia)). destruct (dial_tls 9) as [c [e|]]; [|done]. by exists e.
  - destruct (Dial_cases dial_tcp NewRetry) as [(k&Hk&Hn&Hj&->)|[Hj ->]]; [done| |].
    + left. destruct (Htcp k Hn) as (c&r&ka&p&Hc). exists k, (TCPConn c r ka p). rewrite Hc.
      split_and!; [exact Hk|done|by destruct (dial_tcp k); simpl in *; subst|by destruct r|by destruct r].
    + right. split; [exact Hj|]. change (Z.to_nat _ - 1)%nat with 9%nat.
      specialize (Hj 9%nat ltac:(vm_compute; lia)). destruct (dial_tcp 9) as [c [e|]]; [|done]. by exists e.
Qed.

Section wrap.
Context {G : Globals} {PB : Polyglot} {CQ : CircularQueue} {PP : packet.PacketPool} {BP : metadata.BufferPool}.

(** [NewAsync] and [NewSync] take any [net.Conn]; a nil one would panic at its
    first use, which is put here. *)
Definition ConnectAsync (keepAlive : Z) (useTLS : bool) (handler : option Z) (pl : Pool PP) (bl : Pool BP)
    : outcome (net_Conn * async.Async + error) :=
  match dial keepAlive useTLS with
  | Ret (inl (Some c)) => Ret (inl (c, async.NewAsync (transport c) handler pl bl))
  | Ret (inl None) => Panic NilDereference
  | Ret (inr e) => Ret (inr e)
  | Panic w => Panic w | Block => Block | OutOfFuel => OutOfFuel
  end.

Definition ConnectSync (keepAlive : Z) (useTLS : bool) (rx : script) (pl : Pool PP) (race : list sync.rival)
    : outcome (net_Conn * sync.Sync + error) :=
  match dial keepAlive useTLS with
  | Ret (inl (Some c)) => Ret (inl (c, sync.NewSync (transport c) rx pl race))
  | Ret (inl None) => Panic NilDereference
  | Ret (inr e) => Ret (inr e)
  | Panic w => Panic w | Block => Block | OutOfFuel => OutOfFuel
  end.


End wrap.
End connect.

Import concrete.


End connect.
