(* ===== verification/Conn.v ===== *)
(** * The interface of connections (conn.go)

    [Conn] is what [Async] and [Sync] have in common, as a class with an instance
    for each; [ConnLaws] is what users of the interface may rely on.  Theorems
    about users are proved against the laws, and so hold for both kinds.

    A connection is wrapped with what its accessors show: the socket it was made
    from, by its dynamic type, and the logger. *)

From S2P Require Import Prelude Frisbee GoStd Interfaces Metadata Packet Sync Async Concrete AsyncSpec ReadLoop ReadSpec Wire Connect.

Module conns.
Import metadata packet connect.

(** The addresses of a socket ([net.Conn]). *)
Class Addresses `{T : TLS} := {
  Addr : Type;
  socket_LocalAddr : net_Conn → Addr;
  socket_RemoteAddr : net_Conn → Addr;
}.

Record Wrapped `{T : TLS} (C : Type) := mkWrapped {
  socket : net_Conn;
  logger : Z;
  inner : C;
}.
Arguments mkWrapped {T C} _ _ _.
Arguments socket {T C} _.
Arguments logger {T C} _.
Arguments inner {T C} _.

Section wrapped.
Context {T : TLS} {A : Addresses} {C : Type}.

Definition set_inner (v : C) (c : Wrapped C) : Wrapped C := mkWrapped (socket c) (logger c) v.
Definition on_inner {B} (m : M C B) : M (Wrapped C) B := zoom inner set_inner m.

(** The socket with what has become of its transport. *)
Definition with_transport (w : WConn) (s : net_Conn) : net_Conn :=
  match s with
  | TCPConn _ r ka p => TCPConn w r ka p
  | TLSConn _ s => TLSConn w s
  | OtherConn _ => OtherConn w
  end.

Definition on_socket {B} (f : net_Conn → B * net_Conn) : M (Wrapped C) B := λ c,
  let '(b, s) := f (socket c) in (Ret b, mkWrapped s (logger c) (inner c)).
End wrapped.

(** ** The interface *)

Class Conn {PB : Polyglot} {T : TLS} {A : Addresses} (K : Type) := {
  conn_Close : M K (option error);
  conn_LocalAddr : K → Addr;
  conn_RemoteAddr : K → Addr;
  conn_ConnectionState : K → State * option error;
  conn_Handshake : M K (option error);
  conn_HandshakeContext : Z → M K (option error);
  conn_SetDeadline : M K (option error);
  conn_SetReadDeadline : M K (option error);
  conn_SetWriteDeadline : M K (option error);
  conn_WritePacket : Packet → M K (option error);
  conn_ReadPacket : M K (Packet + error);
  conn_Logger : K → Z;
  conn_Error : K → option error;
  conn_Raw : M K net_Conn;
}.

Section users.
Context {G : Globals} {PB : Polyglot} {T : TLS} {A : Addresses}.

(** Packets for the application: what both kinds let through. *)
Definition application (p : Packet) : Prop := sendable p ∧ 9 < Operation (Metadata p).

(** What happens at the sending end: the user sends a packet, or the time for a
    ping has come. *)
Inductive act := Send (p : Packet) | Tick.

Definition act_ok (a : act) : Prop := match a with Send p => application p | Tick => True end.

(** The packets of [acts], with or without a ping for every tick. *)
Definition transmitted (pings : bool) : list act → list Packet :=
  flat_map (λ a, match a with Send p => [p] | Tick => if pings then [async.PINGPacket] else [] end).

(** [tick] is what the connection does when the time for a ping has come. *)
Fixpoint SendAll {K} {CN : Conn K} (tick : M K unit) (acts : list act) : M K (list (option error)) :=
  match acts with
  | [] => mret []
  | Send p :: acts => e ← conn_WritePacket p; es ← SendAll tick acts; mret (e :: es)
  | Tick :: acts => tick;; SendAll tick acts
  end.

Fixpoint ReceiveN {K} {CN : Conn K} (n : nat) : M K (list (Packet + error)) :=
  match n with
  | O => mret []
  | S n => r ← conn_ReadPacket; rs ← ReceiveN n; mret (r :: rs)
  end.

(** [usable] connections are open on a healthy socket; [sent] is what was accepted
    so far and [on_wire] what the peer was given; [idle] connections have received
    nothing and can receive [n] packets; [arrives] is the peer's bytes coming in, in
    pieces; [tick] is a turn of the ping loop, where there is one ([pings]), and
    [shows] says that a ping of the peer is handed to the user like any packet. *)
Class ConnLaws (K : Type) {CN : Conn K} := {
  usable : K → Prop;
  idle : nat → K → Prop;
  sent : K → list byte;
  on_wire : K → list byte;
  ended : K → Prop;
  arrives : list (list byte) → K → K;
  tick : M K unit;
  pings : bool;
  shows : bool;
  law_write p c : usable c → application p →
    ∃ c', conn_WritePacket p c = (Ret None, c') ∧ usable c' ∧ sent c' = sent c ++ frame p;
  law_tick c : usable c →
    ∃ c', tick c = (Ret tt, c') ∧ usable c' ∧ sent c' = sent c ++ (if pings then frame async.PINGPacket else []);
  law_length p c : usable c → 9 < Operation (Metadata p) → ContentLength (Metadata p) ≠ len (Bytes (Content p)) →
    conn_WritePacket p c = (Ret (Some InvalidContentLength), c);
  law_close c : usable c →
    ∃ c', conn_Close c = (Ret None, c') ∧ ended c' ∧ on_wire c' = sent c;
  law_raw c : usable c →
    ∃ s c', conn_Raw c = (Ret s, c') ∧ ended c' ∧ GoStd.wire (transport s) = sent c ∧ conn_closed (transport s) = false;
  law_close_again c : ended c → conn_Close c = (Ret None, c);
  law_refused p c : ended c → application p →
    ∃ c', conn_WritePacket p c = (Ret (Some ConnectionClosed), c') ∧ ended c' ∧ on_wire c' = on_wire c;
  law_read chunks acts c : usable c → idle (length (transmitted shows acts)) c → Forall act_ok acts →
    concat chunks = concat (frame <$> transmitted true acts) →
    ∃ qs c', ReceiveN (length (transmitted shows acts)) (arrives chunks c) = (Ret (inl <$> qs), c') ∧
      view <$> qs = received <$> transmitted shows acts;
}.

(** ** What a user can do with any connection *)

Lemma transmitted_cons b a acts : transmitted b (a :: acts) = transmitted b [a] ++ transmitted b acts.
Proof. unfold transmitted. simpl. by rewrite app_nil_r. Qed.

Lemma transmitted_Send b ps : transmitted b (Send <$> ps) = ps.
Proof. induction ps as [|p ps IH]; [done|]. by rewrite fmap_cons, transmitted_cons, IH. Qed.

Lemma transmitted_application acts : Forall act_ok acts → Forall application (transmitted false acts).
Proof.
  induction 1 as [|a acts Ha _ IH]; [constructor|]. rewrite transmitted_cons. apply Forall_app. split; [|done].
  destruct a; [constructor; [exact Ha|]|]; constructor.
Qed.

Lemma SendAll_usable {K} {CN : Conn K} {CL : ConnLaws K} acts (c : K) :
  usable c → Forall act_ok acts →
  ∃ c', SendAll tick acts c = (Ret (replicate (length (transmitted false acts)) None), c') ∧ usable c' ∧
    sent c' = sent c ++ concat (frame <$> transmitted pings acts).
Proof.
  intros Hu Hacts. revert c Hu. induction Hacts as [|a acts Ha _ IH]; intros c Hu; cbn [SendAll].
  { exists c. by rewrite app_nil_r. }
  rewrite (transmitted_cons false), (transmitted_cons pings), fmap_app, concat_app. destruct a as [p|].
  - destruct (law_write p c Hu Ha) as (c1&E1&Hu1&Hs1). rewrite (bind_Ret _ _ _ _ _ E1).
    destruct (IH c1 Hu1) as (c2&E2&Hu2&Hs2). rewrite (bind_Ret _ _ _ _ _ E2).
    exists c2. split_and!; [done..|]. rewrite Hs2, Hs1, <- app_assoc. simpl. by rewrite app_nil_r.
  - destruct (law_tick c Hu) as (c1&E1&Hu1&Hs1). rewrite (bind_Ret _ _ _ _ _ E1).
    destruct (IH c1 Hu1) as (c2&E2&Hu2&Hs2). exists c2. split_and!; [done..|].
    rewrite Hs2, Hs1, <- app_assoc. f_equal. f_equal. destruct pings; [|done]. simpl. by rewrite app_nil_r.
Qed.

(** Packets sent on a connection of one kind, with any number of ticks in
    between, and then closed, are received on a connection of another, however they
    are cut on the way, with or without the pings; a sender that was closed lets
    nothing more out. *)
Definition carries (W R : Type) `{!Conn W} `{!Conn R} `{!ConnLaws W} `{!ConnLaws R} (with_pings : bool) : Prop :=
  ∀ (acts : list act) (w : W) (r : R),
    let ps := transmitted with_pings acts in
    usable w → sent w = [] → Forall act_ok acts → usable r → idle (length ps) r →
    ∃ w1 w2, SendAll tick acts w = (Ret (replicate (length (transmitted false acts)) None), w1) ∧
      conn_Close w1 = (Ret None, w2) ∧ conn_Close w2 = (Ret None, w2) ∧
      (∃ s w2', conn_Raw w1 = (Ret s, w2') ∧ GoStd.wire (transport s) = on_wire w2 ∧ conn_closed (transport s) = false) ∧
      (∀ p, application p → ∃ w3, conn_WritePacket p w2 = (Ret (Some ConnectionClosed), w3) ∧ on_wire w3 = on_wire w2) ∧
      ∀ chunks, concat chunks = on_wire w2 →
        ∃ qs r', ReceiveN (length ps) (arrives chunks r) = (Ret (inl <$> qs), r') ∧ view <$> qs = received <$> ps.

(** A reader of what a writer has put on the wire. *)
Lemma read_transmitted {R} {CN : Conn R} {CL : ConnLaws R} (beats : bool) acts chunks (r : R) :
  let ps := transmitted (beats && shows) acts in
  usable r → idle (length ps) r → Forall act_ok acts → concat chunks = concat (frame <$> transmitted beats acts) →
  ∃ qs r', ReceiveN (length ps) (arrives chunks r) = (Ret (inl <$> qs), r') ∧ view <$> qs = received <$> ps.
Proof.
  intros ps Hr Hi Hacts Hch. destruct beats; [by apply law_read|]. unfold ps in *. cbn [andb] in *.
  pose proof (transmitted_Send shows (transmitted false acts)) as E. rewrite <- E in Hi |- *.
  apply law_read; [done|done| |].
  - apply Forall_fmap. eapply Forall_impl; [|by apply transmitted_application]. done.
  - by rewrite transmitted_Send.
Qed.

Lemma laws_carry (W R : Type) `{!Conn W} `{!Conn R} {LW : ConnLaws W} {LR : ConnLaws R} :
  carries W R (pings (ConnLaws := LW) && shows (ConnLaws := LR)).
Proof.
  intros acts w r ps Hw Hs Hacts Hr Hi. destruct (SendAll_usable acts w Hw Hacts) as (w1&E1&Hw1&Hs1).
  destruct (law_close w1 Hw1) as (w2&E2&Hend&Hwire). exists w1, w2.
  split_and!; [done|done|by apply law_close_again| | |].
  - destruct (law_raw w1 Hw1) as (s&w3&E3&_&Hs3&?). exists s, w3. split_and!; [done| |done]. congruence.
  - intros p Hp. destruct (law_refused p w2 Hend Hp) as (w3&?&_&?). by exists w3.
  - intros chunks Hch. apply read_transmitted; [done..|]. by rewrite Hch, Hwire, Hs1, Hs.
Qed.

End users.

(** ** The two kinds of connections *)

Section kinds.
Context {G : Globals} {PB : Polyglot} {CQ : CircularQueue} {PP : PacketPool} {BP : BufferPool}.
Context {T : TLS} {A : Addresses}.

(** The asynchronous connection. *)
Definition Async_LocalAddr (c : Wrapped async.Async) : Addr := socket_LocalAddr (socket c).
Definition Async_RemoteAddr (c : Wrapped async.Async) : Addr := socket_RemoteAddr (socket c).
Definition Async_Logger (c : Wrapped async.Async) : Z := logger c.
Definition Async_ConnectionState (c : Wrapped async.Async) : State * option error := ConnectionState (socket c).
Definition Async_Handshake : M (Wrapped async.Async) (option error) := on_socket Handshake.
Definition Async_HandshakeContext (ctx : Z) : M (Wrapped async.Async) (option error) :=
  on_socket (HandshakeContext (Some ctx)).
Definition Async_Raw : M (Wrapped async.Async) net_Conn :=
  w ← on_inner async.Raw; c ← get; mret (with_transport w (socket c)).

(** [CloseChannel()]: whether the channel it returns is closed. *)
Definition Async_CloseChannel (c : Wrapped async.Async) : bool := async.closeCh (inner c).

(** The synchronous connection. *)
Definition Sync_LocalAddr (c : Wrapped sync.Sync) : Addr := socket_LocalAddr (socket c).
Definition Sync_RemoteAddr (c : Wrapped sync.Sync) : Addr := socket_RemoteAddr (socket c).
Definition Sync_Logger (c : Wrapped sync.Sync) : Z := logger c.
Definition Sync_ConnectionState (c : Wrapped sync.Sync) : State * option error := ConnectionState (socket c).
Definition Sync_Handshake : M (Wrapped sync.Sync) (option error) := on_socket Handshake.
Definition Sync_HandshakeContext (ctx : Z) : M (Wrapped sync.Sync) (option error) :=
  on_socket (HandshakeContext (Some ctx)).
Definition Sync_Raw : M (Wrapped sync.Sync) net_Conn :=
  w ← on_inner sync.Raw; c ← get; mret (with_transport w (socket c)).

#[export] Instance async_conn : Conn (Wrapped async.Async) := {
  conn_Close := on_inner async.Close;
  conn_LocalAddr := Async_LocalAddr;
  conn_RemoteAddr := Async_RemoteAddr;
  conn_ConnectionState := Async_ConnectionState;
  conn_Handshake := Async_Handshake;
  conn_HandshakeContext := Async_HandshakeContext;
  conn_SetDeadline := on_inner async.SetDeadline;
  conn_SetReadDeadline := on_inner async.SetDeadline;
  conn_SetWriteDeadline := on_inner async.SetDeadline;
  conn_WritePacket p := on_inner (async.WritePacket p);
  conn_ReadPacket := on_inner async.ReadPacket;
  conn_Logger := Async_Logger;
  conn_Error c := async.Error (inner c);
  conn_Raw := Async_Raw;
}.

#[export] Instance sync_conn : Conn (Wrapped sync.Sync) := {
  conn_Close := on_inner sync.Close;
  conn_LocalAddr := Sync_LocalAddr;
  conn_RemoteAddr := Sync_RemoteAddr;
  conn_ConnectionState := Sync_ConnectionState;
  conn_Handshake := Sync_Handshake;
  conn_HandshakeContext := Sync_HandshakeContext;
  conn_SetDeadline := on_inner sync.SetDeadline;
  conn_SetReadDeadline := on_inner sync.SetDeadline;
  conn_SetWriteDeadline := on_inner sync.SetDeadline;
  conn_WritePacket p := on_inner (sync.WritePacket p);
  conn_ReadPacket := on_inner sync.ReadPacket;
  conn_Logger := Sync_Logger;
  conn_Error c := sync.Error (inner c);
  conn_Raw := Sync_Raw;
}.

(** *** The laws hold of both *)

Context `{!GlobalsLaws G} `{!PolyglotLaws PB} `{!CircularLaws CQ} `{!PoolLaws PP} `{!PoolLaws BP}.

Lemma on_inner_eq {C B} (m : M C B) (c : Wrapped C) r c' :
  m (inner c) = (r, c') → on_inner m c = (r, set_inner c' c).
Proof. intros E. unfold on_inner, zoom. by rewrite E. Qed.

Lemma ReceiveN_async n (c : Wrapped async.Async) r c' :
  async_spec.ReadN n (inner c) = (Ret r, c') → ReceiveN n c = (Ret r, set_inner c' c).
Proof.
  revert c r. induction n as [|n IH]; intros c r E; simpl in E.
  { injection E as <- <-. by destruct c. }
  apply bind_Ret_inv in E as (x&c1&E1&E). apply bind_Ret_inv in E as (xs&c2&E2&E).
  injection E as <- <-. simpl. rewrite (bind_Ret _ _ _ _ _ (on_inner_eq _ c _ _ E1)).
  by rewrite (bind_Ret _ _ _ _ _ (IH (set_inner c1 c) _ E2)).
Qed.

Lemma ReceiveN_sync n (c : Wrapped sync.Sync) r c' :
  sync.ReadN n (inner c) = (Ret r, c') → ReceiveN n c = (Ret r, set_inner c' c).
Proof.
  revert c r. induction n as [|n IH]; intros c r E; simpl in E.
  { injection E as <- <-. by destruct c. }
  apply bind_Ret_inv in E as (x&c1&E1&E). apply bind_Ret_inv in E as (xs&c2&E2&E).
  injection E as <- <-. simpl. rewrite (bind_Ret _ _ _ _ _ (on_inner_eq _ c _ _ E1)).
  by rewrite (bind_Ret _ _ _ _ _ (IH (set_inner c1 c) _ E2)).
Qed.

Lemma PING_sendable : sendable async.PINGPacket.
Proof.
  split_and!; [done|simpl; by rewrite Bytes_NewBuffer|apply async_spec.exceeds_max_0].
Qed.

Lemma frame_PING : frame async.PINGPacket = header_bytes (wire_metadata (Metadata async.PINGPacket)).
Proof. unfold frame. by rewrite (Bytes_NewBuffer : Bytes (Content async.PINGPacket) = []), app_nil_r. Qed.

(** The messages of a sender, as the read loop takes them. *)
Definition as_message (a : act) : wire.message :=
  match a with Send p => wire.Data p | Tick => wire.Heartbeat (Metadata async.PINGPacket) end.

Lemma encode_acts acts : concat (wire.encode <$> (as_message <$> acts)) = concat (frame <$> transmitted true acts).
Proof.
  induction acts as [|a acts IH]; [done|]. rewrite transmitted_cons, !fmap_cons, fmap_app, concat_app, <- IH.
  cbn [concat]. f_equal. symmetry. destruct a; (etrans; [apply app_nil_r|]); [done|apply frame_PING].
Qed.

Lemma data_acts acts : wire.data (as_message <$> acts) = transmitted false acts.
Proof.
  induction acts as [|a acts IH]; [done|]. rewrite transmitted_cons, <- IH. by destruct a.
Qed.

Lemma acts_sent acts : Forall act_ok acts → Forall wire.well_sent (as_message <$> acts).
Proof.
  intros H. apply Forall_fmap. eapply Forall_impl; [|exact H]. intros [p|] Ha; [exact Ha|].
  pose proof PING_sendable as (?&_&?). by split_and!; [|left|].
Qed.

Lemma received_async chunks acts (c : async.Async) :
  let ps := transmitted false acts in
  async_spec.working c → items (async.incoming c) = [] → len ps ≤ capacity (async.incoming c) →
  Forall act_ok acts → concat chunks = concat (frame <$> transmitted true acts) →
  ∃ qs c', async_spec.ReadN (length ps) (read_loop.readLoop (feed chunks None) [] c).2 = (Ret (inl <$> qs), c') ∧
    view <$> qs = received <$> ps.
Proof.
  intros ps Hw Hi Hroom Hps Hch. subst ps. pose proof (read_spec.readLoop_reads chunks None c) as Hrd.
  rewrite Hch, <- encode_acts in Hrd.
  apply wire.reads_messages in Hrd as (c1&qs&E&(Hc1&Ho1&_)&Hv&Hi1&_);
    [|by apply acts_sent|exact Hw|rewrite data_acts, Hi; exact Hroom|apply Hw].
  rewrite data_acts in Hv. rewrite Hi, app_nil_l in Hi1. destruct (wire.ReadN_open _ c1 Hc1 Ho1 Hi1) as (c2&E3&_).
  exists qs, c2. split; [|exact Hv]. rewrite E. cbn [snd]. rewrite <- E3. f_equal.
  by rewrite <- (length_fmap received), <- Hv, length_fmap.
Qed.

Lemma async_writes p (c : Wrapped async.Async) :
  async_spec.working (inner c) → application p →
  ∃ c', on_inner (async.WritePacket p) c = (Ret None, set_inner c' c) ∧
    async_spec.written (frame p) (inner c) c'.
Proof.
  intros Hw [Hp Hop]. destruct (async_spec.writePacketN_working 1 p true (inner c) Hw Hp) as (c1&E&W&_).
  exists c1. split; [|done]. apply on_inner_eq. unfold async.WritePacket.
  by replace (_ <=? RESERVED9) with false by (unfold RESERVED9; lia).
Qed.

#[export] Program Instance async_laws : ConnLaws (Wrapped async.Async) := {
  usable c := async_spec.working (inner c);
  idle n c := items (async.incoming (inner c)) = [] ∧ Z.of_nat n ≤ capacity (async.incoming (inner c));
  tick := on_inner (_ ← async.pingLoop_turn true false; mret tt);
  pings := true;
  shows := false;
  sent c := stream_out (async.out (inner c));
  on_wire c := GoStd.wire (async.aconn (inner c));
  ended c := async.async_ok (inner c) ∧ async.closed (inner c) = true;
  arrives chunks c := set_inner (read_loop.readLoop (feed chunks None) [] (inner c)).2 c;
}.
Next Obligation.
  intros p c Hw Hp. destruct (async_writes p c Hw Hp) as (c1&E&(?&_&?)). by exists (set_inner c1 c).
Qed.
Next Obligation.
  intros c Hw. destruct (async_spec.writePacketN_working 1 async.PINGPacket false (inner c) Hw PING_sendable)
    as (c1&E&(?&_&?)&_).
  exists (set_inner c1 c). split_and!; [|done..]. apply on_inner_eq.
  destruct Hw as (Hc&Ho&_). destruct (async.ok_open _ Hc Ho) as (_&Hcc&_).
  assert (async.pingLoop_turn true false (inner c) = (Ret async.Continue, c1)) as Et; [|by rewrite (bind_Ret _ _ _ _ _ Et)].
  unfold async.pingLoop_turn. rewrite (bind_Ret get _ (inner c) (inner c) (inner c)) by done. rewrite Hcc. cbn [andb].
  by rewrite (bind_Ret _ _ _ _ _ (E : async.writePacket _ _ _ = _)).
Qed.
Next Obligation.
  intros p c Hw Hop Hl. destruct c as [s l c]. apply (on_inner_eq _ (mkWrapped s l c)).
  unfold async.WritePacket. replace (_ <=? RESERVED9) with false by (unfold RESERVED9; lia).
  by apply async_spec.writePacketN_length.
Qed.
Next Obligation.
  intros c (Hc&Ho&Hh&He). destruct (async_spec.Close_open (inner c) Hc Ho) as (c1&_&Hac&E).
  pose proof (async.Close_keeps (inner c) Hc) as Hk. unfold wp in Hk. rewrite E in Hk. destruct Hk as [Hok _].
  destruct Hac as (_&Hcl&_&_&_&_&_&Hwire). set (c2 := async.set_out _ c1) in *.
  exists (set_inner c2 c). split_and!; [by apply on_inner_eq|done|done|].
  change (GoStd.wire (async.aconn c1) = stream_out (async.out (inner c))). by apply Hwire.
Qed.
Next Obligation.
  intros c (Hc&Ho&Hh&He). destruct (async_spec.Close_open (inner c) Hc Ho) as (c1&E&Hac&_).
  destruct Hac as (Hok&Hcl&_&_&_&_&Hcc&Hwire).
  assert (async.Raw (inner c) = (Ret (async.aconn c1), c1)) as Er
    by (unfold async.Raw; by rewrite (bind_Ret _ _ _ _ _ E)).
  exists (with_transport (async.aconn c1) (socket c)), (set_inner c1 c).
  assert (∀ w s, transport (with_transport w s) = w) as -> by (by intros ? []).
  split_and!; [|done|done|by apply Hwire|done].
  simpl. unfold Async_Raw. by rewrite (bind_Ret _ _ _ _ _ (on_inner_eq _ c _ _ Er)).
Qed.
Next Obligation.
  intros c [_ Hcl]. destruct c as [s l c]. apply (on_inner_eq _ (mkWrapped s l c)).
  by apply async_spec.Close_closed.
Qed.
Next Obligation.
  intros p c [Hc Hcl] [(_&Hl&Hm) Hop]. destruct (async_spec.GetBuffer_eq (inner c) Hc) as (_&_&_&Hok).
  exists (set_inner (async_spec.took_buffer (inner c)) c). split_and!; [|done..]. apply on_inner_eq.
  unfold async.WritePacket. replace (_ <=? RESERVED9) with false by (unfold RESERVED9; lia).
  by apply async_spec.writePacketN_closed_eq.
Qed.
Next Obligation.
  intros chunks acts c Hw [Hi Hroom] Hps Hch.
  destruct (received_async chunks acts (inner c) Hw Hi Hroom Hps Hch) as (qs&c'&E&Hv).
  exists qs, (set_inner c' c). split; [|done]. by apply (ReceiveN_async _ (set_inner _ c)).
Qed.

#[export] Program Instance sync_laws : ConnLaws (Wrapped sync.Sync) := {
  usable c := sync.quiet (inner c) ∧ healthy (sync.conn (inner c));
  idle n c := sync.rx (inner c) = [];
  sent c := GoStd.wire (sync.conn (inner c));
  on_wire c := GoStd.wire (sync.conn (inner c));
  ended c := sync.closed (inner c) = true;
  arrives chunks c := set_inner (sync.set_rx (feed chunks None) (inner c)) c;
  tick := mret tt;
  pings := false;
  shows := true;
}.
Next Obligation.
  intros p c [Hq Hh] [Hp _]. exists (set_inner (sync.on_wire (frame p) (inner c)) c).
  split_and!; [by apply on_inner_eq, sync.WritePacket_frame|by apply sync.quiet_on_wire|done..].
Qed.
Next Obligation. intros c Hu. exists c. by rewrite app_nil_r. Qed.
Next Obligation.
  intros p c _ _ Hl. destruct c as [s l c]. apply (on_inner_eq _ (mkWrapped s l c)).
  unfold sync.WritePacket. rewrite Len_Bytes. by replace (_ =? _) with false by lia.
Qed.
Next Obligation.
  intros [s l [w rx cl er cx pl ra]] [(?&?&?&?&?) _]. simpl in *. subst. by eexists.
Qed.
Next Obligation.
  intros [s l [w rx cl er cx pl ra]] [(?&?&?&?&?) _]. simpl in *. subst. eexists _, _. split; [reflexivity|].
  by destruct s.
Qed.
Next Obligation. intros [s l [w rx cl er cx pl ra]] Hcl. simpl in *. by subst. Qed.
Next Obligation.
  intros p c Hcl [(_&Hl&Hm) _]. exists c. split_and!; [|done..]. destruct c as [s l c].
  apply (on_inner_eq _ (mkWrapped s l c)). unfold sync.WritePacket. rewrite Len_Bytes. simpl in Hcl.
  replace (_ =? _) with true by lia. rewrite Hm. cbn [negb]. rewrite put_fields_spec by done.
  erewrite bind_Ret by reflexivity. rewrite (bind_Ret get _ c c c) by done. by rewrite Hcl.
Qed.
Next Obligation.
  intros chunks acts c [Hq Hh] _ Hps Hch.
  destruct (sync.ReadN_frames (transmitted true acts) [] chunks None (sync.set_rx (feed chunks None) (inner c)))
    as (qs&c'&ch&E&Hv&_); [done|done| |by rewrite app_nil_r|].
  { clear Hch. induction Hps as [|a acts Ha _ IH]; [constructor|]. rewrite transmitted_cons. apply Forall_app.
    split; [|done]. destruct a as [p|]; (constructor; [|constructor]); [apply Ha|apply PING_sendable]. }
  exists qs, (set_inner c' c). split; [|done]. by apply (ReceiveN_sync _ (set_inner _ c)).
Qed.


End kinds.

(** ** Witness *)

Import concrete.

#[local] Instance no_tls : TLS :=
  {| Session := unit; State := Z; emptyState := 0; session_State _ := 1; session_Handshake _ s := (None, s) |}.
#[local] Instance no_addresses : Addresses :=
  {| Addr := Z; socket_LocalAddr _ := 0; socket_RemoteAddr _ := 0 |}.

Definition plain : net_Conn := OtherConn (mkWConn [] [] [] false).
Definition an_async : Wrapped async.Async := mkWrapped plain 0 (fresh_conn []).
Definition a_sync : Wrapped sync.Sync :=
  mkWrapped plain 0 (sync.NewSync (mkWConn [] [] [] false) [] ([] : list Packet) []).


End conns.
