(* ===== verification/Dispatch.v ===== *)
(** * Dispatching packets to handlers (the common part of client.go and server.go)

    The client and the server use a connection through four operations: this is
    the interface [Connection], with the laws the dispatchers rely on; the
    instance for [Async] is at the end.  Packets are known by reference here,
    since the code compares the packet a handler returns with the one it was
    given before it puts both back into the pool. *)

From S2P Require Import Prelude Frisbee GoStd Interfaces Metadata Packet Async AsyncSpec.

Module dispatch.
Import metadata packet.

Section dispatch.
Context {PB : Polyglot}.

(** ** What a connection offers to a dispatcher *)

Class Connection (C : Type) := {
  Conn_ReadPacket : M C (Packet + error);
  Conn_WritePacket : Packet → M C (option error);
  Conn_Close : M C (option error);
  Conn_Flush : M C (option error);
  (** [Raw] stops the connection and gives up its socket *)
  Conn_Raw : M C WConn;
  Conn_Error : C → option error;
  Conn_NewStream : Z → M C nat;
  Conn_SetNewStreamHandler : option Z → M C unit;
  (** [packet.Put]: the pool belongs to the connection's state *)
  Conn_recycle : Packet → M C unit;
}.

(** The observations the laws are stated with: an invariant, the packets that
    have arrived and were not read, whether the connection is closed, and what
    was accepted for sending. *)
Class ConnectionView (C : Type) := {
  conn_ok : C → Prop;
  arrived : C → list Packet;
  is_closed : C → bool;
  accepted_bytes : C → list byte;
  (** open, with a peer that takes everything *)
  conn_working : C → Prop;
}.

Class ConnectionLaws {G : Globals} (C : Type) `{Connection C} `{!ConnectionView C} : Prop := {
  working_ok c : conn_working c → conn_ok c ∧ is_closed c = false;
  (** reading takes the oldest packet, closed or not; without one it waits, or
      reports the close *)
  read_arrived c p r : conn_ok c → arrived c = p :: r →
    ∃ c', Conn_ReadPacket c = (Ret (inl p), c') ∧ conn_ok c' ∧ arrived c' = r ∧
      is_closed c' = is_closed c ∧ accepted_bytes c' = accepted_bytes c ∧
      (conn_working c → conn_working c');
  read_waits c : conn_ok c → arrived c = [] → is_closed c = false →
    ∃ c', Conn_ReadPacket c = (Block, c') ∧ conn_ok c' ∧ arrived c' = [] ∧ is_closed c' = false ∧
      accepted_bytes c' = accepted_bytes c ∧ (conn_working c → conn_working c');
  read_closed c : conn_ok c → arrived c = [] → is_closed c = true →
    ∃ e c', Conn_ReadPacket c = (Ret (inr e), c') ∧ conn_ok c' ∧ arrived c' = [] ∧ is_closed c' = true ∧
      accepted_bytes c' = accepted_bytes c;
  (** writing returns, loses no arrived packet, and never reopens *)
  write_returns p c : conn_ok c →
    ∃ e c', Conn_WritePacket p c = (Ret e, c') ∧ conn_ok c' ∧ arrived c' = arrived c ∧
      (is_closed c = true → is_closed c' = true);
  write_working p c : conn_working c → sendable p → 9 < Operation (Metadata p) →
    ∃ c', Conn_WritePacket p c = (Ret None, c') ∧ conn_working c' ∧ arrived c' = arrived c ∧
      accepted_bytes c' = accepted_bytes c ++ frame p;
  (** closing returns nil, any number of times, and loses no arrived packet *)
  close_returns c : conn_ok c →
    ∃ c', Conn_Close c = (Ret None, c') ∧ conn_ok c' ∧ is_closed c' = true ∧ arrived c' = arrived c ∧
      (conn_working c → accepted_bytes c' = accepted_bytes c);
  raw_returns c : conn_ok c →
    ∃ w c', Conn_Raw c = (Ret w, c') ∧ conn_ok c' ∧ is_closed c' = true ∧ arrived c' = arrived c;
  recycle_returns p c : conn_ok c →
    ∃ c', Conn_recycle p c = (Ret tt, c') ∧ conn_ok c' ∧ is_closed c' = is_closed c ∧
      arrived c' = arrived c ∧ accepted_bytes c' = accepted_bytes c ∧ (conn_working c → conn_working c');
}.

(** ** Packets by reference *)

Context {C U Ctx : Type} `{Connection C}.

(** [objects] holds every packet the dispatcher has seen, by reference;
    [received] and [recycled] record which references came from the connection
    and which were put back, in order; [trace] records the calls of [preWrite] and
    the writes, in order.  [user] is the state of the handlers. *)
Inductive did := PreWrote | Wrote (p : Packet).

Record Dispatcher := mkDispatcher {
  dconn : C;
  user : U;
  objects : list Packet;
  received : list nat;
  recycled : list nat;
  trace : list did;
}.

Definition set_dconn v d := mkDispatcher v (user d) (objects d) (received d) (recycled d) (trace d).
Definition set_user v d := mkDispatcher (dconn d) v (objects d) (received d) (recycled d) (trace d).
Definition set_objects v d := mkDispatcher (dconn d) (user d) v (received d) (recycled d) (trace d).
Definition set_received v d := mkDispatcher (dconn d) (user d) (objects d) v (recycled d) (trace d).
Definition set_recycled v d := mkDispatcher (dconn d) (user d) (objects d) (received d) v (trace d).
Definition record (x : did) d := mkDispatcher (dconn d) (user d) (objects d) (received d) (recycled d) (trace d ++ [x]).

Definition on_dconn {A} (m : M C A) : M Dispatcher A := zoom dconn set_dconn m.

Definition load (r : nat) : M Dispatcher Packet := λ d,
  match objects d !! r with
  | Some p => (Ret p, d)
  | None => (Panic NilDereference, d)
  end.

Definition alloc (p : Packet) : M Dispatcher nat := λ d,
  (Ret (length (objects d)), set_objects (objects d ++ [p]) d).

(** [packet.Put(p)]. *)
Definition Put (r : nat) : M Dispatcher unit :=
  p ← load r;
  on_dconn (Conn_recycle p);;
  modify (λ d, set_recycled (recycled d ++ [r]) d).

(** [conn.ReadPacket()]. *)
Definition ReadPacket : M Dispatcher (nat + error) :=
  r ← on_dconn Conn_ReadPacket;
  match r with
  | inl p =>
      r ← alloc p;
      modify (λ d, set_received (received d ++ [r]) d);;
      mret (inl r)
  | inr err => mret (inr err)
  end.

(** ** Handlers *)

(** What a handler returns for [outgoing]: nil, the packet it was given, or
    another packet of its own, which it gives away with that.  A handler that
    keeps such a packet and returns it again is outside of this model: it would
    have the packet put back twice, see [kept_packet_put_twice]. *)
Inductive outgoing := NoReply | Same | Other (p : Packet).

(** A handler may change the packet it was given and the state it shares with
    other handlers. *)
Definition Handler := Ctx → Packet → U → Packet * outgoing * Action * U.

(** A table may hold nil handlers. *)
Definition HandlerTable := gmap Z (option Handler).

Definition lookup_handler (t : HandlerTable) (op : Z) : option Handler := mjoin (t !! op).

(** The reserved keys that are looked for: [for i := uint16(0); i < RESERVED9; i++]. *)
Definition check_table (t : HandlerTable) : option error :=
  if existsb (λ i, bool_decide (is_Some (t !! Z.of_nat i))) (seq 0 (Z.to_nat RESERVED9))
  then Some InvalidHandlerTable else None.

Lemma check_table_ok t : (∀ i, 0 ≤ i < 9 → t !! i = None) → check_table t = None.
Proof.
  intros Hn. unfold check_table. destruct (existsb _ _) eqn:E; [|done].
  apply existsb_exists in E as (i&Hi%in_seq&Hb). case_bool_decide as Hs; [|done].
  change (Z.to_nat RESERVED9) with 9%nat in Hi. rewrite Hn in Hs by lia. by destruct Hs.
Qed.

Lemma check_table_bad t i : 0 ≤ i < 9 → is_Some (t !! i) → check_table t = Some InvalidHandlerTable.
Proof.
  intros Hi Hs. unfold check_table. rewrite (proj2 (existsb_exists _ _)); [done|]. exists (Z.to_nat i).
  change (Z.to_nat RESERVED9) with 9%nat. rewrite in_seq, Z2Nat.id by lia. split; [lia|].
  by rewrite bool_decide_true.
Qed.

Definition run_handler (h : Handler) (ctx : Ctx) (r : nat) : M Dispatcher (option nat * Action) :=
  p ← load r;
  d ← get;
  let '(p', o, a, u) := h ctx p (user d) in
  modify (set_user u);;
  modify (λ d, set_objects (<[r := p']> (objects d)) d);;
  match o with
  | NoReply => mret (None, a)
  | Same => mret (Some r, a)
  | Other q => r' ← alloc q; mret (Some r', a)
  end.

Section dispatch_one.
Context (table : HandlerTable) (PacketContext : option (Ctx → Packet → Ctx)) (ctx : Ctx).
(** the server's [preWrite]; the client has none *)
Context (preWrite : option (U → U)).

Definition prewritten (u : U) : U := match preWrite with Some f => f u | None => u end.

(** [s.preWrite()]. *)
Definition run_preWrite : M Dispatcher unit :=
  match preWrite with
  | Some f => modify (λ d, record PreWrote (set_user (f (user d)) d))
  | None => mret tt
  end.

(** [conn.WritePacket(outgoing)]. *)
Definition write_reply (q : Packet) : M Dispatcher (option error) :=
  err ← on_dconn (Conn_WritePacket q);
  modify (record (Wrote q));;
  mret err.

(** The packet [r'] that the handler of [r] returned: it is written when its
    content is as long as it says, and put back unless it is [r] itself; [r] is put
    back in any case. *)
Definition send_outgoing (r r' : nat) : M Dispatcher (option error) :=
  q ← load r';
  if ContentLength (Metadata q) =? wrap 32 (Len (Content q)) then
    run_preWrite;;
    err ← write_reply q;
    (if bool_decide (r' ≠ r) then Put r' else mret tt);;
    Put r;;
    mret err
  else Put r;; mret None.

(** Looking up the handler, calling it, writing what it returns and putting the
    packets back: the error of the write and the action. *)
Definition dispatch_one (r : nat) : M Dispatcher (option error * Action) :=
  p ← load r;
  match lookup_handler table (Operation (Metadata p)) with
  | Some handlerFunc =>
      let packetCtx := match PacketContext with Some f => f ctx p | None => ctx end in
      '(out, action) ← run_handler handlerFunc packetCtx r;
      err ← (match out with
             | Some r' => send_outgoing r r'
             | None => Put r;; mret None
             end);
      mret (err, action)
  | None => Put r;; mret (None, NONE)
  end.

(** ** What dispatching a packet comes to *)

(** The reply that is written, if any, the action and the handlers' state. *)
Definition respond (p : Packet) (u : U) : option Packet * Action * U :=
  match lookup_handler table (Operation (Metadata p)) with
  | Some h =>
      let '(p', o, a, u) := h (match PacketContext with Some f => f ctx p | None => ctx end) p u in
      match (match o with NoReply => None | Same => Some p' | Other q => Some q end) with
      | Some q =>
          if ContentLength (Metadata q) =? wrap 32 (Len (Content q)) then (Some q, a, prewritten u)
          else (None, a, u)
      | None => (None, a, u)
      end
  | None => (None, NONE, u)
  end.

Lemma Put_recycles r d d' : Put r d = (Ret tt, d') → recycled d' = recycled d ++ [r] ∧ objects d' = objects d.
Proof.
  unfold Put, load, on_dconn, zoom, mbind, M_bind. destruct (objects d !! r); [|done].
  destruct (Conn_recycle _ _) as [[] k]; try done. by intros [= <-].
Qed.

Lemma send_recycles r r' q d e d' :
  objects d !! r' = Some q → ContentLength (Metadata q) = wrap 32 (Len (Content q)) → r' ≠ r →
  send_outgoing r r' d = (Ret e, d') → recycled d' = recycled d ++ [r'; r] ∧ objects d' = objects d.
Proof.
  intros Hq Hl Hr. unfold send_outgoing, load. unfold mbind at 1, M_bind at 1. rewrite Hq.
  rewrite (proj2 (Z.eqb_eq _ _) Hl). intros ([]&d1&E1&E)%bind_Ret_inv.
  assert (recycled d1 = recycled d ∧ objects d1 = objects d) as [Y1 O1].
  { unfold run_preWrite in E1. destruct preWrite; by injection E1 as <-. }
  apply bind_Ret_inv in E as (e1&d2&E2&E). assert (recycled d2 = recycled d1 ∧ objects d2 = objects d1) as [Y2 O2].
  { unfold write_reply, on_dconn, zoom, mbind, M_bind in E2.
    destruct (Conn_WritePacket q (dconn d1)) as [[] k]; try done. by injection E2 as _ <-. }
  rewrite bool_decide_true in E by done. apply bind_Ret_inv in E as ([]&d3&[Y3 O3]%Put_recycles&E).
  apply bind_Ret_inv in E as ([]&d4&[Y4 O4]%Put_recycles&E). injection E as _ <-.
  rewrite Y4, Y3, Y2, Y1, <- app_assoc. split; [done|congruence].
Qed.

(** A packet [r'] that the handlers of two packets both return is put back twice. *)
Lemma kept_packet_put_twice r1 r2 r' q d d1 d2 e1 e2 :
  objects d !! r' = Some q → ContentLength (Metadata q) = wrap 32 (Len (Content q)) → r' ≠ r1 → r' ≠ r2 →
  send_outgoing r1 r' d = (Ret e1, d1) → send_outgoing r2 r' d1 = (Ret e2, d2) → ¬ NoDup (recycled d2).
Proof.
  intros Hq Hl H1 H2 E1 E2. destruct (send_recycles _ _ _ _ _ _ Hq Hl H1 E1) as [Y1 O1].
  destruct (send_recycles r2 r' q d1 e2 d2) as [Y2 _]; [by rewrite O1|done..|].
  rewrite Y2, Y1, <- app_assoc. intros (_&_&Hnd)%list.NoDup_app.
  inversion Hnd as [|? ? Hin _]; subst. apply Hin. rewrite elem_of_cons. right. by left.
Qed.

(** ** Dispatching packets as they come *)

(** Why dispatching ends. *)
Inductive stop := ReadFailed (e : error) | WriteFailed (e : error) | Asked.

(** The loop that the client and the sequential server both contain; [fuel]
    bounds the number of packets. *)
Fixpoint serve_loop (fuel : nat) : M Dispatcher stop :=
  r ← ReadPacket;
  match r with
  | inr err => mret (ReadFailed err)
  | inl r =>
      match fuel with
      | O => out_of_fuel
      | S fuel =>
          '(err, action) ← dispatch_one r;
          match err with
          | Some err => mret (WriteFailed err)
          | None => if action =? CLOSE then mret Asked else serve_loop fuel
          end
      end
  end.

(** What a list of packets comes to: the replies, the handlers' state, whether a
    handler asked to close, and the packets after that. *)
Fixpoint serve (ps : list Packet) (u : U) : list (option Packet) * U * bool * list Packet :=
  match ps with
  | [] => ([], u, false, [])
  | p :: ps =>
      let '(reply, a, u) := respond p u in
      if a =? CLOSE then ([reply], u, true, ps)
      else
        let '(replies, u, closing, rest) := serve ps u in
        (reply :: replies, u, closing, rest)
  end.

Context {G : Globals} `{!ConnectionView C} `{!ConnectionLaws C}.

(** Packets are put back once at most, and only those known. *)
Definition disp_ok (d : Dispatcher) : Prop :=
  conn_ok (dconn d) ∧ NoDup (received d) ∧ NoDup (recycled d) ∧
  Forall (λ r, (r < length (objects d))%nat) (received d ++ recycled d).

Definition good_reply (q : Packet) : Prop := sendable q ∧ 9 < Operation (Metadata q).

Definition reply_bytes (q : option Packet) : list byte :=
  match q with Some q => frame q | None => [] end.

(** What a reply leaves in the trace: [preWrite] runs before the write. *)
Definition reply_trace (q : option Packet) : list did :=
  match q with
  | Some q => match preWrite with Some _ => [PreWrote; Wrote q] | None => [Wrote q] end
  | None => []
  end.

(** [d'] is [d] after a packet with reference [r] was dispatched. *)
Definition dispatched (d : Dispatcher) (r : nat) (reply : option Packet) (err : option error) (d' : Dispatcher) : Prop :=
  disp_ok d' ∧ received d' = received d ∧ (length (objects d) ≤ length (objects d'))%nat ∧
  (∃ x, recycled d' = recycled d ++ x ++ [r] ∧ Forall (λ r', length (objects d) ≤ r')%nat x) ∧
  arrived (dconn d') = arrived (dconn d) ∧
  (is_closed (dconn d) = true → is_closed (dconn d') = true) ∧
  (conn_working (dconn d) → (∀ q, reply = Some q → good_reply q) →
     err = None ∧ conn_working (dconn d') ∧
     accepted_bytes (dconn d') = accepted_bytes (dconn d) ++ reply_bytes reply) ∧
  trace d' = trace d ++ reply_trace reply ∧
  (reply = None → err = None).

Lemma Put_eq r p d :
  conn_ok (dconn d) → objects d !! r = Some p →
  ∃ c', Put r d = (Ret tt, set_recycled (recycled d ++ [r]) (set_dconn c' d)) ∧ conn_ok c' ∧
    is_closed c' = is_closed (dconn d) ∧ arrived c' = arrived (dconn d) ∧
    accepted_bytes c' = accepted_bytes (dconn d) ∧ (conn_working (dconn d) → conn_working c').
Proof.
  intros Hc Hp. destruct (recycle_returns p (dconn d) Hc) as (c'&E&?). exists c'. split; [|done].
  assert (load r d = (Ret p, d)) as El by (unfold load; by rewrite Hp).
  unfold Put. rewrite (bind_Ret _ _ _ _ _ El).
  assert (on_dconn (Conn_recycle p) d = (Ret tt, set_dconn c' d)) as Er
    by (unfold on_dconn, zoom; by rewrite E).
  by rewrite (bind_Ret _ _ _ _ _ Er).
Qed.

(** [d] after the packet [p] was read and left the connection in [k]. *)
Definition took (p : Packet) (k : C) (d : Dispatcher) : Dispatcher :=
  mkDispatcher k (user d) (objects d ++ [p]) (received d ++ [length (objects d)]) (recycled d) (trace d).

Lemma ReadPacket_arrived p r d :
  disp_ok d → arrived (dconn d) = p :: r →
  ∃ k, ReadPacket d = (Ret (inl (length (objects d))), took p k d) ∧ disp_ok (took p k d) ∧
    arrived k = r ∧ is_closed k = is_closed (dconn d) ∧ accepted_bytes k = accepted_bytes (dconn d) ∧
    (conn_working (dconn d) → conn_working k) ∧
    objects (took p k d) !! length (objects d) = Some p ∧ length (objects d) ∉ recycled d.
Proof.
  intros (Hc&Hnr&Hnd&Hall) Ha. destruct (read_arrived (dconn d) p r Hc Ha) as (k&E&?&?&?&?&?). exists k.
  assert (∀ l, Forall (λ r, (r < length (objects d))%nat) l → length (objects d) ∉ l) as Hfresh.
  { intros l Hl Hin%list_elem_of_In. rewrite Forall_forall in Hl. specialize (Hl _ Hin). simpl in Hl. lia. }
  pose proof Hall as [Hall1 Hall2]%Forall_app. split_and!; try done.
  - unfold ReadPacket, on_dconn, zoom, mbind, M_bind. rewrite E. done.
  - split_and!; simpl; try done.
    + apply list.NoDup_app. split_and!; [done| |apply NoDup_singleton].
      intros y Hy ->%list_elem_of_singleton. by apply (Hfresh (received d)).
    + rewrite length_app. simpl. rewrite !Forall_app. split_and!.
      * eapply Forall_impl; [|exact Hall1]. simpl. lia.
      * constructor; [lia|done].
      * eapply Forall_impl; [|exact Hall2]. simpl. lia.
  - simpl. by rewrite lookup_app_r, Nat.sub_diag by done.
  - by apply Hfresh.
Qed.

(** Without a packet, the connection is all that may change. *)
Lemma ReadPacket_empty d :
  disp_ok d → arrived (dconn d) = [] →
  ∃ k, conn_ok k ∧ arrived k = [] ∧ is_closed k = is_closed (dconn d) ∧
    accepted_bytes k = accepted_bytes (dconn d) ∧ (conn_working (dconn d) → conn_working k) ∧
    if is_closed (dconn d) then ∃ e, ReadPacket d = (Ret (inr e), set_dconn k d)
    else ReadPacket d = (Block, set_dconn k d).
Proof.
  intros (Hc&_) Ha. unfold ReadPacket, on_dconn, zoom, mbind, M_bind.
  destruct (is_closed (dconn d)) eqn:Hcl.
  - destruct (read_closed (dconn d) Hc Ha Hcl) as (e&k&->&?&?&?&?). exists k. split_and!; try done; [|by exists e].
    intros Hw. destruct (working_ok _ Hw). congruence.
  - destruct (read_waits (dconn d) Hc Ha Hcl) as (k&->&?&?&?&?&?). exists k. by split_and!.
Qed.

(** Ending a dispatch without a write. *)
Lemma Put_dispatched r p d d0 x :
  disp_ok d0 → r ∉ recycled d0 → objects d !! r = Some p → dconn d = dconn d0 →
  received d = received d0 → recycled d = recycled d0 → (length (objects d0) ≤ length (objects d))%nat →
  trace d = trace d0 → x = (None : option Packet) →
  ∃ d', Put r d = (Ret tt, d') ∧ user d' = user d ∧ dispatched d0 r x None d'.
Proof.
  intros (Hc&Hnr&Hnd&Hall) Hr Hp Ec Er Ey Hlen Et ->. rewrite <- Ec in Hc.
  destruct (Put_eq r p d Hc Hp) as (c'&->&?&Hcl&Ha&Hb&Hw). rewrite Ec in *.
  eexists. split_and!; [done|done|]. split_and!; simpl; rewrite ?Er, ?Ey; try done; try congruence.
  - split_and!; simpl; rewrite ?Er, ?Ey; try done.
    + apply list.NoDup_app. split_and!; [done| |apply NoDup_singleton].
        by intros y ? ->%list_elem_of_singleton.
    + apply lookup_lt_Some in Hp. rewrite app_assoc. apply Forall_app. split; [|by constructor].
      eapply Forall_impl; [|exact Hall]. simpl. lia.
  - exists []. by split.
  - intros Hwk _. split_and!; auto. simpl. by rewrite app_nil_r.
  - by rewrite Et, app_nil_r.
Qed.

(** The references a reply gives back are new, each given back once. *)
Definition other_ref (r r' : nat) : list nat := if decide (r' = r) then [] else [r'].

Lemma other_ref_fresh (ys : list nat) (n r r' : nat) :
  NoDup ys → Forall (λ y, (y < n)%nat) ys → r ∉ ys → r' = r ∨ (n ≤ r')%nat →
  NoDup ((ys ++ other_ref r r') ++ [r]) ∧ Forall (λ y, n ≤ y)%nat (other_ref r r').
Proof.
  intros Hnd Hys Hr Hrr. unfold other_ref. case_decide as Hd.
  - rewrite app_nil_r. split; [|done]. apply list.NoDup_app. split_and!; [done| |apply NoDup_singleton].
    by intros y ? ->%list_elem_of_singleton.
  - assert (r' ∉ ys) as Hr'.
    { intros Hin%list_elem_of_In. rewrite Forall_forall in Hys. specialize (Hys r' Hin). simpl in Hys. lia. }
    split; [|constructor; [lia|done]]. rewrite <- app_assoc. apply list.NoDup_app. split_and!; [done| |].
    + intros y Hy. simpl. rewrite elem_of_cons, list_elem_of_singleton. by intros [->| ->].
    + apply list.NoDup_cons. split; [by intros ->%list_elem_of_singleton|apply NoDup_singleton].
Qed.

Lemma Put_other r r' q d :
  conn_ok (dconn d) → objects d !! r' = Some q →
  ∃ c', (if bool_decide (r' ≠ r) then Put r' else mret tt) d =
      (Ret tt, set_recycled (recycled d ++ other_ref r r') (set_dconn c' d)) ∧ conn_ok c' ∧
    is_closed c' = is_closed (dconn d) ∧ arrived c' = arrived (dconn d) ∧
    accepted_bytes c' = accepted_bytes (dconn d) ∧ (conn_working (dconn d) → conn_working c').
Proof.
  intros Hc Hq. unfold other_ref. case_bool_decide as Hne.
  - destruct (Put_eq r' q d Hc Hq) as (c'&?). exists c'. by rewrite decide_False.
  - exists (dconn d). rewrite decide_True by (by destruct (decide (r' = r))). split_and!; try done.
    rewrite app_nil_r. by destruct d.
Qed.

(** [d] is [d0] after a handler ran: the connection and the record of the packets
    are untouched, and it may have made new packets. *)
Definition handled (d0 d : Dispatcher) : Prop :=
  dconn d = dconn d0 ∧ received d = received d0 ∧ recycled d = recycled d0 ∧
  (length (objects d0) ≤ length (objects d))%nat ∧ trace d = trace d0.

Lemma run_preWrite_eq d :
  ∃ d1, run_preWrite d = (Ret tt, d1) ∧ dconn d1 = dconn d ∧ objects d1 = objects d ∧ received d1 = received d ∧
    recycled d1 = recycled d ∧ user d1 = prewritten (user d) ∧
    ∀ q, trace d1 ++ [Wrote q] = trace d ++ reply_trace (Some q).
Proof.
  unfold run_preWrite, prewritten, reply_trace. destruct preWrite; eexists; (split; [reflexivity|]); split_and!; try done.
  intros q. simpl. by rewrite <- app_assoc.
Qed.

(** Writing the reply [q], of reference [r'], and putting the packets back. *)
Lemma reply_dispatched r r' p q d d0 :
  disp_ok d0 → r ∉ recycled d0 → handled d0 d → objects d !! r = Some p → objects d !! r' = Some q →
  (r' = r ∨ (length (objects d0) ≤ r')%nat) →
  ∃ err d',
    (run_preWrite;;
     err ← write_reply q;
     (if bool_decide (r' ≠ r) then Put r' else mret tt);;
     Put r;;
     mret err) d = (Ret err, d') ∧ user d' = prewritten (user d) ∧ dispatched d0 r (Some q) err d'.
Proof.
  intros (Hc&Hnr&Hnd&Hall) Hr (Ec&Er&Ey&Hlen&Et) Hp Hq Hrr. rewrite <- Ec in Hc.
  destruct (run_preWrite_eq d) as (e0&E0&Xc&Xo&Xr&Xy&Xu&Xt). rewrite (bind_Ret _ _ _ _ _ E0).
  rewrite <- Xc in Hc. rewrite <- Xo in Hp, Hq.
  destruct (write_returns q (dconn e0) Hc) as (e&c1&Ew&Hc1&Ha1&Hcl1).
  set (d1 := record (Wrote q) (set_dconn c1 e0)).
  assert (write_reply q e0 = (Ret e, d1)) as E1
    by (unfold write_reply, on_dconn, zoom, mbind, M_bind; by rewrite Ew).
  rewrite (bind_Ret _ _ _ _ _ E1).
  destruct (Put_other r r' q d1 Hc1 Hq) as (c2&E2&Hc2&Hcl2&Ha2&Hb2&Hw2).
  rewrite (bind_Ret _ _ _ _ _ E2). set (d2 := set_recycled _ _).
  destruct (Put_eq r p d2 Hc2 Hp) as (c3&E3&Hc3&Hcl3&Ha3&Hb3&Hw3). rewrite (bind_Ret _ _ _ _ _ E3).
  exists e. eexists. split; [done|]. split; [done|]. change (dconn d2) with c2 in *.
  change (dconn d1) with c1 in *. rewrite Xc, Ec in *. rewrite Xo in *.
  pose proof Hall as [_ Hys]%Forall_app.
  destruct (other_ref_fresh (recycled d0) (length (objects d0)) r r' Hnd Hys Hr Hrr) as [Hnd' Hfx].
  split_and!; simpl; rewrite ?Xo, ?Xr, ?Xy, ?Er, ?Ey; try done.
  - split_and!; simpl; rewrite ?Xo, ?Xr, ?Xy, ?Er, ?Ey; try done.
    rewrite !Forall_app in *. destruct Hall as [Hrc _]. apply lookup_lt_Some in Hp, Hq.
    split_and!; [eapply Forall_impl; [|exact Hrc]; simpl; lia|eapply Forall_impl; [|exact Hys]; simpl; lia| |by constructor].
    unfold other_ref. case_decide; by repeat constructor.
  - exists (other_ref r r'). split; [by rewrite app_assoc|done].
  - congruence.
  - intros Hcl. rewrite Hcl3, Hcl2. auto.
  - intros Hwk Hgood. destruct (Hgood q eq_refl) as [Hsd Hop].
    destruct (write_working q (dconn d0) Hwk Hsd Hop) as (c1'&Ew'&?&?&?).
    rewrite Ew in Ew'. injection Ew' as -> ->. split_and!; [done|auto|congruence].
  - by rewrite Xt, Et.
Qed.

(** A packet that gets no reply is only put back. *)
Lemma unanswered r p d d0 :
  disp_ok d0 → r ∉ recycled d0 → handled d0 d → objects d !! r = Some p →
  ∃ d', (Put r;; mret None : M Dispatcher (option error)) d = (Ret None, d') ∧ user d' = user d ∧
    dispatched d0 r None None d'.
Proof.
  intros Hd Hr (?&?&?&?&?) Hp. destruct (Put_dispatched r p d d0 None) as (d'&E&?&?); [done..|].
  exists d'. by rewrite (bind_Ret _ _ _ _ _ E).
Qed.

Lemma send_outgoing_spec r r' p q d d0 :
  disp_ok d0 → r ∉ recycled d0 → handled d0 d → objects d !! r = Some p → objects d !! r' = Some q →
  (r' = r ∨ (length (objects d0) ≤ r')%nat) →
  let answered := ContentLength (Metadata q) =? wrap 32 (Len (Content q)) in
  ∃ err d', send_outgoing r r' d = (Ret err, d') ∧
    user d' = (if answered then prewritten (user d) else user d) ∧
    dispatched d0 r (if answered then Some q else None) err d'.
Proof.
  intros Hd Hr Hh Hp Hq Hrr answered. unfold send_outgoing.
  assert (load r' d = (Ret q, d)) as El by (unfold load; by rewrite Hq).
  rewrite (bind_Ret _ _ _ _ _ El). fold answered. destruct answered.
  - by apply (reply_dispatched r r' p q d d0).
  - destruct (unanswered r p d d0) as (d'&E&?&?); [done..|]. exists None, d'. by split_and!.
Qed.

(** Running the handler of a packet. *)
Lemma run_handler_spec h c r p d p' o a u :
  objects d !! r = Some p → h c p (user d) = (p', o, a, u) →
  ∃ x d1, run_handler h c r d = (Ret (x, a), d1) ∧ user d1 = u ∧ handled d d1 ∧ objects d1 !! r = Some p' ∧
    match o with
    | NoReply => x = None
    | Same => x = Some r
    | Other q => ∃ r', x = Some r' ∧ objects d1 !! r' = Some q ∧ (length (objects d) ≤ r')%nat
    end.
Proof.
  intros Hp Eh. assert (load r d = (Ret p, d)) as El by (unfold load; by rewrite Hp).
  pose proof (lookup_lt_Some _ _ _ Hp) as Hlt. unfold run_handler.
  rewrite (bind_Ret _ _ _ _ _ El), (bind_Ret get _ d d d) by done. rewrite Eh.
  set (l := <[r := p']> (objects d)).
  assert (l !! r = Some p') as Hl by (by apply list_lookup_insert_eq).
  assert (length l = length (objects d)) as Hll by (by apply length_insert).
  destruct o as [| |q]; do 2 eexists; (split; [reflexivity|]); split_and!; try done; unfold handled; simpl; fold l.
  - split_and!; done || lia.
  - split_and!; done || lia.
  - rewrite length_app. split_and!; done || (simpl; lia).
  - by rewrite lookup_app_l by lia.
  - exists (length l). split_and!; [done|by rewrite lookup_app_r, Nat.sub_diag by lia|lia].
Qed.

Lemma dispatch_one_spec r p d :
  disp_ok d → objects d !! r = Some p → r ∉ recycled d →
  let '(reply, a, u) := respond p (user d) in
  ∃ err d', dispatch_one r d = (Ret (err, a), d') ∧ user d' = u ∧ dispatched d r reply err d'.
Proof.
  intros Hd Hp Hr. unfold respond, dispatch_one.
  assert (load r d = (Ret p, d)) as El by (unfold load; by rewrite Hp).
  rewrite (bind_Ret _ _ _ _ _ El).
  destruct (lookup_handler _ _) as [h|].
  2:{ destruct (Put_dispatched r p d d None) as (d'&E&?&?); [done..|].
      exists None, d'. by rewrite (bind_Ret _ _ _ _ _ E). }
  destruct (h _ p (user d)) as [[[p' o] a] u] eqn:Eh.
  destruct (run_handler_spec h _ r p d p' o a u Hp Eh) as (x&d1&E1&<-&Hh&Hp1&Hx).
  rewrite (bind_Ret _ _ _ _ _ E1).
  assert (∀ r' q, objects d1 !! r' = Some q → r' = r ∨ (length (objects d) ≤ r')%nat →
    let answered := ContentLength (Metadata q) =? wrap 32 (Len (Content q)) in
    let '(reply, a', u') := (if answered then (Some q, a, prewritten (user d1)) else (None, a, user d1)) in
    ∃ err d', (err ← send_outgoing r r'; mret (err, a)) d1 = (Ret (err, a'), d') ∧ user d' = u' ∧
      dispatched d r reply err d') as Hsome.
  { intros r' q Hq Hrr answered. destruct (send_outgoing_spec r r' p' q d1 d) as (err&d'&E&Hu&Hdp); [done..|].
    fold answered in Hu, Hdp. destruct answered; exists err, d'; by rewrite (bind_Ret _ _ _ _ _ E). }
  destruct o as [| |q].
  - subst x. destruct (unanswered r p' d1 d) as (d'&E&?&?); [done..|]. exists None, d'.
    by rewrite (bind_Ret _ _ _ _ _ E).
  - subst x. apply Hsome; [done|by left].
  - destruct Hx as (r'&->&Hq&Hle). apply Hsome; [done|by right].
Qed.

(** One turn with a packet. *)
Lemma serve_turn fuel d p ps :
  disp_ok d → arrived (dconn d) = p :: ps →
  let '(reply, a, u) := respond p (user d) in
  ∃ k err d', dispatched (took p k d) (length (objects d)) reply err d' ∧ user d' = u ∧
    arrived k = ps ∧ is_closed k = is_closed (dconn d) ∧ accepted_bytes k = accepted_bytes (dconn d) ∧
    (conn_working (dconn d) → conn_working k) ∧
    serve_loop (S fuel) d =
      match err with
      | Some err => (Ret (WriteFailed err), d')
      | None => if a =? CLOSE then (Ret Asked, d') else serve_loop fuel d'
      end.
Proof.
  intros Hok Ha. destruct (ReadPacket_arrived p ps d Hok Ha) as (k&E&Hok1&?&?&?&?&Hp&Hr).
  pose proof (dispatch_one_spec _ p (took p k d) Hok1 Hp Hr) as Hd1.
  change (user (took p k d)) with (user d) in Hd1.
  destruct (respond p (user d)) as [[reply a] u]. destruct Hd1 as (err&d'&E1&?&?).
  exists k, err, d'. split_and!; try done. cbn [serve_loop].
  rewrite (bind_Ret _ _ _ _ _ E). cbv beta iota. rewrite (bind_Ret _ _ _ _ _ E1). cbv beta iota.
  destruct err; [done|]. by destruct (a =? CLOSE).
Qed.

(** A turn without a packet. *)
Lemma serve_idle fuel d :
  disp_ok d → arrived (dconn d) = [] →
  ∃ k, conn_ok k ∧ arrived k = [] ∧ is_closed k = is_closed (dconn d) ∧
    accepted_bytes k = accepted_bytes (dconn d) ∧ (conn_working (dconn d) → conn_working k) ∧
    if is_closed (dconn d) then ∃ e, serve_loop fuel d = (Ret (ReadFailed e), set_dconn k d)
    else serve_loop fuel d = (Block, set_dconn k d).
Proof.
  intros Hok Ha. destruct (ReadPacket_empty d Hok Ha) as (k&?&?&?&?&?&Hk). exists k. split_and!; try done.
  destruct (is_closed (dconn d)).
  - destruct Hk as [e E]. exists e. destruct fuel; cbn [serve_loop]; by rewrite (bind_Ret _ _ _ _ _ E).
  - destruct fuel; cbn [serve_loop]; unfold mbind at 1, M_bind at 1; by rewrite Hk.
Qed.

(** On a working connection, with replies that can be sent, the packets are
    served in order until a handler asks to close. *)
Lemma serve_loop_serves ps fuel d :
  disp_ok d → conn_working (dconn d) → arrived (dconn d) = ps → (length ps ≤ fuel)%nat →
  let '(replies, u, closing, rest) := serve ps (user d) in
  (∀ q, Some q ∈ replies → good_reply q) →
  ∃ d', serve_loop fuel d = (if closing then Ret Asked else Block, d') ∧ disp_ok d' ∧
    user d' = u ∧ accepted_bytes (dconn d') = accepted_bytes (dconn d) ++ concat (reply_bytes <$> replies) ∧
    arrived (dconn d') = rest ∧ conn_working (dconn d') ∧ is_closed (dconn d') = false ∧
    trace d' = trace d ++ concat (reply_trace <$> replies).
Proof.
  revert d fuel. induction ps as [|p ps IH]; intros d fuel Hok Hw Ha Hfuel; cbn [serve].
  - intros _. destruct (serve_idle fuel d Hok Ha) as (k&?&?&Hcl&?&?&E).
    destruct (working_ok _ Hw) as [_ Hop]. rewrite Hop in E, Hcl. exists (set_dconn k d).
    destruct Hok as (?&?&?&?). simpl. rewrite !app_nil_r. split_and!; auto. by split_and!.
  - destruct fuel as [|fuel]; [simpl in Hfuel; lia|]. pose proof (serve_turn fuel d p ps Hok Ha) as Ht.
    destruct (respond p (user d)) as [[reply a] u].
    destruct Ht as (k&err&d'&Hdis&Hu&Hak&Hck&Hbk&Hwk&E).
    destruct Hdis as (Hok'&_&_&_&Ha'&_&Hgo&Htr&_). simpl in Ha', Hgo, Htr. rewrite Hak in Ha'. rewrite Hbk in Hgo.
    destruct (a =? CLOSE) eqn:Ea.
    + intros Hgood. destruct Hgo as (->&Hw'&Hb'); [auto|intros q ->; apply Hgood; by left|].
      exists d'. simpl. rewrite !app_nil_r. destruct (working_ok _ Hw') as [_ ?]. by split_and!.
    + pose proof (IH d' fuel) as IH'. rewrite Hu in IH'.
      destruct (serve ps u) as [[[replies u'] closing] rest]. intros Hgood.
      destruct Hgo as (->&Hw'&Hb'); [auto|intros q ->; apply Hgood; by left|].
      destruct IH' as (d2&E2&?&?&Hb2&?&?&?&Ht2); [done..|simpl in Hfuel; lia| |].
      { intros q Hq. apply Hgood. by right. }
      exists d2. split_and!; try done; [by rewrite E| |].
      * rewrite Hb2, Hb'. simpl. by rewrite app_assoc.
      * rewrite Ht2, Htr. simpl. by rewrite app_assoc.
Qed.

(** Whatever the handlers and the connection do, the loop ends or waits, and
    every packet it has read was put back, none twice. *)
Lemma serve_loop_recycles fuel d :
  disp_ok d → received d ⊆ recycled d → (length (arrived (dconn d)) ≤ fuel)%nat →
  ∃ o d', serve_loop fuel d = (o, d') ∧ disp_ok d' ∧ received d' ⊆ recycled d' ∧
    match o with
    | Ret _ => True
    | Block => arrived (dconn d') = [] ∧ is_closed (dconn d') = false
    | _ => False
    end.
Proof.
  remember (arrived (dconn d)) as ps eqn:Ha. symmetry in Ha. revert d fuel Ha.
  induction ps as [|p ps IH]; intros d fuel Ha Hok Hsub Hfuel.
  - destruct (serve_idle fuel d Hok Ha) as (k&?&?&Hcl&?&_&E).
    assert (disp_ok (set_dconn k d)) as Hok' by (destruct Hok as (?&?&?&?); by split_and!).
    destruct (is_closed (dconn d)); [destruct E as [e E]|]; rewrite E; by eexists _, _.
  - destruct fuel as [|fuel]; [simpl in Hfuel; lia|]. pose proof (serve_turn fuel d p ps Hok Ha) as Ht.
    destruct (respond p (user d)) as [[reply a] u].
    destruct Ht as (k&err&d'&Hdis&Hu&Hak&_&_&_&E). rewrite E.
    destruct Hdis as (Hok'&Hrv&_&(x&Hry&_)&Ha'&_). simpl in *.
    assert (received d' ⊆ recycled d') as Hsub'.
    { rewrite Hrv, Hry. intros y [Hy|Hy]%elem_of_app; rewrite !elem_of_app; [left|right; by right].
      by apply Hsub. }
    destruct err as [e|]; [by eexists _, _|]. destruct (a =? CLOSE); [by eexists _, _|].
    apply IH; [congruence|done..|lia].
Qed.

End dispatch_one.

End dispatch.

(** ** An asynchronous connection is a connection *)

Section async_connection.
Import async async_spec.
Context {G : Globals} {PB : Polyglot} {CQ : CircularQueue} {PP : PacketPool} {BP : BufferPool}.

#[export] Instance async_connection : Connection Async := {
  Conn_ReadPacket := async.ReadPacket;
  Conn_WritePacket := async.WritePacket;
  Conn_Close := async.Close;
  Conn_Flush := async.Flush;
  Conn_Raw := async.Raw;
  Conn_Error := async.Error;
  Conn_NewStream := async.NewStream;
  Conn_SetNewStreamHandler := async.SetNewStreamHandler;
  Conn_recycle := async.packet_Put;
}.

(** While the connection is open, what is buffered counts as accepted. *)
#[export] Instance async_view : ConnectionView Async := {
  conn_ok := async_ok;
  arrived := async.arrived;
  is_closed := closed;
  accepted_bytes c := if closed c then wire (aconn c) else stream_out (out c);
  conn_working := working;
}.

Context `{!PolyglotLaws PB} `{!CircularLaws CQ} `{!PoolLaws PP} `{!PoolLaws BP}.

Lemma async_read_arrived c p r :
  async_ok c → async.arrived c = p :: r →
  ∃ c', async.ReadPacket c = (Ret (inl p), c') ∧ async.arrived c' = r ∧ closed c' = closed c ∧
    out c' = out c.
Proof.
  intros Hc Ha. unfold async.arrived in Ha. destruct (closed c) eqn:Hcl.
  - destruct (ok_closed c Hc Hcl) as (_&_&_&Hi). rewrite Hi, app_nil_r in Ha.
    exists (set_stale r c). rewrite ReadPacket_closed_eq by done. unfold take_stale.
    rewrite (bind_Ret get _ c c c) by done. rewrite Ha. split_and!; try done.
    unfold async.arrived. simpl. by rewrite Hi, app_nil_r.
  - destruct (ok_open c Hc Hcl) as (_&_&Hq&_&Hs). rewrite Hs, app_nil_l in Ha.
    destruct (Pop_item p r (incoming c) Hq Ha) as (q'&E&Hi&_). exists (set_incoming q' c).
    split_and!; try done.
    + unfold async.ReadPacket. rewrite (bind_Ret get _ c c c) by done. rewrite Hcl.
      unfold mbind, M_bind, on_incoming, zoom. by rewrite E.
    + unfold async.arrived. simpl. by rewrite Hs, Hi.
Qed.

Lemma async_read_empty c :
  async_ok c → async.arrived c = [] →
  if closed c then async.ReadPacket c = (Ret (inr ConnectionClosed), c)
  else ∃ q', async.ReadPacket c = (Block, set_incoming q' c) ∧ items q' = [].
Proof.
  intros Hc Ha. unfold async.arrived in Ha. apply app_nil in Ha as [Hs Hi]. destruct (closed c) eqn:Hcl.
  - rewrite ReadPacket_closed_eq by done. unfold take_stale.
    rewrite (bind_Ret get _ c c c) by done. by rewrite Hs.
  - destruct (ok_open c Hc Hcl) as (_&_&Hq&_). exists (incoming c). split; [|done].
    unfold async.ReadPacket. rewrite (bind_Ret get _ c c c) by done. rewrite Hcl.
    unfold mbind, M_bind, on_incoming, zoom. by rewrite Pop_empty.
Qed.

Lemma read_ok c r c' : async_ok c → async.ReadPacket c = (r, c') → async_ok c'.
Proof.
  intros Hc E. pose proof (ReadPacket_keeps c Hc) as H. unfold wp in H. rewrite E in H.
  destruct r; try done; apply H.
Qed.

Lemma async_write_returns p c :
  async_ok c → ∃ e c', async.WritePacket p c = (Ret e, c') ∧ async_ok c' ∧
    async.arrived c' = async.arrived c ∧ (closed c = true → closed c' = true).
Proof.
  intros Hc. unfold async.WritePacket, writePacket. destruct (_ <=? _).
  { by eexists _, _. }
  destruct (decide (ContentLength (Metadata p) = len (Bytes (Content p)))) as [Hl|Hl].
  2:{ eexists _, _. by rewrite writePacketN_length. }
  destruct (exceeds_max (ContentLength (Metadata p))) eqn:Hm.
  { eexists _, _. by rewrite writePacketN_exceeds. }
  destruct (closed c) eqn:Hcl.
  - exists (Some ConnectionClosed), (took_buffer c). rewrite writePacketN_closed_eq by done.
    split_and!; try done. by destruct (GetBuffer_eq c Hc) as (?&_&_&?).
  - pose proof (writePacketN_result 0 p c Hc Hcl Hl Hm) as H. unfold wp in H.
    pose proof (writePacketN_nonblocking 2 p true c) as Hb.
    destruct (writePacketN 2 p true c) as [[e| | |] c']; try done. destruct H as (?&?&_).
    by exists e, c'.
Qed.

Lemma async_close_returns c :
  async_ok c → ∃ c', async.Close c = (Ret None, c') ∧ async_ok c' ∧ closed c' = true ∧
    async.arrived c' = async.arrived c ∧ (working c → wire (aconn c') = stream_out (out c)).
Proof.
  intros Hc. destruct (closed c) eqn:Hcl.
  - exists c. rewrite Close_closed by done. split_and!; try done. intros (_&?&_). congruence.
  - destruct (Close_open c Hc Hcl) as (c1&_&(Hc1&Hcl1&Hst&_&_&_&_&Hw)&E).
    eexists. split; [exact E|]. pose proof (Close_keeps c Hc) as Hk. unfold wp in Hk. rewrite E in Hk.
    destruct Hk as [Hk _]. split_and!; try done.
    + by apply arrived_closed.
    + intros (_&_&?&?). by apply Hw.
Qed.

Lemma async_raw_returns c :
  async_ok c → ∃ w c', async.Raw c = (Ret w, c') ∧ async_ok c' ∧ closed c' = true ∧
    async.arrived c' = async.arrived c.
Proof.
  intros Hc. unfold async.Raw. destruct (closed c) eqn:Hcl.
  - exists (aconn c), c. unfold close. by rewrite (bind_Ret _ _ _ _ _ (close_closed closeSend c Hcl)).
  - destruct (Close_open c Hc Hcl) as (c1&E&(Hc1&Hcl1&Hst&_)&_). exists (aconn c1), c1.
    rewrite (bind_Ret _ _ _ _ _ E). split_and!; try done. by apply arrived_closed.
Qed.

#[export] Instance async_connection_laws : ConnectionLaws Async.
Proof.
  split; simpl.
  - intros c (?&?&_). done.
  - intros c p r Hc Ha. destruct (async_read_arrived c p r Hc Ha) as (c'&E&?&Hcl&Ho).
    pose proof (read_ok _ _ _ Hc E). exists c'. unfold aconn. rewrite Hcl, Ho. split_and!; try done.
    intros (?&?&?&?). split_and!; try done; unfold aconn; congruence || by rewrite Ho.
  - intros c Hc Ha Hcl. pose proof (async_read_empty c Hc Ha) as H. rewrite Hcl in H.
    destruct H as (q'&E&Hq). exists (set_incoming q' c). pose proof (read_ok _ _ _ Hc E).
    simpl. rewrite Hcl. split_and!; try done; [|by intros (_&?&?&?)]. unfold async.arrived in *. simpl.
    apply app_nil in Ha as [-> _]. by rewrite Hq.
  - intros c Hc Ha Hcl. pose proof (async_read_empty c Hc Ha) as H. rewrite Hcl in H.
    exists ConnectionClosed, c. by split_and!.
  - apply async_write_returns.
  - intros p c Hw Hs Hop. destruct (writePacketN_working 1 p true c Hw Hs) as (c'&E&(Hw'&Hsd&Hso)&_).
    exists c'. pose proof Hw as (_&Ho&_). pose proof Hw' as (_&Ho'&_). rewrite Ho, Ho'.
    destruct Hsd as (_&_&_&Hi&Hst&_). split_and!; try done.
    + unfold async.WritePacket. by replace (_ <=? RESERVED9) with false by (unfold RESERVED9; lia).
    + unfold async.arrived. by rewrite Hi, Hst.
  - intros c Hc. destruct (async_close_returns c Hc) as (c'&E&?&Hcl&?&Hw). exists c'. rewrite Hcl.
    split_and!; try done. intros Hwk. pose proof Hwk as (_&->&_). auto.
  - apply async_raw_returns.
  - intros p c Hc. pose proof (packet_Put_calm p c Hc) as [? _]. eexists. split; [reflexivity|].
    split_and!; try done. intros (?&?&?&?). by split_and!.
Qed.

End async_connection.
End dispatch.
