(* ===== verification/Client.v ===== *)
(** * The client (client.go)

    The client owns one connection, which does not exist before [Connect] or
    [FromConn], and a goroutine, [handleConn], that reads packets and dispatches
    them.  Its operations are functions on its state; the connection is used
    through the interface of [Dispatch]. *)

From S2P Require Import Prelude Frisbee GoStd Interfaces Metadata Packet Async AsyncSpec ReadLoop.
From S2P Require Import ReadSpec Wire Dispatch Concrete.

Module client.
Import metadata packet dispatch.

Section client.
Context {G : Globals} {PB : Polyglot} {C U Ctx : Type} `{!Connection C}.

(** [conn] is nil at first; [wg] counts the running [handleConn]; the base
    context is known by whether it was cancelled. *)
Record Client := mkClient {
  conn : option (Dispatcher (C := C) (U := U));
  handlerTable : HandlerTable (U := U) (Ctx := Ctx);
  closed : bool;
  wg : Z;
  cancelled : bool;
}.

Definition set_conn v c := mkClient v (handlerTable c) (closed c) (wg c) (cancelled c).
Definition set_closed v c := mkClient (conn c) (handlerTable c) v (wg c) (cancelled c).
Definition set_wg v c := mkClient (conn c) (handlerTable c) (closed c) v (cancelled c).
Definition set_cancelled v c := mkClient (conn c) (handlerTable c) (closed c) (wg c) v.

(** [NewClient(handlerTable, ctx, opts...)]. *)
Definition NewClient (t : HandlerTable) : Client + error :=
  match check_table t with
  | Some err => inr err
  | None => inl (mkClient None t false 0 false)
  end.

(** A method call on the connection: a nil one is dereferenced. *)
Definition on_conn {A} (m : M Dispatcher A) : M Client A := λ c,
  match conn c with
  | None => (Panic NilDereference, c)
  | Some d => let '(r, d') := m d in (r, set_conn (Some d') c)
  end.

Definition wg_Add : M Client unit := modify (λ c, set_wg (wg c + 1) c).

Definition wg_Done : M Client unit :=
  c ← get;
  if wg c <=? 0 then panicM NegativeWaitGroup else modify (set_wg (wg c - 1)).

Definition wg_Wait : M Client unit :=
  c ← get;
  if wg c =? 0 then mret tt else blockM.

(** [FromConn(conn)], with the state the handlers start with. *)
Definition FromConn (k : C) (u : U) : M Client (option error) :=
  modify (set_conn (Some (mkDispatcher k u [] [] [] [])));;
  wg_Add;;
  mret None.

(** [Connect(addr)]: [dialed] is what [ConnectAsync] returned. *)
Definition Connect (dialed : C + error) (u : U) : M Client (option error) :=
  match dialed with
  | inr err => mret (Some err)
  | inl k => FromConn k u
  end.

Definition Closed (c : Client) : bool := closed c.

Definition Error : M Client (option error) := on_conn (d ← get; mret (Conn_Error (dconn d))).

Definition Close : M Client (option error) :=
  c ← get;
  if negb (closed c) then
    modify (set_closed true);;
    modify (set_cancelled true);;
    err ← on_conn (on_dconn Conn_Close);
    match err with
    | Some err => mret (Some err)
    | None => wg_Wait;; mret None
    end
  else on_conn (on_dconn Conn_Close).

Definition WritePacket (p : Packet) : M Client (option error) := on_conn (on_dconn (Conn_WritePacket p)).

Definition Flush : M Client (option error) := on_conn (on_dconn Conn_Flush).

Definition Raw : M Client (WConn + error) :=
  c ← get;
  match conn c with
  | None => mret (inr ConnectionNotInitialized)
  | Some _ =>
      if negb (closed c) then
        modify (set_closed true);;
        w ← on_conn (on_dconn Conn_Raw);
        wg_Wait;;
        mret (inl w)
      else w ← on_conn (on_dconn Conn_Raw); mret (inl w)
  end.

(** [Stream(id)]. *)
Definition Stream (i : Z) : M Client nat := on_conn (on_dconn (Conn_NewStream i)).

(** [SetStreamHandler(f)]: [closure f] is the function that adds the context and
    calls [f]. *)
Definition SetStreamHandler (closure : option Z → Z) (f : option Z) : M Client unit :=
  (match f with
   | None => on_conn (on_dconn (Conn_SetNewStreamHandler None))
   | Some _ => mret tt
   end);;
  on_conn (on_dconn (Conn_SetNewStreamHandler (Some (closure f)))).

(** ** The goroutine *)

Section handle.
Context (PacketContext : option (Ctx → Packet → Ctx)) (baseContext : Ctx).

(** Every way out of the loop but the first. *)
Definition leave_loop : M Client unit := wg_Done;; _ ← Close; mret tt.

(** The client has no [preWrite]. *)
Definition dispatch (r : nat) : M Client (option error * Action) :=
  c ← get;
  on_conn (dispatch_one (handlerTable c) PacketContext baseContext None r).

(** [fuel] bounds the number of packets. *)
Fixpoint handleConn (fuel : nat) : M Client unit :=
  c ← get;
  if closed c then wg_Done
  else
    r ← on_conn ReadPacket;
    match r with
    | inr _ => leave_loop
    | inl r =>
        match fuel with
        | O => out_of_fuel
        | S fuel =>
            '(err, action) ← dispatch r;
            match err with
            | Some _ => leave_loop
            | None => if action =? CLOSE then leave_loop else handleConn fuel
            end
        end
    end.

(** ** What it does *)

(** While [handleConn] runs. *)
Definition running (c : Client) (d : Dispatcher) : Prop :=
  conn c = Some d ∧ closed c = false ∧ wg c = 1.

Lemma running_set c d d' : running c d → running (set_conn (Some d') c) d'.
Proof. intros (?&?&?). by split_and!. Qed.

(** The goroutine is the common loop, and gives up when that ends. *)
Lemma handleConn_loop fuel c d :
  running c d →
  handleConn fuel c =
    match serve_loop (handlerTable c) PacketContext baseContext None fuel d with
    | (Ret _, d') => leave_loop (set_conn (Some d') c)
    | (Block, d') => (Block, set_conn (Some d') c)
    | (Panic w, d') => (Panic w, set_conn (Some d') c)
    | (OutOfFuel, d') => (OutOfFuel, set_conn (Some d') c)
    end.
Proof.
  revert c d. induction fuel as [|fuel IH]; intros c d Hrun; pose proof Hrun as (Hd&Hcl&_);
    cbn [handleConn serve_loop]; rewrite (bind_Ret get _ c c c) by done; rewrite Hcl;
    unfold mbind, M_bind, on_conn at 1; rewrite Hd; destruct (ReadPacket d) as [[[r|e]|w| |] d1]; try done.
  unfold dispatch, mbind, M_bind, on_conn, get. cbn [conn set_conn handlerTable].
  destruct (dispatch_one _ _ _ _ r d1) as [[[[e|] a]|w| |] d2]; try done.
  destruct (a =? CLOSE); [done|]. apply (IH (set_conn (Some d2) c)). by eapply running_set.
Qed.

Context `{!ConnectionView C} `{!ConnectionLaws C}.

Lemma leave_loop_eq c d :
  running c d → conn_ok (dconn d) →
  ∃ k, leave_loop c = (Ret tt, mkClient (Some (set_dconn k d)) (handlerTable c) true 0 true) ∧
    conn_ok k ∧ is_closed k = true ∧ arrived k = arrived (dconn d) ∧
    (conn_working (dconn d) → accepted_bytes k = accepted_bytes (dconn d)).
Proof.
  intros (Hd&Hcl&Hwg) Hc. destruct (close_returns (dconn d) Hc) as (k&E&?&?&?&?). exists k.
  split_and!; try done. destruct c as [cn t cl w x]. simpl in *. subst.
  unfold leave_loop, Close, wg_Done, wg_Wait, on_conn, on_dconn, zoom. munfold. simpl. by rewrite E.
Qed.

(** C27: the client serves its packets in order.  With a working connection,
    packets that have arrived and handlers that reply with packets that can be
    sent, [handleConn] hands the packets to their handlers one after the other,
    in order of arrival, and writes the replies in the same order; it ends when a
    handler asks for it, with the client closed, its connection closed, nothing
    left to wait for and the later packets unread, and otherwise waits for more
    packets with everything still open. *)
Theorem client_serves (c : Client) (d : Dispatcher) (ps : list Packet) (fuel : nat) :
  running c d → disp_ok d → conn_working (dconn d) → arrived (dconn d) = ps → (length ps ≤ fuel)%nat →
  let '(replies, u, closing, rest) := serve (handlerTable c) PacketContext baseContext None ps (user d) in
  (∀ q, Some q ∈ replies → good_reply q) →
  ∃ d' c', handleConn fuel c = (if closing then Ret tt else Block, c') ∧ conn c' = Some d' ∧
    user d' = u ∧ accepted_bytes (dconn d') = accepted_bytes (dconn d) ++ concat (reply_bytes <$> replies) ∧
    arrived (dconn d') = rest ∧ is_closed (dconn d') = closing ∧
    closed c' = closing ∧ cancelled c' = (closing || cancelled c) ∧ wg c' = if closing then 0 else 1.
Proof.
  intros Hrun Hok Hw Ha Hf.
  pose proof (serve_loop_serves (handlerTable c) PacketContext baseContext None ps fuel d Hok Hw Ha Hf) as Hs.
  destruct (serve _ _ _ _ ps (user d)) as [[[replies u] closing] rest]. intros Hgood.
  destruct (Hs Hgood) as (d'&E&Hok'&?&?&?&Hw'&?&_). rewrite (handleConn_loop fuel c d Hrun), E.
  destruct closing.
  - destruct (leave_loop_eq (set_conn (Some d') c) d') as (k&Eg&?&?&?&Hb); [by eapply running_set|apply Hok'|].
    exists (set_dconn k d'). eexists. split; [exact Eg|]. simpl. rewrite Hb by auto. split_and!; try done.
    congruence.
  - destruct Hrun as (?&?&?). by exists d', (set_conn (Some d') c).
Qed.

(** C28: no packet is lost to the pool or put back twice.  Take any handlers that
    return (in particular, that do not close their own client, for which see
    [close_from_handler]), each time with nil, the packet they were given or a new
    packet of their own, with any action, and having changed the packet.  Whether
    the writes succeed or not: [handleConn] ends, with the client closed and the
    wait group at zero, or waits on an open connection without unread packets;
    every packet it has read was put back into the pool, and no packet (read, or
    returned by a handler, be it the same one or another) was put back twice. *)
Theorem client_recycles (c : Client) (d : Dispatcher) (fuel : nat) :
  running c d → disp_ok d → received d ⊆ recycled d → (length (arrived (dconn d)) ≤ fuel)%nat →
  ∃ o d' c', handleConn fuel c = (o, c') ∧ conn c' = Some d' ∧ disp_ok d' ∧
    received d' ⊆ recycled d' ∧ NoDup (recycled d') ∧
    match o with
    | Ret _ => closed c' = true ∧ wg c' = 0 ∧ is_closed (dconn d') = true
    | Block => running c' d' ∧ arrived (dconn d') = [] ∧ is_closed (dconn d') = false
    | _ => False
    end.
Proof.
  intros Hrun Hok Hsub Hf.
  destruct (serve_loop_recycles (handlerTable c) PacketContext baseContext None fuel d Hok Hsub Hf)
    as (o&d'&E&Hok'&Hsub'&Ho). rewrite (handleConn_loop fuel c d Hrun), E.
  pose proof Hok' as (Hc'&Hn1&Hn2&Hall). destruct o as [why| | |]; try done.
  - destruct (leave_loop_eq (set_conn (Some d') c) d') as (k&Eg&?&?&?&_); [by eapply running_set|done|].
    rewrite Eg. eexists _, (set_dconn k d'), _. by split_and!.
  - eexists _, d', _. destruct Ho. split_and!; try done. split_and!; [by eapply running_set|done|done].
Qed.

End handle.

Context `{!ConnectionView C} `{!ConnectionLaws C}.

(** Closing the client.  On a connected client whose [handleConn] has
    returned, [Close] cancels the base context, closes the connection and
    returns nil, as does every further [Close]; while [handleConn] runs, [Close]
    waits for it, with the connection already closed; and without a connection
    it fails by dereferencing nil, having marked the client closed. *)
Theorem client_close (c : Client) :
  closed c = false →
  match conn c with
  | None => Close c = (Panic NilDereference, set_cancelled true (set_closed true c))
  | Some d =>
      conn_ok (dconn d) →
      ∃ d' c', Close c = (if wg c =? 0 then Ret None else Block, c') ∧ conn c' = Some d' ∧
        closed c' = true ∧ cancelled c' = true ∧ is_closed (dconn d') = true ∧
        (Close c').1 = Ret None
  end.
Proof.
  intros Hcl. unfold Close. rewrite !(bind_Ret get _ c c c) by done. rewrite Hcl. cbn [negb].
  destruct (conn c) as [d|] eqn:Hd; [|by destruct c; simpl in *; subst].
  intros Hc. destruct (close_returns (dconn d) Hc) as (k&E&Hk&Hkc&_).
  destruct (close_returns k Hk) as (k2&E2&_).
  exists (set_dconn k d), (set_conn (Some (set_dconn k d)) (set_cancelled true (set_closed true c))).
  destruct c as [cn t cl w x]. simpl in *. subst. unfold on_conn, on_dconn, zoom, wg_Wait. munfold. simpl.
  rewrite E. simpl. split_and!; try done; [by destruct (w =? 0)|]. by rewrite E2.
Qed.

(** A table with a handler for the reserved operation 9 is accepted.  The
    check stops before it: handlers for 0 to 8 are refused, and a handler for 9,
    the last reserved operation, is accepted and called for packets with that
    operation. *)
Theorem reserved9_accepted (t : HandlerTable) (h : Handler) (p : Packet) (u : U) (ctx : Ctx) :
  t !! RESERVED9 = Some (Some h) → (∀ i, 0 ≤ i < 9 → t !! i = None) → Operation (Metadata p) = 9 →
  (∃ c, NewClient t = inl c ∧ handlerTable c = t) ∧
  (∀ i, 0 ≤ i < 9 → NewClient (<[i := Some h]> t) = inr InvalidHandlerTable) ∧
  (respond t None ctx None p u).1.2 = (h ctx p u).1.2.
Proof.
  intros H9 Hn Hop. unfold NewClient. split_and!.
  - eexists. by rewrite check_table_ok.
  - intros i Hi. rewrite (check_table_bad (<[i := Some h]> t) i Hi); [done|].
    exists (Some h). apply (lookup_insert_eq (M := gmap Z)).
  - unfold respond, lookup_handler. rewrite Hop. change 9 with RESERVED9. rewrite H9. simpl.
    destruct (h ctx p u) as [[[p' o] a] u']. by destruct o; simpl; try destruct (_ =? _).
Qed.

End client.

(** ** Streams over an asynchronous connection *)

Section streams.
Import async async_spec read_loop read_spec wire.
Context {G : Globals} {PB : Polyglot} {CQ : CircularQueue} {PP : PacketPool} {BP : BufferPool}.
Context `{!GlobalsLaws G} `{!PolyglotLaws PB} `{!CircularLaws CQ} `{!PoolLaws PP} `{!PoolLaws BP}.
Context {U Ctx : Type}.

(** A nil stream handler is called.  After [SetStreamHandler(nil)] the
    connection does have a handler, the closure around nil: the first packet of a
    new stream is not dropped, but starts a goroutine that calls nil. *)
Theorem nil_stream_handler_runs (closure : option Z → Z) (c : Client (C := Async) (U := U) (Ctx := Ctx))
    (d : Dispatcher) (i : Z) (p : Packet) (chunks : list (list byte)) :
  client.conn c = Some d → working (dconn d) → streams (dconn d) !! i = None →
  streamable i p → concat chunks = stream_bytes i [p] →
  ∃ d' c' a, SetStreamHandler closure None c = (Ret tt, c') ∧ client.conn c' = Some d' ∧
    readLoop (feed chunks None) [] (dconn d') = (Block, a) ∧
    spawned a = spawned (dconn d) ++ [(closure None, length (heap (dconn d)))].
Proof.
  intros Hd Hw Hs Hp Hch.
  set (k := set_newStreamHandler (Some (closure None)) (set_newStreamHandler None (dconn d))).
  assert (working k) as Hwk by (destruct Hw as ([]&?&?&?); split; [by split|by split_and!]).
  pose proof (readLoop_reads chunks None k (proj1 Hwk)) as Hrd. rewrite Hch in Hrd.
  assert (1 ≤ DefaultStreamBufferSize) by done.
  apply (reads_new_stream _ _ _ _ _ (closure None)) in Hrd as (a&s&qs&E&_&_&_&Hsp&_);
    [|apply Hp|by constructor|assumption|reflexivity|assumption|assumption].
  exists (set_dconn k d), (client.set_conn (Some (set_dconn k d)) c), a.
  split_and!; [|reflexivity|exact E|exact Hsp].
  unfold SetStreamHandler, client.on_conn, mbind, M_bind. rewrite Hd. reflexivity.
Qed.
End streams.

(** ** Witnesses *)

Import async async_spec concrete.

(** Handlers count what they see; operation 10 is echoed, 11 closes. *)
Definition echo : Handler (U := nat) (Ctx := unit) := λ _ p u, (p, Same, NONE, S u).
Definition quit : Handler (U := nat) (Ctx := unit) := λ _ p u, (p, NoReply, CLOSE, S u).
Definition echo_table : HandlerTable := {[10 := Some echo; 11 := Some quit]}.

Definition echo_dispatcher : Dispatcher (C := Async) := mkDispatcher busy_conn 0%nat [] [] [] [].
Definition echo_client : Client := mkClient (Some echo_dispatcher) echo_table false 1 false.

Lemma echo_running : running echo_client echo_dispatcher.
Proof. by split_and!. Qed.

Lemma echo_dispatcher_ok : disp_ok echo_dispatcher.
Proof. split_and!; [apply busy_conn_ok|by constructor|by constructor|by constructor]. Qed.

Lemma client_serves_witness :
  ∃ d' c', handleConn None tt 1 echo_client = (Block, c') ∧ client.conn c' = Some d' ∧ user d' = 1%nat ∧
    dispatch.accepted_bytes (dconn d') = dispatch.accepted_bytes busy_conn ++ frame hello ++ [] ∧
    dispatch.arrived (dconn d') = [] ∧ is_closed (dconn d') = false ∧
    client.closed c' = false ∧ cancelled c' = false ∧ wg c' = 1.
Proof.
  refine (client_serves None tt echo_client echo_dispatcher [hello] 1 echo_running echo_dispatcher_ok
    busy_working eq_refl (Nat.le_refl 1) _).
  intros q Hq. apply list_elem_of_singleton in Hq as [= ->]. split; [apply hello_sendable|done].
Defined.

Lemma client_recycles_witness :
  ∃ o d' c', handleConn None tt 1 echo_client = (o, c') ∧ client.conn c' = Some d' ∧ disp_ok d' ∧
    received d' ⊆ recycled d' ∧ NoDup (recycled d') ∧
    match o with
    | Ret _ => client.closed c' = true ∧ wg c' = 0 ∧ is_closed (dconn d') = true
    | Block => running c' d' ∧ dispatch.arrived (dconn d') = [] ∧ is_closed (dconn d') = false
    | _ => False
    end.
Proof.
  apply (client_recycles None tt echo_client echo_dispatcher 1 echo_running echo_dispatcher_ok);
    [done|simpl; lia].
Defined.

Lemma client_close_witness :
  ∃ d' c', client.Close echo_client = (Block, c') ∧ client.conn c' = Some d' ∧
    client.closed c' = true ∧ cancelled c' = true ∧ is_closed (dconn d') = true ∧
    (client.Close c').1 = Ret None.
Proof. apply (client_close echo_client); [done|apply busy_conn_ok]. Defined.

Lemma nil_stream_handler_runs_witness :
  ∃ d' c' a, SetStreamHandler (λ f, default (-1) f) None echo_client = (Ret tt, c') ∧
    client.conn c' = Some d' ∧
    read_loop.readLoop (feed [wire.stream_bytes 6 [hello]] None) [] (dconn d') = (Block, a) ∧
    spawned a = spawned busy_conn ++ [(-1, 1%nat)].
Proof.
  apply (nil_stream_handler_runs (λ f, default (-1) f) echo_client echo_dispatcher 6 hello
    [wire.stream_bytes 6 [hello]]);
    [done|apply busy_working|done|by apply wire.hello_streamable|apply app_nil_r].
Defined.

Lemma reserved9_accepted_witness :
  let t := {[RESERVED9 := Some echo]} in
  (∃ c : Client (C := Async), NewClient t = inl c ∧ handlerTable c = t) ∧
  (∀ i, 0 ≤ i < 9 → NewClient (C := Async) (<[i := Some echo]> t) = inr InvalidHandlerTable) ∧
  (respond t None tt None (mkPacket (mkMetadata 0 0 9 0) polyglot_NewBuffer) 0%nat).1.2 = NONE.
Proof.
  apply (reserved9_accepted (C := Async) {[RESERVED9 := Some echo]} echo
    (mkPacket (mkMetadata 0 0 9 0) polyglot_NewBuffer) 0%nat tt); [done| |done].
  intros i ?. apply (lookup_singleton_ne (M := gmap Z)). unfold RESERVED9. lia.
Defined.

End client.
