(* ===== verification/Hangup.v ===== *)
(** * Closing a client while it works (client.go)

    [Client] has the operations of a client as they run undisturbed.  Here the
    goroutine of the client, [handleConn], runs together with any number of
    goroutines that call [Close] or [Raw], a handler may call them too, and
    packets arrive until the connection is closed.  What the connection promises
    is what [Dispatch] states of it: packets that have arrived are read even
    after it was closed, then reading fails, when the close is over; the first to
    close it is inside that call until the close is over, the others return at
    once.  When a close is over is not decided here ([busy], [event_over]). *)

From S2P Require Import Prelude Frisbee.

Module hangup.

Inductive kind := ByClose | ByRaw.

(** Where a call of [Close] or [Raw] stands. *)
Inductive call :=
  | Swap (k : kind)               (* c.closed.CompareAndSwap(false, true) *)
  | Cancel                        (* won, in Close: c.baseContextCancel() *)
  | Hang (k : kind) (won : bool)  (* c.conn.Close() or c.conn.Raw() *)
  | Hanging (k : kind) (won : bool) (* inside it, closing the connection *)
  | Wait (k : kind)               (* won: c.wg.Wait() *)
  | Back (k : kind) (won : bool). (* returned *)

(** Where [handleConn] stands. *)
Inductive loop :=
  | LCheck               (* c.closed.Load() *)
  | LRead                (* c.conn.ReadPacket() *)
  | LHandle              (* the handler, the write and the puts *)
  | LFailing             (* the write fails and closes the connection *)
  | LInner (q : call)    (* the handler calls Close or Raw *)
  | LDone (again : bool) (* c.wg.Done(), then Close when [again] *)
  | LClose (q : call)
  | LReturned.

Record Client := mkClient {
  closed : bool;
  cancelled : bool;
  wg : nat;
  conn_closed : bool;
  (** a close of the connection has begun and is not over *)
  busy : bool;
  arrived : nat;
  main : loop;
  callers : list call;
}.

Definition set_closed v c :=
  mkClient v (cancelled c) (wg c) (conn_closed c) (busy c) (arrived c) (main c) (callers c).
Definition set_cancelled v c :=
  mkClient (closed c) v (wg c) (conn_closed c) (busy c) (arrived c) (main c) (callers c).
Definition set_wg v c :=
  mkClient (closed c) (cancelled c) v (conn_closed c) (busy c) (arrived c) (main c) (callers c).
Definition set_conn_closed v c :=
  mkClient (closed c) (cancelled c) (wg c) v (busy c) (arrived c) (main c) (callers c).
Definition set_busy v c :=
  mkClient (closed c) (cancelled c) (wg c) (conn_closed c) v (arrived c) (main c) (callers c).
Definition set_arrived v c :=
  mkClient (closed c) (cancelled c) (wg c) (conn_closed c) (busy c) v (main c) (callers c).
Definition set_main v c :=
  mkClient (closed c) (cancelled c) (wg c) (conn_closed c) (busy c) (arrived c) v (callers c).
Definition set_callers v c :=
  mkClient (closed c) (cancelled c) (wg c) (conn_closed c) (busy c) (arrived c) (main c) v.

(** After [Connect] or [FromConn]. *)
Definition connected : Client := mkClient false false 1 false false 0 LCheck [].

(** The connection begins to close. *)
Definition begin_close (c : Client) : Client := set_busy true (set_conn_closed true c).

Definition hung (k : kind) (won : bool) : call := if won then Wait k else Back k false.

(** What a call does next; [None] when it waits or has returned. *)
Definition call_step (q : call) (c : Client) : option (call * Client) :=
  match q with
  | Swap k =>
      if closed c then Some (Hang k false, c)
      else Some (match k with ByClose => Cancel | ByRaw => Hang ByRaw true end, set_closed true c)
  | Cancel => Some (Hang ByClose true, set_cancelled true c)
  | Hang k won => if conn_closed c then Some (hung k won, c) else Some (Hanging k won, begin_close c)
  | Hanging k won => if busy c then None else Some (hung k won, c)
  | Wait k => if (wg c =? 0)%nat then Some (Back k true, c) else None
  | Back _ _ => None
  end.

Inductive step : Client → Client → Prop :=
  | step_caller c i q q' c' :
      callers c !! i = Some q → call_step q c = Some (q', c') →
      step c (set_callers (<[i := q']> (callers c')) c')
  | step_check c :
      main c = LCheck → step c (set_main (if closed c then LDone false else LRead) c)
  | step_read c n :
      main c = LRead → arrived c = S n → step c (set_main LHandle (set_arrived n c))
  | step_read_failed c :
      main c = LRead → arrived c = 0%nat → conn_closed c = true → busy c = false → step c (set_main (LDone true) c)
  | step_write_failed c :
      main c = LHandle → conn_closed c = false → step c (set_main LFailing (begin_close c))
  | step_failed c :
      main c = LFailing → busy c = false → step c (set_main (LDone true) c)
  (* [leave]: the connection was closed already, or the handler returned CLOSE *)
  | step_handled c (leave : bool) :
      main c = LHandle → step c (set_main (if leave then LDone true else LCheck) c)
  | step_inner c q q' c' :
      main c = LInner q → call_step q c = Some (q', c') → step c (set_main (LInner q') c')
  | step_inner_back c k won :
      main c = LInner (Back k won) → step c (set_main LHandle c)
  | step_done c again w :
      main c = LDone again → wg c = S w →
      step c (set_main (if again then LClose (Swap ByClose) else LReturned) (set_wg w c))
  | step_close c q q' c' :
      main c = LClose q → call_step q c = Some (q', c') → step c (set_main (LClose q') c')
  | step_close_back c k won :
      main c = LClose (Back k won) → step c (set_main LReturned c).

(** From outside: somebody calls, a packet arrives, the connection closes by
    itself, a close of it is over, or the handler calls. *)
Inductive event : Client → Client → Prop :=
  | event_call c k : event c (set_callers (callers c ++ [Swap k]) c)
  | event_arrive c : conn_closed c = false → event c (set_arrived (S (arrived c)) c)
  | event_lost c : conn_closed c = false → event c (begin_close c)
  | event_over c : event c (set_busy false c)
  | event_inner c k : main c = LHandle → event c (set_main (LInner (Swap k)) c).

Definition any_step (c c' : Client) : Prop := step c c' ∨ event c c'.
Definition reachable (c : Client) : Prop := rtc any_step connected c.

(** ** The invariant *)

Definition loop_done (l : loop) : bool := match l with LClose _ | LReturned => true | _ => false end.

(** The call the loop is in. *)
Definition main_call (l : loop) : list call := match l with LInner q | LClose q => [q] | _ => [] end.

Definition calls (c : Client) : list call := main_call (main c) ++ callers c.

Definition has_won (q : call) : nat :=
  match q with Cancel | Hang _ true | Hanging _ true | Wait _ | Back _ true => 1 | _ => 0 end.

(** Won, but the connection not closed yet. *)
Definition pending (q : call) : nat := match q with Cancel | Hang _ true => 1 | _ => 0 end.

Definition flag (b : bool) : nat := if b then 1 else 0.

Definition call_ok (c : Client) (q : call) : Prop :=
  match q with
  | Swap _ => True
  | Cancel => closed c = true
  | Hang k won => closed c = true ∧ (won = true → k = ByClose → cancelled c = true)
  | Hanging k won =>
      closed c = true ∧ conn_closed c = true ∧ (won = true → k = ByClose → cancelled c = true)
  | Wait k => closed c = true ∧ conn_closed c = true ∧ (k = ByClose → cancelled c = true)
  | Back k won =>
      closed c = true ∧ conn_closed c = true ∧ (won = true → wg c = 0%nat ∧ (k = ByClose → cancelled c = true))
  end.

Record client_ok (c : Client) : Prop := {
  ok_wg : (wg c + flag (loop_done (main c)) = 1)%nat;
  ok_won : (sum_list_with has_won (calls c) ≤ flag (closed c))%nat;
  ok_calls : Forall (call_ok c) (calls c);
  ok_pending : closed c = true → conn_closed c = true ∨ (0 < sum_list_with pending (calls c))%nat;
  ok_end : main c = LDone false ∨ main c = LReturned → closed c = true;
}.

(** What was once done stays done. *)
Definition goes_on (c c' : Client) : Prop :=
  (closed c = true → closed c' = true) ∧ (cancelled c = true → cancelled c' = true) ∧
  (conn_closed c = true → conn_closed c' = true) ∧ (wg c = 0%nat → wg c' = 0%nat).

Lemma call_ok_goes_on c c' q : goes_on c c' → call_ok c q → call_ok c' q.
Proof. intros (?&?&?&?). destruct q; simpl; intuition. Qed.

(** What a call changes besides itself. *)
Lemma call_step_spec q c q' c' :
  call_ok c q → call_step q c = Some (q', c') →
  goes_on c c' ∧ call_ok c' q' ∧ wg c' = wg c ∧ arrived c' = arrived c ∧ main c' = main c ∧ callers c' = callers c ∧
  (has_won q' + flag (closed c) = has_won q + flag (closed c'))%nat ∧
  (conn_closed c' = true ∨ (pending q' + flag (closed c) = pending q + flag (closed c'))%nat).
Proof.
  destruct c as [cl x w cc z n m cs]. intros Hq E. destruct q as [k| |k won|k won|k|]; simpl in *; try done.
  - destruct cl; simplify_eq/=; [by split_and!; auto|]. destruct k; by split_and!; auto.
  - simplify_eq/=. by split_and!; auto.
  - destruct Hq. destruct cc, won; simplify_eq/=; by split_and!; auto.
  - destruct Hq as (?&?&?). destruct z, won; simplify_eq/=; by split_and!; auto.
  - destruct (Nat.eqb_spec w 0); simplify_eq/=. destruct Hq as (?&?&?). by split_and!; auto.
Qed.

(** The call at a place in the list of all calls takes a step. *)
Lemma calls_replaced (c c' : Client) l1 q l2 q' :
  client_ok c → calls c = l1 ++ q :: l2 → call_step q c = Some (q', c') →
  ∀ c2, goes_on c' c2 → closed c2 = closed c' → conn_closed c2 = conn_closed c' → calls c2 = l1 ++ q' :: l2 →
  (sum_list_with has_won (calls c2) ≤ flag (closed c2))%nat ∧ Forall (call_ok c2) (calls c2) ∧
  (closed c2 = true → conn_closed c2 = true ∨ (0 < sum_list_with pending (calls c2))%nat).
Proof.
  intros [_ Hwon Hcalls Hpend _] Hl E c2 Hon Hcl Hcc Hl2. rewrite Hl in *. rewrite Hl2, Hcl, Hcc.
  apply Forall_app in Hcalls as [H1 H2]. inversion H2 as [|? ? Hq H2']; subst.
  destruct (call_step_spec q c q' c' Hq E) as (Hon'&Hq'&_&_&_&_&Hw&Hp).
  assert (goes_on c c2) as Hon2 by (unfold goes_on in *; intuition).
  rewrite !sum_list_with_app in *. simpl in *. split_and!.
  - lia.
  - apply Forall_app. split; [|constructor; [by apply (call_ok_goes_on c')|]];
      (eapply Forall_impl; [|eassumption]; intros; by eapply call_ok_goes_on).
  - intros Hc'. destruct Hp as [?|Hp]; [by left|]. destruct (closed c) eqn:Hc.
    + destruct (Hpend eq_refl) as [Hcc1|?]; [left; by apply Hon'|right]. rewrite Hc' in Hp. simpl in Hp. lia.
    + rewrite Hc' in Hp. simpl in Hp. right. lia.
Qed.

(** A step of the loop outside a call, and what happens from outside. *)
Lemma undisturbed_ok c c' :
  client_ok c → goes_on c c' → closed c' = closed c →
  (calls c' = calls c ∨ (∃ k, calls c' = calls c ++ [Swap k]) ∨ ∃ k, calls c' = Swap k :: calls c) →
  (wg c' + flag (loop_done (main c')) = 1)%nat →
  (main c' = LDone false ∨ main c' = LReturned → closed c' = true) → client_ok c'.
Proof.
  intros [_ Hwon Hcalls Hpend _] Hon Hcl Hl Hw He.
  assert (Forall (call_ok c') (calls c)) as Hcalls'
    by (eapply Forall_impl; [|exact Hcalls]; intros; by eapply call_ok_goes_on).
  assert (closed c' = true → conn_closed c' = true ∨ (0 < sum_list_with pending (calls c))%nat) as Hpend'.
  { rewrite Hcl. intros [?|?]%Hpend; [left; by apply Hon|by right]. }
  rewrite <- Hcl in Hwon.
  destruct Hl as [Hl|[[k Hl]|[k Hl]]]; split; rewrite ?Hl, ?sum_list_with_app; simpl; try done; try lia.
  - apply Forall_app. by split; [|repeat constructor].
  - intros [?|?]%Hpend'; [by left|right; lia].
  - by constructor.
Qed.

Lemma call_in c q : client_ok c → q ∈ calls c → call_ok c q.
Proof. intros [_ _ Hcalls _ _] Hq. rewrite list.Forall_forall in Hcalls. by apply Hcalls. Qed.

Lemma caller_ok c i q q' c' :
  client_ok c → callers c !! i = Some q → call_step q c = Some (q', c') →
  client_ok (set_callers (<[i := q']> (callers c')) c').
Proof.
  intros Hc Hi E. assert (call_ok c q) as Hq.
  { apply call_in; [done|]. apply elem_of_app. right. by eapply list_elem_of_lookup_2. }
  destruct (call_step_spec q c q' c' Hq E) as ((Hcl&_)&_&Hw&_&Hm&Hcs&_).
  pose proof (take_drop_middle _ _ _ Hi) as Hmid. pose proof (lookup_lt_Some _ _ _ Hi).
  destruct (calls_replaced c c' (main_call (main c) ++ take i (callers c)) q (drop (S i) (callers c)) q' Hc)
    with (c2 := set_callers (<[i := q']> (callers c')) c') as (?&?&?); try done.
  - unfold calls. by rewrite <- app_assoc, Hmid.
  - unfold calls. simpl. by rewrite Hm, Hcs, <- app_assoc, insert_take_drop.
  - destruct Hc as [Hwg _ _ _ He]. split; try done; simpl; rewrite ?Hw, ?Hm; auto.
Qed.

(** The call of the loop takes a step. *)
Lemma main_ok c (at_call : call → loop) q q' c' :
  client_ok c → main c = at_call q → call_step q c = Some (q', c') →
  at_call = LInner ∨ at_call = LClose → client_ok (set_main (at_call q') c').
Proof.
  intros Hc Hm E Hat. assert (calls c = q :: callers c) as Hl
    by (unfold calls; rewrite Hm; by destruct Hat as [->| ->]).
  assert (call_ok c q) as Hq by (apply call_in; [done|]; rewrite Hl; apply elem_of_cons; by left).
  destruct (call_step_spec q c q' c' Hq E) as (_&_&Hw&_&_&Hcs&_).
  destruct (calls_replaced c c' [] q (callers c) q' Hc)
    with (c2 := set_main (at_call q') c') as (?&?&?); try done.
  - unfold calls. simpl. rewrite Hcs. by destruct Hat as [->| ->].
  - destruct Hc as [Hwg _ _ _ He]. rewrite Hm in Hwg. split; try done; simpl; rewrite ?Hw.
    + by destruct Hat as [->| ->].
    + by destruct Hat as [->| ->]; intros [|].
Qed.

Lemma forget_ok c l :
  client_ok c → ∀ k won, main c = LInner (Back k won) ∨ main c = LClose (Back k won) →
  loop_done l = loop_done (main c) → main_call l = [] → l ≠ LDone false → client_ok (set_main l c).
Proof.
  intros [Hw Hwon Hcalls Hpend He] k won Hm Hd Hl Hne.
  assert (calls c = Back k won :: callers c) as Hc by (unfold calls; by destruct Hm as [-> | ->]).
  assert (calls (set_main l c) = callers c) as Hc' by (unfold calls; simpl; by rewrite Hl).
  rewrite Hc in Hwon, Hcalls. inversion Hcalls as [|? ? Hq ?]; subst. destruct Hq as (Hcl&Hcc&_).
  split; rewrite ?Hc'; simpl in *; try done; try lia; [by rewrite Hd|by left].
Qed.

Lemma hangup_step_ok c c' : client_ok c → step c c' → client_ok c'.
Proof.
  intros Hc Hst. pose proof Hc as [Hw _ _ _ He].
  destruct Hst as [c i q q' c' Hi E|c Hm|c n Hm Hn|c Hm Hn Hcc Hz|c Hm Hcc|c Hm Hz|c leave Hm
    |c q q' c' Hm E|c k won Hm|c again w Hm Hn|c q q' c' Hm E|c k won Hm].
  - by eapply caller_ok.
  - apply (undisturbed_ok c); try done; [left; unfold calls; simpl; rewrite Hm; by destruct (closed c)|..];
      rewrite Hm in Hw; simpl in *; destruct (closed c); try done; by intros [|].
  - apply (undisturbed_ok c); try done; [left; unfold calls; simpl; by rewrite Hm|by rewrite Hm in Hw|by intros [|]].
  - apply (undisturbed_ok c); try done; [left; unfold calls; simpl; by rewrite Hm|by rewrite Hm in Hw|by intros [|]].
  - apply (undisturbed_ok c); [done|by split_and!; auto|done|..]; [left; unfold calls; simpl; by rewrite Hm|by rewrite Hm in Hw|by intros [|]].
  - apply (undisturbed_ok c); try done; [left; unfold calls; simpl; by rewrite Hm|by rewrite Hm in Hw|by intros [|]].
  - apply (undisturbed_ok c); try done; [left; unfold calls; simpl; rewrite Hm; by destruct leave|..];
      rewrite Hm in Hw; simpl in *; destruct leave; try done; by intros [|].
  - by eapply (main_ok c LInner); [..|left].
  - by eapply forget_ok; [done|left|rewrite Hm|..].
  - rewrite Hm in Hw. simpl in Hw.
    apply (undisturbed_ok c); simpl; try done; [by split_and!; auto; lia| | |].
    + unfold calls. simpl. rewrite Hm. destruct again; [right; right; by exists ByClose|by left].
    + destruct again; simpl; lia.
    + destruct again; [by intros [|]|]. intros _. apply He. by left.
  - by eapply (main_ok c LClose); [..|right].
  - by eapply forget_ok; [done|right|rewrite Hm|..].
Qed.

Lemma hangup_event_ok c c' : client_ok c → event c c' → client_ok c'.
Proof.
  intros Hc Hev. pose proof Hc as [Hw _ _ _ He].
  destruct Hev as [c k|c Hcc|c Hcc|c|c k Hm]; apply (undisturbed_ok c); try done; try by left.
  - right. left. exists k. unfold calls. simpl. by rewrite app_assoc.
  - right. right. exists k. unfold calls. simpl. by rewrite Hm.
  - by rewrite Hm in Hw.
  - by intros [|].
Qed.

Lemma connected_ok : client_ok connected.
Proof. split; try done. by intros [|]. Qed.

Lemma reachable_client_ok c : reachable c → client_ok c.
Proof.
  unfold reachable. generalize connected_ok. generalize connected. intros c0 H0 Hr.
  induction Hr as [|c1 c2 c3 [Hst|Hst] _ IH]; [done|..]; apply IH; [by eapply hangup_step_ok|by eapply hangup_event_ok].
Qed.

(** C29: closing a client while it works.  However [handleConn], handlers,
    packets and any number of calls of [Close] and [Raw] interleave: the wait
    group counts [handleConn] until its [Done] and never drops below zero; at
    most one call closes the client; a call that has returned leaves the client
    and its connection closed, and if it is the one that closed the client,
    [handleConn] has left its loop, so that no handler runs any more, and after
    [Close] the base context is cancelled; and [handleConn] does not return
    without the client being closed. *)
Theorem client_hangs_up (c : Client) :
  reachable c →
  (wg c = if loop_done (main c) then 0 else 1)%nat ∧
  (sum_list_with has_won (callers c) ≤ 1)%nat ∧
  (∀ i k won, callers c !! i = Some (Back k won) →
     closed c = true ∧ conn_closed c = true ∧
     (won = true → loop_done (main c) = true ∧ (k = ByClose → cancelled c = true))) ∧
  (main c = LReturned → closed c = true).
Proof.
  intros Hc%reachable_client_ok. pose proof Hc as [Hw Hwon _ _ He]. split_and!; [| | |auto].
  - destruct (loop_done (main c)); simpl in Hw; lia.
  - unfold calls in Hwon. rewrite sum_list_with_app in Hwon. destruct (closed c); simpl in Hwon; lia.
  - intros i k won Hi. destruct (call_in c (Back k won) Hc) as (?&?&Hb).
    { apply elem_of_app. right. by eapply list_elem_of_lookup_2. }
    split_and!; try done. intros [Hw0 ?]%Hb. split; [|done]. rewrite Hw0 in Hw.
    by destruct (loop_done (main c)).
Qed.

(** ** Every call returns *)

Definition call_load (q : call) : nat :=
  match q with
  | Swap _ => 5 | Cancel => 4 | Hang _ won => if won then 3 else 2 | Hanging _ won => if won then 2 else 1
  | Wait _ => 1 | Back _ _ => 0
  end.

Definition loop_load (l : loop) : nat :=
  match l with
  | LReturned => 0 | LClose q => 1 + call_load q | LDone _ => 7 | LRead | LFailing => 8 | LCheck => 9 | LHandle => 10
  | LInner q => 11 + call_load q
  end.

(** The steps that remain: three for each packet that has arrived. *)
Definition load (c : Client) : nat := loop_load (main c) + 3 * arrived c + sum_list_with call_load (callers c).

Lemma call_step_load q c q' c' :
  call_step q c = Some (q', c') →
  (call_load q' < call_load q)%nat ∧ arrived c' = arrived c ∧ main c' = main c ∧ callers c' = callers c.
Proof.
  destruct q as [k| |k won|k won|k|]; simpl; intros E; try done; unfold hung in *;
    repeat case_match; simplify_eq/=; by split_and!; try lia.
Qed.

Lemma hangup_step_load c c' : step c c' → (load c' < load c)%nat.
Proof.
  intros Hst. unfold load.
  destruct Hst as [c i q q' c' Hi E|c Hm|c n Hm Hn|c Hm Hn Hcc Hz|c Hm Hcc|c Hm Hz|c leave Hm
    |c q q' c' Hm E|c k won Hm|c again w Hm Hn|c q q' c' Hm E|c k won Hm];
    try (destruct (call_step_load _ _ _ _ E) as (?&Ha&Hm'&Hcs)); simpl; rewrite ?Ha, ?Hcs, ?Hm, ?Hm', ?Hn; simpl;
    repeat case_match; simpl; try lia.
  pose proof (sum_insert call_load _ _ _ q' Hi). lia.
Qed.

Lemma hangup_event_load c c' : event c c' → (load c' ≤ load c + 6)%nat.
Proof.
  intros Hev. unfold load. destruct Hev as [c k|c Hcc|c Hcc|c|c k Hm];
    simpl; rewrite ?sum_list_with_app, ?Hm; simpl; lia.
Qed.

(** [n] steps of the goroutines, with [k] events among them. *)
Inductive run : nat → nat → Client → Client → Prop :=
  | run_nil c : run 0 0 c c
  | run_step n k c c' c'' : step c c' → run n k c' c'' → run (S n) k c c''
  | run_event n k c c' c'' : event c c' → run n k c' c'' → run n (S k) c c''.

Lemma run_load n k c c' : run n k c c' → (n + load c' ≤ load c + 6 * k)%nat.
Proof.
  induction 1 as [|n k c c' c'' Hst%hangup_step_load _ IH|n k c c' c'' Hev%hangup_event_load _ IH]; lia.
Qed.

Lemma run_rtc n k c c' : run n k c c' → rtc any_step c c'.
Proof.
  induction 1 as [|n k c c' c'' Hst _ IH|n k c c' c'' Hev _ IH];
    [apply rtc_refl|eapply rtc_l; [by left|done]|eapply rtc_l; [by right|done]].
Qed.

(** A call that waits for the loop, and one that waits for the end of the close. *)
Definition waits_loop (q : call) : bool := match q with Wait _ => true | _ => false end.
Definition waits_over (q : call) : bool := match q with Hanging _ _ => true | _ => false end.

(** A close of the connection is not over, and a call of [Close] or [Raw], or
    the loop in a read or in a failed write, waits until it is. *)
Definition held_up (c : Client) : Prop :=
  busy c = true ∧ (main c = LRead ∨ main c = LFailing ∨ ∃ q, q ∈ calls c ∧ waits_over q = true).

Lemma call_steps q c : waits_loop q = false ∨ wg c = 0%nat → q ∈ calls c →
  (∃ k won, q = Back k won) ∨ held_up c ∨ ∃ q' c', call_step q c = Some (q', c').
Proof.
  intros Hq Hin. destruct q as [k| |k won|k won|k|k won]; simpl in *.
  - right. right. destruct (closed c); eauto.
  - by eauto.
  - right. right. destruct (conn_closed c); eauto.
  - right. destruct (busy c) eqn:Hb; [left|by eauto]. split; [done|]. right. right. by eexists.
  - right. right. destruct Hq as [|Hq]; [done|]. rewrite Hq. by eauto.
  - by eauto.
Qed.

Definition inside (l : loop) : bool := match l with LInner _ => true | _ => false end.

Lemma loop_steps c :
  client_ok c → inside (main c) = false → closed c = true → conn_closed c = true →
  main c = LReturned ∨ held_up c ∨ ∃ c', step c c'.
Proof.
  intros [Hw _ _ _ _] Hin Hcl Hcc. destruct (main c) as [| | | |q|again|q|] eqn:Hm; try done; simpl in Hw.
  - right. right. eexists. by apply step_check.
  - right. destruct (busy c) eqn:Hb; [by left; split; [|left]|right].
    destruct (arrived c) eqn:Ha; eexists; [by apply step_read_failed|by eapply step_read].
  - right. right. eexists. by apply (step_handled c true).
  - right. destruct (busy c) eqn:Hb; [by left; split; [|right; left]|right]. eexists. by apply step_failed.
  - right. right. destruct (wg c) as [|w] eqn:Hwg; [lia|]. eexists. by eapply step_done.
  - right. destruct (call_steps q c) as [(k&won&->)|[?|(q'&c'&E)]].
    + right. lia.
    + unfold calls. rewrite Hm. by left.
    + right. eexists. by eapply step_close_back.
    + by left.
    + right. eexists. by eapply step_close.
  - by left.
Qed.

Lemma caller_steps c q : q ∈ callers c → waits_loop q = false ∨ wg c = 0%nat →
  (∃ k won, q = Back k won) ∨ held_up c ∨ ∃ c', step c c'.
Proof.
  intros Hin Hq. destruct (call_steps q c Hq) as [?|[?|(q'&c'&E)]]; auto.
  - apply elem_of_app. by right.
  - right. right. apply list_elem_of_lookup in Hin as [i Hi]. eexists. by eapply step_caller.
Qed.

Lemma returned_steps c :
  client_ok c → main c = LReturned →
  (∃ c', step c c') ∨ held_up c ∨ ∀ q, q ∈ callers c → ∃ k won, q = Back k won.
Proof.
  intros [Hw _ _ _ _] Hm. rewrite Hm in Hw. simpl in Hw.
  destruct (decide (Exists (λ q, call_load q ≠ 0%nat) (callers c))) as [Hex|Hnex].
  - apply list.Exists_exists in Hex as (q&Hi&Hq).
    destruct (caller_steps c q Hi) as [(k&won&->)|[]]; auto; [right; lia|done].
  - right. right. intros q Hq. destruct (decide (call_load q = 0%nat)) as [H0|H0].
    + destruct q as [| |k []|k []| |k won]; try done. by exists k, won.
    + exfalso. apply Hnex, list.Exists_exists. by exists q.
Qed.

Lemma hangup_steps c :
  client_ok c → inside (main c) = false → closed c = true →
  (∃ c', step c c') ∨ held_up c ∨ (main c = LReturned ∧ ∀ q, q ∈ callers c → ∃ k won, q = Back k won).
Proof.
  intros Hc Hin Hcl. pose proof Hc as [_ _ _ Hpend _]. destruct (Hpend Hcl) as [Hcc|Hp].
  { destruct (loop_steps c Hc Hin Hcl Hcc) as [Hm|[?|?]]; auto.
    destruct (returned_steps c Hc Hm) as [?|[?|?]]; auto. }
  destruct (sum_positive pending (calls c) Hp) as (j&q&Hj&Hq).
  assert (waits_loop q = false) as Hwl by (by destruct q as [| |? []|? []| |]; simpl in *; try lia).
  apply list_elem_of_lookup_2 in Hj. pose proof Hj as Hj'. apply elem_of_app in Hj as [Hj|Hj].
  - destruct (main c) as [| | | | | |q0|] eqn:Hm; try discriminate Hin; simpl in Hj; try by apply not_elem_of_nil in Hj.
    apply list_elem_of_singleton in Hj as ->.
    destruct (call_steps q0 c) as [(k&won&->)|[?|(q'&c'&E)]]; auto; [simpl in Hq; lia|].
    left. eexists. by eapply step_close.
  - destruct (caller_steps c q Hj) as [(k&won&->)|[?|?]]; auto. simpl in Hq. lia.
Qed.

Lemma step_closed_stays c c' : client_ok c → any_step c c' → closed c = true → closed c' = true.
Proof.
  intros Hc Hst Hcl. destruct Hst as [Hst|Hev]; [|by destruct Hev].
  destruct Hst as [c i q q' c' Hi E| | | | | | |c q q' c' Hm E| | |c q q' c' Hm E|]; try done; simpl;
    (destruct (call_step_spec q c q' c') as ((?&_)&_); [|done|auto]);
    apply call_in; try done; apply elem_of_app;
    [right; by eapply list_elem_of_lookup_2|left; rewrite Hm; by left..].
Qed.

Lemma rtc_client_ok c c' : rtc any_step c c' → client_ok c → client_ok c' ∧ (closed c = true → closed c' = true).
Proof.
  induction 1 as [|c1 c2 c3 Hst _ IH]; intros Hc; [done|].
  assert (client_ok c2) as H2 by (destruct Hst; [by eapply hangup_step_ok|by eapply hangup_event_ok]).
  destruct (IH H2) as [? Hcl]. split; [done|]. intros ?. by apply Hcl, (step_closed_stays c1).
Qed.


(** A handler that closes its own client never returns: it waits for the
    goroutine it runs on. *)
Theorem close_from_handler (c c' : Client) (k : kind) :
  reachable c → main c = LInner (Wait k) → rtc any_step c c' → main c' = LInner (Wait k).
Proof.
  intros Hc%reachable_client_ok Hm Hr. induction Hr as [|c1 c2 c3 Hst _ IH]; [done|].
  assert (client_ok c2) as H2 by (destruct Hst; [by eapply hangup_step_ok|by eapply hangup_event_ok]).
  apply IH; [done|]. pose proof (ok_wg c1 Hc) as Hw. rewrite Hm in Hw. simpl in Hw.
  clear H2 IH. destruct Hst as [Hst|Hev]; [|destruct Hev; simpl in *; rewrite ?Hm in *; done].
  destruct Hst as [c i q q' c' Hi E|c Hm'|c ? Hm'|c Hm'|c Hm'|c Hm'|c ? Hm'|c q q' c' Hm' E|c ? ? Hm'
    |c ? ? Hm'|c q q' c' Hm'|c ? ? Hm']; try (rewrite Hm in Hm'; try discriminate Hm').
  - destruct (call_step_load _ _ _ _ E) as (_&_&E'&_). simpl. by rewrite E'.
  - injection Hm' as <-. simpl in E. by destruct (Nat.eqb_spec (wg c) 0); [lia|].
Qed.

(** ** Witnesses *)

(** A handler has called [Close] and waits. *)
Definition closing_handler : Client := mkClient true true 1 true false 0 (LInner (Wait ByClose)) [].

Lemma closing_handler_reachable : reachable closing_handler.
Proof.
  unfold reachable. eapply rtc_l; [right; apply event_arrive; done|].
  eapply rtc_l; [left; apply step_check; done|].
  eapply rtc_l; [left; by apply (step_read _ 0)|].
  eapply rtc_l; [right; by apply (event_inner _ ByClose)|].
  do 3 (eapply rtc_l; [left; simpl; eapply step_inner; [done|]; simpl; reflexivity|]).
  eapply rtc_l; [right; apply event_over|].
  eapply rtc_l; [left; simpl; eapply step_inner; [done|]; simpl; reflexivity|]. apply rtc_refl.
Qed.

(** [Close] and [Raw] have been called while a packet was being read. *)
Definition two_calls : Client := mkClient true false 1 false false 1 LRead [Cancel; Swap ByRaw].

Lemma two_calls_reachable : reachable two_calls.
Proof.
  unfold reachable. eapply rtc_l; [right; apply event_arrive; done|].
  eapply rtc_l; [left; apply step_check; done|].
  eapply rtc_l; [right; apply (event_call _ ByClose)|].
  eapply rtc_l; [right; apply (event_call _ ByRaw)|].
  apply rtc_once. left. simpl.
  apply (step_caller _ 0 (Swap ByClose) Cancel (mkClient true false 1 false false 1 LRead [Swap ByClose; Swap ByRaw])); done.
Qed.

Lemma client_hangs_up_witness :
  (wg two_calls = if loop_done (main two_calls) then 0 else 1)%nat ∧
  (sum_list_with has_won (callers two_calls) ≤ 1)%nat ∧
  (∀ i k won, callers two_calls !! i = Some (Back k won) →
     closed two_calls = true ∧ conn_closed two_calls = true ∧
     (won = true → loop_done (main two_calls) = true ∧ (k = ByClose → cancelled two_calls = true))) ∧
  (main two_calls = LReturned → closed two_calls = true).
Proof. apply (client_hangs_up two_calls two_calls_reachable). Defined.

(** Then the first closes the connection, which is soon over. *)
Definition closing_call : Client := mkClient true true 1 true false 1 LRead [Hanging ByClose true; Swap ByRaw].

Lemma closing_call_run : run 2 1 two_calls closing_call.
Proof.
  eapply run_step; [by eapply (step_caller _ 0)|]. simpl.
  eapply run_step; [by eapply (step_caller _ 0)|]. simpl.
  eapply run_event; [apply event_over|]. constructor.
Qed.


End hangup.
