(* ===== verification/Server.v ===== *)
(** * The server: configuration and sequential service (server.go)

    The configuration of a server and its setters, the choice of the packet
    handler, and [handleSinglePacket], which serves the packets of a connection
    one after the other.  The concurrent handlers are in [Serving], the accept
    loop and the shutdown in [Shutdown]. *)

From S2P Require Import Prelude Frisbee GoStd Interfaces Metadata Packet Async AsyncSpec Dispatch Client Concrete.

Module server.
Import metadata packet dispatch.

(** ** Configuration *)

Section config.
Context {PB : Polyglot} {U Ctx : Type}.

(** The callbacks are known by numbers. *)
Context (defaultOnClosed defaultPreWrite defaultStreamHandler : Z).

Record Server := mkServer {
  handlerTable : HandlerTable (U := U) (Ctx := Ctx);
  concurrency : Z;
  limiter : option Z;
  onClosed : Z;
  preWrite : Z;
  streamHandler : Z;
}.

(** [SetHandlerTable(handlerTable)]. *)
Definition SetHandlerTable (t : HandlerTable (U := U) (Ctx := Ctx)) : M Server (option error) :=
  match check_table t with
  | Some err => mret (Some err)
  | None =>
      modify (λ s, mkServer t (concurrency s) (limiter s) (onClosed s) (preWrite s) (streamHandler s));;
      mret None
  end.

(** [NewServer(handlerTable, ctx, opts...)]: a server comes with the error too. *)
Definition NewServer (t : HandlerTable (U := U) (Ctx := Ctx)) : outcome (option error) * Server :=
  SetHandlerTable t (mkServer ∅ 0 None defaultOnClosed defaultPreWrite defaultStreamHandler).

Definition GetHandlerTable (s : Server) : HandlerTable := handlerTable s.

Definition SetOnClosed (f : option Z) : M Server (option error) :=
  match f with
  | None => mret (Some OnClosedNil)
  | Some f =>
      modify (λ s, mkServer (handlerTable s) (concurrency s) (limiter s) f (preWrite s) (streamHandler s));;
      mret None
  end.

Definition SetPreWrite (f : option Z) : M Server (option error) :=
  match f with
  | None => mret (Some PreWriteNil)
  | Some f =>
      modify (λ s, mkServer (handlerTable s) (concurrency s) (limiter s) (onClosed s) f (streamHandler s));;
      mret None
  end.

(** [closure f] adds the context and calls [f]. *)
Definition SetStreamHandler (closure : option Z → Z) (f : option Z) : M Server (option error) :=
  modify (λ s, mkServer (handlerTable s) (concurrency s) (limiter s) (onClosed s) (preWrite s) (closure f));;
  mret None.

(** [make(chan struct{}, n)] is known by its capacity. *)
Definition SetConcurrency (n : Z) : M Server unit :=
  modify (λ s, mkServer (handlerTable s) n (limiter s) (onClosed s) (preWrite s) (streamHandler s));;
  s ← get;
  if concurrency s >? 1
  then modify (λ s, mkServer (handlerTable s) (concurrency s) (Some (concurrency s)) (onClosed s) (preWrite s) (streamHandler s))
  else mret tt.

(** The switch of [serveConn]. *)
Inductive service := Unlimited | Single | Limited.

Definition service_of (s : Server) : service :=
  if concurrency s =? 0 then Unlimited
  else if concurrency s =? 1 then Single
  else Limited.

(** The setters, in any order. *)
Inductive config :=
  | CHandlerTable (t : HandlerTable (U := U) (Ctx := Ctx)) | COnClosed (f : option Z) | CPreWrite (f : option Z)
  | CStreamHandler (closure : option Z → Z) (f : option Z) | CConcurrency (n : Z).

Definition apply_config (k : config) : M Server unit :=
  match k with
  | CHandlerTable t => _ ← SetHandlerTable t; mret tt
  | COnClosed f => _ ← SetOnClosed f; mret tt
  | CPreWrite f => _ ← SetPreWrite f; mret tt
  | CStreamHandler cl f => _ ← SetStreamHandler cl f; mret tt
  | CConcurrency n => SetConcurrency n
  end.

Fixpoint configure (ks : list config) : M Server unit :=
  match ks with
  | [] => mret tt
  | k :: ks => apply_config k;; configure ks
  end.

(** No reserved operation below 9 in the table, and a limiter of the right
    capacity when the service will use it. *)
Definition config_ok (s : Server) : Prop :=
  (∀ i, 0 ≤ i < 9 → handlerTable s !! i = None) ∧ 0 ≤ concurrency s ∧
  (service_of s = Limited → limiter s = Some (concurrency s) ∧ 1 < concurrency s).

Lemma check_table_inv (t : HandlerTable (U := U) (Ctx := Ctx)) :
  check_table t = None → ∀ i, 0 ≤ i < 9 → t !! i = None.
Proof.
  intros Ht i Hi. destruct (t !! i) eqn:E; [|done].
  rewrite (check_table_bad t i Hi) in Ht by (by rewrite E). done.
Qed.

Lemma SetHandlerTable_ok t s :
  (∀ i, 0 ≤ i < 9 → handlerTable s !! i = None) →
  ∀ i, 0 ≤ i < 9 → handlerTable (SetHandlerTable t s).2 !! i = None.
Proof.
  intros Hs. unfold SetHandlerTable. destruct (check_table t) eqn:E; [done|].
  by apply check_table_inv.
Qed.

Definition valid_config (k : config) : Prop :=
  match k with CConcurrency n => in_width 64 n | _ => True end.

Lemma apply_config_ok k s : valid_config k → config_ok s →
  ∃ s', apply_config k s = (Ret tt, s') ∧ config_ok s'.
Proof.
  intros Hk (Ht&Hc&Hl). destruct k as [t|f|f|cl f|n]; simpl.
  - pose proof (SetHandlerTable_ok t s Ht) as Ht'. unfold SetHandlerTable in *.
    destruct (check_table t); eexists; (split; [reflexivity|]); by split_and!.
  - unfold SetOnClosed. destruct f; eexists; (split; [reflexivity|]); by split_and!.
  - unfold SetPreWrite. destruct f; eexists; (split; [reflexivity|]); by split_and!.
  - eexists. split; [reflexivity|]. by split_and!.
  - destruct Hk as [Hn _]. unfold SetConcurrency, mbind, M_bind. simpl.
    destruct (Z.gtb_spec n 1); eexists; (split; [reflexivity|]); split_and!; try done.
    + unfold service_of. simpl. intros HL. exfalso.
      destruct (Z.eqb_spec n 0), (Z.eqb_spec n 1); try done; lia.
Qed.


End config.

(** ** [handleSinglePacket] *)

Section single.
Context {G : Globals} {PB : Polyglot} {C U Ctx : Type} `{!Connection C}.
Context (table : HandlerTable (U := U) (Ctx := Ctx)) (PacketContext : option (Ctx → Packet → Ctx))
  (connCtx : Ctx) (preWriteFn : U → U).

(** A connection being served, and the calls of [onClosed] so far. *)
Record Served := mkServed {
  disp : Dispatcher (C := C) (U := U);
  onClosedCalls : list (option error);
}.

Definition on_disp {A} (m : M Dispatcher A) : M Served A :=
  zoom disp (λ d s, mkServed d (onClosedCalls s)) m.

(** [_ = frisbeeConn.Close(); s.onClosed(frisbeeConn, err); return]. *)
Definition close_connection (err : option error) : M Served unit :=
  _ ← on_disp (on_dconn Conn_Close);
  modify (λ s, mkServed (disp s) (onClosedCalls s ++ [err])).

Fixpoint single_loop (fuel : nat) (r : nat) : M Served unit :=
  match fuel with
  | O => out_of_fuel
  | S fuel =>
      '(err, action) ← on_disp (dispatch_one table PacketContext connCtx (Some preWriteFn) r);
      match err with
      | Some err => close_connection (Some err)
      | None =>
          if action =? CLOSE then close_connection None
          else
            r ← on_disp ReadPacket;
            match r with
            | inr err => close_connection (Some err)
            | inl r => single_loop fuel r
            end
      end
  end.

Definition handleSinglePacket (fuel : nat) : M Served unit :=
  r ← on_disp ReadPacket;
  match r with
  | inr err => close_connection (Some err)
  | inl r => single_loop fuel r
  end.

Context `{!ConnectionView C} `{!ConnectionLaws C}.

Lemma close_connection_eq err s :
  conn_ok (dconn (disp s)) →
  ∃ k, close_connection err s = (Ret tt, mkServed (set_dconn k (disp s)) (onClosedCalls s ++ [err])) ∧
    conn_ok k ∧ is_closed k = true ∧ arrived k = arrived (dconn (disp s)) ∧
    (conn_working (dconn (disp s)) → accepted_bytes k = accepted_bytes (dconn (disp s))).
Proof.
  intros Hc. destruct (close_returns _ Hc) as (k&E&?&?&?&?). exists k. split_and!; try done.
  unfold close_connection, on_disp, on_dconn, zoom, mbind, M_bind. by rewrite E.
Qed.

(** The error [onClosed] is given. *)
Definition reason (w : stop) : option error :=
  match w with ReadFailed e | WriteFailed e => Some e | Asked => None end.

Lemma handleSinglePacket_loop fuel s :
  handleSinglePacket fuel s =
    match serve_loop table PacketContext connCtx (Some preWriteFn) fuel (disp s) with
    | (Ret why, d') => close_connection (reason why) (mkServed d' (onClosedCalls s))
    | (Block, d') => (Block, mkServed d' (onClosedCalls s))
    | (Panic w, d') => (Panic w, mkServed d' (onClosedCalls s))
    | (OutOfFuel, d') => (OutOfFuel, mkServed d' (onClosedCalls s))
    end.
Proof.
  revert s. induction fuel as [|fuel IH]; intros [d calls]; unfold handleSinglePacket in *;
    cbn [serve_loop]; unfold mbind, M_bind, on_disp at 1, zoom; cbn [disp onClosedCalls];
    destruct (ReadPacket d) as [[[r|e]|w| |] d1]; try done.
  cbn [single_loop]. unfold mbind, M_bind, on_disp at 1, zoom. cbn [disp onClosedCalls].
  destruct (dispatch_one _ _ _ _ r d1) as [[[[e|] a]|w| |] d2]; try done.
  destruct (a =? CLOSE); [done|]. apply (IH (mkServed d2 calls)).
Qed.

Lemma reply_traces replies :
  concat (reply_trace (Some preWriteFn) <$> replies) =
    concat ((λ q, [PreWrote; Wrote q]) <$> omap (λ reply, reply) replies).
Proof.
  induction replies as [|[q|] replies IH]; [done|..]; rewrite fmap_cons; cbn [concat]; by rewrite IH.
Qed.

(** C31: the sequential service.  With a working connection and replies that can
    be sent, [handleSinglePacket] serves the packets that have arrived one after
    the other and writes the replies in order, each of them preceded by a call of
    [preWrite] and nothing else in between; when a handler asks to close, the connection is closed and [onClosed]
    called once, with nil; otherwise it waits for more packets. *)
Theorem single_serves (s : Served) (ps : list Packet) (fuel : nat) :
  disp_ok (disp s) → conn_working (dconn (disp s)) → arrived (dconn (disp s)) = ps →
  (length ps ≤ fuel)%nat →
  let '(replies, u, closing, rest) := serve table PacketContext connCtx (Some preWriteFn) ps (user (disp s)) in
  (∀ q, Some q ∈ replies → good_reply q) →
  ∃ s', handleSinglePacket fuel s = (if closing then Ret tt else Block, s') ∧
    onClosedCalls s' = onClosedCalls s ++ (if closing then [None] else []) ∧ user (disp s') = u ∧
    accepted_bytes (dconn (disp s')) =
      accepted_bytes (dconn (disp s)) ++ concat (reply_bytes <$> replies) ∧
    arrived (dconn (disp s')) = rest ∧ is_closed (dconn (disp s')) = closing ∧
    trace (disp s') = trace (disp s) ++ concat ((λ q, [PreWrote; Wrote q]) <$> omap (λ reply, reply) replies).
Proof.
  intros Hok Hw Ha Hf.
  pose proof (serve_loop_serves table PacketContext connCtx (Some preWriteFn) ps fuel _ Hok Hw Ha Hf) as Hs.
  destruct (serve _ _ _ _ ps (user (disp s))) as [[[replies u] closing] rest]. intros Hgood.
  destruct (Hs Hgood) as (d'&E&Hok'&?&?&?&Hw'&?&Ht). rewrite reply_traces in Ht.
  rewrite (handleSinglePacket_loop fuel s), E. destruct closing.
  - destruct (close_connection_eq None (mkServed d' (onClosedCalls s))) as (k&Eg&?&?&?&Hb); [apply Hok'|].
    eexists. split; [exact Eg|]. simpl in *. rewrite Hb by auto. split_and!; try done. congruence.
  - eexists. split; [done|]. simpl. by rewrite app_nil_r.
Qed.

(** C32: [onClosed] is called exactly once.  Take any handlers that return, each
    time with nil, the packet they were given or a new packet of their own, and
    any action.  Whether the reads and writes succeed or not: [handleSinglePacket] returns
    after closing the connection and calling [onClosed] exactly once, or waits on
    an open connection without having called it; every packet read was put back
    into the pool, none twice. *)
Theorem single_closes_once (s : Served) (fuel : nat) :
  disp_ok (disp s) → received (disp s) ⊆ recycled (disp s) →
  (length (arrived (dconn (disp s))) ≤ fuel)%nat →
  ∃ o s', handleSinglePacket fuel s = (o, s') ∧
    received (disp s') ⊆ recycled (disp s') ∧ NoDup (recycled (disp s')) ∧
    match o with
    | Ret _ => is_closed (dconn (disp s')) = true ∧
        ∃ e, onClosedCalls s' = onClosedCalls s ++ [e]
    | Block => is_closed (dconn (disp s')) = false ∧ onClosedCalls s' = onClosedCalls s ∧
        arrived (dconn (disp s')) = []
    | _ => False
    end.
Proof.
  intros Hok Hsub Hf.
  destruct (serve_loop_recycles table PacketContext connCtx (Some preWriteFn) fuel _ Hok Hsub Hf)
    as (o&d'&E&Hok'&Hsub'&Ho). rewrite (handleSinglePacket_loop fuel s), E.
  pose proof Hok' as (Hc'&Hn1&Hn2&Hall). destruct o as [why| | |]; try done.
  - destruct (close_connection_eq (reason why) (mkServed d' (onClosedCalls s))) as (k&Eg&?&?&?&_); [done|].
    rewrite Eg. eexists _, _. split_and!; try done. split; [done|by eexists].
  - destruct Ho. by eexists _, _.
Qed.

End single.

(** ** Witnesses *)

Import async async_spec concrete client.


Definition echo_served : Served := mkServed echo_dispatcher [].

Lemma single_serves_witness :
  ∃ s', handleSinglePacket echo_table None tt (λ u, (u + 10)%nat) 1 echo_served = (Block, s') ∧
    onClosedCalls s' = [] ∧ user (disp s') = 11%nat ∧
    accepted_bytes (dconn (disp s')) = accepted_bytes busy_conn ++ frame hello ++ [] ∧
    dispatch.arrived (dconn (disp s')) = [] ∧ is_closed (dconn (disp s')) = false ∧
    trace (disp s') = [PreWrote; Wrote hello].
Proof.
  refine (single_serves echo_table None tt (λ u, (u + 10)%nat) echo_served [hello] 1 echo_dispatcher_ok
    busy_working eq_refl (Nat.le_refl 1) _).
  intros q Hq. apply list_elem_of_singleton in Hq as [= ->]. split; [apply hello_sendable|done].
Defined.

Lemma single_closes_once_witness :
  ∃ o s', handleSinglePacket echo_table None tt (λ u, u) 1 echo_served = (o, s') ∧
    received (disp s') ⊆ recycled (disp s') ∧ NoDup (recycled (disp s')) ∧
    match o with
    | Ret _ => is_closed (dconn (disp s')) = true ∧ ∃ e, onClosedCalls s' = [] ++ [e]
    | Block => is_closed (dconn (disp s')) = false ∧ onClosedCalls s' = [] ∧
        dispatch.arrived (dconn (disp s')) = []
    | _ => False
    end.
Proof.
  apply (single_closes_once echo_table None tt (λ u, u) echo_served 1 echo_dispatcher_ok); [done|simpl; lia].
Defined.

End server.
