(* ===== verification/System.v ===== *)
(** * A client and a server, connected

    The parts put together: a client writes requests and flushes; the bytes reach
    the connection of a server in any pieces; its read loop queues them,
    [handleSinglePacket] hands them to the handlers and writes their replies; these
    reach the client the same way, and its [handleConn] hands them to its own
    handlers. *)

From S2P Require Import Prelude Frisbee GoStd Interfaces Metadata Packet Async Concrete AsyncSpec ReadLoop ReadSpec Wire Dispatch Client Server.

Module system.
Import metadata packet async async_spec read_loop wire dispatch server.

Section system.
Context {G : Globals} {PB : Polyglot} {CQ : CircularQueue} {PP : PacketPool} {BP : BufferPool}.
Context `{!GlobalsLaws G} `{!PolyglotLaws PB} `{!CircularLaws CQ} `{!PoolLaws PP} `{!PoolLaws BP}.
Context {U UC Ctx : Type}.

(** [Client.WritePacket] for each request, then [Client.Flush]. *)
Fixpoint send_requests (ps : list Packet) : M (client.Client (C := Async) (U := UC) (Ctx := Ctx)) (list (option Frisbee.error)) :=
  match ps with
  | [] => e ← client.Flush; mret [e]
  | p :: ps => e ← client.WritePacket p; es ← send_requests ps; mret (e :: es)
  end.

(** A connection nothing has passed through yet. *)
Definition at_rest (c : Async) : Prop := working c ∧ async.arrived c = [] ∧ stream_out (out c) = [].

(** What [d] becomes when its connection does. *)
Definition client_at (k : Async) (d : Dispatcher) (c : client.Client (C := Async) (U := UC) (Ctx := Ctx)) :=
  client.set_conn (Some (set_dconn k d)) c.

Lemma send_requests_working ps c d :
  client.conn c = Some d → working (dconn d) → Forall good_reply ps →
  ∃ k, send_requests ps c = (Ret (replicate (S (length ps)) None), client_at k d c) ∧ working k ∧
    same_data (dconn d) k ∧ GoStd.wire (aconn k) = stream_out (out (dconn d)) ++ concat (frame <$> ps) ∧
    stream_out (out k) = GoStd.wire (aconn k).
Proof.
  intros Hc Hw Hps. revert c d Hc Hw. induction Hps as [|p ps [Hp Hop] _ IH]; intros c d Hc Hw; cbn [send_requests].
  - destruct (Flush_working (dconn d) Hw) as (k&E&Hk&Hsd&Hwire&Hbuf). exists k.
    assert (client.Flush c = (Ret None, client_at k d c)) as Ef.
    { unfold client.Flush, client.on_conn. rewrite Hc. unfold on_dconn, zoom. simpl. by rewrite E. }
    rewrite (bind_Ret _ _ _ _ _ Ef). simpl. rewrite app_nil_r. split_and!; try done.
    unfold stream_out, Buffered in *. by rewrite (len_zero_inv _ Hbuf), app_nil_r.
  - destruct (writePacketN_working 1 p true (dconn d) Hw Hp) as (k&E&(Hk&Hsd&Hso)&_).
    assert (client.WritePacket p c = (Ret None, client_at k d c)) as Ew.
    { unfold client.WritePacket, client.on_conn. rewrite Hc. unfold on_dconn, zoom. simpl.
      unfold async.WritePacket, writePacket. replace (_ <=? RESERVED9) with false by (unfold RESERVED9; lia).
      by rewrite E. }
    rewrite (bind_Ret _ _ _ _ _ Ew).
    destruct (IH (client_at k d c) (set_dconn k d) eq_refl Hk) as (k2&E2&Hk2&Hsd2&Hw2&Ho2).
    rewrite (bind_Ret _ _ _ _ _ E2). exists k2. split_and!; try done; [by etrans|].
    rewrite Hw2. simpl. by rewrite Hso, <- app_assoc.
Qed.

(** Packets sent to a connection at rest are all that arrives there. *)
Lemma packets_arrive chunks ps c :
  working c → async.arrived c = [] → Forall good_reply ps → len ps ≤ queue_limit →
  concat chunks = concat (frame <$> ps) →
  ∃ c' qs, readLoop (feed chunks None) [] c = (Block, c') ∧ working c' ∧ async.arrived c' = qs ∧
    view <$> qs = packet.received <$> ps ∧ stream_out (out c') = stream_out (out c).
Proof.
  intros Hw Ha Hps Hroom Hch. pose proof Hw as (Hc&Ho&_). unfold async.arrived in Ha.
  apply app_nil in Ha as [Hst Hi].
  pose proof (read_spec.readLoop_reads chunks None c) as Hrd. rewrite Hch, <- encode_Data in Hrd.
  apply reads_messages in Hrd as (c1&qs&E&Hw1&Hv&Hi1&Hs1);
    [|by apply Forall_fmap|exact Hw|rewrite data_Data, Hi, (ok_capacity c Hc Ho); exact Hroom|apply Hw].
  rewrite data_Data in Hv. rewrite Hi, app_nil_l in Hi1. exists c1, qs. pose proof Hw1 as (Hc1&Ho1&_).
  destruct (ok_open c1 Hc1 Ho1) as (_&_&_&_&Hst1). split_and!; [exact E|exact Hw1| |exact Hv|].
  - unfold async.arrived. by rewrite Hst1, Hi1.
  - rewrite Hs1. unfold answers. clear. induction ps as [|p ps IH]; [by rewrite app_nil_r|done].
Qed.

Section exchange.
Context (table : HandlerTable (U := U) (Ctx := Ctx)) (PacketContext : option (Ctx → Packet → Ctx))
  (connCtx : Ctx) (preWriteFn : U → U).
Context (clientContext : option (Ctx → Packet → Ctx)) (baseContext : Ctx).

(** The sequential service of what has arrived at a working connection, and the
    flush that follows. *)
Lemma single_replies (s : Served (C := Async) (U := U)) qs :
  disp_ok (disp s) → working (dconn (disp s)) → async.arrived (dconn (disp s)) = qs →
  let '(replies, u, closing, _) := serve table PacketContext connCtx (Some preWriteFn) qs (user (disp s)) in
  (∀ q, Some q ∈ replies → good_reply q) → closing = false →
  ∃ s' k, handleSinglePacket table PacketContext connCtx preWriteFn (length qs) s = (Block, s') ∧
    user (disp s') = u ∧ Flush (dconn (disp s')) = (Ret None, k) ∧
    GoStd.wire (aconn k) = stream_out (out (dconn (disp s))) ++ concat (reply_bytes <$> replies).
Proof.
  intros Hok Hw Ha.
  pose proof (serve_loop_serves table PacketContext connCtx (Some preWriteFn) qs (length qs) _ Hok Hw Ha (Nat.le_refl _)) as Hs.
  destruct (serve _ _ _ _ qs (user (disp s))) as [[[replies u] closing] rest]. intros Hgood ->.
  destruct (Hs Hgood) as (d'&E&_&Hu&Hb&_&Hw'&_). change (working (dconn d')) in Hw'.
  destruct (Flush_working (dconn d') Hw') as (k&Ef&_&_&Hwire&_).
  exists (mkServed d' (onClosedCalls s)), k. split_and!; [|exact Hu|exact Ef|].
  - by rewrite handleSinglePacket_loop, E.
  - rewrite Hwire. simpl in Hb. pose proof Hw as (_&Ho&_). pose proof Hw' as (_&Ho'&_).
    by rewrite Ho, Ho' in Hb.
Qed.

(** The replies that are sent. *)
Definition sent_replies (replies : list (option Packet)) : list Packet := omap (λ q, q) replies.

Lemma reply_frames replies : concat (reply_bytes <$> replies) = concat (frame <$> sent_replies replies).
Proof.
  induction replies as [|[q|] replies IH]; [done|..]; rewrite fmap_cons; cbn [concat]; by rewrite IH.
Qed.

Lemma sent_replies_good replies :
  (∀ q, Some q ∈ replies → good_reply q) → Forall good_reply (sent_replies replies).
Proof.
  intros Hg. apply Forall_forall. intros q Hq%list_elem_of_In. apply Hg.
  apply list_elem_of_omap in Hq as (x&Hx&->). done.
Qed.

Lemma sent_replies_length replies : (length (sent_replies replies) ≤ length replies)%nat.
Proof.
  induction replies as [|[q|] replies IH]; [done|..].
  - change (sent_replies (Some q :: replies)) with (q :: sent_replies replies). simpl. lia.
  - change (sent_replies (None :: replies)) with (sent_replies replies). simpl. lia.
Qed.

Lemma serve_length ps u : (length (serve table PacketContext connCtx (Some preWriteFn) ps u).1.1.1 ≤ length ps)%nat.
Proof.
  revert u. induction ps as [|p ps IH]; intros u; simpl; [done|].
  destruct (respond _ _ _ _ p u) as [[reply a] u1]. destruct (a =? CLOSE); simpl; [lia|].
  specialize (IH u1). destruct (serve _ _ _ _ ps u1) as [[[? ?] ?] ?]. simpl in *. lia.
Qed.

Lemma limit_room : DefaultBufferSize ≤ queue_limit.
Proof. apply capacity_new. Qed.

(** C10: requests and replies.  A client whose connection is at rest sends
    requests and flushes, all without an error.  However the network cuts them,
    the server's read loop queues exactly these requests, and its sequential
    service runs their handlers in order; when no handler asks to close and the
    replies can be sent, the replies are on the wire after the next flush; and
    however the network cuts these, exactly the replies arrive at the client, in
    order, and its [handleConn] hands each of them to its handler. *)
Theorem request_reply (c : client.Client) (d : Dispatcher) (s : Served (C := Async) (U := U)) (requests : list Packet) :
  client.running c d → disp_ok d → at_rest (dconn d) → disp_ok (disp s) → at_rest (dconn (disp s)) →
  Forall good_reply requests → len requests ≤ DefaultBufferSize →
  ∃ k, send_requests requests c = (Ret (replicate (S (length requests)) None), client_at k d c) ∧
    ∀ chunks, concat chunks = GoStd.wire (aconn k) →
    ∃ a qs, readLoop (feed chunks None) [] (dconn (disp s)) = (Block, a) ∧
      view <$> qs = packet.received <$> requests ∧
      let '(replies, u, closing, _) := serve table PacketContext connCtx (Some preWriteFn) qs (user (disp s)) in
      (∀ q, Some q ∈ replies → good_reply q) → closing = false →
      ∃ s' b, handleSinglePacket table PacketContext connCtx preWriteFn (length qs)
            (mkServed (set_dconn a (disp s)) (onClosedCalls s)) = (Block, s') ∧
          user (disp s') = u ∧ Flush (dconn (disp s')) = (Ret None, b) ∧
        ∀ chunks', concat chunks' = GoStd.wire (aconn b) →
        ∃ e rs, readLoop (feed chunks' None) [] k = (Block, e) ∧
          view <$> rs = packet.received <$> sent_replies replies ∧
          let '(replies', u', closing', _) :=
            serve (client.handlerTable c) clientContext baseContext None rs (user d) in
          (∀ q, Some q ∈ replies' → good_reply q) → closing' = false →
          ∃ c' d', client.handleConn clientContext baseContext (length rs) (client_at e d c) = (Block, c') ∧
            client.conn c' = Some d' ∧ user d' = u'.
Proof.
  intros Hrun Hd (Hw&Ha&Ho) Hs (Hws&Has&Hos) Hreq Hlen. pose proof limit_room as Hroom.
  destruct (send_requests_working requests c d (proj1 Hrun) Hw Hreq) as (k&E&Hk&Hsd&Hwire&Hko).
  exists k. split; [exact E|]. intros chunks Hch. rewrite Hwire, Ho, app_nil_l in Hch.
  destruct (packets_arrive chunks requests (dconn (disp s)) Hws Has Hreq) as (a&qs&Er&Hwa&Haa&Hv&Hoa);
    [lia|exact Hch|].
  exists a, qs. split_and!; [exact Er|exact Hv|].
  set (s1 := mkServed (set_dconn a (disp s)) (onClosedCalls s)).
  assert (disp_ok (disp s1)) as Hs1 by (destruct Hs as (?&?&?&?); split_and!; [apply Hwa|done..]).
  pose proof (single_replies s1 qs Hs1 Hwa Haa) as Hsr. pose proof (serve_length qs (user (disp s))) as Hn.
  change (user (disp s1)) with (user (disp s)) in Hsr.
  destruct (serve table _ _ _ qs (user (disp s))) as [[[replies u] closing] rest]. intros Hgood Hcl.
  destruct (Hsr Hgood Hcl) as (s'&b&Eh&Hu&Ef&Hwb). exists s', b. split_and!; [exact Eh|exact Hu|exact Ef|].
  intros chunks' Hch'. rewrite Hwb in Hch'. change (out (dconn (disp s1))) with (out a) in Hch'.
  rewrite Hoa, Hos, app_nil_l, reply_frames in Hch'.
  assert (async.arrived k = []) as Hak.
  { destruct Hsd as (_&_&_&Hi&Hst&_). unfold async.arrived in *. by rewrite Hi, Hst. }
  assert (length qs = length requests) as Hlq by (by rewrite <- (length_fmap view), Hv, length_fmap).
  pose proof (sent_replies_length replies) as Hsl. simpl in Hn.
  destruct (packets_arrive chunks' (sent_replies replies) k Hk Hak) as (e&rs&Ee&Hwe&Hae&Hve&_);
    [by apply sent_replies_good|unfold len in *; lia|exact Hch'|].
  exists e, rs. split_and!; [exact Ee|exact Hve|].
  assert (disp_ok (set_dconn e d)) as Hde by (destruct Hd as (?&?&?&?); split_and!; [apply Hwe|done..]).
  pose proof (serve_loop_serves (client.handlerTable c) clientContext baseContext None rs (length rs)
    (set_dconn e d) Hde Hwe Hae (Nat.le_refl _)) as Hcs.
  change (user (set_dconn e d)) with (user d) in Hcs.
  destruct (serve (client.handlerTable c) _ _ _ rs (user d)) as [[[replies' u'] closing'] rest'].
  intros Hgood' ->. destruct (Hcs Hgood') as (d'&El&_&Hu'&_). exists (client.set_conn (Some d') (client_at e d c)), d'.
  split_and!; [|done|exact Hu'].
  rewrite (client.handleConn_loop _ _ (length rs) (client_at e d c) (set_dconn e d)); [|by eapply client.running_set].
  change (client.handlerTable (client_at e d c)) with (client.handlerTable c). by rewrite El.
Qed.

End exchange.
End system.

(** ** Witness *)

Import concrete client.

Definition resting_dispatcher : Dispatcher (C := Async) (U := nat) := mkDispatcher (fresh_conn []) 0%nat [] [] [] [].
Definition resting_client : Client (Ctx := unit) := mkClient (Some resting_dispatcher) {[10 := Some quit]} false 1 false.

Lemma resting_ok : disp_ok resting_dispatcher ∧ at_rest (dconn resting_dispatcher).
Proof.
  split; [split_and!; [apply fresh_conn_ok|by constructor..]|].
  split_and!; [apply fresh_working|done|done].
Qed.

Lemma request_reply_witness :
  ∃ k, send_requests [hello] resting_client = (Ret [None; None], client_at k resting_dispatcher resting_client) ∧
    ∀ chunks, concat chunks = GoStd.wire (aconn k) →
    ∃ a qs, readLoop (feed chunks None) [] (fresh_conn []) = (Block, a) ∧ view <$> qs = packet.received <$> [hello].
Proof.
  destruct resting_ok as [Hok Hrest].
  destruct (request_reply echo_table None tt (λ u, u) None tt resting_client resting_dispatcher
    (mkServed resting_dispatcher []) [hello]) as (k&E&H); [by split_and!|done..| |done|].
  { constructor; [|by constructor]. split; [apply hello_sendable|done]. }
  exists k. split; [exact E|]. intros chunks Hch. destruct (H chunks Hch) as (a&qs&Er&Hv&_).
  exists a, qs. split; [exact Er|exact Hv].
Defined.

End system.
