(* ===== verification/Serving.v ===== *)
(** * Concurrent service (server.go: createHandler, handleUnlimitedPacket, handleLimitedPacket)

    The goroutine that reads a connection starts one goroutine for each packet.
    The model is a step relation between states of the service of one
    connection: where the reader stands, where every handler goroutine stands,
    the [closed] flag and the wait group they share, whether the context was
    cancelled, and the calls of [onClosed].  A step is one action of one
    goroutine: the user's handler, the write of its reply and each put are steps
    of their own, and [handle_dispatch] says that undisturbed they are
    [dispatch_one].
    A call that closes the connection is inside it while the close is not over
    ([busy]); when it is over is left to the environment ([step_network]).
    With [limit = None] this is [handleUnlimitedPacket], with [Some n]
    [handleLimitedPacket] under a limiter of capacity [n], of which other
    connections hold [others]. *)

From S2P Require Import Prelude Frisbee GoStd Interfaces Metadata Packet Async AsyncSpec Dispatch Client Concrete.

Module serving.
Import metadata packet dispatch.

Section serving.
Context {G : Globals} {PB : Polyglot} {C U Ctx : Type} `{!Connection C} `{!ConnectionView C}.
Context (table : HandlerTable (U := U) (Ctx := Ctx)) (PacketContext : option (Ctx → Packet → Ctx))
  (connCtx : Ctx) (preWriteFn : U → U) (limit : option nat).

(** Where the reader stands.  [byCtx] tells the two ends of
    [handleLimitedPacket] apart: only the one after a failed read cancels. *)
Inductive reader_pc :=
  | MFirst                                   (* the first ReadPacket *)
  | MFirstClose (e : error)                  (* it failed: conn.Close *)
  | MFirstClosing (e : error)                (* inside that call *)
  | MFirstCallback (e : error)               (* onClosed, return *)
  | MReady (r : nat)                         (* about to start a goroutine for packet r *)
  | MRead                                    (* the next ReadPacket *)
  | MClose (e : option error) (byCtx : bool) (* conn.Close *)
  | MClosing (e : option error) (byCtx : bool) (* inside that call *)
  | MFlag (e : option error) (byCtx : bool)  (* closed.CompareAndSwap *)
  | MCallback (e : option error) (byCtx : bool) (* won: onClosed *)
  | MCancel                                  (* cancel() *)
  | MWait                                    (* wg.Wait *)
  | MReturned.

(** Where the goroutine of a packet stands. *)
Inductive task :=
  | TRun (r : nat)               (* the lookup and the handler *)
  | TCheck (r r' : nat) (a : Action)  (* it returned r': the check of its length, preWrite *)
  | TWrite (r r' : nat) (a : Action)  (* conn.WritePacket(outgoing) *)
  | TWriting (rs : list nat) (err : option error) (a : Action) (* inside that call, which closes the connection *)
  | TPut (rs : list nat) (err : option error) (a : Action) (* the packet.Put still to do *)
  | TClose (e : option error)    (* conn.Close *)
  | TClosing (e : option error)  (* inside that call *)
  | TFlag (e : option error)     (* closed.CompareAndSwap *)
  | TCallback (e : option error) (* won: onClosed *)
  | TCancel                      (* cancel() *)
  | TDone                        (* wg.Done *)
  | TRelease                     (* <-s.limiter *)
  | TEnd.

Record Serving := mkServing {
  (** a close of the connection has begun and not ended *)
  busy : bool;
  disp : Dispatcher (C := C) (U := U);
  main : reader_pc;
  tasks : list task;
  closed : bool;
  wg : nat;
  cancelled : bool;
  others : nat;
  calls : list (option error);
}.

Definition start (d : Dispatcher) (others : nat) : Serving := mkServing false d MFirst [] false 0 false others [].

(** Goroutines that [wg] counts, and those that hold a place of the limiter. *)
Definition is_live (t : task) : nat := match t with TRelease | TEnd => 0 | _ => 1 end.
Definition is_held (t : task) : nat := match t with TEnd => 0 | _ => 1 end.
Definition live : list task → nat := sum_list_with is_live.
Definition held : list task → nat := sum_list_with is_held.

Definition after_flag (byCtx : bool) : reader_pc := if byCtx then MWait else MCancel.

Definition after_dispatch (err : option error) (a : Action) : task :=
  match err with
  | Some e => TClose (Some e)
  | None => if a =? CLOSE then TClose None else TDone
  end.

(** A call between [d] and [d'] has closed the connection. *)
Definition closed_by (d d' : Dispatcher (C := C) (U := U)) : bool :=
  negb (is_closed (dconn d)) && is_closed (dconn d').

(** [if outgoing != p] put it back, then [p]. *)
Definition put_back (r r' : nat) : list nat := (if bool_decide (r' ≠ r) then [r'] else []) ++ [r].

(** One action of a goroutine inside the function of [createHandler], up to what
    it does about the error of the write and the action. *)
Definition handler_step (t : task) : M (Dispatcher (C := C) (U := U)) task :=
  match t with
  | TRun r =>
      p ← load r;
      match lookup_handler table (Operation (Metadata p)) with
      | Some handlerFunc =>
          let packetCtx := match PacketContext with Some f => f connCtx p | None => connCtx end in
          '(out, action) ← run_handler handlerFunc packetCtx r;
          mret (match out with Some r' => TCheck r r' action | None => TPut [r] None action end)
      | None => mret (TPut [r] None NONE)
      end
  | TCheck r r' a =>
      q ← load r';
      if ContentLength (Metadata q) =? wrap 32 (Len (Content q)) then
        run_preWrite (Some preWriteFn);; mret (TWrite r r' a)
      else mret (TPut [r] None a)
  | TWrite r r' a =>
      q ← load r';
      d ← get;
      err ← write_reply q;
      d' ← get;
      mret (if closed_by d d' then TWriting (put_back r r') err a else TPut (put_back r r') err a)
  | TWriting rs err a => mret (TPut rs err a)
  | TPut (r :: rs) err a => Put r;; mret (TPut rs err a)
  | TPut [] err a => mret (after_dispatch err a)
  | _ => mret t
  end.

Definition in_handler (t : task) : bool :=
  match t with TRun _ | TCheck _ _ _ | TWrite _ _ _ | TWriting _ _ _ | TPut _ _ _ => true | _ => false end.

(** Inside a call that closes the connection: it returns when that has ended. *)
Definition in_close (t : task) : bool := match t with TWriting _ _ _ => true | _ => false end.

Definition after_done : task := match limit with Some _ => TRelease | None => TEnd end.

(** Whether the limiter has room for one more. *)
Definition room (ts : list task) (others : nat) : Prop :=
  match limit with Some n => (held ts + others < n)%nat | None => True end.

(** The call that closes the connection is inside it until [busy] is over; a
    call that finds it closed returns at once.  A read that finds no packet fails
    when the close is over, which closes the queue. *)
Inductive step : Serving → Serving → Prop :=
  (* the reader *)
  | step_first z d ts f w x o cs r d' :
      ReadPacket d = (Ret (inl r), d') →
      step (mkServing z d MFirst ts f w x o cs) (mkServing z d' (MReady r) ts f w x o cs)
  | step_first_failed d ts f w x o cs e d' :
      ReadPacket d = (Ret (inr e), d') →
      step (mkServing false d MFirst ts f w x o cs) (mkServing false d' (MFirstClose e) ts f w x o cs)
  | step_first_close z d ts f w x o cs e d' k :
      on_dconn Conn_Close d = (Ret k, d') →
      step (mkServing z d (MFirstClose e) ts f w x o cs) (mkServing (z || closed_by d d') d'
        (if closed_by d d' then MFirstClosing e else MFirstCallback e) ts f w x o cs)
  | step_first_closed d ts f w x o cs e :
      step (mkServing false d (MFirstClosing e) ts f w x o cs) (mkServing false d (MFirstCallback e) ts f w x o cs)
  | step_first_callback z d ts f w x o cs e :
      step (mkServing z d (MFirstCallback e) ts f w x o cs) (mkServing z d MReturned ts f w x o (cs ++ [Some e]))
  | step_spawn z d ts f w x o cs r :
      room ts o →
      step (mkServing z d (MReady r) ts f w x o cs) (mkServing z d MRead (ts ++ [TRun r]) f (S w) x o cs)
  | step_context_done z d ts f w o cs r :
      limit ≠ None →
      step (mkServing z d (MReady r) ts f w true o cs) (mkServing z d (MClose None true) ts f w true o cs)
  | step_read z d ts f w x o cs r d' :
      ReadPacket d = (Ret (inl r), d') →
      step (mkServing z d MRead ts f w x o cs) (mkServing z d' (MReady r) ts f w x o cs)
  | step_read_failed d ts f w x o cs e d' :
      ReadPacket d = (Ret (inr e), d') →
      step (mkServing false d MRead ts f w x o cs) (mkServing false d' (MClose (Some e) false) ts f w x o cs)
  | step_close z d ts f w x o cs e b d' k :
      on_dconn Conn_Close d = (Ret k, d') →
      step (mkServing z d (MClose e b) ts f w x o cs) (mkServing (z || closed_by d d') d'
        (if closed_by d d' then MClosing e b else MFlag e b) ts f w x o cs)
  | step_closed d ts f w x o cs e b :
      step (mkServing false d (MClosing e b) ts f w x o cs) (mkServing false d (MFlag e b) ts f w x o cs)
  | step_flag_won z d ts w x o cs e b :
      step (mkServing z d (MFlag e b) ts false w x o cs) (mkServing z d (MCallback e b) ts true w x o cs)
  | step_flag_lost z d ts w x o cs e b :
      step (mkServing z d (MFlag e b) ts true w x o cs) (mkServing z d (after_flag b) ts true w x o cs)
  | step_callback z d ts f w x o cs e b :
      step (mkServing z d (MCallback e b) ts f w x o cs) (mkServing z d (after_flag b) ts f w x o (cs ++ [e]))
  | step_cancel z d ts f w x o cs :
      step (mkServing z d MCancel ts f w x o cs) (mkServing z d MWait ts f w true o cs)
  | step_wait z d ts f x o cs :
      step (mkServing z d MWait ts f 0 x o cs) (mkServing z d MReturned ts f 0 x o cs)
  (* a handler *)
  | step_handle z d m l1 l2 f w x o cs t t' d' :
      in_handler t = true → (in_close t = true → z = false) → handler_step t d = (Ret t', d') →
      step (mkServing z d m (l1 ++ t :: l2) f w x o cs)
           (mkServing (z || closed_by d d') d' m (l1 ++ t' :: l2) f w x o cs)
  | step_task_close z d m l1 l2 f w x o cs e d' k :
      on_dconn Conn_Close d = (Ret k, d') →
      step (mkServing z d m (l1 ++ TClose e :: l2) f w x o cs) 
           (mkServing (z || closed_by d d') d' m (l1 ++ (if closed_by d d' then TClosing e else TFlag e) :: l2) f w x o cs)
  | step_task_closed d m l1 l2 f w x o cs e :
      step (mkServing false d m (l1 ++ TClosing e :: l2) f w x o cs) (mkServing false d m (l1 ++ TFlag e :: l2) f w x o cs)
  | step_task_won z d m l1 l2 w x o cs e :
      step (mkServing z d m (l1 ++ TFlag e :: l2) false w x o cs)
           (mkServing z d m (l1 ++ TCallback e :: l2) true w x o cs)
  | step_task_lost z d m l1 l2 w x o cs e :
      step (mkServing z d m (l1 ++ TFlag e :: l2) true w x o cs)
           (mkServing z d m (l1 ++ TCancel :: l2) true w x o cs)
  | step_task_callback z d m l1 l2 f w x o cs e :
      step (mkServing z d m (l1 ++ TCallback e :: l2) f w x o cs)
           (mkServing z d m (l1 ++ TCancel :: l2) f w x o (cs ++ [e]))
  | step_task_cancel z d m l1 l2 f w x o cs :
      step (mkServing z d m (l1 ++ TCancel :: l2) f w x o cs) (mkServing z d m (l1 ++ TDone :: l2) f w true o cs)
  | step_task_done z d m l1 l2 f w x o cs :
      step (mkServing z d m (l1 ++ TDone :: l2) f (S w) x o cs)
           (mkServing z d m (l1 ++ after_done :: l2) f w x o cs)
  | step_task_release z d m l1 l2 f w x o cs :
      step (mkServing z d m (l1 ++ TRelease :: l2) f w x o cs) (mkServing z d m (l1 ++ TEnd :: l2) f w x o cs).

(** Undisturbed, these steps are [dispatch_one]: seven of them at most, with the
    same result and the same effect, panics included. *)
Fixpoint handle (n : nat) (t : task) : M (Dispatcher (C := C) (U := U)) task :=
  match n with
  | O => mret t
  | S n => if in_handler t then t' ← handler_step t; handle n t' else mret t
  end.

Lemma after_dispatch_out err a : in_handler (after_dispatch err a) = false.
Proof. unfold after_dispatch. destruct err; [done|]. by destruct (a =? CLOSE). Qed.

Lemma handle_step n t d : in_handler t = true → handle (S n) t d = (t' ← handler_step t; handle n t') d.
Proof. intros Ht. cbn [handle]. by rewrite Ht. Qed.

Lemma handle_end n err a d : handle n (after_dispatch err a) d = (Ret (after_dispatch err a), d).
Proof. destruct n; [done|]. cbn [handle]. by rewrite after_dispatch_out. Qed.

Lemma handle_put n r err a d :
  handle (S (S n)) (TPut [r] err a) d = (Put r;; mret (after_dispatch err a)) d.
Proof.
  rewrite handle_step by done. cbn [handler_step]. unfold mbind, M_bind.
  destruct (Put r d) as [[] d1]; try done. cbn. unfold mbind, M_bind. simpl. apply handle_end.
Qed.

Lemma handle_puts n r r' err a d :
  handle (S (S (S n))) (TPut (put_back r r') err a) d =
  ((if bool_decide (r' ≠ r) then Put r' else mret tt);; Put r;; mret (after_dispatch err a)) d.
Proof.
  unfold put_back. case_bool_decide; cbn [app].
  - rewrite handle_step by done. cbn [handler_step]. unfold mbind, M_bind.
    destruct (Put r' d) as [[] d3]; try done. apply (handle_put n).
  - apply (handle_put (S n)).
Qed.

Lemma handle_write r r' a d :
  handle 5 (TWrite r r' a) d =
  (q ← load r'; err ← write_reply q;
   (if bool_decide (r' ≠ r) then Put r' else mret tt);; Put r;; mret (after_dispatch err a)) d.
Proof.
  rewrite handle_step by done. cbn [handler_step]. unfold mbind, M_bind.
  destruct (load r' d) as [[q| | |] d1]; try done. unfold get.
  destruct (write_reply q d1) as [[err| | |] d2]; try done. unfold mret, M_ret.
  destruct (closed_by d1 d2); [|apply (handle_puts 1)].
  rewrite handle_step by done. apply (handle_puts 0).
Qed.

Lemma load_same r d o d' : load (C := C) (U := U) r d = (o, d') → d' = d.
Proof. unfold load. destruct (objects d !! r); congruence. Qed.

Lemma handle_dispatch r d :
  handle 7 (TRun r) d =
  ('(err, a) ← dispatch_one table PacketContext connCtx (Some preWriteFn) r; mret (after_dispatch err a)) d.
Proof.
  rewrite handle_step by done. unfold dispatch_one, send_outgoing. cbn [handler_step].
  unfold mbind, M_bind. destruct (load r d) as [[p| | |] d1]; try done.
  destruct (lookup_handler _ _) as [h|].
  2:{ unfold mret, M_ret. rewrite (handle_put 4). unfold mbind, M_bind.
      by destruct (Put r d1) as [[] d2]. }
  destruct (run_handler _ _ r d1) as [[[[r'|] a]| | |] d2]; try done; unfold mret, M_ret.
  2:{ rewrite (handle_put 4). unfold mbind, M_bind. by destruct (Put r d2) as [[] d3]. }
  rewrite handle_step by done. cbn [handler_step]. unfold mbind, M_bind.
  destruct (load r' d2) as [[q| | |] d3] eqn:El; try done. pose proof (load_same _ _ _ _ El) as ->.
  destruct (_ =? _); unfold mret, M_ret.
  - unfold run_preWrite, modify. rewrite handle_write. unfold mbind, M_bind. set (d3 := record _ _).
    assert (load r' d3 = (Ret q, d3)) as -> by (unfold load in *; simpl; by destruct (objects d2 !! r'); simplify_eq).
    destruct (write_reply q d3) as [[err| | |] d4]; try done.
    case_bool_decide; [destruct (Put r' d4) as [[] d5]; try done; by destruct (Put r d5) as [[]]|].
    unfold mret, M_ret. by destruct (Put r d4) as [[]].
  - rewrite (handle_put 3). unfold mbind, M_bind. by destruct (Put r d2) as [[]].
Qed.

(** What happens around the service: other connections take and release places
    of the limiter, [Shutdown] cancels the base context, and the connection moves
    to any sound state, with more packets arrived or closed by its own goroutines
    or by [Shutdown], but never open again; a close of it begins or ends. *)
Inductive env_step : Serving → Serving → Prop :=
  | step_others z d m ts f w x o o' cs n :
      limit = Some n → (held ts + o' ≤ n)%nat →
      env_step (mkServing z d m ts f w x o cs) (mkServing z d m ts f w x o' cs)
  | step_base_cancelled z d m ts f w x o cs :
      env_step (mkServing z d m ts f w x o cs) (mkServing z d m ts f w true o cs)
  | step_network z z' d m ts f w x o cs k :
      conn_ok k → (is_closed (dconn d) = true → is_closed k = true) → (z' = true → is_closed k = true) →
      env_step (mkServing z d m ts f w x o cs) (mkServing z' (set_dconn k d) m ts f w x o cs).

Definition any_step (s s' : Serving) : Prop := step s s' ∨ env_step s s'.

(** ** Invariants *)

Definition pending_task (t : task) : nat := match t with TCallback _ => 1 | _ => 0 end.
Definition pending_main (m : reader_pc) : nat := match m with MCallback _ _ => 1 | _ => 0 end.
Definition flag_count (b : bool) : nat := if b then 1 else 0.

(** The reader has been past the flag. *)
Definition past_flag (m : reader_pc) : bool :=
  match m with MCallback _ _ | MCancel | MWait => true | _ => false end.

(** [onClosed] is called as often as the flag was won; [wg] counts the running
    goroutines; no more places are taken than the limiter has. *)
Definition counts_ok (s : Serving) : Prop :=
  wg s = live (tasks s) ∧
  match limit with Some n => (held (tasks s) + others s ≤ n)%nat | None => True end ∧
  match main s with
  | MFirst | MFirstClose _ | MFirstClosing _ | MFirstCallback _ => tasks s = [] ∧ calls s = [] ∧ closed s = false
  | MReturned => wg s = 0%nat ∧ length (calls s) = 1%nat
  | m => (length (calls s) + pending_main m + sum_list_with pending_task (tasks s) = flag_count (closed s))%nat ∧
         (past_flag m = true → closed s = true)
  end.

Lemma live_pending ts : (sum_list_with pending_task ts ≤ live ts)%nat.
Proof. induction ts as [|[]]; unfold live in *; simpl; lia. Qed.

Lemma counts_start d o :
  (match limit with Some n => (o ≤ n)%nat | None => True end) → counts_ok (start d o).
Proof. intros. by split_and!. Qed.

Ltac sums := unfold live, held in *; rewrite ?sum_list_with_app in *; simpl in *.

Lemma after_done_counts :
  is_live after_done = 0%nat ∧ (is_held after_done ≤ 1)%nat ∧ pending_task after_done = 0%nat.
Proof. unfold after_done. destruct limit; simpl; lia. Qed.

Lemma after_dispatch_counts err a :
  is_live (after_dispatch err a) = 1%nat ∧ is_held (after_dispatch err a) = 1%nat ∧
  pending_task (after_dispatch err a) = 0%nat.
Proof. unfold after_dispatch. destruct err; [done|]. by destruct (a =? CLOSE). Qed.

Lemma handler_step_counts t d t' d' :
  in_handler t = true → handler_step t d = (Ret t', d') →
  is_live t = 1%nat ∧ is_held t = 1%nat ∧ pending_task t = 0%nat ∧
  is_live t' = 1%nat ∧ is_held t' = 1%nat ∧ pending_task t' = 0%nat.
Proof.
  intros Ht E. assert (in_handler t' = true ∨ ∃ err a, t' = after_dispatch err a) as Ht'.
  { destruct t as [| | | |[|r rs]| | | | | | | |]; try done; simpl in E;
      unfold mbind, M_bind, mret, M_ret, modify in E; repeat case_match; simplify_eq; eauto. }
  destruct Ht' as [Ht'|(err&a&->)]; [by destruct t, t'|].
  pose proof (after_dispatch_counts err a) as (?&?&?). by destruct t.
Qed.

Lemma counts_env s s' : counts_ok s → env_step s s' → counts_ok s'.
Proof.
  intros (Hw&Hl&Hm) Hst. destruct Hst as [z d m ts f w x o o' cs n Hn Hle| |]; try by split_and!.
  unfold counts_ok in *. simpl in *. rewrite Hn in *. by split_and!.
Qed.

(** A step of a handler changes one goroutine, the flag and the calls. *)
Lemma counts_task z z' m d d' l1 l2 t t' f f' w w' x x' o cs cs' :
  counts_ok (mkServing z d m (l1 ++ t :: l2) f w x o cs) →
  (is_held t' ≤ is_held t)%nat → (w + is_live t' = w' + is_live t)%nat →
  (length cs' + pending_task t' + flag_count f = length cs + pending_task t + flag_count f')%nat →
  (f = true → f' = true) → (is_live t = 0%nat → cs' = cs ∧ w' = w) →
  counts_ok (mkServing z' d' m (l1 ++ t' :: l2) f' w' x' o cs').
Proof.
  intros (Hw&Hl&Hm) Hh Hlv Hc Hf Hr. unfold counts_ok in *. simpl in *. sums. split_and!.
  - lia.
  - destruct limit; [lia|done].
  - destruct m; try (destruct Hm as [E _]; by destruct l1); try (destruct Hm as [? Hp]; split; [lia|auto]).
    destruct Hr as [-> ->]; [lia|done].
Qed.

Lemma counts_step s s' : counts_ok s → step s s' → counts_ok s'.
Proof.
  intros Hs Hst. pose proof after_done_counts as (?&?&?).
  destruct Hst as [| | | | |z d ts f w x o cs r Hroom| | | | | | | |z d ts f w x o cs e b| |z d ts f x o cs
    |z d m l1 l2 f w x o cs t t' d' Ht _ E|z d m l1 l2 f w x o cs e d' k E| | | | | | |]; try (
    pose proof Hs as (Hw&Hl&Hm); unfold counts_ok in *; simpl in *; sums;
    destruct_and?; subst; unfold after_flag in *;
    repeat case_match; simpl in *; split_and!; done || lia).
  all: try (by eapply counts_task; [exact Hs|simpl; lia..|done|done]).
  - destruct Hs as (Hw&Hl&Hm). unfold counts_ok, room in *. simpl in *. sums. split_and!; try (done || lia).
    destruct limit; [lia|done].
  - destruct Hs as (Hw&Hl&Hc&Hp). unfold counts_ok, after_flag in *. simpl in *. specialize (Hp eq_refl).
    destruct b; simpl; rewrite length_app; simpl; split_and!; done || lia.
  - destruct Hs as (Hw&Hl&Hc&Hp). unfold counts_ok in *. simpl in *. specialize (Hp eq_refl).
    pose proof (live_pending ts). subst f. simpl in Hc. split_and!; done || lia.
  - destruct (handler_step_counts t d t' d' Ht E) as (?&?&?&?&?&?).
    eapply counts_task; [exact Hs|simpl; lia..|done|done].
  - eapply counts_task; [exact Hs|destruct (closed_by d d'); simpl; lia..|done|done].
  - eapply counts_task; [exact Hs|simpl; rewrite ?length_app; simpl; lia..|done|done].
Qed.

(** *** Packets *)

Context `{!ConnectionLaws C}.

Definition task_refs (t : task) : list nat :=
  match t with
  | TRun r => [r]
  | TCheck r r' _ | TWrite r r' _ => put_back r r'
  | TWriting rs _ _ | TPut rs _ _ => rs
  | _ => []
  end.

Definition main_refs (m : reader_pc) : list nat := match m with MReady r => [r] | _ => [] end.

(** The packets in the hands of the reader and of the handlers. *)
Definition waiting (s : Serving) : list nat := flat_map task_refs (tasks s) ++ main_refs (main s).

Definition usable (d : Dispatcher (C := C) (U := U)) (r : nat) : Prop :=
  (r < length (objects d))%nat ∧ r ∉ recycled d.

(** A reply that is not the packet itself was made by the handler. *)
Definition replies_own (d : Dispatcher (C := C) (U := U)) (t : task) : Prop :=
  match t with TCheck r r' _ => r' = r ∨ r' ∉ received d | _ => True end.

(** Packets are put back once at most, those that wait have not been, and
    without a limiter every packet read is one or the other. *)
Definition packets_ok (s : Serving) : Prop :=
  disp_ok (disp s) ∧ NoDup (waiting s) ∧ Forall (usable (disp s)) (waiting s) ∧
  Forall (replies_own (disp s)) (tasks s) ∧
  (limit = None → ∀ r, r ∈ received (disp s) → r ∈ recycled (disp s) ∨ r ∈ waiting s).

Lemma ReadPacket_inv (d : Dispatcher (C := C) (U := U)) r d' :
  disp_ok d → ReadPacket d = (Ret r, d') →
  match r with
  | inl r => r = length (objects d) ∧ (r ∉ recycled d) ∧ ∃ p k, d' = took p k d ∧ disp_ok d'
  | inr _ => ∃ k, d' = set_dconn k d ∧ conn_ok k
  end.
Proof.
  intros Hok E. destruct (arrived (dconn d)) as [|p ps] eqn:Ha.
  - destruct (ReadPacket_empty d Hok Ha) as (k&?&_&_&_&_&H). destruct (is_closed (dconn d)).
    + destruct H as [e E']. rewrite E in E'. injection E' as -> ->. by exists k.
    + by rewrite E in H.
  - destruct (ReadPacket_arrived p ps d Hok Ha) as (k&E'&?&_&_&_&_&_&?). rewrite E in E'.
    injection E' as -> ->. split_and!; [done|done|]. by exists p, k.
Qed.

Lemma Close_inv (d : Dispatcher (C := C) (U := U)) x d' :
  disp_ok d → on_dconn Conn_Close d = (Ret x, d') → ∃ k, d' = set_dconn k d ∧ conn_ok k.
Proof.
  intros (Hc&_) E. destruct (close_returns (dconn d) Hc) as (k&Ek&?&_).
  unfold on_dconn, zoom in E. rewrite Ek in E. injection E as _ <-. by exists k.
Qed.

Lemma recycled_known (d : Dispatcher (C := C) (U := U)) z :
  disp_ok d → z ∈ recycled d → (z < length (objects d))%nat.
Proof.
  intros (_&_&_&Hall) Hz. rewrite list.Forall_forall in Hall. apply Hall, elem_of_app. by right.
Qed.

(** Steps that move goroutines only, or use the connection. *)
Lemma packets_conn s z' d' m' ts' f' w' x' o' cs' :
  packets_ok s → (d' = disp s ∨ ∃ k, d' = set_dconn k (disp s) ∧ conn_ok k) →
  waiting (mkServing z' d' m' ts' f' w' x' o' cs') = waiting s → Forall (replies_own (disp s)) ts' →
  packets_ok (mkServing z' d' m' ts' f' w' x' o' cs').
Proof.
  intros ((?&?&?&?)&Hnd&Hall&_&Hcov) Hd Hwt Hown. unfold packets_ok. rewrite Hwt.
  destruct Hd as [-> |(k&->&?)]; split_and!; done.
Qed.

(** A packet is read. *)
Lemma packets_read z d m ts f w x o cs r d' :
  packets_ok (mkServing z d m ts f w x o cs) → main_refs m = [] →
  ReadPacket d = (Ret (inl r), d') → packets_ok (mkServing z d' (MReady r) ts f w x o cs).
Proof.
  intros (Hok&Hnd&Hall&Hown&Hcov) Hm E.
  destruct (ReadPacket_inv d (inl r) d' Hok E) as (->&Hr&p&k&->&Hok').
  unfold packets_ok, waiting, usable in *. simpl in *. rewrite Hm, app_nil_r in *. split_and!; try done.
  - apply list.NoDup_app. split_and!; [done| |apply NoDup_singleton].
    intros y Hy ->%list_elem_of_singleton. rewrite list.Forall_forall in Hall.
    destruct (Hall _ Hy). lia.
  - apply Forall_app. rewrite length_app. simpl. split.
    + eapply Forall_impl; [|exact Hall]. simpl. intros y [? ?]. split; [lia|done].
    + constructor; [split; [lia|done]|done].
  - rewrite list.Forall_forall in Hown. rewrite list.Forall_forall in Hall. apply list.Forall_forall. intros t Ht. specialize (Hown t Ht).
    destruct t as [|y y' a| | | | | | | | | | |]; try done. simpl in *. destruct Hown as [|Hy]; [by left|].
    right. rewrite elem_of_app, list_elem_of_singleton. intros [?| ->]; [done|].
    destruct (Hall (length (objects d))); [|lia].
    apply list_elem_of_In, in_flat_map. exists (TCheck y (length (objects d)) a). split; [by apply list_elem_of_In|].
    simpl. unfold put_back. case_bool_decide; simpl; auto.
  - intros Hn y [Hy|Hy]%elem_of_app; [destruct (Hcov Hn y Hy); [by left|right]|right];
      rewrite elem_of_app; auto.
Qed.

(** What one action of a handler does to the packets it holds: some are put
    back, it keeps others, and it may have made one. *)
Definition handles (t t' : task) (d d' : Dispatcher (C := C) (U := U)) : Prop :=
  disp_ok d' ∧ received d' = received d ∧ (length (objects d) ≤ length (objects d'))%nat ∧ replies_own d' t' ∧
  ∃ ys, recycled d' = recycled d ++ ys ∧ NoDup (ys ++ task_refs t') ∧
    (∀ z, z ∈ ys ++ task_refs t' → z ∈ task_refs t ∨ (length (objects d) ≤ z < length (objects d'))%nat) ∧
    (∀ z, z ∈ task_refs t → z ∈ received d → z ∈ ys ++ task_refs t').

(** A goroutine acts on its own packets. *)
Lemma packets_task b b' d d' m l1 l2 t t' f w x o cs :
  packets_ok (mkServing b d m (l1 ++ t :: l2) f w x o cs) → handles t t' d d' →
  packets_ok (mkServing b' d' m (l1 ++ t' :: l2) f w x o cs).
Proof.
  intros (Hok&Hnd&Hall&Hown&Hcov) (Hok'&Hrv&Hlen&Hown'&ys&Hys&Hnd'&Hfrom&Hkeep).
  unfold packets_ok, waiting in *. simpl in *. rewrite flat_map_app in *. simpl in *.
  set (l0 := flat_map task_refs l1) in *. set (l := flat_map task_refs l2) in *.
  set (R := l0 ++ l ++ main_refs m).
  assert (∀ y, (l0 ++ y ++ l) ++ main_refs m ≡ₚ y ++ R) as Hperm by (intros y; unfold R; solve_Permutation).
  rewrite Hperm in Hnd, Hall |- *. apply list.NoDup_app in Hnd as (_&Hdis&HndR).
  apply Forall_app in Hall as [Hus HusR]. apply list.NoDup_app in Hnd' as (_&Hyt&Hnt').
  rewrite list.Forall_forall in Hus. rewrite list.Forall_forall in HusR.
  assert (∀ z, z ∈ ys ++ task_refs t' → z ∉ R) as Hnew.
  { intros z [?|?]%Hfrom HzR; [by eapply Hdis|]. destruct (HusR z HzR). lia. }
  split_and!; [done| | |apply Forall_app in Hown as [? Hown]; inversion Hown; subst|].
  - apply list.NoDup_app. split_and!; try done. intros z Hz. apply Hnew, elem_of_app. by right.
  - apply list.Forall_forall. intros z Hz. unfold usable. rewrite Hys, elem_of_app.
    apply elem_of_app in Hz as [Hz|Hz].
    + split; [|intros [Hzr|Hzy]; [|by eapply Hyt]];
        (destruct (Hfrom z) as [Hzt|?]; [apply elem_of_app; by right|destruct (Hus z Hzt)|]); try lia; [done|].
      pose proof (recycled_known d z Hok Hzr). lia.
    + destruct (HusR z Hz). split; [lia|]. intros [?|?]; [done|]. eapply Hnew; [apply elem_of_app; by left|done].
  - unfold replies_own. rewrite Hrv. apply Forall_app. split; [done|]. constructor; [|done].
    unfold replies_own in Hown'. by rewrite Hrv in Hown'.
  - intros Hn z Hz. rewrite Hrv in Hz. rewrite Hys, Hperm, !elem_of_app.
    destruct (Hcov Hn z Hz) as [?|Hzw]; [by left; left|]. rewrite Hperm, elem_of_app in Hzw.
    destruct Hzw as [Hzt|?]; [|auto]. apply (Hkeep z Hzt), elem_of_app in Hz. tauto.
Qed.

Lemma handled_ok (d d1 : Dispatcher (C := C) (U := U)) : disp_ok d → handled d d1 → disp_ok d1.
Proof.
  intros (?&?&?&Hall) (Ec&Er&Ey&Hlen&_). unfold disp_ok. rewrite Ec, Er, Ey. split_and!; try done.
  eapply Forall_impl; [|exact Hall]. simpl. lia.
Qed.

Lemma known_lookup (d : Dispatcher (C := C) (U := U)) r :
  (r < length (objects d))%nat → ∃ p, objects d !! r = Some p ∧ load r d = (Ret p, d).
Proof.
  intros [p Hp]%lookup_lt_is_Some_2. exists p. unfold load. by rewrite Hp.
Qed.

(** Actions that put nothing back. *)
Lemma handles_keeping t t' (d d1 : Dispatcher (C := C) (U := U)) :
  disp_ok d1 → received d1 = received d → recycled d1 = recycled d →
  (length (objects d) ≤ length (objects d1))%nat → replies_own d1 t' → NoDup (task_refs t') →
  (∀ z, z ∈ task_refs t' → z ∈ task_refs t ∨ (length (objects d) ≤ z < length (objects d1))%nat) →
  (∀ z, z ∈ task_refs t → z ∈ received d → z ∈ task_refs t') → handles t t' d d1.
Proof. intros. split_and!; try done. exists []. by rewrite app_nil_r. Qed.

Lemma put_back_same r : put_back r r = [r].
Proof. unfold put_back. by case_bool_decide. Qed.

Lemma put_back_other r r' : r' ≠ r → put_back r r' = [r'; r].
Proof. intros. unfold put_back. by case_bool_decide. Qed.

(** Each action of a handler returns and does what [handles] says. *)
Lemma run_handles r d : disp_ok d → usable d r →
  ∃ t' d', handler_step (TRun r) d = (Ret t', d') ∧ handles (TRun r) t' d d'.
Proof.
  intros Hok [Hlt Hr]. destruct (known_lookup d r Hlt) as (p&Hp&El).
  cbn [handler_step]. rewrite (bind_Ret _ _ _ _ _ El).
  destruct (lookup_handler _ _) as [h|].
  2:{ eexists _, d. split; [done|]. apply handles_keeping; try done; [apply NoDup_singleton|by left]. }
  set (packetCtx := match PacketContext with Some _ => _ | None => _ end).
  destruct (h packetCtx p (user d)) as [[[p' out] a] u] eqn:Eh.
  destruct (run_handler_spec h _ r p d p' out a u Hp Eh) as (x&d1&E1&_&Hh&Hp1&Hx).
  rewrite (bind_Ret _ _ _ _ _ E1). eexists _, d1. split; [done|].
  pose proof (handled_ok d d1 Hok Hh) as Hok1. destruct Hh as (_&Hrv&Hry&Hlen&_).
  destruct out as [| |q].
  - subst x. apply handles_keeping; try done; [apply NoDup_singleton|by left].
  - subst x. apply handles_keeping; try done; simpl; rewrite ?put_back_same; [by left|apply NoDup_singleton|by left|done].
  - destruct Hx as (r'&->&Hq&Hle). pose proof (lookup_lt_Some _ _ _ Hq) as Hlt'.
    apply handles_keeping; try done; simpl; rewrite ?(put_back_other r r') by lia.
    + right. rewrite Hrv. intros Hin. destruct Hok as (_&_&_&Hall). rewrite list.Forall_forall in Hall.
      specialize (Hall r' (proj2 (elem_of_app _ _ _) (or_introl Hin))). simpl in Hall. lia.
    + apply list.NoDup_cons. split; [intros ?%list_elem_of_singleton; lia|apply NoDup_singleton].
    + intros z [->|?]%elem_of_cons; [by right|by left].
    + intros z ->%list_elem_of_singleton _. rewrite elem_of_cons, list_elem_of_singleton. by right.
Qed.

Lemma put_back_refs r r' : r ∈ put_back r r' ∧ r' ∈ put_back r r'.
Proof.
  destruct (decide (r' = r)) as [->|]; [rewrite put_back_same|rewrite put_back_other by done];
    rewrite ?elem_of_cons; auto.
Qed.

Lemma put_back_cases r r' z : z ∈ put_back r r' → z = r ∨ z = r'.
Proof.
  destruct (decide (r' = r)) as [->|]; [rewrite put_back_same|rewrite put_back_other by done];
    rewrite ?elem_of_cons, elem_of_nil; tauto.
Qed.

Lemma check_handles r r' a d : disp_ok d → NoDup (put_back r r') → usable d r' → r' = r ∨ r' ∉ received d →
  ∃ t' d', handler_step (TCheck r r' a) d = (Ret t', d') ∧ handles (TCheck r r' a) t' d d'.
Proof.
  intros Hok Hnd [Hlt Hr] Hown. destruct (known_lookup d r' Hlt) as (q&Hq&El).
  cbn [handler_step]. rewrite (bind_Ret _ _ _ _ _ El). destruct (_ =? _).
  - eexists _, _. split; [done|]. apply handles_keeping; try done. by left.
  - eexists _, d. split; [done|]. apply handles_keeping; try done; simpl.
    + apply NoDup_singleton.
    + intros z ->%list_elem_of_singleton. left. apply put_back_refs.
    + intros z [->| ->]%put_back_cases Hz; rewrite list_elem_of_singleton; [done|by destruct Hown].
Qed.

Lemma write_handles r r' a d : disp_ok d → NoDup (put_back r r') → usable d r' →
  ∃ t' d', handler_step (TWrite r r' a) d = (Ret t', d') ∧ handles (TWrite r r' a) t' d d'.
Proof.
  intros Hok Hnd [Hlt Hr]. destruct (known_lookup d r' Hlt) as (q&Hq&El).
  cbn [handler_step]. rewrite (bind_Ret _ _ _ _ _ El).
  destruct Hok as (Hc&?&?&?). destruct (write_returns q (dconn d) Hc) as (e&k&Ew&Hk&_).
  assert (write_reply q d = (Ret e, record (Wrote q) (set_dconn k d))) as Eo
    by (unfold write_reply, mbind, M_bind, on_dconn, zoom; by rewrite Ew).
  rewrite (bind_Ret _ _ _ _ _ (eq_refl : get d = (Ret d, d))), (bind_Ret _ _ _ _ _ Eo).
  eexists _, _. split; [done|].
  destruct (closed_by _ _); apply handles_keeping; try done; by left.
Qed.

Lemma put_handles r rs err a d : disp_ok d → NoDup (r :: rs) → usable d r →
  ∃ t' d', handler_step (TPut (r :: rs) err a) d = (Ret t', d') ∧ handles (TPut (r :: rs) err a) t' d d'.
Proof.
  intros Hok Hnd [Hlt Hr]. destruct (known_lookup d r Hlt) as (p&Hp&El).
  destruct Hok as (Hc&Hnr&Hny&Hall). destruct (Put_eq r p d Hc Hp) as (k&E&Hk&_).
  cbn [handler_step]. rewrite (bind_Ret _ _ _ _ _ E). eexists _, _. split; [done|].
  split_and!; try done; simpl.
  - split_and!; try done; simpl.
    + apply list.NoDup_app. split_and!; [done| |apply NoDup_singleton]. by intros z ? ->%list_elem_of_singleton.
    + rewrite app_assoc. apply Forall_app. split; [done|]. by constructor.
  - exists [r]. split_and!; try done. by left.
Qed.

Lemma handler_step_handles t d :
  disp_ok d → in_handler t = true → NoDup (task_refs t) → Forall (usable d) (task_refs t) → replies_own d t →
  ∃ t' d', handler_step t d = (Ret t', d') ∧ handles t t' d d'.
Proof.
  intros Hok Ht Hnd Hus Hown. rewrite list.Forall_forall in Hus.
  destruct t as [r|r r' a|r r' a|rs err a|[|r rs] err a| | | | | | | |]; try done; simpl in *.
  - apply run_handles; [done|]. apply Hus. by apply list_elem_of_singleton.
  - apply check_handles; try done. apply Hus, put_back_refs.
  - apply write_handles; try done. apply Hus, put_back_refs.
  - eexists _, d. split; [done|]. apply handles_keeping; try done. by left.
  - eexists _, d. split; [done|]. pose proof (after_dispatch_out err a).
    assert (task_refs (after_dispatch err a) = []) as Href
      by (unfold after_dispatch; destruct err; [done|]; by destruct (a =? CLOSE)).
    apply handles_keeping; try done; rewrite ?Href; try done; try by intros z ?%not_elem_of_nil.
    unfold after_dispatch. destruct err; [done|]. by destruct (a =? CLOSE).
  - apply put_handles; try done. apply Hus, elem_of_cons. by left.
Qed.

Lemma packets_env s s' : packets_ok s → env_step s s' → packets_ok s'.
Proof.
  intros Hs Hst. destruct Hst as [| |z z' d m ts f w x o cs k Hk _ _]; [exact Hs|exact Hs|].
  apply packets_conn with (1 := Hs); [right; by exists k|done|apply Hs].
Qed.

Lemma after_done_refs : task_refs after_done = [] ∧ ∀ d, replies_own d after_done.
Proof. unfold after_done. by destruct limit. Qed.

(** What the invariant says of one goroutine. *)
Lemma packets_one z d m l1 l2 t f w x o cs :
  packets_ok (mkServing z d m (l1 ++ t :: l2) f w x o cs) → in_handler t = true →
  ∃ t' d', handler_step t d = (Ret t', d') ∧ handles t t' d d'.
Proof.
  intros (Hok&Hnd&Hall&Hown&_) Ht. unfold waiting in *. simpl in *. rewrite flat_map_app in *. simpl in *.
  rewrite <- app_assoc in Hnd. apply list.NoDup_app in Hnd as (_&_&Hnd).
  rewrite <- app_assoc in Hnd. apply list.NoDup_app in Hnd as (Hnd&_).
  rewrite !Forall_app in Hall. apply Forall_app in Hown as [_ Hown]. inversion Hown; subst.
  apply handler_step_handles; try done. apply Hall.
Qed.

Lemma own_replaced (d : Dispatcher) l1 l2 t t' :
  Forall (replies_own d) (l1 ++ t :: l2) → replies_own d t' → Forall (replies_own d) (l1 ++ t' :: l2).
Proof.
  intros [? H]%Forall_app ?. inversion H; subst. apply Forall_app. by split; [|constructor].
Qed.

Lemma packets_step s s' : packets_ok s → step s s' → packets_ok s'.
Proof.
  intros Hs Hst. pose proof Hs as (Hok&_&_&Hown&_). pose proof after_done_refs as [Had Hadr].
  destruct Hst as [z d ts f w x o cs r d' E|d ts f w x o cs e d' E|z d ts f w x o cs e d' k E| |
    |z d ts f w x o cs r Hroom|z d ts f w o cs r Hn|z d ts f w x o cs r d' E|d ts f w x o cs e d' E
    |z d ts f w x o cs e b d' k E| | |z d ts w x o cs e b|z d ts f w x o cs e b| |
    |z d m l1 l2 f w x o cs t t' d' Ht _ E|z d m l1 l2 f w x o cs e d' k E| | | | | | |].
  all: try (by eapply packets_read).
  all: try (destruct (ReadPacket_inv _ (inr _) _ Hok E) as (kk&->&?)).
  all: try (destruct (Close_inv _ _ _ Hok E) as (kk&->&?)).
  all: try match goal with |- context [if ?b then TClosing _ else _] => destruct b
       | |- context [if ?b then MClosing _ _ else _] => destruct b
       | |- context [if ?b then MFirstClosing _ else _] => destruct b end.
  all: try (apply packets_conn with (1 := Hs); [by eauto 6| |done || by eapply own_replaced]; unfold waiting; simpl;
    rewrite ?flat_map_app; simpl; rewrite ?Had; done).
  - apply packets_conn with (1 := Hs); [by left| |apply Forall_app; by split; [|constructor]].
    unfold waiting. simpl. rewrite flat_map_app. simpl. by rewrite app_nil_r.
  - destruct Hs as (Hd&Hnd&Hall&_&_). unfold packets_ok, waiting in *. simpl in *. rewrite app_nil_r.
    apply list.NoDup_app in Hnd as (?&_&_). apply Forall_app in Hall as [? _]. by split_and!.
  - destruct b; (apply packets_conn with (1 := Hs); [by left|done|done]).
  - destruct b; (apply packets_conn with (1 := Hs); [by left|done|done]).
  - destruct (packets_one _ _ _ _ _ _ _ _ _ _ _ Hs Ht) as (t1&d1&E1&?).
    rewrite E in E1. injection E1 as -> ->. by eapply packets_task.
Qed.

(** ** Properties *)

(** Service begins with a dispatcher all of whose packets were put back, and
    with room for the others. *)
Definition can_start (d : Dispatcher (C := C) (U := U)) (o : nat) : Prop :=
  disp_ok d ∧ received d ⊆ recycled d ∧ match limit with Some n => (o ≤ n)%nat | None => True end.

Definition reachable (d : Dispatcher) (o : nat) (s : Serving) : Prop := rtc any_step (start d o) s.

Lemma reachable_ok d o s : can_start d o → reachable d o s → counts_ok s ∧ packets_ok s.
Proof.
  intros (Hd&Hsub&Ho) Hr. assert (counts_ok (start d o) ∧ packets_ok (start d o)) as H0.
  { split; [by apply counts_start|]. split_and!; [done|by apply list.NoDup_nil|by constructor|by constructor|].
    intros _ r Hin. left. by apply Hsub. }
  unfold reachable in Hr. induction Hr as [|s1 s2 s3 [Hst|Hst] _ IH]; [done|..]; destruct H0; apply IH.
  - split; [by eapply counts_step|by eapply packets_step].
  - split; [by eapply counts_env|by eapply packets_env].
Qed.

Lemma live_no_refs ts : live ts = 0%nat → flat_map task_refs ts = [].
Proof. induction ts as [|[]]; unfold live in *; simpl; try lia; auto. Qed.

(** C8: concurrent service.  However the reader, the handler goroutines, the
    network, a shutdown and the other connections are interleaved, with or without a
    limit: [onClosed] is
    called at most once; the wait group counts exactly the handler goroutines
    still at work, so that it never drops below zero; no more goroutines hold the
    limiter than it has places; no packet is put back twice, none is in the hands
    of two goroutines, and none that a goroutine may still read, write or put back
    has been put back; and when the service returns, [onClosed] was called exactly once, no handler is at work and,
    without a limit, every packet read was put back. *)
Theorem serving_safe (d : Dispatcher) (o : nat) (s : Serving) :
  can_start d o → reachable d o s →
  (length (calls s) ≤ 1)%nat ∧ wg s = live (tasks s) ∧
  (∀ n, limit = Some n → (held (tasks s) + others s ≤ n)%nat) ∧ NoDup (recycled (disp s)) ∧
  NoDup (waiting s) ∧ (∀ r, r ∈ waiting s → r ∉ recycled (disp s)) ∧
  (main s = MReturned →
     length (calls s) = 1%nat ∧ live (tasks s) = 0%nat ∧
     (limit = None → received (disp s) ⊆ recycled (disp s))).
Proof.
  intros Hs Hr. destruct (reachable_ok d o s Hs Hr) as [(Hw&Hl&Hm) ((_&_&Hnd&_)&Hnd'&Hus&_&Hcov)].
  split_and!; try done.
  - assert (flag_count (closed s) ≤ 1)%nat by (unfold flag_count; destruct (closed s); lia).
    destruct (main s); first [destruct Hm as (_&->&_); simpl; lia|destruct Hm as [Hm _]; lia
      |destruct Hm as [_ Hm]; lia].
  - intros n Hn. by rewrite Hn in Hl.
  - intros r Hr'. rewrite list.Forall_forall in Hus. apply (Hus r Hr').
  - intros E. rewrite E in Hm. destruct Hm as [Hw0 ?]. split_and!; [done|congruence|].
    intros Hn r Hin. destruct (Hcov Hn r Hin) as [|Hwt]; [done|].
    unfold waiting in Hwt. rewrite E, live_no_refs in Hwt by congruence.
    simpl in Hwt. by apply not_elem_of_nil in Hwt.
Qed.

(** A goroutine inside a call that does not return before the close of the
    connection has ended: the call that closes it, or, of the reader, a read. *)
Definition task_in_close (t : task) : bool := match t with TWriting _ _ _ | TClosing _ => true | _ => false end.

Definition reader_in_close (m : reader_pc) : bool :=
  match m with MFirst | MRead | MFirstClosing _ | MClosing _ _ => true | _ => false end.

Definition close_holds_up (s : Serving) : Prop :=
  busy s = true ∧ (reader_in_close (main s) = true ∨ ∃ t, t ∈ tasks s ∧ task_in_close t = true).

(** A goroutine that has not ended can go on. *)
Lemma task_steps s l1 t l2 :
  counts_ok s → packets_ok s → tasks s = l1 ++ t :: l2 → t ≠ TEnd → (∃ s', step s s') ∨ close_holds_up s.
Proof.
  intros (Hw&_&_) Hp Hts Hne. destruct s as [z d m ts f w x o cs]. simpl in *. subst ts.
  destruct (z && task_in_close t) eqn:Hz.
  { right. apply andb_true_iff in Hz as [-> Hz]. split; [done|]. right. exists t.
    split; [apply elem_of_app; right; by left|done]. }
  left. pose proof (proj1 Hp) as Hok. destruct (in_handler t) eqn:Ht.
  { destruct (packets_one _ _ _ _ _ _ _ _ _ _ _ Hp Ht) as (t'&d'&E&_). eexists.
    eapply step_handle; [done| |done]. intros Hi. destruct t; try done. by destruct z. }
  destruct t as [| | | | |e|e|e|e| | | |]; try done.
  - destruct (close_returns (dconn d) (proj1 Hok)) as (k&E&_). eexists.
    eapply (step_task_close _ _ _ _ _ _ _ _ _ _ _ (set_dconn k d)). unfold on_dconn, zoom. by rewrite E.
  - destruct z; [done|]. eexists. by eapply step_task_closed.
  - destruct f; eexists; [by eapply step_task_lost|by eapply step_task_won].
  - eexists. by eapply step_task_callback.
  - eexists. by eapply step_task_cancel.
  - unfold live in Hw. rewrite sum_list_with_app in Hw. simpl in Hw.
    destruct w as [|w]; [lia|]. eexists. by eapply step_task_done.
  - eexists. by eapply step_task_release.
Qed.

Lemma all_ended ts : (∃ l1 t l2, ts = l1 ++ t :: l2 ∧ t ≠ TEnd) ∨ (held ts = 0%nat ∧ live ts = 0%nat).
Proof.
  induction ts as [|t ts [(l1&t'&l2&->&?)|[? ?]]]; [by right|left; by exists (t :: l1), t', l2|].
  destruct t; first [by left; eexists [], _, ts|right; unfold held, live in *; simpl; lia].
Qed.

(** The service waits for nothing but a packet, or a place of the limiter that
    other connections hold. *)
Definition idle (s : Serving) : Prop :=
  (main s = MFirst ∨ main s = MRead) ∧ is_closed (dconn (disp s)) = false ∧ arrived (dconn (disp s)) = [] ∨
  (∃ r n, main s = MReady r ∧ limit = Some n ∧ (n ≤ others s)%nat ∧ cancelled s = false).

Lemma reader_steps s :
  counts_ok s → packets_ok s → held (tasks s) = 0%nat → live (tasks s) = 0%nat → main s ≠ MReturned →
  (∃ s', step s s') ∨ close_holds_up s ∨ idle s.
Proof.
  intros (Hw&_&Hm) (Hok&_) Hh Hlv Hne. destruct s as [z d m ts f w x o cs]. simpl in *.
  destruct (z && reader_in_close m) eqn:Hz.
  { right. left. apply andb_true_iff in Hz as [-> Hz]. by split; [|left]. }
  assert (m = MFirst ∨ m = MRead →
    (∃ s', step (mkServing z d m ts f w x o cs) s') ∨ idle (mkServing z d m ts f w x o cs)) as Hread.
  { intros Hmr. destruct (arrived (dconn d)) as [|p ps] eqn:Ha.
    - destruct (ReadPacket_empty d Hok Ha) as (k&_&_&_&_&_&H). destruct (is_closed (dconn d)) eqn:Hcl.
      + destruct H as [e E]. left. destruct z; [by destruct Hmr as [-> | ->]|].
        destruct Hmr as [-> | ->]; eexists; [by eapply step_first_failed|by eapply step_read_failed].
      + right. left. by split_and!.
    - destruct (ReadPacket_arrived p ps d Hok Ha) as (k&E&_). left.
      destruct Hmr as [-> | ->]; eexists; [by eapply step_first|by eapply step_read]. }
  assert (∃ k d', on_dconn Conn_Close d = (Ret k, d')) as (k&d'&Ek).
  { destruct (close_returns (dconn d) (proj1 Hok)) as (k&E&_). eexists _, (set_dconn k d).
    unfold on_dconn, zoom. by rewrite E. }
  destruct m as [|e|e|e|r| |e b|e b|e b|e b| | |]; try (left; eexists; by econstructor); try done.
  all: try (destruct z; [done|]; left; eexists; by econstructor).
  all: try (destruct Hread; by auto).
  - assert (room ts o ∨ ∃ n, limit = Some n ∧ (n ≤ o)%nat) as [Hr|(n&En&Hn)].
    { unfold room. rewrite Hh. destruct limit as [n|]; [|by left].
      destruct (decide (o < n)%nat); [by left|right; exists n; split; [done|lia]]. }
    { left. eexists. by eapply step_spawn. }
    destruct x.
    + left. eexists. eapply step_context_done. by rewrite En.
    + right. right. right. by exists r, n.
  - left. destruct f; eexists; [by eapply step_flag_lost|by eapply step_flag_won].
  - left. assert (w = 0%nat) as -> by lia. eexists. by eapply step_wait.
Qed.


End serving.

(** ** Witnesses *)

Import async async_spec concrete client.

Definition keep (u : nat) : nat := u.

(** One packet was read and its goroutine started, under a limit of two. *)
Definition one_started : Serving (C := Async) (U := nat) :=
  mkServing false (dispatch.ReadPacket echo_dispatcher).2 MRead [TRun 0] false 1 false 1 [].

Lemma echo_can_start : can_start (Some 2%nat) echo_dispatcher 1.
Proof. split_and!; [apply echo_dispatcher_ok|done|simpl; lia]. Qed.

Lemma one_started_reachable : reachable echo_table None tt keep (Some 2%nat) echo_dispatcher 1 one_started.
Proof.
  apply (rtc_l _ _ (mkServing false (dispatch.ReadPacket echo_dispatcher).2 (MReady 0) [] false 0 false 1 [])).
  - left. by eapply step_first.
  - apply rtc_once. left. apply (step_spawn _ _ _ _ _ _ _ []). unfold room, held. simpl. lia.
Qed.

Lemma serving_safe_witness :
  (length (calls one_started) ≤ 1)%nat ∧ serving.wg one_started = live (tasks one_started) ∧
  (∀ n, Some 2%nat = Some n → (held (tasks one_started) + others one_started ≤ n)%nat) ∧
  NoDup (recycled (disp one_started)) ∧
  NoDup (waiting one_started) ∧ (∀ r, r ∈ waiting one_started → r ∉ recycled (disp one_started)) ∧
  (main one_started = MReturned →
     length (calls one_started) = 1%nat ∧ live (tasks one_started) = 0%nat ∧
     (Some 2%nat = None → received (disp one_started) ⊆ recycled (disp one_started))).
Proof.
  apply (serving_safe echo_table None tt keep (Some 2%nat) echo_dispatcher 1 one_started
    echo_can_start one_started_reachable).
Defined.


End serving.
