(* ===== verification/Shutdown.v ===== *)
(** * Accepting connections and shutting down (server.go: Start, handleListener, serveConn, Shutdown)

    First the accept loop, with its backoff, as a function of what [Accept]
    returns, and [Start].  Then the life of a server as a step relation: the accept loop, one
    goroutine per connection ([serveConn]) and one call of [Shutdown], sharing
    the mutex [connectionsMu], the set of connections, the wait group and the
    [shutdown] flag.  What [serveConn] does between registering and
    unregistering is in [Server] and [Serving]; here its end is one event.  A
    connection may close by itself at any time, and when the close of a connection
    is over is not decided here ([busy], [event_close_over]). *)

From S2P Require Import Prelude Frisbee.

Module shutdown.

(** ** The accept loop *)

(** One turn of the loop: what [Accept] returned, and what [shutdown.Load()]
    says when it is asked (after the failure, and after the sleep). *)
Inductive accepted :=
  | Accepted (conn : nat)
  | AcceptFailed (err : error) (temporary : bool) (shutdown1 shutdown2 : bool).

Inductive listener_action := ServeConn (conn : nat) | Sleep (d : Z).

Definition next_backoff (backoff : Z) : Z :=
  let backoff := if backoff =? 0 then minBackoff else backoff * 2 in
  if backoff >? maxBackoff then maxBackoff else backoff.

(** The actions, and what the loop returns; [None] while it goes on. *)
Fixpoint handleListener (evs : list accepted) (backoff : Z) : list listener_action * option (option error) :=
  match evs with
  | [] => ([], None)
  | Accepted c :: evs =>
      let '(acts, r) := handleListener evs 0 in (ServeConn c :: acts, r)
  | AcceptFailed err temporary shutdown1 shutdown2 :: evs =>
      if shutdown1 then ([], Some None)
      else if temporary then
        let backoff := next_backoff backoff in
        if shutdown2 then ([Sleep backoff], Some None)
        else let '(acts, r) := handleListener evs backoff in (Sleep backoff :: acts, r)
      else ([], Some (Some err))
  end.

(** The backoff after [n] temporary failures in a row. *)
Definition backoff_after (n : nat) : Z := if (n =? 0)%nat then 0 else Z.min maxBackoff (minBackoff * 2 ^ (Z.of_nat n - 1)).

Lemma next_backoff_after n : next_backoff (backoff_after n) = backoff_after (S n).
Proof.
  unfold backoff_after, next_backoff, maxBackoff, minBackoff. simpl (S n =? 0)%nat.
  destruct (Nat.eqb_spec n 0) as [->|Hn]; [done|].
  replace (Z.of_nat (S n) - 1) with (Z.succ (Z.of_nat n - 1)) by lia.
  rewrite Z.pow_succ_r by lia. assert (0 < 2 ^ (Z.of_nat n - 1)) by (apply Z.pow_pos_nonneg; lia).
  replace (Z.min _ _ =? 0) with false by lia.
  destruct (Z.gtb_spec (Z.min 1000000000 (5000000 * 2 ^ (Z.of_nat n - 1)) * 2) 1000000000); lia.
Qed.

Definition temporary_failure (e : error) : accepted := AcceptFailed e true false false.

Lemma temporary_failures (es : list error) k evs :
  handleListener ((temporary_failure <$> es) ++ evs) (backoff_after k) =
  let '(acts, r) := handleListener evs (backoff_after (k + length es)) in
  (((λ i, Sleep (backoff_after i)) <$> seq (S k) (length es)) ++ acts, r).
Proof.
  revert k. induction es as [|e es IH]; intros k; simpl.
  - rewrite Nat.add_0_r. by destruct (handleListener evs _).
  - rewrite next_backoff_after, IH. replace (k + S (length es))%nat with (S k + length es)%nat by lia.
    by destruct (handleListener evs _).
Qed.

(** The sleep before attempt [i + 1] after a success. *)
Definition doubling (i : nat) : listener_action := Sleep (Z.min 1000000000 (5000000 * 2 ^ Z.of_nat i)).

Lemma sleeps_doubling n : (λ i, Sleep (backoff_after i)) <$> seq 1 n = doubling <$> seq 0 n.
Proof.
  rewrite <- seq_shift, <- list_fmap_compose. apply list_fmap_ext. intros _ i _. simpl.
  unfold doubling, backoff_after. do 4 f_equal. lia.
Qed.

(** C35: the accept loop.  After any number of temporary failures in a row, the
    loop has slept once after each, for 5 ms and then twice as long each time, up
    to one second; a connection is then served and the next failure starts again
    at 5 ms; another error is returned; and any failure after a shutdown ends the
    loop without an error. *)
Theorem accept_backoff (es : list error) (e : error) (c : nat) (t s2 : bool) (evs : list accepted) :
  let sleeps := doubling <$> seq 0 (length es) in
  let fails := temporary_failure <$> es in
  handleListener (fails ++ Accepted c :: evs) 0 =
    (sleeps ++ ServeConn c :: (handleListener evs 0).1, (handleListener evs 0).2) ∧
  handleListener (fails ++ AcceptFailed e false false s2 :: evs) 0 = (sleeps, Some (Some e)) ∧
  handleListener (fails ++ AcceptFailed e t true s2 :: evs) 0 = (sleeps, Some None).
Proof.
  intros sleeps fails. change 0 with (backoff_after 0). unfold fails.
  rewrite !temporary_failures, sleeps_doubling. cbn [handleListener].
  destruct (handleListener evs 0) as [acts r] eqn:E. change (backoff_after 0) with 0. rewrite E.
  rewrite !app_nil_r. by split_and!.
Qed.

(** ** Starting *)

Section start.
Context {L : Type}.

(** What starting touches: the listener, the wait group, and whether the channel
    that says that the server has started is closed. *)
Record Startup := mkStartup { listener : option L; wait_group : nat; startedCh : bool }.

(** [StartWithListener(listener)], with what the listener will return. *)
Definition StartWithListener (l : option L) (evs : list accepted)
    : M Startup (list listener_action * option (option error)) :=
  match l with
  | None => mret ([], Some (Some ListenerNil))
  | Some l =>
      modify (λ s, mkStartup (Some l) (S (wait_group s)) (startedCh s));;
      s ← get;
      if startedCh s then panicM CloseOfClosedChannel
      else modify (λ s, mkStartup (listener s) (wait_group s) true);; mret (handleListener evs 0)
  end.

(** [Start(addr)]; [listen useTLS] is the result of [net.Listen] or [tls.Listen]. *)
Definition Start (listen : bool → L + error) (useTLS : bool) (evs : list accepted)
    : M Startup (list listener_action * option (option error)) :=
  match listen useTLS with
  | inr err => mret ([], Some (Some err))
  | inl l => StartWithListener (Some l) evs
  end.

(** A server is started once: the accept loop runs and is counted; without a
    listener nothing happens; a second start panics. *)
Lemma Start_cases listen useTLS evs s :
  Start listen useTLS evs s =
  match listen useTLS with
  | inr err => (Ret ([], Some (Some err)), s)
  | inl l =>
      let s' := mkStartup (Some l) (S (wait_group s)) true in
      if startedCh s then (Panic CloseOfClosedChannel, s') else (Ret (handleListener evs 0), s')
  end.
Proof. unfold Start. destruct (listen useTLS), s as [? ? []]; reflexivity. Qed.
End start.

(** ** The life of a server *)

(** Where the goroutine of a connection stands. *)
Inductive serve_pc :=
  | SNew        (* the keep-alive calls and NewAsync *)
  | SLock1      (* connectionsMu.Lock *)
  | SCheck      (* shutdown.Load, with the mutex *)
  | SRegister   (* connections[conn] = struct{}{}; Unlock *)
  | SHandle     (* serving its packets *)
  | SLock2      (* connectionsMu.Lock *)
  | SUnregister (* delete unless shut down; Unlock *)
  | SDone       (* wg.Done *)
  | SEnd
  | SAbandoned. (* returned because of the shutdown *)

#[global] Instance serve_pc_eq_dec : EqDecision serve_pc.
Proof. solve_decision. Defined.

(** Where the call of [Shutdown] stands. *)
Inductive shutdown_pc :=
  | HIdle
  | HLock             (* connectionsMu.Lock *)
  | HClose            (* for c := range s.connections, with the mutex *)
  | HClosing (i : nat) (* inside c.Close() *)
  | HListener         (* listener.Close *)
  | HWait             (* wg.Wait *)
  | HReturned.

#[global] Instance shutdown_pc_eq_dec : EqDecision shutdown_pc.
Proof. solve_decision. Defined.

Record Server := mkServer {
  (** connections whose close has begun and is not over *)
  busy : gset nat;
  shutdown : bool;
  mu : bool;
  wg : nat;
  connections : gset nat;
  (** the connections, by number: where their goroutines stand, and whether the
      connection is closed *)
  goroutines : list (serve_pc * bool);
  listening : bool;
  listener_open : bool;
  caller : shutdown_pc;
}.

(** [StartWithListener]: the accept loop is counted. *)
Definition started : Server := mkServer ∅ false false 1 ∅ [] true true HIdle.

(** What the goroutines of the server do. *)
Inductive step : Server → Server → Prop :=
  (* Accept fails because the listener is closed: wg.Done, return *)
  | step_listener_exit z sh m w cs gs h :
      step (mkServer z sh m (S w) cs gs true false h) (mkServer z sh m w cs gs false false h)
  (* serveConn *)
  | step_keepalive_failed z sh m w cs gs li lo h i :
      gs !! i = Some (SNew, false) →
      step (mkServer z sh m w cs gs li lo h) (mkServer z sh m w cs (<[i := (SDone, true)]> gs) li lo h)
  | step_new z sh m w cs gs li lo h i b :
      gs !! i = Some (SNew, b) →
      step (mkServer z sh m w cs gs li lo h) (mkServer z sh m w cs (<[i := (SLock1, b)]> gs) li lo h)
  | step_lock1 z sh w cs gs li lo h i b :
      gs !! i = Some (SLock1, b) →
      step (mkServer z sh false w cs gs li lo h) (mkServer z sh true w cs (<[i := (SCheck, b)]> gs) li lo h)
  | step_abandon z m w cs gs li lo h i b :
      gs !! i = Some (SCheck, b) →
      step (mkServer z true m (S w) cs gs li lo h) (mkServer z true m w cs (<[i := (SAbandoned, b)]> gs) li lo h)
  | step_check z m w cs gs li lo h i b :
      gs !! i = Some (SCheck, b) →
      step (mkServer z false m w cs gs li lo h) (mkServer z false m w cs (<[i := (SRegister, b)]> gs) li lo h)
  | step_register z sh m w cs gs li lo h i b :
      gs !! i = Some (SRegister, b) →
      step (mkServer z sh m w cs gs li lo h)
           (mkServer z sh false w ({[i]} ∪ cs) (<[i := (SHandle, b)]> gs) li lo h)
  | step_lock2 z sh w cs gs li lo h i b :
      gs !! i = Some (SLock2, b) →
      step (mkServer z sh false w cs gs li lo h) (mkServer z sh true w cs (<[i := (SUnregister, b)]> gs) li lo h)
  | step_unregister z sh m w cs gs li lo h i b :
      gs !! i = Some (SUnregister, b) →
      step (mkServer z sh m w cs gs li lo h)
           (mkServer z sh false w (if sh then cs else cs ∖ {[i]}) (<[i := (SDone, b)]> gs) li lo h)
  | step_done z sh m w cs gs li lo h i b :
      gs !! i = Some (SDone, b) →
      step (mkServer z sh m (S w) cs gs li lo h) (mkServer z sh m w cs (<[i := (SEnd, b)]> gs) li lo h)
  (* Shutdown *)
  | step_shutdown z m w cs gs li lo :
      step (mkServer z false m w cs gs li lo HIdle) (mkServer z true m w cs gs li lo HLock)
  | step_shutdown_lock z sh w cs gs li lo :
      step (mkServer z sh false w cs gs li lo HLock) (mkServer z sh true w cs gs li lo HClose)
  (* c.Close() of one connection: it returns at once when the connection is
     closed, or else when the close is over; then the connection is deleted *)
  | step_shutdown_was_closed z sh m w cs gs li lo i p :
      i ∈ cs → gs !! i = Some (p, true) →
      step (mkServer z sh m w cs gs li lo HClose) (mkServer z sh m w (cs ∖ {[i]}) gs li lo HClose)
  | step_shutdown_close z sh m w cs gs li lo i p :
      i ∈ cs → gs !! i = Some (p, false) →
      step (mkServer z sh m w cs gs li lo HClose)
           (mkServer ({[i]} ∪ z) sh m w cs (<[i := (p, true)]> gs) li lo (HClosing i))
  | step_shutdown_closed z sh m w cs gs li lo i :
      i ∉ z →
      step (mkServer z sh m w cs gs li lo (HClosing i)) (mkServer z sh m w (cs ∖ {[i]}) gs li lo HClose)
  | step_shutdown_unlock z sh m w gs li lo :
      step (mkServer z sh m w ∅ gs li lo HClose) (mkServer z sh false w ∅ gs li lo HListener)
  | step_shutdown_listener z sh m w cs gs li lo :
      step (mkServer z sh m w cs gs li lo HListener) (mkServer z sh m w cs gs li false HWait)
  | step_shutdown_wait z sh m cs gs li lo :
      step (mkServer z sh m 0 cs gs li lo HWait) (mkServer z sh m 0 cs gs li lo HReturned).

(** What happens to the connections: one closes by itself (its peer hung up, its
    own goroutines or its service closed it), a close is over, the service of a
    closed connection ends; and [Accept] fails for good. *)
Inductive event : Server → Server → Prop :=
  | event_conn_closes z sh m w cs gs li lo h i p :
      gs !! i = Some (p, false) → p ≠ SNew →
      event (mkServer z sh m w cs gs li lo h) (mkServer ({[i]} ∪ z) sh m w cs (<[i := (p, true)]> gs) li lo h)
  | event_close_over z sh m w cs gs li lo h i :
      event (mkServer z sh m w cs gs li lo h) (mkServer (z ∖ {[i]}) sh m w cs gs li lo h)
  | event_served z sh m w cs gs li lo h i :
      gs !! i = Some (SHandle, true) →
      event (mkServer z sh m w cs gs li lo h) (mkServer z sh m w cs (<[i := (SLock2, true)]> gs) li lo h)
  | event_accept_failed z sh m w cs gs h :
      event (mkServer z sh m (S w) cs gs true true h) (mkServer z sh m w cs gs false true h).

(** A connection is accepted; one accepted before the listener was closed may
    still be on its way to [ServeConn]. *)
Inductive arrival : Server → Server → Prop :=
  | event_accept z sh m w cs gs lo h :
      arrival (mkServer z sh m w cs gs true lo h) (mkServer z sh m (S w) cs (gs ++ [(SNew, false)]) true lo h).

Definition any_step (s s' : Server) : Prop := step s s' ∨ event s s' ∨ arrival s s'.

Definition reachable (s : Server) : Prop := rtc any_step started s.

(** ** Invariants *)

(** Goroutines that hold the mutex, and those that [wg] counts. *)
Definition holds (p : serve_pc) : nat := match p with SCheck | SRegister | SUnregister | SAbandoned => 1 | _ => 0 end.
Definition lives (p : serve_pc) : nat := match p with SEnd | SAbandoned => 0 | _ => 1 end.

Definition total (f : serve_pc → nat) (gs : list (serve_pc * bool)) : nat := sum_list_with (λ g, f g.1) gs.

Lemma total_app f gs gs' : total f (gs ++ gs') = (total f gs + total f gs')%nat.
Proof. apply sum_list_with_app. Qed.

Lemma total_insert f gs i p b q b' :
  gs !! i = Some (p, b) → (total f (<[i := (q, b')]> gs) + f p = total f gs + f q)%nat.
Proof. intros Hi. apply (sum_insert (λ g, f g.1) _ _ _ (q, b') Hi). Qed.

Lemma total_member f gs i p b : gs !! i = Some (p, b) → (f p ≤ total f gs)%nat.
Proof. intros Hi. apply (sum_member (λ g, f g.1) _ _ _ Hi). Qed.

(** [Shutdown] has closed the connections; it closes them. *)
Definition late (h : shutdown_pc) : bool := match h with HListener | HWait | HReturned => true | _ => false end.
Definition closes (h : shutdown_pc) : bool := match h with HClose | HClosing _ => true | _ => false end.

Definition flag (b : bool) : nat := if b then 1 else 0.

Record server_ok (s : Server) : Prop := {
  (** the mutex is held by one goroutine, or by [Shutdown], or free *)
  ok_mutex : (total holds (goroutines s) + flag (closes (caller s)) = flag (mu s))%nat;
  ok_wg : wg s = (total lives (goroutines s) + flag (listening s))%nat;
  ok_flag : shutdown s = negb (bool_decide (caller s = HIdle));
  (** a connection being served is registered until [Shutdown] closes it *)
  ok_serving i b : goroutines s !! i = Some (SHandle, b) → b = true ∨ i ∈ connections s;
  ok_known i : i ∈ connections s → is_Some (goroutines s !! i);
  ok_closing i : caller s = HClosing i → ∃ p, goroutines s !! i = Some (p, true);
  ok_late i b : late (caller s) = true → goroutines s !! i ≠ Some (SRegister, b);
  ok_empty : late (caller s) = true → connections s = ∅;
  ok_listener : late (caller s) = true → caller s ≠ HListener → listener_open s = false;
  ok_returned : caller s = HReturned → wg s = 0%nat;
}.

Lemma started_ok : server_ok started.
Proof. by split. Qed.

(** A step of the goroutine of one connection. *)
Lemma server_goroutine_ok z z' sh m w cs gs li lo h i p b q b' m' w' cs' :
  server_ok (mkServer z sh m w cs gs li lo h) → gs !! i = Some (p, b) → (b = true → b' = true) →
  (holds q + flag m = holds p + flag m')%nat → (w + lives q = w' + lives p)%nat → (lives q ≤ lives p)%nat →
  (∀ j, j ≠ i → j ∈ cs → j ∈ cs') → (∀ j, j ∈ cs' → j ∈ cs ∨ j = i) → (late h = true → cs' = cs) →
  (q = SHandle → b' = true ∨ i ∈ cs') → (q = SRegister → late h = false) →
  server_ok (mkServer z' sh m' w' cs' (<[i := (q, b')]> gs) li lo h).
Proof.
  intros [Hm Hw Hf Hs Hk Hc Hl He Ho Hr] Hi Hb Hh Hlv Hle Hcs Hcs1 Hcs' Hq Hreg. simpl in *.
  pose proof (total_insert holds gs i p b q b' Hi). pose proof (total_insert lives gs i p b q b' Hi).
  pose proof (lookup_lt_Some _ _ _ Hi) as Hlt.
  assert (∀ j pj bj, <[i := (q, b')]> gs !! j = Some (pj, bj) → (j = i ∧ pj = q ∧ bj = b') ∨ (j ≠ i ∧ gs !! j = Some (pj, bj)))
    as Hlook.
  { intros j pj bj Hj. destruct (decide (i = j)) as [<-|Hne].
    - rewrite list_lookup_insert_eq in Hj by done. injection Hj as -> ->. by left.
    - rewrite list_lookup_insert_ne in Hj by done. by right. }
  split; simpl; try done.
  - lia.
  - lia.
  - intros j bj [(->&<-&->)|[Hne Hj]]%Hlook; [by apply Hq|]. destruct (Hs j bj Hj); [by left|right; by apply Hcs].
  - intros j Hj. apply lookup_lt_is_Some. rewrite length_insert.
    destruct (Hcs1 j Hj) as [?| ->]; [|done]. by apply lookup_lt_is_Some, Hk.
  - intros j Hj. destruct (Hc j Hj) as [pj Hpj]. destruct (decide (i = j)) as [<-|Hne].
    + exists q. rewrite list_lookup_insert_eq by done. rewrite Hb; [done|congruence].
    + exists pj. by rewrite list_lookup_insert_ne.
  - intros j bj Hlate [(->&<-&->)|[Hne Hj]]%Hlook; [|by apply (Hl j bj)]. rewrite Hreg in Hlate by done. done.
  - intros Hlate. rewrite Hcs' by done. auto.
  - intros Hret. specialize (Hr Hret). pose proof (total_member lives gs i p b Hi). lia.
Qed.

(** A connection begins to close. *)
Lemma server_close_ok z sh m w cs gs li lo h i p :
  server_ok (mkServer z sh m w cs gs li lo h) → gs !! i = Some (p, false) →
  server_ok (mkServer ({[i]} ∪ z) sh m w cs (<[i := (p, true)]> gs) li lo h).
Proof.
  intros Hok Hi. eapply server_goroutine_ok; [exact Hok|exact Hi|simpl; auto; lia..|by left|].
  intros ->. destruct (late h) eqn:E; [|done]. by destruct (ok_late _ Hok i false).
Qed.

(** The connection [i] is closed and deleted. *)
Lemma server_delete_ok z sh m w cs gs li lo h i p :
  server_ok (mkServer z sh m w cs gs li lo h) → gs !! i = Some (p, true) → closes h = true →
  server_ok (mkServer z sh m w (cs ∖ {[i]}) gs li lo HClose).
Proof.
  intros [Hm Hw Hf Hs Hk Hc Hl He Ho Hr] Hi Hh. simpl in *.
  assert (late h = false) as Hlate by (by destruct h). rewrite Hh in Hm.
  split; simpl; try done.
  - rewrite Hf. by destruct h.
  - intros j bj Hj. destruct (decide (j = i)) as [->|]; [left; congruence|].
    destruct (Hs j bj Hj); [by left|right; by apply elem_of_difference; rewrite elem_of_singleton].
  - intros j [Hj _]%elem_of_difference. by apply Hk.
Qed.

Lemma server_step_ok s s' : server_ok s → step s s' → server_ok s'.
Proof.
  intros Hok Hst.
  destruct Hst as [z sh m w cs gs h|z sh m w cs gs li lo h i Hi|z sh m w cs gs li lo h i b Hi
    |z sh w cs gs li lo h i b Hi|z m w cs gs li lo h i b Hi|z m w cs gs li lo h i b Hi|z sh m w cs gs li lo h i b Hi
    |z sh w cs gs li lo h i b Hi|z sh m w cs gs li lo h i b Hi|z sh m w cs gs li lo h i b Hi
    |z m w cs gs li lo|z sh w cs gs li lo|z sh m w cs gs li lo i p Hin Hi|z sh m w cs gs li lo i p Hin Hi
    |z sh m w cs gs li lo i Hz|z sh m w gs li lo|z sh m w cs gs li lo|z sh m cs gs li lo].
  all: try (by eapply server_goroutine_ok; [exact Hok|exact Hi|simpl; auto; lia..|auto|auto]).
  - destruct Hok as [Hm Hw Hf Hs Hk Hc Hl He Ho Hr]. simpl in *. split; simpl; try done; [lia|].
    intros Hret. specialize (Hr Hret). lia.
  - pose proof (ok_flag _ Hok) as Hf. simpl in Hf. assert (h = HIdle) as -> by (by case_bool_decide).
    by eapply server_goroutine_ok; [exact Hok|exact Hi|simpl; auto; lia..|done|done].
  - pose proof (ok_mutex _ Hok) as Hm. pose proof (total_member holds gs i _ _ Hi) as Ht. simpl in *.
    assert (m = true) as -> by (destruct m; [done|simpl in Hm; lia]).
    assert (late h = false) as Hlate.
    { destruct (late h) eqn:E; [|done]. exfalso. by apply (ok_late _ Hok i b). }
    eapply server_goroutine_ok; [exact Hok|exact Hi|auto|simpl; lia..|set_solver|set_solver|by rewrite Hlate|set_solver|done].
  - pose proof (ok_mutex _ Hok) as Hm. pose proof (total_member holds gs i _ _ Hi) as Ht. simpl in *.
    assert (m = true) as -> by (destruct m; [done|simpl in Hm; lia]).
    pose proof (ok_flag _ Hok) as Hf. simpl in Hf.
    eapply server_goroutine_ok; [exact Hok|exact Hi|auto|simpl; lia..|destruct sh; set_solver|destruct sh; set_solver| |done|done].
    intros Hlate. destruct sh; [done|]. by destruct h.
  - destruct Hok as [Hm Hw Hf Hs Hk Hc Hl He Ho Hr]. simpl in *. by split.
  - destruct Hok as [Hm Hw Hf Hs Hk Hc Hl He Ho Hr]. simpl in *. split; simpl; try done. lia.
  - by eapply server_delete_ok.
  - pose proof (server_close_ok _ _ _ _ _ _ _ _ _ _ _ Hok Hi) as [Hm Hw Hf Hs Hk Hc Hl He Ho Hr]. simpl in *.
    split; simpl; try done. intros j [= <-]. exists p. apply list_lookup_insert_eq. by eapply lookup_lt_Some.
  - destruct (ok_closing _ Hok i eq_refl) as [p Hp]. by eapply server_delete_ok.
  - destruct Hok as [Hm Hw Hf Hs Hk Hc Hl He Ho Hr]. simpl in *.
    assert (m = true ∧ total holds gs = 0%nat) as [-> Hh] by (destruct m; simpl in Hm; [split; [done|lia]|lia]).
    split; simpl; try done; [lia|].
    intros i b _ Hi. pose proof (total_member holds gs i _ _ Hi) as Ht. simpl in Ht. lia.
  - destruct Hok as [Hm Hw Hf Hs Hk Hc Hl He Ho Hr]. simpl in *. by split.
  - destruct Hok as [Hm Hw Hf Hs Hk Hc Hl He Ho Hr]. simpl in *. split; try done. intros. by apply Ho.
Qed.

Lemma server_event_ok s s' : server_ok s → event s s' → server_ok s'.
Proof.
  intros Hok Hev. destruct Hev as [z sh m w cs gs li lo h i p Hi Hp|z sh m w cs gs li lo h i|z sh m w cs gs li lo h i Hi
    |z sh m w cs gs h].
  - by apply server_close_ok.
  - by destruct Hok; split.
  - by eapply server_goroutine_ok; [exact Hok|exact Hi|simpl; auto; lia..|auto|auto].
  - destruct Hok as [Hm Hw Hf Hs Hk Hc Hl He Ho Hr]. simpl in *. split; simpl; try done; [lia|].
    intros Hret. specialize (Hr Hret). lia.
Qed.

Lemma server_arrival_ok s s' : server_ok s → arrival s s' → server_ok s'.
Proof.
  intros Hok Hst. destruct Hst as [z sh m w cs gs lo h]. destruct Hok as [Hm Hw Hf Hs Hk Hc Hl He Ho Hr]. simpl in *. split; simpl; try done.
  - rewrite total_app. unfold total in *. simpl. lia.
  - rewrite total_app. unfold total in *. simpl in *. lia.
  - intros i b [Hi|[_ Hi]]%lookup_app_Some; [by apply Hs|]. by apply list_lookup_singleton_Some in Hi as [_ ?].
  - intros i [x Hi]%Hk. exists x. by apply lookup_app_l_Some.
  - intros i [p Hp]%Hc. exists p. by apply lookup_app_l_Some.
  - intros i b Hlate [Hi|[_ Hi]]%lookup_app_Some; [by apply (Hl i b)|].
    by apply list_lookup_singleton_Some in Hi as [_ ?].
  - intros Hret. specialize (Hr Hret). lia.
Qed.

Lemma server_any_ok s s' : server_ok s → any_step s s' → server_ok s'.
Proof. intros Hok [?|[?|?]]; [by eapply server_step_ok|by eapply server_event_ok|by eapply server_arrival_ok]. Qed.

Lemma server_rtc_ok s s' : rtc any_step s s' → server_ok s → server_ok s'.
Proof. induction 1 as [|s1 s2 s3 Hst _ IH]; [done|]. intros H0. apply IH. by eapply server_any_ok. Qed.

Lemma server_reachable_ok s : reachable s → server_ok s.
Proof. intros Hr. exact (server_rtc_ok _ _ Hr started_ok). Qed.

(** C33: what a shutdown achieves.  In every reachable state: the mutex is held
    by at most one goroutine; from the moment [Shutdown] has closed the
    connections, every connection still being served is closed, none is
    registered and none can be; and when [Shutdown] has returned, no goroutine of
    the server is left, neither the accept loop nor any that serves a
    connection. *)
Theorem shutdown_complete (s : Server) :
  reachable s →
  (total holds (goroutines s) ≤ 1)%nat ∧
  (late (caller s) = true →
     connections s = ∅ ∧ ∀ i b, goroutines s !! i = Some (SHandle, b) → b = true) ∧
  (caller s = HReturned →
     listening s = false ∧ ∀ i p b, goroutines s !! i = Some (p, b) → p = SEnd ∨ p = SAbandoned).
Proof.
  intros [Hm Hw Hf Hs Hk Hc Hl He Ho Hr]%server_reachable_ok. split_and!.
  - destruct (mu s); simpl in Hm; lia.
  - intros Hlate. split; [auto|]. intros i b Hi. destruct (Hs i b Hi) as [|Hin]; [done|].
    by rewrite He in Hin by done.
  - intros Hret. specialize (Hr Hret). split.
    + destruct (listening s); [simpl in Hw; lia|done].
    + intros i p b Hi. pose proof (total_member lives _ _ _ _ Hi).
      destruct p; simpl in *; first [by left|by right|lia].
Qed.

(** ** What a shutdown can wait for *)

(** No connection is on its way to be registered, nor was one turned away. *)
Definition settled_pc (p : serve_pc) : bool :=
  match p with SNew | SLock1 | SCheck | SAbandoned => false | _ => true end.

Definition settled (s : Server) : Prop := Forall (λ g, settled_pc g.1 = true) (goroutines s).

(** The steps that remain: two for each connection to close. *)
Definition pc_load (p : serve_pc) : nat :=
  match p with
  | SRegister => 7 | SHandle => 4 | SLock2 => 3 | SUnregister => 2 | SDone => 1 | _ => 0
  end.

Definition caller_load (h : shutdown_pc) : nat :=
  match h with
  | HIdle => 5 | HLock => 4 | HClose => 3 | HClosing _ => 2 | HListener => 2 | HWait => 1 | HReturned => 0
  end.

Definition server_load (s : Server) : nat :=
  total pc_load (goroutines s) + 2 * size (connections s) + flag (listening s) + caller_load (caller s).

(** [n] steps of the server, and any number of events; no connection arrives. *)
Inductive run : nat → Server → Server → Prop :=
  | run_nil s : run 0 s s
  | run_step n s s' s'' : step s s' → run n s' s'' → run (S n) s s''
  | run_event n s s' s'' : event s s' → run n s' s'' → run n s s''.

Lemma settled_pc_at s i p b : settled s → goroutines s !! i = Some (p, b) → settled_pc p = true.
Proof. intros Hs Hi. by apply (proj1 (Forall_lookup _ _) Hs i (p, b)). Qed.

Lemma settled_insert i p b (gs : list (serve_pc * bool)) : Forall (λ g, settled_pc g.1 = true) gs → settled_pc p = true →
  Forall (λ g, settled_pc g.1 = true) (<[i := (p, b)]> gs).
Proof. intros Hs Hp. by apply Forall_insert. Qed.

Lemma size_add (i : nat) (cs : gset nat) : (size ({[i]} ∪ cs) ≤ S (size cs))%nat.
Proof.
  pose proof (size_union_alt {[i]} cs) as E. rewrite size_singleton in E.
  pose proof (subseteq_size (cs ∖ {[i]}) cs ltac:(set_solver)). lia.
Qed.

Lemma size_delete (i : nat) (cs : gset nat) : i ∈ cs → (S (size (cs ∖ {[i]})) = size cs)%nat.
Proof.
  intros Hi. assert ({[i]} ⊆ cs) as Hsub by (by apply singleton_subseteq_l).
  pose proof (size_difference cs {[i]} Hsub) as E. pose proof (subseteq_size _ _ Hsub) as Hs.
  rewrite size_singleton in E, Hs. lia.
Qed.

(** Unregistering removes one connection at most. *)
Lemma size_unregister (sh : bool) (i : nat) (cs : gset nat) : (size (if sh then cs else cs ∖ {[i]}) ≤ size cs)%nat.
Proof. destruct sh; [done|]. apply subseteq_size. set_solver. Qed.

(** The connection that [Shutdown] closes is still registered. *)
Definition closing_known (s : Server) : Prop := ∀ i, caller s = HClosing i → i ∈ connections s.

Lemma settled_step s s' :
  server_ok s → closing_known s → settled s → shutdown s = true → step s s' →
  settled s' ∧ closing_known s' ∧ shutdown s' = true ∧ (server_load s' < server_load s)%nat.
Proof.
  intros Hok Hck Hs Hsd Hst. pose proof (ok_mutex s Hok) as Hmu.
  unfold server_load, settled, closing_known in *.
  destruct Hst as [z sh m w cs gs h|z sh m w cs gs li lo h i Hi|z sh m w cs gs li lo h i b Hi
    |z sh w cs gs li lo h i b Hi|z m w cs gs li lo h i b Hi|z m w cs gs li lo h i b Hi|z sh m w cs gs li lo h i b Hi
    |z sh w cs gs li lo h i b Hi|z sh m w cs gs li lo h i b Hi|z sh m w cs gs li lo h i b Hi
    |z m w cs gs li lo|z sh w cs gs li lo|z sh m w cs gs li lo i p Hin Hi|z sh m w cs gs li lo i p Hin Hi
    |z sh m w cs gs li lo i Hz|z sh m w gs li lo|z sh m w cs gs li lo|z sh m cs gs li lo]; simpl in *; try done.
  all: try (pose proof (proj1 (Forall_lookup _ _) Hs i _ Hi) as Hp; discriminate Hp).
  all: try (pose proof (size_add i cs)). all: try (pose proof (size_unregister sh i cs)).
  all: try (pose proof (size_delete i cs Hin)).
  all: try match goal with |- context [total _ (<[_ := (?q, ?b')]> _)] => pose proof (total_insert pc_load _ _ _ _ q b' Hi) end.
  all: try (subst sh). all: simpl in *.
  all: try (split_and!; [by first [apply settled_insert|idtac]|done|done|lia]).
  - split_and!; [by apply settled_insert| |done|lia]. intros j Hj. apply elem_of_union_r. auto.
  - split_and!; [apply settled_insert; [done|by apply (proj1 (Forall_lookup _ _) Hs i _ Hi)]|by intros j [= <-]|done|lia].
  - pose proof (size_delete i cs (Hck i eq_refl)). split_and!; [done|done|done|lia].
Qed.

Lemma settled_event s s' :
  closing_known s → settled s → shutdown s = true → event s s' →
  settled s' ∧ closing_known s' ∧ shutdown s' = true ∧ (server_load s' ≤ server_load s)%nat.
Proof.
  intros Hck Hs Hsd Hev. unfold server_load, settled, closing_known in *.
  destruct Hev as [z sh m w cs gs li lo h i p Hi Hp|z sh m w cs gs li lo h i|z sh m w cs gs li lo h i Hi
    |z sh m w cs gs h]; simpl in *.
  - pose proof (total_insert pc_load _ _ _ _ p true Hi). split_and!; try done; [|lia].
    apply settled_insert; [done|]. apply (proj1 (Forall_lookup _ _) Hs i _ Hi).
  - by split_and!.
  - pose proof (total_insert pc_load _ _ _ _ SLock2 true Hi) as Ht. simpl in Ht. split_and!; try done; [|lia].
    by apply settled_insert.
  - split_and!; try done. lia.
Qed.

(** In every reachable state. *)
Lemma reachable_known s : reachable s → closing_known s.
Proof.
  intros Hr. assert (server_ok started ∧ closing_known started) as H0 by (split; [apply started_ok|done]).
  unfold reachable in Hr. revert H0. generalize started, Hr. clear Hr. intros s0 Hr.
  induction Hr as [|s1 s2 s3 Hst _ IH]; intros [Hok Hck]; [done|]. apply IH. split; [by eapply server_any_ok|].
  clear IH. intros j Hj. destruct Hst as [Hst|[Hst|Hst]].
  - pose proof (ok_mutex _ Hok) as Hm. unfold closing_known in *.
    destruct Hst; simpl in *; simplify_eq; auto.
    + apply elem_of_union_r. auto.
    + pose proof (total_member holds _ _ _ _ H). simpl in *. destruct m; simpl in Hm; lia.
  - unfold closing_known in *. by destruct Hst; simpl in *; auto.
  - unfold closing_known in *. by destruct Hst; simpl in *; auto.
Qed.

Lemma run_settled n s s' :
  run n s s' → server_ok s → closing_known s → settled s → shutdown s = true →
  server_ok s' ∧ settled s' ∧ shutdown s' = true ∧ (n + server_load s' ≤ server_load s)%nat.
Proof.
  induction 1 as [s|n s s1 s' Hst _ IH|n s s1 s' Hev _ IH]; intros Hok Hck Hs Hsd; [by split_and!|..].
  - destruct (settled_step s s1 Hok Hck Hs Hsd Hst) as (?&?&?&?).
    destruct IH as (?&?&?&?); try done; [by eapply server_step_ok|]. split_and!; try done. lia.
  - destruct (settled_event s s1 Hck Hs Hsd Hev) as (?&?&?&?).
    destruct IH as (?&?&?&?); try done; [by eapply server_event_ok|]. split_and!; try done. lia.
Qed.

(** [Shutdown] is inside the close of a connection, or it waits for the service
    of a closed connection to end. *)
Definition waits (s : Server) : Prop :=
  (∃ i, caller s = HClosing i ∧ i ∈ busy s) ∨
  (caller s = HWait ∧ ∃ i, goroutines s !! i = Some (SHandle, true)).

(** A goroutine that is counted or holds the mutex can go on, if the mutex is
    free or its own. *)
Lemma settled_moves s i p b :
  server_ok s → settled s → goroutines s !! i = Some (p, b) → lives p = 1%nat → p ≠ SHandle →
  holds p = 1%nat ∨ mu s = false → ∃ s', step s s'.
Proof.
  intros Hok Hs Hi Hl Hh Hm. pose proof (settled_pc_at s i p b Hs Hi) as Hp. pose proof (ok_wg s Hok) as Hw.
  pose proof (total_member lives _ _ _ _ Hi) as Ht.
  destruct s as [z sh m w cs gs li lo h]. simpl in *. destruct p; try done; simpl in *.
  - eexists. by eapply step_register.
  - destruct Hm as [?| ->]; [done|]. eexists. by eapply step_lock2.
  - eexists. by eapply step_unregister.
  - destruct w as [|w]; [lia|]. eexists. by eapply step_done.
Qed.

(** Closing the connections, with the mutex. *)
Lemma closes_progress s : server_ok s → closes (caller s) = true → waits s ∨ ∃ s', step s s'.
Proof.
  intros Hok Hc. pose proof (ok_known s Hok) as Hk. unfold waits. destruct s as [z sh m w cs gs li lo h].
  destruct h as [| | |i| | |]; try done; simpl in *.
  - right. destruct (set_choose_or_empty cs) as [[i Hi]|Hem].
    + destruct (Hk i Hi) as [[p []] Hp]; eexists; [by eapply step_shutdown_was_closed|by eapply step_shutdown_close].
    + apply leibniz_equiv in Hem as ->. eexists. apply step_shutdown_unlock.
  - destruct (decide (i ∈ z)) as [Hz|Hz]; [left; left; by exists i|right]. eexists. by apply step_shutdown_closed.
Qed.

Lemma settled_some s f :
  settled s → (0 < total f (goroutines s))%nat → (∀ p, f p ≠ 0%nat → settled_pc p = true → lives p = 1%nat) →
  ∃ i p b, goroutines s !! i = Some (p, b) ∧ f p ≠ 0%nat ∧ lives p = 1%nat.
Proof.
  intros Hs Hpos Hlv. destruct (sum_positive (λ g, f g.1) _ Hpos) as (i&[p b]&Hi&Hp). exists i, p, b. simpl in Hp.
  split_and!; [done|lia|]. apply Hlv; [lia|by eapply settled_pc_at].
Qed.

Lemma settled_progress s :
  server_ok s → settled s → shutdown s = true → caller s = HReturned ∨ waits s ∨ ∃ s', step s s'.
Proof.
  intros Hok Hs Hsd. destruct (closes (caller s)) eqn:Hc; [right; by apply closes_progress|].
  pose proof (ok_flag s Hok) as Hf. pose proof (ok_mutex s Hok) as Hm. pose proof (ok_wg s Hok) as Hw.
  rewrite Hc in Hm. destruct (mu s) eqn:Hmu.
  { right. right. destruct (settled_some s holds) as (i&p&b&Hi&Hp&Hl); [done|simpl in Hm; lia|by intros []|].
    eapply settled_moves; [done..|by intros ->|]. left. by destruct p. }
  destruct (decide (wg s = 0%nat)) as [Hw0|Hw0]; [|destruct (listening s) eqn:Hli].
  - destruct s as [z sh m w cs gs li lo h]. simpl in *. clear Hw. subst m w.
    destruct h; try done; [by subst|right; right; eexists; apply step_shutdown_lock
      |right; right; eexists; apply step_shutdown_listener|right; right; eexists; apply step_shutdown_wait|by left].
  - pose proof (ok_listener s Hok) as Ho. destruct s as [z sh m w cs gs li lo h]. simpl in *. subst m li.
    destruct h; try done; [by subst|right; right; eexists; apply step_shutdown_lock
      |right; right; eexists; apply step_shutdown_listener|right; right|by left].
    rewrite Ho by done. destruct w as [|w]; [done|]. eexists. apply step_listener_exit.
  - destruct (settled_some s lives) as (i&p&b&Hi&Hp&Hl); [done|simpl in Hw; lia|by intros []|].
    destruct (decide (p = SHandle)) as [->|Hh]; [|right; right; eapply settled_moves; [done..|by right]].
    pose proof (ok_serving s Hok i b Hi) as Hb. pose proof (ok_empty s Hok) as He. unfold waits.
    destruct s as [z sh m w cs gs li lo h]. simpl in *. subst m.
    destruct h; try done; [by subst|right; right; eexists; apply step_shutdown_lock
      |right; right; eexists; apply step_shutdown_listener|right; left; right|by left].
    split; [done|]. exists i. destruct Hb as [->|Hb]; [done|]. by rewrite He in Hb by done.
Qed.


(** ** A shutdown that never returns *)

(** The mutex is held by a goroutine that has returned, and another goroutine,
    counted by the wait group, still needs it. *)
Definition hung (i j : nat) (s : Server) : Prop :=
  server_ok s ∧ mu s = true ∧ (∃ b, goroutines s !! i = Some (SAbandoned, b)) ∧
  (∃ b, goroutines s !! j = Some (SHandle, b) ∨ goroutines s !! j = Some (SLock2, b)).

(** While the mutex is lost, nobody else holds it. *)
Lemma hung_holder i j s k p b :
  hung i j s → goroutines s !! k = Some (p, b) → holds p = 1%nat → k = i.
Proof.
  intros (Hok&Hmu&[bi Hi]&_) Hk Hp. destruct (decide (k = i)) as [|Hne]; [done|].
  pose proof (sum_two (λ g, holds g.1) _ _ _ _ _ Hk Hi Hne : _ ≤ total holds _)%nat as Ht. pose proof (ok_mutex s Hok) as Hm.
  rewrite Hmu in Hm. simpl in *. lia.
Qed.

Lemma hung_caller i j s : hung i j s → closes (caller s) = false.
Proof.
  intros (Hok&Hmu&[bi Hi]&_). destruct (closes (caller s)) eqn:Hc; [|done]. pose proof (total_member holds _ _ _ _ Hi) as Ht.
  pose proof (ok_mutex s Hok) as Hm. rewrite Hmu, Hc in Hm. simpl in *. lia.
Qed.

(** Moving the goroutine of a third connection, or of the second one up to the
    lock. *)
Lemma hung_insert i j s k p b q b' z' m' w' cs' :
  hung i j s → goroutines s !! k = Some (p, b) → (p = SAbandoned → q = SAbandoned) →
  (k = j → q = SHandle ∨ q = SLock2) → m' = true →
  let s' := mkServer z' (shutdown s) m' w' cs' (<[k := (q, b')]> (goroutines s)) (listening s) (listener_open s) (caller s) in
  server_ok s' → hung i j s'.
Proof.
  intros (Hok&Hmu&[bi Hi]&[bj Hj]) Hk Hp Hq -> s' Hok'. pose proof (lookup_lt_Some _ _ _ Hk) as Hlt.
  split_and!; [done|done|..]; simpl.
  - destruct (decide (k = i)) as [->|Hne].
    + exists b'. rewrite list_lookup_insert_eq by done. rewrite Hp; [done|congruence].
    + exists bi. by rewrite list_lookup_insert_ne.
  - destruct (decide (k = j)) as [->|Hne].
    + exists b'. rewrite list_lookup_insert_eq by done. destruct Hq as [-> | ->]; auto.
    + exists bj. by rewrite list_lookup_insert_ne.
Qed.

Lemma hung_counted i j s : hung i j s → wg s ≠ 0%nat.
Proof.
  intros (Hok&_&_&[b Hj]). rewrite (ok_wg _ Hok).
  destruct Hj as [Hj|Hj]; pose proof (total_member lives _ _ _ _ Hj) as Ht; simpl in Ht; lia.
Qed.

Lemma hung_step i j s s' : hung i j s → step s s' → hung i j s'.
Proof.
  intros Hs Hst. assert (server_ok s') as Hok' by (destruct Hs as [? _]; by eapply server_step_ok).
  assert (∀ k p b, goroutines s !! k = Some (p, b) → holds p = 1%nat → p ≠ SAbandoned → False) as Hno.
  { intros k p b Hk Hp Hne. pose proof (hung_holder i j s k p b Hs Hk Hp) as ->.
    destruct Hs as (_&_&[bi Hi]&_). congruence. }
  pose proof (hung_caller i j s Hs) as Hc. pose proof Hs as (Hok&Hmu&[bi Hi]&[bj Hj]).
  assert (∀ k p b q, goroutines s !! k = Some (p, b) → p ≠ SHandle → p ≠ SLock2 → k = j → q = SHandle ∨ q = SLock2)
    as Hnj by (intros k p b q Hk ? ? ->; destruct Hj; congruence).
  destruct Hst as [z sh m w cs gs h|z sh m w cs gs li lo h k Hk|z sh m w cs gs li lo h k b Hk
    |z sh w cs gs li lo h k b Hk|z m w cs gs li lo h k b Hk|z m w cs gs li lo h k b Hk|z sh m w cs gs li lo h k b Hk
    |z sh w cs gs li lo h k b Hk|z sh m w cs gs li lo h k b Hk|z sh m w cs gs li lo h k b Hk
    |z m w cs gs li lo|z sh w cs gs li lo|z sh m w cs gs li lo k p Hin Hk|z sh m w cs gs li lo k p Hin Hk
    |z sh m w cs gs li lo k Hz|z sh m w gs li lo|z sh m w cs gs li lo|z sh m cs gs li lo]; simpl in *; try done.
  all: try (exfalso; by eapply (Hno k)).
  all: try (by eapply (hung_insert i j (mkServer _ _ _ _ _ _ _ _ _)); [exact Hs|exact Hk|..|exact Hok'];
    [done|by eapply Hnj|done]).
  all: by split_and!; [done|done|by exists bi|by exists bj].
Qed.

Lemma hung_event i j s s' : hung i j s → event s s' ∨ arrival s s' → hung i j s'.
Proof.
  intros Hs Hev. assert (server_ok s') as Hok' by (destruct Hs as [? _]; eapply server_any_ok; [done|by right]).
  pose proof Hs as (Hok&Hmu&[bi Hi]&[bj Hj]). destruct Hev as [Hev|Hev].
  - destruct Hev as [z sh m w cs gs li lo h k p Hk Hp|z sh m w cs gs li lo h k|z sh m w cs gs li lo h k Hk
      |z sh m w cs gs h]; simpl in *.
    + eapply (hung_insert i j (mkServer _ _ _ _ _ _ _ _ _)); [exact Hs|exact Hk|done| |done|exact Hok'].
      intros ->. simpl in *. destruct Hj as [Hj|Hj]; rewrite Hj in Hk; injection Hk as <- _; auto.
    + by split_and!; [done|done|exists bi|exists bj].
    + eapply (hung_insert i j (mkServer _ _ _ _ _ _ _ _ _)); [exact Hs|exact Hk|done|by right|done|exact Hok'].
    + by split_and!; [done|done|exists bi|exists bj].
  - destruct Hev as [z sh m w cs gs lo h]. simpl in *.
    split_and!; [done|done|exists bi|exists bj]; simpl; [by apply lookup_app_l_Some|].
    destruct Hj as [Hj|Hj]; [left|right]; by apply lookup_app_l_Some.
Qed.

(** The state after this sequence of events: a connection is accepted and being
    served, another is accepted and has reached its lock when [Shutdown] is
    called; [Shutdown] closes the first, closes the listener and waits; the second
    goroutine takes the lock, finds the shutdown and returns; the first has
    served its connection and wants the lock. *)
Definition stuck : Server := mkServer ∅ true true 1 ∅ [(SLock2, true); (SAbandoned, false)] false false HWait.

(** A connection is registered; so far nothing else has happened. *)
Definition one_served : Server := mkServer ∅ false false 2 {[0%nat]} [(SHandle, false)] true true HIdle.

Lemma one_served_reachable : reachable one_served.
Proof.
  unfold reachable, one_served, started.
  eapply rtc_l; [right; right; apply event_accept|].
  eapply rtc_l; [left; by eapply (step_new _ _ _ _ _ _ _ _ _ 0)|].
  eapply rtc_l; [left; by eapply (step_lock1 _ _ _ _ _ _ _ _ 0)|].
  eapply rtc_l; [left; by eapply (step_check _ _ _ _ _ _ _ _ 0)|].
  eapply rtc_l; [left; by eapply (step_register _ _ _ _ _ _ _ _ _ 0)|].
  simpl. rewrite union_empty_r_L. apply rtc_refl.
Qed.

Lemma stuck_reachable : reachable stuck.
Proof.
  unfold reachable. transitivity one_served; [apply one_served_reachable|]. unfold one_served, stuck.
  eapply rtc_l; [right; right; apply event_accept|].
  eapply rtc_l; [left; by eapply (step_new _ _ _ _ _ _ _ _ _ 1)|].
  eapply rtc_l; [left; apply step_shutdown|]. eapply rtc_l; [left; apply step_shutdown_lock|].
  eapply rtc_l; [left; by eapply (step_shutdown_close _ _ _ _ _ _ _ _ 0); [set_solver|]|].
  eapply rtc_l; [right; left; apply (event_close_over _ _ _ _ _ _ _ _ _ 0)|].
  eapply rtc_l; [left; apply step_shutdown_closed; set_solver|].
  replace (({[0%nat]} : gset nat) ∖ {[0%nat]}) with (∅ : gset nat) by set_solver.
  replace (({[0%nat]} ∪ ∅ : gset nat) ∖ {[0%nat]}) with (∅ : gset nat) by set_solver.
  eapply rtc_l; [left; apply step_shutdown_unlock|]. eapply rtc_l; [left; apply step_shutdown_listener|].
  eapply rtc_l; [left; apply step_listener_exit|].
  eapply rtc_l; [left; by eapply (step_lock1 _ _ _ _ _ _ _ _ 1)|].
  eapply rtc_l; [left; by eapply (step_abandon _ _ _ _ _ _ _ _ 1)|].
  eapply rtc_l; [right; left; by eapply (event_served _ _ _ _ _ _ _ _ _ 0)|]. apply rtc_refl.
Qed.

(** C38: a connection accepted during a shutdown can make it hang.  [serveConn]
    returns with the mutex when it finds the server shut down.  In a reachable
    state [Shutdown] waits for the wait group; whatever happens from there, and
    although no close of a connection is pending, [Shutdown] does not return and
    the mutex is never released. *)
Theorem shutdown_can_hang :
  reachable stuck ∧ caller stuck = HWait ∧ busy stuck = ∅ ∧
  ∀ s, rtc any_step stuck s → caller s = HWait ∧ mu s = true.
Proof.
  split_and!; [apply stuck_reachable|done|done|]. intros s Hr.
  assert (hung 1 0 stuck) as H0.
  { split_and!; [apply server_reachable_ok, stuck_reachable|done|by exists false|]. exists true. by right. }
  assert (caller stuck = HWait) as H1 by done. revert H0 H1. generalize stuck Hr. clear Hr.
  intros s0 Hr. induction Hr as [s0|s1 s2 s3 Hst _ IH]; intros H0 Hc.
  { by destruct H0 as (_&?&_). }
  pose proof (hung_counted 1 0 s1 H0) as Hw. destruct Hst as [Hst|Hev].
  - apply IH; [by eapply hung_step|]. clear IH H0. by destruct Hst; simpl in *; simplify_eq.
  - apply IH; [by eapply hung_event|]. clear IH H0. by destruct Hev as [Hev|Hev]; destruct Hev; simpl in *.
Qed.

(** ** Witnesses *)

Lemma shutdown_complete_witness :
  (total holds (goroutines stuck) ≤ 1)%nat ∧
  (late (caller stuck) = true →
     connections stuck = ∅ ∧ ∀ i b, goroutines stuck !! i = Some (SHandle, b) → b = true) ∧
  (caller stuck = HReturned →
     listening stuck = false ∧ ∀ i p b, goroutines stuck !! i = Some (p, b) → p = SEnd ∨ p = SAbandoned).
Proof. apply (shutdown_complete stuck). apply stuck_reachable. Defined.

(** [Shutdown] was called while a connection is being served, and closes it. *)
Definition closing_down : Server := mkServer ∅ true false 2 {[0%nat]} [(SHandle, false)] true true HLock.
Definition in_close : Server := mkServer {[0%nat]} true true 2 {[0%nat]} [(SHandle, true)] true true (HClosing 0).

Lemma closing_down_reachable : reachable closing_down.
Proof. unfold reachable. eapply rtc_r; [apply one_served_reachable|]. left. apply step_shutdown. Qed.

Lemma closing_down_run : run 2 closing_down in_close.
Proof.
  unfold closing_down, in_close. eapply run_step; [apply step_shutdown_lock|].
  eapply run_step; [by eapply (step_shutdown_close _ _ _ _ _ _ _ _ 0); [set_solver|]|].
  simpl. rewrite union_empty_r_L. constructor.
Qed.


End shutdown.
