(* ===== verification/Lifecycle.v ===== *)
(** * The goroutines of a connection and its closing (async.go)

    [Async] describes what each operation does when nobody interferes.  This file
    has the interleavings: the three loops of a connection, and any number of
    goroutines in [close] (called from [Close] and [Raw], or, holding [errorMu],
    from [closeWithError]) or in [NewStream] and [Stream.Close], with the locks
    [errorMu], [staleMu] and [streamsMu], the wait group and the [closed] flag.  A step is what a goroutine does between
    two points where it may have to wait.

    [step] are the moves a goroutine makes by itself; [event] are what the
    environment brings: a loop fails, a STREAM packet arrives, the reader of a
    stream takes a packet, somebody closes the connection or uses its streams.  The
    mutex of the writer is in [Writers]: nobody waits for another lock while holding it. *)

From S2P Require Import Prelude Frisbee.

Module lifecycle.

Inductive loop := FlushLoop | ReadLoop | PingLoop.

(** Where a goroutine stands.  In [close], [e] says that it holds [errorMu]. *)
Inductive pc :=
  | Running (l : loop)
  | WantStreams        (* readLoop, STREAM packet: c.streamsMu.Lock() *)
  | InStreams          (* readLoop with streamsMu *)
  | Pushing            (* readLoop: stream.queue.Push(p) on a full queue *)
  | Left               (* a loop that has returned *)
  | WantError          (* closeWithError: c.errorMu.Lock() *)
  | WantStale (e : bool)    (* close: c.staleMu.Lock() *)
  | WantBoth (e : bool)     (* with staleMu: c.streamsMu.Lock() *)
  | Swapping (e : bool)     (* with both: closed.CompareAndSwap *)
  | Waiting (e : bool)      (* won, channels closed: c.wg.Wait() *)
  | Draining (e : bool)     (* the goroutines are gone *)
  | ClosingStreams (e : bool) (* staleMu released: closeSend on the streams *)
  | Flushing (e : bool)     (* streamsMu released: the last flush *)
  | Returned
  | UserWants          (* NewStream, Stream.Close: c.streamsMu.Lock() *)
  | UserHas.           (* the same with streamsMu *)

Record Conn := mkConn {
  errorMu : bool;
  staleMu : bool;
  streamsMu : bool;
  closed : bool;
  (** how often the two channels were closed *)
  channel_closes : nat;
  wg : nat;
  goroutines : list pc;
}.

(** [NewAsync]. *)
Definition created : Conn :=
  mkConn false false false false 0 3 [Running FlushLoop; Running ReadLoop; Running PingLoop].

(** A loop that finds the connection closed: the flush and the ping loop see a
    closed channel and return; the read loop fails on the deadline and goes on to
    [closeWithError]. *)
Definition after_close (l : loop) : pc := match l with ReadLoop => WantError | _ => Left end.

Inductive step : Conn → Conn → Prop :=
  | step_loop_exit em sm tm n w gs i l :
      gs !! i = Some (Running l) →
      step (mkConn em sm tm true n (S w) gs) (mkConn em sm tm true n w (<[i := after_close l]> gs))
  | step_streams_lock em sm cl n w gs i :
      gs !! i = Some WantStreams →
      step (mkConn em sm false cl n w gs) (mkConn em sm true cl n w (<[i := InStreams]> gs))
  | step_streams_unlock em sm tm cl n w gs i :
      gs !! i = Some InStreams →
      step (mkConn em sm tm cl n w gs) (mkConn em sm false cl n w (<[i := Running ReadLoop]> gs))
  | step_error_lock sm tm cl n w gs i :
      gs !! i = Some WantError →
      step (mkConn false sm tm cl n w gs) (mkConn true sm tm cl n w (<[i := WantStale true]> gs))
  | step_stale_lock em tm cl n w gs i e :
      gs !! i = Some (WantStale e) →
      step (mkConn em false tm cl n w gs) (mkConn em true tm cl n w (<[i := WantBoth e]> gs))
  | step_both_lock em sm cl n w gs i e :
      gs !! i = Some (WantBoth e) →
      step (mkConn em sm false cl n w gs) (mkConn em sm true cl n w (<[i := Swapping e]> gs))
  | step_won em sm tm n w gs i e :
      gs !! i = Some (Swapping e) →
      step (mkConn em sm tm false n w gs) (mkConn em sm tm true (S n) w (<[i := Waiting e]> gs))
  | step_lost em sm tm n w gs i e :
      gs !! i = Some (Swapping e) →
      step (mkConn em sm tm true n w gs)
           (mkConn (if e then false else em) false false true n w (<[i := Returned]> gs))
  | step_waited em sm tm cl n gs i e :
      gs !! i = Some (Waiting e) →
      step (mkConn em sm tm cl n 0 gs) (mkConn em sm tm cl n 0 (<[i := Draining e]> gs))
  | step_drained em sm tm cl n w gs i e :
      gs !! i = Some (Draining e) →
      step (mkConn em sm tm cl n w gs) (mkConn em false tm cl n w (<[i := ClosingStreams e]> gs))
  | step_streams_closed em sm tm cl n w gs i e :
      gs !! i = Some (ClosingStreams e) →
      step (mkConn em sm tm cl n w gs) (mkConn em sm false cl n w (<[i := Flushing e]> gs))
  | step_flushed em sm tm cl n w gs i e :
      gs !! i = Some (Flushing e) →
      step (mkConn em sm tm cl n w gs)
           (mkConn (if e then false else em) sm tm cl n w (<[i := Returned]> gs))
  | step_user_lock em sm cl n w gs i :
      gs !! i = Some UserWants →
      step (mkConn em sm false cl n w gs) (mkConn em sm true cl n w (<[i := UserHas]> gs))
  | step_user_unlock em sm tm cl n w gs i :
      gs !! i = Some UserHas →
      step (mkConn em sm tm cl n w gs) (mkConn em sm false cl n w (<[i := Returned]> gs)).

Inductive event : Conn → Conn → Prop :=
  (* a loop fails: wg.Done(), closeWithError(err) *)
  | event_failed em sm tm cl n w gs i l :
      gs !! i = Some (Running l) →
      event (mkConn em sm tm cl n (S w) gs) (mkConn em sm tm cl n w (<[i := WantError]> gs))
  | event_stream em sm tm cl n w gs i :
      gs !! i = Some (Running ReadLoop) →
      event (mkConn em sm tm cl n w gs) (mkConn em sm tm cl n w (<[i := WantStreams]> gs))
  (* the queue of a stream is full, and its reader takes a packet *)
  | event_full em sm tm cl n w gs i :
      gs !! i = Some (Running ReadLoop) →
      event (mkConn em sm tm cl n w gs) (mkConn em sm tm cl n w (<[i := Pushing]> gs))
  | event_popped em sm tm cl n w gs i :
      gs !! i = Some Pushing →
      event (mkConn em sm tm cl n w gs) (mkConn em sm tm cl n w (<[i := Running ReadLoop]> gs))
  (* somebody calls Close or Raw, or a write or flush of the user fails *)
  | event_close em sm tm cl n w gs (withError : bool) :
      event (mkConn em sm tm cl n w gs)
            (mkConn em sm tm cl n w (gs ++ [if withError then WantError else WantStale false]))
  (* somebody calls NewStream or closes a stream *)
  | event_user em sm tm cl n w gs :
      event (mkConn em sm tm cl n w gs) (mkConn em sm tm cl n w (gs ++ [UserWants])).

Definition any_step (c c' : Conn) : Prop := step c c' ∨ event c c'.
Definition reachable (c : Conn) : Prop := rtc any_step created c.

(** ** Invariants *)

Definition has_error (p : pc) : nat :=
  match p with
  | WantStale true | WantBoth true | Swapping true | Waiting true | Draining true | ClosingStreams true | Flushing true => 1
  | _ => 0
  end.
Definition has_stale (p : pc) : nat := match p with WantBoth _ | Swapping _ | Waiting _ | Draining _ => 1 | _ => 0 end.
Definition has_streams (p : pc) : nat :=
  match p with InStreams | Swapping _ | Waiting _ | Draining _ | ClosingStreams _ | UserHas => 1 | _ => 0 end.
Definition is_loop (p : pc) : nat := match p with Running _ | WantStreams | InStreams | Pushing => 1 | _ => 0 end.
(** The winner, once past the swap, and once past the wait. *)
Definition has_won (p : pc) : nat :=
  match p with Waiting _ | Draining _ | ClosingStreams _ | Flushing _ => 1 | _ => 0 end.
Definition has_waited (p : pc) : nat := match p with Draining _ | ClosingStreams _ | Flushing _ => 1 | _ => 0 end.

Definition count (f : pc → nat) (c : Conn) : nat := sum_list_with f (goroutines c).
Definition flag (b : bool) : nat := if b then 1 else 0.

Record conn_ok (c : Conn) : Prop := {
  ok_error : count has_error c = flag (errorMu c);
  ok_stale : count has_stale c = flag (staleMu c);
  ok_streams : count has_streams c = flag (streamsMu c);
  ok_wg : wg c = count is_loop c;
  ok_channels : channel_closes c = flag (closed c);
  ok_won : (count has_won c ≤ flag (closed c))%nat;
  ok_waited : (0 < count has_waited c)%nat → wg c = 0%nat;
}.

Lemma created_ok : conn_ok created.
Proof. split; unfold count; simpl; lia || done. Qed.

(** One goroutine moves. *)
Lemma conn_goroutine_ok em sm tm cl n w gs i p q em' sm' tm' cl' n' w' :
  conn_ok (mkConn em sm tm cl n w gs) → gs !! i = Some p →
  (has_error q + flag em = has_error p + flag em')%nat → (has_stale q + flag sm = has_stale p + flag sm')%nat →
  (has_streams q + flag tm = has_streams p + flag tm')%nat → (is_loop q + w = is_loop p + w')%nat →
  (n' + flag cl = n + flag cl')%nat → (has_won q + flag cl ≤ has_won p + flag cl')%nat →
  (is_loop q ≤ is_loop p)%nat → (has_waited p < has_waited q → w' = 0)%nat →
  conn_ok (mkConn em' sm' tm' cl' n' w' (<[i := q]> gs)).
Proof.
  intros [He Hs Ht Hw Hn Hwon Hwt] Hi E1 E2 E3 E4 E5 E6 E7 E8. unfold count in *. simpl in *.
  pose proof (λ f, sum_insert f gs i p q Hi) as Hsum.
  pose proof (Hsum has_error). pose proof (Hsum has_stale). pose proof (Hsum has_streams).
  pose proof (Hsum is_loop). pose proof (Hsum has_won). pose proof (Hsum has_waited).
  pose proof (sum_member is_loop gs i p Hi). split; unfold count; simpl; try lia.
Qed.

(** A goroutine inside a critical section shows that the lock is taken. *)
Lemma holder_flag c (f : pc → nat) b i p :
  count f c = flag b → goroutines c !! i = Some p → f p = 1%nat → b = true.
Proof.
  intros Hf Hi Hp. pose proof (sum_member f _ _ _ Hi) as Hm. unfold count in Hf.
  destruct b; [done|]. simpl in Hf. lia.
Qed.

Lemma conn_step_ok c c' : conn_ok c → step c c' → conn_ok c'.
Proof.
  intros Hok Hst. pose proof Hok as [He Hs Ht _ _ _ _].
  pose proof (λ b i p, holder_flag c has_error b i p) as HE.
  pose proof (λ b i p, holder_flag c has_stale b i p) as HS.
  pose proof (λ b i p, holder_flag c has_streams b i p) as HT.
  destruct Hst as [em sm tm n w gs i l Hi|em sm cl n w gs i Hi|em sm tm cl n w gs i Hi|sm tm cl n w gs i Hi
    |em tm cl n w gs i e Hi|em sm cl n w gs i e Hi|em sm tm n w gs i e Hi|em sm tm n w gs i e Hi
    |em sm tm cl n gs i e Hi|em sm tm cl n w gs i e Hi|em sm tm cl n w gs i e Hi|em sm tm cl n w gs i e Hi
    |em sm cl n w gs i Hi|em sm tm cl n w gs i Hi];
    simpl in *;
    try (specialize (HS sm i _ Hs Hi eq_refl); subst sm); try (specialize (HT tm i _ Ht Hi eq_refl); subst tm).
  all: try (destruct e; [specialize (HE em i _ He Hi eq_refl); subst em|]).
  all: try (destruct l).
  all: eapply conn_goroutine_ok; [exact Hok|exact Hi|..]; simpl; try lia.
  all: destruct cl; simpl; try lia.
Qed.

Lemma event_ok c c' : conn_ok c → event c c' → conn_ok c'.
Proof.
  intros Hok Hev. destruct Hev as [em sm tm cl n w gs i l Hi|em sm tm cl n w gs i Hi|em sm tm cl n w gs i Hi
    |em sm tm cl n w gs i Hi|em sm tm cl n w gs b|em sm tm cl n w gs].
  1-4: eapply conn_goroutine_ok; [exact Hok|exact Hi|..]; simpl; lia.
  all: destruct Hok as [He Hs Ht Hw Hn Hwon Hwt]; unfold count in *; simpl in *.
  1: destruct b. all: split; unfold count; simpl; rewrite ?sum_list_with_app; simpl; lia.
Qed.

Lemma conn_reachable_ok c : reachable c → conn_ok c.
Proof.
  intros Hr. unfold reachable in Hr. pose proof created_ok as H0. revert H0.
  induction Hr as [|c1 c2 c3 [Hst|Hst] _ IH]; [done|..]; intros H0; apply IH;
    [by eapply conn_step_ok|by eapply event_ok].
Qed.

(** C6: closing is safe under every interleaving.  In every reachable state of
    the loops and of any number of goroutines that close the connection: the
    channels were closed once at most (never twice, which would panic), exactly
    when the connection is closed; the wait group counts exactly the loops that
    have not left, and so never drops below zero; each lock has one holder at
    most, and one goroutine at most goes through the closing; and once that
    goroutine is past [wg.Wait] no loop runs any more, so that draining the queue,
    closing the streams and the last flush are undisturbed by them. *)
Theorem close_protocol (c : Conn) :
  reachable c →
  channel_closes c = flag (closed c) ∧ wg c = count is_loop c ∧
  (count has_error c ≤ 1 ∧ count has_stale c ≤ 1 ∧ count has_streams c ≤ 1 ∧ count has_won c ≤ 1)%nat ∧
  ((0 < count has_waited c)%nat → count is_loop c = 0%nat).
Proof.
  intros [He Hs Ht Hw Hn Hwon Hwt]%conn_reachable_ok. unfold flag in *. split_and!; try done.
  - destruct (errorMu c); lia.
  - destruct (staleMu c); lia.
  - destruct (streamsMu c); lia.
  - destruct (closed c); lia.
  - intros Hpos. specialize (Hwt Hpos). lia.
Qed.

(** ** Progress *)

(** In the middle of [close], [closeWithError], [NewStream] or [Stream.Close]. *)
Definition is_closing (p : pc) : bool :=
  match p with
  | WantError | WantStale _ | WantBoth _ | Swapping _ | Waiting _ | Draining _ | ClosingStreams _ | Flushing _
  | UserWants | UserHas => true
  | _ => false
  end.

(** The read loop waits for [streamsMu], or for the reader of a stream. *)
Definition obstructed (p : pc) : bool := match p with WantStreams | Pushing => true | _ => false end.

(** Goroutines that hold a lock and can always go on. *)
Lemma holder_steps c i p :
  conn_ok c → goroutines c !! i = Some p →
  match p with InStreams | Swapping _ | Draining _ | ClosingStreams _ | Flushing _ | UserHas => True | _ => False end →
  ∃ c', step c c'.
Proof.
  intros Hok Hi Hp. destruct c as [em sm tm cl n w gs]. simpl in *.
  destruct p as [| | | | | | | |e|e|e|e|e| | |]; try done.
  - eexists. by eapply step_streams_unlock.
  - destruct cl; eexists; [by eapply step_lost|by eapply step_won].
  - eexists. by eapply step_drained.
  - eexists. by eapply step_streams_closed.
  - eexists. by eapply step_flushed.
  - eexists. by eapply step_user_unlock.
Qed.

(** The goroutine that waits for the loops. *)
Lemma waiting_steps c i e :
  conn_ok c → (∀ j p, goroutines c !! j = Some p → obstructed p = false) →
  goroutines c !! i = Some (Waiting e) → ∃ c', step c c'.
Proof.
  intros Hok Hno Hi. pose proof Hok as [_ _ _ Hw _ Hwon _]. pose proof (sum_member has_won _ _ _ Hi) as Hm.
  unfold count in *. destruct c as [em sm tm cl n w gs]. simpl in *.
  destruct cl; [|simpl in Hwon; lia]. destruct w as [|w]; [eexists; by eapply step_waited|].
  destruct (sum_positive is_loop gs) as (j&p&Hj&Hp); [lia|]. specialize (Hno j p Hj).
  destruct p as [l| | | | | | | | | | | | | | |]; simpl in *; try done; try lia.
  - eexists. by eapply step_loop_exit.
  - eexists. by eapply step_streams_unlock.
Qed.

(** If a lock is taken somebody can go on; otherwise the next in line can. *)
Lemma streams_steps c i p :
  conn_ok c → (∀ j p, goroutines c !! j = Some p → obstructed p = false) →
  goroutines c !! i = Some p → (∃ e, p = WantBoth e) ∨ p = UserWants → ∃ c', step c c'.
Proof.
  intros Hok Hno Hi Hor. pose proof (ok_streams c Hok) as Ht. destruct (streamsMu c) eqn:E.
  - clear Hor. destruct (sum_positive has_streams (goroutines c)) as (j&q&Hj&Hp); [unfold count in Ht; simpl in Ht; lia|].
    destruct q as [l| | | | | | | |e'|e'|e'|e'|e'| | |]; simpl in Hp; try lia.
    all: first [by eapply holder_steps|by eapply waiting_steps].
  - destruct c as [em sm tm cl n w gs]. simpl in *. subst tm.
    destruct Hor as [[e ->]| ->]; eexists; [by eapply step_both_lock|by eapply step_user_lock].
Qed.

Ltac can_step :=
  first [by eapply holder_steps|by eapply waiting_steps
        |solve [eapply streams_steps; [eassumption..|first [left; eexists; reflexivity|right; reflexivity]]]].

Lemma stale_steps c i e :
  conn_ok c → (∀ j p, goroutines c !! j = Some p → obstructed p = false) →
  goroutines c !! i = Some (WantStale e) → ∃ c', step c c'.
Proof.
  intros Hok Hno Hi. pose proof (ok_stale c Hok) as Hs. destruct (staleMu c) eqn:E.
  - destruct (sum_positive has_stale (goroutines c)) as (j&p&Hj&Hp); [unfold count in Hs; simpl in Hs; lia|].
    destruct p as [l| | | | | | |e'|e'|e'|e'|e'|e'| | |]; simpl in Hp; try lia.
    all: can_step.
  - destruct c as [em sm tm cl n w gs]. simpl in *. subst sm. eexists. by eapply step_stale_lock.
Qed.

(** A goroutine in the middle of such a call is never stuck. *)
Lemma closing_steps c i p :
  conn_ok c → goroutines c !! i = Some p → is_closing p = true →
  (∀ j p, goroutines c !! j = Some p → obstructed p = false) → ∃ c', step c c'.
Proof.
  intros Hok Hi Hp Hno.
  destruct p as [l| | | | | |e|e|e|e|e|e|e| | |]; try done.
  all: try first [by eapply stale_steps|can_step].
  pose proof (ok_error c Hok) as He. destruct (errorMu c) eqn:E.
  - destruct (sum_positive has_error (goroutines c)) as (j&p&Hj&Hp'); [unfold count in He; simpl in He; lia|].
    destruct p as [l| | | | | |e'|e'|e'|e'|e'|e'|e'| | |]; simpl in Hp'; try lia.
    all: first [by eapply stale_steps|can_step].
  - destruct c as [em sm tm cl n w gs]. simpl in *. subst em. eexists. by eapply step_error_lock.
Qed.

(** How many more moves a goroutine makes at most. *)
Definition moves_left (p : pc) : nat :=
  match p with
  | Left | Returned => 0 | Flushing _ | UserHas => 1 | ClosingStreams _ | UserWants => 2 | Draining _ => 3 | Waiting _ => 4
  | Swapping _ => 5 | WantBoth _ => 6 | WantStale _ => 7 | WantError => 8
  | Running _ => 9 | InStreams => 10 | WantStreams => 11 | Pushing => 12
  end.

(** A step is a move of one goroutine, towards its end. *)
Lemma step_moves c c' :
  step c c' → ∃ i p q, goroutines c !! i = Some p ∧ goroutines c' = <[i := q]> (goroutines c) ∧
    (moves_left q < moves_left p)%nat.
Proof.
  intros Hst. destruct Hst as [? ? ? ? ? ? i l Hi|? ? ? ? ? ? i Hi|? ? ? ? ? ? ? i Hi|? ? ? ? ? ? i Hi
    |? ? ? ? ? ? i e Hi|? ? ? ? ? ? i e Hi|? ? ? ? ? ? i e Hi|? ? ? ? ? ? i e Hi
    |? ? ? ? ? ? i e Hi|? ? ? ? ? ? ? i e Hi|? ? ? ? ? ? ? i e Hi|? ? ? ? ? ? ? i e Hi
    |? ? ? ? ? ? i Hi|? ? ? ? ? ? ? i Hi];
    do 3 eexists; split_and!; try exact Hi; try reflexivity; simpl; try lia; destruct l; simpl; lia.
Qed.

(** An event adds at most a new caller, or sends the read loop back. *)
Lemma event_moves c c' : event c c' → (count moves_left c' ≤ count moves_left c + 8)%nat.
Proof.
  unfold count. intros Hev. destruct Hev as [? ? ? ? ? ? ? i l Hi|? ? ? ? ? ? ? i Hi|? ? ? ? ? ? ? i Hi
    |? ? ? ? ? ? ? i Hi|? ? ? ? ? ? ? b|]; simpl;
    try (match goal with |- context [<[_ := ?q]> _] => pose proof (sum_insert moves_left _ _ _ q Hi) end; simpl in *; lia).
  all: rewrite sum_list_with_app; simpl; try destruct b; simpl; lia.
Qed.

(** A run with [n] steps of the goroutines and [k] events, in any order. *)
Inductive run : nat → nat → Conn → Conn → Prop :=
  | run_refl c : run 0 0 c c
  | run_step n k c1 c2 c3 : step c1 c2 → run n k c2 c3 → run (S n) k c1 c3
  | run_event n k c1 c2 c3 : event c1 c2 → run n k c2 c3 → run n (S k) c1 c3.

Lemma run_bounded n k c c' : run n k c c' → (n + count moves_left c' ≤ count moves_left c + 8 * k)%nat.
Proof.
  induction 1 as [|n k c1 c2 c3 (i&p&q&Hi&Hgs&Hlt)%step_moves _ IH|n k c1 c2 c3 Hev%event_moves _ IH]; [lia| |lia].
  unfold count in *. rewrite Hgs in IH. pose proof (sum_insert moves_left _ _ _ q Hi). lia.
Qed.

Lemma conn_run_reachable n k c c' : run n k c c' → reachable c → reachable c'.
Proof.
  unfold reachable. induction 1 as [|n k c1 c2 c3 Hst _ IH|n k c1 c2 c3 Hev _ IH]; intros Hr; [done|..];
    apply IH; (eapply rtc_r; [exact Hr|]); [by left|by right].
Qed.

(** A read loop that waits for the streams' lock can take it, or somebody who
    has it can go on, or the goroutine that closes has it. *)
Lemma want_streams_cases c j :
  conn_ok c → goroutines c !! j = Some WantStreams →
  (∃ c', step c c') ∨ ∃ i e, goroutines c !! i = Some (Waiting e).
Proof.
  intros Hok Hj. pose proof (ok_streams c Hok) as Ht. destruct (streamsMu c) eqn:E.
  - destruct (sum_positive has_streams (goroutines c)) as (i&q&Hi&Hq); [unfold count in Ht; simpl in Ht; lia|].
    destruct q as [l| | | | | | | |e|e|e|e|e| | |]; simpl in Hq; try lia; try (left; by eapply holder_steps).
    right. by exists i, e.
  - left. destruct c as [em sm tm cl n w gs]. simpl in *. subst tm. eexists. by eapply step_streams_lock.
Qed.

(** The goroutine [i] that closes waits for the read loop [j], which waits for
    the streams' lock that [i] holds; or the read loop waits for somebody to read
    from a stream. *)
Definition held_up (c : Conn) : Prop :=
  (∃ i j e, goroutines c !! i = Some (Waiting e) ∧ goroutines c !! j = Some WantStreams) ∨
  ∃ j, goroutines c !! j = Some Pushing.

(** C7: closing comes to an end, but for two obstacles.  In any run, with loops
    failing, STREAM packets arriving (before or during the closing), streams
    filling up and being read, and more and more calls: the goroutines make no
    more moves than [count moves_left c] and eight for every event; and in every
    state of the run some goroutine can move, or nobody is closing the connection
    or using its streams any more, or the closing is held up: by the read loop
    waiting for the streams' lock, which the goroutine that waits for the read
    loop holds (the deadlock of [close_can_deadlock]), or by the read loop
    waiting for the reader of a stream whose queue is full.  There is no other
    deadlock between the three locks, the wait group and the loops: without those
    two, every call of [Close], [closeWithError], [NewStream] and [Stream.Close]
    returns. *)
Theorem close_progress (c c' : Conn) (n k : nat) :
  reachable c → run n k c c' →
  (n ≤ count moves_left c + 8 * k)%nat ∧
  ((∃ c'', step c' c'') ∨ (∀ i p, goroutines c' !! i = Some p → is_closing p = false) ∨ held_up c').
Proof.
  intros Hr Hn. split; [pose proof (run_bounded n k c c' Hn); lia|].
  pose proof (conn_reachable_ok c' (conn_run_reachable n k c c' Hn Hr)) as Hok.
  destruct (decide (Exists (λ p, is_closing p = true) (goroutines c'))) as [Hex|Hnex].
  2:{ right. left. intros i p Hi. apply not_true_is_false. intros Hp. apply Hnex, list.Exists_exists. exists p.
      split; [by eapply list_elem_of_lookup_2|done]. }
  destruct (decide (Exists (λ p, obstructed p = true) (goroutines c'))) as [Hob|Hnob].
  - apply list.Exists_exists in Hob as (q&[j Hj]%list_elem_of_lookup&Hq). destruct q; try done.
    + destruct (want_streams_cases c' j Hok Hj) as [?|(i&e&Hi)]; [by left|]. right. right. left. by exists i, j, e.
    + right. right. right. by exists j.
  - left. apply list.Exists_exists in Hex as (p&[i Hi]%list_elem_of_lookup&Hp). eapply closing_steps; [done..|].
    intros j q Hj. apply not_true_is_false. intros Hq. apply Hnob, list.Exists_exists. exists q.
    split; [by eapply list_elem_of_lookup_2|done].
Qed.

(** ** A close that never returns *)

(** Goroutine [i] waits for the loops with the streams' lock; goroutine [j], the
    read loop, waits for that lock. *)
Definition deadlocked (i j : nat) (c : Conn) : Prop :=
  conn_ok c ∧ (∃ e, goroutines c !! i = Some (Waiting e)) ∧ goroutines c !! j = Some WantStreams.

Lemma deadlocked_locks i j c :
  deadlocked i j c → streamsMu c = true ∧ wg c ≠ 0%nat ∧
  ∀ k p, goroutines c !! k = Some p → has_streams p = 1%nat → k = i.
Proof.
  intros (Hok&[e Hi]&Hj). pose proof (ok_streams c Hok) as Ht. split_and!.
  - exact (holder_flag c has_streams _ i _ Ht Hi eq_refl).
  - rewrite (ok_wg c Hok). pose proof (sum_member is_loop _ _ _ Hj) as Hm. unfold count. simpl in Hm. lia.
  - intros k p Hk Hp. destruct (decide (k = i)) as [|Hne]; [done|].
    pose proof (sum_two has_streams _ _ _ _ _ Hk Hi Hne) as H2. unfold count in Ht.
    destruct (streamsMu c); simpl in *; lia.
Qed.

(** The moves of the other goroutines leave both where they are. *)
Lemma deadlocked_insert i j c k p q e :
  goroutines c !! i = Some (Waiting e) → goroutines c !! j = Some WantStreams →
  goroutines c !! k = Some p → p ≠ Waiting e → p ≠ WantStreams →
  (∃ e', <[k := q]> (goroutines c) !! i = Some (Waiting e')) ∧ <[k := q]> (goroutines c) !! j = Some WantStreams.
Proof.
  intros Hi Hj Hk Hp Hp'. split; [exists e|]; rewrite list_lookup_insert_ne; try done; intros ->; congruence.
Qed.

Lemma deadlocked_step i j c c' : deadlocked i j c → step c c' → deadlocked i j c'.
Proof.
  intros Hd Hst. destruct (deadlocked_locks i j c Hd) as (Hmu&Hw&_). destruct Hd as (Hok&[e0 Hi]&Hj).
  split; [by eapply conn_step_ok|].
  pose proof (λ k p q, deadlocked_insert i j c k p q e0 Hi Hj) as Hins.
  destruct Hst as [em sm tm n w gs k l Hk|em sm cl n w gs k Hk|em sm tm cl n w gs k Hk
    |sm tm cl n w gs k Hk|em tm cl n w gs k e Hk|em sm cl n w gs k e Hk|em sm tm n w gs k e Hk|em sm tm n w gs k e Hk
    |em sm tm cl n gs k e Hk|em sm tm cl n w gs k e Hk|em sm tm cl n w gs k e Hk|em sm tm cl n w gs k e Hk
    |em sm cl n w gs k Hk|em sm tm cl n w gs k Hk];
    simpl in *; try congruence; by eapply Hins.
Qed.

Lemma deadlocked_event i j c c' : deadlocked i j c → event c c' → deadlocked i j c'.
Proof.
  intros (Hok&[e0 Hi]&Hj) Hev. split; [by eapply event_ok|].
  pose proof (λ k p q, deadlocked_insert i j c k p q e0 Hi Hj) as Hins.
  destruct Hev as [em sm tm cl n w gs k l Hk|em sm tm cl n w gs k Hk|em sm tm cl n w gs k Hk
    |em sm tm cl n w gs k Hk|em sm tm cl n w gs b|em sm tm cl n w gs]; simpl in *; [by eapply Hins..| |].
  all: split; [exists e0|]; by apply lookup_app_l_Some.
Qed.

(** A STREAM packet has arrived and [Close] has been called: the user's goroutine
    got the streams' lock first and waits for the loops, of which the read loop
    waits for the lock. *)
Definition stuck_state : Conn :=
  mkConn false true true true 1 1 [Left; WantStreams; Left; Waiting false].

Lemma close_stuck_reachable : reachable stuck_state.
Proof.
  unfold reachable, created.
  eapply rtc_l; [right; by apply (event_stream _ _ _ _ _ _ _ 1)|].
  eapply rtc_l; [right; apply (event_close _ _ _ _ _ _ _ false)|]. simpl.
  eapply rtc_l; [left; by apply (step_stale_lock _ _ _ _ _ _ 3 false)|].
  eapply rtc_l; [left; by apply (step_both_lock _ _ _ _ _ _ 3 false)|].
  eapply rtc_l; [left; by apply (step_won _ _ _ _ _ _ 3 false)|].
  eapply rtc_l; [left; by apply (step_loop_exit _ _ _ _ _ _ 0 FlushLoop)|].
  eapply rtc_l; [left; by apply (step_loop_exit _ _ _ _ _ _ 2 PingLoop)|]. simpl.
  apply rtc_refl.
Qed.

(** C39: closing can deadlock.  There is a reachable state, one call of [Close]
    just as a STREAM packet arrives, from which [Close] returns in no continuation
    whatever: in every state reachable from it the closing goroutine still waits
    for the read loop with the streams' lock in hand, and the read loop still
    waits for that lock. *)
Theorem close_can_deadlock :
  reachable stuck_state ∧
  ∀ c, rtc any_step stuck_state c →
    (∃ e, goroutines c !! 3%nat = Some (Waiting e)) ∧ goroutines c !! 1%nat = Some WantStreams.
Proof.
  split; [exact close_stuck_reachable|]. intros c Hc.
  assert (deadlocked 3 1 stuck_state) as Hd.
  { split; [exact (conn_reachable_ok _ close_stuck_reachable)|]. split; [by exists false|done]. }
  apply (proj2 (A := conn_ok c)). change (deadlocked 3 1 c).
  induction Hc as [|c1 c2 c3 [Hst|Hst] _ IH]; [exact Hd|..]; apply IH;
    [by eapply deadlocked_step|by eapply deadlocked_event].
Qed.

(** A state to apply the theorems to: the user has called [Close] and won. *)
Definition winning_state : Conn :=
  mkConn false true true true 1 3 [Running FlushLoop; Running ReadLoop; Running PingLoop; Waiting false].

Lemma winning_reachable : reachable winning_state.
Proof.
  unfold reachable, created.
  eapply rtc_l; [right; apply (event_close _ _ _ _ _ _ _ false)|]. simpl.
  eapply rtc_l; [left; by apply (step_stale_lock _ _ _ _ _ _ 3 false)|].
  eapply rtc_l; [left; by apply (step_both_lock _ _ _ _ _ _ 3 false)|].
  eapply rtc_l; [left; by apply (step_won _ _ _ _ _ _ 3 false)|]. simpl.
  apply rtc_refl.
Qed.

Lemma close_protocol_witness :
  reachable winning_state ∧ channel_closes winning_state = flag (closed winning_state).
Proof. split; [exact winning_reachable|exact (proj1 (close_protocol winning_state winning_reachable))]. Defined.

(** A STREAM packet comes up while [Close] waits for the loops. *)
Lemma close_progress_witness :
  let c := mkConn false true true true 1 3 [Running FlushLoop; WantStreams; Running PingLoop; Waiting false] in
  (0 ≤ count moves_left winning_state + 8 * 1)%nat ∧
  ((∃ c'', step c c'') ∨ (∀ i p, goroutines c !! i = Some p → is_closing p = false) ∨ held_up c).
Proof.
  intros c. apply (close_progress winning_state c 0 1); [exact winning_reachable|].
  eapply run_event; [by apply (event_stream _ _ _ _ _ _ _ 1)|]. apply run_refl.
Defined.

End lifecycle.
