(* ===== verification/Writers.v ===== *)
(** * Concurrent writers (async.go: [writePacket], [flush], [close])

    Any number of goroutines write packets, flush and close a connection at the
    same time.  They share the mutex of the connection, the [closed] flag, the
    two channels and the buffered writer.  [Async] has these operations as they
    run undisturbed and [Lifecycle] the other locks; here they are cut at every
    access to something shared, and [advance i] is the next such step of
    goroutine [i].

    A ghost log lists the packets in the order in which the writer was handed
    their headers; it is what the writes are equivalent to. *)

From S2P Require Import Prelude Frisbee GoStd Interfaces Metadata Packet Async AsyncSpec Concrete.

Module writers.
Import metadata packet.

(** Who closes: [Close], [Raw], or [closeWithError] with an error, on behalf of
    the write of a packet or not. *)
Inductive closing `{PB : Polyglot} :=
  | ByClose | ByRaw
  | ByError (w : option Packet) (e : Frisbee.error).

(** Whom [writePacket] returns to: a caller, or [closeSend] in [close], with the
    packets of the streams still to be closed. *)
Inductive kont `{PB : Polyglot} :=
  | Caller (closeOnErr : bool)
  | StreamEnd (cl : closing) (rest : list Packet).

Inductive outcome := Wrote | Refused | Failed (e : Frisbee.error).

(** Where a goroutine stands: the next thing it does. *)
Inductive pc `{PB : Polyglot} :=
  (* writePacket *)
  | WGuard (p : Packet) (k : kont)       (* the checks of the content length *)
  | WLock (p : Packet) (k : kont)        (* c.Lock() *)
  | WCheck (p : Packet) (k : kont)       (* c.closed.Load() *)
  | WDeadline (p : Packet) (k : kont)    (* c.conn.SetWriteDeadline *)
  | WHeader (p : Packet) (k : kont)      (* c.writer.Write(encodedMetadata) *)
  | WContent (p : Packet) (k : kont)     (* c.writer.Write(content) *)
  | WSignal (p : Packet) (k : kont)      (* the send on c.flushCh *)
  | WUnlock (p : Packet) (k : kont) (o : outcome)
  | WFailed (p : Packet) (k : kont) (e : Frisbee.error)  (* c.closed.Load() after an error *)
  (* flush, then closeWithError in its callers *)
  | FLock | FCheck | FDeadline | FFlush
  | FUnlock (r : option Frisbee.error)
  (* close *)
  | CSwap (cl : closing)                 (* c.closed.CompareAndSwap(false, true) *)
  | CLock (cl : closing)
  | CChannels (cl : closing)             (* close(c.closeCh), close(c.flushCh) *)
  | CUnlock (cl : closing)
  | CPast (cl : closing)                 (* c.conn.SetDeadline(pastTime) *)
  | CWait (cl : closing)                 (* c.wg.Wait() *)
  | CEmpty (cl : closing)                (* c.conn.SetDeadline(emptyTime) *)
  | CStreams (cl : closing) (rest : list Packet)
  | CLockOut (cl : closing)
  | CBuffered (cl : closing)             (* c.writer.Buffered() > 0 *)
  | CDeadline (cl : closing)
  | CFlush (cl : closing)
  | CReset (cl : closing)                (* c.conn.SetWriteDeadline(emptyTime) *)
  | CUnlockOut (cl : closing)
  | CClose (cl : closing)                (* c.conn.Close() *)
  (* what the call was about and what it returned *)
  | Returned (w : option Packet) (r : option Frisbee.error).

(** What the socket reports when its deadline has passed. *)
Class Timeout := timeout : Frisbee.error.

Section writers.
Context {G : Globals} {PB : Polyglot} {TO : Timeout} `{!PolyglotLaws PB}.

(** [mu] is the goroutine that holds the mutex; [expired] says that the deadline
    of the socket is in the past; [ends] are the packets that would announce the
    end of the streams now open; [log] is the ghost log. *)
Record Conn := mkConn {
  mu : option nat;
  closed : bool;
  flushCh : async.Chan;
  closeCh : bool;
  out : Out;
  expired : bool;
  ends : list Packet;
  log : list (nat * Packet);
  panicked : bool;
  gs : list pc;
}.

Definition set_mu v c := mkConn v (closed c) (flushCh c) (closeCh c) (out c) (expired c) (ends c) (log c) (panicked c) (gs c).
Definition set_closed v c := mkConn (mu c) v (flushCh c) (closeCh c) (out c) (expired c) (ends c) (log c) (panicked c) (gs c).
Definition set_flushCh v c := mkConn (mu c) (closed c) v (closeCh c) (out c) (expired c) (ends c) (log c) (panicked c) (gs c).
Definition set_closeCh v c := mkConn (mu c) (closed c) (flushCh c) v (out c) (expired c) (ends c) (log c) (panicked c) (gs c).
Definition set_out v c := mkConn (mu c) (closed c) (flushCh c) (closeCh c) v (expired c) (ends c) (log c) (panicked c) (gs c).
Definition set_expired v c := mkConn (mu c) (closed c) (flushCh c) (closeCh c) (out c) v (ends c) (log c) (panicked c) (gs c).
Definition set_ends v c := mkConn (mu c) (closed c) (flushCh c) (closeCh c) (out c) (expired c) v (log c) (panicked c) (gs c).
Definition set_log v c := mkConn (mu c) (closed c) (flushCh c) (closeCh c) (out c) (expired c) (ends c) v (panicked c) (gs c).
Definition set_panicked v c := mkConn (mu c) (closed c) (flushCh c) (closeCh c) (out c) (expired c) (ends c) (log c) v (gs c).
Definition set_gs v c := mkConn (mu c) (closed c) (flushCh c) (closeCh c) (out c) (expired c) (ends c) (log c) (panicked c) v.

(** [NewAsync], before anybody calls. *)
Definition opened (w : WConn) : Conn :=
  mkConn None false (async.mkChan 0 false) false (NewWriterSize w DefaultBufferSize) false [] [] false [].

Definition goto (i : nat) (q : pc) (c : Conn) : Conn := set_gs (<[i := q]> (gs c)) c.

(** A call on the writer; with an expired deadline, what it hands to the socket
    fails without a byte being taken. *)
Definition deadline_call {A} (late : bool) (m : M Out A) : M Out A := λ o,
  if late then
    let w := conn o in
    let '(r, o') := m (mkOut (mkWConn (wire w) [Some (0, timeout)] (wdeadlines w) (conn_closed w)) (writer o)) in
    (r, mkOut (mkWConn (wire (conn o')) (faults w) (wdeadlines (conn o')) (conn_closed (conn o'))) (writer o'))
  else m o.

(** [k] gets the result; calls that do not return leave the goroutine there. *)
Definition call {A} (m : M Out A) (c : Conn) (k : A → Conn → Conn) : option Conn :=
  match deadline_call (expired c) m (out c) with
  | (Ret a, o) => Some (k a (set_out o c))
  | _ => None
  end.

(** Setting a deadline: on success it is in the past exactly when [past]. *)
Definition deadline (past : bool) (c : Conn) (k : option Frisbee.error → Conn → Conn) : option Conn :=
  match zoom conn set_conn conn_SetDeadline (out c) with
  | (Ret None, o) => Some (k None (set_expired past (set_out o c)))
  | (Ret (Some e), o) => Some (k (Some e) (set_out o c))
  | _ => None
  end.

Definition lock (i : nat) (q : pc) (c : Conn) : option Conn :=
  match mu c with
  | None => Some (goto i q (set_mu (Some i) c))
  | Some _ => None
  end.

Definition unlock (i : nat) (q : pc) (c : Conn) : option Conn := Some (goto i q (set_mu None c)).

Definition panics (c : Conn) : option Conn := Some (set_panicked true c).

(** Where [writePacket] returns to. *)
Definition finish (p : Packet) (k : kont) (r : option Frisbee.error) : pc :=
  match k with
  | Caller _ => Returned (Some p) r
  | StreamEnd cl rest => CStreams cl rest
  end.

(** The results of [Close], [Raw] and [closeWithError]. *)
Definition close_result (cl : closing) (won : bool) : pc :=
  match cl with
  | ByClose | ByRaw => Returned None None
  | ByError w e => Returned w (Some (if won then e else Join ConnectionClosed e))
  end.

Definition encodedMetadata (p : Packet) : list byte := header_bytes (wire_metadata (Metadata p)).

(** [writePacket], one access at a time. *)
Definition write_step (i : nat) (q : pc) (c : Conn) : option Conn :=
  match q with
  | WGuard p k =>
      if negb (ContentLength (Metadata p) =? Len (Content p)) then
        Some (goto i (finish p k (Some InvalidContentLength)) c)
      else if exceeds_max (ContentLength (Metadata p)) then
        Some (goto i (finish p k (Some ContentLengthExceeded)) c)
      else Some (goto i (WLock p k) c)
  | WLock p k => lock i (WCheck p k) c
  | WCheck p k => Some (goto i (if closed c then WUnlock p k Refused else WDeadline p k) c)
  | WDeadline p k =>
      deadline false c (λ err c, goto i (match err with Some e => WUnlock p k (Failed e) | None => WHeader p k end) c)
  | WHeader p k =>
      call (Writer_Write (encodedMetadata p)) c (λ '(_, err) c,
        goto i (match err with Some e => WUnlock p k (Failed e) | None => WContent p k end)
          (set_log (log c ++ [(i, p)]) c))
  | WContent p k =>
      if ContentLength (Metadata p) =? 0 then Some (goto i (WSignal p k) c)
      else
        call (Writer_Write (sub (Bytes (Content p)) 0 (ContentLength (Metadata p)))) c (λ '(_, err) c,
          goto i (match err with Some e => WUnlock p k (Failed e) | None => WSignal p k end) c)
  | WSignal p k =>
      let c' := goto i (WUnlock p k Wrote) c in
      if async.ch_len (flushCh c) =? 0 then
        if async.ch_closed (flushCh c) then panics c
        else if async.ch_len (flushCh c) <? async.flush_capacity then
          Some (set_flushCh (async.mkChan (async.ch_len (flushCh c) + 1) false) c')
        else Some c'
      else Some c'
  | WUnlock p k Wrote => unlock i (finish p k None) c
  | WUnlock p k Refused => unlock i (finish p k (Some ConnectionClosed)) c
  | WUnlock p k (Failed e) => unlock i (WFailed p k e) c
  | WFailed p k e =>
      if closed c then Some (goto i (finish p k (Some ConnectionClosed)) c)
      else
        match k with
        | Caller true => Some (goto i (CSwap (ByError (Some p) e)) c)
        | Caller false => Some (goto i (Returned (Some p) (Some e)) c)
        | StreamEnd _ _ => None (* [close] has set [closed] before it writes *)
        end
  | _ => None
  end.

(** [flush] and what [Flush] and [flushLoop] do with its error. *)
Definition flush_step (i : nat) (q : pc) (c : Conn) : option Conn :=
  match q with
  | FLock => lock i FCheck c
  | FCheck =>
      Some (goto i (if closed c then FUnlock (Some ConnectionClosed)
                    else if Buffered (out c) >? 0 then FDeadline else FUnlock None) c)
  | FDeadline =>
      deadline false c (λ err c, goto i (match err with Some e => FUnlock (Some e) | None => FFlush end) c)
  | FFlush => call Writer_Flush c (λ err c, goto i (FUnlock err) c)
  | FUnlock None => unlock i (Returned None None) c
  | FUnlock (Some e) => unlock i (CSwap (ByError None e)) c
  | _ => None
  end.

(** [close], and the closing of the socket in [Close] and [closeWithError]. *)
Definition close_step (i : nat) (q : pc) (c : Conn) : option Conn :=
  match q with
  | CSwap cl =>
      if closed c then Some (goto i (close_result cl false) c)
      else Some (goto i (CLock cl) (set_closed true c))
  | CLock cl => lock i (CChannels cl) c
  | CChannels cl =>
      if closeCh c || async.ch_closed (flushCh c) then panics c
      else Some (goto i (CUnlock cl)
             (set_flushCh (async.mkChan (async.ch_len (flushCh c)) true) (set_closeCh true c)))
  | CUnlock cl => unlock i (CPast cl) c
  | CPast cl => deadline true c (λ _ c, goto i (CWait cl) c)
  | CWait cl => Some (goto i (CEmpty cl) c)
  | CEmpty cl => deadline false c (λ _ c, goto i (CStreams cl (ends c)) c)
  | CStreams cl [] => Some (goto i (CLockOut cl) c)
  | CStreams cl (p :: rest) => Some (goto i (WGuard p (StreamEnd cl rest)) c)
  | CLockOut cl => lock i (CBuffered cl) c
  | CBuffered cl => Some (goto i (if Buffered (out c) >? 0 then CDeadline cl else CUnlockOut cl) c)
  | CDeadline cl => deadline false c (λ _ c, goto i (CFlush cl) c)
  | CFlush cl => call Writer_Flush c (λ _ c, goto i (CReset cl) c)
  | CReset cl => deadline false c (λ _ c, goto i (CUnlockOut cl) c)
  | CUnlockOut cl => unlock i (match cl with ByRaw => close_result cl true | _ => CClose cl end) c
  | CClose cl => Some (goto i (close_result cl true) (set_out (set_conn (conn_Close (conn (out c))) (out c)) c))
  | _ => None
  end.

Definition move (i : nat) (q : pc) (c : Conn) : option Conn :=
  match q with
  | WGuard _ _ | WLock _ _ | WCheck _ _ | WDeadline _ _ | WHeader _ _ | WContent _ _ | WSignal _ _
  | WUnlock _ _ _ | WFailed _ _ _ => write_step i q c
  | FLock | FCheck | FDeadline | FFlush | FUnlock _ => flush_step i q c
  | Returned _ _ => None
  | _ => close_step i q c
  end.

(** One step of goroutine [i]: none when it waits for the mutex or has returned. *)
Definition advance (i : nat) (c : Conn) : option Conn :=
  if panicked c then None
  else match gs c !! i with Some q => move i q c | None => None end.

Definition step (c c' : Conn) : Prop := ∃ i, advance i c = Some c'.

(** What starts from outside: a call, the flush loop receiving a signal, streams
    being opened and closed. *)
Inductive start : pc → Prop :=
  | start_write p b : start (WGuard p (Caller b))
  | start_flush : start FLock
  | start_close : start (CSwap ByClose)
  | start_raw : start (CSwap ByRaw)
  | start_error e : start (CSwap (ByError None e)).

Inductive event : Conn → Conn → Prop :=
  | event_call c q : start q → event c (set_gs (gs c ++ [q]) c)
  | event_receive c :
      0 < async.ch_len (flushCh c) →
      event c (set_gs (gs c ++ [FLock])
        (set_flushCh (async.mkChan (async.ch_len (flushCh c) - 1) (async.ch_closed (flushCh c))) c))
  | event_streams c ps : event c (set_ends ps c).

Definition any_step (c c' : Conn) : Prop := step c c' ∨ event c c'.
Definition reachable (w : WConn) (c : Conn) : Prop := rtc any_step (opened w) c.

(** ** The invariant *)

(** Between [c.Lock()] and [c.Unlock()]. *)
Definition in_section (q : pc) : bool :=
  match q with
  | WCheck _ _ | WDeadline _ _ | WHeader _ _ | WContent _ _ | WSignal _ _ | WUnlock _ _ _
  | FCheck | FDeadline | FFlush | FUnlock _ | CChannels _ | CUnlock _
  | CBuffered _ | CDeadline _ | CFlush _ | CReset _ | CUnlockOut _ => true
  | _ => false
  end.

(** Having found the connection open, and not failed since. *)
Definition past_check (q : pc) : bool :=
  match q with
  | WDeadline _ _ | WHeader _ _ | WContent _ _ | WSignal _ _ | WUnlock _ _ Wrote | FDeadline | FFlush => true
  | _ => false
  end.

(** The goroutine that closes, before and after it closes the channels. *)
Definition before_channels (q : pc) : bool := match q with CLock _ | CChannels _ => true | _ => false end.

Definition closing_write (k : kont) : bool := match k with StreamEnd _ _ => true | Caller _ => false end.

Definition after_channels (q : pc) : bool :=
  match q with
  | CUnlock _ | CPast _ | CWait _ | CEmpty _ | CStreams _ _ | CLockOut _ | CBuffered _ | CDeadline _
  | CFlush _ | CReset _ | CUnlockOut _ | CClose _ => true
  | WGuard _ k | WLock _ k | WCheck _ k | WDeadline _ k | WHeader _ k | WContent _ k | WSignal _ k
  | WUnlock _ k _ | WFailed _ k _ => closing_write k
  | _ => false
  end.

Definition winner (q : pc) : nat := if before_channels q || after_channels q then 1 else 0.
Definition flag (b : bool) : nat := if b then 1 else 0.
Definition winners (c : Conn) : nat := sum_list_with winner (gs c).

(** The packet of a goroutine that has handed its header to the writer with
    success, and one that it may have handed over. *)
Definition accepted_by (q : pc) : option Packet :=
  match q with
  | WContent p (Caller _) | WSignal p (Caller _) | WUnlock p (Caller _) Wrote | Returned (Some p) None => Some p
  | _ => None
  end.

Definition by_packet (cl : closing) : option Packet :=
  match cl with ByError w _ => w | _ => None end.

Definition about (q : pc) : option Packet :=
  match q with
  | WContent p k | WSignal p k | WUnlock p k _ | WFailed p k _ =>
      match k with Caller _ => Some p | StreamEnd cl _ => by_packet cl end
  | WGuard _ (StreamEnd cl _) | WLock _ (StreamEnd cl _) | WCheck _ (StreamEnd cl _)
  | WDeadline _ (StreamEnd cl _) | WHeader _ (StreamEnd cl _) => by_packet cl
  | CSwap cl | CLock cl | CChannels cl | CUnlock cl | CPast cl | CWait cl | CEmpty cl | CStreams cl _
  | CLockOut cl | CBuffered cl | CDeadline cl | CFlush cl | CReset cl | CUnlockOut cl | CClose cl => by_packet cl
  | Returned w _ => w
  | _ => None
  end.

(** Writes of callers that have not reached the writer. *)
Definition unwritten (q : pc) : bool :=
  match q with
  | WGuard _ k | WLock _ k | WCheck _ k | WDeadline _ k | WHeader _ k => negb (closing_write k)
  | _ => false
  end.

(** A packet that has passed the checks of [writePacket]. *)
Definition checked (p : Packet) : Prop :=
  ContentLength (Metadata p) = len (Bytes (Content p)).

Definition packet_of (q : pc) : option Packet :=
  match q with
  | WLock p _ | WCheck p _ | WDeadline p _ | WHeader p _ | WContent p _ | WSignal p _ => Some p
  | _ => None
  end.

Definition chan_closed (c : Conn) : bool := async.ch_closed (flushCh c).

Record pc_ok (c : Conn) (i : nat) (q : pc) : Prop := {
  pc_open : past_check q = true → chan_closed c = false ∧ after_channels q = false;
  pc_before : before_channels q = true → chan_closed c = false;
  pc_after : after_channels q = true → chan_closed c = true;
  pc_won : winner q = 1%nat → closed c = true;
  pc_accepted p : accepted_by q = Some p → (i, p) ∈ log c;
  pc_unwritten : unwritten q = true → i ∉ (log c).*1;
  pc_checked p : packet_of q = Some p → checked p;
}.

(** What the goroutine at a place has still to hand to the writer. *)
Definition owed (q : pc) : list byte :=
  match q with WContent p _ => Bytes (Content p) | _ => [] end.

(** What the packets of the log look like on the wire, one after the other. *)
Definition frames (l : list (nat * Packet)) : list byte := concat (frame <$> l.*2).

(** While the writer works, it was given the frames of the log, but for what is
    still owed; once it has failed, nothing else is on the wire. *)
Definition data_ok (c : Conn) : Prop :=
  match werr (writer (out c)) with
  | None => frames (log c) = stream_out (out c) ++ concat (owed <$> gs c)
  | Some _ => wire (conn (out c)) `prefix_of` frames (log c)
  end.

Record shared_ok (c : Conn) : Prop := {
  sh_panic : panicked c = false;
  sh_writer : writer_ok (out c);
  sh_channels : closeCh c = chan_closed c;
  sh_closed : chan_closed c = true → closed c = true;
  sh_expired : expired c = true → chan_closed c = true;
  sh_len : 0 ≤ async.ch_len (flushCh c) ≤ 1;
}.

Record conn_ok (c : Conn) : Prop := {
  ok_mutex i q : gs c !! i = Some q → in_section q = true → mu c = Some i;
  ok_holder i : mu c = Some i → ∃ q, gs c !! i = Some q ∧ in_section q = true;
  ok_shared : shared_ok c;
  ok_winner : (winners c ≤ flag (closed c))%nat;
  ok_pc i q : gs c !! i = Some q → pc_ok c i q;
  ok_once : NoDup (log c).*1;
  ok_logged i p : (i, p) ∈ log c → ∃ q, gs c !! i = Some q ∧ about q = Some p;
  ok_data : data_ok c;
}.

(** A socket nothing was written to. *)
Definition fresh (w : WConn) : Prop := wire w = [] ∧ conn_closed w = false.

Lemma opened_ok w : fresh w → conn_ok (opened w).
Proof.
  intros [Hw _]. split; try done; [|by intros i p Hp%not_elem_of_nil|].
  - simpl. constructor.
  - unfold data_ok, stream_out. simpl. by rewrite Hw.
Qed.

(** *** What a goroutine holds, others do not disturb *)

Lemma owed_section q : in_section q = false → owed q = [].
Proof. by destruct q. Qed.

Lemma past_section q : past_check q = true → in_section q = true.
Proof. by destruct q. Qed.

Lemma before_winner q : before_channels q = true → winner q = 1%nat.
Proof. by destruct q. Qed.

Lemma one_winner c i j q q' :
  conn_ok c → gs c !! i = Some q → gs c !! j = Some q' → i ≠ j → winner q = 1%nat → winner q' = 1%nat → False.
Proof.
  intros Hc Hi Hj Hne Hq Hq'. pose proof (sum_two winner (gs c) i q j q' Hi Hj Hne) as Hs.
  pose proof (ok_winner c Hc) as Hw. unfold winners in Hw. destruct (closed c); simpl in Hw; lia.
Qed.

Lemma concat_empty {A} (ls : list (list A)) : Forall (λ l, l = []) ls → concat ls = [].
Proof. by induction 1 as [|l ls -> _ IH]. Qed.

Lemma owed_holder c i q :
  conn_ok c → gs c !! i = Some q → in_section q = true →
  ∀ q', concat (owed <$> <[i := q']> (gs c)) = owed q'.
Proof.
  intros Hc Hi Hq q'. pose proof (ok_mutex c Hc i q Hi Hq) as Hm.
  assert (∀ j x, gs c !! j = Some x → j ≠ i → owed x = []) as Ho.
  { intros j x Hj Hne. apply owed_section. destruct (in_section x) eqn:E; [|done].
    pose proof (ok_mutex c Hc j x Hj E). congruence. }
  clear Hc Hm Hq. revert i Hi Ho. induction (gs c) as [|x l IH]; intros i Hi Ho; [done|].
  destruct i as [|i]; simpl in *.
  - rewrite concat_empty; [by rewrite app_nil_r|].
    apply Forall_fmap, Forall_lookup. intros j y Hj. by apply (Ho (S j) y).
  - rewrite (Ho 0%nat x) by done. simpl. apply IH; [done|]. intros j y Hj Hne. apply (Ho (S j) y); [done|lia].
Qed.

Lemma pc_ok_other c c' i j q q' :
  conn_ok c → gs c !! i = Some q → gs c !! j = Some q' → i ≠ j → pc_ok c j q' →
  (closed c = true → closed c' = true) →
  (chan_closed c' = chan_closed c ∨
   in_section q = true ∧ before_channels q = true ∧ chan_closed c' = true) →
  (log c' = log c ∨ ∃ p, log c' = log c ++ [(i, p)]) →
  pc_ok c' j q'.
Proof.
  intros Hc Hi Hj Hne [] Hcl Hch Hlog. split; try done.
  - intros Hp. destruct (pc_open0 Hp) as [Ho ?]. split; [|done].
    destruct Hch as [->|(Hs&_&_)]; [done|]. pose proof (ok_mutex c Hc i q Hi Hs).
    pose proof (ok_mutex c Hc j q' Hj (past_section _ Hp)). congruence.
  - intros Hb. destruct Hch as [->|(_&Hb'&_)]; [auto|].
    exfalso. by eapply (one_winner c i j); eauto using before_winner.
  - intros Ha. destruct Hch as [->|(_&_&->)]; auto.
  - auto.
  - intros p Hp. specialize (pc_accepted0 p Hp).
    destruct Hlog as [->|[p' ->]]; [done|]. apply elem_of_app. by left.
  - intros Hu. specialize (pc_unwritten0 Hu). destruct Hlog as [->|[p' ->]]; [done|].
    rewrite fmap_app, elem_of_app. simpl. rewrite list_elem_of_singleton. intros [?| ->]; done.
Qed.

(** Goroutine [i] moves from [q] to [q']. *)
Lemma move_ok i q q' c c' :
  conn_ok c → gs c !! i = Some q → gs c' = <[i := q']> (gs c) → shared_ok c' →
  (mu c' = mu c ∧ in_section q' = in_section q ∨
   mu c = None ∧ mu c' = Some i ∧ in_section q' = true ∨
   mu c' = None ∧ in_section q = true ∧ in_section q' = false) →
  (winner q' + flag (closed c) ≤ winner q + flag (closed c'))%nat →
  (closed c = true → closed c' = true) →
  (chan_closed c' = chan_closed c ∨
   in_section q = true ∧ before_channels q = true ∧ chan_closed c' = true) →
  (log c' = log c ∧ (∀ p, about q = Some p → about q' = Some p) ∨
   ∃ p, log c' = log c ++ [(i, p)] ∧ unwritten q = true ∧ about q' = Some p) →
  pc_ok c' i q' → data_ok c' → conn_ok c'.
Proof.
  intros Hc Hi Hgs Hsh Hmu Hwin Hcl Hch Hlog Hpc Hdata.
  assert (i < length (gs c))%nat as Hlt by (by eapply lookup_lt_Some).
  split; try done; rewrite ?Hgs.
  - intros j x. rewrite list_lookup_insert_Some. intros [(<-&<-&_)|[Hne Hj]] Hx.
    + pose proof (ok_mutex c Hc i q Hi) as Hm. destruct Hmu as [[-> E]|[(_&->&_)|(_&_&E)]]; try congruence.
      apply Hm. congruence.
    + pose proof (ok_mutex c Hc j x Hj Hx) as Hm. destruct Hmu as [[-> _]|[(E&_&_)|(_&E&_)]]; try congruence.
      pose proof (ok_mutex c Hc i q Hi E). congruence.
  - intros j Hj. destruct (decide (i = j)) as [<-|Hne].
    + exists q'. rewrite list_lookup_insert_eq by done. split; [done|].
      destruct Hmu as [[E1 E2]|[(_&_&E)|(E&_&_)]]; [|congruence..].
      destruct (ok_holder c Hc i) as (q0&E0&?); [congruence|]. congruence.
    + rewrite list_lookup_insert_ne by done. apply (ok_holder c Hc).
      destruct Hmu as [[E1 E2]|[(E1&E2&_)|(E&_&_)]]; congruence.
  - unfold winners. rewrite Hgs. pose proof (sum_insert winner _ i q q' Hi) as Hs.
    pose proof (ok_winner c Hc) as Hw. unfold winners in Hw. lia.
  - intros j x. rewrite list_lookup_insert_Some. intros [(<-&<-&_)|[Hne Hj]]; [done|].
    apply (pc_ok_other c c' i j q x); [done..|by apply (ok_pc c Hc)|done|done|].
    destruct Hlog as [[-> _]|(p&->&_)]; eauto.
  - destruct Hlog as [[-> _]|(p&->&Hu&_)]; [apply Hc|]. rewrite fmap_app.
    apply list.NoDup_app. split; [apply Hc|]. split; [|apply NoDup_singleton].
    intros j Hj E%list_elem_of_singleton. subst j. by apply (pc_unwritten _ _ _ (ok_pc c Hc i q Hi) Hu).
  - intros j p Hj. destruct (decide (i = j)) as [<-|Hne].
    + exists q'. rewrite list_lookup_insert_eq by done. split; [done|].
      destruct Hlog as [[E Hab]|(p'&E&Hu&Hab)]; rewrite E in Hj.
      * destruct (ok_logged c Hc i p Hj) as (x&Hx&?). apply Hab. congruence.
      * apply elem_of_app in Hj as [Hj|[= ->]%list_elem_of_singleton]; [|done].
        exfalso. apply (pc_unwritten _ _ _ (ok_pc c Hc i q Hi) Hu).
        apply list_elem_of_fmap. by exists (i, p).
    + rewrite list_lookup_insert_ne by done. apply (ok_logged c Hc).
      destruct Hlog as [[E _]|(p'&E&_)]; rewrite E in Hj; [done|].
      apply elem_of_app in Hj as [Hj|[= -> _]%list_elem_of_singleton]; done.
Qed.

(** A move that gives the writer nothing. *)
Lemma data_same i q q' c c' :
  conn_ok c → gs c !! i = Some q → gs c' = <[i := q']> (gs c) → log c' = log c →
  writer (out c') = writer (out c) → wire (conn (out c')) = wire (conn (out c)) → owed q' = owed q →
  data_ok c'.
Proof.
  intros Hc Hi Hgs Hl Hw Hwire Ho. pose proof (ok_data c Hc) as Hd. unfold data_ok, stream_out in *.
  rewrite Hl, Hw, Hwire, Hgs. rewrite list_fmap_insert, list_insert_id; [done|].
  by rewrite list_lookup_fmap, Hi, Ho.
Qed.

(** *** Calls on the writer *)

(** The writer took [bs], or it has failed and the wire has part of it at most. *)
Definition took (bs : list byte) (r : option Frisbee.error) (o o' : Out) : Prop :=
  match r with
  | None => werr (writer o) = None ∧ werr (writer o') = None ∧ stream_out o' = stream_out o ++ bs
  | Some e => werr (writer o') = Some e ∧
      wire (conn o') `prefix_of` match werr (writer o) with None => stream_out o ++ bs | Some _ => wire (conn o) end
  end.

Lemma Write_took p o : writer_ok o →
  ∃ n r o', Writer_Write p o = (Ret (n, r), o') ∧ writer_ok o' ∧ took p r o o' ∧
    (healthy (conn o) → werr (writer o) = None → r = None ∧ healthy (conn o')).
Proof.
  intros Ho. unfold took. destruct (werr (writer o)) as [e|] eqn:He.
  { exists 0, (Some e), o. split_and!; [by apply Writer_Write_sticky|done..]. }
  destruct (Writer_Write_spec p o Ho He) as (n&r&o'&->&H). exists n, r, o'.
  destruct r as [e|]; [destruct H as (?&?&?&?&?)|destruct H as [_ Hacc]]; [by split_and!|].
  pose proof (accepted_healthy _ _ _ Hacc). destruct Hacc as (?&?&?&?). split_and!; try done. auto.
Qed.

Lemma Flush_took o : writer_ok o →
  ∃ r o', Writer_Flush o = (Ret r, o') ∧ writer_ok o' ∧ took [] r o o' ∧
    (healthy (conn o) → werr (writer o) = None → r = None ∧ healthy (conn o') ∧ wbuf (writer o') = []).
Proof.
  intros Ho. unfold took. destruct (werr (writer o)) as [e|] eqn:He.
  { exists (Some e), o. split_and!; try done. unfold Writer_Flush.
    rewrite (bind_Ret get _ o o o) by done. by rewrite He. }
  destruct (Writer_Flush_spec o Ho He) as (r&o'&->&H). exists r, o'.
  rewrite app_nil_r. destruct r as [e|]; [by destruct H as (?&?&?&?&?); split_and!|].
  destruct H as [Hacc ?]. pose proof (accepted_healthy _ _ _ Hacc).
  destruct Hacc as (Hs&?&?&?). rewrite app_nil_r in Hs. split_and!; try done. auto.
Qed.

(** The deadline changes what the socket does, not what a call may do. *)
Lemma deadline_call_took {A} late (m : M Out A) bs (err : A → option Frisbee.error) o :
  (∀ o, writer_ok o → ∃ a o', m o = (Ret a, o') ∧ writer_ok o' ∧ took bs (err a) o o') → writer_ok o →
  ∃ a o', deadline_call late m o = (Ret a, o') ∧ writer_ok o' ∧ took bs (err a) o o'.
Proof.
  intros Hm Ho. unfold deadline_call. destruct late; [|by apply Hm].
  set (o0 := mkOut _ _). destruct (Hm o0) as (a&o'&->&Hok&Ht); [done|].
  eexists a, _. split; [done|]. split; [done|]. unfold took, stream_out in *. simpl in *. done.
Qed.

(** The holder of the mutex hands [bs] to the writer. *)
Lemma data_took i q q' bs added rest r c c' :
  conn_ok c → gs c !! i = Some q → in_section q = true → gs c' = <[i := q']> (gs c) →
  took bs r (out c) (out c') → frames (log c') = frames (log c) ++ added → owed q ++ added = bs ++ rest →
  (r = None → rest = owed q') → data_ok c'.
Proof.
  intros Hc Hi Hq Hgs Ht Hl Hb Hr. pose proof (ok_data c Hc) as Hd. pose proof (owed_holder c i q Hc Hi Hq) as Ho.
  unfold data_ok, took in *. rewrite Hgs, Ho, Hl. specialize (Ho q). rewrite list_insert_id in Ho by done.
  rewrite Ho in Hd. destruct r as [e|].
  - destruct Ht as [-> Hp]. destruct (werr (writer (out c))).
    + etrans; [exact Hp|]. by apply prefix_app_r.
    + etrans; [exact Hp|]. rewrite Hd, <- app_assoc, Hb, app_assoc. by apply prefix_app_r.
  - destruct Ht as (E&->&Hs). rewrite E in Hd. rewrite Hd, Hs, <- !app_assoc. by rewrite Hb, Hr.
Qed.

Lemma frames_snoc l x : frames (l ++ [x]) = frames l ++ frame x.2.
Proof. unfold frames. rewrite !fmap_app, concat_app. simpl. by rewrite app_nil_r. Qed.

(** *** Steps that give the writer nothing and close nothing *)

Record quiet (c c' : Conn) : Prop := {
  qu_writer : writer (out c') = writer (out c);
  qu_wire : wire (conn (out c')) = wire (conn (out c));
  qu_chan : chan_closed c' = chan_closed c;
  qu_closeCh : closeCh c' = closeCh c;
  qu_closed : closed c' = closed c;
  qu_log : log c' = log c;
  qu_panicked : panicked c' = panicked c;
  qu_len : 0 ≤ async.ch_len (flushCh c') ≤ 1;
  qu_expired : expired c' = true → chan_closed c = true;
}.

(** The places [q] and [q'] of a goroutine follow each other. *)
Record follows (c : Conn) (q q' : pc) : Prop := {
  fo_past : past_check q' = true → past_check q = true ∨ closed c = false;
  fo_before : before_channels q' = true → before_channels q = true;
  fo_after : after_channels q' = true → after_channels q = true;
  fo_outside : past_check q' = true → after_channels q' = true → past_check q = true;
  fo_accepted p : accepted_by q' = Some p → accepted_by q = Some p;
  fo_unwritten : unwritten q' = true → unwritten q = true;
  fo_packet p : packet_of q' = Some p → packet_of q = Some p ∨ checked p;
  fo_about p : about q = Some p → about q' = Some p;
}.

Lemma follows_pc c c' i q q' :
  conn_ok c → gs c !! i = Some q → chan_closed c' = chan_closed c → closed c' = closed c → log c' = log c →
  follows c q q' → pc_ok c' i q'.
Proof.
  intros Hc Hi Hch Hcl Hl []. destruct (ok_pc c Hc i q Hi). pose proof (sh_closed c (ok_shared c Hc)) as Hsc.
  split; rewrite ?Hch, ?Hcl, ?Hl; auto.
  - intros Hp. split.
    + destruct (fo_past0 Hp) as [H|H]; [by apply pc_open0|]. destruct (chan_closed c); [|done].
      rewrite Hsc in H; done.
    + destruct (after_channels q') eqn:Ha; [|done]. destruct (pc_open0 (fo_outside0 Hp eq_refl)) as [_ E].
      rewrite fo_after0 in E; done.
  - intros Hw. apply pc_won0. unfold winner in *. destruct (before_channels q') eqn:Hb; [by rewrite fo_before0|].
    destruct (after_channels q') eqn:Ha; [|done]. rewrite (fo_after0 eq_refl). by rewrite orb_true_r.
  - intros p Hp. destruct (fo_packet0 p Hp); auto.
Qed.

Lemma follows_winner c q q' : follows c q q' → (winner q' ≤ winner q)%nat.
Proof.
  intros []. unfold winner. destruct (before_channels q') eqn:Hb; [by rewrite fo_before0|].
  destruct (after_channels q') eqn:Ha; simpl; [rewrite (fo_after0 eq_refl), orb_true_r|]; lia.
Qed.

Lemma quiet_ok i q q' c c' :
  conn_ok c → gs c !! i = Some q → gs c' = <[i := q']> (gs c) → quiet c c' →
  (mu c' = mu c ∧ in_section q' = in_section q ∨
   mu c = None ∧ mu c' = Some i ∧ in_section q' = true ∨
   mu c' = None ∧ in_section q = true ∧ in_section q' = false) →
  follows c q q' → owed q' = owed q → conn_ok c'.
Proof.
  intros Hc Hi Hgs [] Hmu Hf Ho. pose proof (follows_winner c q q' Hf). destruct (ok_shared c Hc).
  apply (move_ok i q q' c); try done.
  - split; try congruence; rewrite ?qu_chan0, ?qu_closed0; auto.
    unfold writer_ok, Buffered in *. by rewrite qu_writer0.
  - rewrite qu_closed0. lia.
  - by rewrite qu_closed0.
  - by left.
  - left. split; [done|apply Hf].
  - by apply (follows_pc c c' i q q').
  - by apply (data_same i q q' c).
Qed.

(** A step that keeps the mutex, takes it, or gives it back. *)
Ltac quietly :=
  eapply quiet_ok; [eassumption|eassumption|reflexivity|..]; simpl; auto;
  [match goal with H : conn_ok _ |- _ => destruct (ok_shared _ H) end; by split|..];
  try (split; simpl; by try done; auto).

(** Steps that set a deadline. *)
Lemma deadline_ok past i q (f : option Frisbee.error → Conn → pc) c c' :
  conn_ok c → gs c !! i = Some q → deadline past c (λ err c, goto i (f err c) c) = Some c' →
  (past = true → chan_closed c = true) →
  (∀ err c1, in_section (f err c1) = in_section q ∧ follows c q (f err c1) ∧ owed (f err c1) = owed q) →
  conn_ok c'.
Proof.
  intros Hc Hi Hd Hp Hf. destruct (ok_shared c Hc). unfold deadline, zoom in Hd.
  destruct (conn_SetDeadline_cases (conn (out c))) as (r&ds&E&_). rewrite E in Hd.
  destruct r as [e|]; injection Hd as <-; edestruct Hf as (?&?&?);
    (eapply quiet_ok; [done|done|reflexivity|split; simpl; by auto|by left|done|done]).
Qed.

(** Steps that call the writer. *)
Lemma call_took {A} (m : M Out A) bs (err : A → option Frisbee.error) k c c' :
  conn_ok c →
  (∀ o, writer_ok o → ∃ a o', m o = (Ret a, o') ∧ writer_ok o' ∧ took bs (err a) o o') →
  call m c k = Some c' → ∃ a o', c' = k a (set_out o' c) ∧ writer_ok o' ∧ took bs (err a) (out c) o'.
Proof.
  intros Hc Hm Hk. unfold call in Hk. destruct (ok_shared c Hc).
  destruct (deadline_call_took (expired c) m bs err (out c) Hm) as (a&o'&E&?&?); [done|].
  rewrite E in Hk. injection Hk as <-. by exists a, o'.
Qed.

Lemma shared_out c c' :
  shared_ok c → writer_ok (out c') → closed c' = closed c → flushCh c' = flushCh c → closeCh c' = closeCh c →
  expired c' = expired c → panicked c' = panicked c → shared_ok c'.
Proof. intros [] ? E1 E2 E3 E4 E5. split; unfold chan_closed in *; rewrite ?E1, ?E2, ?E3, ?E4, ?E5; auto. Qed.

Lemma handed_ok i q q' bs rest r c o' :
  conn_ok c → gs c !! i = Some q → in_section q = true → in_section q' = true → writer_ok o' →
  took bs r (out c) o' → owed q = bs ++ rest → (r = None → rest = owed q') → follows c q q' →
  conn_ok (goto i q' (set_out o' c)).
Proof.
  intros Hc Hi Hq Hq' Ho Ht Hb Hr Hf. pose proof (follows_winner c q q' Hf).
  apply (move_ok i q q' c); try done; simpl.
  - by apply (shared_out c); [apply Hc|..].
  - left. by rewrite Hq, Hq'.
  - lia.
  - by left.
  - left. split; [done|apply Hf].
  - by apply (follows_pc c _ i q q').
  - apply (data_took i q q' bs [] rest r c); try done; simpl; by rewrite ?app_nil_r.
Qed.

Lemma Write_calls p o : writer_ok o →
  ∃ a o', Writer_Write p o = (Ret a, o') ∧ writer_ok o' ∧ took p a.2 o o'.
Proof. intros Ho. destruct (Write_took p o Ho) as (n&r&o'&?&?&?&_). by exists (n, r), o'. Qed.

Lemma Flush_calls o : writer_ok o →
  ∃ a o', Writer_Flush o = (Ret a, o') ∧ writer_ok o' ∧ took [] a o o'.
Proof. intros Ho. destruct (Flush_took o Ho) as (r&o'&?&?&?&_). by exists r, o'. Qed.

(** The step that puts a packet into the log. *)
Lemma header_ok i p k c c' :
  conn_ok c → gs c !! i = Some (WHeader p k) → write_step i (WHeader p k) c = Some c' → conn_ok c'.
Proof.
  intros Hc Hi Hst. pose proof (ok_pc c Hc i _ Hi) as [Hop _ _ _ _ Hun Hck]. simpl in *.
  destruct Hop as [Hch Hk]; [done|]. destruct k as [b|]; [|done]. specialize (Hck p eq_refl).
  apply (call_took _ (encodedMetadata p) snd) in Hst as ([n r]&o'&->&Ho&Ht); [|done|apply Write_calls].
  set (q' := match r with Some e => WUnlock p (Caller b) (Failed e) | None => WContent p (Caller b) end).
  apply (move_ok i (WHeader p (Caller b)) q' c); try done; simpl.
  - by apply (shared_out c); [apply Hc|..].
  - left. by destruct r.
  - by destruct r.
  - by left.
  - right. exists p. by destruct r.
  - assert ((i, p) ∈ log c ++ [(i, p)]) by (apply elem_of_app; right; by apply list_elem_of_singleton).
    destruct r as [e|]; split; simpl; try done; congruence.
  - apply (data_took i (WHeader p (Caller b)) q' (encodedMetadata p) (frame p) (Bytes (Content p)) r c); try done.
    + apply frames_snoc.
    + by intros ->.
Qed.


Lemma write_step_ok i q c c' :
  conn_ok c → gs c !! i = Some q → write_step i q c = Some c' → conn_ok c'.
Proof.
  intros Hc Hi Hst. pose proof (ok_pc c Hc i q Hi) as [Hop _ Haf _ _ _ Hck].
  destruct q as [p k|p k|p k|p k|p k|p k|p k|p k o|p k e| | | | | | | | | | | | | | | | | | | | |];
    try done; simpl in Hst, Hop, Haf, Hck.
  - destruct (Z.eqb_spec (ContentLength (Metadata p)) (Len (Content p))) as [E|E]; cbn [negb] in Hst.
    + destruct (exceeds_max _); injection Hst as <-.
      * destruct k; quietly.
      * quietly. split; try done. simpl. intros p' [= ->]. right. unfold checked. by rewrite <- Len_Bytes.
    + injection Hst as <-. destruct k; quietly.
  - unfold lock in Hst. destruct (mu c) eqn:Hm; [done|]. injection Hst as <-. quietly.
  - injection Hst as <-. destruct (closed c) eqn:Hcl; destruct k; quietly.
    pose proof (sh_closed c (ok_shared c Hc) (Haf eq_refl)). congruence.
  - destruct Hop as [Hch Hk]; [done|]. destruct k as [b|]; [|done].
    eapply (deadline_ok false i); [done|done|exact Hst|done|]. intros [e|] c1; split_and!; try done; split; simpl; try done; auto.
  - by eapply header_ok.
  - destruct Hop as [Hch Hk]; [done|]. destruct k as [b|]; [|done]. specialize (Hck p eq_refl).
    destruct (Z.eqb_spec (ContentLength (Metadata p)) 0) as [E|E].
    + injection Hst as <-. quietly. unfold checked in Hck. rewrite (len_zero_inv (Bytes (Content p))) by lia. done.
    + rewrite Hck, sub_all in Hst by done.
      apply (call_took _ (Bytes (Content p)) snd) in Hst as ([n r]&o'&->&Ho&Ht); [|done|apply Write_calls].
      simpl. eapply (handed_ok _ _ _ _ [] r); [done|done|done|by destruct r|done|done|by rewrite app_nil_r|by intros ->|].
      destruct r; split; simpl; try done; auto.
  - destruct Hop as [Hch Hk]; [done|]. destruct k as [b|]; [|done].
    destruct (ok_shared c Hc) as [? ? ? ? ? Hlen]. pose proof Hch as Hch'. unfold chan_closed in Hch'. rewrite Hch' in Hst.
    repeat case_match; simplify_eq/=; (eapply quiet_ok; [done|done|reflexivity|..]; simpl; auto;
      [split; simpl; unfold chan_closed; simpl; auto; lia|split; simpl; by auto]).
  - destruct o; injection Hst as <-; destruct k; quietly.
  - destruct (closed c) eqn:Hcl; [injection Hst as <-; destruct k; quietly|].
    destruct k as [[]|]; [injection Hst as <-; quietly..|done].
Qed.

Lemma flush_step_ok i q c c' :
  conn_ok c → gs c !! i = Some q → flush_step i q c = Some c' → conn_ok c'.
Proof.
  intros Hc Hi Hst. destruct q as [ | | | | | | | | | | | | |r| | | | | | | | | | | | | | | |]; try done; simpl in Hst.
  - unfold lock in Hst. destruct (mu c) eqn:Hm; [done|]. injection Hst as <-. quietly.
  - injection Hst as <-. destruct (closed c) eqn:Hcl; [quietly|]. destruct (_ >? 0); quietly.
  - eapply (deadline_ok false i); [done|done|exact Hst|done|]. intros [e|] c1; split_and!; try done; split; simpl; auto.
  - apply (call_took _ [] id) in Hst as (r&o'&->&Ho&Ht); [|done|apply Flush_calls].
    eapply (handed_ok _ _ _ [] [] r); try done.
  - destruct r; injection Hst as <-; quietly.
Qed.

(** The winner, and its closing of the channels. *)
Lemma swap_ok i cl c :
  conn_ok c → gs c !! i = Some (CSwap cl) → closed c = false → conn_ok (goto i (CLock cl) (set_closed true c)).
Proof.
  intros Hc Hi Hcl. destruct (ok_shared c Hc).
  assert (chan_closed c = false) by (destruct (chan_closed c); [by rewrite sh_closed0 in Hcl|done]).
  eapply (move_ok i (CSwap cl) (CLock cl) c); try done; simpl; auto.
  - by rewrite Hcl.
  - by apply (data_same i (CSwap cl) (CLock cl) c).
Qed.

Lemma channels_ok i cl c c' :
  conn_ok c → gs c !! i = Some (CChannels cl) → close_step i (CChannels cl) c = Some c' → conn_ok c'.
Proof.
  intros Hc Hi Hst. pose proof (ok_pc c Hc i _ Hi) as [_ Hb _ Hw _ _ _]. specialize (Hb eq_refl).
  specialize (Hw eq_refl). destruct (ok_shared c Hc) as [? ? Hcc ? ? ?]. simpl in Hst. rewrite Hcc in Hst.
  pose proof Hb as Hb'. unfold chan_closed in Hb'. rewrite Hb, Hb' in Hst. injection Hst as <-.
  eapply (move_ok i (CChannels cl) (CUnlock cl) c); try done; simpl; auto.
  by apply (data_same i (CChannels cl) (CUnlock cl) c).
Qed.

Lemma close_step_ok i q c c' :
  conn_ok c → gs c !! i = Some q → close_step i q c = Some c' → conn_ok c'.
Proof.
  intros Hc Hi Hst. pose proof (ok_pc c Hc i q Hi) as [_ _ Haf _ _ _ _].
  destruct q as [ | | | | | | | | | | | | | |cl|cl|cl|cl|cl|cl|cl|cl rest|cl|cl|cl|cl|cl|cl|cl|]; try done; simpl in Hst.
  - destruct (closed c) eqn:Hcl; injection Hst as <-; [destruct cl as [| |[p|] e]; quietly|by apply swap_ok].
  - unfold lock in Hst. destruct (mu c) eqn:Hm; [done|]. injection Hst as <-. quietly.
  - by eapply channels_ok.
  - injection Hst as <-. quietly.
  - eapply (deadline_ok true i); [done|done|exact Hst|auto|]. intros err c1; split_and!; try done; split; simpl; auto.
  - injection Hst as <-. quietly.
  - eapply (deadline_ok false i _ (λ _ c, CStreams cl (ends c))); [done|done|exact Hst|done|].
    intros err c1; split_and!; try done; split; simpl; auto.
  - destruct rest; injection Hst as <-; quietly.
  - unfold lock in Hst. destruct (mu c) eqn:Hm; [done|]. injection Hst as <-. quietly.
  - injection Hst as <-. destruct (_ >? 0); quietly.
  - eapply (deadline_ok false i); [done|done|exact Hst|done|]. intros err c1; split_and!; try done; split; simpl; auto.
  - apply (call_took _ [] id) in Hst as (r&o'&->&Ho&Ht); [|done|apply Flush_calls].
    eapply (handed_ok _ _ _ [] [] r); try done.
  - eapply (deadline_ok false i); [done|done|exact Hst|done|]. intros err c1; split_and!; try done; split; simpl; auto.
  - injection Hst as <-. destruct cl; quietly.
  - injection Hst as <-. destruct cl as [| |[p|] e]; quietly.
Qed.

Lemma writers_step_ok c c' : conn_ok c → step c c' → conn_ok c'.
Proof.
  intros Hc [i Hst]. unfold advance in Hst. destruct (panicked c); [done|].
  destruct (gs c !! i) as [q|] eqn:Hi; [|done]. unfold move in Hst.
  destruct q; eauto using write_step_ok, flush_step_ok, close_step_ok.
Qed.

(** A new goroutine. *)
Lemma spawn_ok c c' q :
  conn_ok c → gs c' = gs c ++ [q] → start q → mu c' = mu c → shared_ok c' → closed c' = closed c →
  chan_closed c' = chan_closed c → log c' = log c → out c' = out c → conn_ok c'.
Proof.
  intros Hc Hgs Hq Hmu Hsh Hcl Hch Hl Ho.
  assert (in_section q = false ∧ winner q = 0%nat ∧ owed q = []) as (Hs&Hw&Hw') by (by destruct Hq).
  split; try done; rewrite ?Hgs, ?Hmu, ?Hl.
  - intros i x [Hi|[_ [_ <-]%list_lookup_singleton_Some]]%lookup_app_Some; [by apply (ok_mutex c Hc)|congruence].
  - intros i (x&Hx&?)%(ok_holder c Hc). exists x. by rewrite (lookup_app_l_Some _ _ _ _ Hx).
  - unfold winners. rewrite Hgs, sum_list_with_app, Hcl. simpl. rewrite Hw.
    pose proof (ok_winner c Hc) as H. unfold winners in H. lia.
  - intros i x [Hi|[Hi [Hi0 <-]%list_lookup_singleton_Some]]%lookup_app_Some.
    { destruct (ok_pc c Hc i x Hi). split; rewrite ?Hch, ?Hcl, ?Hl; auto. }
    assert (length (gs c) ∉ (log c).*1) as Hn.
    { intros ([j p]&E&Hj)%list_elem_of_fmap.
      destruct (ok_logged c Hc _ _ Hj) as (y&Hy%lookup_lt_Some&_). simpl in E. lia. }
    assert (i = length (gs c)) as -> by lia. destruct Hq; split; simpl; try done; intros; by rewrite ?Hl.
  - apply Hc.
  - intros i p (x&Hx&?)%(ok_logged c Hc). exists x. by rewrite (lookup_app_l_Some _ _ _ _ Hx).
  - pose proof (ok_data c Hc) as Hd. unfold data_ok in *. rewrite Ho, Hl, Hgs, fmap_app, concat_app. simpl.
    by rewrite Hw', !app_nil_r.
Qed.

Lemma writers_event_ok c c' : conn_ok c → event c c' → conn_ok c'.
Proof.
  intros Hc Hev. pose proof (ok_shared c Hc) as []. destruct Hev as [c q Hq|c Hn|c ps].
  - by apply (spawn_ok c _ q).
  - apply (spawn_ok c _ FLock); try done; [constructor|]. split; try done. simpl. lia.
  - destruct Hc. split; try done. intros i q Hi. by destruct (ok_pc0 i q Hi).
Qed.

Lemma writers_reachable_ok w c : fresh w → reachable w c → conn_ok c.
Proof.
  intros Hw Hr. pose proof (opened_ok w Hw) as H0. revert H0. unfold reachable in Hr.
  induction Hr as [|c1 c2 c3 [Hst|Hst] _ IH]; [done|..]; intros H0; apply IH;
    [by eapply writers_step_ok|by eapply writers_event_ok].
Qed.

(** *** The log and the wire only grow *)

Definition grows (c c' : Conn) : Prop :=
  log c `prefix_of` log c' ∧ wire (conn (out c)) `prefix_of` wire (conn (out c')).

#[global] Instance grows_preorder : PreOrder grows.
Proof. split; [by intros c|]. intros c1 c2 c3 [? ?] [? ?]. split; by etrans. Qed.

Lemma call_grows {A} (m : M Out A) k c c' :
  conn_ok c → (∀ o, writer_ok o → ∃ r o', m o = (Ret r, o') ∧ writer_ok o' ∧ out_le o o') →
  call m c k = Some c' → (∀ a c1, grows c1 (k a c1)) → grows c c'.
Proof.
  intros Hc Hm Hk Hg. pose proof (sh_writer c (ok_shared c Hc)) as Hw. unfold call, deadline_call in Hk.
  destruct (expired c).
  - set (o0 := mkOut _ _) in Hk. destruct (Hm o0) as (r&o'&E&_&(?&_)); [done|]. rewrite E in Hk.
    injection Hk as <-. etrans; [|apply Hg]. by split.
  - destruct (Hm (out c) Hw) as (r&o'&E&_&(?&_)). rewrite E in Hk.
    injection Hk as <-. etrans; [|apply Hg]. by split.
Qed.

Lemma deadline_grows past c k c' :
  deadline past c k = Some c' → (∀ a c1, grows c1 (k a c1)) → grows c c'.
Proof.
  intros Hd Hg. unfold deadline, zoom in Hd.
  destruct (conn_SetDeadline_cases (conn (out c))) as (r&ds&E&_). rewrite E in Hd.
  destruct r; injection Hd as <-; (etrans; [|apply Hg]); by split.
Qed.

Lemma step_grows c c' : conn_ok c → any_step c c' → grows c c'.
Proof.
  intros Hc [[i Hst]|[]]; [|by split..]. unfold advance in Hst. destruct (panicked c); [done|].
  destruct (gs c !! i) as [q|]; [|done].
  destruct q; simpl in Hst; unfold lock, unlock, panics in Hst; try done;
    repeat first [eapply deadline_grows in Hst; [exact Hst|intros; by split]
      |eapply call_grows in Hst; [exact Hst|done|by eauto using Writer_Write_returns, Writer_Flush_returns|intros [] ?; split; simpl; eauto using prefix_app_r]
      |case_match]; simplify_eq; try by split.
Qed.

Lemma steps_grow c c' : conn_ok c → rtc any_step c c' → grows c c'.
Proof.
  intros Hc Hr. revert Hc. induction Hr as [c|c1 c2 c3 Hst _ IH]; intros Hc; [done|].
  etrans; [by apply step_grows|]. apply IH. destruct Hst; [by eapply writers_step_ok|by eapply writers_event_ok].
Qed.

Lemma wire_frames c : conn_ok c → wire (conn (out c)) `prefix_of` frames (log c).
Proof.
  intros Hc. pose proof (ok_data c Hc) as Hd. unfold data_ok in Hd.
  destruct (werr (writer (out c))); [done|]. rewrite Hd. unfold stream_out. rewrite <- app_assoc.
  by apply prefix_app_r.
Qed.

(** C4: concurrent writes are atomic.  However the goroutines that write, flush
    and close interleave, and however the socket fails: nothing panics (no send
    on a closed channel, no channel closed twice); two goroutines are never both
    inside the mutex; the wire holds a prefix of whole frames, one after the
    other, in the order of the log; each call is in the log once at most, and if
    it has returned nil it is; and what is in the log, or on the wire, stays
    there, new entries coming after the old ones.  So the writes behave as if
    each had been executed at one moment between its call and its return. *)
Theorem writes_atomic (w : WConn) (c c' : Conn) :
  fresh w → reachable w c → rtc any_step c c' →
  panicked c = false ∧
  (∀ i j q q', gs c !! i = Some q → gs c !! j = Some q' → in_section q = true → in_section q' = true → i = j) ∧
  wire (conn (out c)) `prefix_of` frames (log c) ∧
  NoDup (log c).*1 ∧
  (∀ i p, gs c !! i = Some (Returned (Some p) None) → (i, p) ∈ log c) ∧
  log c `prefix_of` log c' ∧ wire (conn (out c)) `prefix_of` wire (conn (out c')).
Proof.
  intros Hw Hr Hr'. pose proof (writers_reachable_ok w c Hw Hr) as Hc. destruct (steps_grow c c' Hc Hr').
  split_and!; try done.
  - apply Hc.
  - intros i j q q' Hi Hj Hq Hq'. pose proof (ok_mutex c Hc i q Hi Hq).
    pose proof (ok_mutex c Hc j q' Hj Hq'). congruence.
  - by apply wire_frames.
  - apply Hc.
  - intros i p Hi. by apply (pc_accepted _ _ _ (ok_pc c Hc i _ Hi)).
Qed.

End writers.

(** ** Witness *)

Import concrete.

#[export] Instance world_timeout : Timeout := IOError 110.

(** Goroutines that take their turns in the order of a schedule. *)
Fixpoint run (sched : list nat) (c : Conn) : option Conn :=
  match sched with
  | [] => Some c
  | i :: sched => match advance i c with Some c' => run sched c' | None => None end
  end.

Lemma run_reachable w sched c c' : reachable w c → run sched c = Some c' → reachable w c'.
Proof.
  revert c. induction sched as [|i sched IH]; intros c Hr E; simpl in E; [by injection E as <-|].
  destruct (advance i c) as [c1|] eqn:Ea; [|done]. apply (IH c1); [|done].
  eapply rtc_r; [done|]. left. by exists i.
Qed.

Lemma call_reachable w q c : reachable w c → start q → reachable w (set_gs (gs c ++ [q]) c).
Proof. intros Hr Hq. eapply rtc_r; [done|]. right. by constructor. Qed.

(** Two writers, one of which waits for the other in the mutex, and one that closes. *)
Definition fresh_socket : WConn := mkWConn [] [] [] false.

Definition three_calls : Conn :=
  set_gs [WGuard hello (Caller true); WGuard hello (Caller true); CSwap ByClose] (opened fresh_socket).

Lemma three_calls_reachable : reachable fresh_socket three_calls.
Proof.
  apply (call_reachable _ _ (set_gs [WGuard hello (Caller true); WGuard hello (Caller true)] (opened fresh_socket)));
    [|constructor].
  apply (call_reachable _ _ (set_gs [WGuard hello (Caller true)] (opened fresh_socket))); [|constructor].
  apply (call_reachable _ _ (opened fresh_socket)); [|constructor]. apply rtc_refl.
Qed.

(** The connection is closed while the second writer is inside. *)
Definition closing_amid : list nat := [0; 1; 0; 0; 0; 0; 0; 0; 0; 1; 1; 1; 1; 2; 1; 1; 1; 2; 2; 2; 2; 2; 2; 2; 2; 2; 2; 2; 2; 2; 2]%nat.

Definition completes (c : option Conn) : bool := match c with Some _ => true | None => false end.

Lemma closing_amid_completes : completes (run closing_amid three_calls) = true.
Proof. vm_compute. reflexivity. Qed.

Lemma completed_reachable w sched c :
  reachable w c → completes (run sched c) = true → ∃ c', run sched c = Some c' ∧ reachable w c'.
Proof.
  intros Hr Hd. destruct (run sched c) as [c'|] eqn:E; [|done]. exists c'. split; [done|]. by eapply run_reachable.
Qed.

Lemma writes_atomic_witness :
  ∃ c, run closing_amid three_calls = Some c ∧ panicked c = false ∧
  (∀ i j q q', gs c !! i = Some q → gs c !! j = Some q' → in_section q = true → in_section q' = true → i = j) ∧
  wire (conn (out c)) `prefix_of` frames (log c) ∧
  NoDup (log c).*1 ∧
  (∀ i p, gs c !! i = Some (Returned (Some p) None) → (i, p) ∈ log c) ∧
  log c `prefix_of` log c ∧ wire (conn (out c)) `prefix_of` wire (conn (out c)).
Proof.
  destruct (completed_reachable _ _ _ three_calls_reachable closing_amid_completes) as (c&E&Hr).
  exists c. split; [exact E|].
  exact (writes_atomic fresh_socket c c (conj eq_refl eq_refl) Hr (rtc_refl _ c)).
Defined.

End writers.
