(* ===== verification/Delivery.v ===== *)
(** * What concurrent writers may rely on (async.go: [writePacket], [flush], [close])

    Continues [Writers]: on a healthy socket a closing connection delivers every
    write that returned nil, every call returns, and a goroutine that is alone
    does what [Async] says. *)

From S2P Require Import Prelude Frisbee GoStd Interfaces Metadata Packet Async AsyncSpec Concrete Writers.

Module delivery.
Import metadata packet writers.

Section delivery.
Context {G : Globals} {PB : Polyglot} {TO : Timeout} `{!PolyglotLaws PB}.

(** ** On a healthy socket *)

(** The goroutine that closes, before its flush is done, and after it has undone
    the deadline in the past. *)
Definition flushed (q : pc) : bool :=
  match q with CReset _ | CUnlockOut _ | CClose _ => true | _ => false end.

Definition unflushed (q : pc) : nat := if flushed q then 0 else winner q.

Definition deadline_undone (q : pc) : bool :=
  match q with
  | CUnlock _ | CPast _ | CWait _ | CEmpty _ => false
  | _ => after_channels q
  end.

(** Nothing has failed: a call ends with nil, or is refused. *)
Definition fine (q : pc) : Prop :=
  match q with
  | WUnlock _ _ (Failed _) | WFailed _ _ _ => False
  | Returned (Some p) (Some e) => e = ConnectionClosed ∨ e = InvalidContentLength ∨ e = ContentLengthExceeded
  | _ => True
  end ∧
  match q with
  | WGuard _ (StreamEnd cl _) | WLock _ (StreamEnd cl _) | WCheck _ (StreamEnd cl _) | WDeadline _ (StreamEnd cl _)
  | WHeader _ (StreamEnd cl _) | WContent _ (StreamEnd cl _) | WSignal _ (StreamEnd cl _) | WUnlock _ (StreamEnd cl _) _
  | CSwap cl | CLock cl | CChannels cl | CUnlock cl | CPast cl | CWait cl | CEmpty cl | CStreams cl _
  | CLockOut cl | CBuffered cl | CDeadline cl | CFlush cl | CReset cl | CUnlockOut cl | CClose cl => by_packet cl = None
  | _ => True
  end.

Record sound (c : Conn) : Prop := {
  so_faults : faults (conn (out c)) = [];
  so_deadlines : wdeadlines (conn (out c)) = [];
  so_werr : werr (writer (out c)) = None;
  so_socket : conn_closed (conn (out c)) = true → chan_closed c = true ∧ winners c = 0%nat;
  so_expired i q : gs c !! i = Some q → deadline_undone q = true → expired c = false;
  so_fine i q : gs c !! i = Some q → fine q;
  so_flushed : closed c = true → sum_list_with unflushed (gs c) = 0%nat → wbuf (writer (out c)) = [];
  so_pending : closed c = true → chan_closed c = false → (0 < sum_list_with unflushed (gs c))%nat;
  so_logged i p : (i, p) ∈ log c → ∃ q, gs c !! i = Some q ∧ accepted_by q = Some p;
}.

Lemma undone_winner q : deadline_undone q = true → winner q = 1%nat.
Proof. unfold winner. destruct q; simpl; try done; by intros ->. Qed.

(** The socket is open while somebody can use it. *)
Lemma sound_healthy c i q :
  conn_ok c → sound c → gs c !! i = Some q → past_check q = true ∨ winner q = 1%nat → healthy (conn (out c)).
Proof.
  intros Hc Hs Hi Hq. split_and!; try apply Hs. destruct (conn_closed (conn (out c))) eqn:E; [|done].
  destruct (so_socket c Hs E) as [Hch Hw]. destruct Hq as [Hq|Hq].
  - destruct (pc_open _ _ _ (ok_pc c Hc i q Hi) Hq). congruence.
  - pose proof (sum_member winner _ _ _ Hi). unfold winners in Hw. lia.
Qed.

Lemma sound_move i q q' c c' :
  conn_ok c → sound c → gs c !! i = Some q → gs c' = <[i := q']> (gs c) →
  faults (conn (out c')) = [] → wdeadlines (conn (out c')) = [] → werr (writer (out c')) = None →
  (conn_closed (conn (out c')) = conn_closed (conn (out c)) ∧ (winner q' ≤ winner q ∨ closed c = false)%nat ∨
   chan_closed c' = true ∧ winner q = 1%nat ∧ winner q' = 0%nat) →
  (chan_closed c = true → chan_closed c' = true) →
  (expired c' = false ∨ expired c' = expired c ∧ (deadline_undone q' = true → deadline_undone q = true) ∨
   winner q = 1%nat ∧ deadline_undone q' = false) →
  fine q' →
  (wbuf (writer (out c')) = [] ∨ wbuf (writer (out c')) = wbuf (writer (out c)) ∧ (unflushed q ≤ unflushed q')%nat ∨
   (unflushed q ≤ unflushed q')%nat ∧ chan_closed c = false) →
  (closed c' = closed c ∧ chan_closed c' = chan_closed c ∧ unflushed q ≤ unflushed q' ∨
   closed c' = closed c ∧ chan_closed c = true ∨ closed c = false ∧ unflushed q' = 1 ∨
   closed c' = closed c ∧ chan_closed c' = true)%nat →
  (log c' = log c ∧ (∀ p, accepted_by q = Some p → accepted_by q' = Some p) ∨
   ∃ p, log c' = log c ++ [(i, p)] ∧ unwritten q = true ∧ accepted_by q' = Some p) →
  sound c'.
Proof.
  intros Hc Hs Hi Hgs Hf Hd He Hsock Hch Hex Hfine Hfl Hpend Hlog.
  assert (i < length (gs c))%nat as Hlt by (by eapply lookup_lt_Some).
  pose proof (sh_closed c (ok_shared c Hc)) as Hshc.
  pose proof (sum_insert unflushed _ i q q' Hi) as Hun. pose proof (sum_member unflushed _ i q Hi) as Hum.
  split; try done; rewrite ?Hgs.
  - intros Ec. pose proof (sum_insert winner _ i q q' Hi) as Hw. pose proof (ok_winner c Hc) as Hw1.
    unfold winners in *. rewrite Hgs. destruct Hsock as [[E Hq]|(?&?&?)].
    + destruct (so_socket c Hs) as [Hcc Hw0]; [congruence|]. unfold winners in Hw0. split; [auto|].
      destruct Hq as [Hq|Hq]; [lia|]. rewrite Hshc in Hq; done.
    + split; [done|]. destruct (closed c); simpl in *; lia.
  - intros j x. rewrite list_lookup_insert_Some. intros [(<-&<-&_)|[Hne Hj]] Hx.
    + destruct Hex as [?|[[-> Hu]|[_ ?]]]; [done| |congruence]. apply (so_expired c Hs i q Hi). auto.
    + destruct Hex as [?|[[-> _]|[Hq _]]]; [done|by eapply so_expired|].
      exfalso. by eapply (one_winner c i j q x); eauto using undone_winner.
  - intros j x. rewrite list_lookup_insert_Some. intros [(<-&<-&_)|[Hne Hj]]; [done|by eapply so_fine].
  - intros Hcl Hz. destruct Hfl as [?|[[-> Hle]|[Hle Hcc]]]; [done|..].
    + destruct (closed c) eqn:Ecl; [apply (so_flushed c Hs); [done|lia]|].
      destruct Hpend as [(E&_)|[(E&_)|[[_ E]|(E&_)]]]; try congruence. lia.
    + destruct (closed c) eqn:Ecl; [pose proof (so_pending c Hs Ecl Hcc); lia|].
      destruct Hpend as [(E&_)|[(E&_)|[[_ E]|(E&_)]]]; try congruence. lia.
  - intros Hcl Hcc. destruct Hpend as [(E1&E2&E)|[(E1&E2)|[[_ E]|[_ E]]]]; [|rewrite Hch in Hcc by done; done|lia|congruence].
    pose proof (so_pending c Hs). rewrite E1 in Hcl. rewrite E2 in Hcc. specialize (H Hcl Hcc). lia.
  - intros j p Hj. destruct (decide (i = j)) as [<-|Hne].
    + exists q'. rewrite list_lookup_insert_eq by done. split; [done|].
      destruct Hlog as [[E Hab]|(p'&E&Hu&Hab)]; rewrite E in Hj.
      * destruct (so_logged c Hs i p Hj) as (x&Hx&?). apply Hab. congruence.
      * apply elem_of_app in Hj as [Hj|[= ->]%list_elem_of_singleton]; [|done].
        exfalso. apply (pc_unwritten _ _ _ (ok_pc c Hc i q Hi) Hu). apply list_elem_of_fmap. by exists (i, p).
    + rewrite list_lookup_insert_ne by done. apply (so_logged c Hs).
      destruct Hlog as [[E _]|(p'&E&_)]; rewrite E in Hj; [done|].
      apply elem_of_app in Hj as [Hj|[= -> _]%list_elem_of_singleton]; done.
Qed.

(** Setting a deadline succeeds. *)
Lemma deadline_sound past c k c' :
  healthy (conn (out c)) → deadline past c k = Some c' →
  c' = k None (set_expired past (set_out (mkOut (conn (out c)) (writer (out c))) c)).
Proof.
  intros (Hf&Hd&Hcl) Hk. unfold deadline, zoom, conn_SetDeadline in Hk. rewrite Hcl, Hd in Hk. simpl in Hk.
  injection Hk as <-. destruct (conn (out c)). simpl in *. by subst.
Qed.

(** The writer takes what it is given. *)
Lemma write_sound p c k c' :
  conn_ok c → sound c → healthy (conn (out c)) → expired c = false → call (Writer_Write p) c k = Some c' →
  ∃ n o', c' = k (n, None) (set_out o' c) ∧ healthy (conn o') ∧ werr (writer o') = None.
Proof.
  intros Hc Hs Hh Hex Hst. unfold call in Hst. rewrite Hex in Hst. simpl in Hst.
  destruct (Write_took p (out c)) as (n&r&o'&E&_&Ht&Hr); [apply Hc|].
  destruct Hr as [-> ?]; [done|apply Hs|]. rewrite E in Hst. injection Hst as <-.
  destruct Ht as (_&?&_). by exists n, o'.
Qed.

Lemma flush_sound c k c' :
  conn_ok c → sound c → healthy (conn (out c)) → expired c = false → call Writer_Flush c k = Some c' →
  ∃ o', c' = k None (set_out o' c) ∧ healthy (conn o') ∧ werr (writer o') = None ∧ wbuf (writer o') = [].
Proof.
  intros Hc Hs Hh Hex Hst. unfold call in Hst. rewrite Hex in Hst. simpl in Hst.
  destruct (Flush_took (out c)) as (r&o'&E&_&Ht&Hr); [apply Hc|].
  destruct Hr as (->&?&?); [done|apply Hs|]. rewrite E in Hst. injection Hst as <-.
  destruct Ht as (_&?&_). by exists o'.
Qed.

Lemma open_expired c : conn_ok c → chan_closed c = false → expired c = false.
Proof.
  intros Hc Hch. destruct (expired c) eqn:E; [|done]. by rewrite (sh_expired c (ok_shared c Hc) E) in Hch.
Qed.

(** Steps in which the socket and the writer take no part. *)
Ltac soundly :=
  eapply sound_move; [eassumption|eassumption|eassumption|reflexivity|..]; simpl;
  try (match goal with H : sound _ |- _ => by destruct H end); try tauto; try (by auto 6);
  try (left; split; auto; lia); try (right; left; split; [done|unfold unflushed, winner; simpl; lia]);
  try (unfold fine in *; simpl in *; tauto).

Lemma write_step_sound i q c c' :
  conn_ok c → sound c → gs c !! i = Some q → write_step i q c = Some c' → sound c'.
Proof.
  intros Hc Hs Hi Hst. pose proof (ok_pc c Hc i q Hi) as [Hop _ Haf _ _ _ Hck].
  pose proof (sound_healthy c i q Hc Hs Hi) as Hh. pose proof (so_fine c Hs i q Hi) as Hfi.
  destruct q as [p k|p k|p k|p k|p k|p k|p k|p k o|p k e| | | | | | | | | | | | | | | | | | | | |];
    try done; simpl in Hst, Hop, Haf, Hck, Hh, Hfi.
  - destruct (negb _); [injection Hst as <-; destruct k; soundly|].
    destruct (exceeds_max _); injection Hst as <-; destruct k; soundly.
  - unfold lock in Hst. destruct (mu c) eqn:Hm; [done|]. injection Hst as <-. soundly.
  - injection Hst as <-. destruct (closed c) eqn:Hcl; destruct k; soundly.
  - destruct Hop as [Hch Hk]; [done|]. destruct k as [b|]; [|done].
    apply deadline_sound in Hst as ->; [|by auto]. soundly.
  - destruct Hop as [Hch Hk]; [done|]. destruct k as [b|]; [|done]. destruct Hh as (?&?&Hcc); [by auto|].
    apply write_sound in Hst as (n&o'&->&(?&?&?)&?); [|done..|by apply open_expired]. soundly.
    + left. rewrite Hcc. auto.
    + right. eauto.
  - destruct Hop as [Hch Hk]; [done|]. destruct k as [b|]; [|done]. destruct Hh as (?&?&Hcc); [by auto|].
    destruct (_ =? 0); [injection Hst as <-; soundly|].
    apply write_sound in Hst as (n&o'&->&(?&?&?)&?); [|done..|by apply open_expired]. soundly.
    left. rewrite Hcc. auto.
  - destruct Hop as [Hch Hk]; [done|]. destruct k as [b|]; [|done].
    pose proof Hch as Hch'. unfold chan_closed in Hch'. rewrite Hch' in Hst.
    repeat case_match; simplify_eq/=; soundly. congruence.
  - destruct o; injection Hst as <-; destruct k; soundly.
  - by destruct Hfi.
Qed.

Lemma flush_step_sound i q c c' :
  conn_ok c → sound c → gs c !! i = Some q → flush_step i q c = Some c' → sound c'.
Proof.
  intros Hc Hs Hi Hst. pose proof (ok_pc c Hc i q Hi) as [Hop _ _ _ _ _ _].
  pose proof (sound_healthy c i q Hc Hs Hi) as Hh.
  destruct q as [ | | | | | | | | | | | | |r| | | | | | | | | | | | | | | |]; try done; simpl in Hst, Hop, Hh.
  - unfold lock in Hst. destruct (mu c) eqn:Hm; [done|]. injection Hst as <-. soundly.
  - injection Hst as <-. destruct (closed c) eqn:Hcl; [soundly|]. destruct (_ >? 0); soundly.
  - apply deadline_sound in Hst as ->; [|by auto]. soundly.
  - destruct Hop as [Hch _]; [done|]. destruct Hh as (?&?&Hcc); [by auto|].
    apply flush_sound in Hst as (o'&->&(?&?&?)&?&?); [|done..|by apply open_expired]. soundly.
    left. rewrite Hcc. auto.
  - destruct r; injection Hst as <-; soundly.
Qed.

Lemma close_step_sound i q c c' :
  conn_ok c → sound c → gs c !! i = Some q → close_step i q c = Some c' → sound c'.
Proof.
  intros Hc Hs Hi Hst. pose proof (ok_pc c Hc i q Hi) as [_ Hbf Haf Hwn _ _ _].
  pose proof (sound_healthy c i q Hc Hs Hi) as Hh. pose proof (so_fine c Hs i q Hi) as [_ Hfi].
  pose proof (so_expired c Hs i q Hi) as Hex.
  destruct q as [ | | | | | | | | | | | | | |cl|cl|cl|cl|cl|cl|cl|cl rest|cl|cl|cl|cl|cl|cl|cl|]; try done;
    simpl in Hst, Hbf, Haf, Hwn, Hh, Hfi, Hex.
  - destruct (closed c) eqn:Hcl; injection Hst as <-; [destruct cl as [| |[p|] e]; soundly|soundly].
  - unfold lock in Hst. destruct (mu c) eqn:Hm; [done|]. injection Hst as <-. soundly.
  - destruct (_ || _); [by injection Hst as <-; destruct Hs|]. injection Hst as <-. soundly.
  - injection Hst as <-. soundly.
  - apply deadline_sound in Hst as ->; [|by auto]. soundly.
  - injection Hst as <-. soundly.
  - apply deadline_sound in Hst as ->; [|by auto]. soundly.
  - destruct rest; injection Hst as <-; soundly.
  - unfold lock in Hst. destruct (mu c) eqn:Hm; [done|]. injection Hst as <-. soundly.
  - injection Hst as <-. unfold Buffered. destruct (Z.gtb_spec (len (wbuf (writer (out c)))) 0); soundly.
    left. apply len_zero_inv. pose proof (len_nonneg (wbuf (writer (out c)))). lia.
  - apply deadline_sound in Hst as ->; [|by auto]. soundly.
  - destruct Hh as (?&?&Hcc); [by auto|].
    apply flush_sound in Hst as (o'&->&(?&?&?)&?&?); [|done..|by auto]. soundly.
    left. rewrite Hcc. auto.
  - apply deadline_sound in Hst as ->; [|by auto]. soundly.
  - injection Hst as <-. destruct cl; soundly.
  - injection Hst as <-. destruct cl as [| |[p|] e]; soundly.
Qed.

Lemma step_sound c c' : conn_ok c → sound c → step c c' → sound c'.
Proof.
  intros Hc Hs [i Hst]. unfold advance in Hst. destruct (panicked c); [done|].
  destruct (gs c !! i) as [q|] eqn:Hi; [|done]. unfold move in Hst.
  destruct q; eauto using write_step_sound, flush_step_sound, close_step_sound.
Qed.

Lemma spawn_sound c c' q :
  sound c → gs c' = gs c ++ [q] → start q → closed c' = closed c → chan_closed c' = chan_closed c →
  log c' = log c → out c' = out c → expired c' = expired c → sound c'.
Proof.
  intros [] Hgs Hq Hcl Hch Hl Ho He.
  assert (winner q = 0%nat ∧ unflushed q = 0%nat ∧ deadline_undone q = false ∧ fine q) as (Hw&Hu&Hd&Hf) by (by destruct Hq).
  assert (∀ f, f q = 0%nat → sum_list_with f (gs c') = sum_list_with f (gs c)) as Hsum.
  { intros f E. rewrite Hgs, sum_list_with_app. simpl. lia. }
  split; unfold winners; rewrite ?Hcl, ?Hch, ?Hl, ?Ho, ?He, ?Hsum by done; auto; rewrite Hgs.
  - intros i x [Hi|[_ [_ <-]%list_lookup_singleton_Some]]%lookup_app_Some; [by eapply so_expired0|congruence].
  - intros i x [Hi|[_ [_ <-]%list_lookup_singleton_Some]]%lookup_app_Some; [by eapply so_fine0|done].
  - intros i p (x&Hx&?)%so_logged0. exists x. by rewrite (lookup_app_l_Some _ _ _ _ Hx).
Qed.

Lemma event_sound c c' : sound c → event c c' → sound c'.
Proof.
  intros Hs Hev. destruct Hev as [c q Hq|c Hn|c ps].
  - by apply (spawn_sound c _ q).
  - apply (spawn_sound c _ FLock); try done. constructor.
  - by destruct Hs.
Qed.

Lemma reachable_sound w c : fresh w → healthy w → reachable w c → conn_ok c ∧ sound c.
Proof.
  intros Hw (?&?&?) Hr.
  assert (conn_ok (opened w) ∧ sound (opened w)) as Hinit.
  { split; [by apply opened_ok|]. split; try done; simpl; [congruence|]. by intros i p Hp%not_elem_of_nil. }
  revert Hinit. unfold reachable in Hr. induction Hr as [|c1 c2 c3 Hst _ IH]; intros [Hc Hs]; [done|].
  apply IH. destruct Hst; [eauto using writers_step_ok, step_sound|eauto using writers_event_ok, event_sound].
Qed.

(** Once the channels are closed nobody writes any more. *)
Lemma accepted_returned c i q p :
  conn_ok c → chan_closed c = true → gs c !! i = Some q → accepted_by q = Some p → q = Returned (Some p) None.
Proof.
  intros Hc Hch Hi Hq. pose proof (pc_open _ _ _ (ok_pc c Hc i q Hi)) as Hop.
  destruct q as [| | | | | |? []|? [] []| | | | | | | | | | | | | | | | | | | | | |[] []]; try done;
    try (destruct (Hop eq_refl); congruence). simpl in Hq. congruence.
Qed.

Lemma closed_log c c' : conn_ok c → chan_closed c = true → any_step c c' → chan_closed c' = true ∧ log c' = log c.
Proof.
  intros Hc Hch [[i Hst]|Hev]; [|destruct Hev; (split; [exact Hch|reflexivity])].
  unfold advance in Hst. destruct (panicked c); [done|].
  destruct (gs c !! i) as [q|] eqn:Hi; [|done]. pose proof (pc_open _ _ _ (ok_pc c Hc i q Hi)) as Hop.
  destruct q; simpl in Hst; try (destruct (Hop eq_refl); congruence);
    unfold lock, unlock, panics, deadline, call in Hst; repeat case_match; by simplify_eq.
Qed.

Lemma closed_logs c c' : conn_ok c → chan_closed c = true → rtc any_step c c' → log c' = log c.
Proof.
  intros Hc Hch Hr. induction Hr as [|c1 c2 c3 Hst _ IH]; [done|].
  destruct (closed_log c1 c2 Hc Hch Hst) as [? <-]. apply IH; [|done].
  destruct Hst; [by eapply writers_step_ok|by eapply writers_event_ok].
Qed.

(** C5: closing delivers every concurrent write.  On a healthy socket, when the
    connection is closed and the goroutine that closed it has returned, the wire
    holds exactly the frames of the log; the log has exactly the calls that
    returned nil; every other write that has returned was refused; and whatever
    happens afterwards nothing more is written.  A packet whose [WritePacket]
    returned nil before or during the closing is therefore never lost. *)
Theorem close_delivers (w : WConn) (c : Conn) :
  fresh w → healthy w → reachable w c → closed c = true → winners c = 0%nat →
  wire (conn (out c)) = frames (log c) ∧
  (∀ i p, (i, p) ∈ log c ↔ gs c !! i = Some (Returned (Some p) None)) ∧
  (∀ i p e, gs c !! i = Some (Returned (Some p) (Some e)) →
     e = ConnectionClosed ∨ e = InvalidContentLength ∨ e = ContentLengthExceeded) ∧
  (∀ c', rtc any_step c c' → wire (conn (out c')) = wire (conn (out c)) ∧ log c' = log c).
Proof.
  intros Hw Hh Hr Hcl Hwin. destruct (reachable_sound w c Hw Hh Hr) as [Hc Hs].
  assert (sum_list_with unflushed (gs c) = 0%nat) as Hun.
  { clear -Hwin. unfold winners in Hwin. induction (gs c) as [|q l IH]; simpl in *; [done|].
    unfold unflushed at 1. destruct (flushed q); lia. }
  pose proof (so_flushed c Hs Hcl Hun) as Hb. pose proof (ok_data c Hc) as Hd.
  assert (chan_closed c = true) as Hch.
  { destruct (chan_closed c) eqn:E; [done|]. pose proof (so_pending c Hs Hcl E). lia. }
  assert (wire (conn (out c)) = frames (log c)) as Hwire.
  { unfold data_ok in Hd. rewrite (so_werr c Hs) in Hd. rewrite Hd. unfold stream_out.
    rewrite Hb, app_nil_r, concat_empty; [by rewrite app_nil_r|].
    apply Forall_fmap, Forall_lookup. intros i q Hi. destruct q; try done.
    destruct (pc_open _ _ _ (ok_pc c Hc i _ Hi)); [done|congruence]. }
  split_and!; [done|..].
  - intros i p. split.
    + intros (q&Hi&Hq)%(so_logged c Hs). rewrite Hi. f_equal. by eapply accepted_returned.
    + intros Hi. by apply (pc_accepted _ _ _ (ok_pc c Hc i _ Hi)).
  - intros i p e Hi. apply (so_fine c Hs i _ Hi).
  - intros c' Hr'. pose proof (closed_logs c c' Hc Hch Hr') as Hl.
    split; [|done]. destruct (steps_grow c c' Hc Hr') as [_ Hp].
    assert (conn_ok c') as Hc' by (apply (writers_reachable_ok w); [done|unfold reachable in *; by etrans]).
    pose proof (wire_frames c' Hc') as Hp'. rewrite Hl, <- Hwire in Hp'. by apply (anti_symm prefix).
Qed.

(** ** Every call returns *)

(** A bound on the steps a goroutine has before it, with [n] streams open. *)
Definition swap_load (n : nat) : nat := 15 + 12 * n.
Definition streams_load (rest : list Packet) : nat := 8 + 12 * length rest.

Definition load (n : nat) (q : pc) : nat :=
  let base k := match k with Caller _ => swap_load n | StreamEnd _ rest => streams_load rest end in
  match q with
  | WGuard _ k => 9 + base k | WLock _ k => 8 + base k | WCheck _ k => 7 + base k
  | WDeadline _ k => 6 + base k | WHeader _ k => 5 + base k | WContent _ k => 4 + base k
  | WSignal _ k => 3 + base k | WUnlock _ k _ => 2 + base k | WFailed _ k _ => 1 + base k
  | FLock => 5 + swap_load n | FCheck => 4 + swap_load n | FDeadline => 3 + swap_load n
  | FFlush => 2 + swap_load n | FUnlock _ => 1 + swap_load n
  | CSwap _ => swap_load n | CLock _ => 14 + 12 * n | CChannels _ => 13 + 12 * n | CUnlock _ => 12 + 12 * n
  | CPast _ => 11 + 12 * n | CWait _ => 10 + 12 * n | CEmpty _ => 9 + 12 * n
  | CStreams _ rest => streams_load rest
  | CLockOut _ => 7 | CBuffered _ => 6 | CDeadline _ => 5 | CFlush _ => 4 | CReset _ => 3 | CUnlockOut _ => 2
  | CClose _ => 1
  | Returned _ _ => 0
  end.

Definition total_load (c : Conn) : nat := sum_list_with (load (length (ends c))) (gs c).

Definition returned (q : pc) : bool := match q with Returned _ _ => true | _ => false end.

(** A step moves one goroutine and leaves the streams alone. *)
Lemma advance_moves i q c c' :
  conn_ok c → gs c !! i = Some q → move i q c = Some c' →
  ends c' = ends c ∧ ∃ q', gs c' = <[i := q']> (gs c) ∧ (load (length (ends c)) q' < load (length (ends c)) q)%nat.
Proof.
  intros Hc Hi Hst. assert (panicked c' = false) as Hnp.
  { apply (writers_step_ok c c' Hc). exists i. unfold advance. by rewrite (sh_panic c (ok_shared c Hc)), Hi. }
  destruct q; simpl in Hst; unfold lock, unlock, panics, deadline, call, close_result, finish in Hst;
    repeat case_match; simplify_eq/=; (split; [done|]); eexists; (split; [reflexivity|]); simpl;
    unfold swap_load, streams_load; simpl; try lia; repeat case_match; simpl; unfold swap_load; lia.
Qed.

Lemma step_load c c' : conn_ok c → step c c' → (total_load c' < total_load c)%nat.
Proof.
  intros Hc [i Hst]. unfold advance in Hst. destruct (panicked c); [done|].
  destruct (gs c !! i) as [q|] eqn:Hi; [|done].
  destruct (advance_moves i q c c' Hc Hi Hst) as (He&q'&Hgs&Hlt). unfold total_load. rewrite He, Hgs.
  pose proof (sum_insert (load (length (ends c))) _ i q q' Hi). lia.
Qed.

(** Who holds the mutex can go on, and everybody can when nobody does. *)
Lemma deadline_returns past c k : ∃ c', deadline past c k = Some c'.
Proof.
  unfold deadline, zoom. destruct (conn_SetDeadline_cases (conn (out c))) as ([e|]&ds&->&_); eauto.
Qed.

Lemma call_returns {A} (m : M Out A) bs (err : A → option Frisbee.error) c k :
  conn_ok c → (∀ o, writer_ok o → ∃ a o', m o = (Ret a, o') ∧ writer_ok o' ∧ took bs (err a) o o') →
  ∃ c', call m c k = Some c'.
Proof.
  intros Hc Hm. unfold call.
  destruct (deadline_call_took (expired c) m bs err (out c) Hm) as (a&o'&->&_); [apply Hc|eauto].
Qed.

Lemma can_move c i q :
  conn_ok c → gs c !! i = Some q → returned q = false → in_section q = true ∨ mu c = None →
  ∃ c', move i q c = Some c'.
Proof.
  intros Hc Hi Hq Hm. pose proof (pc_after _ _ _ (ok_pc c Hc i q Hi)) as Haf.
  pose proof (sh_closed c (ok_shared c Hc)) as Hcl.
  destruct q; simpl in *; unfold lock, unlock; try done;
    try (by apply deadline_returns);
    try (by eapply (call_returns _ _ snd); [|apply Write_calls]);
    try (by eapply (call_returns _ _ id); [|apply Flush_calls]);
    try (destruct Hm as [?| ->]; [done|]); repeat case_match; try done; simplify_eq/=; eauto.
  - by eapply (call_returns _ _ snd); [|apply Write_calls].
  - exfalso. discriminate (Hcl (Haf eq_refl)).
Qed.

Lemma someone_moves c i q :
  conn_ok c → gs c !! i = Some q → returned q = false → ∃ c', step c c'.
Proof.
  intros Hc Hi Hq.
  assert (∃ j x, gs c !! j = Some x ∧ returned x = false ∧ (in_section x = true ∨ mu c = None)) as (j&x&Hj&Hx&Hm).
  { destruct (mu c) as [j|] eqn:Hm; [|by exists i, q; auto].
    destruct (ok_holder c Hc j Hm) as (x&Hj&Hx). exists j, x. split_and!; [done|by destruct x|by left]. }
  destruct (can_move c j x Hc Hj Hx Hm) as [c' E]. exists c', j. unfold advance.
  by rewrite (sh_panic c (ok_shared c Hc)), Hj.
Qed.

(** C17: the mutex never blocks the connection.  In every reachable state, as
    long as some call has not returned, some goroutine can make a step; and every
    step brings the goroutines nearer to the end of their calls.  So, however they
    are scheduled, every write, flush and close returns, when nothing new is
    started (the wait of [close] for the loops apart). *)
Theorem writers_progress (w : WConn) (c : Conn) :
  fresh w → reachable w c →
  (∀ c', step c c' → (total_load c' < total_load c)%nat) ∧
  ((∀ i q, gs c !! i = Some q → returned q = true) ∨ ∃ c', step c c').
Proof.
  intros Hw Hr. pose proof (writers_reachable_ok w c Hw Hr) as Hc. split; [by intros; apply step_load|].
  destruct (decide (Forall (λ q, returned q = true) (gs c))) as [Hf|Hf].
  - left. intros i q Hi. by apply (proj1 (Forall_lookup _ _) Hf i q).
  - right. apply not_Forall_Exists in Hf; [|apply _]. apply Exists_exists in Hf as (q&Hq%list_elem_of_In&Hr').
    apply list_elem_of_lookup in Hq as [i Hi]. apply (someone_moves c i q); [done..|].
    by apply not_true_is_false.
Qed.

End delivery.

(** ** A goroutine that is alone *)

Section alone.
Context {G : Globals} {PB : Polyglot} {CQ : CircularQueue} {PP : PacketPool} {BP : BufferPool} {TO : Timeout}.
Context `{!PolyglotLaws PB} `{!CircularLaws CQ} `{!PoolLaws PP} `{!PoolLaws BP}.
Implicit Types c : async.Async.

(** What the writers share of [c], with one goroutine, at [q]. *)
Definition alone c (es : list Packet) (l : list (nat * Packet)) (q : pc) : Conn :=
  mkConn None (async.closed c) (async.flushCh c) (async.closeCh c) (async.out c) false es l false [q].

Definition solo : Conn → Conn → Prop := rtc (λ d d', advance 0 d = Some d').

Lemma solo_step d d1 d' : advance 0 d = Some d1 → solo d1 d' → solo d d'.
Proof. intros. by eapply rtc_l. Qed.

(** The same with the mutex in hand. *)
Definition inside c (es : list Packet) (l : list (nat * Packet)) (q : pc) : Conn :=
  set_mu (Some 0%nat) (alone c es l q).

Lemma solo_leave c es l p b o :
  solo (inside c es l (WUnlock p (Caller b) o))
    match o with
    | Wrote => alone c es l (Returned (Some p) None)
    | Refused => alone c es l (Returned (Some p) (Some ConnectionClosed))
    | Failed e => alone c es l (WFailed p (Caller b) e)
    end.
Proof. destruct o; apply rtc_once; reflexivity. Qed.

(** Setting a deadline, in both models. *)
Lemma solo_deadline c :
  ∃ r o, async.SetWriteDeadline c = (Ret r, async.set_out o c) ∧
    zoom conn set_conn conn_SetDeadline (async.out c) = (Ret r, o) ∧ writer o = writer (async.out c) ∧
    wire (conn o) = wire (async.aconn c) ∧ conn_closed (conn o) = conn_closed (async.aconn c) ∧
    (wdeadlines (async.aconn c) = [] → conn_closed (async.aconn c) = false → r = None ∧ wdeadlines (conn o) = []).
Proof.
  unfold async.SetWriteDeadline, async.on_conn, async.on_out, zoom, async.aconn.
  destruct (conn_SetDeadline_cases (conn (async.out c))) as (r&ds&->&H). eexists r, _. by split_and!.
Qed.

Lemma solo_write_deadline c es l p k :
  ∃ r o, async.SetWriteDeadline c = (Ret r, async.set_out o c) ∧ writer o = writer (async.out c) ∧
    conn_closed (conn o) = conn_closed (async.aconn c) ∧
    (wdeadlines (async.aconn c) = [] → conn_closed (async.aconn c) = false → wdeadlines (conn o) = []) ∧
    solo (inside c es l (WDeadline p k))
      (inside (async.set_out o c) es l (match r with Some e => WUnlock p k (Failed e) | None => WHeader p k end)).
Proof.
  destruct (solo_deadline c) as (r&o&E&Ez&Hw&_&Hcl&Hds). exists r, o. split_and!; [done..|by apply Hds|].
  apply rtc_once. unfold advance. simpl. unfold deadline. simpl. rewrite Ez. by destruct r.
Qed.

Lemma solo_header c es l p k :
  async.async_ok c →
  ∃ n r o, async.on_out (Writer_Write (encodedMetadata p)) c = (Ret (n, r), async.set_out o c) ∧
    writer_ok o ∧ out_le (async.out c) o ∧
    solo (inside c es l (WHeader p k))
      (inside (async.set_out o c) es (l ++ [(0%nat, p)])
        (match r with Some e => WUnlock p k (Failed e) | None => WContent p k end)).
Proof.
  intros Hc. destruct (Writer_Write_returns (encodedMetadata p) (async.out c)) as ([n r]&o&E&Ho&?); [apply Hc|].
  exists n, r, o. unfold async.on_out, zoom. rewrite E. split_and!; [done..|].
  apply rtc_once. unfold advance. simpl. unfold call, deadline_call. simpl. by rewrite E.
Qed.

Lemma solo_content c es l p k :
  writer_ok (async.out c) → ContentLength (Metadata p) = len (Bytes (Content p)) →
  ∃ r o, (if ContentLength (Metadata p) =? 0 then mret None
          else
            content ← or_panic (slice (Bytes (Content p)) 0 (ContentLength (Metadata p))) IndexOutOfRange;
            '(_, err) ← async.on_out (Writer_Write content);
            mret err) c = (Ret r, async.set_out o c) ∧
    writer_ok o ∧ out_le (async.out c) o ∧
    solo (inside c es l (WContent p k))
      (inside (async.set_out o c) es l (match r with Some e => WUnlock p k (Failed e) | None => WSignal p k end)).
Proof.
  intros Ho Hl. pose proof (len_nonneg (Bytes (Content p))).
  destruct (ContentLength (Metadata p) =? 0) eqn:E0.
  { exists None, (async.out c). split_and!; [by destruct c|done|done|]. apply rtc_once. unfold advance. simpl. by rewrite E0. }
  rewrite slice_Some by lia. erewrite bind_Ret by reflexivity.
  destruct (Writer_Write_returns (sub (Bytes (Content p)) 0 (ContentLength (Metadata p))) (async.out c) Ho) as ([n r]&o&E&?&?).
  exists r, o. split_and!; [unfold mbind, M_bind, async.on_out, zoom; by rewrite E|done|done|].
  apply rtc_once. unfold advance. simpl. rewrite E0. unfold call, deadline_call. simpl. by rewrite E.
Qed.

Lemma solo_signal c es l p k :
  async.ch_closed (async.flushCh c) = false →
  ∃ c', async.signal_flush c = (Ret tt, c') ∧
    solo (inside c es l (WSignal p k)) (inside c' es l (WUnlock p k Wrote)).
Proof.
  intros Hf. unfold async.signal_flush. rewrite (bind_Ret get _ c c c) by done. rewrite Hf.
  destruct (async.ch_len (async.flushCh c) =? 0) eqn:E1; [destruct (_ <? _) eqn:E2|];
    (eexists; split; [done|]; apply rtc_once; unfold advance; simpl; by rewrite ?E1, ?Hf, ?E2).
Qed.

(** Setting deadlines succeeds. *)
Definition deadlines_work (o : Out) : Prop := wdeadlines (conn o) = [] ∧ conn_closed (conn o) = false.

Lemma working_deadline past (d : Conn) k :
  deadlines_work (out d) → deadline past d k = Some (k None (set_expired past d)).
Proof.
  destruct d as [m cl f cc [[w fs ds b] wr] ex es l pn g]. intros [Hd Hc]. simpl in *. subst. done.
Qed.

Lemma working_SetWriteDeadline c : deadlines_work (async.out c) → async.SetWriteDeadline c = (Ret None, c).
Proof.
  destruct c as [[[w fs ds b] wr] ? ? ? ? ? ? ? ? ? ? ? ?]. intros [Hd Hc]. simpl in *. subst. done.
Qed.

(** The streams of a closed connection are closed without a trace. *)
Lemma solo_streams c es l cl rest :
  async.closed c = true → solo (alone c es l (CStreams cl rest)) (alone c es l (CLockOut cl)).
Proof.
  intros Hcl. induction rest as [|p rest IH]; [by apply rtc_once|].
  apply (solo_step _ (alone c es l (WGuard p (StreamEnd cl rest)))); [done|].
  assert (solo (alone c es l (WLock p (StreamEnd cl rest))) (alone c es l (CStreams cl rest))) as Hlock.
  { apply (solo_step _ (inside c es l (WCheck p (StreamEnd cl rest)))); [done|].
    apply (solo_step _ (inside c es l (WUnlock p (StreamEnd cl rest) Refused))); [|by apply rtc_once].
    unfold advance. simpl. by rewrite Hcl. }
  etrans; [|exact IH]. destruct (negb (ContentLength (Metadata p) =? Len (Content p))) eqn:E1.
  { apply rtc_once. unfold advance. simpl. by rewrite E1. }
  destruct (exceeds_max (ContentLength (Metadata p))) eqn:E2.
  { apply rtc_once. unfold advance. simpl. by rewrite E1, E2. }
  eapply solo_step; [|exact Hlock]. unfold advance. simpl. by rewrite E1, E2.
Qed.

(** Where [close] goes when it has done its part. *)
Definition last_flushed (cl : closing) : pc := match cl with ByRaw => close_result cl true | _ => CClose cl end.

Lemma solo_last_flush cl c es l :
  writer_ok (async.out c) → deadlines_work (async.out c) →
  ∃ o, async.close_flush c = (Ret tt, async.set_out o c) ∧
    solo (alone c es l (CLockOut cl)) (alone (async.set_out o c) es l (last_flushed cl)).
Proof.
  intros Ho Hd. unfold async.close_flush. rewrite (bind_Ret get _ c c c) by done.
  assert (solo (alone c es l (CLockOut cl)) (inside c es l (CBuffered cl))) as H0 by (by apply rtc_once).
  destruct (Buffered (async.out c) >? 0) eqn:Hb.
  2:{ exists (async.out c). split; [by destruct c|]. etrans; [exact H0|].
      apply (solo_step _ (inside c es l (CUnlockOut cl))); [|by apply rtc_once].
      unfold advance. simpl. by rewrite Hb. }
  rewrite (bind_Ret _ _ _ _ _ (working_SetWriteDeadline c Hd)).
  destruct (Writer_Flush_returns (async.out c) Ho) as (r&o&E&_&(_&Hc&_&Hds)).
  assert (deadlines_work o) as Hd' by (destruct Hd; split; congruence).
  assert (async.on_out Writer_Flush c = (Ret r, async.set_out o c)) as Ef
    by (unfold async.on_out, zoom; by rewrite E).
  rewrite (bind_Ret _ _ _ _ _ Ef), (bind_Ret _ _ _ _ _ (working_SetWriteDeadline (async.set_out o c) Hd')).
  exists o. split; [done|]. etrans; [exact H0|].
  apply (solo_step _ (inside c es l (CDeadline cl))); [unfold advance; simpl; by rewrite Hb|].
  apply (solo_step _ (inside c es l (CFlush cl))); [unfold advance; simpl; by rewrite working_deadline|].
  apply (solo_step _ (inside (async.set_out o c) es l (CReset cl))).
  { unfold advance. simpl. unfold call, deadline_call. simpl. by rewrite E. }
  apply (solo_step _ (inside (async.set_out o c) es l (CUnlockOut cl))); [|by apply rtc_once].
  unfold advance. simpl. by rewrite working_deadline.
Qed.

Lemma solo_begin cl c es l :
  async.closed c = false → async.ch_closed (async.flushCh c) = false → async.closeCh c = false →
  deadlines_work (async.out c) →
  solo (alone c es l (CSwap cl)) (alone (async.begun [] c) es l (CStreams cl es)).
Proof.
  destruct c as [[[w fs ds b] wr] b0 [n fc] cc ? ? ? ? ? ? ? ? ?]. intros Hcl Hf Hcc [Hd Hc]. simpl in *. subst.
  unfold alone. simpl. set (o := mkOut _ wr). set (st m f := mkConn m true f). set (f' := async.mkChan n true).
  apply (solo_step _ (st None (async.mkChan n false) false o false es l false [CLock cl])); [done|].
  apply (solo_step _ (st (Some 0%nat) (async.mkChan n false) false o false es l false [CChannels cl])); [done|].
  apply (solo_step _ (st (Some 0%nat) f' true o false es l false [CUnlock cl])); [done|].
  apply (solo_step _ (st None f' true o false es l false [CPast cl])); [done|].
  apply (solo_step _ (st None f' true o true es l false [CWait cl])); [done|].
  apply (solo_step _ (st None f' true o true es l false [CEmpty cl])); [done|].
  by apply rtc_once.
Qed.

(** [close], whoever calls it. *)
Lemma solo_close cl d c es l :
  async.async_ok c → async.closed c = false → wdeadlines (async.aconn c) = [] →
  ∃ c', async.close_body (async.closeSend_body (async.writePacketN (S d))) c = (Ret None, c') ∧
    solo (alone c es l (CSwap cl)) (alone c' es l (last_flushed cl)).
Proof.
  intros Hc Ho Hd. destruct (async.ok_open c Hc Ho) as (Hf&Hcc&_&Hcn&_). unfold async.close_body.
  rewrite (bind_Ret get _ c c c) by done. rewrite Ho.
  destruct (async.close_begin_eq c Hc Ho) as (ds&E&Hds). rewrite Hds in E by done. clear ds Hds.
  destruct (async.begun_ok [] c Hc Ho) as [Hc1 _]. set (c1 := async.begun [] c) in *.
  rewrite (bind_Ret _ _ _ _ _ E), (bind_Ret get _ c1 c1 c1) by done.
  destruct (async_spec.close_streams_closed d _ c1 Hc1 eq_refl (async_spec.registered_valid c1 Hc1)) as (pl&bl&E2).
  rewrite (bind_Ret _ _ _ _ _ E2). set (c2 := async_spec.with_heap _ _ _ _) in *.
  destruct (solo_last_flush cl c2 es l) as (o&E3&S3); [apply Hc1|done|]. rewrite (bind_Ret _ _ _ _ _ E3).
  eexists. split; [done|]. etrans; [|exact S3]. etrans; [|by apply (solo_streams c2 es l cl es)].
  by apply solo_begin.
Qed.

Lemma solo_closed cl c es l :
  async.closed c = true → solo (alone c es l (CSwap cl)) (alone c es l (close_result cl false)).
Proof. intros Hcl. apply rtc_once. unfold advance. simpl. by rewrite Hcl. Qed.

(** [closeWithError]. *)
Lemma solo_closeWithError w e d c es l :
  async.async_ok c → wdeadlines (async.aconn c) = [] →
  ∃ e' c', async.closeWithError_body (async.close_body (async.closeSend_body (async.writePacketN (S d)))) e c = (Ret e', c') ∧
    solo (alone c es l (CSwap (ByError w e))) (alone c' es l (Returned w (Some e'))).
Proof.
  intros Hc Hd. unfold async.closeWithError_body. erewrite bind_Ret by reflexivity.
  set (c0 := async.set_error (Some e) c).
  assert (async.async_ok c0) as Hc0 by (by destruct Hc; split).
  destruct (async.closed c) eqn:Ho.
  - assert (async.close_body (async.closeSend_body (async.writePacketN (S d))) c0 = (Ret (Some ConnectionClosed), c0)) as E
      by (unfold async.close_body; rewrite (bind_Ret get _ c0 c0 c0) by done; unfold c0; simpl; by rewrite Ho).
    rewrite (bind_Ret _ _ _ _ _ E). eexists _, _. split; [reflexivity|]. exact (solo_closed (ByError w e) c es l Ho).
  - destruct (solo_close (ByError w e) d c0 es l Hc0 Ho Hd) as (c1&E&S1). rewrite (bind_Ret _ _ _ _ _ E).
    eexists _, _. split; [reflexivity|]. etrans; [exact S1|]. by apply rtc_once.
Qed.

(** [close] as [Close] and [Raw] use it. *)
Lemma solo_Close c es l :
  async.async_ok c → wdeadlines (async.aconn c) = [] →
  ∃ c', async.Close c = (Ret None, c') ∧ solo (alone c es l (CSwap ByClose)) (alone c' es l (Returned None None)).
Proof.
  intros Hc Hd. unfold async.Close. destruct (async.closed c) eqn:Ho.
  - exists c. split; [|by apply (solo_closed ByClose)]. unfold async.close, async.close_body, mbind, M_bind, get.
    by rewrite Ho.
  - destruct (solo_close ByClose 1 c es l Hc Ho Hd) as (c1&E&S1).
    change (async.close_body _) with async.close in E. rewrite (bind_Ret _ _ _ _ _ E).
    eexists. split; [reflexivity|]. etrans; [exact S1|]. by apply rtc_once.
Qed.

Lemma solo_Raw c es l :
  async.async_ok c → wdeadlines (async.aconn c) = [] →
  ∃ c', async.Raw c = (Ret (async.aconn c'), c') ∧
    solo (alone c es l (CSwap ByRaw)) (alone c' es l (Returned None None)).
Proof.
  intros Hc Hd. unfold async.Raw. destruct (async.closed c) eqn:Ho.
  - exists c. split; [|by apply (solo_closed ByRaw)]. unfold async.close, async.close_body, mbind, M_bind, get.
    by rewrite Ho.
  - destruct (solo_close ByRaw 1 c es l Hc Ho Hd) as (c1&E&S1).
    change (async.close_body _) with async.close in E. rewrite (bind_Ret _ _ _ _ _ E). by exists c1.
Qed.

(** The error exits of [writePacket]; with [closeOnErr] they close. *)
Definition fit (b : bool) c : Prop := async.async_ok c ∧ (b = true → wdeadlines (async.aconn c) = []).

Lemma solo_failed b d c es l p e :
  fit b c →
  ∃ r c', async.write_failed (async.closeWithError_body (async.close_body (async.closeSend_body (async.writePacketN (S d))))) b e c =
      (Ret r, c') ∧
    solo (inside c es l (WUnlock p (Caller b) (Failed e))) (alone c' es l (Returned (Some p) r)).
Proof.
  intros [Hc Hd]. unfold async.write_failed. rewrite (bind_Ret get _ c c c) by done.
  destruct (async.closed c) eqn:Ho; [|destruct b].
  - eexists _, c. split; [done|]. etrans; [apply solo_leave|]. apply rtc_once. unfold advance. simpl. by rewrite Ho.
  - destruct (solo_closeWithError (Some p) e d c es l Hc (Hd eq_refl)) as (e'&c'&E&S1).
    rewrite (bind_Ret _ _ _ _ _ E). eexists _, c'. split; [done|]. etrans; [apply solo_leave|].
    eapply solo_step; [|exact S1]. unfold advance. simpl. by rewrite Ho.
  - eexists _, c. split; [done|]. etrans; [apply solo_leave|]. apply rtc_once. unfold advance. simpl. by rewrite Ho.
Qed.

(** Calls that leave the invariant and the deadlines alone. *)
Lemma fit_out b o c :
  fit b c → writer_ok o → out_le (async.out c) o → fit b (async.set_out o c).
Proof.
  intros [Hc Hd] Ho (_&Hcl&Hsz&Hds). split; [by apply async.async_ok_out|]. intros Hb. rewrite <- (Hd Hb). exact Hds.
Qed.

Lemma fit_calm {A} b (m : M async.Async A) c r c' :
  preserves async.async_ok async.still m → wdeadlines (async.aconn c') = wdeadlines (async.aconn c) →
  fit b c → m c = (Ret r, c') → fit b c'.
Proof.
  intros Hm Hds [Hc Hd] E. pose proof (Hm c Hc) as H. unfold wp in H. rewrite E in H. destruct H as [? _].
  split; [done|]. intros Hb. rewrite Hds. auto.
Qed.

(** The content and the signal to the flush loop. *)
Lemma solo_rest b d c es l p :
  fit b c → async.ch_closed (async.flushCh c) = false → ContentLength (Metadata p) = Len (Content p) →
  ∃ r c', (err ← (if ContentLength (Metadata p) =? 0 then mret None
                  else
                    content ← or_panic (slice (Bytes (Content p)) 0 (ContentLength (Metadata p))) IndexOutOfRange;
                    '(_, err) ← async.on_out (Writer_Write content);
                    mret err);
           match err with
           | Some err => async.write_failed (async.closeWithError_body (async.close_body (async.closeSend_body (async.writePacketN (S d))))) b err
           | None => async.signal_flush;; mret None
           end) c = (Ret r, c') ∧
    solo (inside c es l (WContent p (Caller b))) (alone c' es l (Returned (Some p) r)).
Proof.
  intros Hfit Hf Hl. destruct (solo_content c es l p (Caller b)) as (r3&o3&E3&Ho3&Hle3&S3);
    [apply Hfit|by rewrite Hl, Len_Bytes|]. rewrite (bind_Ret _ _ _ _ _ E3). set (c3 := async.set_out o3 c) in *.
  destruct r3 as [e|].
  { destruct (solo_failed b d c3 es l p e) as (r&c'&E&S); [by apply fit_out|].
    exists r, c'. split; [apply E|]. by etrans. }
  destruct (solo_signal c3 es l p (Caller b) Hf) as (c4&E4&S4).
  rewrite (bind_Ret _ _ _ _ _ E4). eexists _, c4. split; [done|].
  etrans; [exact S3|]. etrans; [exact S4|]. apply (solo_leave c4 es _ p b Wrote).
Qed.

(** [writePacket] as [Async] has it, step by step. *)
Lemma solo_writePacket b d c es l p :
  fit b c →
  ∃ r c' l', async.writePacketN (S (S d)) p b c = (Ret r, c') ∧
    solo (alone c es l (WGuard p (Caller b))) (alone c' es l' (Returned (Some p) r)).
Proof.
  intros Hfit. pose proof Hfit as [Hc Hd]. cbn [async.writePacketN]. unfold async.writePacket_body.
  destruct (Z.eqb_spec (ContentLength (Metadata p)) (Len (Content p))) as [Hl|Hl]; cbn [negb].
  2:{ eexists _, c, l. split; [done|]. apply rtc_once. unfold advance. simpl.
      by replace (_ =? _) with false by lia. }
  destruct (exceeds_max _) eqn:Hm.
  { eexists _, c, l. split; [done|]. apply rtc_once. unfold advance. simpl.
    replace (_ =? _) with true by lia. by rewrite Hm. }
  destruct (async_spec.GetBuffer_eq c Hc) as (bf&E&Hbf&Hc0). rewrite (bind_Ret _ _ _ _ _ E). clear E.
  rewrite put_fields_spec by done. erewrite bind_Ret by reflexivity. erewrite bind_Ret by reflexivity.
  set (c0 := async_spec.took_buffer c) in *.
  assert (solo (alone c es l (WGuard p (Caller b))) (inside c0 es l (WCheck p (Caller b)))) as H0.
  { apply (solo_step _ (alone c es l (WLock p (Caller b)))); [|by apply rtc_once].
    unfold advance. simpl. replace (_ =? _) with true by lia. rewrite Hm. reflexivity. }
  change (async.closed c0) with (async.closed c). destruct (async.closed c) eqn:Ho.
  { eexists _, c0, l. split; [done|]. etrans; [exact H0|].
    eapply solo_step; [|apply (solo_leave c0 es l p b Refused)]. unfold advance. simpl. by rewrite Ho. }
  assert (solo (alone c es l (WGuard p (Caller b))) (inside c0 es l (WDeadline p (Caller b)))) as H1.
  { etrans; [exact H0|]. apply rtc_once. unfold advance. simpl. by rewrite Ho. }
  clear H0. destruct (async.ok_open c Hc Ho) as (Hf&_).
  destruct (solo_write_deadline c0 es l p (Caller b)) as (r1&o1&E1&Hw1&Hcl1&Hd1&S1). rewrite (bind_Ret _ _ _ _ _ E1).
  set (c1 := async.set_out o1 c0) in *.
  assert (fit b c1) as Hfit1.
  { split; [apply async.async_ok_out; [done|unfold writer_ok, Buffered; rewrite Hw1; apply Hc0|by rewrite Hw1|done]|].
    intros Hb. apply Hd1; [by apply Hd|apply (async.ok_open c Hc Ho)]. }
  destruct r1 as [e|]; cbn iota.
  { destruct (solo_failed b d c1 es l p e Hfit1) as (r&c'&E&S). exists r, c', l. split; [apply E|].
    etrans; [exact H1|]. by etrans. }
  destruct (solo_header c1 es l p (Caller b) (proj1 Hfit1)) as (n&r2&o2&E2&Ho2&Hle2&S2).
  change (header_bytes _) with (encodedMetadata p). rewrite (bind_Ret _ _ _ _ _ E2). cbn iota.
  erewrite bind_Ret by reflexivity. set (c2 := async.set_buffers _ (async.set_out o2 c1)).
  assert (fit b c2) as Hfit2.
  { apply (fit_calm b (async.metadata_PutBuffer (encodedMetadata p)) (async.set_out o2 c1) tt c2); [|done| |reflexivity].
    - apply async.metadata_PutBuffer_calm, len_header_bytes.
    - by apply fit_out. }
  assert (solo (alone c es l (WGuard p (Caller b))) (inside c2 es (l ++ [(0%nat, p)])
    (match r2 with Some e => WUnlock p (Caller b) (Failed e) | None => WContent p (Caller b) end))) as H2.
  { etrans; [exact H1|]. etrans; [exact S1|]. exact S2. }
  clear H1 S1 S2. destruct r2 as [e|].
  { destruct (solo_failed b d c2 es (l ++ [(0%nat, p)]) p e Hfit2) as (r&c'&E&S). eexists r, c', _.
    split; [apply E|]. by etrans. }
  destruct (solo_rest b d c2 es (l ++ [(0%nat, p)]) p Hfit2 Hf Hl) as (r&c'&E&S).
  exists r, c', (l ++ [(0%nat, p)]). split; [exact E|by etrans].
Qed.

(** [flush], likewise. *)
Lemma solo_flush c es l :
  async.async_ok c →
  ∃ r c', async.flush c = (Ret r, c') ∧
    solo (alone c es l FLock)
      (alone c' es l (match r with Some e => CSwap (ByError None e) | None => Returned None None end)).
Proof.
  intros Hc. unfold async.flush. rewrite (bind_Ret get _ c c c) by done.
  assert (∀ c r, solo (inside c es l (FUnlock r))
    (alone c es l (match r with Some e => CSwap (ByError None e) | None => Returned None None end))) as Hu
    by (intros ? []; by apply rtc_once).
  assert (solo (alone c es l FLock) (inside c es l FCheck)) as H0 by (by apply rtc_once).
  destruct (async.closed c) eqn:Ho.
  { exists (Some ConnectionClosed), c. split; [done|]. etrans; [exact H0|].
    eapply solo_step; [|apply (Hu c (Some ConnectionClosed))]. unfold advance. simpl. by rewrite Ho. }
  destruct (Buffered (async.out c) >? 0) eqn:Hb.
  2:{ exists None, c. split; [done|]. etrans; [exact H0|]. eapply solo_step; [|apply (Hu c None)].
      unfold advance. simpl. by rewrite Ho, Hb. }
  destruct (solo_deadline c) as (r1&o1&E1&Ez&Hw&_). rewrite (bind_Ret _ _ _ _ _ E1).
  assert (solo (alone c es l FLock) (inside (async.set_out o1 c) es l
    (match r1 with Some e => FUnlock (Some e) | None => FFlush end))) as H1.
  { etrans; [exact H0|]. apply (solo_step _ (inside c es l FDeadline)).
    - unfold advance. simpl. by rewrite Ho, Hb.
    - apply rtc_once. unfold advance. simpl. unfold deadline. simpl. rewrite Ez. by destruct r1. }
  destruct r1 as [e|]; [eexists _, _; split; [done|]; etrans; [exact H1|]; apply (Hu _ (Some e))|].
  destruct (Flush_took o1) as (r2&o2&E2&_); [unfold writer_ok, Buffered; rewrite Hw; apply Hc|].
  exists r2, (async.set_out o2 c). split.
  - unfold mbind, M_bind, async.on_out, zoom. simpl. rewrite E2. by destruct r2.
  - etrans; [exact H1|]. eapply solo_step; [|apply (Hu _ r2)]. unfold advance. simpl. unfold call, deadline_call. simpl.
    by rewrite E2.
Qed.

Lemma flush_fit c r c' : fit true c → async.flush c = (Ret r, c') → fit true c'.
Proof.
  intros Hf E. pose proof Hf as [Hc Hd]. unfold async.flush in E. rewrite (bind_Ret get _ c c c) in E by done.
  destruct (async.closed c) eqn:Ho; [by injection E as _ <-|].
  destruct (Buffered (async.out c) >? 0); [|by injection E as _ <-].
  rewrite (bind_Ret _ _ _ _ _ (working_SetWriteDeadline c (conj (Hd eq_refl) (proj1 (proj2 (proj2 (proj2 (async.ok_open c Hc Ho)))))))) in E.
  destruct (Writer_Flush_returns (async.out c)) as (r'&o&E'&Ho'&Hle); [apply Hc|].
  unfold mbind, M_bind, async.on_out, zoom in E. rewrite E' in E.
  assert (c' = async.set_out o c) as -> by (destruct r'; by injection E as _ <-). by apply fit_out.
Qed.

Lemma solo_Flush c es l :
  async.async_ok c → wdeadlines (async.aconn c) = [] →
  ∃ r c', async.Flush c = (Ret r, c') ∧ solo (alone c es l FLock) (alone c' es l (Returned None r)).
Proof.
  intros Hc Hd. destruct (solo_flush c es l Hc) as (r&c1&E&S1). unfold async.Flush. rewrite (bind_Ret _ _ _ _ _ E).
  destruct r as [e|]; [|by exists None, c1].
  destruct (flush_fit c (Some e) c1 (conj Hc (λ _, Hd)) E) as [Hc1 Hd1].
  destruct (solo_closeWithError None e 1 c1 es l Hc1 (Hd1 eq_refl)) as (e'&c'&E'&S2).
  change (async.closeWithError_body _) with async.closeWithError in E'. rewrite (bind_Ret _ _ _ _ _ E').
  eexists _, c'. split; [done|]. by etrans.
Qed.


End alone.

(** ** Witnesses *)

Import concrete.

Lemma closing_amid_closes :
  (λ c, (closed c, winners c)) <$> run closing_amid three_calls = Some (true, 0%nat).
Proof. vm_compute. reflexivity. Qed.

Lemma close_delivers_witness :
  ∃ c, run closing_amid three_calls = Some c ∧
  wire (conn (out c)) = frames (log c) ∧
  (∀ i p, (i, p) ∈ log c ↔ gs c !! i = Some (Returned (Some p) None)) ∧
  (∀ i p e, gs c !! i = Some (Returned (Some p) (Some e)) →
     e = ConnectionClosed ∨ e = InvalidContentLength ∨ e = ContentLengthExceeded) ∧
  (∀ c', rtc any_step c c' → wire (conn (out c')) = wire (conn (out c)) ∧ log c' = log c).
Proof.
  destruct (completed_reachable _ _ _ three_calls_reachable closing_amid_completes) as (c&E&Hr).
  exists c. split; [exact E|]. pose proof closing_amid_closes as Hf. rewrite E in Hf.
  injection Hf as Hcl Hw.
  exact (close_delivers fresh_socket c (conj eq_refl eq_refl) (conj eq_refl (conj eq_refl eq_refl)) Hr Hcl Hw).
Defined.

Lemma writers_progress_witness :
  (∀ c', step three_calls c' → (total_load c' < total_load three_calls)%nat) ∧
  ((∀ i q, gs three_calls !! i = Some q → returned q = true) ∨ ∃ c', step three_calls c').
Proof. exact (writers_progress fresh_socket three_calls (conj eq_refl eq_refl) three_calls_reachable). Defined.

(** A packet is in the buffer, and the socket will refuse it: [Flush] fails and
    closes the connection. *)
Definition unlucky : async.Async := (async.writePacket hello true (fresh_conn [Some (0, EOF)])).2.

Lemma unlucky_ok : async.async_ok unlucky.
Proof.
  pose proof (async.writePacket_keeps hello true _ (fresh_conn_ok [Some (0, EOF)])) as H. unfold unlucky, wp in *.
  destruct (async.writePacket hello true _) as [[] c']; by destruct H.
Qed.


End delivery.
